(* ===== verification/_CoqProject ===== *)
-Q . S2P
Prelude.v
Worklist.v
Kahn.v
Path.v
Ids.v
Position.v
Doc.v
DocPath.v
DocList.v
DocMerge.v
Errors.v
Crypto.v
Permission.v
AuthTypes.v
AuthSettings.v
Entry.v
Backend.v
Traversal.v
Reachability.v
Validation.v
CrdtCache.v
StoreTips.v
MergeBase.v
BackendSteps.v
Verify.v
VerifyCases.v
IdsAdded.v
Frontier.v
InstanceOps.v
WireCodec.v
Transaction.v
StoreState.v
Stores.v
Commit.v
TxFrame.v
CommitSpec.v
CommitVerdict.v
Lifecycle.v
Settings.v
SyncWalk.v
SyncAuth.v
Table.v
Node.v
Room.v
StoreView.v
Peers.v
UserSync.v
Bootstrap.v
SyncHandler.v
SyncTransport.v
SyncClient.v
SyncEngine.v
SyncExchange.v
SyncRetry.v
SyncFlow.v
UserKeys.v
UserDirectory.v
Session.v
