(* ===== verification/Prelude.v ===== *)
(** * Eidetica: a verification development

    Eidetica (src/crates/lib/src) is a decentralised database.  A database is a
    tree of signed, content-addressed entries; each entry names its parents in
    the tree and, for each store it writes, its parents in that store, and
    carries a change of the store's document.  Replicas exchange entries, and
    the state of a store is the merge of its entries.  An entry counts for
    readers once a verification pass has checked its signature against the
    settings that the entry pins.

    ** The parts and their files

    - Prelude: results, panics, machine integers, strings, sorting; Worklist:
      the loop all graph walks share, with its invariant and its fuel; Kahn:
      the topological sort of database/mod.rs.
    - The document CRDT (crdt/doc): Path (path.rs), Position and DocList
      (list.rs), Doc and DocPath (value.rs, mod.rs), DocMerge (merging).
    - Ids: IDs and snapshots (entry/id.rs, snapshot.rs); Errors: the error
      types; Entry: entries, their builder, heights and signing
      (entry/mod.rs, entry/builder.rs, height.rs).
    - Authentication (auth): Crypto (crypto.rs), Permission and AuthTypes
      (types/, permission.rs), AuthSettings (settings.rs), Validation
      (validation/).
    - The in-memory backend (backend/database/in_memory): Backend (storage.rs,
      mod.rs), Traversal (traversal.rs), StoreTips and MergeBase (theorems on
      traversal.rs), CrdtCache (cache.rs), BackendSteps (the backend as a state
      machine, persistence.rs); Reachability: the check of backend/mod.rs.
    - The database handle (database/mod.rs): Verify (the settings an entry
      pins and the verification pass), VerifyCases (runs of the pass),
      IdsAdded (ids_added), Frontier (verified_frontier).
    - InstanceOps: writes, write callbacks, snapshots and demotion
      (instance/mod.rs), as a state machine over the operations.
    - Transactions and stores: Transaction (transaction/mod.rs: the staged entry,
      encryption, the state of a store), StoreState (what that state is, and the
      cache of states), Stores (store/docstore.rs, store/registry.rs, and
      Transaction::get_store), Commit (Transaction::commit and
      Database::new_transaction), with its theorems in TxFrame (a program logic
      for what reads and staging keep), CommitSpec, CommitVerdict and Lifecycle.
      A transaction is a computation in a state monad over the backend, its
      cache of states and the entry being built; a commit also carries the
      instance and the events delivered.

    - Node: an instance as a state monad over the instance, the cache of states
      and the readings of the clock; creation of databases and access decisions
      (database/mod.rs).  Settings: the settings store (store/settings_store.rs)
      and the implementation of [InstanceSpec]; Table: store/table.rs;
      StoreView: what reads and writes of document stores compute.
    - Synchronisation (sync): SyncAuth (protocol.rs and the authentication of
      requests), SyncWalk (handler_tree_ops.rs, utils.rs), Peers
      (peer_manager.rs, peer.rs, peer_types.rs), UserSync
      (user_sync_manager.rs, user.rs, instance/settings_merge.rs), Bootstrap
      (bootstrap_request_manager.rs, bootstrap.rs), SyncHandler (handler.rs),
      SyncTransport (transport_manager.rs, transports/http.rs, queue.rs),
      SyncClient (ops.rs, background/, transport.rs), SyncEngine (the loop of
      background/mod.rs); SyncExchange, SyncRetry and SyncFlow: what becomes of
      entries between two instances, one of which answers the requests of the
      other through [handle_request].
    - Users (user): UserKeys (types.rs, crypto.rs, key_manager.rs), UserDirectory
      (system_databases.rs; construction of an instance and login of
      instance/mod.rs), Session (session/mod.rs, session/builder.rs, admin.rs).
    - WireCodec: concrete codecs, for the witnesses.
    A state of the code is a record ([InMemoryInner], [InMemory],
    [InstanceState]), an operation is a function from the state and its
    arguments to the new state and a result, and definitions carry the names of
    the source.  [Result] is Rust's result, [Outcome] adds panics, and an outer
    [option] is a loop that ran out of fuel.

    ** What the theorems show

    - Documents: what a merge gives at every key, its laws and where
      associativity holds, merging a change as performing it, list operations by
      index, positions strictly between their neighbours, reads and writes
      through paths.
    - Entries: which entries are valid, the canonical form of built entries,
      signatures that verify, heights that increase and do not overflow.
    - Authentication: when an entry is accepted, that a revoked key is not, that
      an active one is, that a delegation never exceeds its bounds; operations
      on the settings as on a map; stored forms that read back.
    - Backend: in every reachable state the cached tips are exact and no entry
      is lost; the order of arrival is irrelevant; the traversals return exactly
      the reachable entries; the merge base is the highest common dominator, and
      the path from it holds each entry that is missing from its state.
    - Verification: the pass ends, changes only the unverified region, gives each
      entry the verdict of its parents and pinned settings, and the verified set
      stays closed under ancestors in every reachable state of an instance; the
      frontier is exactly the tips of the verified prefix; the events of a
      callback are contiguous.
    - Transactions: the state of a store, computed from a merge base and cached
      states, is the merge of all its entries below the transaction's parents in
      height order; where the history is complete, cached states stay valid when
      entries arrive; a write is read back in its transaction.
    - Commits: a commit ends, stores exactly one entry or none, and the entry is
      what was staged, signed, valid, authorised and higher than its parents;
      the verdict of a commit is the verdict of a later verification pass as long
      as the handle sees the parents of the transaction; and a transaction on the
      verified frontier, from opening to commit, keeps the verified set closed.

    - Access: a key is let in exactly by what the settings or a delegation grant;
      a request for access is decided only by an administrator.
    - Synchronisation: a signature covers one request, and a nonce is accepted
      once; every request is answered, and entries leave only for trees with
      sync enabled and, where authentication is required, to a key that signed
      the request and that the database grants the permission; the walks send
      every entry of a tree, and what a peer is missing; peers, tables and
      settings are read as they were written.  An exchange that succeeds leaves
      both instances with what either had; a local write is queued, and a flush
      that succeeds has brought it to the peer; retries are bounded; a batch
      that is pulled leaves no entry without its parents.
    - Users: the keys of a session are read back as they were written; an account
      is unlocked by the password that made it and by no other; a login is
      admitted only for the one active account of its name, and a refused one
      stores nothing; a session keeps its keys whatever fails, opens a database
      with its oldest mapped key only, and maps a key only to an identity that
      the database grants it.
    ** Interfaces

    Code outside the repository is a class: [CidSpec] (content identifiers),
    [CryptoSpec] (signatures), [CodecSpec] (DAG-CBOR and JSON of documents),
    [JsonSpec], [RowCodec], [PeerJson] and [UserJson] (JSON of metadata, rows,
    addresses and sync settings), [LruSpec] (the LRU container), [NodeEnv] (the
    clock, random draws and the order of hash maps), [SyncTransport] (a transport
    and the network behind it), [VaultSpec] (Argon2 and AES-GCM) and [UserEnv]
    (the keys, salts and nonces that are drawn).
    [InstanceSpec] is what validation uses of an instance.  Each has a concrete
    instance, and the witnesses are evaluated there.  An encryptor is a pair of
    functions, the hash that names a merged state a function.  The order in which a hash
    map or set is iterated is an argument, assumed to be a permutation of its
    elements.

    ** Fuel

    The fuel of a walk is computed from the stored entries: one step for each
    tip and each parent reference.  Worklist shows that it is enough, so a walk
    that runs out of fuel does not occur, and the theorems state that the
    functions return.

    ** Not modelled

    The SQL backend, the service protocol, the iroh transport and the sockets
    under the HTTP one, instances that are connected to a service, tickets,
    password-protected stores, the Yjs document, the command line program, the
    clock (its readings are arguments) and file I/O: text that a server
    executes, sockets and tasks, or third-party code.  Locks and tasks are not modelled:
    an operation runs under the lock of its tree and is one step here.  A
    callback is recorded as a delivery and not run. *)

From Stdlib Require Export ZArith Lia Ascii.
From Stdlib Require Import DecimalString DecimalN DecimalFacts.
From stdpp Require Export base tactics option list gmap gmultiset fin_maps strings sorting.

Open Scope Z_scope.

(** ** Results, panics and machine integers *)

(** Rust's [Result<A, E>]. *)
Inductive Result (A E : Type) : Type :=
| Ok (a : A)
| Err (e : E).
Arguments Ok {_ _} _.
Arguments Err {_ _} _.

(** A computation that may panic ([assert!], [expect], an arithmetic overflow,
    a slice index out of range). *)
Inductive Outcome (A : Type) : Type :=
| Done (a : A)
| Panic.
Arguments Done {_} _.
Arguments Panic {_}.

Declare Scope eidetica_scope.
Delimit Scope eidetica_scope with eid.

Definition result_bind {A B E} (r : Result A E) (k : A -> Result B E) : Result B E :=
  match r with Ok a => k a | Err e => Err e end.

Definition outcome_bind {A B} (r : Outcome A) (k : A -> Outcome B) : Outcome B :=
  match r with Done a => k a | Panic => Panic end.

(** Rust's [r?]. *)
Notation "'let?' x ':=' r 'in' k" := (result_bind r (fun x => k))
  (at level 200, x pattern, r at level 100, k at level 200) : eidetica_scope.

(** Sequencing of computations that may panic. *)
Notation "'let!' x ':=' r 'in' k" := (outcome_bind r (fun x => k))
  (at level 200, x pattern, r at level 100, k at level 200) : eidetica_scope.

Open Scope eidetica_scope.

Definition is_ok {A E} (r : Result A E) : bool :=
  match r with Ok _ => true | Err _ => false end.

Definition ok_or {A E} (o : option A) (e : E) : Result A E :=
  match o with Some a => Ok a | None => Err e end.

Definition map_err {A E F} (f : E -> F) (r : Result A E) : Result A F :=
  match r with Ok a => Ok a | Err e => Err (f e) end.

Definition result_ok {A E} (r : Result A E) : option A :=
  match r with Ok a => Some a | Err _ => None end.

Fixpoint result_collect {A E} (l : list (Result A E)) : Result (list A) E :=
  match l with
  | [] => Ok []
  | r :: rs => let? a := r in let? t := result_collect rs in Ok (a :: t)
  end.

Definition i64_min : Z := - 2 ^ 63.
Definition i64_max : Z := 2 ^ 63 - 1.
Definition u64_max : Z := 2 ^ 64 - 1.
Definition u32_max : Z := 2 ^ 32 - 1.

Definition in_range (lo hi z : Z) : bool := (lo <=? z) && (z <=? hi).
Definition is_i64 : Z -> bool := in_range i64_min i64_max.
Definition is_u64 : Z -> bool := in_range 0 u64_max.
Definition is_u32 : Z -> bool := in_range 0 u32_max.
Definition is_i128 : Z -> bool := in_range (- 2 ^ 127) (2 ^ 127 - 1).

(** [z as i64], [z as u64], [z as u32]: truncation to the low bits. *)
Definition as_i64 (z : Z) : Z := (z + 2 ^ 63) mod 2 ^ 64 - 2 ^ 63.
Definition as_u64 (z : Z) : Z := z mod 2 ^ 64.
Definition as_u32 (z : Z) : Z := z mod 2 ^ 32.

(** The result of an arithmetic operation at its width, panicking when it does
    not fit (Rust's overflow checks). *)
Definition checked (fits : Z -> bool) (z : Z) : Outcome Z :=
  if fits z then Done z else Panic.

Definition i64_saturating (z : Z) : Z := Z.max i64_min (Z.min i64_max z).
Definition u64_saturating (z : Z) : Z := Z.max 0 (Z.min u64_max z).

(** ** Strings *)

Definition dot : ascii := "."%char.
Definition colon : ascii := ":"%char.

(** [s.contains(c)] for an ASCII character. *)
Fixpoint str_contains (c : ascii) (s : string) : bool :=
  match s with
  | EmptyString => false
  | String a s' => if decide (a = c) then true else str_contains c s'
  end.

(** [s.is_empty()]. *)
Definition str_is_empty (s : string) : bool :=
  match s with EmptyString => true | String _ _ => false end.

(** [s.split(c)]: the empty string splits into one empty piece. *)
Fixpoint str_split (c : ascii) (s : string) : list string :=
  match s with
  | EmptyString => [EmptyString]
  | String a s' =>
      if decide (a = c) then EmptyString :: str_split c s'
      else match str_split c s' with
           | [] => [String a EmptyString]
           | w :: ws => String a w :: ws
           end
  end.

(** [l.join(c)] with a one-character separator. *)
Fixpoint str_join (c : ascii) (l : list string) : string :=
  match l with
  | [] => EmptyString
  | [w] => w
  | w :: ws => w +:+ String c (str_join c ws)
  end.

(** [s.rfind(c)], returning the text before and after the last [c]. *)
Fixpoint str_rsplit (c : ascii) (s : string) : option (string * string) :=
  match s with
  | EmptyString => None
  | String a s' =>
      match str_rsplit c s' with
      | Some (l, r) => Some (String a l, r)
      | None => if decide (a = c) then Some (EmptyString, s') else None
      end
  end.

(** [s.parse::<uN>()] for an unsigned type with maximum [max]: an optional
    leading [+], then at least one decimal digit, and no overflow. *)
Definition parse_digits (max : Z) (s : string) : option Z :=
  match NilZero.uint_of_string s with
  | Some d => let z := Z.of_N (N.of_uint d) in if z <=? max then Some z else None
  | None => None
  end.

Definition parse_uint (max : Z) (s : string) : option Z :=
  match s with
  | String a s' => if decide (a = "+"%char) then parse_digits max s' else parse_digits max s
  | EmptyString => None
  end.

(** [n.to_string()] for an unsigned integer. *)
Definition uint_to_string (z : Z) : string :=
  NilZero.string_of_uint (N.to_uint (Z.to_N z)).

(** ** Stable sorting and deduplication of vectors *)

(** [v.sort_by(..)] is stable; a stable insertion sort has the same result. *)
Fixpoint insert_by {A} (leb : A -> A -> bool) (x : A) (l : list A) : list A :=
  match l with
  | [] => [x]
  | y :: ys => if leb x y then x :: y :: ys else y :: insert_by leb x ys
  end.

Definition sort_by {A} (leb : A -> A -> bool) (l : list A) : list A :=
  foldr (insert_by leb) [] l.

(** [v.dedup()]: drop each element equal to the one kept before it. *)
Fixpoint dedup {A} `{EqDecision A} (l : list A) : list A :=
  match l with
  | [] => []
  | x :: xs =>
      match dedup xs with
      | [] => [x]
      | y :: ys => if decide (x = y) then y :: ys else x :: y :: ys
      end
  end.

(** ** Automation *)

Create HintDb eid discriminated.

(** Case analysis on the innermost scrutinee of a [match] or [if]. *)
Ltac case_inner :=
  match goal with
  | |- context [match ?x with _ => _ end] =>
      lazymatch x with
      | context [match _ with _ => _ end] => fail
      | _ => destruct x eqn:?
      end
  | H : context [match ?x with _ => _ end] |- _ =>
      lazymatch x with
      | context [match _ with _ => _ end] => fail
      | _ => destruct x eqn:?
      end
  end.

(** Unfold the monadic layer and split on every result. *)
Ltac monad_cases :=
  unfold result_bind, outcome_bind, ok_or, map_err, checked in *;
  repeat (case_inner; simplify_eq/=; try done).

(** Turn boolean range tests into inequalities. *)
Ltac ranges :=
  unfold is_i64, is_u64, is_u32, is_i128, in_range,
    i64_min, i64_max, u64_max, u32_max in *;
  rewrite ?andb_true_iff, ?andb_false_iff, ?Z.leb_le, ?Z.leb_gt in *.

(** ** Lemmas on results *)

Lemma result_collect_ok {A B E} (f : A -> Result B E) (l : list A) (r : list B) :
  result_collect (f <$> l) = Ok r <-> Forall2 (fun a b => f a = Ok b) l r.
Proof.
  revert r. induction l as [|a l IH]; intros r.
  - split; [intros [= <-]; constructor|by inversion 1].
  - rewrite fmap_cons. cbn [result_collect]. split.
    + destruct (f a) as [b|] eqn:Eb; [|done]. simpl.
      destruct (result_collect (f <$> l)) as [r'|] eqn:Er; [|done]. intros [= <-].
      constructor; [done|]. by apply IH.
    + inversion 1 as [|? b ? r' Hb Hr]; subst. rewrite Hb. apply IH in Hr. by rewrite Hr.
Qed.

(** The elements of a collected result are those the function returns. *)
Lemma elem_of_result_collect {A B E} (f : A -> Result B E) l r b :
  result_collect (f <$> l) = Ok r -> b ∈ r <-> exists a, a ∈ l /\ f a = Ok b.
Proof.
  rewrite result_collect_ok. induction 1 as [|a c l r Hac _ IH]; [set_solver|].
  rewrite elem_of_cons, IH. split.
  - intros [->|(a' & Ha' & Hf)]; [exists a; set_solver|exists a'; set_solver].
  - intros (a' & [->|Ha']%elem_of_cons & Hf); [left; congruence|right; eauto].
Qed.

(** ** Lemmas on machine integers *)

Lemma as_i64_id z : is_i64 z = true -> as_i64 z = z.
Proof. ranges. unfold as_i64. intros [??]. rewrite Z.mod_small; lia. Qed.

Lemma as_u64_id z : is_u64 z = true -> as_u64 z = z.
Proof. ranges. unfold as_u64. intros [??]. rewrite Z.mod_small; lia. Qed.

Lemma as_u32_id z : is_u32 z = true -> as_u32 z = z.
Proof. ranges. unfold as_u32. intros [??]. rewrite Z.mod_small; lia. Qed.

Lemma as_i64_range z : is_i64 (as_i64 z) = true.
Proof.
  ranges. unfold as_i64. pose proof (Z.mod_pos_bound (z + 2 ^ 63) (2 ^ 64)). lia.
Qed.

Lemma as_u64_range z : is_u64 (as_u64 z) = true.
Proof. ranges. unfold as_u64. pose proof (Z.mod_pos_bound z (2 ^ 64)). lia. Qed.

Lemma as_u32_range z : is_u32 (as_u32 z) = true.
Proof. ranges. unfold as_u32. pose proof (Z.mod_pos_bound z (2 ^ 32)). lia. Qed.

#[export] Hint Resolve as_i64_id as_u64_id as_u32_id as_i64_range as_u64_range
  as_u32_range : eid.

(** ** Lemmas on strings *)

Lemma str_split_ne c s : str_split c s <> [].
Proof. destruct s as [|a s]; simpl; [done|]. case_decide; [done|]. by destruct (str_split c s). Qed.

(** Joining the pieces gives the string back. *)
Lemma str_join_split c s : str_join c (str_split c s) = s.
Proof.
  induction s as [|a s IH]; simpl; [done|].
  pose proof (str_split_ne c s). case_decide; subst.
  - destruct (str_split c s) as [|w ws] eqn:E; [done|]. simpl in *. by rewrite IH.
  - destruct (str_split c s) as [|w [|w' ws]]; simpl in *; [done|by rewrite IH|].
    by rewrite <- IH.
Qed.

Lemma str_split_pieces c s : Forall (fun w => str_contains c w = false) (str_split c s).
Proof.
  induction s as [|a s IH]; simpl; [by repeat constructor|].
  case_decide; subst; [by constructor|].
  destruct (str_split c s) as [|w ws]; [repeat constructor; simpl; by case_decide|].
  inversion_clear IH. constructor; [|done]. simpl. by case_decide.
Qed.

Lemma str_split_none c s : str_contains c s = false -> str_split c s = [s].
Proof.
  induction s as [|a s IH]; simpl; [done|]. case_decide; [done|].
  intros H0. by rewrite (IH H0).
Qed.

Lemma str_split_app c w s :
  str_contains c w = false -> str_split c (w +:+ String c s) = w :: str_split c s.
Proof.
  induction w as [|a w IH]; simpl; [by rewrite decide_True by done|].
  case_decide; [done|]. intros H0. fold (w +:+ String c s). by rewrite (IH H0).
Qed.

(** Splitting a join of separator-free pieces gives the pieces back. *)
Lemma str_split_join c l :
  l <> [] -> Forall (fun w => str_contains c w = false) l -> str_split c (str_join c l) = l.
Proof.
  induction l as [|w ws IH]; intros Hne Hl; [done|].
  inversion Hl as [|?? Hw Hws]; subst.
  destruct ws as [|w' ws']; [by apply str_split_none|].
  change (str_join c (w :: w' :: ws')) with (w +:+ String c (str_join c (w' :: ws'))).
  rewrite str_split_app by done. by rewrite IH.
Qed.

(** Splitting distributes over a separator. *)
Lemma str_split_sep c s t : str_split c (s +:+ String c t) = str_split c s ++ str_split c t.
Proof.
  induction s as [|a s IH]; [simpl; by rewrite decide_True by done|].
  change (String a s +:+ String c t) with (String a (s +:+ String c t)). simpl.
  rewrite IH. pose proof (str_split_ne c s). case_decide; [done|].
  by destruct (str_split c s).
Qed.

Lemma str_rsplit_Some c s l r :
  str_rsplit c s = Some (l, r) -> s = l +:+ String c r /\ str_contains c r = false.
Proof.
  revert l r. induction s as [|a s IH]; intros l r; simpl; [done|].
  destruct (str_rsplit c s) as [[l' r']|] eqn:E.
  - intros [= <- <-]. destruct (IH l' r' eq_refl) as [-> ?]. done.
  - case_decide; [|done]. intros [= <- <-]. subst. split; [done|].
    clear IH. induction s as [|b s IH]; [done|]. simpl in *.
    destruct (str_rsplit c s) as [[??]|]; [done|]. case_decide; [done|]. by apply IH.
Qed.

Lemma str_rsplit_None c s : str_rsplit c s = None <-> str_contains c s = false.
Proof.
  induction s as [|a s IH]; simpl; [done|].
  destruct (str_rsplit c s) as [[??]|]; case_decide; naive_solver.
Qed.

Lemma str_app_assoc s t u : (s +:+ t) +:+ u = s +:+ (t +:+ u).
Proof.
  induction s as [|a s IH]; [done|].
  change (String a ((s +:+ t) +:+ u) = String a (s +:+ (t +:+ u))). by rewrite IH.
Qed.

Lemma str_contains_app c s t : str_contains c (s +:+ t) = str_contains c s || str_contains c t.
Proof.
  induction s as [|a s IH]; [done|]. simpl. case_decide; [done|]. by fold (s +:+ t).
Qed.

Lemma str_is_empty_true s : str_is_empty s = true <-> s = EmptyString.
Proof. by destruct s. Qed.

Lemma str_is_empty_false s : str_is_empty s = false <-> s <> EmptyString.
Proof. by destruct s. Qed.

(** ** Lemmas on sorting *)

Section sorting.
Context {A : Type} (leb : A -> A -> bool).

Lemma insert_by_perm x l : insert_by leb x l ≡ₚ x :: l.
Proof.
  induction l as [|y ys IH]; simpl; [done|]. destruct (leb x y); [done|].
  rewrite IH. apply Permutation_swap.
Qed.

Lemma sort_by_perm l : sort_by leb l ≡ₚ l.
Proof. induction l as [|x l IH]; simpl; [done|]. by rewrite insert_by_perm, IH. Qed.

Lemma elem_of_sort_by x l : x ∈ sort_by leb l <-> x ∈ l.
Proof. by rewrite sort_by_perm. Qed.

Context (leb_total : forall x y, leb x y = true \/ leb y x = true).

Lemma insert_by_sorted x l :
  Sorted (fun a b => leb a b = true) l ->
  Sorted (fun a b => leb a b = true) (insert_by leb x l).
Proof.
  induction 1 as [|y ys Hys IH Hhd]; simpl; [by repeat constructor|].
  destruct (leb x y) eqn:E; [by repeat constructor|].
  constructor; [done|].
  assert (leb y x = true) by (destruct (leb_total x y); congruence).
  inversion Hhd; subst; simpl; [by constructor|].
  by destruct (leb x b); constructor.
Qed.

Lemma sort_by_sorted l : Sorted (fun a b => leb a b = true) (sort_by leb l).
Proof. induction l; simpl; [constructor|]. by apply insert_by_sorted. Qed.
End sorting.

Lemma forallb_false {A} (f : A -> bool) l : forallb f l = false -> exists x, x ∈ l /\ f x = false.
Proof.
  induction l as [|x l IH]; simpl; [done|]. destruct (f x) eqn:E; simpl.
  - intros (y & Hy & Hf)%IH. exists y. set_solver.
  - intros _. exists x. set_solver.
Qed.

Lemma list_delete_ge {A} (l : list A) i : (length l <= i)%nat -> delete i l = l.
Proof.
  revert i. induction l as [|x l IH]; intros [|i] Hi; simpl in *; [done..|lia|].
  f_equal. apply IH. lia.
Qed.

Lemma list_filter_id {A} (P : A -> Prop) `{!forall x, Decision (P x)} (l : list A) :
  Forall P l -> filter P l = l.
Proof. induction 1; [done|]. by rewrite filter_cons_True, IHForall. Qed.

Lemma elem_of_dedup {A} `{EqDecision A} (x : A) l : x ∈ dedup l <-> x ∈ l.
Proof.
  induction l as [|y l IH]; [done|]. simpl. destruct (dedup l) as [|z zs]; [set_solver|].
  case_decide; subst; set_solver.
Qed.

(** Deduplicating a list sorted by a partial order leaves it strictly sorted. *)
Lemma dedup_sorted {A} `{EqDecision A} (R : relation A) `{!PartialOrder R} l :
  Sorted R l -> StronglySorted (strict R) (dedup l).
Proof.
  intros Hs%(Sorted_StronglySorted R). induction Hs as [|x l Hl IH Hx]; simpl; [constructor|].
  assert (Forall (R x) (dedup l)) as Hx'.
  { apply Forall_forall. intros y Hy. rewrite elem_of_dedup in Hy. rewrite Forall_forall in Hx. by apply Hx. }
  destruct (dedup l) as [|y ys]; [by repeat constructor|].
  case_decide as Hne; [done|]. constructor; [done|].
  inversion IH as [|?? _ Hy]; subst. rewrite Forall_forall in *. intros z Hz.
  split; [by apply Hx'|]. intros Hzx.
  assert (R x y) as Hxy by (apply Hx'; set_solver).
  apply elem_of_cons in Hz as [->|Hz]; [by apply Hne, (anti_symm R)|].
  destruct (Hy z Hz) as [Hyz Hnzy]. apply Hnzy. by trans x.
Qed.

(** Two strictly sorted lists with the same elements are equal. *)
Lemma strict_sorted_ext {A} (R : relation A) `{!PartialOrder R} l1 l2 :
  StronglySorted (strict R) l1 -> StronglySorted (strict R) l2 ->
  (forall x, x ∈ l1 <-> x ∈ l2) -> l1 = l2.
Proof.
  intros H1. revert l2. induction H1 as [|x l1 Hl1 IH Hx]; intros l2 H2 Heq.
  - destruct l2 as [|y ?]; [done|]. specialize (Heq y). set_solver.
  - destruct H2 as [|y l2 Hl2 Hy]; [specialize (Heq x); set_solver|].
    rewrite Forall_forall in Hx, Hy.
    assert (x = y) as ->.
    { assert (x ∈ y :: l2) as Hxy by (apply Heq; set_solver).
      assert (y ∈ x :: l1) as Hyx by (apply Heq; set_solver).
      apply elem_of_cons in Hxy as [->|Hxy]; [done|].
      apply elem_of_cons in Hyx as [->|Hyx]; [done|].
      destruct (Hx _ Hyx) as [_ []]. by destruct (Hy _ Hxy). }
    f_equal. apply IH; [done|]. intros z.
    assert (z ∈ l1 -> z <> y) by (intros Hz ->; by destruct (Hx _ Hz) as [? []]).
    assert (z ∈ l2 -> z <> y) by (intros Hz ->; by destruct (Hy _ Hz) as [? []]).
    specialize (Heq z). rewrite !elem_of_cons in Heq. naive_solver.
Qed.
(** ** Total orders given by a comparison function ([Ord]) *)

Class TotalCmp {A : Type} (cmp : A -> A -> comparison) : Prop := {
  cmp_eq a b : cmp a b = Eq <-> a = b;
  cmp_antisym a b : cmp b a = CompOpp (cmp a b);
  cmp_lt_trans a b c : cmp a b = Lt -> cmp b c = Lt -> cmp a c = Lt;
}.

Arguments cmp_eq {A} cmp {_} a b.
Arguments cmp_antisym {A} cmp {_} a b.
Arguments cmp_lt_trans {A} cmp {_} a b c _ _.

Definition cmp_leb {A} (cmp : A -> A -> comparison) (a b : A) : bool :=
  match cmp a b with Gt => false | _ => true end.

(** [a.cmp(b).then_with(..)]. *)
Definition cmp_then (c1 c2 : comparison) : comparison :=
  match c1 with Eq => c2 | _ => c1 end.

(** The first component decides, then the second ([Ord] of a pair). *)
Definition cmp_pair {A B} (cmpA : A -> A -> comparison) (cmpB : B -> B -> comparison)
    (x y : A * B) : comparison :=
  cmp_then (cmpA x.1 y.1) (cmpB x.2 y.2).

Section cmp.
Context {A : Type} (cmp : A -> A -> comparison) `{!TotalCmp cmp}.

Lemma cmp_refl a : cmp a a = Eq.
Proof. by apply (cmp_eq cmp). Qed.

Lemma cmp_leb_total a b : cmp_leb cmp a b = true \/ cmp_leb cmp b a = true.
Proof. unfold cmp_leb. rewrite (cmp_antisym cmp a b). destruct (cmp a b); auto. Qed.

Lemma cmp_leb_iff a b : cmp_leb cmp a b = true <-> cmp a b = Lt \/ a = b.
Proof.
  unfold cmp_leb. destruct (cmp a b) eqn:E.
  - apply (cmp_eq cmp) in E. naive_solver.
  - naive_solver.
  - split; [done|]. intros [?| ->]; [done|]. by rewrite cmp_refl in E.
Qed.

#[export] Instance cmp_leb_order : PartialOrder (fun a b => cmp_leb cmp a b = true).
Proof.
  split; [split|].
  - intros a. apply cmp_leb_iff. by right.
  - intros a b c. rewrite !cmp_leb_iff.
    intros [Hab| ->] [Hbc| ->]; [left; by eapply (cmp_lt_trans cmp)|by auto..].
  - intros a b. rewrite !cmp_leb_iff. intros [Hab|?] [Hba|?]; [|by subst..].
    rewrite (cmp_antisym cmp), Hab in Hba. done.
Qed.

Lemma cmp_leb_strict a b : strict (fun a b => cmp_leb cmp a b = true) a b <-> cmp a b = Lt.
Proof.
  unfold strict. rewrite !cmp_leb_iff, (cmp_antisym cmp a b). split.
  - intros [[?| ->] Hn]; [done|]. destruct Hn. by right.
  - intros Hlt. rewrite Hlt. split; [by left|]. intros [?| ->]; [done|]. by rewrite cmp_refl in Hlt.
Qed.

(** Sorting and deduplicating is the canonical form of a set. *)
Definition sort_dedup `{!EqDecision A} (l : list A) : list A := dedup (sort_by (cmp_leb cmp) l).

Lemma elem_of_sort_dedup `{!EqDecision A} x l : x ∈ sort_dedup l <-> x ∈ l.
Proof. unfold sort_dedup. by rewrite elem_of_dedup, elem_of_sort_by. Qed.

Lemma sort_dedup_sorted `{!EqDecision A} l :
  StronglySorted (fun a b => cmp a b = Lt) (sort_dedup l).
Proof.
  assert (StronglySorted (strict (fun a b => cmp_leb cmp a b = true)) (sort_dedup l)) as H.
  { apply dedup_sorted; [apply _|]. apply sort_by_sorted, cmp_leb_total. }
  induction H as [|x l' _ IH Hx]; constructor; [done|].
  eapply Forall_impl; [done|]. intros y. by rewrite cmp_leb_strict.
Qed.

Lemma sort_dedup_NoDup `{!EqDecision A} l : NoDup (sort_dedup l).
Proof.
  pose proof (sort_dedup_sorted l) as H. induction H as [|x l' _ IH Hx]; constructor; [|done].
  rewrite Forall_forall in Hx. intros Hin%Hx. by rewrite cmp_refl in Hin.
Qed.

Lemma cmp_sorted_ext l1 l2 :
  StronglySorted (fun a b => cmp a b = Lt) l1 -> StronglySorted (fun a b => cmp a b = Lt) l2 ->
  (forall x, x ∈ l1 <-> x ∈ l2) -> l1 = l2.
Proof.
  assert (forall l, StronglySorted (fun a b => cmp a b = Lt) l ->
    StronglySorted (strict (fun a b => cmp_leb cmp a b = true)) l) as Hs.
  { intros l H. induction H as [|x l' _ IH Hx]; constructor; [done|].
    eapply Forall_impl; [done|]. intros y. by rewrite cmp_leb_strict. }
  intros H1 H2. apply (strict_sorted_ext (fun a b => cmp_leb cmp a b = true)); by apply Hs.
Qed.

Lemma sort_dedup_ext `{!EqDecision A} l1 l2 :
  sort_dedup l1 = sort_dedup l2 <-> forall x, x ∈ l1 <-> x ∈ l2.
Proof.
  split.
  - intros H x. by rewrite <- elem_of_sort_dedup, H, elem_of_sort_dedup.
  - intros H. apply cmp_sorted_ext; [by apply sort_dedup_sorted..|].
    intros x. by rewrite !elem_of_sort_dedup.
Qed.

Lemma sort_dedup_id `{!EqDecision A} l :
  StronglySorted (fun a b => cmp a b = Lt) l -> sort_dedup l = l.
Proof.
  intros Hl. apply cmp_sorted_ext; [by apply sort_dedup_sorted|done|].
  intros x. apply elem_of_sort_dedup.
Qed.
End cmp.

#[export] Instance Z_compare_total : TotalCmp Z.compare.
Proof.
  split; [apply Z.compare_eq_iff|intros; apply Z.compare_antisym|].
  intros a b c. rewrite !Z.compare_lt_iff. lia.
Qed.

#[export] Instance Nat_compare_total : TotalCmp Nat.compare.
Proof.
  split; [apply Nat.compare_eq_iff|intros; apply Nat.compare_antisym|].
  intros a b c. rewrite !Nat.compare_lt_iff. lia.
Qed.

#[export] Instance cmp_pair_total {A B} (cA : A -> A -> comparison) (cB : B -> B -> comparison)
  `{!TotalCmp cA, !TotalCmp cB} : TotalCmp (cmp_pair cA cB).
Proof.
  unfold cmp_pair, cmp_then. split.
  - intros [a b] [a' b']. simpl. destruct (cA a a') eqn:E.
    + apply (cmp_eq cA) in E as ->. rewrite (cmp_eq cB). naive_solver.
    + split; [done|]. intros [= -> ->]. by rewrite (cmp_refl cA) in E.
    + split; [done|]. intros [= -> ->]. by rewrite (cmp_refl cA) in E.
  - intros [a b] [a' b']. simpl. rewrite (cmp_antisym cA a a'), (cmp_antisym cB b b').
    by destruct (cA a a').
  - intros [a b] [a' b'] [a'' b'']. simpl.
    destruct (cA a a') eqn:E1, (cA a' a'') eqn:E2; try done.
    + apply (cmp_eq cA) in E1 as ->, E2 as ->. rewrite (cmp_refl cA). apply (cmp_lt_trans cB).
    + apply (cmp_eq cA) in E1 as ->. by rewrite E2.
    + apply (cmp_eq cA) in E2 as ->. by rewrite E1.
    + by rewrite (cmp_lt_trans cA _ _ _ E1 E2).
Qed.

(** [Ord] of strings: bytes compared from the left. *)
#[export] Instance String_compare_total : TotalCmp String.compare.
Proof.
  split.
  - intros a. induction a as [|x a IH]; intros [|y b]; simpl; try done.
    unfold Ascii.compare. destruct (N.compare (Ascii.N_of_ascii x) (Ascii.N_of_ascii y)) eqn:E.
    + apply N.compare_eq in E. apply (f_equal Ascii.ascii_of_N) in E.
      rewrite !Ascii.ascii_N_embedding in E. subst. rewrite IH. naive_solver.
    + split; [done|]. intros [= -> ->]. by rewrite N.compare_refl in E.
    + split; [done|]. intros [= -> ->]. by rewrite N.compare_refl in E.
  - intros a. induction a as [|x a IH]; intros [|y b]; simpl; try done.
    unfold Ascii.compare. rewrite N.compare_antisym.
    destruct (N.compare (Ascii.N_of_ascii x) (Ascii.N_of_ascii y)); simpl; [apply IH|done..].
  - intros a. induction a as [|x a IH]; intros [|y b] [|z c]; simpl; try done.
    unfold Ascii.compare.
    destruct (N.compare (Ascii.N_of_ascii x) (Ascii.N_of_ascii y)) eqn:E1,
      (N.compare (Ascii.N_of_ascii y) (Ascii.N_of_ascii z)) eqn:E2; try done.
    + apply N.compare_eq in E1, E2. rewrite E1, E2, N.compare_refl. apply IH.
    + apply N.compare_eq in E1. by rewrite E1, E2.
    + apply N.compare_eq in E2. by rewrite <- E2, E1.
    + rewrite N.compare_lt_iff in *. intros _ _.
      by rewrite (proj2 (N.compare_lt_iff _ _)) by lia.
Qed.

(** ** Printing and parsing unsigned integers *)

Lemma digits_no_char c d :
  (c <> "0" /\ c <> "1" /\ c <> "2" /\ c <> "3" /\ c <> "4" /\ c <> "5" /\ c <> "6" /\ c <> "7"
   /\ c <> "8" /\ c <> "9")%char ->
  str_contains c (NilZero.string_of_uint d) = false.
Proof.
  intros Hc.
  assert (str_contains c (NilEmpty.string_of_uint d) = false) as H.
  { induction d; cbn; [done|rewrite decide_False by naive_solver; done..]. }
  destruct d; [|done..]. cbn. by rewrite decide_False by naive_solver.
Qed.

Lemma uint_to_string_no_dot z : str_contains dot (uint_to_string z) = false.
Proof. by apply digits_no_char. Qed.

Lemma uint_to_string_no_colon z : str_contains colon (uint_to_string z) = false.
Proof. by apply digits_no_char. Qed.

Lemma parse_uint_to_string max z :
  0 <= z <= max -> parse_uint max (uint_to_string z) = Some z.
Proof.
  intros Hz. assert (parse_digits max (uint_to_string z) = Some z) as Hd.
  { unfold parse_digits, uint_to_string.
    assert (N.to_uint (Z.to_N z) <> Decimal.Nil) as Hn.
    { intros H. pose proof (DecimalN.Unsigned.of_to (Z.to_N z)) as Hof. rewrite H in Hof.
      change 0%N with (N.of_uint (Decimal.D0 Decimal.Nil)) in Hof.
      rewrite <- Hof in H. discriminate H. }
    rewrite NilZero.usu by done. rewrite DecimalN.Unsigned.of_to, Z2N.id by lia.
    by rewrite (proj2 (Z.leb_le _ _)) by lia. }
  assert (str_contains "+" (uint_to_string z) = false) as Hp by (by apply digits_no_char).
  unfold parse_uint. destruct (uint_to_string z) as [|a s]; [done|].
  simpl in Hp. by destruct (decide (a = "+"%char)).
Qed.

Lemma uint_to_string_inj y z : 0 <= y -> 0 <= z -> uint_to_string y = uint_to_string z -> y = z.
Proof.
  intros Hy Hz Heq. pose proof (parse_uint_to_string (Z.max y z) y ltac:(lia)) as H1.
  rewrite Heq, parse_uint_to_string in H1 by lia. congruence.
Qed.
