(* ===== verification/Worklist.v ===== *)
(** * Worklist loops

    The loop [while let Some(x) = queue.pop_front()] over a queue of nodes with
    a set of processed nodes, which the backend's traversals share.  The body
    is given by [visit]: an error ends the loop, [None] skips the node without
    marking it, and [Some (out, next)] marks it, emits [out] and pushes [next].
    Shown here: how much fuel is enough, and that a completed loop has visited
    exactly the nodes reachable from the queue. *)

From S2P Require Import Prelude.

(** ** Sums *)

Lemma sum_list_perm l1 l2 : l1 ≡ₚ l2 -> sum_list l1 = sum_list l2.
Proof. induction 1; simpl; lia. Qed.

Lemma elem_of_concat {A} (x : A) ls : x ∈ concat ls <-> exists l, x ∈ l /\ l ∈ ls.
Proof.
  rewrite list_elem_of_In, in_concat. setoid_rewrite list_elem_of_In. naive_solver.
Qed.

(** A sum over a part of a map's domain is at most the sum over its values. *)
Lemma sum_dom_le `{Countable K} {A} (w : K -> nat) (g : A -> nat) (m : gmap K A) (seen : gset K) :
  (forall x a, m !! x = Some a -> w x <= g a)%nat ->
  (sum_list (w <$> elements (dom m ∖ seen)) <= sum_list (g <$> (map_to_list m).*2))%nat.
Proof.
  revert seen. induction m as [|k a m Hk IH] using map_ind; intros seen Hw.
  { rewrite dom_empty_L. replace (∅ ∖ seen) with (∅ : gset K) by set_solver.
    rewrite elements_empty. simpl. lia. }
  rewrite (sum_list_perm (g <$> (map_to_list (<[k:=a]> m)).*2) (g a :: (g <$> (map_to_list m).*2)))
    by (by rewrite map_to_list_insert).
  assert (sum_list (w <$> elements (dom m ∖ seen)) <= sum_list (g <$> (map_to_list m).*2))%nat as IH'.
  { apply IH. intros x b Hx. apply Hw. rewrite lookup_insert_ne; [done|]. congruence. }
  assert (w k <= g a)%nat by (apply Hw, lookup_insert_eq).
  rewrite dom_insert_L. apply not_elem_of_dom in Hk. cbn [sum_list sum_list_with].
  destruct (decide (k ∈ seen)).
  - replace (({[k]} ∪ dom m) ∖ seen) with (dom m ∖ seen) by set_solver. lia.
  - replace (({[k]} ∪ dom m) ∖ seen) with ({[k]} ∪ (dom m ∖ seen)) by set_solver.
    rewrite (sum_list_perm _ (w k :: (w <$> elements (dom m ∖ seen))))
      by (by rewrite elements_union_singleton by set_solver).
    simpl. lia.
Qed.

(** How the loop pushes: at the back of a queue, all of them or only those not
    marked yet, or on top of a stack (whose top is the head of the list). *)
Inductive WalkMode : Type := Fifo | FifoPruned | Lifo.

Section worklist.
Context {K : Type} `{Countable K} {A E : Type}.
Context (visit : K -> Result (option (list A * list K)) E).

Definition enqueue (mode : WalkMode) (seen : gset K) (queue next : list K) : list K :=
  match mode with
  | Fifo => queue ++ next
  | FifoPruned => queue ++ filter (fun y => y ∉ seen) next
  | Lifo => reverse next ++ queue
  end.

(** [None] means the fuel ran out. *)
Fixpoint worklist (mode : WalkMode) (fuel : nat) (queue : list K) (seen : gset K) (acc : list A) :
    option (Result (gset K * list A) E) :=
  match fuel with
  | O => None
  | S fuel =>
      match queue with
      | [] => Some (Ok (seen, acc))
      | x :: queue =>
          if decide (x ∈ seen) then worklist mode fuel queue seen acc
          else match visit x with
               | Err e => Some (Err e)
               | Ok None => worklist mode fuel queue seen acc
               | Ok (Some (out, next)) =>
                   worklist mode fuel (enqueue mode seen queue next) ({[ x ]} ∪ seen) (acc ++ out)
               end
      end
  end.

(** The nodes a visit pushes and what it emits. *)
Definition next (x : K) : list K :=
  match visit x with Ok (Some (_, ps)) => ps | _ => [] end.

Definition out (x : K) : list A :=
  match visit x with Ok (Some (o, _)) => o | _ => [] end.

Definition marks (x : K) : Prop := exists o ps, visit x = Ok (Some (o, ps)).

(** One edge of the walk: nodes in [blocked] are not expanded. *)
Definition wstep (blocked : gset K) (x y : K) : Prop := x ∉ blocked /\ y ∈ next x.

(** Reachable from the queue and marked. *)
Definition wreach (blocked : gset K) (queue : list K) (x : K) : Prop :=
  x ∉ blocked /\ marks x /\ exists q, q ∈ queue /\ rtc (wstep blocked) q x.

(** ** Fuel *)

Definition out_degree (D : gset K) : nat := sum_list ((fun x => length (next x)) <$> elements D).

Lemma out_degree_remove D x :
  x ∈ D -> out_degree D = (length (next x) + out_degree (D ∖ {[ x ]}))%nat.
Proof.
  intros Hx. unfold out_degree. rewrite (union_difference_L {[ x ]} D) at 1 by set_solver.
  rewrite elements_union_singleton by set_solver. done.
Qed.

Lemma enqueue_length mode seen queue ps :
  (length (enqueue mode seen queue ps) <= length queue + length ps)%nat.
Proof.
  destruct mode; simpl; rewrite length_app, ?length_reverse; [lia| |lia].
  pose proof (length_filter (fun y => y ∉ seen) ps). lia.
Qed.

Lemma enqueue_elem mode seen queue ps :
  (forall y, y ∈ enqueue mode seen queue ps -> y ∈ queue \/ y ∈ ps)
  /\ forall y, y ∈ queue \/ y ∈ ps -> y ∈ seen \/ y ∈ enqueue mode seen queue ps.
Proof.
  split; intros y; destruct mode; simpl; rewrite elem_of_app, ?elem_of_reverse, ?list_elem_of_filter;
    destruct (decide (y ∈ seen)); tauto.
Qed.

(** Fuel above the queue length plus the degrees of the unmarked nodes of a set
    [D] that holds every node with successors is enough. *)
Lemma worklist_fuel mode D fuel queue seen acc :
  (forall x, x ∉ D -> next x = []) ->
  (length queue + out_degree (D ∖ seen) < fuel)%nat ->
  exists r, worklist mode fuel queue seen acc = Some r.
Proof.
  intros HD. revert queue seen acc.
  induction fuel as [|fuel IH]; intros queue seen acc Hf; [lia|]. cbn [worklist].
  destruct queue as [|x queue]; [eauto|]. simpl in Hf.
  case_decide as Hs; [apply IH; lia|].
  destruct (visit x) as [[[o ps]|]|e] eqn:Ev; [|apply IH; lia|eauto].
  apply IH.
  assert (next x = ps) as Hn by (unfold next; by rewrite Ev).
  pose proof (enqueue_length mode seen queue ps) as Hle.
  destruct (decide (x ∈ D)) as [Hx|Hx].
  - rewrite (out_degree_remove _ x), Hn in Hf by set_solver.
    replace (D ∖ ({[ x ]} ∪ seen)) with (D ∖ seen ∖ {[ x ]}) by set_solver. lia.
  - rewrite HD in Hn by done. subst ps.
    replace (D ∖ ({[ x ]} ∪ seen)) with (D ∖ seen) by set_solver. simpl in Hle. lia.
Qed.

(** ** What a completed loop has visited *)

Definition from_queue (blocked : gset K) (queue : list K) (x : K) : Prop :=
  exists q, q ∈ queue /\ rtc (wstep blocked) q x.

(** The loop invariant: [ord] lists the marked nodes in order. *)
Record loop_inv (B : gset K) (q0 : list K) (acc0 : list A)
    (queue : list K) (seen : gset K) (acc : list A) (ord : list K) : Prop := {
  li_seen (x : K) : x ∈ seen <-> x ∈ B \/ x ∈ ord;
  li_nodup : NoDup ord;
  li_ord (x : K) : x ∈ ord -> x ∉ B /\ marks x /\ from_queue B q0 x;
  li_queue (y : K) : y ∈ queue -> from_queue B q0 y;
  li_start (y : K) : y ∈ q0 -> y ∈ seen \/ y ∈ queue \/ visit y = Ok None;
  li_next (x y : K) : x ∈ ord -> y ∈ next x -> y ∈ seen \/ y ∈ queue \/ visit y = Ok None;
  li_acc : acc = acc0 ++ concat (out <$> ord);
}.

Lemma loop_inv_init B q0 acc0 : loop_inv B q0 acc0 q0 B acc0 ([] : list K).
Proof.
  split; [set_solver|constructor|set_solver| |by auto|set_solver|by rewrite app_nil_r].
  intros y Hy. exists y. split; [done|]. apply rtc_refl.
Qed.

Lemma loop_inv_skip B q0 acc0 x queue seen acc ord :
  loop_inv B q0 acc0 (x :: queue) seen acc ord -> x ∈ seen \/ visit x = Ok None ->
  loop_inv B q0 acc0 queue seen acc ord.
Proof. intros [H1 H2 H3 H4 H5 H6 H7] Hx. split; set_solver. Qed.

Lemma loop_inv_mark (mode : WalkMode) B q0 acc0 x queue seen acc ord o ps :
  loop_inv B q0 acc0 (x :: queue) seen acc ord -> x ∉ seen -> visit x = Ok (Some (o, ps)) ->
  loop_inv B q0 acc0 (enqueue mode seen queue ps) ({[ x ]} ∪ seen) (acc ++ o) (ord ++ [x]).
Proof.
  intros [H1 H2 H3 H4 H5 H6 H7] Hx Hv.
  assert (next x = ps) as Hn by (unfold next; by rewrite Hv).
  assert (out x = o) as Ho by (unfold out; by rewrite Hv).
  assert (from_queue B q0 x) as Hfx by (apply H4; set_solver).
  assert (x ∉ B) as HxB by set_solver.
  pose proof (enqueue_elem mode seen queue ps) as [Hsub Hcov].
  split.
  - set_solver.
  - apply NoDup_app. split; [done|]. split; [set_solver|apply NoDup_singleton].
  - intros y [Hy|Hy]%elem_of_app; [by apply H3|]. apply list_elem_of_singleton in Hy as ->.
    split; [done|]. split; [by exists o, ps|done].
  - intros y [Hy|Hy]%Hsub; [apply H4; set_solver|]. destruct Hfx as (q & Hq & Hr).
    exists q. split; [done|]. eapply rtc_r; [done|]. split; [done|]. by rewrite Hn.
  - intros y Hy. destruct (H5 y Hy) as [?|[[->|?]%elem_of_cons|?]]; set_solver.
  - intros z y Hz Hy. apply elem_of_app in Hz as [Hz|Hz].
    + destruct (H6 z y) as [?|[[->|?]%elem_of_cons|?]]; set_solver.
    + apply list_elem_of_singleton in Hz as ->. rewrite Hn in Hy.
      destruct (Hcov y (or_intror Hy)); set_solver.
  - rewrite fmap_app, concat_app, H7, <- app_assoc. simpl. by rewrite Ho, app_nil_r.
Qed.

Lemma worklist_inv mode fuel B q0 acc0 queue seen acc ord r :
  loop_inv B q0 acc0 queue seen acc ord ->
  worklist mode fuel queue seen acc = Some r ->
  match r with
  | Ok (seen', acc') => exists ord', loop_inv B q0 acc0 [] seen' acc' ord'
  | Err e => exists x, x ∉ B /\ from_queue B q0 x /\ visit x = Err e
  end.
Proof.
  revert queue seen acc ord. induction fuel as [|fuel IH]; intros queue seen acc ord Hinv; [done|].
  cbn [worklist]. destruct queue as [|x queue]; [intros [= <-]; eauto|].
  case_decide as Hs; [apply (IH _ _ _ ord); by eapply loop_inv_skip; eauto|].
  destruct (visit x) as [[[o ps]|]|e] eqn:Ev.
  - apply (IH _ _ _ (ord ++ [x])). by apply loop_inv_mark.
  - apply (IH _ _ _ ord). by eapply loop_inv_skip; eauto.
  - intros [= <-]. exists x. split; [|split; [|done]].
    + intros HB. apply Hs. by apply (li_seen _ _ _ _ _ _ _ Hinv); left.
    + apply (li_queue _ _ _ _ _ _ _ Hinv). set_solver.
Qed.

Lemma marks_next x y : y ∈ next x -> marks x.
Proof. unfold next, marks. destruct (visit x) as [[[o ps]|]|]; set_solver. Qed.

(** A finished invariant holds every reachable node that is not skipped. *)
Lemma loop_inv_complete B q0 acc0 seen acc ord x :
  loop_inv B q0 acc0 [] seen acc ord -> from_queue B q0 x -> x ∉ B ->
  x ∈ ord \/ visit x = Ok None.
Proof.
  intros [H1 H2 H3 H4 H5 H6 H7] (q & Hq & Hr) HxB.
  assert (forall y, y ∉ B -> y ∈ seen \/ y ∈ [] \/ visit y = Ok None ->
    y ∈ ord \/ visit y = Ok None) as Hy by (intros y; rewrite H1; set_solver).
  revert HxB. pattern x. eapply (rtc_ind_r _ q); [|clear x Hr|exact Hr].
  - intros HqB. apply Hy; [done|]. by apply H5.
  - intros y z Hqy [HyB Hz] IH HzB. destruct (IH HyB) as [Ho|Hn].
    + apply Hy; [done|]. by apply (H6 y).
    + apply marks_next in Hz as (o & ps & Hz). congruence.
Qed.

(** A loop that ends without an error has marked exactly the nodes reachable
    from its queue through unblocked nodes, each once, no reachable node is in
    error, and the output is that of the marked nodes in some order. *)
Lemma worklist_ok mode fuel q0 B acc0 seen acc :
  worklist mode fuel q0 B acc0 = Some (Ok (seen, acc)) ->
  (forall x, x ∈ seen <-> x ∈ B \/ wreach B q0 x)
  /\ (forall x e, x ∉ B -> from_queue B q0 x -> visit x <> Err e)
  /\ exists ord, NoDup ord /\ (forall x, x ∈ ord <-> wreach B q0 x)
     /\ acc = acc0 ++ concat (out <$> ord).
Proof.
  intros (ord & Hinv)%(worklist_inv _ _ _ _ _ _ _ _ [] _ (loop_inv_init B q0 acc0)).
  assert (forall x, x ∈ ord <-> wreach B q0 x) as Hord.
  { intros x. split; [intros Hx; by destruct (li_ord _ _ _ _ _ _ _ Hinv x Hx) as (?&?&?)|].
    intros (HB & (o & ps & Hm) & Hf).
    destruct (loop_inv_complete _ _ _ _ _ _ x Hinv) as [?|?]; [done..|congruence]. }
  split; [|split].
  - intros x. by rewrite (li_seen _ _ _ _ _ _ _ Hinv), Hord.
  - intros x e HB Hf He. destruct (loop_inv_complete _ _ _ _ _ _ x Hinv) as [Ho|?]; [done..| |congruence].
    apply (li_ord _ _ _ _ _ _ _ Hinv) in Ho as (_ & (o & ps & Hm) & _). congruence.
  - exists ord. split; [by apply (li_nodup _ _ _ _ _ _ _ Hinv)|]. split; [done|].
    apply (li_acc _ _ _ _ _ _ _ Hinv).
Qed.

Lemma worklist_err mode fuel q0 B acc0 e :
  worklist mode fuel q0 B acc0 = Some (Err e) ->
  exists x, x ∉ B /\ from_queue B q0 x /\ visit x = Err e.
Proof. by intros Hr%(worklist_inv _ _ _ _ _ _ _ _ [] _ (loop_inv_init B q0 acc0)). Qed.
End worklist.

(** The map that a loop fills with one value per marked node. *)
Lemma collect_lookup `{Countable K} {V} (emit : K -> list (K * V)) (val : K -> option V) (ord : list K) k v :
  (forall x y w, (y, w) ∈ emit x <-> y = x /\ val x = Some w) ->
  (list_to_map (concat (emit <$> ord)) : gmap K V) !! k = Some v <-> k ∈ ord /\ val k = Some v.
Proof.
  intros He.
  assert (forall y w, (y, w) ∈ concat (emit <$> ord) <-> y ∈ ord /\ val y = Some w) as Hel.
  { intros y w. rewrite elem_of_concat. setoid_rewrite list_elem_of_fmap. split.
    - intros (l & Hl & x & -> & Hx). by apply He in Hl as [-> ?].
    - intros [Hy Hv]. exists (emit y). split; [by apply He|]. by exists y. }
  rewrite <- Hel. split; [apply elem_of_list_to_map_2|]. intros Hin.
  apply elem_of_list_to_map_1'; [|done]. intros w Hw. apply Hel in Hin, Hw. destruct_and!. congruence.
Qed.
