(* ===== verification/Kahn.v ===== *)
(** * Kahn's topological sort (database/mod.rs)

    The scoped topological sort that [Database::verify] and
    [Database::ids_added] run over a set of entries held in a hash map: the
    in-degrees and children within the set, the queue of nodes without pending
    parents, and the loop that pops a node and decrements its children.  The
    order in which a hash map is iterated is an argument.  Shown here: the loop
    ends, never panics, and emits every node once after all its parents in the
    set, leaving out only nodes behind a cycle. *)

From S2P Require Import Prelude.

(** ** Occurrences *)

Section occurrences.
Context `{EqDecision K}.
Implicit Types (x y : K) (l : list K).

Definition occ (x : K) (l : list K) : nat := length (filter (fun y => y = x) l).

Lemma occ_cons x y l : occ x (y :: l) = (if decide (y = x) then S (occ x l) else occ x l).
Proof. unfold occ. rewrite filter_cons. by destruct (decide (y = x)). Qed.

Lemma occ_nil x : occ x [] = 0%nat.
Proof. done. Qed.

Lemma occ_app x l l' : occ x (l ++ l') = (occ x l + occ x l')%nat.
Proof. unfold occ. by rewrite filter_app, length_app. Qed.

Lemma occ_pos x l : (0 < occ x l)%nat <-> x ∈ l.
Proof.
  induction l as [|y l IH]; [unfold occ; simpl; split; [lia|set_solver]|].
  rewrite occ_cons, elem_of_cons. case_decide; [split; [intros _; by left|lia]|].
  rewrite IH. naive_solver.
Qed.

Lemma occ_0 x l : occ x l = 0%nat <-> x ∉ l.
Proof. rewrite <- occ_pos. lia. Qed.

(** Removing one element's occurrences from a filtered list. *)
Lemma length_filter_remove (P Q : K -> Prop) `{!forall k, Decision (P k), !forall k, Decision (Q k)} x l :
  P x -> (forall y, Q y <-> P y /\ y <> x) ->
  length (filter P l) = (length (filter Q l) + occ x l)%nat.
Proof.
  intros Hx HQ. induction l as [|y l IH]; [done|]. rewrite occ_cons, !filter_cons.
  destruct (decide (y = x)) as [->|Hy].
  - rewrite decide_True by done. rewrite decide_False by (rewrite HQ; tauto). simpl. lia.
  - destruct (decide (P y)); [rewrite decide_True by (by apply HQ)|rewrite decide_False by (rewrite HQ; tauto)];
      simpl; lia.
Qed.
End occurrences.

Section kahn.
Context {K : Type} `{Countable K} {V : Type}.
Context (parents_of : V -> list K).
Context (map_iter : forall A : Type, gmap K A -> list (K * A)).

Definition in_nodes (nodes : gmap K V) (p : K) : bool := bool_decide (is_Some (nodes !! p)).

Definition push_child (children : gmap K (list K)) (p kid : K) : gmap K (list K) :=
  <[p := default [] (children !! p) ++ [kid]]> children.

Definition count_parents (nodes : gmap K V) (id : K) (children : gmap K (list K)) (ps : list K) :
    nat * gmap K (list K) :=
  foldl (fun acc p =>
    if in_nodes nodes p then (S acc.1, push_child acc.2 p id) else acc) (0%nat, children) ps.

Definition kahn_node (nodes : gmap K V) (acc : gmap K nat * gmap K (list K)) (kv : K * V) :
    gmap K nat * gmap K (list K) :=
  let '(d, children) := count_parents nodes kv.1 acc.2 (parents_of kv.2) in
  (<[kv.1 := d]> acc.1, children).

(** [expect("in_degree entry exists")] and the subtraction [*d -= 1] are the
    two places that can panic. *)
Fixpoint kahn_kids (kids : list K) (in_degree : gmap K nat) (topo_queue : list K) :
    Outcome (gmap K nat * list K) :=
  match kids with
  | [] => Done (in_degree, topo_queue)
  | kid :: kids =>
      match in_degree !! kid with
      | Some (S d) =>
          kahn_kids kids (<[kid := d]> in_degree)
            (if decide (d = 0%nat) then topo_queue ++ [kid] else topo_queue)
      | Some O | None => Panic
      end
  end.

Fixpoint kahn_loop (children : gmap K (list K)) (fuel : nat) (topo_queue : list K)
    (in_degree : gmap K nat) (order : list K) : option (Outcome (list K)) :=
  match fuel with
  | O => None
  | S fuel =>
      match topo_queue with
      | [] => Some (Done order)
      | id :: topo_queue =>
          match kahn_kids (default [] (children !! id)) in_degree topo_queue with
          | Panic => Some Panic
          | Done (in_degree, topo_queue) => kahn_loop children fuel topo_queue in_degree (order ++ [id])
          end
      end
  end.

Definition kahn_sort (nodes : gmap K V) : option (Outcome (list K)) :=
  let '(in_degree, children) := foldl (kahn_node nodes) (∅, ∅) (map_iter V nodes) in
  let topo_queue := (filter (fun kd => kd.2 = 0%nat) (map_iter nat in_degree)).*1 in
  kahn_loop children (S (size nodes)) topo_queue in_degree [].

(** ** What a sorted order is *)

(** Every node comes after all its parents in the set. *)
Definition parents_first (nodes : gmap K V) (order : list K) : Prop :=
  forall l1 x l2 v p, order = l1 ++ x :: l2 -> nodes !! x = Some v -> p ∈ parents_of v ->
    is_Some (nodes !! p) -> p ∈ l1.

Record topological (nodes : gmap K V) (order : list K) : Prop := {
  topo_nodup : NoDup order;
  topo_nodes (x : K) : x ∈ order -> is_Some (nodes !! x);
  topo_first : parents_first nodes order;
  topo_rest (x : K) (v : V) : nodes !! x = Some v -> x ∉ order ->
    exists p, p ∈ parents_of v /\ is_Some (nodes !! p) /\ p ∉ order;
}.

(** When the references inside the set decrease a rank, nothing is left out. *)
Lemma topological_complete (rank : K -> nat) nodes order :
  (forall x v p, nodes !! x = Some v -> p ∈ parents_of v -> is_Some (nodes !! p) -> (rank p < rank x)%nat) ->
  topological nodes order -> forall x, x ∈ order <-> is_Some (nodes !! x).
Proof.
  intros Hr [Hnd Hin Hpf Hrest] x. split; [apply Hin|].
  remember (rank x) as n eqn:En. revert x En.
  induction n as [n IH] using lt_wf_ind. intros x -> [v Hv].
  destruct (decide (x ∈ order)) as [|Hx]; [done|].
  destruct (Hrest x v Hv Hx) as (p & Hp & Hs & Hno). destruct Hno. by eapply IH; eauto.
Qed.

(** ** The graph *)

Definition kids_of (children : gmap K (list K)) (p : K) : list K := default [] (children !! p).

(** The in-set parents of a node that are not yet in [order]. *)
Definition pending (nodes : gmap K V) (order : list K) (v : V) : nat :=
  length (filter (fun p => is_Some (nodes !! p) /\ p ∉ order) (parents_of v)).

Lemma occ_push_child children p q kid x :
  occ x (kids_of (push_child children p kid) q)
  = (occ x (kids_of children q) + if decide (q = p /\ kid = x) then 1 else 0)%nat.
Proof.
  unfold kids_of, push_child. destruct (decide (q = p)) as [->|Hq].
  - rewrite lookup_insert_eq. simpl. rewrite occ_app. f_equal.
    unfold occ. rewrite filter_cons, filter_nil. repeat case_decide; naive_solver.
  - rewrite lookup_insert_ne by congruence. rewrite decide_False by tauto. lia.
Qed.

Lemma count_parents_spec nodes id children ps :
  let '(d, children') := count_parents nodes id children ps in
  d = length (filter (fun p => is_Some (nodes !! p)) ps)
  /\ forall x p, occ x (kids_of children' p)
       = (occ x (kids_of children p)
          + if decide (id = x /\ is_Some (nodes !! p)) then occ p ps else 0)%nat.
Proof.
  unfold count_parents. induction ps as [|q ps IH] using rev_ind.
  { split; [done|]. intros x p. rewrite occ_nil. simpl. case_decide; lia. }
  rewrite foldl_snoc. destruct (foldl _ _ ps) as [d ch]. destruct IH as [-> Hch].
  unfold in_nodes. rewrite filter_app, filter_cons, filter_nil.
  case_bool_decide as Hq; simpl.
  - rewrite (decide_True _ _ Hq), length_app. simpl. split; [lia|].
    intros x p. rewrite occ_push_child, Hch, occ_app, occ_cons, occ_nil.
    repeat case_decide; first [lia | exfalso; naive_solver].
  - rewrite decide_False, app_nil_r by done. split; [done|].
    intros x p. rewrite Hch, occ_app, occ_cons, occ_nil.
    repeat case_decide; first [lia | exfalso; naive_solver].
Qed.

(** What the scan of the nodes computes: the in-degree of each node, and each
    node as often among the children of [p] as [p] among its parents. *)
Record scanned (nodes : gmap K V) (l : list (K * V)) (deg : gmap K nat) (ch : gmap K (list K)) : Prop := {
  sc_deg (x : K) (v : V) : (x, v) ∈ l -> deg !! x = Some (pending nodes [] v);
  sc_none (x : K) : x ∉ l.*1 -> deg !! x = None;
  sc_kids (x p : K) (v : V) : (x, v) ∈ l -> is_Some (nodes !! p) -> occ x (kids_of ch p) = occ p (parents_of v);
  sc_kids_none (x p : K) : x ∉ l.*1 -> occ x (kids_of ch p) = 0%nat;
}.

Lemma scan_spec nodes l deg ch :
  NoDup l.*1 -> foldl (kahn_node nodes) (∅, ∅) l = (deg, ch) -> scanned nodes l deg ch.
Proof.
  revert deg ch. induction l as [|[k v] l IH] using rev_ind; intros deg ch Hnd.
  { intros [= <- <-]. split; set_solver. }
  rewrite foldl_snoc. destruct (foldl _ _ l) as [deg0 ch0] eqn:E0.
  rewrite fmap_app in Hnd. apply NoDup_app in Hnd as (Hnd & Hk & _).
  destruct (IH deg0 ch0) as [H1 H2 H3 H4]; [done..|].
  assert (k ∉ l.*1) as Hnew by (intros Hin; apply (Hk k Hin); simpl; set_solver).
  unfold kahn_node. simpl. pose proof (count_parents_spec nodes k ch0 (parents_of v)) as Hc.
  destruct (count_parents _ _ _ _) as [d ch1]. destruct Hc as [-> Hc]. intros [= <- <-].
  assert (forall x w, (x, w) ∈ l -> x <> k) as Hne.
  { intros x w Hx ->. apply Hnew. apply list_elem_of_fmap. by exists (k, w). }
  assert (filter (fun p => is_Some (nodes !! p) /\ p ∉ []) (parents_of v)
          = filter (fun p => is_Some (nodes !! p)) (parents_of v)) as Hf.
  { apply list_filter_iff. set_solver. }
  split.
  - intros x w [Hx|[= -> ->]%list_elem_of_singleton]%elem_of_app.
    + rewrite lookup_insert_ne by (by apply not_eq_sym, (Hne x w)). eauto.
    + rewrite lookup_insert_eq. unfold pending. by rewrite Hf.
  - intros x Hx. rewrite fmap_app in Hx. rewrite lookup_insert_ne by set_solver. apply H2. set_solver.
  - intros x p w [Hx|[= -> ->]%list_elem_of_singleton]%elem_of_app Hp; rewrite Hc.
    + rewrite decide_False by (intros [-> _]; by eapply Hne). rewrite (H3 x p w) by done. lia.
    + rewrite decide_True by done. rewrite H4 by done. lia.
  - intros x p Hx. rewrite fmap_app in Hx. rewrite Hc, decide_False by set_solver. rewrite H4; set_solver.
Qed.

(** Decrementing the children: each in-degree goes down by the number of
    occurrences, and those that reach zero are queued, once. *)
Lemma kahn_kids_spec kids deg queue :
  (forall x, x ∈ kids -> exists d, deg !! x = Some d /\ (occ x kids <= d)%nat) ->
  exists deg' new, kahn_kids kids deg queue = Done (deg', queue ++ new)
    /\ (forall x, deg' !! x = (fun d => d - occ x kids)%nat <$> deg !! x)
    /\ NoDup new
    /\ forall x, x ∈ new <-> x ∈ kids /\ deg !! x = Some (occ x kids).
Proof.
  revert deg queue. induction kids as [|k kids IH]; intros deg queue Hd.
  { exists deg, []. rewrite app_nil_r. split; [done|]. split; [|split; [constructor|set_solver]].
    intros x. unfold occ. simpl. destruct (deg !! x); simpl; [f_equal; lia|done]. }
  destruct (Hd k) as ([|d] & Hk & Hle); [set_solver|..].
  { rewrite occ_cons, decide_True in Hle by done. lia. }
  rewrite occ_cons, decide_True in Hle by done. simpl. rewrite Hk.
  destruct (IH (<[k := d]> deg) (if decide (d = 0%nat) then queue ++ [k] else queue))
    as (deg' & new & -> & Hdeg & Hnd & Hnew).
  { intros x Hx. destruct (decide (x = k)) as [->|Hxk].
    - rewrite lookup_insert_eq. exists d. split; [done|lia].
    - rewrite lookup_insert_ne by done. destruct (Hd x) as (d' & ? & Ho); [set_solver|].
      rewrite occ_cons, decide_False in Ho by done. eauto. }
  exists deg', (if decide (d = 0%nat) then k :: new else new). split; [|split; [|split]].
  - case_decide; [by rewrite <- app_assoc|done].
  - intros x. rewrite Hdeg, occ_cons. destruct (decide (k = x)) as [->|Hx].
    + rewrite lookup_insert_eq, Hk. simpl. f_equal; lia.
    + by rewrite lookup_insert_ne.
  - case_decide as Hz; [|done]. constructor; [|done]. rewrite Hnew, <- occ_pos. lia.
  - intros x. rewrite occ_cons. destruct (decide (k = x)) as [<-|Hx].
    + assert (k ∈ new <-> k ∈ kids /\ d = occ k kids) as Hkn.
      { rewrite Hnew, lookup_insert_eq. naive_solver. }
      rewrite Hk. case_decide as Hz.
      * split; [intros _; split; [set_solver|f_equal; lia]|set_solver].
      * rewrite Hkn. split; [intros [? <-]; split; [set_solver|done]|].
        intros [_ [= ->]]. split; [|done]. apply occ_pos. lia.
    + destruct (Hnew x) as [Hn1 Hn2]. rewrite lookup_insert_ne in Hn1, Hn2 by done.
      case_decide; set_solver.
Qed.

(** ** The loop *)

Section loop.
Context (nodes : gmap K V) (children : gmap K (list K)).
Hypothesis Hkids : forall x p v, nodes !! x = Some v -> is_Some (nodes !! p) ->
  occ x (kids_of children p) = occ p (parents_of v).
Hypothesis Hforeign : forall x p, nodes !! x = None -> occ x (kids_of children p) = 0%nat.

Record kahn_inv (queue : list K) (deg : gmap K nat) (order : list K) : Prop := {
  ki_nodup : NoDup (order ++ queue);
  ki_nodes (x : K) : x ∈ order ++ queue -> is_Some (nodes !! x);
  ki_deg (x : K) (v : V) : nodes !! x = Some v -> deg !! x = Some (pending nodes order v);
  ki_zero (x : K) (v : V) : nodes !! x = Some v -> pending nodes order v = 0%nat <-> x ∈ order ++ queue;
  ki_first : parents_first nodes order;
}.

Lemma pending_snoc order id v :
  is_Some (nodes !! id) -> id ∉ order ->
  pending nodes order v = (pending nodes (order ++ [id]) v + occ id (parents_of v))%nat.
Proof. intros Hid Ho. apply length_filter_remove; [done|]. set_solver. Qed.

Lemma pending_0 order v :
  pending nodes order v = 0%nat <-> forall p, p ∈ parents_of v -> is_Some (nodes !! p) -> p ∈ order.
Proof.
  unfold pending. rewrite length_zero_iff_nil. split.
  - intros Hf p Hp Hs. destruct (decide (p ∈ order)) as [|Hn]; [done|].
    assert (p ∈ filter (fun p => is_Some (nodes !! p) /\ p ∉ order) (parents_of v)) as Hin
      by (by apply list_elem_of_filter).
    rewrite Hf in Hin. set_solver.
  - intros Hp. apply elem_of_nil_inv.
    intros p [[Hs Hn] Hin]%list_elem_of_filter. by apply Hn, Hp.
Qed.

Lemma parents_first_snoc order id :
  parents_first nodes order ->
  (forall v, nodes !! id = Some v -> pending nodes order v = 0%nat) ->
  parents_first nodes (order ++ [id]).
Proof.
  intros Hpf Hid l1 x l2 v p Ho Hv Hp Hs. destruct l2 as [|y l2 _] using rev_ind.
  - apply app_inj_tail in Ho as [<- <-]. by eapply pending_0; eauto.
  - rewrite app_comm_cons, app_assoc in Ho. apply app_inj_tail in Ho as [-> _].
    by eapply Hpf.
Qed.

Lemma kahn_step id queue deg order :
  kahn_inv (id :: queue) deg order ->
  exists deg' queue', kahn_kids (kids_of children id) deg queue = Done (deg', queue')
    /\ kahn_inv queue' deg' (order ++ [id]).
Proof.
  intros [Hnd Hin Hdeg Hz Hpf].
  assert (is_Some (nodes !! id)) as Hid by (apply Hin; set_solver).
  assert (id ∉ order) as Hno by (apply NoDup_app in Hnd; set_solver).
  destruct (kahn_kids_spec (kids_of children id) deg queue) as (deg' & new & -> & Hdeg' & Hndn & Hnew).
  { intros x Hx%occ_pos. destruct (nodes !! x) as [v|] eqn:Hv; [|rewrite Hforeign in Hx by done; lia].
    exists (pending nodes order v). split; [eauto|].
    rewrite (Hkids x id v), (pending_snoc order id v) by done. lia. }
  assert (forall x v, nodes !! x = Some v ->
    x ∈ new <-> pending nodes order v <> 0%nat /\ pending nodes (order ++ [id]) v = 0%nat) as Hnew'.
  { intros x v Hv. rewrite Hnew, (Hdeg x v Hv), (Hkids x id v), <- occ_pos, (Hkids x id v) by done.
    pose proof (pending_snoc order id v Hid Hno). split; [intros [? [= ?]]; lia|].
    intros []. split; [lia|]. f_equal. lia. }
  assert (forall x, x ∈ new -> is_Some (nodes !! x)) as Hsome.
  { intros x [Hx _]%Hnew. apply occ_pos in Hx. destruct (nodes !! x) eqn:Hv; [eauto|].
    rewrite Hforeign in Hx by done. lia. }
  exists deg', (queue ++ new). split; [done|].
  split.
  - replace ((order ++ [id]) ++ queue ++ new) with ((order ++ id :: queue) ++ new)
      by (by rewrite <- !app_assoc).
    apply NoDup_app. split; [done|]. split; [|done]. intros x Hx Hxn.
    destruct (Hsome x Hxn) as [v Hv]. destruct (proj1 (Hnew' x v Hv) Hxn) as [Hp _].
    by apply Hp, (Hz x v Hv).
  - set_solver.
  - intros x v Hv. rewrite Hdeg', (Hdeg x v Hv). simpl. f_equal.
    rewrite (Hkids x id v), (pending_snoc order id v) by done. lia.
  - intros x v Hv. pose proof (pending_snoc order id v Hid Hno). specialize (Hz x v Hv).
    specialize (Hnew' x v Hv). destruct (decide (pending nodes order v = 0%nat)) as [Hp|Hp].
    + split; [set_solver|]. intros _. lia.
    + assert (x ∉ order ++ id :: queue) by tauto. set_solver.
  - apply parents_first_snoc; [done|]. intros v Hv. apply (Hz id v Hv). set_solver.
Qed.

Lemma kahn_loop_spec fuel queue deg order :
  kahn_inv queue deg order -> (size nodes < fuel + length order)%nat ->
  exists order', kahn_loop children fuel queue deg order = Some (Done order') /\ topological nodes order'.
Proof.
  revert queue deg order. induction fuel as [|fuel IH]; intros queue deg order Hinv Hf.
  { exfalso. destruct Hinv as [Hnd Hin _ _ _]. apply NoDup_app in Hnd as [Hnd _].
    assert (length order <= size nodes)%nat; [|lia].
    rewrite <- size_dom, <- (size_list_to_set (C := gset K)) by done. apply subseteq_size.
    intros x Hx%elem_of_list_to_set. apply elem_of_dom, Hin. set_solver. }
  destruct queue as [|id queue]; simpl.
  - exists order. split; [done|]. destruct Hinv as [Hnd Hin _ Hz Hpf]. rewrite app_nil_r in *.
    split; [done..|]. intros x v Hv Hx. pose proof (proj1 (Hz x v Hv)) as Hz'.
    destruct (filter (fun p => is_Some (nodes !! p) /\ p ∉ order) (parents_of v)) as [|p l] eqn:Ef.
    + destruct Hx. apply Hz'. unfold pending. by rewrite Ef.
    + exists p. assert (p ∈ p :: l) as Hp by set_solver. rewrite <- Ef in Hp.
      apply list_elem_of_filter in Hp. tauto.
  - destruct (kahn_step _ _ _ _ Hinv) as (deg' & queue' & Hk & Hinv').
    unfold kids_of in Hk. rewrite Hk. apply IH; [done|]. rewrite length_app. simpl. lia.
Qed.
End loop.

(** The sort ends without panicking, in a topological order of the nodes. *)
Lemma kahn_sort_spec nodes :
  (forall A (m : gmap K A), map_iter A m ≡ₚ map_to_list m) ->
  exists order, kahn_sort nodes = Some (Done order) /\ topological nodes order.
Proof.
  intros Hiter. unfold kahn_sort.
  destruct (foldl (kahn_node nodes) (∅, ∅) (map_iter V nodes)) as [deg ch] eqn:E.
  assert (forall x v, (x, v) ∈ map_iter V nodes <-> nodes !! x = Some v) as Hel.
  { intros x v. by rewrite (Hiter V nodes), elem_of_map_to_list. }
  assert (forall x, x ∉ (map_iter V nodes).*1 <-> nodes !! x = None) as Hel1.
  { intros x. rewrite list_elem_of_fmap. split.
    - intros Hx. destruct (nodes !! x) as [v|] eqn:Hv; [|done]. destruct Hx. exists (x, v). by rewrite Hel.
    - intros Hx ([y v] & -> & Hy%Hel). simpl in Hx. congruence. }
  apply scan_spec in E as [H1 H2 H3 H4]; [|rewrite (Hiter V nodes); apply NoDup_fst_map_to_list].
  assert (forall x, x ∈ (filter (fun kd => kd.2 = 0%nat) (map_iter nat deg)).*1
    <-> exists v, nodes !! x = Some v /\ pending nodes [] v = 0%nat) as Hq.
  { intros x. rewrite list_elem_of_fmap. split.
    - intros ([y d] & -> & [Hd Hin]%list_elem_of_filter). simpl in *. subst d.
      rewrite (Hiter nat deg), elem_of_map_to_list in Hin.
      destruct (nodes !! y) as [v|] eqn:Hv; [|rewrite H2 in Hin by (by apply Hel1); done].
      exists v. split; [done|]. rewrite (H1 y v) in Hin by (by apply Hel). congruence.
    - intros (v & Hv & Hp). exists (x, 0%nat). split; [done|]. apply list_elem_of_filter. split; [done|].
      rewrite (Hiter nat deg), elem_of_map_to_list. rewrite (H1 x v) by (by apply Hel). by rewrite Hp. }
  apply kahn_loop_spec; [..|simpl; lia].
  - intros x p v Hv Hp. apply H3; [by apply Hel|done].
  - intros x p Hx. apply H4. by apply Hel1.
  - split; simpl.
    + apply (sublist_NoDup _ (map_iter nat deg).*1);
        [rewrite (Hiter nat deg); apply NoDup_fst_map_to_list|apply fmap_sublist, sublist_filter].
    + intros x (v & Hv & _)%Hq. eauto.
    + intros x v Hv. apply H1. by apply Hel.
    + intros x v Hv. rewrite Hq. naive_solver.
    + intros [|? ?] x l2 v p; naive_solver.
Qed.
End kahn.
