(* ===== verification/Path.v ===== *)
(** * Document paths (crdt/doc/path.rs)

    Dot-separated paths into a document: normalisation, the owned [PathBuf], the
    borrowed [Path] (an unvalidated string slice, modelled as [string]),
    validated [Component]s and the [PathBuilder].  The theorems show that
    normalisation is canonical and idempotent, that every builder operation
    acts on the list of components as expected, and where the accessors that do
    not go through normalisation ([len], [join], [push_component]) disagree
    with the component list. *)

From S2P Require Import Prelude.

(** ** Data *)

Inductive PathError : Type :=
| InvalidComponent (component reason : string).

Record Component : Type := mkComponent { component_inner : string }.

Record PathBuf : Type := mkPathBuf { path_inner : string }.

Record PathBuilder : Type := mkPathBuilder { builder_inner : string }.

(** ** Operations *)

(** The shared iterator [s.split('.').filter(|s| !s.is_empty())]. *)
Definition Path_components (s : string) : list string :=
  filter (fun w => str_is_empty w = false) (str_split dot s).

Definition normalize_path (input : string) : string :=
  if str_is_empty input then EmptyString
  else str_join dot (Path_components input).

Definition Component_new (s : string) : Result Component PathError :=
  if str_contains dot s
  then Err (InvalidComponent s "components cannot contain dots")
  else Ok (mkComponent s).

Definition PathBuf_new : PathBuf := mkPathBuf EmptyString.

Definition PathBuf_from_component (c : Component) : PathBuf := mkPathBuf (component_inner c).

(** [inner.push('.'); inner.push_str(s)]. *)
Definition push_dotted (inner s : string) : string := inner +:+ String dot s.

Definition PathBuf_push (self : PathBuf) (path : string) : PathBuf :=
  let normalized := normalize_path path in
  if str_is_empty normalized then self
  else if str_is_empty (path_inner self) then mkPathBuf normalized
  else mkPathBuf (push_dotted (path_inner self) normalized).

Definition PathBuf_push_component (self : PathBuf) (c : Component) : PathBuf :=
  if str_is_empty (path_inner self) then mkPathBuf (component_inner c)
  else mkPathBuf (push_dotted (path_inner self) (component_inner c)).

Definition PathBuf_join (self : PathBuf) (other : string) : PathBuf :=
  if str_is_empty (path_inner self) then mkPathBuf other
  else if negb (str_is_empty other) then mkPathBuf (push_dotted (path_inner self) other)
  else self.

Definition PathBuf_components (self : PathBuf) : list string :=
  Path_components (path_inner self).

(** [Path::len] and [PathBuf::len]. *)
Definition Path_len (s : string) : nat :=
  if str_is_empty s then 0%nat else length (str_split dot s).

Definition PathBuf_len (self : PathBuf) : nat := Path_len (path_inner self).

Definition PathBuf_is_empty (self : PathBuf) : bool := str_is_empty (path_inner self).

Definition PathBuf_parent (self : PathBuf) : option PathBuf :=
  match str_rsplit dot (path_inner self) with
  | Some (before, _) => Some (mkPathBuf before)
  | None => None
  end.

Definition PathBuf_file_name (self : PathBuf) : option string :=
  if str_is_empty (path_inner self) then None
  else match str_rsplit dot (path_inner self) with
       | Some (_, after) => Some after
       | None => Some (path_inner self)
       end.

(** [Path::file_name]: the last piece of the split. *)
Definition Path_file_name (s : string) : option string :=
  if str_is_empty s then None else last (str_split dot s).

Definition PathBuf_normalize (path : string) : PathBuf := mkPathBuf (normalize_path path).

Definition PathBuf_from_str (s : string) : PathBuf := PathBuf_normalize s.

(** The [path!] macro's compile-time pass over a literal. *)
Definition normalize_const (path : string) : string :=
  if str_is_empty path then EmptyString else path.

Definition PathBuf_display (self : PathBuf) : string :=
  if str_is_empty (path_inner self) then "(empty path)" else path_inner self.

Definition PathBuilder_new : PathBuilder := mkPathBuilder EmptyString.

Definition PathBuilder_push_component (self : PathBuilder) (c : Component) : PathBuilder :=
  if str_is_empty (builder_inner self) then mkPathBuilder (component_inner c)
  else mkPathBuilder (push_dotted (builder_inner self) (component_inner c)).

Definition PathBuilder_component (self : PathBuilder) (component : string) :
    Result PathBuilder PathError :=
  let? c := Component_new component in Ok (PathBuilder_push_component self c).

Definition PathBuilder_build (self : PathBuilder) : PathBuf := mkPathBuf (builder_inner self).

(** A component list as [components()] yields it. *)
Definition proper_component (w : string) : Prop :=
  str_is_empty w = false /\ str_contains dot w = false.

(** A path whose text is the canonical spelling of its components. *)
Definition normalized (p : PathBuf) : Prop := normalize_path (path_inner p) = path_inner p.

(** ** Lemmas *)

Lemma Path_components_proper s : Forall proper_component (Path_components s).
Proof.
  apply Forall_forall. intros w Hw. apply list_elem_of_filter in Hw as [Hne Hw].
  split; [done|]. pose proof (str_split_pieces dot s) as Hp.
  rewrite Forall_forall in Hp. by apply Hp.
Qed.

Lemma Path_components_join l : Forall proper_component l -> Path_components (str_join dot l) = l.
Proof.
  intros Hl. unfold Path_components. destruct l as [|w ws]; [done|].
  rewrite str_split_join; [|done|].
  - apply list_filter_id. eapply Forall_impl; [done|]. by intros ? [??].
  - eapply Forall_impl; [done|]. by intros ? [??].
Qed.

Lemma normalize_path_join s : normalize_path s = str_join dot (Path_components s).
Proof. unfold normalize_path. by destruct s. Qed.

Lemma Path_components_dotted s t :
  Path_components (push_dotted s t) = Path_components s ++ Path_components t.
Proof. unfold Path_components, push_dotted. by rewrite str_split_sep, filter_app. Qed.

Lemma str_join_app l1 l2 :
  l1 <> [] -> l2 <> [] ->
  str_join dot (l1 ++ l2) = push_dotted (str_join dot l1) (str_join dot l2).
Proof.
  intros H1 H2. induction l1 as [|w l1 IH]; [done|].
  destruct l1 as [|w' l1]; [by destruct l2|].
  change (str_join dot ((w :: w' :: l1) ++ l2))
    with (w +:+ String dot (str_join dot ((w' :: l1) ++ l2))).
  rewrite IH by done. unfold push_dotted.
  change (str_join dot (w :: w' :: l1)) with (w +:+ String dot (str_join dot (w' :: l1))).
  by rewrite str_app_assoc.
Qed.

Lemma Path_components_nil s : Path_components s = [] <-> normalize_path s = EmptyString.
Proof.
  rewrite normalize_path_join. pose proof (Path_components_proper s) as Hp.
  destruct (Path_components s) as [|w [|w' ws]]; [done| |]; split; try done.
  - inversion Hp as [|?? [Hw _] _]; subst. intros Hj. simpl in Hj. by rewrite Hj in Hw.
  - inversion Hp as [|?? [Hw _] _]; subst. intros Hj. by destruct w.
Qed.

Lemma normalize_path_components s : Path_components (normalize_path s) = Path_components s.
Proof. rewrite normalize_path_join. apply Path_components_join, Path_components_proper. Qed.

(** ** Theorems *)

(** [normalize_path] returns the canonical spelling of a path: it has the
    same components, is a fixed point of normalisation, and two inputs have the
    same normal form exactly when they have the same components. *)
Theorem normalize_path_canonical s t :
  Path_components (normalize_path s) = Path_components s
  /\ normalize_path (normalize_path s) = normalize_path s
  /\ (normalize_path s = normalize_path t <-> Path_components s = Path_components t).
Proof.
  pose proof normalize_path_components as Hc. split; [apply Hc|]. split.
  - rewrite (normalize_path_join (normalize_path s)), Hc. by rewrite normalize_path_join.
  - split; [intros Heq; by rewrite <- (Hc s), <- (Hc t), Heq|].
    intros Heq. by rewrite !normalize_path_join, Heq.
Qed.

(** [PathBuf::push] appends the components of its argument, and keeps a
    normalised path normalised. *)
Theorem PathBuf_push_spec p s :
  PathBuf_components (PathBuf_push p s) = PathBuf_components p ++ Path_components s
  /\ (normalized p -> normalized (PathBuf_push p s)).
Proof.
  assert (PathBuf_components (PathBuf_push p s) = PathBuf_components p ++ Path_components s) as Hc.
  { unfold PathBuf_components, PathBuf_push.
    destruct (str_is_empty (normalize_path s)) eqn:Es; simpl.
    { apply str_is_empty_true, Path_components_nil in Es. by rewrite Es, app_nil_r. }
    destruct (str_is_empty (path_inner p)) eqn:Ep; simpl.
    { apply str_is_empty_true in Ep. rewrite Ep. apply normalize_path_components. }
    by rewrite Path_components_dotted, normalize_path_components. }
  split; [done|]. unfold normalized. intros Hn.
  rewrite normalize_path_join. unfold PathBuf_components in Hc. rewrite Hc.
  rewrite normalize_path_join in Hn. unfold PathBuf_push.
  destruct (str_is_empty (normalize_path s)) eqn:Es; simpl.
  { apply str_is_empty_true, Path_components_nil in Es. by rewrite Es, app_nil_r. }
  destruct (str_is_empty (path_inner p)) eqn:Ep; simpl.
  { apply str_is_empty_true in Ep. by rewrite Ep, normalize_path_join. }
  apply str_is_empty_false in Ep, Es.
  rewrite str_join_app; [by rewrite Hn, normalize_path_join| |by rewrite Path_components_nil].
  intros Hnil. rewrite Hnil in Hn. by simpl in Hn.
Qed.

(** On a normalised non-empty path, [parent] and [file_name] take the path
    apart at its last component, [len] counts the components, and the borrowed
    and owned [file_name] agree. *)
Theorem PathBuf_parent_file_name p f :
  normalized p -> PathBuf_file_name p = Some f ->
  PathBuf_len p = length (PathBuf_components p)
  /\ Path_file_name (path_inner p) = Some f
  /\ match PathBuf_parent p with
     | Some q => normalized q /\ PathBuf_components p = PathBuf_components q ++ [f]
     | None => PathBuf_components p = [f]
     end.
Proof.
  intros Hn Hf. assert (str_split dot (path_inner p) = PathBuf_components p) as Hs.
  { unfold normalized in Hn. rewrite normalize_path_join in Hn.
    unfold PathBuf_file_name in Hf. destruct (str_is_empty (path_inner p)) eqn:Ep; [done|].
    apply str_is_empty_false in Ep. unfold PathBuf_components. rewrite <- Hn at 1.
    apply str_split_join.
    - intros Hnil. rewrite Hnil in Hn. by simpl in Hn.
    - eapply Forall_impl; [apply Path_components_proper|]. by intros ? [??]. }
  unfold PathBuf_len, Path_len, Path_file_name, PathBuf_file_name, PathBuf_parent in *.
  destruct (str_is_empty (path_inner p)) eqn:Ep; [done|]. rewrite Hs.
  split; [done|].
  destruct (str_rsplit dot (path_inner p)) as [[l r]|] eqn:E; simplify_eq.
  - apply str_rsplit_Some in E as [Hp Hr]. rewrite Hp in Hs.
    rewrite str_split_sep, (str_split_none dot f) in Hs by done. rewrite <- Hs.
    split; [apply last_snoc|].
    pose proof (Path_components_proper (path_inner p)) as Hpr.
    fold (PathBuf_components p) in Hpr. rewrite <- Hs, Forall_app in Hpr.
    destruct Hpr as [Hl _].
    assert (PathBuf_components (mkPathBuf l) = str_split dot l) as Hcl.
    { apply list_filter_id. eapply Forall_impl; [done|]. by intros ? [??]. }
    split; [|by rewrite Hcl]. unfold normalized. simpl.
    rewrite normalize_path_join. unfold PathBuf_components in Hcl. simpl in Hcl.
    by rewrite Hcl, str_join_split.
  - apply str_rsplit_None in E. rewrite str_split_none in Hs by done. by rewrite <- Hs.
Qed.

Lemma PathBuf_parent_file_name_witness :
  normalized (mkPathBuf "user.name") /\ Path_file_name "user.name" = Some "name".
Proof.
  split; [reflexivity|].
  apply (PathBuf_parent_file_name (mkPathBuf "user.name") "name"); reflexivity.
Defined.

(** [PathBuilder] accepts exactly the dot-free components, and a path built
    from non-empty ones has those components in order. *)
Theorem PathBuilder_components cs :
  match foldl (fun b c => let? b := b in PathBuilder_component b c) (Ok PathBuilder_new) cs with
  | Ok b => Forall (fun c => str_contains dot c = false) cs
            /\ (Forall proper_component cs -> PathBuf_components (PathBuilder_build b) = cs)
  | Err _ => Exists (fun c => str_contains dot c = true) cs
  end.
Proof.
  induction cs as [|c cs IH] using rev_ind; [by repeat constructor|].
  rewrite foldl_app. simpl. destruct (foldl _ _ cs) as [b|e]; simpl.
  - destruct IH as [IH1 IH2]. unfold PathBuilder_component, Component_new.
    destruct (str_contains dot c) eqn:Ec; simpl.
    { apply Exists_app. right. by constructor. }
    split; [apply Forall_app; by repeat constructor|].
    intros [Hcs Hc]%Forall_app. inversion Hc as [|?? [Hne Hd] _]; subst.
    specialize (IH2 Hcs).
    assert (Path_components c = [c]) as Hcc.
    { unfold Path_components. rewrite str_split_none by done. by apply list_filter_id; repeat constructor. }
    unfold PathBuf_components, PathBuilder_build, PathBuilder_push_component in *. simpl in *.
    destruct (str_is_empty (builder_inner b)) eqn:Eb; simpl.
    + apply str_is_empty_true in Eb. rewrite Eb in IH2. by rewrite <- IH2, Hcc.
    + by rewrite Path_components_dotted, IH2, Hcc.
  - apply Exists_app. by left.
Qed.

(** [len] is documented as the number of components, but counts the pieces
    between dots: pushing an empty component, which [Component::new] accepts,
    makes the two differ. *)
Theorem PathBuf_len_counts_empty :
  exists c, Component_new EmptyString = Ok c
  /\ let p := PathBuf_push_component (PathBuf_normalize "user") c in
     PathBuf_len p = 2%nat /\ PathBuf_components p = ["user"].
Proof. eexists. split; [reflexivity|]. split; reflexivity. Qed.

(** The compile-time pass of [path!] leaves a literal as it is, so the macro
    yields paths that are not normalised. *)
Theorem normalize_const_not_normal : normalize_const "a..b" <> normalize_path "a..b".
Proof. vm_compute. congruence. Qed.
