(* ===== verification/Ids.v ===== *)
(** * Content identifiers and snapshots

    [ID] (entry/id.rs) wraps an optional CID; the CID itself comes from the
    [cid] crate and is an interface here: a type with decidable equality, a
    total order, and a textual form that parses back.  [Snapshot]
    (snapshot.rs) is the sorted, deduplicated vector of tips that identifies a
    database state. *)

From S2P Require Import Prelude.

(** What the code relies on of the [cid] crate's [Cid]: derived [Eq], [Hash]
    and [Ord], [Display], and [TryFrom<&str>], which reads what [Display]
    writes and rejects the empty string; the multibase alphabets of [Display]
    have no dot. *)
Class CidSpec := {
  Cid : Type;
  Cid_eq_dec :: EqDecision Cid;
  Cid_countable :: Countable Cid;
  Cid_cmp : Cid -> Cid -> comparison;
  Cid_cmp_total :: TotalCmp Cid_cmp;
  Cid_to_string : Cid -> string;
  Cid_try_from : string -> option Cid;
  Cid_try_from_to_string c : Cid_try_from (Cid_to_string c) = Some c;
  Cid_try_from_empty : Cid_try_from EmptyString = None;
  Cid_to_string_no_dot c : str_contains dot (Cid_to_string c) = false;
}.

Inductive IdError : Type :=
  | InvalidFormat (s : string)
  | InvalidLength (expected got : Z)
  | UnknownAlgorithm (alg : string)
  | InvalidHex (s : string).

Section ids.
Context `{CS : CidSpec}.

(** [struct ID(Option<Cid>)]. *)
Record ID : Type := mkID { as_cid : option Cid }.

#[export] Instance ID_eq_dec : EqDecision ID.
Proof. solve_decision. Defined.

#[export] Instance ID_countable : Countable ID.
Proof. by apply (inj_countable' as_cid mkID); intros []. Defined.

Definition ID_default : ID := mkID None.

Definition ID_cmp (self other : ID) : comparison :=
  match as_cid self, as_cid other with
  | None, None => Eq
  | None, Some _ => Lt
  | Some _, None => Gt
  | Some a, Some b => Cid_cmp a b
  end.

Definition ID_is_empty (id : ID) : bool :=
  match as_cid id with None => true | Some _ => false end.

(** [ID::parse]; the message of the [cid] crate's error is left out. *)
Definition ID_parse (s : string) : Result ID IdError :=
  if str_is_empty s then Ok ID_default
  else match Cid_try_from s with
       | Some cid => Ok (mkID (Some cid))
       | None => Err (InvalidFormat s)
       end.

(** [Display for ID]. *)
Definition ID_to_string (id : ID) : string :=
  match as_cid id with Some cid => Cid_to_string cid | None => EmptyString end.

#[export] Instance ID_cmp_total : TotalCmp ID_cmp.
Proof.
  split.
  - intros [[a|]] [[b|]]; unfold ID_cmp; simpl; try done. rewrite (cmp_eq Cid_cmp). naive_solver.
  - intros [[a|]] [[b|]]; unfold ID_cmp; simpl; try done. apply (cmp_antisym Cid_cmp).
  - intros [[a|]] [[b|]] [[c|]]; unfold ID_cmp; simpl; try done. apply (cmp_lt_trans Cid_cmp).
Qed.

Lemma ID_parse_to_string_ok id : ID_parse (ID_to_string id) = Ok id.
Proof.
  unfold ID_parse, ID_to_string. destruct id as [[c|]]; simpl; [|done].
  destruct (str_is_empty (Cid_to_string c)) eqn:E; [|by rewrite Cid_try_from_to_string].
  apply str_is_empty_true in E. pose proof (Cid_try_from_to_string c) as H.
  by rewrite E, Cid_try_from_empty in H.
Qed.

Lemma ID_to_string_inj a b : ID_to_string a = ID_to_string b -> a = b.
Proof.
  intros H. pose proof (ID_parse_to_string_ok a) as Ha.
  rewrite H, ID_parse_to_string_ok in Ha. congruence.
Qed.

Lemma ID_to_string_no_dot id : str_contains dot (ID_to_string id) = false.
Proof. destruct id as [[c|]]; [apply Cid_to_string_no_dot|done]. Qed.

Lemma ID_to_string_empty id : ID_to_string id = EmptyString <-> ID_is_empty id = true.
Proof.
  split; [|by destruct id as [[]]]. intros H.
  rewrite <- (ID_to_string_inj ID_default id) by (by rewrite H). done.
Qed.

(** ** Snapshots *)

Record Snapshot : Type := mkSnapshot { tips : list ID }.

#[export] Instance Snapshot_eq_dec : EqDecision Snapshot.
Proof. solve_decision. Defined.

Definition Snapshot_EMPTY : Snapshot := mkSnapshot [].

(** [Snapshot::new], and with it every [From] impl. *)
Definition Snapshot_new (tips : list ID) : Snapshot := mkSnapshot (sort_dedup ID_cmp tips).

Definition Snapshot_is_empty (s : Snapshot) : bool :=
  match tips s with [] => true | _ => false end.

Definition Snapshot_len (s : Snapshot) : nat := length (tips s).

(** The wire form is the bare array of IDs. *)
Definition Snapshot_serialize (s : Snapshot) : list ID := tips s.

Definition Snapshot_deserialize (wire : list ID) : Snapshot := Snapshot_new wire.

(** The invariant of a snapshot: sorted without duplicates. *)
Definition Snapshot_wf (s : Snapshot) : Prop :=
  StronglySorted (fun a b => ID_cmp a b = Lt) (tips s).

Lemma Snapshot_new_wf l : Snapshot_wf (Snapshot_new l).
Proof. apply sort_dedup_sorted, _. Qed.

Lemma elem_of_Snapshot_new x l : x ∈ tips (Snapshot_new l) <-> x ∈ l.
Proof. apply elem_of_sort_dedup. Qed.

Lemma Snapshot_new_id s : Snapshot_wf s -> Snapshot_new (tips s) = s.
Proof.
  destruct s as [l]. intros H. unfold Snapshot_new. f_equal. by apply (sort_dedup_id ID_cmp), H.
Qed.

Lemma Snapshot_new_ext l1 l2 :
  Snapshot_new l1 = Snapshot_new l2 <-> forall x, x ∈ l1 <-> x ∈ l2.
Proof.
  unfold Snapshot_new. rewrite <- (sort_dedup_ext ID_cmp). split; [congruence|].
  by intros ->.
Qed.

(** An [ID] survives printing and parsing, the empty one included; parsing
    fails exactly on a non-empty text the CID parser rejects. *)
Theorem ID_parse_to_string id s :
  ID_parse (ID_to_string id) = Ok id
  /\ (ID_parse s = Err (InvalidFormat s) <-> s <> EmptyString /\ Cid_try_from s = None).
Proof.
  split; [apply ID_parse_to_string_ok|].
  unfold ID_parse. destruct (str_is_empty s) eqn:E.
  - apply str_is_empty_true in E. naive_solver.
  - apply str_is_empty_false in E. destruct (Cid_try_from s); naive_solver.
Qed.

(** A snapshot is the canonical form of a set of tips: it is sorted without
    duplicates, holds exactly the tips given, equality of snapshots is equality
    of the sets, and the wire form reads back to the same snapshot, in whatever
    order and with whatever repetitions the tips arrive. *)
Theorem Snapshot_canonical l1 l2 :
  Snapshot_wf (Snapshot_new l1)
  /\ (forall x, x ∈ tips (Snapshot_new l1) <-> x ∈ l1)
  /\ (Snapshot_new l1 = Snapshot_new l2 <-> forall x, x ∈ l1 <-> x ∈ l2)
  /\ Snapshot_deserialize (Snapshot_serialize (Snapshot_new l1)) = Snapshot_new l1
  /\ (Snapshot_is_empty (Snapshot_new l1) = true <-> l1 = []).
Proof.
  split; [apply Snapshot_new_wf|]. split; [intros; apply elem_of_Snapshot_new|].
  split; [apply Snapshot_new_ext|].
  split; [apply Snapshot_new_id, Snapshot_new_wf|].
  unfold Snapshot_is_empty. pose proof (elem_of_Snapshot_new) as Hel. split.
  - intros H. destruct l1 as [|x l1]; [done|]. specialize (Hel x (x :: l1)).
    destruct (tips (Snapshot_new (x :: l1))); [|done]. set_solver.
  - intros ->. done.
Qed.
End ids.

(** ** A concrete CID type, for evaluating the definitions *)

Fixpoint nat_to_string (n : nat) : string :=
  match n with
  | O => String "b" EmptyString
  | S n => String "b" (nat_to_string n)
  end.

Fixpoint nat_try_from (s : string) : option nat :=
  match s with
  | EmptyString => None
  | String a s' =>
      if decide (a = "b"%char) then
        match s' with EmptyString => Some O | _ => S <$> nat_try_from s' end
      else None
  end.

Lemma nat_try_from_to_string n : nat_try_from (nat_to_string n) = Some n.
Proof. induction n as [|n IH]; [done|]. simpl in *. rewrite IH. by destruct n. Qed.

Lemma nat_to_string_no_dot n : str_contains dot (nat_to_string n) = false.
Proof. by induction n. Qed.

(** Numbers as CIDs, written in unary. *)
Definition nat_cid : CidSpec := {|
  Cid := nat;
  Cid_cmp := Nat.compare;
  Cid_to_string := nat_to_string;
  Cid_try_from := nat_try_from;
  Cid_try_from_to_string := nat_try_from_to_string;
  Cid_try_from_empty := eq_refl;
  Cid_to_string_no_dot := nat_to_string_no_dot;
|}.
