(* ===== verification/Position.v ===== *)
(** * List positions (crdt/doc/list.rs, [Position])

    A position of a CRDT list is a rational number [numerator/denominator] with
    a UUID that breaks ties.  The integers are kept at their Rust widths:
    numerators are [i64], denominators [u64], intermediate results [i128] with
    overflow as a panic, and the [as] casts truncate.  [Uuid::new_v4()] is
    random, so every operation that draws a UUID takes it as an argument; a
    UUID is its 128-bit big-endian value, which orders as its bytes do. *)

From S2P Require Import Prelude.

(** ** Data *)

Record Position : Type := mkPosition {
  numerator : Z;
  denominator : Z;
  unique_id : Z
}.

#[export] Instance Position_eq_dec : EqDecision Position.
Proof. solve_decision. Defined.

(** The widths of the fields. *)
Definition Position_wf (p : Position) : Prop :=
  is_i64 (numerator p) = true /\ is_u64 (denominator p) = true /\ 0 < denominator p.

(** ** Operations *)

(** Euclid's algorithm; [fuel] bounds the recursion, [gcd_fuel] is enough for
    every pair of [u64] values. *)
Fixpoint gcd_loop (fuel : nat) (a b : Z) : Z :=
  match fuel with
  | O => a
  | S fuel => if b =? 0 then a else gcd_loop fuel b (a mod b)
  end.

Definition gcd_fuel : nat := 129.

Definition gcd (a b : Z) : Z := gcd_loop gcd_fuel a b.

Definition Position_reduce (p : Position) : Outcome Position :=
  let g := gcd (Z.abs (numerator p)) (denominator p) in
  if as_i64 g =? 0 then Panic
  else let! n := checked is_i64 (Z.quot (numerator p) (as_i64 g)) in
       Done (mkPosition n (denominator p / g) (unique_id p)).

Definition Position_new (num denom uuid : Z) : Outcome Position :=
  if 0 <? denom then Position_reduce (mkPosition num denom uuid) else Panic.

Definition Position_beginning (uuid : Z) : Outcome Position := Position_new 0 1 uuid.

Definition Position_end (uuid : Z) : Outcome Position := Position_new i64_max 1 uuid.

Definition Position_between (left right : Position) (uuid : Z) : Outcome Position :=
  let! left_num := checked is_i128 (numerator left * denominator right) in
  let! right_num := checked is_i128 (numerator right * denominator left) in
  let! common_denom := checked is_i128 (denominator left * denominator right) in
  let! sum := checked is_i128 (left_num + right_num) in
  let mid_num := Z.quot sum 2 in
  if (mid_num =? left_num) || (mid_num =? right_num) then
    let! new_denom := checked is_i128 (common_denom * 2) in
    let! left2 := checked is_i128 (left_num * 2) in
    let! right2 := checked is_i128 (right_num * 2) in
    let! sum2 := checked is_i128 (left2 + right2) in
    Position_new (as_i64 (Z.quot sum2 2)) (as_u64 new_denom) uuid
  else Position_new (as_i64 mid_num) (as_u64 common_denom) uuid.

Definition Position_cmp (self other : Position) : comparison :=
  let left := numerator self * denominator other in
  let right := numerator other * denominator self in
  match left ?= right with
  | Eq => unique_id self ?= unique_id other
  | ordering => ordering
  end.

Definition Position_ltb (p q : Position) : bool :=
  match Position_cmp p q with Lt => true | _ => false end.

(** Comparison of the rational values alone. *)
Definition Position_value_lt (p q : Position) : Prop :=
  numerator p * denominator q < numerator q * denominator p.

(** A fraction in lowest terms, as [Position::new] leaves it. *)
Definition Position_reduced (p : Position) : Prop :=
  0 < denominator p /\ Z.gcd (numerator p) (denominator p) = 1.

(** ** Lemmas *)

Lemma mod_halves b r : 0 < r < b -> 2 * (b mod r) < b.
Proof.
  intros [H1 H2]. pose proof (Z.div_mod b r). pose proof (Z.mod_pos_bound b r).
  assert (1 <= b / r) by (apply Z.div_le_lower_bound; lia). nia.
Qed.

(** After two rounds the second argument has at least halved. *)
Lemma gcd_loop_enough n a b :
  0 <= a -> 0 <= b < 2 ^ Z.of_nat n -> gcd_loop (2 * n + 1) a b = Z.gcd a b.
Proof.
  revert a b. induction n as [|n IH]; intros a b Ha Hb.
  - assert (b = 0) as -> by (simpl in Hb; lia). simpl. by rewrite Z.gcd_0_r, Z.abs_eq.
  - replace (2 * S n + 1)%nat with (S (S (2 * n + 1))) by lia.
    simpl gcd_loop at 1. destruct (Z.eqb_spec b 0) as [->|Hb0].
    { by rewrite Z.gcd_0_r, Z.abs_eq. }
    assert (Z.gcd a b = Z.gcd b (a mod b)) as -> by
      (by rewrite (Z.gcd_comm b), Z.gcd_mod, Z.gcd_comm by lia).
    pose proof (Z.mod_pos_bound a b). destruct (Z.eqb_spec (a mod b) 0) as [->|Hr0].
    { by rewrite Z.gcd_0_r, Z.abs_eq by lia. }
    pose proof (mod_halves b (a mod b)). pose proof (Z.mod_pos_bound b (a mod b)).
    rewrite IH; [|lia|].
    + by rewrite (Z.gcd_comm (a mod b)), Z.gcd_mod, Z.gcd_comm by lia.
    + rewrite Nat2Z.inj_succ, Z.pow_succ_r in Hb by lia. lia.
Qed.

Lemma gcd_Zgcd a b : 0 <= a -> is_u64 b = true -> gcd a b = Z.gcd a b.
Proof.
  intros Ha Hb. ranges. unfold gcd, gcd_fuel.
  apply (gcd_loop_enough 64); [done|]. simpl Z.of_nat. lia.
Qed.

(** The greatest common divisor of a numerator and a denominator fits [i64],
    except for [i64::MIN] over [2^63] and for a zero numerator. *)
Lemma gcd_fits n d :
  is_i64 n = true -> is_u64 d = true -> 0 < d -> n <> 0 -> ~ (n = i64_min /\ d = 2 ^ 63) ->
  0 < Z.gcd n d < 2 ^ 63.
Proof.
  intros Hn Hd Hpos H0 Hx. ranges.
  pose proof (Z.gcd_nonneg n d). assert (Z.gcd n d <> 0) by (rewrite Z.gcd_eq_0; lia).
  split; [lia|]. destruct (Z.gcd_divide_l n d) as [x Ex]. destruct (Z.gcd_divide_r n d) as [y Ey].
  set (g := Z.gcd n d) in *.
  destruct (decide (g < 2 ^ 63)) as [|Hg]; [done|]. exfalso. apply Hx.
  assert (y = 1) by nia. assert (x = -1) by nia. nia.
Qed.

Lemma reduced_gcd n d :
  0 < Z.gcd n d -> 0 < d ->
  Z.gcd (n / Z.gcd n d) (d / Z.gcd n d) = 1
  /\ n / Z.gcd n d * d = n * (d / Z.gcd n d)
  /\ 0 < d / Z.gcd n d <= d /\ Z.abs (n / Z.gcd n d) <= Z.abs n
  /\ Z.quot n (Z.gcd n d) = n / Z.gcd n d.
Proof.
  intros Hg Hd. split; [by apply Z.gcd_div_gcd; lia|].
  destruct (Z.gcd_divide_l n d) as [x Ex]. destruct (Z.gcd_divide_r n d) as [y Ey].
  set (g := Z.gcd n d) in *. rewrite Ex, Ey, !Z.div_mul, Z.quot_mul by lia.
  repeat split; nia.
Qed.

(** The workhorse behind [Position::new]: no panic, lowest terms, same value. *)
Lemma Position_new_ok num denom uuid :
  is_i64 num = true -> is_u64 denom = true -> 0 < denom ->
  ~ (num = i64_min /\ denom = 2 ^ 63) ->
  exists p, Position_new num denom uuid = Done p
    /\ Position_wf p /\ Position_reduced p /\ unique_id p = uuid
    /\ numerator p * denom = num * denominator p.
Proof.
  intros Hn Hd Hpos Hx. unfold Position_new. rewrite (proj2 (Z.ltb_lt 0 denom)) by done.
  unfold Position_reduce. simpl. rewrite gcd_Zgcd, Z.gcd_abs_l by (done || lia).
  destruct (decide (num = 0)) as [->|H0].
  - rewrite Z.gcd_0_l, (Z.abs_eq denom), Z.div_same by lia.
    assert (as_i64 denom <> 0) as Hne.
    { ranges. unfold as_i64. pose proof (Z.mod_pos_bound (denom + 2 ^ 63) (2 ^ 64)).
      pose proof (Z.div_mod (denom + 2 ^ 63) (2 ^ 64)). lia. }
    rewrite (proj2 (Z.eqb_neq _ _) Hne), Z.quot_0_l by done. simpl.
    eexists; split; [done|]. unfold Position_wf, Position_reduced. simpl. repeat split; done || lia.
  - pose proof (gcd_fits num denom Hn Hd Hpos H0 Hx) as Hg.
    destruct (reduced_gcd num denom) as (R1 & R2 & R3 & R4 & R5); [lia..|].
    rewrite as_i64_id by (ranges; lia).
    rewrite (proj2 (Z.eqb_neq (Z.gcd num denom) 0)), R5 by lia.
    set (g := Z.gcd num denom) in *.
    assert (is_i64 (num / g) = true) as Hi.
    { ranges. destruct (Z.gcd_divide_l num denom) as [x Ex]. fold g in Ex.
      rewrite Ex, Z.div_mul in * by lia. nia. }
    unfold checked. rewrite Hi. simpl.
    eexists; split; [done|]. unfold Position_wf, Position_reduced. simpl.
    repeat split; try done; try (ranges; lia).
Qed.

Lemma Position_value_lt_cmp p q : Position_value_lt p q -> Position_cmp p q = Lt.
Proof. unfold Position_value_lt, Position_cmp. by intros ->%Z.compare_lt_iff. Qed.

Lemma Position_cmp_refl p : Position_cmp p p = Eq.
Proof. unfold Position_cmp. by rewrite !Z.compare_refl. Qed.

Lemma Position_cmp_antisym p q : Position_cmp p q = CompOpp (Position_cmp q p).
Proof.
  unfold Position_cmp.
  rewrite (Z.compare_antisym (numerator q * denominator p)).
  destruct (_ ?= _); simpl; [|done..]. by rewrite Z.compare_antisym.
Qed.

Lemma Position_cmp_lt_iff p q :
  Position_cmp p q = Lt <->
  Position_value_lt p q
  \/ (numerator p * denominator q = numerator q * denominator p /\ unique_id p < unique_id q).
Proof.
  unfold Position_cmp, Position_value_lt.
  destruct (Z.compare_spec (numerator p * denominator q) (numerator q * denominator p)).
  - rewrite Z.compare_lt_iff. intuition lia.
  - intuition lia.
  - split; [done|]. intuition lia.
Qed.

Lemma Position_cmp_trans p q r :
  Position_wf p -> Position_wf q -> Position_wf r ->
  Position_cmp p q = Lt -> Position_cmp q r = Lt -> Position_cmp p r = Lt.
Proof.
  intros (_ & _ & Hp) (_ & _ & Hq) (_ & _ & Hr). rewrite !Position_cmp_lt_iff.
  unfold Position_value_lt.
  set (a := numerator p) in *. set (b := denominator p) in *.
  set (c := numerator q) in *. set (d := denominator q) in *.
  set (e := numerator r) in *. set (f := denominator r) in *.
  intros [H1|[H1 U1]] [H2|[H2 U2]].
  - left. apply (Z.mul_lt_mono_pos_r d); [done|]. nia.
  - left. apply (Z.mul_lt_mono_pos_r d); [done|]. nia.
  - left. apply (Z.mul_lt_mono_pos_r d); [done|]. nia.
  - right. split; [|lia]. apply (Z.mul_reg_r _ _ d); [lia|]. nia.
Qed.

Lemma reduced_unique n d n' d' :
  0 < d -> 0 < d' -> Z.gcd n d = 1 -> Z.gcd n' d' = 1 -> n * d' = n' * d -> n = n' /\ d = d'.
Proof.
  intros Hd Hd' G G' E.
  assert (d = d') as ->.
  { apply Z.divide_antisym_nonneg; [lia..| |].
    - apply (Z.gauss _ n); [exists n'; lia|by rewrite Z.gcd_comm].
    - apply (Z.gauss _ n'); [exists n; lia|by rewrite Z.gcd_comm]. }
  split; [nia|done].
Qed.

(** Inputs for which the [i64]/[u64] casts of [Position::between] lose nothing. *)
Definition between_fits (l r : Position) : Prop :=
  Z.abs (numerator l * denominator r + numerator r * denominator l) <= i64_max
  /\ is_u64 (denominator l * denominator r * 2) = true
  /\ is_i64 (numerator l * denominator r) = true
  /\ is_i64 (numerator r * denominator l) = true.

Lemma checked_i128 z : - 2 ^ 127 <= z < 2 ^ 127 -> checked is_i128 z = Done z.
Proof. intros. unfold checked. by replace (is_i128 z) with true by (symmetry; ranges; lia). Qed.

Lemma quot2_bounds l r : l <= r -> l <= Z.quot (l + r) 2 <= r.
Proof.
  intros. pose proof (Z.quot_rem' (l + r) 2) as E.
  pose proof (Z.rem_bound_abs (l + r) 2). lia.
Qed.

(** Comparing a fraction [np/dp = N/(k*dl*dr)] with [nl/dl] through the common
    denominator. *)
Lemma common_denominator nl dl dr np dp N k :
  0 < dl -> 0 < dr -> 0 < dp -> 0 < k -> np * (k * (dl * dr)) = N * dp ->
  (nl * dp ?= np * dl) = (k * (nl * dr) ?= N).
Proof.
  intros Hl Hr Hp Hk E. assert (0 < k * (dl * dr)) as HD by nia.
  rewrite (Zmult_compare_compat_r (nl * dp) _ (k * (dl * dr))) by lia.
  rewrite (Zmult_compare_compat_r (k * (nl * dr)) N (dp * dl)) by nia.
  f_equal; [ring|]. transitivity (np * (k * (dl * dr)) * dl); [ring|]. rewrite E. ring.
Qed.

Lemma between_order l r p N k :
  Position_wf l -> Position_wf r -> Position_wf p -> 0 < k ->
  numerator p * (k * (denominator l * denominator r)) = N * denominator p ->
  (numerator l * denominator p ?= numerator p * denominator l)
    = (k * (numerator l * denominator r) ?= N)
  /\ (numerator p * denominator r ?= numerator r * denominator p)
    = (N ?= k * (numerator r * denominator l)).
Proof.
  intros (_ & _ & Hl) (_ & _ & Hr) (_ & _ & Hp) Hk E. split.
  - by apply common_denominator.
  - rewrite (Z.compare_antisym (k * _)), (Z.compare_antisym (numerator r * _)). f_equal.
    apply common_denominator; try done. rewrite <- E. ring.
Qed.

(** On inputs that fit, [between] returns the fraction [N / (k * C)] with [N]
    the midpoint of the two numerators over the common denominator [C], taken
    at a precision [k] that separates it from both ends. *)
Lemma Position_between_mid l r uuid :
  Position_wf l -> Position_wf r -> between_fits l r ->
  numerator l * denominator r <= numerator r * denominator l ->
  exists p N k, Position_between l r uuid = Done p
    /\ Position_wf p /\ Position_reduced p /\ unique_id p = uuid /\ 0 < k
    /\ numerator p * (k * (denominator l * denominator r)) = N * denominator p
    /\ (k * (numerator l * denominator r) < N < k * (numerator r * denominator l)
        \/ (numerator l * denominator r = numerator r * denominator l
            /\ N = k * (numerator l * denominator r))).
Proof.
  intros (_ & _ & Hl) (_ & _ & Hr) (Hsum & Hden & Hln & Hrn) Hle. unfold Position_between.
  set (L := numerator l * denominator r) in *. set (R := numerator r * denominator l) in *.
  set (C := denominator l * denominator r) in *.
  assert (0 < C) by (subst C; nia).
  rewrite (checked_i128 L), (checked_i128 R), (checked_i128 C) by (ranges; lia).
  simpl outcome_bind. rewrite (checked_i128 (L + R)) by (ranges; lia). simpl outcome_bind.
  pose proof (quot2_bounds L R Hle) as Hq.
  destruct (decide (L < (L + R) ÷ 2 < R)) as [Hin|Hout].
  - rewrite (proj2 (Z.eqb_neq _ L)), (proj2 (Z.eqb_neq _ R)) by lia. simpl.
    rewrite as_i64_id, as_u64_id by (ranges; lia).
    destruct (Position_new_ok ((L + R) ÷ 2) C uuid) as (p & ? & ? & ? & ? & ?); [ranges; lia..|].
    exists p, ((L + R) ÷ 2), 1. rewrite !Z.mul_1_l. do 5 (split; [done|]). split; [done|lia].
  - replace (_ || _) with true by (symmetry; apply orb_true_iff; rewrite !Z.eqb_eq; lia).
    rewrite (checked_i128 (C * 2)), (checked_i128 (L * 2)), (checked_i128 (R * 2))
      by (ranges; lia). simpl outcome_bind.
    rewrite (checked_i128 (L * 2 + R * 2)) by (ranges; lia). simpl outcome_bind.
    replace ((L * 2 + R * 2) ÷ 2) with (L + R)
      by (replace (L * 2 + R * 2) with ((L + R) * 2) by lia; by rewrite Z.quot_mul).
    rewrite as_i64_id, as_u64_id by (ranges; lia).
    destruct (Position_new_ok (L + R) (C * 2) uuid) as (p & ? & ? & ? & ? & ?); [ranges; lia..|].
    exists p, (L + R), 2. rewrite (Z.mul_comm 2 C). do 4 (split; [done|]). split; [lia|]. split; [done|lia].
Qed.

(** ** Theorems *)

(** [Position::new] panics exactly on a zero denominator; otherwise it
    returns the fraction in lowest terms, with the same rational value and the
    fields in range, for every input but [i64::MIN / 2^63], whose sign it
    flips. *)
Theorem Position_new_spec num denom uuid :
  is_i64 num = true -> is_u64 denom = true ->
  (denom = 0 -> Position_new num denom uuid = Panic)
  /\ (0 < denom -> ~ (num = i64_min /\ denom = 2 ^ 63) ->
      exists p, Position_new num denom uuid = Done p
        /\ Position_wf p /\ Position_reduced p /\ unique_id p = uuid
        /\ numerator p * denom = num * denominator p)
  /\ Position_new i64_min (2 ^ 63) uuid = Done (mkPosition 1 1 uuid).
Proof.
  intros Hn Hd. split; [by intros ->|]. split; [|done].
  intros Hpos Hx. by apply Position_new_ok.
Qed.

Lemma Position_new_spec_witness :
  exists p, Position_new 6 4 7 = Done p /\ Position_reduced p.
Proof.
  destruct (Position_new_spec 6 4 7 eq_refl eq_refl) as (_ & H & _).
  destruct (H eq_refl) as (p & Hp & _ & Hr & _); [unfold i64_min; lia|]. by exists p.
Defined.

(** [Ord for Position] is a strict total order on the positions that
    [Position::new] makes: comparing is antisymmetric and transitive, and two
    positions compare equal only when they are the same position. *)
Theorem Position_cmp_order p q r :
  Position_wf p -> Position_wf q -> Position_wf r -> Position_reduced p -> Position_reduced q ->
  Position_cmp p q = CompOpp (Position_cmp q p)
  /\ (Position_cmp p q = Lt -> Position_cmp q r = Lt -> Position_cmp p r = Lt)
  /\ (Position_cmp p q = Eq <-> p = q).
Proof.
  intros Hp Hq Hr [? Gp] [? Gq]. split; [apply Position_cmp_antisym|].
  split; [by apply Position_cmp_trans|]. split; [|intros ->; apply Position_cmp_refl].
  unfold Position_cmp. destruct (_ ?= _) eqn:E; try done.
  intros Hu%Z.compare_eq_iff. apply Z.compare_eq_iff in E.
  destruct (reduced_unique (numerator p) (denominator p) (numerator q) (denominator q)); try done.
  destruct p, q; simpl in *; congruence.
Qed.

Lemma Position_cmp_order_witness :
  Position_cmp (mkPosition 1 2 5) (mkPosition 3 4 1) = Lt
  /\ Position_cmp (mkPosition 1 2 5) (mkPosition 1 1 0) = Lt.
Proof.
  split; [reflexivity|].
  refine (proj1 (proj2 (Position_cmp_order _ (mkPosition 3 4 1) _ _ _ _ _ _)) _ _);
    repeat split; reflexivity.
Defined.

Lemma Position_between_lt l r uuid :
  Position_wf l -> Position_wf r -> between_fits l r -> Position_value_lt l r ->
  exists p, Position_between l r uuid = Done p /\ Position_wf p /\ Position_reduced p
    /\ Position_cmp l p = Lt /\ Position_cmp p r = Lt.
Proof.
  intros Hl Hr Hf Hlt. unfold Position_value_lt in Hlt.
  destruct (Position_between_mid l r uuid) as (p & N & k & Hp & Hwf & Hred & _ & Hk & HN & Hb);
    try done; [lia|].
  destruct (between_order l r p N k) as [E1 E2]; try done.
  exists p. repeat split; try done; try apply Hwf; try apply Hred;
    apply Position_value_lt_cmp; unfold Position_value_lt; rewrite <- Z.compare_lt_iff.
  - rewrite E1, Z.compare_lt_iff. lia.
  - rewrite E2, Z.compare_lt_iff. lia.
Qed.

(** C40: when the two ends differ in value and the casts lose nothing,
    [Position::between] returns a position strictly between them in the order
    of the list. *)
Theorem Position_between_strict l r uuid :
  Position_wf l -> Position_wf r -> between_fits l r -> Position_value_lt l r ->
  exists p, Position_between l r uuid = Done p /\ Position_wf p /\ Position_reduced p
    /\ Position_cmp l p = Lt /\ Position_cmp p r = Lt.
Proof. apply Position_between_lt. Qed.

Lemma Position_between_strict_witness :
  exists p, Position_between (mkPosition 1 1 0) (mkPosition 3 1 0) 9 = Done p
    /\ Position_cmp (mkPosition 1 1 0) p = Lt.
Proof.
  destruct (Position_between_strict (mkPosition 1 1 0) (mkPosition 3 1 0) 9)
    as (p & Hp & _ & _ & Hl & _); try (repeat split; reflexivity).
  - unfold between_fits, i64_max. simpl. repeat split; reflexivity || lia.
  - by exists p.
Defined.

(** Between two positions of equal value (two replicas that inserted at the
    same place) [Position::between] can only return that value again, so the
    new element is ordered against both neighbours by its random UUID alone
    and may land outside them. *)
Theorem Position_between_tie l r uuid :
  Position_wf l -> Position_wf r -> between_fits l r ->
  numerator l * denominator r = numerator r * denominator l ->
  exists p, Position_between l r uuid = Done p
    /\ Position_cmp l p = (unique_id l ?= uuid) /\ Position_cmp p r = (uuid ?= unique_id r).
Proof.
  intros Hl Hr Hf Heq.
  destruct (Position_between_mid l r uuid) as (p & N & k & Hp & Hwf & Hred & Hu & Hk & HN & Hb);
    try done; [lia|].
  destruct (between_order l r p N k) as [E1 E2]; try done.
  assert (N = k * (numerator l * denominator r)) as -> by nia.
  rewrite Heq in E2 at 1. rewrite Z.compare_refl in E1, E2.
  exists p. unfold Position_cmp. by rewrite E1, E2, Hu.
Qed.

Lemma Position_between_tie_witness :
  exists p, Position_between (mkPosition 1 2 10) (mkPosition 1 2 20) 5 = Done p
    /\ Position_cmp (mkPosition 1 2 10) p = Gt.
Proof.
  destruct (Position_between_tie (mkPosition 1 2 10) (mkPosition 1 2 20) 5)
    as (p & Hp & Hl & _); try (repeat split; reflexivity).
  - unfold between_fits, i64_max. simpl. repeat split; reflexivity || lia.
  - by exists p.
Defined.

(** Inserting repeatedly next to the first element halves the gap each
    time; the [k]-th position is [1/2^k] up to [k = 63], and the next insertion
    panics because its denominator [2^64] truncates to zero. *)
Theorem Position_between_exhausts u1 u2 u3 :
  (forall k, 0 <= k < 63 ->
     Position_between (mkPosition 0 1 u1) (mkPosition 1 (2 ^ k) u2) u3
     = Done (mkPosition 1 (2 ^ (k + 1)) u3))
  /\ Position_between (mkPosition 0 1 u1) (mkPosition 1 (2 ^ 63) u2) u3 = Panic.
Proof.
  split; [|reflexivity]. intros k Hk.
  assert (0 <= k < 63) as [H1 H2] by done.
  assert (forall n, (n < 63)%nat ->
    Position_between (mkPosition 0 1 u1) (mkPosition 1 (2 ^ Z.of_nat n) u2) u3
    = Done (mkPosition 1 (2 ^ (Z.of_nat n + 1)) u3)) as Hall.
  { intros n Hn. do 63 (destruct n as [|n]; [reflexivity|]). lia. }
  rewrite <- (Z2Nat.id k) by lia. apply Hall. lia.
Qed.
