(* ===== verification/Doc.v ===== *)
(** * Documents: values, lists and nested documents (crdt/doc/)

    The data types of crdt/doc/value.rs, crdt/doc/list.rs and crdt/doc/mod.rs,
    which are mutually recursive, and their operations.  A [HashMap] is a
    [gmap]; a [BTreeMap<Position, Value>] is an association list kept in the
    order of [Position_cmp], searched and updated through that comparison as
    the B-tree does (an equal key keeps the old key and replaces the value).
    Methods on [&mut self] return the new value next to their result; a method
    that hands out a [&mut Value] returns the current value with the function
    that writes a new one back. *)

From S2P Require Import Prelude.
From S2P Require Import Path.
From S2P Require Import Position.

(** ** Data *)

Inductive Value : Type :=
| Null
| Bool (b : bool)
| Int (n : Z)
| Text (s : string)
| VDoc (d : Doc)
| VList (l : List)
| Deleted
with Doc : Type :=
| mkDoc (version : Z) (atomic : bool) (children : gmap string Value)
with List : Type :=
| mkList (items : list (Position * Value)).

Definition version (d : Doc) : Z := let 'mkDoc v _ _ := d in v.
Definition atomic (d : Doc) : bool := let 'mkDoc _ a _ := d in a.
Definition children (d : Doc) : gmap string Value := let 'mkDoc _ _ c := d in c.
Definition items (l : List) : list (Position * Value) := let 'mkList i := l in i.

(** The errors of crdt/errors.rs that documents raise; the free text of a
    message is left out. *)
Inductive CRDTError : Type :=
| SerializationFailed
| DeserializationFailed
| TypeMismatch (expected actual : string)
| ElementNotFound (key : string)
| ListIndexOutOfBounds (index len : nat).

(** ** Values *)

Definition is_leaf (v : Value) : bool :=
  match v with Null | Bool _ | Int _ | Text _ | Deleted => true | _ => false end.

Definition is_branch (v : Value) : bool :=
  match v with VDoc _ | VList _ => true | _ => false end.

Definition is_deleted (v : Value) : bool :=
  match v with Deleted => true | _ => false end.

Definition is_null (v : Value) : bool :=
  match v with Null => true | _ => false end.

Definition type_name (v : Value) : string :=
  match v with
  | Null => "null"
  | Bool _ => "bool"
  | Int _ => "int"
  | Text _ => "text"
  | VDoc _ => "doc"
  | VList _ => "list"
  | Deleted => "deleted"
  end.

Definition as_bool (v : Value) : option bool := match v with Bool b => Some b | _ => None end.
Definition as_bool_or (v : Value) (default : bool) : bool :=
  match as_bool v with Some b => b | None => default end.
Definition as_int (v : Value) : option Z := match v with Int n => Some n | _ => None end.
Definition as_int_or (v : Value) (default : Z) : Z :=
  match as_int v with Some n => n | None => default end.
Definition as_text (v : Value) : option string := match v with Text s => Some s | _ => None end.
Definition as_text_or_empty (v : Value) : string :=
  match as_text v with Some s => s | None => EmptyString end.
Definition as_doc (v : Value) : option Doc := match v with VDoc d => Some d | _ => None end.
Definition as_list (v : Value) : option List := match v with VList l => Some l | _ => None end.

(** [impl From<u64> for Value]: a truncating cast. *)
Definition Value_from_u64 (n : Z) : Value := Int (as_i64 n).

(** [impl From<u32> for Value]. *)
Definition Value_from_u32 (n : Z) : Value := Int (as_i64 n).

(** [TryFrom<&Value>]: the typed views of a value. *)
Class FromValue (T : Type) : Type := try_from : Value -> Result T CRDTError.

#[export] Instance FromValue_string : FromValue string := fun v =>
  match v with Text s => Ok s | _ => Err (TypeMismatch "String" (type_name v)) end.
#[export] Instance FromValue_i64 : FromValue Z := fun v =>
  match v with Int n => Ok n | _ => Err (TypeMismatch "i64" (type_name v)) end.
#[export] Instance FromValue_bool : FromValue bool := fun v =>
  match v with Bool b => Ok b | _ => Err (TypeMismatch "bool" (type_name v)) end.
#[export] Instance FromValue_Doc : FromValue Doc := fun v =>
  match v with VDoc d => Ok d | _ => Err (TypeMismatch "Doc" (type_name v)) end.
#[export] Instance FromValue_List : FromValue List := fun v =>
  match v with VList l => Ok l | _ => Err (TypeMismatch "List" (type_name v)) end.

(** ** The ordered map of list items *)

Section btree.
Context {A : Type}.
Implicit Types (l : list (Position * A)).

(** [BTreeMap::get]. *)
Fixpoint btree_get (p : Position) l : option A :=
  match l with
  | [] => None
  | (q, v) :: rest =>
      match Position_cmp p q with
      | Lt => None
      | Eq => Some v
      | Gt => btree_get p rest
      end
  end.

(** [BTreeMap::insert]. *)
Fixpoint btree_insert (p : Position) (v : A) l : list (Position * A) :=
  match l with
  | [] => [(p, v)]
  | (q, w) :: rest =>
      match Position_cmp p q with
      | Lt => (p, v) :: (q, w) :: rest
      | Eq => (q, v) :: rest
      | Gt => (q, w) :: btree_insert p v rest
      end
  end.

(** [BTreeMap::remove]. *)
Fixpoint btree_remove (p : Position) l : list (Position * A) :=
  match l with
  | [] => []
  | (q, w) :: rest =>
      match Position_cmp p q with
      | Lt => (q, w) :: rest
      | Eq => rest
      | Gt => (q, w) :: btree_remove p rest
      end
  end.
End btree.

(** ** Merging (Value::merge, List::merge, Doc::merge) *)

Fixpoint Value_merge (self other : Value) {struct other} : Value :=
  if is_deleted self then other
  else if is_deleted other then Deleted
  else match other with
       | VDoc other_node =>
           match self with
           | VDoc self_node => VDoc (Doc_merge self_node other_node)
           | _ => other
           end
       | VList other_list =>
           match self with
           | VList self_list => VList (List_merge self_list other_list)
           | _ => other
           end
       | _ => other
       end
with Doc_merge (self other : Doc) {struct other} : Doc :=
  match other with
  | mkDoc _ other_atomic other_children =>
      if other_atomic then other
      else mkDoc (version self) (atomic self)
             (map_fold
                (fun key other_value result =>
                   match result !! key with
                   | Some self_value => <[key := Value_merge self_value other_value]> result
                   | None => <[key := other_value]> result
                   end)
                (children self) other_children)
  end
with List_merge (self other : List) {struct other} : List :=
  match other with
  | mkList other_items =>
      mkList
        (foldl
           (fun its '(position, value) =>
              match btree_get position its with
              | Some existing_value =>
                  btree_insert position (Value_merge existing_value value) its
              | None => btree_insert position value its
              end)
           (items self) other_items)
  end.

(** ** Lists *)

Definition List_new : List := mkList [].

(** The entries that are not tombstones. *)
Definition visible (l : list (Position * Value)) : list (Position * Value) :=
  filter (fun pv => is_deleted pv.2 = false) l.

Definition List_len (l : List) : nat := length (visible (items l)).

Definition List_total_len (l : List) : nat := length (items l).

Definition List_is_empty (l : List) : bool :=
  match items l with [] => true | _ => false end.

(** [List::iter]. *)
Definition List_iter (l : List) : list Value := (visible (items l)).*2.

(** [List::iter_all] and [List::to_vec]. *)
Definition List_to_vec (l : List) : list Value := (items l).*2.

Definition List_push (l : List) (value : Value) (uuid : Z) : Outcome (List * nat) :=
  let! position :=
    match last (items l) with
    | Some (last_pos, _) => Position_new (i64_saturating (numerator last_pos + 1)) 1 uuid
    | None => Position_beginning uuid
    end in
  let l' := mkList (btree_insert position value (items l)) in
  match List_len l' with
  | O => Panic
  | S n => Done (l', n)
  end.

Definition List_insert (l : List) (index : nat) (value : Value) (uuid : Z) :
    Outcome (Result List CRDTError) :=
  let len := List_len l in
  if (len <? index)%nat then Done (Err (ListIndexOutOfBounds index len))
  else
    let! position :=
      if (index =? 0)%nat then
        match head (items l) with
        | Some (first_pos, _) =>
            let! n := checked is_i64 (numerator first_pos - 1) in
            Position_new n (denominator first_pos) uuid
        | None => Position_beginning uuid
        end
      else if (index =? len)%nat then
        match last (items l) with
        | Some (last_pos, _) =>
            let! n := checked is_i64 (numerator last_pos + 1) in
            Position_new n (denominator last_pos) uuid
        | None => Position_beginning uuid
        end
      else
        match (items l).*1 !! (index - 1)%nat, (items l).*1 !! index with
        | Some left_pos, Some right_pos => Position_between left_pos right_pos uuid
        | _, _ => Panic
        end in
    Done (Ok (mkList (btree_insert position value (items l)))).

Definition List_get (l : List) (index : nat) : option Value := List_iter l !! index.

(** The scan shared by [get_mut], [set] and [remove]: the position of the
    [index]-th entry that is not a tombstone. *)
Fixpoint target_position (current_index index : nat) (l : list (Position * Value)) :
    option Position :=
  match l with
  | [] => None
  | (pos, value) :: rest =>
      if is_deleted value then target_position current_index index rest
      else if (current_index =? index)%nat then Some pos
      else target_position (S current_index) index rest
  end.

Definition List_get_mut (l : List) (index : nat) : option (Value * (Value -> List)) :=
  match target_position 0 index (items l) with
  | Some pos =>
      match btree_get pos (items l) with
      | Some v => Some (v, fun v' => mkList (btree_insert pos v' (items l)))
      | None => None
      end
  | None => None
  end.

Definition List_insert_at_position (l : List) (position : Position) (value : Value) : List :=
  mkList (btree_insert position value (items l)).

Definition List_get_by_position (l : List) (position : Position) : option Value :=
  btree_get position (items l).

Definition List_set (l : List) (index : nat) (value : Value) : List * option Value :=
  match target_position 0 index (items l) with
  | Some pos => (mkList (btree_insert pos value (items l)), btree_get pos (items l))
  | None => (l, None)
  end.

Definition List_remove (l : List) (index : nat) : List * option Value :=
  match target_position 0 index (items l) with
  | Some pos => (mkList (btree_insert pos Deleted (items l)), btree_get pos (items l))
  | None => (l, None)
  end.

Definition List_remove_by_position (l : List) (position : Position) : List * option Value :=
  (mkList (btree_remove position (items l)), btree_get position (items l)).

Definition List_clear (l : List) : List := mkList [].

(** [FromIterator<Value> for List]; the UUIDs drawn are given in order. *)
Fixpoint List_from_iter_go (l : List) (values : list (Value * Z)) : Outcome List :=
  match values with
  | [] => Done l
  | (v, uuid) :: rest => let! r := List_push l v uuid in List_from_iter_go r.1 rest
  end.

Definition List_from_iter (values : list (Value * Z)) : Outcome List :=
  List_from_iter_go List_new values.

(** [Serialize]/[Deserialize for List]: the sequence of pairs. *)
Definition List_serialize (l : List) : list (Position * Value) := items l.

Definition List_deserialize (seq : list (Position * Value)) : List :=
  mkList (foldl (fun its '(position, value) => btree_insert position value its) [] seq).

(** ** Documents *)

Definition DOC_VERSION : Z := 0.

Definition Doc_new : Doc := mkDoc DOC_VERSION false ∅.

Definition Doc_atomic : Doc := mkDoc DOC_VERSION true ∅.

Definition Doc_default : Doc := Doc_new.

Definition is_atomic (d : Doc) : bool := atomic d.

(** The check [validate_doc_version] makes while deserialising. *)
Definition validate_doc_version (v : Z) : Result Z CRDTError :=
  if v =? DOC_VERSION then Ok v else Err DeserializationFailed.

(** [Doc::iter]: the entries that are not tombstones. *)
Definition Doc_iter (d : Doc) : gmap string Value :=
  filter (fun kv => is_deleted kv.2 = false) (children d).

Definition Doc_keys (d : Doc) : gset string := dom (Doc_iter d).

Definition Doc_is_empty (d : Doc) : bool :=
  forallb (fun kv => is_deleted kv.2) (map_to_list (children d)).

Definition Doc_len (d : Doc) : nat := size (Doc_iter d).

(** The loop of [get_raw] over the segments after the first. *)
Fixpoint get_segments (current_value : Value) (segments : list string) : option Value :=
  match segments with
  | [] => Some current_value
  | segment :: rest =>
      match current_value with
      | VDoc d => v ← children d !! segment; get_segments v rest
      | VList l => index ← parse_uint u64_max segment; v ← List_get l (Z.to_nat index); get_segments v rest
      | _ => None
      end
  end.

Definition get_raw (d : Doc) (path : string) : option Value :=
  if negb (str_contains dot path) then children d !! path
  else match Path_components path with
       | [] => None
       | first_segment :: rest =>
           v ← children d !! first_segment; get_segments v rest
       end.

(** [match v { Some(Value::Deleted) => None, v => v }]. *)
Definition hide_tombstone (v : option Value) : option Value :=
  match v with Some Deleted => None | _ => v end.

Definition Doc_get (d : Doc) (path : string) : option Value := hide_tombstone (get_raw d path).

Definition is_tombstone (d : Doc) (path : string) : bool :=
  match get_raw d path with Some Deleted => true | _ => false end.

Definition contains_key (d : Doc) (path : string) : bool :=
  match Doc_get d path with Some _ => true | None => false end.

Definition with_child (d : Doc) (key : string) (v : Value) : Doc :=
  mkDoc (version d) (atomic d) (<[key := v]> (children d)).

(** [get_mut] below the path's segments. *)
Fixpoint get_mut_segments (d : Doc) (segments : list string) : option (Value * (Value -> Doc)) :=
  match segments with
  | [] => None
  | [final_key] =>
      match hide_tombstone (children d !! final_key) with
      | Some v => Some (v, with_child d final_key)
      | None => None
      end
  | segment :: rest =>
      match children d !! segment with
      | Some (VDoc sub) =>
          match get_mut_segments sub rest with
          | Some (v, write) => Some (v, fun v' => with_child d segment (VDoc (write v')))
          | None => None
          end
      | _ => None
      end
  end.

Definition Doc_get_mut (d : Doc) (path : string) : option (Value * (Value -> Doc)) :=
  if negb (str_contains dot path) then
    match hide_tombstone (children d !! path) with
    | Some v => Some (v, with_child d path)
    | None => None
    end
  else get_mut_segments d (Path_components path).

Definition get_as {T} `{FromValue T} (d : Doc) (path : string) : option T :=
  value ← Doc_get d path; result_ok (try_from value).

(** [children.insert(key, value)] with the old value, tombstones hidden. *)
Definition insert_child (d : Doc) (key : string) (value : Value) : Doc * option Value :=
  (with_child d key value, hide_tombstone (children d !! key)).

(** The walk of [set]: a missing child, a tombstone, a scalar or a list on the
    way is replaced by a new document. *)
Fixpoint set_segments (d : Doc) (segments : list string) (value : Value) : Doc * option Value :=
  match segments with
  | [] => (d, None)
  | [final_key] => insert_child d final_key value
  | segment :: rest =>
      let sub := match children d !! segment with Some (VDoc sub) => sub | _ => Doc_new end in
      let r := set_segments sub rest value in
      (with_child d segment (VDoc r.1), r.2)
  end.

Definition Doc_set (d : Doc) (path : string) (value : Value) : Doc * option Value :=
  if negb (str_contains dot path) then insert_child d path value
  else set_segments d (Path_components path) value.

Definition Doc_remove (d : Doc) (path : string) : Doc * option Value := Doc_set d path Deleted.

(** [FromIterator<(String, Value)> for Doc]. *)
Definition Doc_from_iter (kvs : list (string * Value)) : Doc :=
  foldl (fun d kv => (Doc_set d kv.1 kv.2).1) Doc_new kvs.

(** [get_or_insert]: the document after the call and the referenced value; the
    [expect] panics when [get_mut] finds nothing. *)
Definition get_or_insert (d : Doc) (path : string) (default : Value) :
    Outcome (Doc * (Value * (Value -> Doc))) :=
  let d' := if contains_key d path then d else (Doc_set d path default).1 in
  match Doc_get_mut d' path with
  | Some r => Done (d', r)
  | None => Panic
  end.

(** [set_json] and [get_json], over the JSON codec of the stored type. *)
Section json.
Context {T : Type} (to_json : T -> option string) (from_json : string -> option T).

Definition set_json (d : Doc) (path : string) (value : T) : Result Doc CRDTError :=
  let? json := ok_or (to_json value) SerializationFailed in
  Ok (Doc_set d path (Text json)).1.

Definition get_json (d : Doc) (path : string) : Result T CRDTError :=
  let? value := ok_or (Doc_get d path) (ElementNotFound path) in
  match value with
  | Text json => ok_or (from_json json) DeserializationFailed
  | _ => Err (TypeMismatch "Text (JSON string)" (type_name value))
  end.
End json.
