(* ===== verification/DocPath.v ===== *)
(** * Reading and writing documents by path

    Theorems on [Doc::get], [set], [remove], [get_mut], [get_or_insert] and the
    JSON accessors: what a write makes readable and what it leaves alone, that
    [get_mut] is the lens of [get] and [set], and on which inputs the [expect]
    of [get_or_insert] panics. *)

From S2P Require Import Prelude.
From S2P Require Import Path.
From S2P Require Import Position.
From S2P Require Import Doc.

(** The keys a path names, one per level: a path without a dot is one key,
    even when it is empty. *)
Definition segments_of (path : string) : list string :=
  if str_contains dot path then Path_components path else [path].

(** The raw value below a document along a list of keys. *)
Definition raw_at (d : Doc) (segs : list string) : option Value :=
  match segs with
  | [] => None
  | s :: rest => v ← children d !! s; get_segments v rest
  end.

(** The sub-document reached through documents only. *)
Fixpoint doc_at (d : Doc) (segs : list string) : option Doc :=
  match segs with
  | [] => Some d
  | s :: rest =>
      match children d !! s with
      | Some (VDoc sub) => doc_at sub rest
      | _ => None
      end
  end.

(** ** All operations work on the segments *)

Lemma get_raw_segments d p : get_raw d p = raw_at d (segments_of p).
Proof.
  unfold get_raw, segments_of. destruct (str_contains dot p); simpl; [done|].
  by destruct (children d !! p).
Qed.

Lemma Doc_set_segments d p v : Doc_set d p v = set_segments d (segments_of p) v.
Proof. unfold Doc_set, segments_of. by destruct (str_contains dot p). Qed.

Lemma Doc_get_mut_segments d p : Doc_get_mut d p = get_mut_segments d (segments_of p).
Proof. unfold Doc_get_mut, segments_of. by destruct (str_contains dot p). Qed.

Lemma get_segments_doc d segs :
  segs <> [] -> get_segments (VDoc d) segs = raw_at d segs.
Proof. by destruct segs. Qed.

Lemma children_with_child d k v : children (with_child d k v) = <[k := v]> (children d).
Proof. done. Qed.

Lemma hide_tombstone_Some o v : hide_tombstone o = Some v <-> o = Some v /\ v <> Deleted.
Proof. destruct o as [[]|]; simpl; naive_solver. Qed.

Lemma raw_at_cons d s segs :
  segs <> [] -> raw_at d (s :: segs) = v ← children d !! s; get_segments v segs.
Proof. done. Qed.

(** ** Writes *)

Lemma set_segments_cons d s segs v :
  segs <> [] ->
  set_segments d (s :: segs) v =
    let r := set_segments (match children d !! s with Some (VDoc sub) => sub | _ => Doc_new end)
               segs v in
    (with_child d s (VDoc r.1), r.2).
Proof. by destruct segs. Qed.

Lemma get_mut_segments_cons d s segs :
  segs <> [] ->
  get_mut_segments d (s :: segs) =
    match children d !! s with
    | Some (VDoc sub) =>
        match get_mut_segments sub segs with
        | Some (v, write) => Some (v, fun v' => with_child d s (VDoc (write v')))
        | None => None
        end
    | _ => None
    end.
Proof. by destruct segs. Qed.

Lemma raw_at_set d segs v : segs <> [] -> raw_at (set_segments d segs v).1 segs = Some v.
Proof.
  revert d. induction segs as [|s segs IH]; intros d Hne; [done|].
  destruct (decide (segs = [])) as [->|Hs]; [simpl; by rewrite lookup_insert_eq|].
  rewrite set_segments_cons by done. simpl.
  rewrite lookup_insert_eq. simpl. rewrite get_segments_doc by done. by apply IH.
Qed.

Lemma set_segments_twice d segs v w :
  set_segments (set_segments d segs v).1 segs w =
    ((set_segments d segs w).1, match segs with [] => None | _ => hide_tombstone (Some v) end).
Proof.
  revert d. induction segs as [|s segs IH]; intros d; [done|].
  destruct (decide (segs = [])) as [->|Hs].
  - simpl. unfold insert_child, with_child. simpl. by rewrite lookup_insert_eq, insert_insert_eq.
  - rewrite !set_segments_cons by done. simpl. rewrite lookup_insert_eq, IH. simpl.
    unfold with_child. simpl. rewrite insert_insert_eq. by destruct segs.
Qed.

(** The old value that [set] returns is the one [get_mut] refers to. *)
Lemma set_segments_old d segs v :
  (set_segments d segs v).2 = fst <$> get_mut_segments d segs.
Proof.
  revert d. induction segs as [|s segs IH]; intros d; [done|].
  destruct (decide (segs = [])) as [->|Hs].
  { simpl. by destruct (hide_tombstone _). }
  rewrite set_segments_cons, get_mut_segments_cons by done. simpl. rewrite IH.
  destruct (children d !! s) as [[]|]; simpl;
    try (by destruct (get_mut_segments _ _) as [[??]|]);
    destruct segs as [|s' [|]]; try done; simpl; by rewrite ?lookup_empty.
Qed.

(** [get_mut] reads what [get] reads and writes what [set] writes. *)
Lemma get_mut_segments_lens d segs v write :
  get_mut_segments d segs = Some (v, write) ->
  raw_at d segs = Some v /\ v <> Deleted /\ forall v', write v' = (set_segments d segs v').1.
Proof.
  revert d v write. induction segs as [|s segs IH]; intros d v write; [done|].
  destruct (decide (segs = [])) as [->|Hs].
  - simpl. destruct (hide_tombstone _) eqn:E; [|done]. intros [= -> <-].
    apply hide_tombstone_Some in E as [-> ?]. done.
  - rewrite get_mut_segments_cons by done.
    destruct (children d !! s) as [[]|] eqn:E; try done.
    destruct (get_mut_segments _ _) as [[v1 w1]|] eqn:E1; [|done]. intros [= -> <-].
    destruct (IH _ _ _ E1) as (Hr & Hd & Hw).
    split; [|split; [done|]].
    + simpl. rewrite E. simpl. by rewrite get_segments_doc.
    + intros v'. rewrite set_segments_cons, E by done. simpl. by rewrite Hw.
Qed.

(** A write below a sub-document does not touch the entries next to its path. *)
Lemma raw_at_set_ne d common a b p q v sub :
  a <> b -> doc_at d common = Some sub ->
  raw_at (set_segments d (common ++ a :: p) v).1 (common ++ b :: q)
  = raw_at d (common ++ b :: q).
Proof.
  intros Hab. revert d. induction common as [|s common IH]; intros d Hd; simpl app.
  - destruct (decide (p = [])) as [->|Hp]; [|rewrite set_segments_cons by done]; simpl;
      by rewrite lookup_insert_ne.
  - simpl in Hd. destruct (children d !! s) as [[| | | |d'| |]|] eqn:E; try done.
    rewrite set_segments_cons, E by (by destruct common). simpl.
    rewrite lookup_insert_eq, E. simpl.
    rewrite !get_segments_doc by (by destruct common). by apply IH.
Qed.

Lemma get_mut_segments_set d segs v :
  segs <> [] -> v <> Deleted ->
  exists w, get_mut_segments (set_segments d segs v).1 segs = Some (v, w).
Proof.
  intros Hne Hv. revert d. induction segs as [|s segs IH]; intros d; [done|].
  destruct (decide (segs = [])) as [->|Hs].
  - simpl. rewrite lookup_insert_eq. eexists. by destruct v.
  - rewrite set_segments_cons, get_mut_segments_cons by done. simpl. rewrite lookup_insert_eq.
    destruct (IH Hs (match children d !! s with Some (VDoc sub) => sub | _ => Doc_new end))
      as [w Hw]. rewrite Hw. by eexists.
Qed.

Lemma Doc_get_mut_get d p v w :
  Doc_get_mut d p = Some (v, w) -> Doc_get d p = Some v.
Proof.
  rewrite Doc_get_mut_segments. intros (Hr & Hd & _)%get_mut_segments_lens.
  unfold Doc_get. rewrite get_raw_segments, Hr. by destruct v.
Qed.

(** ** Theorems *)

(** A value written at a path is read back there, a removed one reads as a
    tombstone, and a later write at the path replaces an earlier one; a path
    that names no key (only dots) is never written or read. *)
Theorem Doc_set_get d p v w :
  match segments_of p with
  | [] => Doc_set d p v = (d, None) /\ Doc_get d p = None
  | _ => Doc_get (Doc_set d p v).1 p = hide_tombstone (Some v)
         /\ is_tombstone (Doc_set d p v).1 p = is_deleted v
         /\ is_tombstone (Doc_remove d p).1 p = true
         /\ (Doc_set (Doc_set d p v).1 p w).1 = (Doc_set d p w).1
         /\ (Doc_set (Doc_set d p v).1 p w).2 = hide_tombstone (Some v)
  end.
Proof.
  unfold Doc_get, is_tombstone, Doc_remove. rewrite !get_raw_segments, !Doc_set_segments.
  destruct (segments_of p) as [|s segs] eqn:E; [done|].
  rewrite set_segments_twice, !raw_at_set by done. by destruct v.
Qed.

(** A write at one path does not change what is read at a path that leaves
    it at some document on the way: neither the key, nor anything below it. *)
Theorem Doc_set_frame d p q v common a b p' q' sub :
  segments_of p = common ++ a :: p' -> segments_of q = common ++ b :: q' -> a <> b ->
  doc_at d common = Some sub ->
  Doc_get (Doc_set d p v).1 q = Doc_get d q
  /\ is_tombstone (Doc_set d p v).1 q = is_tombstone d q.
Proof.
  intros Hp Hq Hab Hc. unfold Doc_get, is_tombstone.
  rewrite !get_raw_segments, !Doc_set_segments, Hp, Hq.
  by rewrite (raw_at_set_ne _ _ _ _ _ _ _ sub).
Qed.

Lemma Doc_set_frame_witness :
  let d := (Doc_set Doc_new "user.name" (Text "Alice")).1 in
  Doc_get (Doc_set d "user.age" (Int 30)).1 "user.name" = Doc_get d "user.name".
Proof.
  intros d. eapply (Doc_set_frame d "user.age" "user.name" (Int 30) ["user"] "age" "name" [] []).
  all: try reflexivity. done.
Defined.

(** [get_mut] is the lens of [get] and [set]: it refers to the value that
    [get] reads, writing through it is [set], and the old value that [set]
    reports is exactly the one it refers to. *)
Theorem Doc_get_mut_lens d p :
  (forall v, (Doc_set d p v).2 = fst <$> Doc_get_mut d p)
  /\ (forall v w, Doc_get_mut d p = Some (v, w) ->
        Doc_get d p = Some v /\ forall v', w v' = (Doc_set d p v').1).
Proof.
  split.
  - intros v. rewrite Doc_set_segments, Doc_get_mut_segments. apply set_segments_old.
  - intros v w Hm. split; [by eapply Doc_get_mut_get|]. intros v'.
    rewrite Doc_get_mut_segments in Hm. apply get_mut_segments_lens in Hm as (_ & _ & Hw).
    by rewrite Doc_set_segments.
Qed.

(** [get_or_insert] keeps an existing value that [get_mut] can reach and
    inserts the default for a missing one; its [expect] panics exactly when the
    key can be read but not borrowed mutably, when the path names no key, or
    when the default is a tombstone. *)
Theorem get_or_insert_spec d p default :
  match get_or_insert d p default with
  | Done (d', (v, w)) =>
      if contains_key d p then d' = d /\ Doc_get d p = Some v
      else d' = (Doc_set d p default).1 /\ v = default
  | Panic =>
      if contains_key d p then Doc_get_mut d p = None
      else segments_of p = [] \/ default = Deleted
  end.
Proof.
  unfold get_or_insert. destruct (contains_key d p) eqn:E.
  - destruct (Doc_get_mut d p) as [[v w]|] eqn:Em; [|done].
    split; [done|]. by eapply Doc_get_mut_get.
  - rewrite Doc_get_mut_segments, Doc_set_segments.
    destruct (decide (segments_of p = [])) as [Hs|Hs]; [rewrite Hs; by left|].
    destruct (is_deleted default) eqn:Ed.
    + destruct default; try done.
      destruct (get_mut_segments _ _) as [[v w]|] eqn:Em; [|by right].
      apply get_mut_segments_lens in Em as (Hr & Hd & _). rewrite raw_at_set in Hr by done.
      naive_solver.
    + destruct (get_mut_segments_set d (segments_of p) default) as [w Hw];
        [done|by intros ->|]. by rewrite Hw.
Qed.

(** The panic is reachable: [get] reads list elements by index, [get_mut] does
    not, so [get_or_insert] panics on a path into a list that exists. *)
Theorem get_or_insert_list_panics uuid :
  exists l n, List_push List_new (Int 1) uuid = Done (l, n)
  /\ let d := (Doc_set Doc_new "items" (VList l)).1 in
     Doc_get d "items.0" = Some (Int 1) /\ get_or_insert d "items.0" (Int 0) = Panic.
Proof. eexists _, _. split; [reflexivity|]. split; reflexivity. Qed.

(** Writing through a list index, in contrast, replaces the whole list by a
    document: the neighbouring element is lost. *)
Theorem set_through_list_drops u1 u2 :
  exists l, List_from_iter [(Int 1, u1); (Int 2, u2)] = Done l
  /\ let d := (Doc_set Doc_new "items" (VList l)).1 in
     Doc_get d "items.1" = Some (Int 2)
     /\ Doc_get (Doc_set d "items.0" (Int 5)).1 "items.1" = None.
Proof. eexists. split; [reflexivity|]. split; reflexivity. Qed.

(** Over a codec that decodes what it encodes, [get_json] returns what
    [set_json] stored. *)
Theorem set_json_get_json {T} (to_json : T -> option string) (from_json : string -> option T)
    (Hcodec : forall x s, to_json x = Some s -> from_json s = Some x) d p x :
  segments_of p <> [] ->
  match set_json to_json d p x with
  | Ok d' => get_json from_json d' p = Ok x
  | Err e => e = SerializationFailed /\ to_json x = None
  end.
Proof.
  intros Hs. unfold set_json, get_json. destruct (to_json x) as [s|] eqn:E; simpl; [|done].
  unfold Doc_get. rewrite get_raw_segments, Doc_set_segments, raw_at_set by done. simpl.
  by rewrite (Hcodec x s E).
Qed.

Lemma set_json_get_json_witness :
  exists d', set_json (fun s : string => Some s) Doc_new "user.name" "Alice" = Ok d'
    /\ get_json Some d' "user.name" = Ok "Alice".
Proof.
  eexists. split; [reflexivity|].
  apply (set_json_get_json (fun s : string => Some s) Some) with (d := Doc_new) (p := "user.name");
    [congruence|discriminate].
Defined.

(** The three readings of emptiness agree: a document is empty exactly when
    its length is zero, and exactly when it has no visible key. *)
Theorem Doc_is_empty_len d :
  (Doc_is_empty d = true <-> Doc_len d = 0%nat)
  /\ (Doc_is_empty d = true <-> Doc_keys d = ∅).
Proof.
  assert (Doc_is_empty d = true <-> Doc_iter d = ∅) as H.
  { unfold Doc_is_empty, Doc_iter. rewrite List.forallb_forall, map_empty_filter.
    split; [intros H k v Hk Hd|intros H [k v] Hk].
    - specialize (H (k, v)). rewrite <- list_elem_of_In, elem_of_map_to_list in H.
      simpl in *. by rewrite H in Hd.
    - apply list_elem_of_In, elem_of_map_to_list in Hk. specialize (H k v Hk). simpl in *.
      by destruct (is_deleted v). }
  unfold Doc_len, Doc_keys. by rewrite map_size_empty_iff, dom_empty_iff_L.
Qed.
