(* ===== verification/DocList.v ===== *)
(** * Ordered lists (crdt/doc/list.rs, [List])

    The ordered map of list items obeys the map laws on the positions that
    [Position::new] makes, every list operation keeps it sorted, and the
    index-based operations act on the visible elements as the operations of an
    array do, within the bounds that the theorems state.  The last theorems
    record where the code leaves those bounds. *)

From S2P Require Import Prelude.
From S2P Require Import Path.
From S2P Require Import Position.
From S2P Require Import Doc.

(** A position as [Position::new] makes it. *)
Definition good (p : Position) : Prop := Position_wf p /\ Position_reduced p.

Section items.
Context {A : Type}.
Implicit Types (l : list (Position * A)).

Definition item_lt (a b : Position * A) : Prop := Position_cmp a.1 b.1 = Lt.

(** The invariant of a [BTreeMap<Position, _>]. *)
Definition items_ok l : Prop :=
  StronglySorted item_lt l /\ Forall (fun a => good a.1) l.

Lemma Position_cmp_eq p q : good p -> good q -> Position_cmp p q = Eq <-> p = q.
Proof.
  intros [_ [? Gp]] [_ [? Gq]]. split; [|intros ->; apply Position_cmp_refl].
  unfold Position_cmp. destruct (_ ?= _) eqn:E; try done.
  intros Hu%Z.compare_eq_iff. apply Z.compare_eq_iff in E.
  destruct (reduced_unique (numerator p) (denominator p) (numerator q) (denominator q)); try done.
  destruct p, q; simpl in *; congruence.
Qed.

Lemma Position_cmp_gt p q : Position_cmp p q = Gt <-> Position_cmp q p = Lt.
Proof. rewrite Position_cmp_antisym. destruct (Position_cmp q p); naive_solver. Qed.

Lemma Position_lt_trans p q r :
  good p -> good q -> good r ->
  Position_cmp p q = Lt -> Position_cmp q r = Lt -> Position_cmp p r = Lt.
Proof. intros [??] [??] [??]. by apply Position_cmp_trans. Qed.

Lemma items_ok_cons a l :
  items_ok (a :: l) <-> good a.1 /\ items_ok l /\ Forall (item_lt a) l.
Proof.
  unfold items_ok. rewrite Forall_cons. split.
  - intros [Hs [Ha Hl]]. inversion Hs; subst. done.
  - intros (Ha & [Hs Hl] & Hf). split; [by constructor|done].
Qed.

Lemma items_ok_app l1 l2 :
  items_ok (l1 ++ l2) <->
  items_ok l1 /\ items_ok l2 /\ forall a b, a ∈ l1 -> b ∈ l2 -> item_lt a b.
Proof.
  unfold items_ok. rewrite Forall_app, StronglySorted_app. naive_solver.
Qed.

Lemma btree_get_below p l :
  Forall (fun a => Position_cmp p a.1 = Lt) l -> btree_get p l = None.
Proof. by destruct 1 as [|[q v] l Hq _]; simpl in *; rewrite ?Hq. Qed.

Lemma items_below p q (v : A) l :
  good p -> good q -> items_ok l -> Forall (item_lt (q, v)) l -> Position_cmp p q = Lt ->
  Forall (fun a => Position_cmp p a.1 = Lt) l.
Proof.
  intros Hp Hq [_ Hl] Hf Hlt. rewrite Forall_forall in *. intros a Ha.
  eapply Position_lt_trans; [done|exact Hq|by apply Hl|done|by apply (Hf a)].
Qed.

Lemma btree_get_elem p v l :
  good p -> items_ok l -> btree_get p l = Some v <-> (p, v) ∈ l.
Proof.
  intros Hp. induction l as [|[q w] l IH]; simpl; [set_solver|].
  rewrite items_ok_cons. intros (Hq & Hl & Hf). simpl in Hq.
  rewrite elem_of_cons. destruct (Position_cmp p q) eqn:E.
  - apply Position_cmp_eq in E as ->; [|done..]. split; [naive_solver|].
    intros [[= ->]|Hin]; [done|]. rewrite Forall_forall in Hf. specialize (Hf _ Hin).
    unfold item_lt in Hf. simpl in Hf. by rewrite Position_cmp_refl in Hf.
  - split; [done|]. intros [[= -> ->]|Hin]; [by rewrite Position_cmp_refl in E|].
    pose proof (items_below p q w l Hp Hq Hl Hf E) as Hb. rewrite Forall_forall in Hb.
    specialize (Hb _ Hin). simpl in Hb. by rewrite Position_cmp_refl in Hb.
  - rewrite IH by done. split; [by right|]. intros [[= -> ->]|]; [|done].
    by rewrite Position_cmp_refl in E.
Qed.

Lemma elem_of_btree_insert p v l a :
  good p -> items_ok l ->
  a ∈ btree_insert p v l <-> a = (p, v) \/ (a ∈ l /\ a.1 <> p).
Proof.
  intros Hp. induction l as [|[q w] l IH]; simpl; [set_solver|].
  rewrite items_ok_cons. intros (Hq & Hl & Hf). simpl in Hq.
  assert (forall b, b ∈ l -> Position_cmp p q <> Gt -> b.1 <> p) as Hne.
  { intros b Hb Hgt Heq. rewrite Forall_forall in Hf. apply Hgt. rewrite <- Heq.
    by apply Position_cmp_gt, (Hf b Hb). }
  destruct (Position_cmp p q) eqn:E.
  - apply Position_cmp_eq in E as ->; [|done..]. rewrite !elem_of_cons.
    split; [|naive_solver]. intros [->|Ha]; [by left|]. right. split; [by right|by apply Hne].
  - rewrite !elem_of_cons. assert (q <> p) by (intros ->; by rewrite Position_cmp_refl in E).
    split; [|naive_solver]. intros [->|[->|Ha]]; [by left|naive_solver|].
    right. split; [by right|by apply Hne].
  - rewrite !elem_of_cons, IH by done.
    assert (q <> p) by (intros ->; by rewrite Position_cmp_refl in E). naive_solver.
Qed.

Lemma items_ok_insert p v l : good p -> items_ok l -> items_ok (btree_insert p v l).
Proof.
  intros Hp. induction l as [|[q w] l IH]; simpl.
  { intros _. split; repeat constructor; apply Hp. }
  rewrite items_ok_cons. intros (Hq & Hl & Hf). simpl in Hq.
  destruct (Position_cmp p q) eqn:E.
  - by rewrite items_ok_cons.
  - rewrite items_ok_cons. split; [done|]. split; [by rewrite items_ok_cons|].
    constructor; [done|]. by eapply items_below.
  - rewrite items_ok_cons. split; [done|]. split; [by apply IH|].
    rewrite Forall_forall in *. intros a. rewrite elem_of_btree_insert by done.
    intros [->|[Ha _]]; [by apply Position_cmp_gt|by apply Hf].
Qed.

Lemma btree_get_insert p q v l :
  good p -> good q -> items_ok l ->
  btree_get q (btree_insert p v l) = if decide (q = p) then Some v else btree_get q l.
Proof.
  intros Hp Hq Hl. apply option_eq. intros w.
  rewrite btree_get_elem by (done || by apply items_ok_insert).
  rewrite elem_of_btree_insert by done. case_decide; [naive_solver|].
  rewrite btree_get_elem by done. naive_solver.
Qed.

Lemma items_ok_NoDup l : items_ok l -> NoDup l.*1.
Proof.
  induction l as [|a l IH]; [constructor|]. rewrite items_ok_cons. intros (_ & Hl & Hf).
  constructor; [|by apply IH]. intros (b & Hab & Hb)%list_elem_of_fmap.
  rewrite Forall_forall in Hf. specialize (Hf _ Hb). unfold item_lt in Hf.
  by rewrite Hab, Position_cmp_refl in Hf.
Qed.

(** A sorted list of items is determined by its elements, so by its lookups. *)
Lemma items_elem_ext l1 l2 :
  items_ok l1 -> items_ok l2 -> (forall a, a ∈ l1 <-> a ∈ l2) -> l1 = l2.
Proof.
  intros H1 H2 Heq. apply (StronglySorted_unique_strong item_lt); [|by apply H1|by apply H2|].
  - intros a b _ _ Hab Hba%Position_cmp_gt. unfold item_lt in *. congruence.
  - apply NoDup_Permutation; [by eapply NoDup_fmap_1, items_ok_NoDup..|done].
Qed.

Lemma items_ext l1 l2 :
  items_ok l1 -> items_ok l2 ->
  (forall p, good p -> btree_get p l1 = btree_get p l2) -> l1 = l2.
Proof.
  intros H1 H2 Heq. apply items_elem_ext; [done..|]. intros [p v].
  assert (forall l, items_ok l -> (p, v) ∈ l -> good p) as Hgood.
  { intros l [_ Hg] Hin. rewrite Forall_forall in Hg. by apply (Hg (p, v)). }
  split; intros Hin.
  - assert (good p) by (by eapply (Hgood l1)).
    apply btree_get_elem; [done..|]. rewrite <- Heq by done. by apply btree_get_elem.
  - assert (good p) by (by eapply (Hgood l2)).
    apply btree_get_elem; [done..|]. rewrite Heq by done. by apply btree_get_elem.
Qed.

(** Inserting pairs with distinct positions one by one collects them all. *)
Lemma items_ok_collect seq acc :
  items_ok acc -> Forall (fun e => good e.1) seq -> NoDup (acc ++ seq).*1 ->
  let r := foldl (fun its '(p, v) => btree_insert p v its) acc seq in
  items_ok r /\ forall e, e ∈ r <-> e ∈ acc ++ seq.
Proof.
  revert acc. induction seq as [|[p v] seq IH]; intros acc Hacc Hg Hnd; simpl.
  { by rewrite app_nil_r. }
  inversion_clear Hg as [|?? Gp Hg']. simpl in Gp.
  rewrite fmap_app, fmap_cons in Hnd. apply NoDup_app in Hnd as (Hn1 & Hn2 & Hn3).
  simpl in *. inversion_clear Hn3 as [|?? Hp Hn4].
  assert (forall e, e ∈ btree_insert p v acc <-> e ∈ acc ++ [(p, v)]) as Hel.
  { intros [q w]. rewrite elem_of_btree_insert by done.
    rewrite elem_of_app, list_elem_of_singleton. split; [naive_solver|].
    intros [He|[= -> ->]]; [right|by left]. split; [done|]. simpl. intros ->.
    apply (Hn2 p); [|by left]. by apply (list_elem_of_fmap_2 fst acc (p, w)). }
  destruct (IH (btree_insert p v acc)) as [Hok He]; [by apply items_ok_insert|done| |].
  { rewrite fmap_app. apply NoDup_app. split; [by apply items_ok_NoDup, items_ok_insert|].
    split; [|done]. intros q Hq Hq'. apply list_elem_of_fmap in Hq as (e & -> & He').
    apply Hel, elem_of_app in He' as [He'| ->%list_elem_of_singleton]; [|done].
    apply (Hn2 e.1); [by apply list_elem_of_fmap_2|by right]. }
  split; [done|]. intros e. rewrite He, !elem_of_app, Hel, elem_of_app. set_solver.
Qed.
End items.

(** ** Where an insertion lands *)

Lemma btree_insert_split {A} p (v : A) l1 l2 :
  (forall a, a ∈ l1 -> Position_cmp a.1 p = Lt) ->
  (forall b, b ∈ l2 -> Position_cmp p b.1 = Lt) ->
  btree_insert p v (l1 ++ l2) = l1 ++ (p, v) :: l2.
Proof.
  intros H1 H2. induction l1 as [|[q w] l1 IH]; simpl.
  - destruct l2 as [|[q w] l2]; simpl; [done|].
    assert (Position_cmp p q = Lt) as -> by (apply (H2 (q, w)); by apply elem_of_cons; left).
    done.
  - assert (Position_cmp p q = Gt) as ->.
    { apply Position_cmp_gt. apply (H1 (q, w)). by apply elem_of_cons; left. }
    f_equal. apply IH. intros a Ha. apply H1. by apply elem_of_cons; right.
Qed.

Lemma btree_insert_replace {A} p (v w : A) l1 l2 :
  items_ok (l1 ++ (p, w) :: l2) -> btree_insert p v (l1 ++ (p, w) :: l2) = l1 ++ (p, v) :: l2.
Proof.
  induction l1 as [|[q u] l1 IH]; simpl; [by rewrite Position_cmp_refl|].
  rewrite items_ok_cons. intros (_ & Hl & Hf). rewrite Forall_forall in Hf.
  assert (Position_cmp p q = Gt) as ->; [|by rewrite IH].
  apply Position_cmp_gt. apply (Hf (p, w)). set_solver.
Qed.

Lemma items_ok_last {A} (l : list (Position * A)) q w p :
  items_ok l -> good p -> last l = Some (q, w) -> Position_cmp q p = Lt ->
  forall a, a ∈ l -> Position_cmp a.1 p = Lt.
Proof.
  intros Hl Hp Hlast Hlt. apply last_Some in Hlast as [l' ->].
  rewrite items_ok_app in Hl. destruct Hl as (Hl' & Hq & Hord).
  rewrite items_ok_cons in Hq. destruct Hq as (Gq & _ & _).
  intros a Ha. apply elem_of_app in Ha as [Ha| ->%list_elem_of_singleton]; [|done].
  destruct Hl' as [_ G']. rewrite Forall_forall in G'.
  eapply Position_lt_trans; [by apply G'|exact Gq|done| |done].
  by apply (Hord a (q, w)); [|apply list_elem_of_singleton].
Qed.

Lemma items_ok_head {A} (l : list (Position * A)) q w p :
  items_ok l -> good p -> head l = Some (q, w) -> Position_cmp p q = Lt ->
  forall a, a ∈ l -> Position_cmp p a.1 = Lt.
Proof.
  intros Hl Hp Hh Hlt. destruct l as [|[q' w'] l]; simplify_eq/=.
  rewrite items_ok_cons in Hl. destruct Hl as (Gq & Hl & Hf). intros a Ha.
  apply elem_of_cons in Ha as [->|Ha]; [done|].
  pose proof (items_below p q w l Hp Gq Hl Hf Hlt) as Hb. rewrite Forall_forall in Hb. by apply Hb.
Qed.

(** ** Visible elements *)

Lemma visible_app l1 l2 : visible (l1 ++ l2) = visible l1 ++ visible l2.
Proof. apply filter_app. Qed.

Lemma visible_cons p v l :
  visible ((p, v) :: l) = if is_deleted v then visible l else (p, v) :: visible l.
Proof. unfold visible. rewrite filter_cons. simpl. by destruct (is_deleted v). Qed.

Lemma target_position_split c i l p :
  target_position c (c + i) l = Some p <->
  exists l1 l2 v, l = l1 ++ (p, v) :: l2 /\ is_deleted v = false /\ length (visible l1) = i.
Proof.
  revert c i. induction l as [|[q w] l IH]; intros c i; simpl.
  { split; [done|]. intros ([|??] & ? & ? & ? & _); done. }
  destruct (is_deleted w) eqn:Ew.
  - rewrite IH. split.
    + intros (l1 & l2 & v & -> & Hv & Hi). exists ((q, w) :: l1), l2, v.
      by rewrite visible_cons, Ew.
    + intros ([|[q' w'] l1] & l2 & v & Heq & Hv & Hi); injection Heq as -> -> ->; [by rewrite ?Ew in Hv|].
      rewrite visible_cons, Ew in Hi. by exists l1, l2, v.
  - destruct i as [|i].
    + rewrite Nat.add_0_r, Nat.eqb_refl. split.
      * intros [= ->]. by exists [], l, w.
      * intros ([|[q' w'] l1] & l2 & v & Heq & Hv & Hi); injection Heq as -> -> ->; [done|].
        rewrite visible_cons, Ew in Hi. done.
    + rewrite (proj2 (Nat.eqb_neq _ _)) by lia.
      replace (c + S i)%nat with (S c + i)%nat by lia. rewrite IH. split.
      * intros (l1 & l2 & v & -> & Hv & Hi). exists ((q, w) :: l1), l2, v.
        rewrite visible_cons, Ew. simpl. by rewrite Hi.
      * intros ([|[q' w'] l1] & l2 & v & Heq & Hv & Hi); injection Heq as -> -> ->; [by rewrite ?Ew in Hv|].
        rewrite visible_cons, Ew in Hi. simpl in Hi. injection Hi as Hi. by exists l1, l2, v.
Qed.

Lemma target_position_None i l :
  target_position 0 i l = None -> (length (visible l) <= i)%nat.
Proof.
  assert (forall c i l, target_position c (c + i) l = None -> (length (visible l) <= i)%nat) as H.
  { intros c i' l'. revert c i'. induction l' as [|[q w] l' IH]; intros c i'; simpl; [lia|].
    rewrite visible_cons. destruct (is_deleted w); [apply IH|].
    destruct i' as [|i']; [by rewrite Nat.add_0_r, Nat.eqb_refl|].
    rewrite (proj2 (Nat.eqb_neq _ _)) by lia.
    replace (c + S i')%nat with (S c + i')%nat by lia. intros ?%IH. simpl. lia. }
  apply (H 0%nat).
Qed.

(** The entry that [set], [remove] and [get_mut] work on. *)
Lemma target_split i l p :
  target_position 0 i l = Some p ->
  exists l1 l2 v, l = l1 ++ (p, v) :: l2 /\ is_deleted v = false /\ length (visible l1) = i
    /\ visible l = visible l1 ++ (p, v) :: visible l2.
Proof.
  intros (l1 & l2 & v & -> & Hv & Hi)%(target_position_split 0).
  exists l1, l2, v. by rewrite visible_app, visible_cons, Hv.
Qed.

Lemma btree_get_mid {A} p (v : A) l1 l2 :
  items_ok (l1 ++ (p, v) :: l2) -> btree_get p (l1 ++ (p, v) :: l2) = Some v.
Proof.
  intros H. assert (good p) by (destruct H as [_ Hg]; rewrite Forall_forall in Hg;
    apply (Hg (p, v)); set_solver).
  apply btree_get_elem; [done..|]. set_solver.
Qed.

(** The invariant of a [List]. *)
Definition List_ok (l : List) : Prop := items_ok (items l).

Lemma Position_new_int n uuid :
  is_i64 n = true -> Position_new n 1 uuid = Done (mkPosition n 1 uuid).
Proof.
  intros Hn. destruct (Position_new_ok n 1 uuid) as (p & Hp & _ & [Hd Hg] & Hu & Hv);
    [done|done|lia|lia|]. rewrite Hp.
  assert (denominator p = 1).
  { assert (numerator p = n * denominator p) as E by lia. rewrite E, Z.gcd_comm, Z.mul_comm, Z.gcd_mul_diag_l in Hg by lia.
    lia. }
  assert (numerator p = n) by nia. destruct p; simpl in *; congruence.
Qed.

Lemma good_int n uuid : is_i64 n = true -> good (mkPosition n 1 uuid).
Proof. intros Hn. split; split; simpl; try done. apply Z.gcd_1_r. Qed.

(** The last position leaves room for [push] after it. *)
Definition push_room (l : List) : Prop :=
  match last (items l) with
  | Some (p, _) => numerator p < i64_max /\ (0 <= numerator p + 1 \/ denominator p = 1)
  | None => True
  end.

Lemma List_push_ok l v uuid :
  List_ok l -> push_room l -> is_deleted v = false ->
  exists p, List_push l v uuid = Done (mkList (items l ++ [(p, v)]), List_len l)
    /\ good p /\ denominator p = 1 /\ List_ok (mkList (items l ++ [(p, v)]))
    /\ numerator p = match last (items l) with Some (q, _) => numerator q + 1 | None => 0 end.
Proof.
  intros Hl Hroom Hv. unfold List_push, push_room, List_ok in *.
  assert (exists p, match last (items l) with
    | Some (last_pos, _) => Position_new (i64_saturating (numerator last_pos + 1)) 1 uuid
    | None => Position_beginning uuid end = Done p /\ good p /\ denominator p = 1
    /\ (forall a, a ∈ items l -> Position_cmp a.1 p = Lt)
    /\ numerator p = match last (items l) with Some (q, _) => numerator q + 1 | None => 0 end)
    as (p & -> & Gp & Dp & Hp & Np).
  { destruct (last (items l)) as [[q w]|] eqn:Elast.
    - destruct Hroom as [Hmax Hneg].
      assert (good q) as [(Hi & _ & Hd) _].
      { destruct Hl as [_ Hg]. rewrite Forall_forall in Hg. apply last_Some in Elast as [l' Hl'].
        apply (Hg (q, w)). rewrite Hl'. set_solver. }
      assert (is_i64 (numerator q + 1) = true) as Hi' by (ranges; lia).
      unfold i64_saturating. rewrite Z.min_r, Z.max_r by (ranges; lia).
      rewrite Position_new_int by done. eexists; split; [done|].
      split; [by apply good_int|]. split; [done|]. split; [|done].
      eapply items_ok_last; [done|by apply good_int|done|].
      apply Position_value_lt_cmp. unfold Position_value_lt. simpl. nia.
    - apply last_None in Elast. rewrite Elast. unfold Position_beginning.
      rewrite Position_new_int by done. eexists; split; [done|].
      split; [by apply good_int|]. split; [done|]. split; [set_solver|done]. }
  assert (btree_insert p v (items l) = items l ++ [(p, v)]) as Hins.
  { rewrite <- (app_nil_r (items l)) at 1. apply btree_insert_split; [done|set_solver]. }
  simpl. exists p. rewrite Hins. unfold List_len. simpl.
  rewrite visible_app, visible_cons, Hv, length_app. simpl. rewrite Nat.add_1_r.
  split; [done|]. split; [done|]. split; [done|]. split; [|done].
  rewrite <- Hins. by apply items_ok_insert.
Qed.

(** [List::push] appends: the element becomes the last visible one, its
    index is returned, and the invariant is kept, provided the last position's
    numerator is below [i64::MAX] and, where it is below [-1], integral. *)
Theorem List_push_appends l v uuid :
  List_ok l -> push_room l -> is_deleted v = false ->
  exists l', List_push l v uuid = Done (l', List_len l)
    /\ List_iter l' = List_iter l ++ [v] /\ List_ok l'.
Proof.
  intros Hl Hr Hv. destruct (List_push_ok l v uuid) as (p & -> & _ & _ & Hok & _); [done..|].
  eexists; split; [done|]. split; [|done].
  unfold List_iter. simpl. by rewrite visible_app, visible_cons, Hv, fmap_app.
Qed.

Lemma List_push_appends_witness :
  exists l', List_push (mkList [(mkPosition 1 2 7, Null)]) (Int 1) 3 = Done (l', 1%nat)
    /\ List_iter l' = [Null; Int 1].
Proof.
  destruct (List_push_appends (mkList [(mkPosition 1 2 7, Null)]) (Int 1) 3) as (l' & H & Hi & _).
  - split; repeat constructor; simpl; lia.
  - unfold push_room, i64_max. simpl. lia.
  - done.
  - by exists l'.
Defined.

(** A list collected from an iterator holds the values in order, for any
    number of values below [2^63]. *)
Theorem List_from_iter_values values :
  Forall (fun vu => is_deleted vu.1 = false) values -> Z.of_nat (length values) <= i64_max ->
  exists l, List_from_iter values = Done l /\ List_iter l = values.*1 /\ List_ok l.
Proof.
  intros Hv Hlen. unfold List_from_iter.
  assert (forall values l,
    Forall (fun vu => is_deleted vu.1 = false) values -> List_ok l ->
    match last (items l) with
    | Some (p, _) => denominator p = 1 /\ numerator p + Z.of_nat (length values) <= i64_max
    | None => Z.of_nat (length values) <= i64_max
    end ->
    exists l', List_from_iter_go l values = Done l' /\ List_iter l' = List_iter l ++ values.*1
      /\ List_ok l') as Hgo.
  { clear. induction values as [|[v u] values IH]; intros l Hv Hl Hroom.
    { exists l. by rewrite app_nil_r. }
    inversion_clear Hv as [|?? Hd Hv']. simpl in *.
    destruct (List_push_ok l v u) as (p & -> & Gp & Dp & Hok & Np); [done| |done|].
    { unfold push_room. destruct (last (items l)) as [[q w]|]; [|done]. lia. }
    simpl. destruct (IH (mkList (items l ++ [(p, v)]))) as (l' & -> & Hi & Hok'); [done|done| |].
    { simpl. rewrite last_snoc. split; [done|].
      rewrite Np. destruct (last (items l)) as [[q w]|]; unfold i64_max in *; lia. }
    exists l'. split; [done|]. split; [|done]. rewrite Hi. unfold List_iter. simpl.
    by rewrite visible_app, visible_cons, Hd, fmap_app, <- app_assoc. }
  destruct (Hgo values List_new) as (l & Hl & Hi & Hok); [done|by repeat constructor|done|].
  exists l. done.
Qed.

Lemma List_from_iter_values_witness :
  exists l, List_from_iter [(Int 1, 5); (Null, 2)] = Done l /\ List_iter l = [Int 1; Null].
Proof.
  destruct (List_from_iter_values [(Int 1, 5); (Null, 2)]) as (l & H & Hi & _).
  - repeat constructor.
  - unfold i64_max. simpl. lia.
  - by exists l.
Defined.

(** The positions around [index] leave room for one between them. *)
Definition insert_room (l : List) (index : nat) : Prop :=
  match (if (index =? 0)%nat then None else (items l).*1 !! (index - 1)%nat),
        (items l).*1 !! index with
  | None, None => True
  | None, Some q =>
      is_i64 (numerator q - 1) = true /\ ~ (numerator q - 1 = i64_min /\ denominator q = 2 ^ 63)
  | Some p, None => is_i64 (numerator p + 1) = true
  | Some p, Some q => between_fits p q /\ Position_value_lt p q
  end.

Definition no_tombstones (l : List) : Prop := Forall (fun e => is_deleted e.2 = false) (items l).

Lemma visible_all its : Forall (fun e : Position * Value => is_deleted e.2 = false) its ->
  visible its = its.
Proof.
  induction 1 as [|[p v] its Hv _ IH]; [done|]. rewrite visible_cons. simpl in Hv.
  by rewrite Hv, IH.
Qed.

Lemma Position_new_shift q n uuid :
  good q -> is_i64 n = true -> ~ (n = i64_min /\ denominator q = 2 ^ 63) ->
  exists p, Position_new n (denominator q) uuid = Done p /\ good p
    /\ (n < numerator q -> Position_cmp p q = Lt) /\ (numerator q < n -> Position_cmp q p = Lt).
Proof.
  intros [(_ & Hu & Hd) _] Hn Hx.
  destruct (Position_new_ok n (denominator q) uuid) as (p & Hp & Hwf & Hred & _ & Hv); [done..|].
  assert (0 < denominator p) by apply Hwf.
  exists p. split; [done|]. split; [done|].
  split; intros Hlt; apply Position_value_lt_cmp; unfold Position_value_lt; nia.
Qed.

(** The position [List::insert] chooses separates the entries before [index]
    from those after. *)
Lemma List_insert_position l index v uuid :
  List_ok l -> no_tombstones l -> (index <= List_len l)%nat -> insert_room l index ->
  exists p, List_insert l index v uuid = Done (Ok (mkList (btree_insert p v (items l)))) /\ good p
    /\ (forall a, a ∈ take index (items l) -> Position_cmp a.1 p = Lt)
    /\ (forall b, b ∈ drop index (items l) -> Position_cmp p b.1 = Lt).
Proof.
  intros Hl Ht Hi. unfold List_insert, insert_room.
  rewrite (proj2 (Nat.ltb_ge _ _)) by done. unfold List_len in *. rewrite visible_all in * by done.
  assert (forall k e, items l !! k = Some e -> good e.1) as Hgood.
  { intros k e He. destruct Hl as [_ Hg]. rewrite Forall_forall in Hg.
    apply Hg. by eapply list_elem_of_lookup_2. }
  assert (items_ok (take index (items l)) /\ items_ok (drop index (items l))) as [Hlt Hld].
  { unfold List_ok in Hl. rewrite <- (take_drop index (items l)) in Hl.
    apply items_ok_app in Hl. naive_solver. }
  rewrite !list_lookup_fmap.
  destruct (Nat.eqb_spec index 0) as [->|Hne]; simpl.
  - rewrite head_lookup. destruct (items l !! 0%nat) as [[q w]|] eqn:Hq; simpl.
    + intros [Hn Hx]. unfold checked. rewrite Hn. simpl.
      destruct (Position_new_shift q (numerator q - 1) uuid) as (p & -> & Hg & Hlt' & _);
        [by eapply (Hgood 0%nat (q, w))|done|done|].
      exists p. split; [done|]. split; [done|]. split; [set_solver|].
      rewrite drop_0 in *. eapply items_ok_head; [done|done|by rewrite head_lookup, Hq|].
      apply Hlt'. lia.
    + intros _. apply lookup_ge_None in Hq. destruct (items l); [|simpl in Hq; lia].
      exists (mkPosition 0 1 uuid). split; [done|]. split; [by apply good_int|]. set_solver.
  - destruct (items l !! (index - 1)%nat) as [[q w]|] eqn:Hq; simpl.
    2: { apply lookup_ge_None in Hq. lia. }
    assert (last (take index (items l)) = Some (q, w)) as Hlast.
    { rewrite last_lookup, length_take_le by done.
      rewrite lookup_take_lt by lia. by replace (Init.Nat.pred index) with (index - 1)%nat by lia. }
    destruct (Nat.eqb_spec index (length (items l))) as [Heq|Hneq].
    + rewrite Heq, lookup_ge_None_2 by lia. simpl.
      rewrite Heq, firstn_all in Hlast. rewrite Hlast. intros Hn.
      unfold checked. rewrite Hn. simpl.
      destruct (Position_new_shift q (numerator q + 1) uuid) as (p & -> & Hg & _ & Hgt);
        [by eapply (Hgood _ (q, w))|done| |].
      { assert (good q) as [(Hr & _) _] by (by eapply (Hgood _ (q, w))).
        ranges. unfold i64_min. lia. }
      exists p. split; [done|]. split; [done|]. rewrite firstn_all, drop_all.
      split; [|set_solver]. eapply items_ok_last; [done|done|done|]. apply Hgt. lia.
    + destruct (items l !! index) as [[r w']|] eqn:Hr; simpl.
      2: { apply lookup_ge_None in Hr. lia. }
      intros [Hf Hv]. destruct (Position_between_lt q r uuid) as (p & -> & Hwf & Hred & H1 & H2);
        [by eapply (Hgood _ (q, w))|by eapply (Hgood _ (r, w'))|done|done|].
      exists p. split; [done|]. split; [done|]. split.
      * by eapply items_ok_last.
      * eapply items_ok_head; [done|done| |done]. by rewrite head_lookup, lookup_drop, Nat.add_0_r.
Qed.

(** [List::insert] at [index] of a list without tombstones puts the element
    there and shifts the rest, for every index up to the length, where the
    neighbouring positions leave room; beyond the length it is an error. *)
Theorem List_insert_spec l index v uuid :
  List_ok l -> no_tombstones l -> is_deleted v = false ->
  ((index <= List_len l)%nat -> insert_room l index ->
   exists l', List_insert l index v uuid = Done (Ok l') /\ List_ok l' /\ no_tombstones l'
     /\ List_iter l' = take index (List_iter l) ++ v :: drop index (List_iter l))
  /\ ((List_len l < index)%nat ->
      List_insert l index v uuid = Done (Err (ListIndexOutOfBounds index (List_len l)))).
Proof.
  intros Hl Ht Hv. split.
  - intros Hi Hr.
    destruct (List_insert_position l index v uuid) as (p & -> & Hg & H1 & H2); [done..|].
    eexists; split; [done|]. split; [by apply items_ok_insert|].
    assert (btree_insert p v (items l) = take index (items l) ++ (p, v) :: drop index (items l))
      as Hins.
    { rewrite <- (take_drop index (items l)) at 1. by apply btree_insert_split. }
    assert (no_tombstones (mkList (btree_insert p v (items l)))) as Hn.
    { unfold no_tombstones. simpl. rewrite Hins.
      unfold no_tombstones in Ht. rewrite <- (take_drop index (items l)), Forall_app in Ht.
      rewrite Forall_app, Forall_cons. naive_solver. }
    split; [done|]. unfold List_iter. rewrite (visible_all (items l)), visible_all by done. simpl.
    by rewrite Hins, fmap_app, fmap_cons, fmap_take, fmap_drop.
  - intros Hi. unfold List_insert. by rewrite (proj2 (Nat.ltb_lt _ _)).
Qed.

Lemma List_insert_spec_witness :
  exists l', List_insert (mkList [(mkPosition 0 1 7, Null); (mkPosition 1 1 2, Null)]) 1 (Int 1) 3
    = Done (Ok l') /\ List_iter l' = [Null; Int 1; Null].
Proof.
  destruct (List_insert_spec (mkList [(mkPosition 0 1 7, Null); (mkPosition 1 1 2, Null)]) 1
    (Int 1) 3) as [H _].
  - split; repeat constructor; simpl; lia.
  - repeat constructor.
  - done.
  - destruct H as (l' & H & _ & _ & Hi).
    + unfold List_len. simpl. lia.
    + unfold insert_room, between_fits, Position_value_lt. simpl. unfold i64_max. repeat split; lia.
    + by exists l'.
Defined.

(** Writing a value at the position found for a visible index. *)
Lemma target_write l index p v :
  List_ok l -> target_position 0 index (items l) = Some p ->
  let l' := mkList (btree_insert p v (items l)) in
  btree_get p (items l) = List_get l index
  /\ List_ok l' /\ List_total_len l' = List_total_len l /\ (index < List_len l)%nat
  /\ List_iter l' = (if is_deleted v then delete index (List_iter l)
                     else <[index := v]> (List_iter l)).
Proof.
  intros Hl (l1 & l2 & w & Heq & Hw & Hi & Hvis)%target_split. simpl.
  unfold List_ok, List_get, List_iter, List_len, List_total_len in *. rewrite Heq in *. simpl.
  rewrite btree_get_mid, btree_insert_replace, Hvis by done.
  assert (length (visible l1).*2 = index) as Hi' by (by rewrite length_fmap).
  rewrite visible_app, visible_cons, !fmap_app, !fmap_cons. simpl.
  split; [by rewrite <- Hi', list_lookup_middle|].
  split.
  { rewrite <- (btree_insert_replace p v w l1 l2) by done.
    apply items_ok_insert; [|done]. destruct Hl as [_ Hg]. rewrite Forall_forall in Hg.
    apply (Hg (p, w)). set_solver. }
  rewrite !length_app. simpl. rewrite <- Hi'.
  split; [done|]. split; [rewrite length_fmap; lia|].
  destruct (is_deleted v); [by rewrite delete_middle|].
  by rewrite fmap_cons, insert_app_r_alt, Nat.sub_diag by lia.
Qed.

Lemma target_none l index :
  target_position 0 index (items l) = None -> List_get l index = None /\ (List_len l <= index)%nat.
Proof.
  intros H%target_position_None. split; [|done].
  unfold List_get, List_iter. apply lookup_ge_None_2. by rewrite length_fmap.
Qed.

(** [List::set], [List::remove] and [List::get_mut] act on the visible
    element at [index]: [set] replaces it, [remove] takes it out of the visible
    sequence but keeps a tombstone (the total length is unchanged), [get_mut]
    gives it with a write-back that is [set]; each returns the element [get]
    reads, and out of range none of them changes anything. *)
Theorem List_index_ops l index v :
  List_ok l -> is_deleted v = false ->
  List_set l index v = (match List_get_mut l index with Some (_, wb) => wb v | None => l end,
                        List_get l index)
  /\ fst <$> List_get_mut l index = List_get l index
  /\ List_iter (List_set l index v).1 = <[index := v]> (List_iter l)
  /\ (List_remove l index).2 = List_get l index
  /\ List_iter (List_remove l index).1 = delete index (List_iter l)
  /\ List_ok (List_set l index v).1 /\ List_ok (List_remove l index).1
  /\ List_total_len (List_set l index v).1 = List_total_len l
  /\ List_total_len (List_remove l index).1 = List_total_len l
  /\ (is_Some (List_get l index) <-> (index < List_len l)%nat).
Proof.
  intros Hl Hv. unfold List_set, List_remove, List_get_mut.
  destruct (target_position 0 index (items l)) as [p|] eqn:Ht.
  - destruct (target_write l index p v) as (Hget & Hok & Htot & Hlt & Hit); [done..|].
    destruct (target_write l index p Deleted) as (_ & Hok' & Htot' & _ & Hit'); [done..|].
    rewrite Hv in Hit. simpl in Hit'. rewrite Hget. simpl. rewrite Hit, Hit'.
    assert (is_Some (List_get l index)) as [w Hw].
    { unfold List_get, List_iter. apply lookup_lt_is_Some_2. by rewrite length_fmap. }
    rewrite Hw. simpl. do 8 (split; [done|]). split; [done|]. split; intros _; [done|by exists w].
  - destruct (target_none l index Ht) as [Hnone Hge]. rewrite Hnone. simpl.
    assert (length (List_iter l) <= index)%nat by (unfold List_iter; by rewrite length_fmap).
    rewrite list_insert_ge, list_delete_ge by done.
    do 8 (split; [done|]). split; [done|]. split; [by intros [? ?]|lia].
Qed.

Lemma List_index_ops_witness :
  List_iter (List_remove (mkList [(mkPosition 0 1 7, Deleted); (mkPosition 1 1 2, Null);
    (mkPosition 3 2 1, Int 4)]) 1).1 = [Null].
Proof.
  destruct (List_index_ops (mkList [(mkPosition 0 1 7, Deleted); (mkPosition 1 1 2, Null);
    (mkPosition 3 2 1, Int 4)]) 1 Null) as (_ & _ & _ & _ & H & _).
  - split; repeat constructor; simpl; lia.
  - done.
  - exact H.
Defined.

(** A list survives serialisation: deserialising the sequence of
    (position, value) pairs gives back every entry, tombstones included, and in
    whatever order the pairs arrive. *)
Theorem List_serialize_roundtrip l seq :
  List_ok l -> Permutation seq (List_serialize l) -> List_deserialize seq = l.
Proof.
  intros Hl Hp. unfold List_serialize, List_deserialize, List_ok in *.
  destruct l as [its]; simpl in *. f_equal.
  destruct (items_ok_collect seq []) as [Hok He].
  - split; constructor.
  - rewrite Hp. apply Hl.
  - simpl. rewrite Hp. by apply items_ok_NoDup.
  - apply items_elem_ext; [done|done|]. intros e. rewrite He. simpl. by rewrite Hp.
Qed.

Lemma List_serialize_roundtrip_witness :
  List_deserialize [(mkPosition 1 1 2, Null); (mkPosition 0 1 7, Deleted)]
  = mkList [(mkPosition 0 1 7, Deleted); (mkPosition 1 1 2, Null)].
Proof.
  apply List_serialize_roundtrip.
  - split; repeat constructor; simpl; lia.
  - apply perm_swap.
Defined.

(** ** Behaviour outside the room conditions *)

(** After a removal [insert] counts tombstones when it looks up the neighbours
    of [index] but not when it checks the bound, so the element lands before
    the visible element it should follow. *)
Theorem List_insert_tombstone_misplaced :
  let l := mkList [(mkPosition 0 1 1, Int 10); (mkPosition 1 1 2, Int 11);
                   (mkPosition 2 1 3, Int 12); (mkPosition 3 1 4, Int 13)] in
  let l1 := (List_remove l 0).1 in
  List_iter l1 = [Int 11; Int 12; Int 13]
  /\ exists l2, List_insert l1 1 (Int 99) 5 = Done (Ok l2)
     /\ List_iter l2 = [Int 99; Int 11; Int 12; Int 13].
Proof. split; [done|]. eexists. split; vm_compute; reflexivity. Qed.

(** A list whose last position is [-3/2] (left last by [remove_by_position], or
    put there by [insert_at_position]) puts a pushed element first:
    [numerator + 1 = -2] lies before [-3/2]. *)
Theorem List_push_negative_misplaced :
  let l := mkList [(mkPosition (-3) 2 1, Int 10)] in
  exists l', List_push l (Int 11) 5 = Done (l', 1%nat) /\ List_iter l' = [Int 11; Int 10].
Proof. eexists. split; vm_compute; reflexivity. Qed.

(** Pushing a tombstone on a list with nothing visible underflows [len() - 1];
    [is_empty] counts tombstones where [len] does not. *)
Theorem List_push_deleted_panics uuid :
  List_push List_new Deleted uuid = Panic
  /\ forall p, List_is_empty (mkList [(p, Deleted)]) = false /\ List_len (mkList [(p, Deleted)]) = 0%nat.
Proof. done. Qed.
