(* ===== verification/DocMerge.v ===== *)
(** * Merging documents

    Theorems on [Value::merge], [Doc::merge] and [List::merge]
    (crdt/doc/value.rs, mod.rs, list.rs): the value of every key and list
    position after a merge, the laws a caller may rely on (identity,
    idempotence, associativity while no container is replaced by a value of
    another kind), and the case in which associativity, which the [CRDT] trait
    asks for, does not hold. *)

From S2P Require Import Prelude.
From S2P Require Import Path.
From S2P Require Import Position.
From S2P Require Import Doc.
From S2P Require Import DocPath.
From S2P Require Import DocList.

(** ** Well-formed values

    Integers fit [i64], and the items of every list, however deeply nested, are
    sorted by reduced positions. *)
Inductive Value_wf : Value -> Prop :=
  | Null_wf : Value_wf Null
  | Bool_wf b : Value_wf (Bool b)
  | Int_wf z : is_i64 z = true -> Value_wf (Int z)
  | Text_wf s : Value_wf (Text s)
  | VDoc_wf d : Doc_wf d -> Value_wf (VDoc d)
  | VList_wf l : List_wf l -> Value_wf (VList l)
  | Deleted_wf : Value_wf Deleted
with Doc_wf : Doc -> Prop :=
  | mkDoc_wf ver a m :
      (forall k v, m !! k = Some v -> Value_wf v) -> Doc_wf (mkDoc ver a m)
with List_wf : List -> Prop :=
  | mkList_wf its :
      items_ok its -> (forall p v, (p, v) ∈ its -> Value_wf v) -> List_wf (mkList its).

Scheme Value_wf_mut := Minimality for Value_wf Sort Prop
with Doc_wf_mut := Minimality for Doc_wf Sort Prop
with List_wf_mut := Minimality for List_wf Sort Prop.

Combined Scheme wf_ind from Value_wf_mut, Doc_wf_mut, List_wf_mut.

Create HintDb docwf.
#[export] Hint Constructors Value_wf Doc_wf List_wf : docwf.

(** ** What a merge computes *)

(** Two optional values merged: the present one, or their merge. *)
Definition merge_opt (self other : option Value) : option Value :=
  match self, other with
  | Some x, Some y => Some (Value_merge x y)
  | Some x, None => Some x
  | None, o => o
  end.

Lemma Doc_merge_children self other k :
  atomic other = false ->
  children (Doc_merge self other) !! k = merge_opt (children self !! k) (children other !! k).
Proof.
  destruct other as [ver a m]; simpl. intros ->. simpl. revert k.
  apply (map_fold_weak_ind (fun r m => forall k, r !! k = merge_opt (children self !! k) (m !! k))).
  { intros k. rewrite lookup_empty. by destruct (children self !! k). }
  intros key v m' r Hkey IH k. rewrite IH, Hkey.
  destruct (decide (k = key)) as [->|Hne].
  - rewrite lookup_insert_eq. destruct (children self !! key); simpl; by rewrite lookup_insert_eq.
  - rewrite (lookup_insert_ne m') by done.
    destruct (children self !! key); simpl; by rewrite lookup_insert_ne, IH.
Qed.

Lemma Doc_merge_fields self other :
  atomic other = false ->
  version (Doc_merge self other) = version self /\ atomic (Doc_merge self other) = atomic self.
Proof. destruct other as [ver a m]; simpl. by intros ->. Qed.

Lemma Doc_merge_atomic self other : atomic other = true -> Doc_merge self other = other.
Proof. destruct other as [ver a m]; simpl. by intros ->. Qed.

Lemma Doc_ext d1 d2 :
  version d1 = version d2 -> atomic d1 = atomic d2 ->
  (forall k, children d1 !! k = children d2 !! k) -> d1 = d2.
Proof. destruct d1, d2; simpl. intros -> -> H. f_equal. by apply map_eq. Qed.

Lemma List_merge_fold self its p :
  items_ok self -> items_ok its ->
  let r := foldl
    (fun its '(position, value) =>
       match btree_get position its with
       | Some existing_value => btree_insert position (Value_merge existing_value value) its
       | None => btree_insert position value its
       end) self its in
  items_ok r /\ (good p -> btree_get p r = merge_opt (btree_get p self) (btree_get p its)).
Proof.
  revert self. induction its as [|[q w] its IH]; intros self Hs Hi; simpl.
  { split; [done|]. by destruct (btree_get p self). }
  rewrite items_ok_cons in Hi. destruct Hi as (Hq & Hi & Hf). simpl in Hq.
  assert (btree_get q its = None) as Hqn.
  { destruct (btree_get q its) as [u|] eqn:E; [|done].
    apply btree_get_elem in E; [|done..]. rewrite Forall_forall in Hf. specialize (Hf _ E).
    unfold item_lt in Hf. simpl in Hf. by rewrite Position_cmp_refl in Hf. }
  set (x := match btree_get q self with Some u => Value_merge u w | None => w end).
  replace (match btree_get q self with
           | Some existing_value => btree_insert q (Value_merge existing_value w) self
           | None => btree_insert q w self end) with (btree_insert q x self)
    by (unfold x; by destruct (btree_get q self)).
  destruct (IH (btree_insert q x self)) as [Hok Hget]; [by apply items_ok_insert|done|].
  split; [done|]. intros Hp. rewrite Hget, btree_get_insert by done.
  destruct (decide (p = q)) as [->|Hne].
  - rewrite Hqn, Position_cmp_refl. unfold x. by destruct (btree_get q self).
  - destruct (Position_cmp p q) eqn:E.
    + apply Position_cmp_eq in E; done.
    + f_equal. destruct (btree_get p its) as [u|] eqn:Eu; [|done].
      apply btree_get_elem in Eu; [|done..].
      pose proof (items_below p q w its Hp Hq Hi Hf E) as Hb. rewrite Forall_forall in Hb.
      specialize (Hb _ Eu). simpl in Hb. by rewrite Position_cmp_refl in Hb.
    + done.
Qed.

Lemma List_merge_ok self other :
  List_ok self -> List_ok other -> List_ok (List_merge self other).
Proof.
  destruct other as [its]. intros Hs Ho.
  apply (List_merge_fold (items self) its (mkPosition 0 1 0)); done.
Qed.

Lemma List_merge_get self other p :
  List_ok self -> List_ok other -> good p ->
  btree_get p (items (List_merge self other))
  = merge_opt (btree_get p (items self)) (btree_get p (items other)).
Proof. destruct other as [its]. intros Hs Ho Hp. by apply List_merge_fold. Qed.

Lemma List_ext l1 l2 :
  List_ok l1 -> List_ok l2 ->
  (forall p, good p -> btree_get p (items l1) = btree_get p (items l2)) -> l1 = l2.
Proof. destruct l1, l2. unfold List_ok. simpl. intros. f_equal. by apply items_ext. Qed.

Lemma List_wf_inv l :
  List_wf l -> List_ok l
    /\ forall p v, good p -> btree_get p (items l) = Some v -> Value_wf v.
Proof.
  inversion 1 as [its Hok Hv]. split; [done|]. intros p v Hp Hg. simpl in Hg.
  eapply (Hv p). by apply btree_get_elem in Hg.
Qed.

Lemma List_wf_intro l :
  List_ok l -> (forall p v, good p -> btree_get p (items l) = Some v -> Value_wf v) -> List_wf l.
Proof.
  destruct l as [its]. intros Hok Hv. constructor; [done|]. intros p v Hin.
  assert (good p) by (destruct Hok as [_ Hg]; rewrite Forall_forall in Hg; by apply (Hg (p, v))).
  apply (Hv p); [done|]. by apply btree_get_elem.
Qed.

Lemma Doc_wf_inv d : Doc_wf d -> forall k v, children d !! k = Some v -> Value_wf v.
Proof. by inversion 1. Qed.

Lemma Doc_wf_intro d : (forall k v, children d !! k = Some v -> Value_wf v) -> Doc_wf d.
Proof. destruct d. by constructor. Qed.

(** A merge of well-formed values, with the merges of the parts given. *)
Lemma merge_opt_wf x y :
  (forall v, x = Some v -> Value_wf v) ->
  (forall v, y = Some v -> Value_wf v /\ forall u, Value_wf u -> Value_wf (Value_merge u v)) ->
  forall v, merge_opt x y = Some v -> Value_wf v.
Proof. destruct x, y; simpl; naive_solver. Qed.

Lemma merge_wf :
  (forall v, Value_wf v -> forall u, Value_wf u -> Value_wf (Value_merge u v))
  /\ (forall d, Doc_wf d -> forall e, Doc_wf e -> Doc_wf (Doc_merge e d))
  /\ (forall l, List_wf l -> forall k, List_wf k -> List_wf (List_merge k l)).
Proof.
  assert (forall v, Value_wf v -> Value_wf v /\
            forall u, Value_wf u -> Value_wf (Value_merge u v)) as Hv.
  2: { split; [naive_solver|]. split.
       - intros d Hd e He. destruct (Hv (VDoc d)) as [_ H]; [by constructor|].
         specialize (H (VDoc e) (VDoc_wf _ He)). by inversion H.
       - intros l Hl k Hk. destruct (Hv (VList l)) as [_ H]; [by constructor|].
         specialize (H (VList k) (VList_wf _ Hk)). by inversion H. }
  apply (Value_wf_mut
    (fun v => Value_wf v /\ forall u, Value_wf u -> Value_wf (Value_merge u v))
    (fun d => Doc_wf d /\ forall e, Doc_wf e -> Doc_wf (Doc_merge e d))
    (fun l => List_wf l /\ forall k, List_wf k -> List_wf (List_merge k l))).
  1-4, 7: intros; split; [by constructor|]; intros [] Hu; simpl; by constructor.
  - intros d _ [Hd IH]. split; [by constructor|]. intros [] Hu; simpl; try by constructor.
    inversion_clear Hu. constructor. by apply IH.
  - intros l _ [Hl IH]. split; [by constructor|]. intros [] Hu; simpl; try by constructor.
    inversion_clear Hu. constructor. by apply IH.
  - intros ver a m Hm IH. split; [by constructor|]. intros e He.
    destruct a; [by apply Doc_wf_intro, Hm|]. apply Doc_wf_intro. intros k.
    rewrite Doc_merge_children by done. by apply merge_opt_wf; [apply Doc_wf_inv|apply IH].
  - intros its Hok Hv IH. assert (List_wf (mkList its)) as Hl by (by constructor).
    split; [done|]. intros k Hk. apply List_wf_inv in Hk as [Hkok Hkv].
    apply List_wf_intro; [by apply List_merge_ok|]. intros p v Hp.
    rewrite List_merge_get by done. revert v.
    apply merge_opt_wf; [naive_solver|]. intros v Hg. apply (IH p).
    by apply btree_get_elem in Hg.
Qed.

Lemma merge_idempotent :
  (forall v, Value_wf v -> Value_merge v v = v)
  /\ (forall d, Doc_wf d -> Doc_merge d d = d)
  /\ (forall l, List_wf l -> List_merge l l = l).
Proof.
  apply wf_ind; try done.
  - intros d _ IH. simpl. by rewrite IH.
  - intros l _ IH. simpl. by rewrite IH.
  - intros ver [] m Hm IH; [done|]. destruct (Doc_merge_fields (mkDoc ver false m)
      (mkDoc ver false m)) as [Hver Hat]; [done|].
    apply Doc_ext; [done|done|]. intros k. rewrite Doc_merge_children by done. simpl.
    destruct (m !! k) as [v|] eqn:E; simpl; [|done]. by erewrite IH.
  - intros its Hok Hv IH. apply List_ext; [by apply List_merge_ok|done|].
    intros p Hp. rewrite List_merge_get by done. simpl.
    destruct (btree_get p its) as [v|] eqn:E; simpl; [|done].
    apply btree_get_elem in E; [|done..]. by erewrite IH.
Qed.

(** ** Associativity *)

Definition is_container (v : Value) : bool :=
  match v with VDoc _ | VList _ => true | _ => false end.

(** [stable a b]: merging [b] over [a] replaces no container of [a] by a value
    of another kind or a tombstone, except below an atomic document of [b],
    which replaces everything anyway. *)
Inductive stable : Value -> Value -> Prop :=
  | stable_leaf a b : is_container a = false -> stable a b
  | stable_doc a b : stable_Doc a b -> stable (VDoc a) (VDoc b)
  | stable_list a b : stable_List a b -> stable (VList a) (VList b)
with stable_Doc : Doc -> Doc -> Prop :=
  | stable_atomic a b : atomic b = true -> stable_Doc a b
  | stable_children a b :
      (forall k x y, children a !! k = Some x -> children b !! k = Some y -> stable x y) ->
      stable_Doc a b
with stable_List : List -> List -> Prop :=
  | stable_items a b :
      (forall p x y, good p -> btree_get p (items a) = Some x -> btree_get p (items b) = Some y ->
       stable x y) ->
      stable_List a b.

Lemma Value_merge_leaf x c : is_container c = false -> Value_merge x c = c.
Proof. by destruct x, c. Qed.

Lemma merge_opt_assoc x y z :
  (forall a b c, x = Some a -> y = Some b -> z = Some c ->
   Value_merge (Value_merge a b) c = Value_merge a (Value_merge b c)) ->
  merge_opt (merge_opt x y) z = merge_opt x (merge_opt y z).
Proof. destruct x, y, z; simpl; try done. intros H. f_equal. by apply H. Qed.

Lemma merge_assoc :
  (forall c, Value_wf c -> forall a b, Value_wf a -> Value_wf b -> stable a b ->
   Value_merge (Value_merge a b) c = Value_merge a (Value_merge b c))
  /\ (forall c, Doc_wf c -> forall a b, Doc_wf a -> Doc_wf b -> stable_Doc a b ->
      Doc_merge (Doc_merge a b) c = Doc_merge a (Doc_merge b c))
  /\ (forall c, List_wf c -> forall a b, List_wf a -> List_wf b -> stable_List a b ->
      List_merge (List_merge a b) c = List_merge a (List_merge b c)).
Proof.
  apply wf_ind.
  1-4, 7: intros; match goal with |- Value_merge ?x ?c = Value_merge ?a (Value_merge ?b ?c) =>
    by rewrite (Value_merge_leaf x c), (Value_merge_leaf b c), (Value_merge_leaf a c) end.
  1, 2: intros c _ IH a b Ha Hb Hst; inversion Hst as [? ? Hc|? ? Hd|? ? Hl]; subst;
    [destruct a, b; done|inversion_clear Ha; inversion_clear Hb; simpl; by rewrite ?IH..].
  - intros ver [] m Hm IH a b Ha Hb Hst; [done|].
    set (c := mkDoc ver false m) in *. destruct (atomic b) eqn:Eb.
    { rewrite (Doc_merge_atomic a b), (Doc_merge_atomic a (Doc_merge b c)); [done| |done].
      by rewrite (proj2 (Doc_merge_fields b c eq_refl)). }
    destruct (Doc_merge_fields a b Eb) as [V1 A1], (Doc_merge_fields b c eq_refl) as [V2 A2],
      (Doc_merge_fields (Doc_merge a b) c eq_refl) as [V3 A3],
      (Doc_merge_fields a (Doc_merge b c)) as [V4 A4]; [congruence|].
    apply Doc_ext; [congruence..|].
    intros k. rewrite !Doc_merge_children by (done || congruence).
    apply merge_opt_assoc. intros x y z Hx Hy Hz. apply (IH k z); [done| | |].
    + by eapply (Doc_wf_inv a).
    + by eapply (Doc_wf_inv b).
    + inversion Hst; [congruence|by eauto].
  - intros its Hok Hv IH a b Ha Hb Hst.
    inversion_clear Hst as [? ? Hst']. apply List_wf_inv in Ha as [Ha Ha'], Hb as [Hb Hb'].
    assert (List_ok (mkList its)) by done.
    apply List_ext; [auto using List_merge_ok..|].
    intros p Hp. rewrite !List_merge_get by auto using List_merge_ok.
    apply merge_opt_assoc. intros x y z Hx Hy Hz. simpl in Hz.
    apply (IH p z); [by apply btree_get_elem in Hz|by eauto..].
Qed.

(** ** The delta of a write *)

Lemma Doc_new_lookup k : children Doc_new !! k = None.
Proof. apply lookup_empty. Qed.

Lemma set_segments_step d s s' segs v :
  (set_segments d (s :: s' :: segs) v).1 =
  with_child d s (VDoc (set_segments
    (match children d !! s with Some (VDoc sub) => sub | _ => Doc_new end) (s' :: segs) v).1).
Proof. done. Qed.

Lemma set_segments_delta d segs v :
  segs <> [] -> is_container v = false ->
  Doc_merge d (set_segments Doc_new segs v).1 = (set_segments d segs v).1.
Proof.
  intros Hne Hv. revert d Hne. induction segs as [|s segs IH]; intros d Hne; [done|].
  assert (forall e, atomic (set_segments e (s :: segs) v).1 = atomic e) as Hat.
  { intros e. by destruct segs. }
  destruct (Doc_merge_fields d (set_segments Doc_new (s :: segs) v).1) as [Hver Ha];
    [by rewrite Hat|].
  apply Doc_ext.
  - rewrite Hver. by destruct segs.
  - by rewrite Ha, Hat.
  - intros k. rewrite Doc_merge_children by (by rewrite Hat).
    destruct segs as [|s' segs].
    + cbn [set_segments insert_child fst]. rewrite !children_with_child.
      destruct (decide (k = s)) as [->|Hk].
      * rewrite !lookup_insert_eq. destruct (children d !! s); [|done]. simpl.
        by rewrite Value_merge_leaf.
      * rewrite !lookup_insert_ne, Doc_new_lookup by done. by destruct (children d !! k).
    + rewrite !set_segments_step, !children_with_child.
      destruct (decide (k = s)) as [->|Hk].
      * rewrite !lookup_insert_eq, Doc_new_lookup.
        destruct (children d !! s) as [[| | | |sub| |]|]; try done.
        by rewrite <- (IH sub).
      * rewrite !lookup_insert_ne, Doc_new_lookup by done. by destruct (children d !! k).
Qed.

(** ** Properties *)

(** C24: the value of every key after [Doc::merge]: an atomic right-hand side
    replaces the document; otherwise keys on one side only are kept, and at a
    common key a scalar or tombstone on the right wins, a tombstone on the left
    gives way, and documents and lists merge with their like and are replaced
    by a value of another kind.  The atomic flag, once set on either side,
    stays. *)
Theorem Doc_merge_spec self other k :
  children (Doc_merge self other) !! k =
    (if atomic other then children other !! k else
     match children self !! k, children other !! k with
     | o, None | None, o => o
     | Some (VDoc x), Some (VDoc y) => Some (VDoc (Doc_merge x y))
     | Some (VList x), Some (VList y) => Some (VList (List_merge x y))
     | Some _, Some y => Some y
     end)
  /\ atomic (Doc_merge self other) = atomic self || atomic other
  /\ (atomic other = true -> Doc_merge self other = other).
Proof.
  destruct (atomic other) eqn:E.
  - rewrite Doc_merge_atomic by done. by rewrite E, orb_true_r.
  - rewrite Doc_merge_children by done.
    destruct (Doc_merge_fields self other) as [_ ->]; [done|]. rewrite orb_false_r.
    split; [|done]. destruct (children self !! k) as [[]|], (children other !! k) as [[]|]; done.
Qed.

Lemma Doc_merge_spec_witness :
  Doc_merge (mkDoc 0 false {[ "a" := Int 1 ]}) (mkDoc 0 true {[ "b" := Int 2 ]})
  = mkDoc 0 true {[ "b" := Int 2 ]}.
Proof.
  by apply (Doc_merge_spec (mkDoc 0 false {[ "a" := Int 1 ]}) (mkDoc 0 true {[ "b" := Int 2 ]}) "a").
Defined.

Lemma Doc_merge_new_r d : Doc_merge d Doc_new = d.
Proof. by destruct d. Qed.

(** [Doc::merge] keeps well-formedness and is idempotent on well-formed
    documents, and the empty document is its identity: on the right always, on
    the left for documents of the current version. *)
Theorem Doc_merge_laws d e :
  Doc_wf d -> Doc_wf e -> version d = DOC_VERSION ->
  Doc_wf (Doc_merge d e) /\ Doc_merge d d = d
  /\ Doc_merge d Doc_new = d /\ Doc_merge Doc_new d = d.
Proof.
  intros Hd He Hver. split; [by apply merge_wf|]. split; [by apply merge_idempotent|].
  split; [apply Doc_merge_new_r|]. destruct (atomic d) eqn:E; [by apply Doc_merge_atomic|].
  destruct (Doc_merge_fields Doc_new d E) as [V A].
  apply Doc_ext; [by rewrite V|by rewrite A|]. intros k.
  rewrite Doc_merge_children by done. by rewrite Doc_new_lookup.
Qed.

(** A document of one key, for the concrete cases. *)
Definition single_doc (k : string) (v : Value) : Doc := mkDoc 0 false {[ k := v ]}.

Lemma single_doc_wf k v : Value_wf v -> Doc_wf (single_doc k v).
Proof. intros Hv. constructor. by intros k' v' [<- <-]%lookup_singleton_Some. Qed.

Lemma single_doc_lookup k v k' v' :
  children (single_doc k v) !! k' = Some v' -> k = k' /\ v = v'.
Proof. apply lookup_singleton_Some. Qed.

Lemma Doc_merge_laws_witness :
  Doc_merge (single_doc "a" (VList (mkList [(mkPosition 0 1 3, Int 1)])))
    (single_doc "a" (VList (mkList [(mkPosition 0 1 3, Int 1)])))
  = single_doc "a" (VList (mkList [(mkPosition 0 1 3, Int 1)])).
Proof.
  destruct (Doc_merge_laws (single_doc "a" (VList (mkList [(mkPosition 0 1 3, Int 1)]))) Doc_new)
    as (_ & H & _).
  - apply single_doc_wf. constructor. constructor.
    + split; repeat constructor; simpl; lia.
    + intros p v [= -> ->]%list_elem_of_singleton. by constructor.
  - constructor. intros k v. by rewrite lookup_empty.
  - reflexivity.
  - exact H.
Defined.

(** C35: [Doc::merge] is associative, as the [CRDT] trait requires, whenever the
    middle document replaces no container of the first by a value of another
    kind. *)
Theorem Doc_merge_assoc a b c :
  Doc_wf a -> Doc_wf b -> Doc_wf c -> stable_Doc a b ->
  Doc_merge (Doc_merge a b) c = Doc_merge a (Doc_merge b c).
Proof. intros Ha Hb Hc Hs. by apply merge_assoc. Qed.

Lemma Doc_merge_assoc_witness :
  Doc_merge (Doc_merge (single_doc "a" (VDoc (single_doc "x" (Int 1))))
                       (single_doc "a" (VDoc (single_doc "x" Deleted))))
            (single_doc "a" (VDoc (single_doc "x" (Int 2))))
  = Doc_merge (single_doc "a" (VDoc (single_doc "x" (Int 1))))
      (Doc_merge (single_doc "a" (VDoc (single_doc "x" Deleted)))
                 (single_doc "a" (VDoc (single_doc "x" (Int 2))))).
Proof.
  apply Doc_merge_assoc; [by repeat (apply single_doc_wf || constructor)..|].
  apply stable_children. intros k x y [<- <-]%single_doc_lookup [_ <-]%single_doc_lookup.
  apply stable_doc, stable_children.
  intros k x y [<- <-]%single_doc_lookup [_ <-]%single_doc_lookup. by apply stable_leaf.
Defined.

(** Without that condition associativity fails: where the middle document
    deletes (or overwrites with a scalar) a sub-document, merging left to right
    forgets the first sub-document, while merging the last two first brings its
    keys back. *)
Theorem Doc_merge_not_associative v :
  is_container v = false ->
  let a := single_doc "k" (VDoc (single_doc "x" (Int 1))) in
  let b := single_doc "k" v in
  let c := single_doc "k" (VDoc (single_doc "y" (Int 2))) in
  get_raw (Doc_merge (Doc_merge a b) c) "k.x" = None
  /\ get_raw (Doc_merge a (Doc_merge b c)) "k.x" = Some (Int 1).
Proof. by destruct v. Qed.

Lemma Doc_merge_not_associative_witness :
  get_raw (Doc_merge (Doc_merge (single_doc "k" (VDoc (single_doc "x" (Int 1))))
                                (single_doc "k" Deleted))
             (single_doc "k" (VDoc (single_doc "y" (Int 2))))) "k.x" = None.
Proof. by apply (Doc_merge_not_associative Deleted). Defined.

(** Recording a write of a scalar, or a deletion, in an empty document and
    merging that delta into [d] is the same as performing it on [d]: the
    entries of a store, merged in order, replay the writes. *)
Theorem Doc_merge_delta d path v :
  segments_of path <> [] -> is_container v = false ->
  Doc_merge d (Doc_set Doc_new path v).1 = (Doc_set d path v).1.
Proof. rewrite !Doc_set_segments. apply set_segments_delta. Qed.

Lemma Doc_merge_delta_witness :
  Doc_merge (single_doc "a" (Int 1)) (Doc_set Doc_new "a.b" Deleted).1
  = (Doc_set (single_doc "a" (Int 1)) "a.b" Deleted).1.
Proof. by apply Doc_merge_delta. Defined.
