(* ===== verification/Errors.v ===== *)
(** * Error types

    The structured errors of the modules (auth/errors.rs, entry/errors.rs,
    backend/errors.rs, store/errors.rs, instance/errors.rs,
    transaction/errors.rs, sync/error.rs, user/errors.rs) and the crate's
    [Error] that wraps them (lib.rs).  A
    variant keeps the data a caller can match on; the free text of a message and
    a wrapped foreign error are left out.  Variants of different enums that
    share a name carry the enum's name first. *)

From S2P Require Import Prelude.
From S2P Require Import Path.
From S2P Require Import Position.
From S2P Require Import Ids.
From S2P Require Import Doc.

Section errors.
Context `{CS : CidSpec}.

Inductive AuthError : Type :=
| KeyNotFound (key_name : string)
| InvalidKeyFormat
| KeyParsingFailed
| NoAuthConfiguration
| InvalidAuthConfiguration
| EmptyDelegationPath
| DelegationDepthExceeded (depth : nat)
| InvalidDelegationStep
| DelegatedTreeLoadFailed (tree_id : ID)
| InvalidDelegationTips (tree_id : ID) (claimed_tips : list ID)
| DelegationNotFound (tree_id : ID)
| DelegationPathTooLong (len max : nat)
| DelegationTipsTooMany (tree_id : ID) (len max : nat)
| DelegatedTreeUnsynced (tree_id : ID) (missing : list ID)
| CannotRevokeNonKey (key_name : string)
| MalformedEntry (reason : string)
| InvalidSignature
| SignatureVerificationFailed
| DatabaseRequired
| InvalidPermissionString (value : string)
| PermissionRequiresPriority (permission_type : string)
| InvalidPriorityValue (value : string)
| InvalidKeyStatus (value : string)
| PermissionDenied
| KeyAlreadyExists (key_name : string)
| KeyNameConflict (key_name existing_pubkey new_pubkey : string)
| SigningKeyMismatch.

Inductive StoreError : Type :=
| StoreKeyNotFound (store key : string)
| StoreSerializationFailed (store : string)
| StoreDeserializationFailed (store : string)
| StoreTypeMismatch (store expected actual : string)
| StoreInvalidOperation (store operation : string)
| StoreRequiresTransaction (store : string)
| StoreDataCorruption (store : string)
| StoreInvalidConfiguration (store : string)
| StoreImplementationError (store : string).

Inductive EntryError : Type :=
| EntryErrorValidationFailed
| EntrySerializationFailed
| EntryInvalidStructure
| InvalidIndexData.

Inductive InstanceError : Type :=
| DatabaseNotFound (name : string)
| DatabaseAlreadyExists (name : string)
| InstanceAlreadyExists
| InstanceNotInitialized
| InvalidUrl (url : string)
| UnsupportedScheme (scheme : string) (suggested : option string)
| BackendUnavailable (scheme missing_feature : string)
| InvalidSnapshot (path : string)
| SnapshotNotSupported
| EntryNotInDatabase (entry_id database_id : ID)
| InstanceEntryNotFound (entry_id : ID)
| InstanceTransactionAlreadyCommitted
| InstanceEmptyTipsNotAllowed
| InstanceInvalidTip (tip_id database_id : ID)
| InstanceSigningKeyNotFound (key_name : string)
| InstanceAuthenticationRequired
| DeviceKeyNotFound
| DeviceKeyMismatch
| InstanceNoAuthConfiguration
| AuthenticationValidationFailed
| InstanceInsufficientPermissions
| InstanceSignatureVerificationFailed
| InvalidDataType (expected actual : string)
| InstanceSerializationFailed (context : string)
| InvalidDatabaseConfiguration
| SettingsValidationFailed
| InstanceInvalidOperation
| DatabaseInitializationFailed
| EntryValidationFailed (reason : string)
| DatabaseStateCorruption
| OperationNotSupported (operation : string)
| InstanceDropped
| SyncAlreadyEnabled
| SystemDatabaseNotFound (database_name : string).

Inductive TransactionError : Type :=
| TransactionAlreadyCommitted
| EmptyTipsNotAllowed
| InvalidTip (tip_id : ID)
| EntryConstructionFailed
| EntrySigningFailed (key_name : string)
| TransactionSigningKeyNotFound (key_name : string)
| AuthenticationRequired
| TransactionNoAuthConfiguration
| CorruptedAuthConfiguration
| InsufficientPermissions
| TransactionSignatureVerificationFailed
| TransactionEntryValidationFailed
| TransactionStoreDeserializationFailed (store : string)
| BackendOperationFailed
| SystemSubtreeLocked (name : string).

Inductive BackendError : Type :=
| EntryNotFound (id : ID)
| BackendEntryValidationFailed (entry_id : ID)
| VerificationStatusNotFound (id : ID)
| EntryNotInTree (entry_id tree_id : ID)
| EntryNotInSubtree (entry_id tree_id : ID) (subtree : string)
| CycleDetected (entry_id : ID)
| NoCommonAncestor (entry_ids : list ID)
| EmptyEntryList (operation : string)
| HeightCalculationCorruption
| PrivateKeyNotFound (key_name : string)
| BackendSerializationFailed
| BackendDeserializationFailed
| FileIo
| CrdtCacheError
| TreeIntegrityViolation
| InvalidTreeReference (tree_id : ID)
| StateInconsistency
| CacheError
| SqlxError.

(** A transport type and an address in it (sync/peer_types.rs). *)
Record Address : Type := mkAddress { transport_type : string; address : string }.

Inductive SyncError : Type :=
| NoTransportEnabled
| SyncNotEnabled
| ServerAlreadyRunning (address : string)
| ServerNotRunning
| UnexpectedResponse (expected : string)
| SyncNetwork
| CommandSendError
| TransportInit
| RuntimeCreation
| ServerBind (address : string)
| ConnectionFailed (address : string)
| SyncDeviceKeyNotFound (key_name : string)
| UnsupportedTransport (transport_type : string)
| InvalidAddress
| PeerNotFound (peer : string)
| PeerAlreadyExists (peer : string)
| SyncSerializationError
| ProtocolMismatch (expected received : Z)
| HandshakeFailed
| SyncEntryNotFound (id : ID)
| InvalidEntry
| SyncProtocolError
| SyncBackendError
| RequestNotFound (request_id : string)
| RequestAlreadyExists (request_id : string)
| InvalidRequestState (request_id expected_status : string)
| InvalidData
| SyncInsufficientPermission (request_id required_permission : string)
| SyncAuthenticationRequired (tree_id : string)
| SyncAuthenticationFailed (reason : string)
| SyncPermissionDenied
| InvalidPublicKey
| InvalidKeyName
| SyncInstanceDropped
| BootstrapPending (request_id : string)
| TransportTypeMismatch (name expected found : string)
| TransportNotFound (name : string)
| NoTransportForAddress (address : Address)
| MultipleTransportErrors (count : nat).

Inductive UserError : Type :=
| UserNotFound (username : string)
| UsernameAlreadyExists (username : string)
| DuplicateUsersDetected (username : string) (count : nat)
| InvalidPassword
| UserKeyNotFound (key_id : string)
| UserKeyAlreadyExists (key_id : string)
| EncryptionFailed
| DecryptionFailed
| UserInsufficientPermissions
| NoAdminKey (database_id : ID)
| DatabaseNotTracked (database_id : ID)
| DatabaseNotFoundByName (name : string)
| UserDisabled (username : string)
| InvalidSaltLength (expected actual : nat)
| InvalidNonceLength (expected actual : nat)
| NoKeyForDatabase (database_id : ID)
| NoSigKeyMapping (key_id : string) (database_id : ID)
| NoSigKeyFound (key_id : string) (database_id : ID)
| DatabaseAccessPending (database_id : ID)
| PasswordRequired (operation : string)
| UserInvalidKeyFormat
| NoKeysAvailable
| DuplicateBuilderStore (name : string).

(** [crate::Error]. *)
Inductive Error : Type :=
| EIo
| ESerialize
| EAuth (e : AuthError)
| EBackend (e : BackendError)
| EInstance (e : InstanceError)
| ECRDT (e : CRDTError)
| EStore (e : StoreError)
| ETransaction (e : TransactionError)
| ESync (e : SyncError)
| EEntry (e : EntryError)
| EId (e : IdError)
| EUser (e : UserError).

(** ** Classification *)

Definition AuthError_is_not_found (e : AuthError) : bool :=
  match e with KeyNotFound _ | DelegationNotFound _ => true | _ => false end.

Definition is_configuration_error (e : AuthError) : bool :=
  match e with
  | NoAuthConfiguration | InvalidAuthConfiguration | InvalidKeyFormat | KeyParsingFailed => true
  | _ => false
  end.

Definition is_delegation_error (e : AuthError) : bool :=
  match e with
  | EmptyDelegationPath | DelegationDepthExceeded _ | InvalidDelegationStep
  | DelegatedTreeLoadFailed _ | InvalidDelegationTips _ _ | DelegationNotFound _
  | DelegationPathTooLong _ _ | DelegationTipsTooMany _ _ _ => true
  | _ => false
  end.

Definition is_delegated_tree_unsynced (e : AuthError) : bool :=
  match e with DelegatedTreeUnsynced _ _ => true | _ => false end.

Definition BackendError_is_not_found (e : BackendError) : bool :=
  match e with
  | EntryNotFound _ | VerificationStatusNotFound _ | PrivateKeyNotFound _ => true
  | _ => false
  end.

Definition InstanceError_is_not_found (e : InstanceError) : bool :=
  match e with
  | DatabaseNotFound _ | InstanceEntryNotFound _ | InstanceSigningKeyNotFound _
  | SystemDatabaseNotFound _ => true
  | _ => false
  end.

Definition CRDTError_is_not_found (e : CRDTError) : bool :=
  match e with ElementNotFound _ => true | _ => false end.

Definition StoreError_is_not_found (e : StoreError) : bool :=
  match e with StoreKeyNotFound _ _ => true | _ => false end.

Definition SyncError_is_not_found (e : SyncError) : bool :=
  match e with PeerNotFound _ | SyncEntryNotFound _ => true | _ => false end.

Definition UserError_is_not_found (e : UserError) : bool :=
  match e with
  | UserNotFound _ | UserKeyNotFound _ | DatabaseNotTracked _ | DatabaseNotFoundByName _ => true
  | _ => false
  end.

Definition Error_is_not_found (e : Error) : bool :=
  match e with
  | EAuth e => AuthError_is_not_found e
  | EBackend e => BackendError_is_not_found e
  | EInstance e => InstanceError_is_not_found e
  | ECRDT e => CRDTError_is_not_found e
  | EStore e => StoreError_is_not_found e
  | ESync e => SyncError_is_not_found e
  | EUser e => UserError_is_not_found e
  | _ => false
  end.

Definition is_integrity_error (e : BackendError) : bool :=
  match e with
  | BackendEntryValidationFailed _ | CycleDetected _ | HeightCalculationCorruption
  | TreeIntegrityViolation | StateInconsistency => true
  | _ => false
  end.

Definition is_logical_error (e : BackendError) : bool :=
  match e with
  | EntryNotInTree _ _ | EntryNotInSubtree _ _ _ | NoCommonAncestor _ | EmptyEntryList _ => true
  | _ => false
  end.

Definition error_entry_id (e : BackendError) : option ID :=
  match e with
  | EntryNotFound id | VerificationStatusNotFound id | BackendEntryValidationFailed id
  | CycleDetected id | EntryNotInTree id _ | EntryNotInSubtree id _ _ => Some id
  | _ => None
  end.

Definition error_tree_id (e : BackendError) : option ID :=
  match e with
  | EntryNotInTree _ tree_id | EntryNotInSubtree _ tree_id _ | InvalidTreeReference tree_id =>
      Some tree_id
  | _ => None
  end.
End errors.

#[export] Instance Address_eq_dec : EqDecision Address.
Proof. solve_decision. Defined.
