(* ===== verification/Crypto.v ===== *)
(** * Keys and signatures (auth/crypto.rs)

    The algorithm-agnostic [PublicKey] and [PrivateKey] over the [ed25519_dalek]
    and [base64ct] crates.  Those crates are an interface: the operations the
    code calls and the behaviour it relies on. *)

From S2P Require Import Prelude.
From S2P Require Import Path.
From S2P Require Import Position.
From S2P Require Import Ids.
From S2P Require Import Doc.
From S2P Require Import Errors.

(** [Vec<u8>]. *)
Definition Bytes : Type := list Byte.byte.

#[export] Instance byte_eq_decision : EqDecision Byte.byte := Byte.byte_eq_dec.

Definition ED25519_PUBLIC_KEY_SIZE : nat := 32.
Definition ED25519_PRIVATE_KEY_SIZE : nat := 32.
Definition ED25519_SIGNATURE_SIZE : nat := 64.

(** [ed25519_dalek] and [base64ct]: sizes of the encodings, decoding reads what
    encoding writes, the standard base64 alphabet has neither a dot nor a
    colon, and a signature verifies under the key that made it. *)
Class CryptoSpec := {
  VerifyingKey : Type;
  VerifyingKey_eq_dec :: EqDecision VerifyingKey;
  SigningKey : Type;
  vk_to_bytes : VerifyingKey -> Bytes;
  vk_from_bytes : Bytes -> option VerifyingKey;
  sk_to_bytes : SigningKey -> Bytes;
  sk_from_bytes : Bytes -> SigningKey;
  verifying_key : SigningKey -> VerifyingKey;
  dalek_sign : SigningKey -> Bytes -> Bytes;
  dalek_verify : VerifyingKey -> Bytes -> Bytes -> bool;
  base64_encode : Bytes -> string;
  base64_decode : string -> option Bytes;
  vk_to_bytes_length k : length (vk_to_bytes k) = ED25519_PUBLIC_KEY_SIZE;
  vk_from_to_bytes k : vk_from_bytes (vk_to_bytes k) = Some k;
  sk_to_bytes_length k : length (sk_to_bytes k) = ED25519_PRIVATE_KEY_SIZE;
  sk_from_to_bytes k : sk_from_bytes (sk_to_bytes k) = k;
  dalek_sign_length k m : length (dalek_sign k m) = ED25519_SIGNATURE_SIZE;
  dalek_verify_sign k m : dalek_verify (verifying_key k) m (dalek_sign k m) = true;
  base64_decode_encode b : base64_decode (base64_encode b) = Some b;
  base64_encode_no_dot b : str_contains dot (base64_encode b) = false;
  base64_encode_no_colon b : str_contains colon (base64_encode b) = false;
}.

(** [s.split_once(c)]. *)
Fixpoint split_once (c : ascii) (s : string) : option (string * string) :=
  match s with
  | EmptyString => None
  | String a s' =>
      if decide (a = c) then Some (EmptyString, s')
      else match split_once c s' with
           | Some (l, r) => Some (String a l, r)
           | None => None
           end
  end.

Section crypto.
Context `{CS : CidSpec} `{KS : CryptoSpec}.

Inductive PublicKey : Type := Ed25519 (key : VerifyingKey).

#[export] Instance PublicKey_eq_dec : EqDecision PublicKey.
Proof. solve_decision. Defined.

Inductive PrivateKey : Type := Ed25519Private (key : SigningKey).

Definition PublicKey_verify (self : PublicKey) (data signature : Bytes) : Result unit AuthError :=
  match self with
  | Ed25519 key =>
      if (length signature =? ED25519_SIGNATURE_SIZE)%nat then
        if dalek_verify key data signature then Ok tt else Err InvalidSignature
      else Err InvalidSignature
  end.

Definition PublicKey_to_string (self : PublicKey) : string :=
  match self with Ed25519 key => "ed25519:" +:+ base64_encode (vk_to_bytes key) end.

Definition PublicKey_from_string (s : string) : Result PublicKey AuthError :=
  match split_once colon s with
  | None => Err InvalidKeyFormat
  | Some (prefix, key_data) =>
      if decide (prefix = "ed25519") then
        match base64_decode key_data with
        | None => Err InvalidKeyFormat
        | Some key_bytes =>
            if (length key_bytes =? ED25519_PUBLIC_KEY_SIZE)%nat then
              match vk_from_bytes key_bytes with
              | Some verifying_key => Ok (Ed25519 verifying_key)
              | None => Err KeyParsingFailed
              end
            else Err InvalidKeyFormat
        end
      else Err InvalidKeyFormat
  end.

Definition PrivateKey_sign (self : PrivateKey) (data : Bytes) : Bytes :=
  match self with Ed25519Private key => dalek_sign key data end.

Definition public_key (self : PrivateKey) : PublicKey :=
  match self with Ed25519Private key => Ed25519 (verifying_key key) end.

Definition PrivateKey_from_bytes (algorithm : string) (bytes : Bytes) :
    Result PrivateKey AuthError :=
  if decide (algorithm = "ed25519") then
    if (length bytes =? ED25519_PRIVATE_KEY_SIZE)%nat then
      Ok (Ed25519Private (sk_from_bytes bytes))
    else Err InvalidKeyFormat
  else Err InvalidKeyFormat.

Definition PrivateKey_to_string (self : PrivateKey) : string :=
  match self with Ed25519Private key => "ed25519:" +:+ base64_encode (sk_to_bytes key) end.

Definition PrivateKey_from_string (s : string) : Result PrivateKey AuthError :=
  match split_once colon s with
  | None => Err InvalidKeyFormat
  | Some (prefix, key_data) =>
      if decide (prefix = "ed25519") then
        match base64_decode key_data with
        | None => Err InvalidKeyFormat
        | Some key_bytes => PrivateKey_from_bytes "ed25519" key_bytes
        end
      else Err InvalidKeyFormat
  end.

Definition sign_data (data : Bytes) (signing_key : PrivateKey) : string :=
  base64_encode (PrivateKey_sign signing_key data).

Definition create_challenge_response (challenge : Bytes) (signing_key : PrivateKey) : Bytes :=
  PrivateKey_sign signing_key challenge.

Definition verify_challenge_response (challenge response : Bytes) (pk : PublicKey) :
    Result unit AuthError :=
  PublicKey_verify pk challenge response.

(** [verify_entry_signature] on the entry's signature and signing bytes. *)
Definition verify_signature (sig : option string) (signing_bytes : Bytes) (pk : PublicKey) :
    Result unit AuthError :=
  let? signature_base64 := ok_or sig InvalidSignature in
  let? signature_bytes := ok_or (base64_decode signature_base64) InvalidSignature in
  PublicKey_verify pk signing_bytes signature_bytes.

Lemma split_once_app c s t :
  str_contains c s = false -> split_once c (s +:+ String c t) = Some (s, t).
Proof.
  induction s as [|a s IH]; simpl; intros H.
  - by rewrite decide_True.
  - destruct (decide (a = c)); [done|]. by rewrite IH.
Qed.

Lemma ed25519_split t : split_once colon ("ed25519:" +:+ t) = Some ("ed25519", t).
Proof. by apply (split_once_app colon "ed25519"). Qed.

Lemma PublicKey_from_to_string k : PublicKey_from_string (PublicKey_to_string k) = Ok k.
Proof.
  destruct k as [k]. unfold PublicKey_from_string, PublicKey_to_string.
  rewrite ed25519_split. simpl.
  by rewrite base64_decode_encode, vk_to_bytes_length, vk_from_to_bytes.
Qed.

Lemma PublicKey_to_string_inj k1 k2 :
  PublicKey_to_string k1 = PublicKey_to_string k2 -> k1 = k2.
Proof.
  intros H. pose proof (PublicKey_from_to_string k1) as H1.
  rewrite H, PublicKey_from_to_string in H1. congruence.
Qed.

Lemma PublicKey_to_string_no_dot k : str_contains dot (PublicKey_to_string k) = false.
Proof.
  destruct k as [k]. unfold PublicKey_to_string.
  by rewrite str_contains_app, base64_encode_no_dot.
Qed.

Lemma PublicKey_to_string_nonempty k : PublicKey_to_string k <> EmptyString.
Proof. by destruct k. Qed.

Lemma PublicKey_verify_sign sk data :
  PublicKey_verify (public_key sk) data (PrivateKey_sign sk data) = Ok tt.
Proof.
  destruct sk as [k]. simpl. by rewrite dalek_sign_length, dalek_verify_sign.
Qed.

(** Both kinds of key survive their prefixed text form, a signature made by
    a private key verifies under its public key, whether handled as bytes (a
    challenge response) or as base64 text (an entry's signature), and a missing
    signature or one of the wrong length is rejected. *)
Theorem crypto_roundtrips pk sk data response :
  PublicKey_from_string (PublicKey_to_string pk) = Ok pk
  /\ PrivateKey_from_string (PrivateKey_to_string sk) = Ok sk
  /\ verify_challenge_response data (create_challenge_response data sk) (public_key sk) = Ok tt
  /\ verify_signature (Some (sign_data data sk)) data (public_key sk) = Ok tt
  /\ verify_signature None data pk = Err InvalidSignature
  /\ (length response <> ED25519_SIGNATURE_SIZE ->
      verify_challenge_response data response pk = Err InvalidSignature).
Proof.
  split; [apply PublicKey_from_to_string|]. split.
  { destruct sk as [k]. unfold PrivateKey_from_string, PrivateKey_to_string.
    rewrite ed25519_split. simpl. rewrite base64_decode_encode.
    unfold PrivateKey_from_bytes. simpl. by rewrite sk_to_bytes_length, sk_from_to_bytes. }
  split; [apply PublicKey_verify_sign|]. split.
  { unfold verify_signature, sign_data. simpl. rewrite base64_decode_encode. simpl.
    apply PublicKey_verify_sign. }
  split; [done|]. intros Hl. destruct pk as [k]. unfold verify_challenge_response. simpl.
  by rewrite (proj2 (Nat.eqb_neq _ _)).
Qed.
End crypto.

(** ** A concrete instance, for evaluating the definitions

    Keys are single bytes, a signature repeats the key, and bytes are written
    as eight letters each. *)

Definition bit_char (b : bool) : ascii := if b then "B"%char else "A"%char.
Definition char_bit (c : ascii) : option bool :=
  if decide (c = "A"%char) then Some false else if decide (c = "B"%char) then Some true else None.

Fixpoint bits_encode (b : Bytes) : string :=
  match b with
  | [] => EmptyString
  | x :: bs =>
      let '(b0, (b1, (b2, (b3, (b4, (b5, (b6, b7))))))) := Byte.to_bits x in
      String (bit_char b0) (String (bit_char b1) (String (bit_char b2) (String (bit_char b3)
        (String (bit_char b4) (String (bit_char b5) (String (bit_char b6) (String (bit_char b7)
          (bits_encode bs))))))))
  end.

Fixpoint bits_decode (s : string) : option Bytes :=
  match s with
  | EmptyString => Some []
  | String c0 (String c1 (String c2 (String c3 (String c4 (String c5 (String c6
      (String c7 s'))))))) =>
      b0 ← char_bit c0; b1 ← char_bit c1; b2 ← char_bit c2; b3 ← char_bit c3;
      b4 ← char_bit c4; b5 ← char_bit c5; b6 ← char_bit c6; b7 ← char_bit c7;
      bs ← bits_decode s';
      Some (Byte.of_bits (b0, (b1, (b2, (b3, (b4, (b5, (b6, b7))))))) :: bs)
  | _ => None
  end.

Lemma bits_decode_encode b : bits_decode (bits_encode b) = Some b.
Proof. induction b as [|x b IH]; [done|]. destruct x; simpl; by rewrite IH. Qed.

Lemma bits_encode_no_char c b :
  c <> "A"%char -> c <> "B"%char -> str_contains c (bits_encode b) = false.
Proof.
  intros HA HB. induction b as [|x b IH]; [done|]. simpl.
  destruct (Byte.to_bits x) as (b0 & b1 & b2 & b3 & b4 & b5 & b6 & b7).
  assert (forall b s, str_contains c (String (bit_char b) s) = str_contains c s) as Hc.
  { intros [] s; cbn [str_contains bit_char]; by rewrite decide_False by congruence. }
  by rewrite !Hc.
Qed.

Definition byte_crypto : CryptoSpec.
Proof.
  refine {|
    VerifyingKey := Byte.byte;
    VerifyingKey_eq_dec := Byte.byte_eq_dec;
    SigningKey := Byte.byte;
    vk_to_bytes k := replicate 32 k;
    vk_from_bytes := head;
    sk_to_bytes k := replicate 32 k;
    sk_from_bytes b := default Byte.x00 (head b);
    verifying_key k := k;
    dalek_sign k m := replicate 64 k;
    dalek_verify k m s :=
      match head s with Some k' => if Byte.byte_eq_dec k k' then true else false | None => false end;
    base64_encode := bits_encode;
    base64_decode := bits_decode;
    base64_decode_encode := bits_decode_encode |}; try done.
  - intros k m. simpl. by destruct (Byte.byte_eq_dec k k).
  - intros b. by apply bits_encode_no_char.
  - intros b. by apply bits_encode_no_char.
Defined.

Lemma crypto_roundtrips_witness :
  @verify_challenge_response nat_cid byte_crypto [Byte.x01] [Byte.x02] (@Ed25519 byte_crypto Byte.x05)
  = Err InvalidSignature.
Proof.
  destruct (@crypto_roundtrips nat_cid byte_crypto (@Ed25519 byte_crypto Byte.x05)
    (@Ed25519Private byte_crypto Byte.x05) [Byte.x01] [Byte.x02]) as (_ & _ & _ & _ & _ & H).
  apply H. simpl. unfold ED25519_SIGNATURE_SIZE. lia.
Defined.
