(* ===== verification/Permission.v ===== *)
(** * Permissions

    Permission levels, their order, bounds and clamping
    (auth/types/permissions.rs, auth/permission.rs), and their text and
    document forms (auth/types/conversions.rs, permissions.rs). *)

From S2P Require Import Prelude.
From S2P Require Import Path.
From S2P Require Import Position.
From S2P Require Import Ids.
From S2P Require Import Doc.
From S2P Require Import DocPath.
From S2P Require Import Errors.

(** Priorities are [u32]; lower numbers rank higher. *)
Inductive Permission : Type :=
| Admin (priority : Z)
| Write (priority : Z)
| Read.

Inductive KeyStatus : Type := Active | Revoked.

#[export] Instance Permission_eq_dec : EqDecision Permission.
Proof. solve_decision. Defined.

#[export] Instance KeyStatus_eq_dec : EqDecision KeyStatus.
Proof. solve_decision. Defined.

Record PermissionBounds : Type := mkPermissionBounds {
  bound_max : Permission;
  bound_min : option Permission;
}.

#[export] Instance PermissionBounds_eq_dec : EqDecision PermissionBounds.
Proof. solve_decision. Defined.

Definition PermissionBounds_default : PermissionBounds := mkPermissionBounds Read None.

Inductive Operation : Type := WriteData | WriteSettings.

(** Priorities fit [u32]. *)
Definition Permission_wf (p : Permission) : Prop :=
  match p with Admin n | Write n => is_u32 n = true | Read => True end.

Definition PermissionBounds_wf (b : PermissionBounds) : Prop :=
  Permission_wf (bound_max b) /\ match bound_min b with Some m => Permission_wf m | None => True end.

(** ** Order *)

(** [ordering_value]; every intermediate value fits [u64]. *)
Definition ordering_value (p : Permission) : Z :=
  match p with
  | Read => 0
  | Write p => 1 + u32_max - p
  | Admin p => 2 + 2 * u32_max - p
  end.

Definition Permission_cmp (self other : Permission) : comparison :=
  ordering_value self ?= ordering_value other.

Definition Permission_ltb (p q : Permission) : bool :=
  match Permission_cmp p q with Lt => true | _ => false end.

Definition Permission_leb (p q : Permission) : bool :=
  match Permission_cmp p q with Gt => false | _ => true end.

Definition priority (p : Permission) : option Z :=
  match p with Read => None | Write n => Some n | Admin n => Some n end.

Definition can_write (p : Permission) : bool :=
  match p with Write _ | Admin _ => true | Read => false end.

Definition can_admin (p : Permission) : bool :=
  match p with Admin _ => true | _ => false end.

(** [std::cmp::min] returns its first argument when they compare equal. *)
Definition clamp_to (self max_permission : Permission) : Permission :=
  if Permission_leb self max_permission then self else max_permission.

Definition validate_permission_bounds (bounds : PermissionBounds) : bool :=
  match bound_min bounds with
  | Some min => Permission_leb min (bound_max bounds)
  | None => true
  end.

Definition clamp_permission (delegated_permission : Permission) (bounds : PermissionBounds) :
    Permission :=
  if negb (validate_permission_bounds bounds) then
    if Permission_ltb (bound_max bounds) delegated_permission then bound_max bounds
    else delegated_permission
  else if Permission_ltb (bound_max bounds) delegated_permission then bound_max bounds
  else match bound_min bounds with
       | Some min => if Permission_ltb delegated_permission min then min else delegated_permission
       | None => delegated_permission
       end.

Definition clamp_to_bounds (self : Permission) (bounds : PermissionBounds) : Permission :=
  clamp_permission self bounds.

Definition can_delegate_with_bounds (delegating_permission : Permission)
    (bounds : PermissionBounds) : bool :=
  if Permission_ltb delegating_permission (bound_max bounds) then false
  else validate_permission_bounds bounds.

(** ** Text form *)

Definition Permission_to_string (p : Permission) : string :=
  match p with
  | Read => "read"
  | Write priority => "write:" +:+ uint_to_string priority
  | Admin priority => "admin:" +:+ uint_to_string priority
  end.

Definition parse_priority `{CidSpec} (kind : string) (build : Z -> Permission)
    (parts : list string) : Result Permission AuthError :=
  match parts with
  | [_; text] =>
      match parse_uint u32_max text with
      | Some priority => Ok (build priority)
      | None => Err (InvalidPriorityValue text)
      end
  | _ => Err (PermissionRequiresPriority kind)
  end.

Definition Permission_from_string `{CidSpec} (s : string) : Result Permission AuthError :=
  let parts := str_split colon s in
  match parts with
  | first :: _ =>
      if decide (first = "read") then Ok Read
      else if decide (first = "write") then parse_priority "Write" Write parts
      else if decide (first = "admin") then parse_priority "Admin" Admin parts
      else Err (InvalidPermissionString s)
  | [] => Err (InvalidPermissionString s)
  end.

Definition KeyStatus_to_string (s : KeyStatus) : string :=
  match s with Active => "active" | Revoked => "revoked" end.

Definition KeyStatus_from_string `{CidSpec} (s : string) : Result KeyStatus AuthError :=
  if decide (s = "active") then Ok Active
  else if decide (s = "revoked") then Ok Revoked
  else Err (InvalidKeyStatus s).

(** ** Document form *)

(** [doc.set(key, v)] with the old value dropped. *)
Definition set_key (d : Doc) (key : string) (v : Value) : Doc := (Doc_set d key v).1.

Definition Permission_to_doc (p : Permission) : Doc :=
  match p with
  | Admin p => set_key (set_key Doc_new "type" (Text "Admin")) "priority" (Value_from_u32 p)
  | Write p => set_key (set_key Doc_new "type" (Text "Write")) "priority" (Value_from_u32 p)
  | Read => set_key Doc_new "type" (Text "Read")
  end.

Definition Permission_from_doc `{CidSpec} (d : Doc) : Result Permission Error :=
  let? ptype := ok_or (get_as (T := string) d "type") (ECRDT (ElementNotFound "type")) in
  if decide (ptype = "Admin") then
    let? p := ok_or (get_as (T := Z) d "priority") (ECRDT (ElementNotFound "priority")) in
    Ok (Admin (as_u32 p))
  else if decide (ptype = "Write") then
    let? p := ok_or (get_as (T := Z) d "priority") (ECRDT (ElementNotFound "priority")) in
    Ok (Write (as_u32 p))
  else if decide (ptype = "Read") then Ok Read
  else Err (ECRDT DeserializationFailed).

Definition PermissionBounds_to_doc (b : PermissionBounds) : Doc :=
  let d := set_key Doc_new "max" (VDoc (Permission_to_doc (bound_max b))) in
  match bound_min b with
  | Some min => set_key d "min" (VDoc (Permission_to_doc min))
  | None => d
  end.

Definition PermissionBounds_from_doc `{CidSpec} (d : Doc) : Result PermissionBounds Error :=
  let? max_doc := match Doc_get d "max" with
                  | Some (VDoc d) => Ok d
                  | _ => Err (ECRDT (ElementNotFound "max"))
                  end in
  let? max := Permission_from_doc max_doc in
  let? min := match Doc_get d "min" with
              | Some (VDoc d) => let? m := Permission_from_doc d in Ok (Some m)
              | _ => Ok None
              end in
  Ok (mkPermissionBounds max min).

(** ** Lemmas *)

Lemma ordering_value_inj p q :
  Permission_wf p -> Permission_wf q -> ordering_value p = ordering_value q -> p = q.
Proof. destruct p, q; simpl; ranges; intros; try lia; f_equal; lia. Qed.

Lemma Permission_leb_le p q : Permission_leb p q = true <-> ordering_value p <= ordering_value q.
Proof. unfold Permission_leb, Permission_cmp. destruct (Z.compare_spec (ordering_value p) (ordering_value q)); naive_solver lia. Qed.

Lemma Permission_ltb_lt p q : Permission_ltb p q = true <-> ordering_value p < ordering_value q.
Proof. unfold Permission_ltb, Permission_cmp. destruct (Z.compare_spec (ordering_value p) (ordering_value q)); naive_solver lia. Qed.

Lemma Permission_ltb_ge p q : Permission_ltb p q = false <-> ordering_value q <= ordering_value p.
Proof. rewrite <- not_true_iff_false, Permission_ltb_lt. lia. Qed.

Lemma Permission_leb_gt p q : Permission_leb p q = false <-> ordering_value q < ordering_value p.
Proof. rewrite <- not_true_iff_false, Permission_leb_le. lia. Qed.

(** Case analysis on every comparison of permissions in the goal. *)
Ltac permission_cases :=
  repeat match goal with
  | |- context [Permission_ltb ?p ?q] =>
      let E := fresh "E" in destruct (Permission_ltb p q) eqn:E;
      [apply Permission_ltb_lt in E|apply Permission_ltb_ge in E]
  | |- context [Permission_leb ?p ?q] =>
      let E := fresh "E" in destruct (Permission_leb p q) eqn:E;
      [apply Permission_leb_le in E|apply Permission_leb_gt in E]
  end.

Lemma clamp_permission_max p b : ordering_value (clamp_permission p b) <= ordering_value (bound_max b).
Proof.
  unfold clamp_permission, validate_permission_bounds. destruct (bound_min b) as [m|]; simpl;
    permission_cases; simpl; permission_cases; lia.
Qed.

Lemma clamp_permission_min p b m :
  bound_min b = Some m -> validate_permission_bounds b = true ->
  ordering_value m <= ordering_value (clamp_permission p b).
Proof.
  unfold clamp_permission, validate_permission_bounds. intros ->.
  permission_cases; simpl; permission_cases; (done || lia).
Qed.

Lemma clamp_permission_wf p b :
  Permission_wf p -> PermissionBounds_wf b -> Permission_wf (clamp_permission p b).
Proof.
  intros Hp [Hmax Hmin]. unfold clamp_permission. destruct (bound_min b); simpl;
    repeat case_match; done.
Qed.

Lemma colon_split kind z :
  str_contains colon kind = false ->
  str_split colon (kind +:+ String colon (uint_to_string z)) = [kind; uint_to_string z].
Proof.
  intros Hk. rewrite str_split_app by done. by rewrite str_split_none by apply uint_to_string_no_colon.
Qed.

Lemma Permission_from_to_string `{CidSpec} p :
  Permission_wf p -> Permission_from_string (Permission_to_string p) = Ok p.
Proof.
  destruct p as [n|n|]; intros Hp; simpl in Hp; unfold Permission_from_string, Permission_to_string.
  - change ("admin:" +:+ uint_to_string n) with ("admin" +:+ String colon (uint_to_string n)).
    rewrite colon_split by done. unfold parse_priority. simpl.
    by rewrite parse_uint_to_string by (ranges; lia).
  - change ("write:" +:+ uint_to_string n) with ("write" +:+ String colon (uint_to_string n)).
    rewrite colon_split by done. unfold parse_priority. simpl.
    by rewrite parse_uint_to_string by (ranges; lia).
  - done.
Qed.

Lemma as_u32_as_i64 z : is_u32 z = true -> as_u32 (as_i64 z) = z.
Proof. intros Hz. rewrite as_i64_id by (ranges; lia). by apply as_u32_id. Qed.

Lemma Permission_from_to_doc `{CidSpec} p :
  Permission_wf p -> Permission_from_doc (Permission_to_doc p) = Ok p.
Proof.
  destruct p as [n|n|]; intros Hp; simpl in Hp; [| |done].
  - change (Ok (Admin (as_u32 (as_i64 n))) = @Ok _ Error (Admin n)). by rewrite as_u32_as_i64.
  - change (Ok (Write (as_u32 (as_i64 n))) = @Ok _ Error (Write n)). by rewrite as_u32_as_i64.
Qed.

Lemma PermissionBounds_from_to_doc `{CidSpec} b :
  PermissionBounds_wf b -> PermissionBounds_from_doc (PermissionBounds_to_doc b) = Ok b.
Proof.
  destruct b as [mx [mn|]]; intros [Hx Hn]; simpl in Hx, Hn; unfold PermissionBounds_from_doc.
  - change (Doc_get (PermissionBounds_to_doc (mkPermissionBounds mx (Some mn))) "max")
      with (Some (VDoc (Permission_to_doc mx))).
    change (Doc_get (PermissionBounds_to_doc (mkPermissionBounds mx (Some mn))) "min")
      with (Some (VDoc (Permission_to_doc mn))).
    cbn [result_bind]. rewrite Permission_from_to_doc by done. cbn [result_bind].
    by rewrite Permission_from_to_doc by done.
  - change (Doc_get (PermissionBounds_to_doc (mkPermissionBounds mx None)) "max")
      with (Some (VDoc (Permission_to_doc mx))).
    change (Doc_get (PermissionBounds_to_doc (mkPermissionBounds mx None)) "min") with (@None Value).
    cbn [result_bind]. by rewrite Permission_from_to_doc.
Qed.

(** ** Properties *)

(** Permissions are linearly ordered, [Read] below every [Write] below
    every [Admin], and within a level a lower priority number ranks higher;
    the [u64] arithmetic of the order neither overflows nor confuses two
    permissions. *)
Theorem Permission_order p q n m :
  Permission_wf p -> Permission_wf q -> is_u32 n = true -> is_u32 m = true ->
  is_u64 (ordering_value p) = true
  /\ (Permission_cmp p q = Eq <-> p = q)
  /\ Permission_cmp q p = CompOpp (Permission_cmp p q)
  /\ Permission_cmp Read (Write n) = Lt /\ Permission_cmp (Write n) (Admin m) = Lt
  /\ Permission_cmp (Write n) (Write m) = (m ?= n)
  /\ Permission_cmp (Admin n) (Admin m) = (m ?= n)
  /\ (Permission_leb p q = true -> can_write p = true -> can_write q = true)
  /\ (Permission_leb p q = true -> can_admin p = true -> can_admin q = true).
Proof.
  intros Hp Hq Hn Hm. split; [destruct p; simpl in *; ranges; lia|].
  unfold Permission_cmp. split.
  { rewrite Z.compare_eq_iff. split; [by apply ordering_value_inj|by intros ->]. }
  split; [apply Z.compare_antisym|].
  do 2 (split; [rewrite Z.compare_lt_iff; simpl; ranges; lia|]).
  do 2 (split; [simpl; destruct (Z.compare_spec m n); [apply Z.compare_eq_iff|
    apply Z.compare_lt_iff|apply Z.compare_gt_iff]; lia|]).
  rewrite Permission_leb_le. destruct p, q; simpl in *; ranges; split; try done; lia.
Qed.

Lemma Permission_order_witness : Permission_cmp (Write 0) (Admin u32_max) = Lt.
Proof. by destruct (Permission_order (Write 3) Read 0 u32_max) as (_ & _ & _ & _ & H & _). Defined.

(** Clamping a delegated permission keeps it at or below the maximum on
    every input, raises it to the minimum when the bounds are consistent,
    leaves it alone inside the bounds, and never raises it beyond the larger of
    itself and the minimum; it is monotone in the permission. *)
Theorem clamp_permission_spec p q b :
  Permission_leb (clamp_permission p b) (bound_max b) = true
  /\ (validate_permission_bounds b = true ->
      forall m, bound_min b = Some m -> Permission_leb m (clamp_permission p b) = true)
  /\ (Permission_leb p (bound_max b) = true ->
      (forall m, bound_min b = Some m -> Permission_leb m p = true) -> clamp_permission p b = p)
  /\ (clamp_permission p b = p \/ clamp_permission p b = bound_max b
      \/ bound_min b = Some (clamp_permission p b))
  /\ (Permission_leb p q = true ->
      Permission_leb (clamp_permission p b) (clamp_permission q b) = true).
Proof.
  rewrite !Permission_leb_le. split; [apply clamp_permission_max|].
  split; [intros Hb m Hm; rewrite Permission_leb_le; by eapply clamp_permission_min|].
  split.
  { unfold clamp_permission, validate_permission_bounds. destruct (bound_min b) as [m|].
    - intros Hp Hm. specialize (Hm m eq_refl). rewrite Permission_leb_le in Hm.
      permission_cases; simpl; permission_cases; (done || lia).
    - simpl. intros Hp _. permission_cases; (done || lia). }
  unfold clamp_permission, validate_permission_bounds. destruct (bound_min b) as [m|]; simpl;
    permission_cases; simpl; permission_cases; split; auto; lia.
Qed.

Lemma clamp_permission_spec_witness :
  Permission_leb (Write 5) (clamp_permission Read (mkPermissionBounds (Admin 0) (Some (Write 5))))
  = true.
Proof.
  destruct (clamp_permission_spec Read Read (mkPermissionBounds (Admin 0) (Some (Write 5))))
    as (_ & H & _). by apply H.
Defined.

(** Permissions, bounds and key statuses survive their text and document
    forms. *)
Theorem Permission_roundtrips `{CidSpec} p b s :
  Permission_wf p -> PermissionBounds_wf b ->
  Permission_from_string (Permission_to_string p) = Ok p
  /\ KeyStatus_from_string (KeyStatus_to_string s) = Ok s
  /\ Permission_from_doc (Permission_to_doc p) = Ok p
  /\ PermissionBounds_from_doc (PermissionBounds_to_doc b) = Ok b.
Proof.
  intros Hp Hb. split; [by apply Permission_from_to_string|]. split; [by destruct s|].
  split; [by apply Permission_from_to_doc|by apply PermissionBounds_from_to_doc].
Qed.

Lemma Permission_roundtrips_witness :
  @Permission_from_string nat_cid (Permission_to_string (Write 42)) = Ok (Write 42).
Proof.
  by apply (@Permission_roundtrips nat_cid (Write 42) PermissionBounds_default Active).
Defined.

(** [TryFrom<String>] reads any text that starts with the piece [read] as
    [Read], whatever follows the colon. *)
Theorem Permission_read_suffix `{CidSpec} s :
  Permission_from_string ("read:" +:+ s) = Ok Read.
Proof. done. Qed.
