(* ===== verification/AuthTypes.v ===== *)
(** * Authentication data (auth/types/keys.rs, auth/types/delegation.rs)

    Keys as stored in a database's settings, the hints by which a signature
    names its key, delegation paths and references to delegated trees, with
    their document forms. *)

From S2P Require Import Prelude.
From S2P Require Import Path.
From S2P Require Import Position.
From S2P Require Import Ids.
From S2P Require Import Doc.
From S2P Require Import DocPath.
From S2P Require Import Errors.
From S2P Require Import Crypto.
From S2P Require Import Permission.

Record AuthKey : Type := mkAuthKey {
  key_name : option string;
  key_permissions : Permission;
  key_status : KeyStatus;
}.

Definition AuthKey_wf (k : AuthKey) : Prop := Permission_wf (key_permissions k).

Definition AuthKey_new (name : option string) (permissions : Permission) (status : KeyStatus) :
    AuthKey := mkAuthKey name permissions status.

Definition AuthKey_active (name : option string) (permissions : Permission) : AuthKey :=
  AuthKey_new name permissions Active.

Definition is_active (k : AuthKey) : bool := bool_decide (key_status k = Active).

Definition set_status (k : AuthKey) (status : KeyStatus) : AuthKey :=
  mkAuthKey (key_name k) (key_permissions k) status.

Definition set_permissions (k : AuthKey) (permissions : Permission) : AuthKey :=
  mkAuthKey (key_name k) permissions (key_status k).

Definition set_name (k : AuthKey) (name : option string) : AuthKey :=
  mkAuthKey name (key_permissions k) (key_status k).

(** The document of a key is atomic: a merge never mixes two versions of it. *)
Definition AuthKey_to_doc (k : AuthKey) : Doc :=
  let doc := Doc_atomic in
  let doc := match key_name k with Some name => set_key doc "name" (Text name) | None => doc end in
  let doc := set_key doc "permissions" (VDoc (Permission_to_doc (key_permissions k))) in
  set_key doc "status"
    (Text (match key_status k with Active => "Active" | Revoked => "Revoked" end)).

Definition AuthKey_from_doc `{CidSpec} (doc : Doc) : Result AuthKey Error :=
  let name := get_as (T := string) doc "name" in
  let? perm_doc := match Doc_get doc "permissions" with
                   | Some (VDoc d) => Ok d
                   | _ => Err (ECRDT (ElementNotFound "permissions"))
                   end in
  let? permissions := Permission_from_doc perm_doc in
  let? status_str :=
    ok_or (get_as (T := string) doc "status") (ECRDT (ElementNotFound "status")) in
  let? status := if decide (status_str = "Active") then Ok Active
                 else if decide (status_str = "Revoked") then Ok Revoked
                 else Err (ECRDT DeserializationFailed) in
  Ok (mkAuthKey name permissions status).

Section auth_types.
Context `{CS : CidSpec} `{KS : CryptoSpec}.

Record DelegationStep : Type := mkDelegationStep {
  step_tree : ID;
  step_tips : list ID;
}.

Record KeyHint : Type := mkKeyHint {
  hint_pubkey : option PublicKey;
  hint_name : option string;
  hint_is_global : bool;
}.

Definition KeyHint_default : KeyHint := mkKeyHint None None false.
Definition KeyHint_from_pubkey (pubkey : PublicKey) : KeyHint := mkKeyHint (Some pubkey) None false.
Definition KeyHint_from_name (name : string) : KeyHint := mkKeyHint None (Some name) false.
Definition KeyHint_global (actual_pubkey : PublicKey) : KeyHint :=
  mkKeyHint (Some actual_pubkey) None true.

Definition is_some {A} (o : option A) : bool := match o with Some _ => true | None => false end.

Definition hint_is_set (h : KeyHint) : bool :=
  is_some (hint_pubkey h) || is_some (hint_name h) || (hint_is_global h && is_some (hint_pubkey h)).

Definition hint_type (h : KeyHint) : string :=
  if hint_is_global h && is_some (hint_pubkey h) then "global"
  else if is_some (hint_pubkey h) then "pubkey"
  else if is_some (hint_name h) then "name"
  else "none".

Inductive SigKey : Type :=
| Direct (hint : KeyHint)
| Delegation (path : list DelegationStep) (hint : KeyHint).

#[export] Instance delegation_step_eq_dec : EqDecision DelegationStep.
Proof. solve_decision. Defined.

#[export] Instance key_hint_eq_dec : EqDecision KeyHint.
Proof. solve_decision. Defined.

#[export] Instance sig_key_eq_dec : EqDecision SigKey.
Proof. solve_decision. Defined.

Definition SigKey_default : SigKey := Direct KeyHint_default.
Definition SigKey_from_pubkey (pubkey : PublicKey) : SigKey := Direct (KeyHint_from_pubkey pubkey).
Definition SigKey_from_name (name : string) : SigKey := Direct (KeyHint_from_name name).
Definition SigKey_global (pubkey : PublicKey) : SigKey := Direct (KeyHint_global pubkey).

Definition SigKey_hint (k : SigKey) : KeyHint :=
  match k with Direct hint => hint | Delegation _ hint => hint end.

Definition SigKey_is_global (k : SigKey) : bool := hint_is_global (SigKey_hint k).

Definition display_id (k : SigKey) : string :=
  let hint := SigKey_hint k in
  if hint_is_global hint then "*"
  else match hint_pubkey hint with
       | Some pubkey => PublicKey_to_string pubkey
       | None => match hint_name hint with Some name => name | None => "unknown" end
       end.

Definition has_pubkey_hint (k : SigKey) (pubkey : PublicKey) : bool :=
  bool_decide (hint_pubkey (SigKey_hint k) = Some pubkey).

Definition has_name_hint (k : SigKey) (name : string) : bool :=
  bool_decide (hint_name (SigKey_hint k) = Some name).

Record SigInfo : Type := mkSigInfo {
  sig_sig : option string;
  sig_key : SigKey;
}.

Definition SigInfo_default : SigInfo := mkSigInfo None SigKey_default.
Definition SigInfo_from_pubkey (pubkey : PublicKey) : SigInfo :=
  mkSigInfo None (SigKey_from_pubkey pubkey).
Definition SigInfo_from_name (name : string) : SigInfo := mkSigInfo None (SigKey_from_name name).
Definition SigInfo_global (pubkey : PublicKey) : SigInfo := mkSigInfo None (SigKey_global pubkey).

Definition is_unsigned (s : SigInfo) : bool :=
  match sig_key s with Direct hint => negb (hint_is_set hint) | Delegation _ _ => false end
  && negb (is_some (sig_sig s)).

Definition malformed_reason (s : SigInfo) : option string :=
  match sig_key s with
  | Direct hint =>
      if hint_is_set hint && negb (is_some (sig_sig s)) then
        Some "entry has key hint but no signature"
      else if negb (hint_is_set hint) && is_some (sig_sig s) then
        Some "entry has signature but no key hint"
      else None
  | Delegation _ _ =>
      if negb (is_some (sig_sig s)) then Some "delegation entry requires a signature" else None
  end.

Record ResolvedAuth : Type := mkResolvedAuth {
  ra_public_key : PublicKey;
  ra_effective_permission : Permission;
  ra_key_status : KeyStatus;
}.

Definition grants_access (r : ResolvedAuth) : bool := bool_decide (ra_key_status r = Active).

(** ** References to delegated trees *)

Record TreeReference : Type := mkTreeReference {
  tr_root : ID;
  tr_tips : list ID;
}.

Record DelegatedTreeRef : Type := mkDelegatedTreeRef {
  dt_permission_bounds : PermissionBounds;
  dt_tree : TreeReference;
}.

(** The tips under their decimal indices. *)
Definition tips_to_doc (tips : list ID) : Doc :=
  foldl (fun d '(i, tip) => set_key d (uint_to_string (Z.of_nat i)) (Text (ID_to_string tip)))
    Doc_new (imap pair tips).

Definition TreeReference_to_doc (t : TreeReference) : Doc :=
  let doc := set_key Doc_new "root" (Text (ID_to_string (tr_root t))) in
  set_key doc "tips" (VDoc (tips_to_doc (tr_tips t))).

(** [tips_doc.iter().filter_map(..)]: the entries with a numeric key and a
    text value, in the map's order. *)
Definition indexed_tips (tips_doc : Doc) : list (Z * string) :=
  omap (fun '(k, v) => idx ← parse_uint u64_max k; s ← as_text v; Some (idx, s))
    (map_to_list (Doc_iter tips_doc)).

Definition idx_leb (a b : Z * string) : bool := a.1 <=? b.1.

Definition TreeReference_from_doc (doc : Doc) : Result TreeReference Error :=
  let? root_str := ok_or (get_as (T := string) doc "root") (ECRDT (ElementNotFound "root")) in
  let? root := map_err EId (ID_parse root_str) in
  let? tips := match Doc_get doc "tips" with
               | Some (VDoc tips_doc) =>
                   result_collect ((fun e => map_err EId (ID_parse e.2)) <$>
                     sort_by idx_leb (indexed_tips tips_doc))
               | _ => Ok []
               end in
  Ok (mkTreeReference root tips).

Definition DelegatedTreeRef_to_doc (d : DelegatedTreeRef) : Doc :=
  let doc := set_key Doc_atomic "permission_bounds"
    (VDoc (PermissionBounds_to_doc (dt_permission_bounds d))) in
  set_key doc "tree" (VDoc (TreeReference_to_doc (dt_tree d))).

Definition DelegatedTreeRef_from_doc (doc : Doc) : Result DelegatedTreeRef Error :=
  let? pb_doc := match Doc_get doc "permission_bounds" with
                 | Some (VDoc d) => Ok d
                 | _ => Err (ECRDT (ElementNotFound "permission_bounds"))
                 end in
  let? permission_bounds := PermissionBounds_from_doc pb_doc in
  let? tree_doc := match Doc_get doc "tree" with
                   | Some (VDoc d) => Ok d
                   | _ => Err (ECRDT (ElementNotFound "tree"))
                   end in
  let? tree := TreeReference_from_doc tree_doc in
  Ok (mkDelegatedTreeRef permission_bounds tree).

Definition DelegatedTreeRef_wf (d : DelegatedTreeRef) : Prop :=
  PermissionBounds_wf (dt_permission_bounds d)
  /\ Z.of_nat (length (tr_tips (dt_tree d))) <= u64_max.

(** ** Lemmas *)

Lemma set_key_plain d k v : str_contains dot k = false -> set_key d k v = with_child d k v.
Proof. intros H. unfold set_key, Doc_set. by rewrite H. Qed.

Lemma AuthKey_from_to_doc k : AuthKey_wf k -> AuthKey_from_doc (AuthKey_to_doc k) = Ok k.
Proof.
  destruct k as [n p s]. intros Hp. unfold AuthKey_from_doc.
  assert (Doc_get (AuthKey_to_doc (mkAuthKey n p s)) "permissions" = Some (VDoc (Permission_to_doc p)))
    as -> by (by destruct n).
  cbn [result_bind]. rewrite Permission_from_to_doc by done. cbn [result_bind].
  by destruct n, s.
Qed.

(** The entries of a tips document: index text and tip text. *)
Definition tip_entry (i : nat) (tip : ID) : string * Value :=
  (uint_to_string (Z.of_nat i), Text (ID_to_string tip)).

Lemma foldl_insert (l : list (string * Value)) (m : gmap string Value) :
  NoDup l.*1 -> foldl (fun m '(k, v) => <[k := v]> m) m l = list_to_map l ∪ m.
Proof.
  revert m. induction l as [|[k v] l IH]; intros m Hnd; simpl; [by rewrite map_empty_union|].
  inversion_clear Hnd as [|?? Hk Hnd']. rewrite IH by done.
  rewrite <- insert_union_r by (by apply not_elem_of_list_to_map). by rewrite insert_union_l.
Qed.

Lemma tip_entries_NoDup tips : NoDup (imap tip_entry tips).*1.
Proof.
  rewrite fmap_imap.
  change (NoDup (imap (fun j (_ : ID) => uint_to_string (Z.of_nat j)) tips)).
  rewrite imap_seq_0. apply NoDup_fmap_2; [|apply NoDup_seq].
  intros i j H. apply uint_to_string_inj in H; lia.
Qed.

Lemma tips_to_doc_children tips :
  children (tips_to_doc tips) = list_to_map (imap tip_entry tips).
Proof.
  rewrite <- (right_id_L ∅ (∪) (list_to_map (imap tip_entry tips))).
  rewrite <- foldl_insert by apply tip_entries_NoDup.
  unfold tips_to_doc. change ∅ with (children Doc_new). generalize Doc_new.
  assert (imap tip_entry tips = (fun it => tip_entry it.1 it.2) <$> imap pair tips) as ->
    by (by rewrite fmap_imap).
  induction (imap pair tips) as [|[i tip] l IH]; intros d; simpl; [done|].
  rewrite set_key_plain by apply uint_to_string_no_dot. by rewrite IH.
Qed.

Lemma indexed_tips_perm tips :
  Z.of_nat (length tips) <= u64_max ->
  indexed_tips (tips_to_doc tips) ≡ₚ imap (fun i tip => (Z.of_nat i, ID_to_string tip)) tips.
Proof.
  intros Hlen. unfold indexed_tips, Doc_iter. rewrite tips_to_doc_children.
  rewrite map_filter_id.
  2: { intros k v Hk%elem_of_list_to_map_2.
       apply elem_of_lookup_imap in Hk as (i & tip & [= -> ->] & _). done. }
  rewrite map_to_list_to_map by apply tip_entries_NoDup.
  assert (forall f : nat -> nat, (forall i, (i < length tips)%nat -> Z.of_nat (f i) <= u64_max) ->
    omap (fun '(k, v) => idx ← parse_uint u64_max k; s ← as_text v; Some (idx, s))
      (imap (fun i => tip_entry (f i)) tips)
    = imap (fun i tip => (Z.of_nat (f i), ID_to_string tip)) tips) as H.
  { clear Hlen. induction tips as [|tip tips IH]; intros f Hf; [done|].
    rewrite !imap_cons. simpl. rewrite parse_uint_to_string by (specialize (Hf 0%nat); simpl in Hf; lia).
    simpl. f_equal. apply (IH (fun i => f (S i))). intros i Hi. apply Hf. simpl. lia. }
  rewrite <- (H (fun i => i)); [done|]. intros i Hi. lia.
Qed.

Lemma sort_indexed (l : list (Z * string)) (ts : list string) :
  l ≡ₚ imap (fun i s => (Z.of_nat i, s)) ts ->
  sort_by idx_leb l = imap (fun i s => (Z.of_nat i, s)) ts.
Proof.
  intros Hp. set (R := fun a b : Z * string => idx_leb a b = true).
  assert (Transitive R) by (intros a b c; unfold R, idx_leb; lia).
  apply (StronglySorted_unique_strong R).
  - intros a b Ha Hb Hab Hba. rewrite elem_of_sort_by, Hp in Ha.
    apply elem_of_lookup_imap in Ha as (i & s & -> & Hi), Hb as (j & t & -> & Hj).
    unfold R, idx_leb in *. simpl in *. assert (i = j) as -> by lia. congruence.
  - apply Sorted_StronglySorted; [done|]. apply sort_by_sorted. intros a b. unfold idx_leb. lia.
  - assert (forall f : nat -> Z, (forall i j, (i <= j)%nat -> f i <= f j) ->
      StronglySorted R (imap (fun i s => (f i, s)) ts)) as H0.
    { clear. induction ts as [|t ts IH]; intros f Hf; [constructor|]. rewrite imap_cons.
      constructor; [apply (IH (fun i => f (S i))); intros i j Hij; apply Hf; lia|].
      apply Forall_forall. intros b (i & u & -> & _)%elem_of_lookup_imap.
      unfold R, idx_leb. apply Z.leb_le, Hf. lia. }
    apply (H0 Z.of_nat). lia.
  - by rewrite sort_by_perm.
Qed.

Lemma TreeReference_from_to_doc t :
  Z.of_nat (length (tr_tips t)) <= u64_max ->
  TreeReference_from_doc (TreeReference_to_doc t) = Ok t.
Proof.
  destruct t as [root tips]. simpl. intros Hlen. unfold TreeReference_from_doc.
  change (get_as (T := string) (TreeReference_to_doc (mkTreeReference root tips)) "root")
    with (Some (ID_to_string root)).
  cbn [ok_or result_bind]. rewrite ID_parse_to_string_ok. cbn [map_err result_bind].
  change (Doc_get (TreeReference_to_doc (mkTreeReference root tips)) "tips")
    with (Some (VDoc (tips_to_doc tips))). cbn iota.
  rewrite (sort_indexed _ (ID_to_string <$> tips)).
  - erewrite (proj2 (result_collect_ok _ _ _)); [done|]. rewrite imap_fmap.
    apply Forall2_same_length_lookup_2; [by rewrite length_imap|].
    intros i x y. rewrite list_lookup_imap. intros (tip & Hi & ->)%fmap_Some Hy. simpl.
    rewrite ID_parse_to_string_ok. simpl. congruence.
  - rewrite imap_fmap. by apply indexed_tips_perm.
Qed.

Lemma DelegatedTreeRef_from_to_doc d :
  DelegatedTreeRef_wf d -> DelegatedTreeRef_from_doc (DelegatedTreeRef_to_doc d) = Ok d.
Proof.
  destruct d as [b t]. intros [Hb Hlen]. simpl in *. unfold DelegatedTreeRef_from_doc.
  change (Doc_get (DelegatedTreeRef_to_doc (mkDelegatedTreeRef b t)) "permission_bounds")
    with (Some (VDoc (PermissionBounds_to_doc b))). cbn [result_bind].
  rewrite PermissionBounds_from_to_doc by done. cbn [result_bind].
  change (Doc_get (DelegatedTreeRef_to_doc (mkDelegatedTreeRef b t)) "tree")
    with (Some (VDoc (TreeReference_to_doc t))). cbn [result_bind].
  by rewrite TreeReference_from_to_doc.
Qed.

(** ** Properties *)

(** The stored forms of keys and delegations read back: an [AuthKey] and a
    [DelegatedTreeRef] are recovered from their documents, the tips in order
    however the map lists them, and both documents are atomic, so that a merge
    takes one version or the other whole. *)
Theorem auth_docs_roundtrip k d :
  AuthKey_wf k -> DelegatedTreeRef_wf d ->
  AuthKey_from_doc (AuthKey_to_doc k) = Ok k
  /\ DelegatedTreeRef_from_doc (DelegatedTreeRef_to_doc d) = Ok d
  /\ (forall e, Doc_merge e (AuthKey_to_doc k) = AuthKey_to_doc k)
  /\ (forall e, Doc_merge e (DelegatedTreeRef_to_doc d) = DelegatedTreeRef_to_doc d).
Proof.
  intros Hk Hd. split; [by apply AuthKey_from_to_doc|].
  split; [by apply DelegatedTreeRef_from_to_doc|].
  split; intros e; [|done]. destruct k as [[] p s]; done.
Qed.

(** How a signature block is classified: an unsigned block has neither a
    key hint nor a signature and is never malformed; a block that is neither
    unsigned nor malformed carries a signature, and a hint unless it is a
    delegation. *)
Theorem SigInfo_classification s :
  (is_unsigned s = true -> malformed_reason s = None)
  /\ (is_unsigned s = false -> malformed_reason s = None ->
      sig_sig s <> None
      /\ match sig_key s with Direct hint => hint_is_set hint = true | Delegation _ _ => True end).
Proof.
  destruct s as [[sig|] [h|path h]]; unfold is_unsigned, malformed_reason; simpl;
    destruct (hint_is_set h); done.
Qed.
End auth_types.

Lemma auth_docs_roundtrip_witness :
  @AuthKey_from_doc nat_cid (AuthKey_to_doc (AuthKey_active (Some "k") (Write 7)))
  = Ok (AuthKey_active (Some "k") (Write 7)).
Proof.
  destruct (@auth_docs_roundtrip nat_cid (AuthKey_active (Some "k") (Write 7))
    (mkDelegatedTreeRef PermissionBounds_default (mkTreeReference ID_default [ID_default])))
    as (H & _); [done| |exact H].
  split; [done|]. unfold u64_max. simpl. lia.
Defined.

Lemma SigInfo_classification_witness :
  @malformed_reason nat_cid byte_crypto SigInfo_default = None.
Proof. by apply (@SigInfo_classification nat_cid byte_crypto SigInfo_default). Defined.
