(* ===== verification/AuthSettings.v ===== *)
(** * Authentication settings (auth/settings.rs)

    The keys, delegations and global permission of a database, stored in a
    document under [keys.<pubkey>], [delegations.<root>] and [global]. *)

From S2P Require Import Prelude.
From S2P Require Import Path.
From S2P Require Import Position.
From S2P Require Import Ids.
From S2P Require Import Doc.
From S2P Require Import DocPath.
From S2P Require Import Errors.
From S2P Require Import Crypto.
From S2P Require Import Permission.
From S2P Require Import AuthTypes.

Section auth_settings.
Context `{CS : CidSpec} `{KS : CryptoSpec}.

Record AuthSettings : Type := mkAuthSettings { inner : Doc }.

Definition AuthSettings_new : AuthSettings := mkAuthSettings Doc_new.

(** ** Keys *)

Definition keys_path (pubkey : string) : string := "keys." +:+ pubkey.

Definition get_key_by_str (s : AuthSettings) (pubkey : string) : Result AuthKey Error :=
  match Doc_get (inner s) (keys_path pubkey) with
  | Some (VDoc doc) => map_err (fun _ => EAuth InvalidKeyFormat) (AuthKey_from_doc doc)
  | Some _ => Err (EAuth InvalidKeyFormat)
  | None => Err (EAuth (KeyNotFound pubkey))
  end.

Definition get_key_by_pubkey (s : AuthSettings) (pubkey : PublicKey) : Result AuthKey Error :=
  get_key_by_str s (PublicKey_to_string pubkey).

Definition put_key (s : AuthSettings) (pubkey_str : string) (key : AuthKey) : AuthSettings :=
  mkAuthSettings (set_key (inner s) (keys_path pubkey_str) (VDoc (AuthKey_to_doc key))).

Definition add_key (s : AuthSettings) (pubkey : PublicKey) (key : AuthKey) :
    Result AuthSettings Error :=
  let pubkey_str := PublicKey_to_string pubkey in
  if is_ok (get_key_by_str s pubkey_str) then Err (EAuth (KeyAlreadyExists pubkey_str))
  else Ok (put_key s pubkey_str key).

Definition overwrite_key (s : AuthSettings) (pubkey : PublicKey) (key : AuthKey) :
    Result AuthSettings Error :=
  Ok (put_key s (PublicKey_to_string pubkey) key).

(** [get_all_keys]: entries that are not well-formed keys are skipped. *)
Definition get_all_keys (s : AuthSettings) : gmap string AuthKey :=
  match Doc_get (inner s) "keys" with
  | Some (VDoc keys_doc) =>
      omap (fun v => match v with
                     | VDoc key_doc => result_ok (AuthKey_from_doc key_doc)
                     | _ => None
                     end) (Doc_iter keys_doc)
  | _ => ∅
  end.

Definition find_keys_by_name (s : AuthSettings) (name : string) : list (string * AuthKey) :=
  sort_by (fun a b => cmp_leb String.compare a.1 b.1)
    (filter (fun e => key_name e.2 = Some name) (map_to_list (get_all_keys s))).

Definition rename_key (s : AuthSettings) (pubkey : PublicKey) (name : option string) :
    Result AuthSettings Error :=
  let pubkey_str := PublicKey_to_string pubkey in
  let? auth_key := get_key_by_str s pubkey_str in
  Ok (put_key s pubkey_str (set_name auth_key name)).

Definition revoke_key (s : AuthSettings) (pubkey : PublicKey) : Result AuthSettings Error :=
  let pubkey_str := PublicKey_to_string pubkey in
  let? auth_key := get_key_by_str s pubkey_str in
  Ok (put_key s pubkey_str (set_status auth_key Revoked)).

(** ** Delegations *)

Definition delegations_path (root : ID) : string := "delegations." +:+ ID_to_string root.

Definition add_delegated_tree (s : AuthSettings) (tree_ref : DelegatedTreeRef) :
    Result AuthSettings Error :=
  Ok (mkAuthSettings (set_key (inner s) (delegations_path (tr_root (dt_tree tree_ref)))
    (VDoc (DelegatedTreeRef_to_doc tree_ref)))).

Definition get_delegated_tree (s : AuthSettings) (root_id : ID) : Result DelegatedTreeRef Error :=
  match Doc_get (inner s) (delegations_path root_id) with
  | Some (VDoc doc) =>
      map_err (fun _ => EAuth InvalidAuthConfiguration) (DelegatedTreeRef_from_doc doc)
  | Some _ => Err (EAuth InvalidAuthConfiguration)
  | None => Err (EAuth (DelegationNotFound root_id))
  end.

(** [get_all_delegated_trees], over the map's entries in some order; a root
    that does not parse ends the loop with an error. *)
Fixpoint collect_delegations (l : list (string * Value)) (result : gmap ID DelegatedTreeRef) :
    Result (gmap ID DelegatedTreeRef) Error :=
  match l with
  | [] => Ok result
  | (root_id_str, value) :: rest =>
      match value with
      | VDoc doc =>
          match DelegatedTreeRef_from_doc doc with
          | Ok tree_ref =>
              let? root_id := map_err EId (ID_parse root_id_str) in
              collect_delegations rest (<[root_id := tree_ref]> result)
          | Err _ => collect_delegations rest result
          end
      | _ => collect_delegations rest result
      end
  end.

Definition get_all_delegated_trees (s : AuthSettings) : Result (gmap ID DelegatedTreeRef) Error :=
  match Doc_get (inner s) "delegations" with
  | Some (VDoc delegations_doc) => collect_delegations (map_to_list (Doc_iter delegations_doc)) ∅
  | _ => Ok ∅
  end.

(** ** Global permission *)

Definition set_global_permission (s : AuthSettings) (key : AuthKey) : AuthSettings :=
  mkAuthSettings (set_key (inner s) "global" (VDoc (AuthKey_to_doc key))).

Definition get_global_key (s : AuthSettings) : Result AuthKey Error :=
  match Doc_get (inner s) "global" with
  | Some (VDoc doc) => map_err (fun _ => EAuth InvalidKeyFormat) (AuthKey_from_doc doc)
  | Some _ => Err (EAuth InvalidKeyFormat)
  | None => Err (EAuth (KeyNotFound "global"))
  end.

(** ** Hint resolution *)

Definition resolve_hint (s : AuthSettings) (hint : KeyHint) : Result (list ResolvedAuth) Error :=
  if hint_is_global hint then
    let? global_key := map_err (fun _ => EAuth InvalidAuthConfiguration) (get_global_key s) in
    let? actual_pubkey := ok_or (hint_pubkey hint) (EAuth InvalidAuthConfiguration) in
    Ok [mkResolvedAuth actual_pubkey (key_permissions global_key) (key_status global_key)]
  else match hint_pubkey hint with
  | Some pubkey =>
      match get_key_by_pubkey s pubkey with
      | Ok key => Ok [mkResolvedAuth pubkey (key_permissions key) (key_status key)]
      | Err e => Err e
      end
  | None =>
      match hint_name hint with
      | Some name =>
          match find_keys_by_name s name with
          | [] => Err (EAuth (KeyNotFound name))
          | matches =>
              result_collect ((fun e =>
                let? pk := map_err EAuth (PublicKey_from_string e.1) in
                Ok (mkResolvedAuth pk (key_permissions e.2) (key_status e.2))) <$> matches)
          end
      | None => Ok []
      end
  end.

Definition get_global_permission (s : AuthSettings) : option Permission :=
  match get_global_key s with
  | Ok key => if decide (key_status key = Active) then Some (key_permissions key) else None
  | Err _ => None
  end.

Definition has_global_permission (s : AuthSettings) : bool := is_some (get_global_permission s).

(** [sort_by_key(|b| Reverse(b.1))]: highest permission first, stable. *)
Definition find_all_sigkeys_for_pubkey (s : AuthSettings) (pubkey : PublicKey) :
    list (SigKey * Permission) :=
  let direct := match get_key_by_pubkey s pubkey with
                | Ok auth_key =>
                    if is_active auth_key then [(SigKey_from_pubkey pubkey, key_permissions auth_key)]
                    else []
                | Err _ => []
                end in
  let global := match get_global_permission s with
                | Some global_perm => [(SigKey_global pubkey, global_perm)]
                | None => []
                end in
  sort_by (fun a b => Permission_leb b.2 a.2) (direct ++ global).

Definition resolve_sig_key_for_operation (s : AuthSettings) (pubkey : PublicKey) :
    Result (SigKey * Permission) Error :=
  ok_or (head (find_all_sigkeys_for_pubkey s pubkey)) (EAuth PermissionDenied).

Definition can_modify_key (s : AuthSettings) (signing_key : ResolvedAuth) (target_pubkey : PublicKey) :
    Result bool Error :=
  if negb (can_admin (ra_effective_permission signing_key)) then Ok false
  else
    let? target_key := get_key_by_pubkey s target_pubkey in
    Ok (Permission_leb (key_permissions target_key) (ra_effective_permission signing_key)).

Definition can_create_key (s : AuthSettings) (signing_key : ResolvedAuth)
    (new_key_permissions : Permission) : Result bool Error :=
  if negb (can_admin (ra_effective_permission signing_key)) then Ok false
  else Ok (Permission_leb new_key_permissions (ra_effective_permission signing_key)).

(** ** Two-level paths *)

Lemma segments_pair k s :
  str_contains dot k = false -> k <> EmptyString -> str_contains dot s = false ->
  segments_of (k +:+ String dot s) = if str_is_empty s then [k] else [k; s].
Proof.
  intros Hk Hk' Hs. unfold segments_of.
  rewrite str_contains_app. simpl. rewrite orb_true_r.
  unfold Path_components. rewrite str_split_app, (str_split_none _ s) by done.
  rewrite filter_cons_True by (by apply str_is_empty_false).
  destruct (str_is_empty s) eqn:E.
  - by rewrite filter_cons_False by congruence.
  - by rewrite filter_cons_True.
Qed.

(** The slot [k] of a document does not hold a list, so that a second path
    segment names a key and not an index. *)
Definition slot_ok (d : Doc) (k : string) : Prop :=
  match children d !! k with Some (VList _) => False | _ => True end.

Definition sub_doc (d : Doc) (k : string) : Doc :=
  match children d !! k with Some (VDoc sub) => sub | _ => Doc_new end.

Lemma Doc_get_pair d k s :
  str_contains dot k = false -> k <> EmptyString ->
  str_contains dot s = false -> s <> EmptyString -> slot_ok d k ->
  Doc_get d (k +:+ String dot s) = hide_tombstone (children (sub_doc d k) !! s).
Proof.
  intros Hk Hk' Hs Hs' Hok. unfold Doc_get. rewrite get_raw_segments, segments_pair by done.
  apply str_is_empty_false in Hs'. rewrite Hs'. unfold raw_at, slot_ok, sub_doc in *.
  destruct (children d !! k) as [[]|]; simpl; try done.
  by destruct (children d0 !! s).
Qed.

Lemma set_key_pair d k s v :
  str_contains dot k = false -> k <> EmptyString ->
  str_contains dot s = false -> s <> EmptyString ->
  set_key d (k +:+ String dot s) v = with_child d k (VDoc (with_child (sub_doc d k) s v)).
Proof.
  intros Hk Hk' Hs Hs'. unfold set_key. rewrite Doc_set_segments, segments_pair by done.
  apply str_is_empty_false in Hs'. rewrite Hs'. simpl. unfold sub_doc. done.
Qed.

(** ** Keys *)

Definition AuthSettings_ok (s : AuthSettings) : Prop :=
  slot_ok (inner s) "keys" /\ slot_ok (inner s) "delegations".

Lemma keys_path_pair s : keys_path s = "keys" +:+ String dot s.
Proof. done. Qed.

Lemma put_key_inner s pk key :
  inner (put_key s (PublicKey_to_string pk) key) =
  with_child (inner s) "keys" (VDoc (with_child (sub_doc (inner s) "keys")
    (PublicKey_to_string pk) (VDoc (AuthKey_to_doc key)))).
Proof.
  unfold put_key. simpl. rewrite keys_path_pair.
  by apply set_key_pair; auto using PublicKey_to_string_no_dot, PublicKey_to_string_nonempty.
Qed.

Lemma get_key_children s pk :
  AuthSettings_ok s ->
  get_key_by_pubkey s pk =
  match hide_tombstone (children (sub_doc (inner s) "keys") !! PublicKey_to_string pk) with
  | Some (VDoc doc) => map_err (fun _ => EAuth InvalidKeyFormat) (AuthKey_from_doc doc)
  | Some _ => Err (EAuth InvalidKeyFormat)
  | None => Err (EAuth (KeyNotFound (PublicKey_to_string pk)))
  end.
Proof.
  intros [Hk _]. unfold get_key_by_pubkey, get_key_by_str. rewrite keys_path_pair.
  by rewrite Doc_get_pair by (auto using PublicKey_to_string_no_dot, PublicKey_to_string_nonempty).
Qed.

Lemma put_key_ok s pk key :
  AuthSettings_ok s -> AuthSettings_ok (put_key s (PublicKey_to_string pk) key).
Proof.
  unfold AuthSettings_ok, slot_ok. rewrite put_key_inner. simpl.
  rewrite lookup_insert_eq, lookup_insert_ne by done. naive_solver.
Qed.

Lemma sub_doc_keys_put s pk key :
  sub_doc (inner (put_key s (PublicKey_to_string pk) key)) "keys" =
  with_child (sub_doc (inner s) "keys") (PublicKey_to_string pk) (VDoc (AuthKey_to_doc key)).
Proof. rewrite put_key_inner. unfold sub_doc at 1. simpl. by rewrite lookup_insert_eq. Qed.

(** Storing a key: it is read back, and every other key, the delegations and
    the global permission are as before. *)
Lemma put_key_get s pk key pk' :
  AuthSettings_ok s -> AuthKey_wf key ->
  get_key_by_pubkey (put_key s (PublicKey_to_string pk) key) pk' =
  if decide (pk' = pk) then Ok key else get_key_by_pubkey s pk'.
Proof.
  intros Hok Hwf. rewrite !get_key_children, sub_doc_keys_put by auto using put_key_ok.
  simpl. case_decide as Heq.
  - subst. rewrite lookup_insert_eq. simpl. by rewrite AuthKey_from_to_doc.
  - rewrite lookup_insert_ne; [done|]. intros H. by apply Heq, PublicKey_to_string_inj.
Qed.

Lemma put_key_other s pk key path :
  str_contains dot path = false -> path <> "keys" ->
  Doc_get (inner (put_key s (PublicKey_to_string pk) key)) path = Doc_get (inner s) path.
Proof.
  intros Hd Hne. unfold Doc_get, get_raw. rewrite Hd, put_key_inner. simpl.
  by rewrite lookup_insert_ne.
Qed.

Lemma as_u32_is_u32 z : is_u32 (as_u32 z) = true.
Proof. pose proof (as_u32_range z). ranges. lia. Qed.

Lemma Permission_from_doc_wf d p : Permission_from_doc d = Ok p -> Permission_wf p.
Proof.
  unfold Permission_from_doc, result_bind. intros H. repeat case_match; simplify_eq/=;
    apply as_u32_is_u32 || done.
Qed.

Lemma AuthKey_from_doc_wf d k : AuthKey_from_doc d = Ok k -> AuthKey_wf k.
Proof.
  unfold AuthKey_from_doc, result_bind. intros H. unfold AuthKey_wf.
  destruct (Doc_get d "permissions") as [[]|]; try done.
  destruct (Permission_from_doc d0) as [p|] eqn:E; [|done].
  destruct (ok_or _ _); [|done]. repeat case_match; simplify_eq/=;
    by eapply Permission_from_doc_wf.
Qed.

Lemma get_key_wf s pk k : get_key_by_pubkey s pk = Ok k -> AuthKey_wf k.
Proof.
  unfold get_key_by_pubkey, get_key_by_str, map_err. intros H.
  repeat case_match; simplify_eq. by eapply AuthKey_from_doc_wf.
Qed.

(** What [get_key_by_pubkey] reads after a key was stored. *)
Definition key_stored (s s' : AuthSettings) (pk : PublicKey) (key : AuthKey) : Prop :=
  AuthSettings_ok s' /\ get_global_key s' = get_global_key s
  /\ forall pk', get_key_by_pubkey s' pk' =
       if decide (pk' = pk) then Ok key else get_key_by_pubkey s pk'.

Lemma put_key_stored s pk key :
  AuthSettings_ok s -> AuthKey_wf key ->
  key_stored s (put_key s (PublicKey_to_string pk) key) pk key.
Proof.
  intros Hok Hwf. split; [by apply put_key_ok|]. split; [|intros; by apply put_key_get].
  unfold get_global_key. by rewrite put_key_other.
Qed.

(** A key that is found is among all keys. *)
Lemma get_key_in_all s pk key :
  AuthSettings_ok s -> get_key_by_pubkey s pk = Ok key ->
  get_all_keys s !! PublicKey_to_string pk = Some key.
Proof.
  intros Hok. rewrite get_key_children by done. unfold get_all_keys, Doc_get, get_raw, sub_doc.
  rewrite (eq_refl : str_contains dot "keys" = false).
  destruct (children (inner s) !! "keys") as [[]|]; simpl; try done.
  intros H. rewrite lookup_omap. unfold Doc_iter.
  destruct (children _ !! PublicKey_to_string pk) as [v|] eqn:E; [|done].
  destruct v; simpl in H; try done.
  rewrite (map_lookup_filter_Some_2 _ _ _ _ E) by done. simpl.
  by destruct (AuthKey_from_doc _); simplify_eq/=.
Qed.

(** ** Properties *)

(** The key operations on well-formed settings act on the stored keys as on
    a map from public keys: [add_key] refuses an existing key and otherwise
    stores the new one, [revoke_key] and [rename_key] change just the status or
    the name of an existing key and pass on the lookup error otherwise, and no
    operation touches another key or the global permission. *)
Theorem key_operations s pk key name :
  AuthSettings_ok s -> AuthKey_wf key ->
  match get_key_by_pubkey s pk with
  | Ok old =>
      add_key s pk key = Err (EAuth (KeyAlreadyExists (PublicKey_to_string pk)))
      /\ (exists s', revoke_key s pk = Ok s' /\ key_stored s s' pk (set_status old Revoked))
      /\ (exists s', rename_key s pk name = Ok s' /\ key_stored s s' pk (set_name old name))
  | Err e =>
      (exists s', add_key s pk key = Ok s' /\ key_stored s s' pk key)
      /\ revoke_key s pk = Err e /\ rename_key s pk name = Err e
  end
  /\ exists s', overwrite_key s pk key = Ok s' /\ key_stored s s' pk key.
Proof.
  intros Hok Hwf. unfold add_key, revoke_key, rename_key, overwrite_key.
  change (get_key_by_str s (PublicKey_to_string pk)) with (get_key_by_pubkey s pk).
  destruct (get_key_by_pubkey s pk) as [old|e] eqn:E; simpl.
  - apply get_key_wf in E. split; [|eauto using put_key_stored].
    split; [done|]. split; eexists; split; try done; by apply put_key_stored.
  - split; [|eauto using put_key_stored]. split; [eauto using put_key_stored|done].
Qed.

(** The access methods found for a public key are exactly the key's own
    active entry and the active global permission; [resolve_sig_key_for_operation]
    picks one with the highest permission and fails exactly when there is none.
    A revoked key is never offered. *)
Theorem find_sigkeys_spec s pk :
  (forall k p, (k, p) ∈ find_all_sigkeys_for_pubkey s pk <->
     (k = SigKey_from_pubkey pk /\ exists key, get_key_by_pubkey s pk = Ok key
        /\ key_status key = Active /\ p = key_permissions key)
     \/ (k = SigKey_global pk /\ exists key, get_global_key s = Ok key
        /\ key_status key = Active /\ p = key_permissions key))
  /\ match resolve_sig_key_for_operation s pk with
     | Ok (k, p) => (k, p) ∈ find_all_sigkeys_for_pubkey s pk
         /\ forall k' p', (k', p') ∈ find_all_sigkeys_for_pubkey s pk -> Permission_leb p' p = true
     | Err e => e = EAuth PermissionDenied /\ find_all_sigkeys_for_pubkey s pk = []
     end.
Proof.
  assert (forall l : list (SigKey * Permission),
    Sorted (fun a b => Permission_leb b.2 a.2 = true) (sort_by (fun a b => Permission_leb b.2 a.2) l))
    as Hsorted.
  { intros l. apply (sort_by_sorted (fun a b : SigKey * Permission => Permission_leb b.2 a.2)).
    intros a b. rewrite !Permission_leb_le. lia. }
  split.
  - intros k p. unfold find_all_sigkeys_for_pubkey, get_global_permission, is_active.
    rewrite elem_of_sort_by, elem_of_app. f_equiv.
    + destruct (get_key_by_pubkey s pk) as [key|]; [|set_solver].
      case_bool_decide; set_solver.
    + destruct (get_global_key s) as [key|]; [|set_solver]. case_decide; set_solver.
  - unfold resolve_sig_key_for_operation.
    assert (Sorted (fun a b => Permission_leb b.2 a.2 = true) (find_all_sigkeys_for_pubkey s pk))
      as Hs by apply Hsorted.
    destruct (find_all_sigkeys_for_pubkey s pk) as [|[k p] l]; [done|]. simpl.
    split; [by left|]. apply Sorted_StronglySorted in Hs.
    2: { intros a b c. rewrite !Permission_leb_le. lia. }
    inversion_clear Hs as [|?? _ Hf]. rewrite Forall_forall in Hf.
    intros k' p' [[= -> ->]|Hin]%elem_of_cons; [rewrite Permission_leb_le; lia|].
    apply (Hf _ Hin).
Qed.

(** A revoked key is still found, as revoked. *)
Lemma revoked_key_lookup s s' pk :
  AuthSettings_ok s -> revoke_key s pk = Ok s' ->
  exists key, get_key_by_pubkey s' pk = Ok key /\ key_status key = Revoked.
Proof.
  intros Hok Hrev. unfold revoke_key in Hrev.
  change (get_key_by_str s (PublicKey_to_string pk)) with (get_key_by_pubkey s pk) in Hrev.
  destruct (get_key_by_pubkey s pk) as [old|] eqn:E; simplify_eq/=.
  destruct (put_key_stored s pk (set_status old Revoked)) as (_ & _ & Hget);
    [done|by eapply get_key_wf in E|].
  exists (set_status old Revoked). rewrite Hget, decide_True by done. done.
Qed.

(** Revoking a key takes away every access it gave: its hint still resolves,
    but to a key that grants no access, and no access method of its own is
    offered any more. *)
Theorem revoke_key_denies s s' pk rs :
  AuthSettings_ok s -> revoke_key s pk = Ok s' ->
  resolve_hint s' (KeyHint_from_pubkey pk) = Ok rs ->
  Forall (fun r => grants_access r = false) rs /\ rs <> []
  /\ forall p, (SigKey_from_pubkey pk, p) ∉ find_all_sigkeys_for_pubkey s' pk.
Proof.
  intros Hok Hrev. destruct (revoked_key_lookup s s' pk Hok Hrev) as (key & Hget & Hst).
  unfold resolve_hint. simpl. rewrite Hget. intros [= <-].
  split; [repeat constructor; unfold grants_access; simpl; by rewrite Hst|]. split; [done|]. intros p.
  unfold find_all_sigkeys_for_pubkey, is_active.
  rewrite elem_of_sort_by, elem_of_app, Hget, bool_decide_false by (by rewrite Hst).
  destruct (get_global_permission _); [|set_solver].
  intros [?|H%list_elem_of_singleton]; [set_solver|]. by injection H.
Qed.

(** What a hint resolves to comes from the settings: the global hint to the
    global key's permission with the public key it carries, a public key to its
    own entry, a name to the entries with that name, all of them; a hint that
    names nothing resolves to nothing. *)
Theorem resolve_hint_spec s hint rs :
  resolve_hint s hint = Ok rs ->
  if hint_is_global hint then
    exists key pk, get_global_key s = Ok key /\ hint_pubkey hint = Some pk
      /\ rs = [mkResolvedAuth pk (key_permissions key) (key_status key)]
  else match hint_pubkey hint, hint_name hint with
  | Some pk, _ => exists key, get_key_by_pubkey s pk = Ok key
      /\ rs = [mkResolvedAuth pk (key_permissions key) (key_status key)]
  | None, Some name => rs <> [] /\ forall r, r ∈ rs <->
      exists str key, get_all_keys s !! str = Some key /\ key_name key = Some name
        /\ PublicKey_from_string str = Ok (ra_public_key r)
        /\ ra_effective_permission r = key_permissions key /\ ra_key_status r = key_status key
  | None, None => rs = []
  end.
Proof.
  unfold resolve_hint. destruct (hint_is_global hint).
  { destruct (get_global_key s), (hint_pubkey hint); simpl; try done. intros [= <-]. eauto. }
  destruct (hint_pubkey hint) as [pk|].
  { destruct (get_key_by_pubkey s pk); [|done]. intros [= <-]. eauto. }
  destruct (hint_name hint) as [name|]; [|congruence].
  set (f := fun e : string * AuthKey => _).
  assert (forall e, e ∈ find_keys_by_name s name <->
    get_all_keys s !! e.1 = Some e.2 /\ key_name e.2 = Some name) as Hfind.
  { intros [str key]. unfold find_keys_by_name.
    rewrite elem_of_sort_by, list_elem_of_filter, elem_of_map_to_list. naive_solver. }
  intros Hrs. assert (find_keys_by_name s name <> []) as Hne by (by intros E; rewrite E in Hrs).
  replace (match find_keys_by_name s name with [] => _ | _ => _ end)
    with (result_collect (f <$> find_keys_by_name s name)) in Hrs
    by (by destruct (find_keys_by_name s name)).
  split.
  { intros ->. apply result_collect_ok in Hrs. by inversion Hrs. }
  intros r. rewrite (elem_of_result_collect _ _ _ _ Hrs). unfold f. split.
  - intros (e & [Hk Hn]%Hfind & Hf). exists e.1, e.2.
    destruct (PublicKey_from_string e.1); simplify_eq/=. done.
  - intros (str & key & Hk & Hn & Hpk & Hp & Hst).
    exists (str, key). split; [by apply Hfind|]. simpl. rewrite Hpk. simpl.
    destruct r; simplify_eq/=. done.
Qed.

(** Changing or creating a key takes an admin whose permission is at least
    that of the key concerned. *)
Theorem key_authorization s signer pk perm :
  (can_modify_key s signer pk = Ok true <->
     can_admin (ra_effective_permission signer) = true
     /\ exists key, get_key_by_pubkey s pk = Ok key
        /\ Permission_leb (key_permissions key) (ra_effective_permission signer) = true)
  /\ (can_create_key s signer perm = Ok true <->
     can_admin (ra_effective_permission signer) = true
     /\ Permission_leb perm (ra_effective_permission signer) = true).
Proof.
  unfold can_modify_key, can_create_key. destruct (can_admin _); simpl.
  2: { split; (split; [done|by intros [? _]]). }
  split; [|split; [by intros [= ->]|by intros [_ ->]]].
  destruct (get_key_by_pubkey s pk) as [key|]; simpl.
  - split; [intros [= H]; eauto|]. by intros (_ & k & [= ->] & ->).
  - split; [done|]. by intros (_ & k & ? & _).
Qed.

(** ** Delegations *)

Lemma delegations_path_pair root :
  delegations_path root = "delegations" +:+ String dot (ID_to_string root).
Proof. done. Qed.

(** A delegation added for a tree is found again under that tree's root and
    leaves the other delegations, the keys and the global permission alone,
    provided the root is not the empty ID. *)
Theorem delegations_roundtrip s d :
  AuthSettings_ok s -> DelegatedTreeRef_wf d -> ID_is_empty (tr_root (dt_tree d)) = false ->
  exists s', add_delegated_tree s d = Ok s' /\ AuthSettings_ok s'
    /\ get_delegated_tree s' (tr_root (dt_tree d)) = Ok d
    /\ (forall root, ID_is_empty root = false -> root <> tr_root (dt_tree d) ->
        get_delegated_tree s' root = get_delegated_tree s root)
    /\ (forall pk, get_key_by_pubkey s' pk = get_key_by_pubkey s pk)
    /\ get_global_key s' = get_global_key s.
Proof.
  intros [Hk Hd] Hwf Hne. unfold add_delegated_tree.
  assert (forall r, ID_is_empty r = false -> ID_to_string r <> EmptyString) as Hstr.
  { intros r Hr H%ID_to_string_empty. congruence. }
  rewrite delegations_path_pair, set_key_pair by auto using ID_to_string_no_dot.
  eexists; split; [done|]. set (s' := mkAuthSettings _).
  assert (AuthSettings_ok s') as Hok'.
  { unfold AuthSettings_ok, slot_ok, s'. simpl. rewrite lookup_insert_eq, lookup_insert_ne by done.
    done. }
  assert (sub_doc (inner s') "keys" = sub_doc (inner s) "keys") as Hsub.
  { unfold sub_doc, s'. simpl. by rewrite lookup_insert_ne. }
  split; [done|]. split; [|split; [|split]].
  - unfold get_delegated_tree. rewrite delegations_path_pair, Doc_get_pair
      by (auto using ID_to_string_no_dot || apply Hok').
    unfold sub_doc at 1, s'. simpl. rewrite lookup_insert_eq. simpl. rewrite lookup_insert_eq. simpl.
    by rewrite DelegatedTreeRef_from_to_doc.
  - intros root Hr Hroot. unfold get_delegated_tree. rewrite delegations_path_pair, !Doc_get_pair
      by (auto using ID_to_string_no_dot || apply Hok').
    unfold sub_doc at 1, s'. simpl. rewrite lookup_insert_eq. simpl.
    rewrite lookup_insert_ne; [done|]. intros H. by apply Hroot, ID_to_string_inj.
  - intros pk. rewrite !get_key_children by done. by rewrite Hsub.
  - unfold get_global_key, Doc_get, get_raw, s'. simpl. by rewrite lookup_insert_ne.
Qed.

(** A delegation to the empty ID, in contrast, is written over the whole
    [delegations] document: [delegations.] is the path [delegations]. *)
Theorem add_delegated_tree_empty_root s d root :
  tr_root (dt_tree d) = ID_default -> ID_is_empty root = false ->
  ID_to_string root <> "permission_bounds" -> ID_to_string root <> "tree" ->
  exists s', add_delegated_tree s d = Ok s'
    /\ get_delegated_tree s' root = Err (EAuth (DelegationNotFound root)).
Proof.
  intros Hroot Hne H1 H2. unfold add_delegated_tree. rewrite Hroot. eexists; split; [done|].
  unfold get_delegated_tree. rewrite (delegations_path_pair root), Doc_get_pair.
  - unfold sub_doc. simpl. rewrite lookup_insert_eq. simpl.
    by rewrite !lookup_insert_ne, lookup_empty.
  - done.
  - done.
  - apply ID_to_string_no_dot.
  - intros H%ID_to_string_empty. congruence.
  - unfold slot_ok. simpl. by rewrite lookup_insert_eq.
Qed.
End auth_settings.

(** ** Concrete cases *)

#[local] Existing Instance nat_cid.
#[local] Existing Instance byte_crypto.

Definition demo_pk : PublicKey := Ed25519 Byte.x07.
Definition demo_key : AuthKey := AuthKey_active (Some "laptop") (Write 3).
Definition demo_settings : AuthSettings :=
  put_key AuthSettings_new (PublicKey_to_string demo_pk) demo_key.

Lemma key_operations_witness :
  exists s', revoke_key demo_settings demo_pk = Ok s'
    /\ get_key_by_pubkey s' demo_pk = Ok (set_status demo_key Revoked).
Proof.
  destruct (key_operations demo_settings demo_pk demo_key None) as [H _]; [split; exact I|done|].
  assert (get_key_by_pubkey demo_settings demo_pk = Ok demo_key) as E by (vm_compute; reflexivity).
  rewrite E in H. destruct H as (_ & (s' & Hr & _ & _ & Hs) & _).
  exists s'. split; [done|]. rewrite Hs. by rewrite decide_True.
Defined.

Lemma revoke_key_denies_witness :
  forall p, (SigKey_from_pubkey demo_pk, p) ∉ find_all_sigkeys_for_pubkey
    (put_key demo_settings (PublicKey_to_string demo_pk) (set_status demo_key Revoked)) demo_pk.
Proof.
  assert (get_key_by_pubkey demo_settings demo_pk = Ok demo_key) as E by (vm_compute; reflexivity).
  eapply (revoke_key_denies demo_settings).
  - split; exact I.
  - unfold revoke_key. unfold get_key_by_pubkey in E. by rewrite E.
  - unfold resolve_hint. cbn [hint_is_global hint_pubkey KeyHint_from_pubkey].
    rewrite put_key_get by (split; exact I). by rewrite decide_True.
Defined.

Lemma resolve_hint_spec_witness :
  exists key, get_key_by_pubkey demo_settings demo_pk = Ok key
    /\ [mkResolvedAuth demo_pk (Write 3) Active]
       = [mkResolvedAuth demo_pk (key_permissions key) (key_status key)].
Proof.
  apply (resolve_hint_spec demo_settings (KeyHint_from_pubkey demo_pk)
    [mkResolvedAuth demo_pk (Write 3) Active]).
  vm_compute. reflexivity.
Defined.

Definition demo_tree : ID := mkID (Some 4%nat : option (@Cid nat_cid)).
Definition demo_delegation : DelegatedTreeRef :=
  mkDelegatedTreeRef (mkPermissionBounds (Write 10) None) (mkTreeReference demo_tree [demo_tree]).

Lemma delegations_roundtrip_witness :
  exists s', add_delegated_tree demo_settings demo_delegation = Ok s'
    /\ get_delegated_tree s' demo_tree = Ok demo_delegation.
Proof.
  destruct (delegations_roundtrip demo_settings demo_delegation) as (s' & H & _ & Hg & _).
  - split; exact I.
  - split; [split; done|]. simpl. unfold u64_max. lia.
  - done.
  - by exists s'.
Defined.
