(* ===== verification/Entry.v ===== *)
(** * Entries and their builder (entry/mod.rs, entry/builder.rs, height.rs)

    An entry is a node of the Merkle DAG: a tree node, named subtree nodes and
    a signature block.  Its ID is the CID of its DAG-CBOR bytes; the codecs
    (serde, DAG-CBOR, JSON) and the hash are an interface. *)

From S2P Require Import Prelude.
From S2P Require Import Path.
From S2P Require Import Position.
From S2P Require Import Ids.
From S2P Require Import Doc.
From S2P Require Import DocPath.
From S2P Require Import Errors.
From S2P Require Import Crypto.
From S2P Require Import Permission.
From S2P Require Import AuthTypes.

Definition RawData : Type := Bytes.

Definition ROOT : string := "_root".
Definition SETTINGS : string := "_settings".
Definition INDEX : string := "_index".
Definition ENTRY_VERSION : Z := 0.

(** ** Heights (height.rs) *)

Inductive HeightStrategy : Type := Incremental | Timestamp.

(** [calculate_height]; [now_millis] is the clock's reading, and [h + 1]
    overflows (a panic) at [u64::MAX]. *)
Definition calculate_height (strategy : HeightStrategy) (now_millis : Z)
    (max_parent_height : option Z) : Outcome Z :=
  let! min_height := match max_parent_height with
                     | Some h => checked is_u64 (h + 1)
                     | None => Done 0
                     end in
  match strategy with
  | Incremental => Done min_height
  | Timestamp => Done (Z.max now_millis min_height)
  end.

Section entry.
Context `{CS : CidSpec} `{KS : CryptoSpec}.

Record TreeNode : Type := mkTreeNode {
  tn_root : option ID;
  tn_parents : list ID;
  tn_metadata : option RawData;
  tn_height : Z;
}.

Record SubTreeNode : Type := mkSubTreeNode {
  st_name : string;
  st_parents : list ID;
  st_data : option RawData;
  st_height : option Z;
}.

Record Entry : Type := mkEntry {
  e_version : Z;
  e_tree : TreeNode;
  e_subtrees : list SubTreeNode;
  e_sig : SigInfo;
}.

(** ** Accessors *)

Definition has_subtree (subtrees : list SubTreeNode) (name : string) : bool :=
  existsb (fun node => bool_decide (st_name node = name)) subtrees.

(** [iter().find(|node| node.name == name)]. *)
Definition find_subtree (subtrees : list SubTreeNode) (name : string) : option SubTreeNode :=
  List.find (fun node => bool_decide (st_name node = name)) subtrees.

Definition is_nil {A} (l : list A) : bool := match l with [] => true | _ => false end.

Definition Entry_is_root (e : Entry) : bool :=
  has_subtree (e_subtrees e) ROOT && is_nil (tn_parents (e_tree e))
  && negb (is_some (tn_root (e_tree e))).

Definition in_subtree (e : Entry) (subtree_name : string) : bool :=
  has_subtree (e_subtrees e) subtree_name.

Definition Entry_subtrees (e : Entry) : list string := st_name <$> e_subtrees e.

Definition entry_key_error (name : string) : Error := EStore (StoreKeyNotFound "entry" name).

Definition Entry_data (e : Entry) (subtree_name : string) : Result RawData Error :=
  ok_or (node ← find_subtree (e_subtrees e) subtree_name; st_data node)
    (entry_key_error subtree_name).

Definition Entry_parents (e : Entry) : list ID := tn_parents (e_tree e).

Definition subtree_parents (e : Entry) (subtree_name : string) : Result (list ID) Error :=
  ok_or (st_parents <$> find_subtree (e_subtrees e) subtree_name) (entry_key_error subtree_name).

Definition Entry_height (e : Entry) : Z := tn_height (e_tree e).

Definition subtree_height (e : Entry) (subtree_name : string) : Result Z Error :=
  ok_or ((fun node => default (Entry_height e) (st_height node)) <$>
         find_subtree (e_subtrees e) subtree_name)
    (entry_key_error subtree_name).

Definition canonical_for_signing (e : Entry) : Entry :=
  mkEntry (e_version e) (e_tree e) (e_subtrees e) (mkSigInfo None (sig_key (e_sig e))).

Definition validate_entry_version (v : Z) : Result Z EntryError :=
  if v =? ENTRY_VERSION then Ok v else Err EntrySerializationFailed.

(** ** Validation *)

Definition validate_id_format (id : ID) : Result unit Error :=
  if is_some (as_cid id) then Ok tt else Err (EId (InvalidFormat EmptyString)).

Definition invalid_entry (reason : string) : Result unit Error :=
  Err (EInstance (EntryValidationFailed reason)).

(** [for id in ids]: an empty ID is rejected with [reason]. *)
Fixpoint validate_parents (reason : string) (ids : list ID) : Result unit Error :=
  match ids with
  | [] => Ok tt
  | id :: rest =>
      if ID_is_empty id then invalid_entry reason
      else let? _ := validate_id_format id in validate_parents reason rest
  end.

Fixpoint validate_subtrees (subtrees : list SubTreeNode) : Result unit Error :=
  match subtrees with
  | [] => Ok tt
  | node :: rest =>
      if str_is_empty (st_name node) then invalid_entry "empty subtree name"
      else if decide (st_name node = ROOT) then validate_subtrees rest
      else
        let? _ := validate_parents "empty subtree parent" (st_parents node) in
        validate_subtrees rest
  end.

Definition Entry_validate (e : Entry) : Result unit Error :=
  let has_root_marker := has_subtree (e_subtrees e) ROOT in
  if has_root_marker && negb (is_nil (tn_parents (e_tree e))) then
    invalid_entry "root marker with parents"
  else
    let is_root_entry :=
      has_root_marker && is_nil (tn_parents (e_tree e)) && negb (is_some (tn_root (e_tree e))) in
    let? _ := match tn_root (e_tree e) with
              | Some root_id => validate_id_format root_id
              | None => Ok tt
              end in
    let? _ := validate_subtrees (e_subtrees e) in
    if negb is_root_entry then
      if is_nil (tn_parents (e_tree e)) then invalid_entry "no main parents"
      else validate_parents "empty main parent" (tn_parents (e_tree e))
    else Ok tt.

(** ** The builder *)

Record EntryBuilder : Type := mkEntryBuilder {
  b_tree : TreeNode;
  b_subtrees : list SubTreeNode;
  b_sig : SigInfo;
}.

Definition opt_root (root : ID) : option ID := if ID_is_empty root then None else Some root.

Definition EntryBuilder_new (root : ID) : EntryBuilder :=
  mkEntryBuilder (mkTreeNode (opt_root root) [] None 0) [] SigInfo_default.

(** Change the first node with the name, or push a new one. *)
Fixpoint upsert_subtree (name : string) (change : SubTreeNode -> SubTreeNode) (new : SubTreeNode)
    (subtrees : list SubTreeNode) : list SubTreeNode :=
  match subtrees with
  | [] => [new]
  | node :: rest =>
      if decide (st_name node = name) then change node :: rest
      else node :: upsert_subtree name change new rest
  end.

Definition on_subtrees (b : EntryBuilder) (f : list SubTreeNode -> list SubTreeNode) : EntryBuilder :=
  mkEntryBuilder (b_tree b) (f (b_subtrees b)) (b_sig b).

Definition on_tree (b : EntryBuilder) (f : TreeNode -> TreeNode) : EntryBuilder :=
  mkEntryBuilder (f (b_tree b)) (b_subtrees b) (b_sig b).

Definition set_sig (b : EntryBuilder) (sig : SigInfo) : EntryBuilder :=
  mkEntryBuilder (b_tree b) (b_subtrees b) sig.

Definition set_subtree_data (b : EntryBuilder) (name : string) (data : RawData) : EntryBuilder :=
  on_subtrees b (upsert_subtree name
    (fun n => mkSubTreeNode (st_name n) (st_parents n) (Some data) (st_height n))
    (mkSubTreeNode name [] (Some data) None)).

Definition set_metadata (b : EntryBuilder) (metadata : RawData) : EntryBuilder :=
  on_tree b (fun t => mkTreeNode (tn_root t) (tn_parents t) (Some metadata) (tn_height t)).

(** [new_top_level]; [metadata] is the JSON text that carries the random
    entropy. *)
Definition EntryBuilder_new_top_level (metadata : RawData) : EntryBuilder :=
  set_metadata (set_subtree_data (EntryBuilder_new ID_default) ROOT []) metadata.

Definition EntryBuilder_subtrees (b : EntryBuilder) : list string := st_name <$> b_subtrees b.

Definition EntryBuilder_data (b : EntryBuilder) (name : string) : Result RawData Error :=
  ok_or (node ← find_subtree (b_subtrees b) name; st_data node) (entry_key_error name).

Definition EntryBuilder_subtree_parents (b : EntryBuilder) (name : string) : Result (list ID) Error :=
  ok_or (st_parents <$> find_subtree (b_subtrees b) name) (entry_key_error name).

Definition set_root (b : EntryBuilder) (root : ID) : EntryBuilder :=
  on_tree b (fun t => mkTreeNode (opt_root root) (tn_parents t) (tn_metadata t) (tn_height t)).

Definition set_parents (b : EntryBuilder) (parents : list ID) : EntryBuilder :=
  on_tree b (fun t => mkTreeNode (tn_root t) parents (tn_metadata t) (tn_height t)).

Definition add_parent (b : EntryBuilder) (parent_id : ID) : EntryBuilder :=
  on_tree b (fun t =>
    mkTreeNode (tn_root t) (tn_parents t ++ [parent_id]) (tn_metadata t) (tn_height t)).

Definition get_parents (b : EntryBuilder) : option (list ID) :=
  match tn_parents (b_tree b) with [] => None | ps => Some ps end.

Definition set_subtree_parents (b : EntryBuilder) (name : string) (parents : list ID) : EntryBuilder :=
  on_subtrees b (upsert_subtree name
    (fun n => mkSubTreeNode (st_name n) parents (st_data n) (st_height n))
    (mkSubTreeNode name parents None None)).

Definition add_subtree_parent (b : EntryBuilder) (name : string) (parent_id : ID) : EntryBuilder :=
  on_subtrees b (upsert_subtree name
    (fun n => mkSubTreeNode (st_name n) (st_parents n ++ [parent_id]) (st_data n) (st_height n))
    (mkSubTreeNode name [parent_id] None None)).

Definition set_height (b : EntryBuilder) (height : Z) : EntryBuilder :=
  on_tree b (fun t => mkTreeNode (tn_root t) (tn_parents t) (tn_metadata t) height).

Definition set_subtree_height (b : EntryBuilder) (name : string) (height : option Z) : EntryBuilder :=
  on_subtrees b (upsert_subtree name
    (fun n => mkSubTreeNode (st_name n) (st_parents n) (st_data n) height)
    (mkSubTreeNode name [] None height)).

Definition normalize_node (n : SubTreeNode) : SubTreeNode :=
  mkSubTreeNode (st_name n) (sort_dedup ID_cmp (st_parents n)) (st_data n) (st_height n).

Definition name_leb (a b : SubTreeNode) : bool := cmp_leb String.compare (st_name a) (st_name b).

Definition build (b : EntryBuilder) : Result Entry Error :=
  let t := b_tree b in
  let tree := mkTreeNode (tn_root t) (sort_dedup ID_cmp (tn_parents t)) (tn_metadata t)
                (tn_height t) in
  let subtrees := sort_by name_leb (normalize_node <$> b_subtrees b) in
  let entry := mkEntry ENTRY_VERSION tree subtrees (b_sig b) in
  let? _ := Entry_validate entry in
  Ok entry.
End entry.

#[export] Instance tree_node_eq_dec `{CS : CidSpec} `{KS : !CryptoSpec} : EqDecision TreeNode.
Proof. solve_decision. Defined.

#[export] Instance subtree_node_eq_dec `{CS : CidSpec} `{KS : !CryptoSpec} : EqDecision SubTreeNode.
Proof. solve_decision. Defined.

#[export] Instance sig_info_eq_dec `{CS : CidSpec} `{KS : !CryptoSpec} : EqDecision SigInfo.
Proof. solve_decision. Defined.

#[export] Instance entry_eq_dec `{CS : CidSpec} `{KS : !CryptoSpec} : EqDecision Entry.
Proof. solve_decision. Defined.

(** ** The codecs

    [serde_ipld_dagcbor] writes an entry to bytes, BLAKE3 turns bytes into a
    CID, and [serde_json] reads the document stored in [_index].  Writing a
    [Vec<u8>] from these types does not fail. *)
Class CodecSpec `{CS : CidSpec} `{KS : CryptoSpec} := {
  to_dagcbor : Entry -> Bytes;
  blake3_dagcbor_cid : Bytes -> Cid;
  json_to_doc : Bytes -> option Doc;
}.

Section codec.
Context `{CD : CodecSpec}.

Definition Entry_id (e : Entry) : ID := mkID (Some (blake3_dagcbor_cid (to_dagcbor e))).

Definition in_tree (e : Entry) (tree_id : ID) : bool :=
  bool_decide (tn_root (e_tree e) = Some tree_id) || bool_decide (Entry_id e = tree_id).

Definition signing_bytes (e : Entry) : Bytes := to_dagcbor (canonical_for_signing e).

Definition sign_entry (e : Entry) (signing_key : PrivateKey) : string :=
  sign_data (signing_bytes e) signing_key.

Definition verify_entry_signature (e : Entry) (pk : PublicKey) : Result unit AuthError :=
  verify_signature (sig_sig (e_sig e)) (signing_bytes e) pk.

Definition get_index_referenced_subtrees (b : EntryBuilder) : Result (gset string) Error :=
  match find_subtree (b_subtrees b) INDEX with
  | Some index_node =>
      match st_data index_node with
      | Some data =>
          let? doc := ok_or (json_to_doc data) (EEntry InvalidIndexData) in
          Ok (Doc_keys doc)
      | None => Ok ∅
      end
  | None => Ok ∅
  end.

Definition keep_subtree (index_subtrees : gset string) (n : SubTreeNode) : bool :=
  match st_data n with
  | None => bool_decide (st_name n ∈ index_subtrees)
  | Some d => negb (is_nil d)
  end.

Definition remove_empty_subtrees (b : EntryBuilder) : Result EntryBuilder Error :=
  let? index_subtrees := get_index_referenced_subtrees b in
  Ok (on_subtrees b (filter (fun n => keep_subtree index_subtrees n = true))).
End codec.

(** ** Lemmas *)

Section facts.
Context `{CS : CidSpec} `{KS : CryptoSpec}.

Lemma is_nil_true {A} (l : list A) : is_nil l = true <-> l = [].
Proof. by destruct l. Qed.

Lemma has_subtree_true l name :
  has_subtree l name = true <-> exists n, n ∈ l /\ st_name n = name.
Proof.
  unfold has_subtree. rewrite existsb_exists. split.
  - intros (n & Hn & Hb%bool_decide_eq_true). exists n. split; [by apply list_elem_of_In|done].
  - intros (n & Hn & Hb). exists n. split; [by apply list_elem_of_In|by apply bool_decide_eq_true].
Qed.

Lemma find_subtree_Some l name n :
  find_subtree l name = Some n -> n ∈ l /\ st_name n = name.
Proof.
  intros [Hin Hb]%List.find_some. apply bool_decide_eq_true in Hb.
  split; [by apply list_elem_of_In|done].
Qed.

Lemma validate_parents_ok reason ids :
  validate_parents reason ids = Ok tt <-> Forall (fun id => ID_is_empty id = false) ids.
Proof.
  induction ids as [|id ids IH]; simpl; [done|]. rewrite Forall_cons, <- IH.
  unfold validate_id_format, ID_is_empty. destruct (as_cid id); simpl; naive_solver.
Qed.

Lemma validate_subtrees_ok l :
  validate_subtrees l = Ok tt <->
  Forall (fun n => st_name n <> EmptyString
    /\ (st_name n <> ROOT -> Forall (fun id => ID_is_empty id = false) (st_parents n))) l.
Proof.
  induction l as [|n l IH]; simpl; [done|]. rewrite Forall_cons, <- IH.
  destruct (str_is_empty (st_name n)) eqn:E.
  { apply str_is_empty_true in E. split; [done|]. by intros [[? _] _]. }
  apply str_is_empty_false in E. case_decide; [naive_solver|].
  rewrite <- (validate_parents_ok "empty subtree parent").
  destruct (validate_parents _ (st_parents n)) as [[]|]; simpl; naive_solver.
Qed.

(** The structure [validate] accepts. *)
Record entry_structure (e : Entry) : Prop := {
  es_marker : in_subtree e ROOT = true -> tn_parents (e_tree e) = [];
  es_root : forall r, tn_root (e_tree e) = Some r -> ID_is_empty r = false;
  es_names : forall n, n ∈ e_subtrees e -> st_name n <> EmptyString;
  es_subtree_parents : forall n id,
    n ∈ e_subtrees e -> st_name n <> ROOT -> id ∈ st_parents n -> ID_is_empty id = false;
  es_parents : Entry_is_root e = true
    \/ (tn_parents (e_tree e) <> []
        /\ forall id, id ∈ tn_parents (e_tree e) -> ID_is_empty id = false);
}.

Lemma validate_root_ok o :
  (match o with Some root_id => validate_id_format root_id | None => Ok tt end) = Ok tt
  <-> forall r, o = Some r -> ID_is_empty r = false.
Proof.
  destruct o as [[[c|]]|]; unfold validate_id_format, ID_is_empty; simpl; naive_solver.
Qed.

Lemma result_bind_unit {E} (r : Result unit E) (k : unit -> Result unit E) :
  result_bind r k = Ok tt <-> r = Ok tt /\ k tt = Ok tt.
Proof. destruct r as [[]|]; simpl; naive_solver. Qed.

Lemma Entry_validate_ok e : Entry_validate e = Ok tt <-> entry_structure e.
Proof.
  unfold Entry_validate. fold (in_subtree e ROOT).
  change (in_subtree e ROOT && is_nil (tn_parents (e_tree e)) && negb (is_some (tn_root (e_tree e))))
    with (Entry_is_root e).
  destruct (in_subtree e ROOT && negb (is_nil (tn_parents (e_tree e)))) eqn:E.
  { apply andb_true_iff in E as [Hm Hp]. split; [done|]. intros [H _ _ _ _].
    by rewrite H in Hp. }
  rewrite !result_bind_unit, validate_root_ok, validate_subtrees_ok.
  assert (in_subtree e ROOT = true -> tn_parents (e_tree e) = []) as Hmark.
  { intros Hm. rewrite Hm in E. by destruct (tn_parents (e_tree e)). }
  assert ((if negb (Entry_is_root e) then
             if is_nil (tn_parents (e_tree e)) then invalid_entry "no main parents"
             else validate_parents "empty main parent" (tn_parents (e_tree e))
           else Ok tt) = Ok tt <->
          Entry_is_root e = true \/ (tn_parents (e_tree e) <> []
            /\ forall id, id ∈ tn_parents (e_tree e) -> ID_is_empty id = false)) as ->.
  { destruct (Entry_is_root e); simpl; [naive_solver|].
    destruct (tn_parents (e_tree e)) as [|p ps] eqn:Ep; simpl is_nil; cbn iota.
    - split; [done|]. by intros [?|[? _]].
    - rewrite validate_parents_ok, Forall_forall. naive_solver. }
  rewrite Forall_forall. split.
  - intros (Hr & Hs & Hp). split; [done|done|by apply Hs| |done].
    intros n id Hn Hne. destruct (Hs n Hn) as [_ Hf]. specialize (Hf Hne).
    rewrite Forall_forall in Hf. apply Hf.
  - intros [_ Hr Hn Hs Hp]. split; [done|]. split; [|done]. intros n Hin. split; [by apply Hn|].
    intros Hne. apply Forall_forall. intros id. by apply (Hs n).
Qed.

(** ** The builder's subtree list *)

Lemma find_subtree_upsert l name change new name' :
  (forall n, st_name (change n) = st_name n) -> st_name new = name ->
  find_subtree (upsert_subtree name change new l) name' =
  if decide (name' = name) then
    Some (match find_subtree l name with Some n => change n | None => new end)
  else find_subtree l name'.
Proof.
  intros Hc Hn. unfold find_subtree. induction l as [|n l IH]; simpl.
  - rewrite Hn. case_decide; subst; [by rewrite bool_decide_true|by rewrite bool_decide_false].
  - destruct (decide (st_name n = name)) as [Heq|Hne]; simpl.
    + rewrite Hc, Heq, (bool_decide_true (name = name)) by done.
      case_decide; subst; [by rewrite bool_decide_true|by rewrite bool_decide_false].
    + rewrite IH, (bool_decide_false (st_name n = name)) by done.
      case_decide; subst; [by rewrite bool_decide_false|done].
Qed.

Lemma upsert_subtree_names l name change new :
  (forall n, st_name (change n) = st_name n) -> st_name new = name ->
  st_name <$> upsert_subtree name change new l =
  if decide (name ∈ st_name <$> l) then st_name <$> l else (st_name <$> l) ++ [name].
Proof.
  intros Hc Hn. induction l as [|n l IH]; cbn [upsert_subtree].
  - rewrite decide_False by set_solver. simpl. by rewrite Hn.
  - rewrite fmap_cons. destruct (decide (st_name n = name)) as [Heq|Hne].
    + rewrite fmap_cons, Hc, decide_True by set_solver. done.
    + rewrite fmap_cons, IH. destruct (decide (name ∈ st_name <$> l)).
      * by rewrite decide_True by set_solver.
      * by rewrite decide_False by set_solver.
Qed.

(** The invariant of a builder: each subtree has one node. *)
Definition builder_ok (b : EntryBuilder) : Prop := NoDup (EntryBuilder_subtrees b).

Lemma upsert_subtree_ok b name change new :
  (forall n, st_name (change n) = st_name n) -> st_name new = name ->
  builder_ok b -> builder_ok (on_subtrees b (upsert_subtree name change new)).
Proof.
  unfold builder_ok, EntryBuilder_subtrees. simpl. intros Hc Hn Hb.
  rewrite upsert_subtree_names by done. case_decide; [done|].
  apply NoDup_app. split; [done|]. split; [set_solver|]. apply NoDup_singleton.
Qed.

(** ** Canonical form of a built entry *)

Lemma name_leb_total a b : name_leb a b = true \/ name_leb b a = true.
Proof. apply cmp_leb_total, _. Qed.

Lemma normalize_node_name n : st_name (normalize_node n) = st_name n.
Proof. done. Qed.

Lemma built_subtrees_ext l1 l2 :
  NoDup (st_name <$> l1) -> normalize_node <$> l1 ≡ₚ normalize_node <$> l2 ->
  sort_by name_leb (normalize_node <$> l1) = sort_by name_leb (normalize_node <$> l2).
Proof.
  intros Hnd Hp. set (R := fun a b => name_leb a b = true).
  assert (Transitive R).
  { intros a b c. unfold R, name_leb.
    apply (transitivity (R := fun x y => cmp_leb String.compare x y = true)). }
  assert (forall l, StronglySorted R (sort_by name_leb l)) as Hs.
  { intros l. apply Sorted_StronglySorted; [done|]. apply sort_by_sorted, name_leb_total. }
  apply (StronglySorted_unique_strong R); [|by apply Hs..|by rewrite !sort_by_perm].
  intros a b Ha Hb Hab Hba. rewrite elem_of_sort_by in Ha, Hb. rewrite <- Hp in Hb.
  apply list_elem_of_fmap in Ha as (a' & -> & Ha), Hb as (b' & -> & Hb).
  assert (st_name a' = st_name b') as Hname.
  { apply (anti_symm (fun x y => cmp_leb String.compare x y = true)); done. }
  f_equal. apply list_elem_of_lookup in Ha as [i Hi], Hb as [j Hj].
  assert (i = j) as ->; [|congruence].
  eapply (NoDup_lookup (st_name <$> l1)); [done|by rewrite list_lookup_fmap, Hi|].
  by rewrite list_lookup_fmap, Hj, Hname.
Qed.

Lemma build_inv b e :
  build b = Ok e ->
  e = mkEntry ENTRY_VERSION
        (mkTreeNode (tn_root (b_tree b)) (sort_dedup ID_cmp (tn_parents (b_tree b)))
           (tn_metadata (b_tree b)) (tn_height (b_tree b)))
        (sort_by name_leb (normalize_node <$> b_subtrees b)) (b_sig b)
  /\ Entry_validate e = Ok tt.
Proof.
  unfold build. set (e' := mkEntry _ _ _ _). destruct (Entry_validate e') as [[]|] eqn:E; [|done].
  by intros [= <-].
Qed.

(** ** Properties *)

(** C39: [Entry::validate] accepts exactly the entries with the documented
    structure: a root marker excludes parents, the root ID and every parent ID
    are non-empty (the [_root] subtree's own parents excepted), subtree names
    are non-empty, and an entry that is not a root has a parent. *)
Theorem Entry_validate_spec e : Entry_validate e = Ok tt <-> entry_structure e.
Proof. apply Entry_validate_ok. Qed.

(** A subtree in canonical form: only the order and the repetition of its
    parents may differ. *)
Definition canonical_of (m n : SubTreeNode) : Prop :=
  st_name n = st_name m /\ st_data n = st_data m /\ st_height n = st_height m
  /\ (forall x, x ∈ st_parents n <-> x ∈ st_parents m)
  /\ StronglySorted (fun x y => ID_cmp x y = Lt) (st_parents n).


(** Building is deterministic up to what the builder's caller leaves open:
    two builders that agree on everything but the order and repetition of
    parents and the order of subtrees build the same entry, hence the same
    bytes and the same ID. *)
Theorem build_deterministic b1 b2 :
  builder_ok b1 -> b_sig b1 = b_sig b2 ->
  tn_root (b_tree b1) = tn_root (b_tree b2) -> tn_metadata (b_tree b1) = tn_metadata (b_tree b2) ->
  tn_height (b_tree b1) = tn_height (b_tree b2) ->
  (forall x, x ∈ tn_parents (b_tree b1) <-> x ∈ tn_parents (b_tree b2)) ->
  normalize_node <$> b_subtrees b1 ≡ₚ normalize_node <$> b_subtrees b2 ->
  build b1 = build b2.
Proof.
  intros Hok Hsig Hr Hm Hh Hp Hs. unfold build.
  rewrite Hsig, Hr, Hm, Hh, (proj2 (sort_dedup_ext ID_cmp _ _) Hp).
  by rewrite (built_subtrees_ext (b_subtrees b1) (b_subtrees b2)).
Qed.

(** The builder keeps one node per subtree, and a write to a subtree is read
    back and leaves the other subtrees and the other fields of the node
    alone. *)
Theorem builder_writes b name data parents p h name' :
  builder_ok b ->
  let b1 := set_subtree_data b name data in
  let b2 := set_subtree_parents b name parents in
  let b3 := add_subtree_parent b name p in
  let b4 := set_subtree_height b name h in
  builder_ok b1 /\ builder_ok b2 /\ builder_ok b3 /\ builder_ok b4
  /\ EntryBuilder_data b1 name = Ok data
  /\ EntryBuilder_subtree_parents b2 name = Ok parents
  /\ EntryBuilder_subtree_parents b3 name =
       Ok (match EntryBuilder_subtree_parents b name with Ok ps => ps ++ [p] | Err _ => [p] end)
  /\ (is_ok (EntryBuilder_data b name) = true ->
      EntryBuilder_data b2 name = EntryBuilder_data b name
      /\ EntryBuilder_data b3 name = EntryBuilder_data b name
      /\ EntryBuilder_data b4 name = EntryBuilder_data b name)
  /\ (name' <> name -> Forall (fun b' =>
        find_subtree (b_subtrees b') name' = find_subtree (b_subtrees b) name') [b1; b2; b3; b4]).
Proof.
  intros Hb. cbn zeta. do 4 (split; [by apply upsert_subtree_ok|]).
  unfold EntryBuilder_data, EntryBuilder_subtree_parents. simpl.
  rewrite !find_subtree_upsert, !decide_True by done. simpl.
  split; [by destruct (find_subtree (b_subtrees b) name)|].
  split; [by destruct (find_subtree (b_subtrees b) name)|].
  split; [by destruct (find_subtree (b_subtrees b) name)|].
  split; [by destruct (find_subtree (b_subtrees b) name)|].
  intros Hne. repeat constructor; simpl; rewrite find_subtree_upsert by done; by rewrite decide_False.
Qed.

(** Heights: a root has height 0 under the incremental strategy, the clock's
    reading under the timestamp strategy, and under both a child is higher than
    its highest parent; the only failure is the overflow at [u64::MAX]. *)
Theorem calculate_height_spec strategy now parent :
  is_u64 now = true -> (forall h, parent = Some h -> is_u64 h = true) ->
  calculate_height Incremental now None = Done 0
  /\ calculate_height Timestamp now None = Done now
  /\ match calculate_height strategy now parent with
     | Done h' => is_u64 h' = true /\ (forall h, parent = Some h -> h < h')
         /\ (strategy = Timestamp -> now <= h')
     | Panic => parent = Some u64_max
     end.
Proof.
  intros Hnow Hp. split; [done|]. split.
  { change (Done (Z.max now 0) = Done now). f_equal. ranges. lia. }
  unfold calculate_height, checked. destruct parent as [h|]; simpl.
  - specialize (Hp h eq_refl). destruct (is_u64 (h + 1)) eqn:E; simpl.
    + destruct strategy; (split; [ranges; lia|]); (split; [intros ? [= <-]; lia|]); [done|lia].
    + f_equal. ranges. lia.
  - destruct strategy; (split; [ranges; lia|]); (split; [done|]); [done|lia].
Qed.
End facts.

Section codec_facts.
Context `{CD : CodecSpec}.

(** An entry with its signature filled in. *)
Definition with_signature (e : Entry) (sig : string) : Entry :=
  mkEntry (e_version e) (e_tree e) (e_subtrees e) (mkSigInfo (Some sig) (sig_key (e_sig e))).

Lemma signed_entry_verifies e sk :
  verify_entry_signature (with_signature e (sign_entry e sk)) (public_key sk) = Ok tt.
Proof.
  unfold verify_entry_signature, verify_signature, sign_entry, sign_data. simpl.
  rewrite base64_decode_encode. simpl. apply PublicKey_verify_sign.
Qed.

(** A signature made with a private key verifies on the entry once it is put
    there, because signing ignores the signature field; the entry's other
    content is what is signed. *)
Theorem sign_entry_verifies e sk :
  let e' := with_signature e (sign_entry e sk) in
  verify_entry_signature e' (public_key sk) = Ok tt
  /\ canonical_for_signing e' = canonical_for_signing e
  /\ (forall pk, sig_sig (e_sig e) = None -> verify_entry_signature e pk = Err InvalidSignature).
Proof.
  cbn zeta. split; [apply signed_entry_verifies|split; [done|]].
  - intros pk H. unfold verify_entry_signature. by rewrite H.
Qed.

(** [remove_empty_subtrees] keeps exactly the subtrees with data, and those
    without a data change that [_index] mentions; it fails exactly when the
    [_index] data is not a document. *)
Theorem remove_empty_subtrees_spec b :
  match remove_empty_subtrees b with
  | Ok b' =>
      b_tree b' = b_tree b /\ b_sig b' = b_sig b
      /\ exists index, get_index_referenced_subtrees b = Ok index
        /\ forall n, n ∈ b_subtrees b' <-> n ∈ b_subtrees b
             /\ match st_data n with
                | Some d => d <> []
                | None => st_name n ∈ index
                end
  | Err e => e = EEntry InvalidIndexData
      /\ exists n data, find_subtree (b_subtrees b) INDEX = Some n
         /\ st_data n = Some data /\ json_to_doc data = None
  end.
Proof.
  unfold remove_empty_subtrees.
  destruct (get_index_referenced_subtrees b) as [index|e] eqn:E; simpl.
  - split; [done|]. split; [done|]. exists index. split; [done|]. intros n.
    rewrite list_elem_of_filter. unfold keep_subtree.
    destruct (st_data n) as [d|]; [destruct d; simpl; naive_solver|].
    rewrite bool_decide_eq_true. naive_solver.
  - unfold get_index_referenced_subtrees in E.
    destruct (find_subtree (b_subtrees b) INDEX) as [n|]; [|done].
    destruct (st_data n) as [data|] eqn:Ed; [|done].
    destruct (json_to_doc data) eqn:Ej; [done|]. injection E as <-. eauto 10.
Qed.

(** The marker of a top-level builder is itself empty data, so cleaning such a
    builder leaves an entry that can no longer be built. *)
Theorem top_level_cleaned_does_not_build metadata :
  exists b, remove_empty_subtrees (EntryBuilder_new_top_level metadata) = Ok b
    /\ is_ok (build (EntryBuilder_new_top_level metadata)) = true
    /\ build b = Err (EInstance (EntryValidationFailed "no main parents")).
Proof. eexists. split; [reflexivity|]. split; reflexivity. Qed.
End codec_facts.

(** ** Concrete cases *)

#[local] Existing Instance nat_cid.
#[local] Existing Instance byte_crypto.

(** An entry's bytes are its metadata and a CID is the first byte. *)
Definition demo_codec : CodecSpec := {|
  to_dagcbor e := default [] (tn_metadata (e_tree e));
  blake3_dagcbor_cid b := match b with x :: _ => N.to_nat (Byte.to_N x) | [] => 0%nat end : @Cid nat_cid;
  json_to_doc b := Some Doc_new;
|}.

Definition demo_id (n : nat) : ID := mkID (Some n : option (@Cid nat_cid)).

Definition demo_builder : EntryBuilder :=
  set_subtree_parents
    (set_subtree_data (set_parents (EntryBuilder_new (demo_id 1)) [demo_id 3; demo_id 2; demo_id 3])
       "users" [Byte.x01])
    "data" [demo_id 2].

Definition demo_entry : Entry :=
  mkEntry 0 (mkTreeNode (Some (demo_id 1)) [demo_id 2; demo_id 3] None 0)
    [mkSubTreeNode "data" [demo_id 2] None None; mkSubTreeNode "users" [] (Some [Byte.x01]) None]
    SigInfo_default.


Lemma build_deterministic_witness :
  build demo_builder =
  build (set_subtree_data (set_subtree_parents (set_parents (EntryBuilder_new (demo_id 1))
    [demo_id 2; demo_id 3]) "data" [demo_id 2; demo_id 2]) "users" [Byte.x01]).
Proof.
  apply build_deterministic; try done.
  - apply NoDup_cons. split; [set_solver|]. apply NoDup_singleton.
  - intros x. simpl. set_solver.
  - apply perm_swap.
Defined.

Lemma builder_writes_witness : EntryBuilder_data demo_builder "users" = Ok [Byte.x01].
Proof.
  destruct (builder_writes (set_subtree_data (EntryBuilder_new (demo_id 1)) "users" [Byte.x01])
    "users" [Byte.x02] [demo_id 2] (demo_id 3) None "data") as (_ & _ & _ & _ & _ & _ & _ & H & _).
  { apply NoDup_singleton. }
  destruct (H eq_refl) as [_ _]. done.
Defined.

Lemma calculate_height_spec_witness : calculate_height Timestamp 50 (Some 60) = Done 61.
Proof.
  destruct (calculate_height_spec Timestamp 50 (Some 60)) as (_ & _ & H); [done| |].
  { intros h [= <-]. done. }
  simpl in H. done.
Defined.

Lemma sign_entry_verifies_witness :
  verify_entry_signature (CD := demo_codec)
    (mkEntry 0 (mkTreeNode None [] None 0) [] SigInfo_default) (Ed25519 Byte.x07)
  = Err InvalidSignature.
Proof.
  by apply (sign_entry_verifies (CD := demo_codec)
    (mkEntry 0 (mkTreeNode None [] None 0) [] SigInfo_default) (Ed25519Private (KS := byte_crypto) Byte.x07)).
Defined.
