(* ===== verification/Backend.v ===== *)
(** * The in-memory backend (backend/database/in_memory/mod.rs, storage.rs)

    Entries by ID, their verification status, instance data, and the cache of
    tips per tree and per store.  A [HashMap] is a [gmap], a [HashSet] a
    [gset]; the locks serialise the operations, so an operation is a function
    from state to state. *)

From S2P Require Import Prelude.
From S2P Require Import Worklist.
From S2P Require Import Path.
From S2P Require Import Position.
From S2P Require Import Ids.
From S2P Require Import Doc.
From S2P Require Import DocPath.
From S2P Require Import Errors.
From S2P Require Import Crypto.
From S2P Require Import Permission.
From S2P Require Import AuthTypes.
From S2P Require Import Entry.

Inductive VerificationStatus : Type := Verified | Unverified | Failed.

#[export] Instance VerificationStatus_eq_dec : EqDecision VerificationStatus.
Proof. solve_decision. Defined.

Definition as_db_int (s : VerificationStatus) : Z :=
  match s with Verified => 0 | Failed => 1 | Unverified => 2 end.

Section backend.
Context `{CD : CodecSpec}.

Definition from_db_int (code : Z) : Result VerificationStatus Error :=
  if code =? 0 then Ok Verified
  else if code =? 1 then Ok Failed
  else if code =? 2 then Ok Unverified
  else Err (EBackend TreeIntegrityViolation).

Record InstanceMetadata : Type := mkInstanceMetadata {
  im_id : PublicKey;
  im_users_db : ID;
  im_databases_db : ID;
  im_sync_db : option ID;
}.

Record InstanceSecrets : Type := mkInstanceSecrets { is_signing_key : PrivateKey }.

Record TreeTipsCache : Type := mkTreeTipsCache {
  tree_tips : gset ID;
  subtree_tips : gmap string (gset ID);
}.

Definition TreeTipsCache_default : TreeTipsCache := mkTreeTipsCache ∅ ∅.

Record InMemoryInner : Type := mkInMemoryInner {
  entries : gmap ID Entry;
  verification_status : gmap ID VerificationStatus;
  instance_metadata : option InstanceMetadata;
  instance_secrets : option InstanceSecrets;
  mem_tips : gmap ID TreeTipsCache;
}.

Definition InMemory_new : InMemoryInner := mkInMemoryInner ∅ ∅ None None ∅.

(** [entries.values()]. *)
Definition entry_values (es : gmap ID Entry) : list Entry := (map_to_list es).*2.

Definition with_tips (inner : InMemoryInner) (t : gmap ID TreeTipsCache) : InMemoryInner :=
  mkInMemoryInner (entries inner) (verification_status inner) (instance_metadata inner)
    (instance_secrets inner) t.

Definition with_status (inner : InMemoryInner) (s : gmap ID VerificationStatus) : InMemoryInner :=
  mkInMemoryInner (entries inner) s (instance_metadata inner) (instance_secrets inner)
    (mem_tips inner).

(** ** Reading *)

Definition storage_get (inner : InMemoryInner) (id : ID) : Result Entry Error :=
  ok_or (entries inner !! id) (EBackend (EntryNotFound id)).

Definition get_verification_status (inner : InMemoryInner) (id : ID) :
    Result VerificationStatus Error :=
  ok_or (verification_status inner !! id) (EBackend (VerificationStatusNotFound id)).

Definition get_entries_by_verification_status (inner : InMemoryInner) (status : VerificationStatus) :
    list ID :=
  (filter (fun kv => kv.2 = status) (map_to_list (verification_status inner))).*1.

Definition all_ids (inner : InMemoryInner) : list ID := (map_to_list (entries inner)).*1.

Definition all_roots (inner : InMemoryInner) : list ID :=
  Entry_id <$> filter (fun e => Entry_is_root e = true) (entry_values (entries inner)).

(** [a.height().cmp(&b.height()).then_with(|| a.id().cmp(&b.id()))]. *)
Definition entry_leb (height : Entry -> Z) (a b : Entry) : bool :=
  cmp_leb (cmp_pair Z.compare ID_cmp) (height a, Entry_id a) (height b, Entry_id b).

Definition sort_entries_by_height (es : list Entry) : list Entry :=
  sort_by (entry_leb Entry_height) es.

Definition subtree_height_or_0 (subtree : string) (e : Entry) : Z :=
  match subtree_height e subtree with Ok h => h | Err _ => 0 end.

Definition sort_entries_by_subtree_height (subtree : string) (es : list Entry) : list Entry :=
  sort_by (entry_leb (subtree_height_or_0 subtree)) es.

Definition in_store (e : Entry) (tree : ID) (subtree : string) : bool :=
  in_tree e tree && in_subtree e subtree.

Definition get_tree (inner : InMemoryInner) (tree : ID) : list Entry :=
  sort_entries_by_height (filter (fun e => in_tree e tree = true) (entry_values (entries inner))).

Definition get_store (inner : InMemoryInner) (tree : ID) (subtree : string) : list Entry :=
  sort_entries_by_subtree_height subtree
    (filter (fun e => in_store e tree subtree = true) (entry_values (entries inner))).

(** ** Tips *)

(** [subtree_parents] with an error read as no parents. *)
Definition subtree_parents_or_nil (subtree : string) (e : Entry) : list ID :=
  match subtree_parents e subtree with Ok ps => ps | Err _ => [] end.

(** No entry of the list has [id] among its parents. *)
Definition childless (parents_of : Entry -> list ID) (es : list Entry) (id : ID) : bool :=
  forallb (fun other => negb (bool_decide (id ∈ parents_of other))) es.

(** The entries of the list that no entry of the list has as a parent. *)
Definition tips_of (parents_of : Entry -> list ID) (es : list Entry) : gset ID :=
  list_to_set (Entry_id <$> filter (fun e => childless parents_of es (Entry_id e) = true) es).

(** [tips_cache.entry(id).or_default()]. *)
Definition cache_at (t : gmap ID TreeTipsCache) (id : ID) : TreeTipsCache :=
  default TreeTipsCache_default (t !! id).

Definition update_tips_for_tree (es : gmap ID Entry) (t : gmap ID TreeTipsCache) (tree : ID) :
    gmap ID TreeTipsCache :=
  let tree_entries := filter (fun e => in_tree e tree = true) (entry_values es) in
  <[ tree := mkTreeTipsCache (tips_of Entry_parents tree_entries) (subtree_tips (cache_at t tree)) ]> t.

(** The body of the loop over the entry's subtrees. *)
Definition update_subtree_tips (es : gmap ID Entry) (tree : ID) (cache : TreeTipsCache)
    (subtree : string) : TreeTipsCache :=
  let store_entries := filter (fun e => in_store e tree subtree = true) (entry_values es) in
  mkTreeTipsCache (tree_tips cache)
    (<[ subtree := tips_of (subtree_parents_or_nil subtree) store_entries ]> (subtree_tips cache)).

Definition storage_put (inner : InMemoryInner) (entry : Entry) : InMemoryInner :=
  let entry_id := Entry_id entry in
  if decide (is_Some (entries inner !! entry_id)) then inner
  else
    let tree_id := default entry_id (tn_root (e_tree entry)) in
    let es := <[ entry_id := entry ]> (entries inner) in
    let t := update_tips_for_tree es (mem_tips inner) tree_id in
    let t := if Entry_is_root entry then update_tips_for_tree es t entry_id else t in
    let cache := foldl (update_subtree_tips es tree_id) (cache_at t tree_id) (Entry_subtrees entry) in
    mkInMemoryInner es (<[ entry_id := Unverified ]> (verification_status inner))
      (instance_metadata inner) (instance_secrets inner) (<[ tree_id := cache ]> t).

(** [InMemory::put]. *)
Definition mem_put (inner : InMemoryInner) (entry : Entry) : Result InMemoryInner Error :=
  let? _ := Entry_validate entry in
  Ok (storage_put inner entry).

Definition update_verification_status (inner : InMemoryInner) (id : ID) (s : VerificationStatus) :
    Result InMemoryInner Error :=
  if decide (is_Some (verification_status inner !! id)) then
    Ok (with_status inner (<[ id := s ]> (verification_status inner)))
  else Err (EBackend (EntryNotFound id)).

Definition set_instance_metadata (inner : InMemoryInner) (m : InstanceMetadata) : InMemoryInner :=
  mkInMemoryInner (entries inner) (verification_status inner) (Some m) (instance_secrets inner)
    (mem_tips inner).

Definition set_instance_secrets (inner : InMemoryInner) (s : InstanceSecrets) : InMemoryInner :=
  mkInMemoryInner (entries inner) (verification_status inner) (instance_metadata inner) (Some s)
    (mem_tips inner).

Definition is_tip (es : gmap ID Entry) (tree entry_id : ID) : bool :=
  forallb (fun other => negb (in_tree other tree && bool_decide (entry_id ∈ Entry_parents other)))
    (entry_values es).

Definition is_subtree_tip (es : gmap ID Entry) (tree : ID) (subtree : string) (entry_id : ID) : bool :=
  forallb (fun other => negb (in_tree other tree && bool_decide (subtree ∈ Entry_subtrees other)
     && match subtree_parents other subtree with
        | Ok store_parents => bool_decide (entry_id ∈ store_parents)
        | Err _ => false
        end)) (entry_values es).

(** [traversal::snapshot]: the cached tips, or the computed ones, which are then
    cached.  The vector's order is that of a hash map; it is a set here. *)
Definition compute_tree_tips (es : gmap ID Entry) (tree : ID) : gset ID :=
  list_to_set (fst <$> filter (fun kv =>
    in_tree kv.2 tree && is_tip es tree kv.1
    && (negb (Entry_is_root kv.2) || bool_decide (Entry_id kv.2 = tree)) = true) (map_to_list es)).

Definition traversal_snapshot (inner : InMemoryInner) (tree : ID) : InMemoryInner * gset ID :=
  match mem_tips inner !! tree with
  | Some cache => (inner, tree_tips cache)
  | None =>
      let tips_set := compute_tree_tips (entries inner) tree in
      (with_tips inner (<[ tree :=
         mkTreeTipsCache tips_set (subtree_tips (cache_at (mem_tips inner) tree)) ]> (mem_tips inner)),
       tips_set)
  end.

Definition compute_store_tips_from_all_entries (es : gmap ID Entry) (tree : ID) (subtree : string) :
    gset ID :=
  list_to_set (fst <$> filter (fun kv =>
    in_tree kv.2 tree && in_subtree kv.2 subtree && is_subtree_tip es tree subtree kv.1 = true)
    (map_to_list es)).

(** [cache.subtree_tips.insert(subtree, tips_set)]. *)
Definition cache_store_tips (inner : InMemoryInner) (tree : ID) (subtree : string) (s : gset ID) :
    InMemoryInner :=
  let cache := cache_at (mem_tips inner) tree in
  with_tips inner (<[ tree :=
    mkTreeTipsCache (tree_tips cache) (<[ subtree := s ]> (subtree_tips cache)) ]> (mem_tips inner)).

Definition cached_store_tips (inner : InMemoryInner) (tree : ID) (subtree : string) :
    option (gset ID) :=
  cache ← mem_tips inner !! tree; subtree_tips cache !! subtree.

Definition traversal_store_snapshot (inner : InMemoryInner) (tree : ID) (subtree : string) :
    InMemoryInner * gset ID :=
  match cached_store_tips inner tree subtree with
  | Some s => (inner, s)
  | None =>
      let s := compute_store_tips_from_all_entries (entries inner) tree subtree in
      (cache_store_tips inner tree subtree s, s)
  end.

(** [InMemory::snapshot] and [InMemory::store_snapshot]: the cached value is
    read under the read lock, the slow path is as above. *)
Definition mem_snapshot (inner : InMemoryInner) (tree : ID) : InMemoryInner * Snapshot :=
  let r := traversal_snapshot inner tree in (r.1, Snapshot_new (elements r.2)).

Definition mem_store_snapshot (inner : InMemoryInner) (tree : ID) (subtree : string) :
    InMemoryInner * Snapshot :=
  let r := traversal_store_snapshot inner tree subtree in (r.1, Snapshot_new (elements r.2)).
End backend.

(** ** What the caches should hold *)

Section backend_facts.
Context `{CD : CodecSpec}.

(** [id] names an entry of the group that no entry of the group has as a
    parent. *)
Definition tip (member : Entry -> bool) (parents_of : Entry -> list ID) (es : gmap ID Entry)
    (id : ID) : Prop :=
  (exists e, es !! id = Some e /\ member e = true)
  /\ forall id' e', es !! id' = Some e' -> member e' = true -> id ∉ parents_of e'.

Definition tree_tip (es : gmap ID Entry) (tree id : ID) : Prop :=
  tip (fun e => in_tree e tree) Entry_parents es id.

Definition store_tip (es : gmap ID Entry) (tree : ID) (subtree : string) (id : ID) : Prop :=
  tip (fun e => in_store e tree subtree) (subtree_parents_or_nil subtree) es id.

(** Every entry is stored under its own ID. *)
Definition ids_ok (es : gmap ID Entry) : Prop := forall id e, es !! id = Some e -> Entry_id e = id.

(** [tree] is not the ID of an entry that belongs to another tree. *)
Definition proper_tree (es : gmap ID Entry) (tree : ID) : Prop :=
  forall e, es !! tree = Some e -> tn_root (e_tree e) = None.

(** The tree an entry belongs to. *)
Definition tree_of (id : ID) (e : Entry) : ID := default id (tn_root (e_tree e)).

Lemma elem_of_entry_values es e : e ∈ entry_values es <-> exists id, es !! id = Some e.
Proof.
  unfold entry_values. rewrite list_elem_of_fmap. split.
  - intros ([id e'] & -> & H%elem_of_map_to_list). eauto.
  - intros (id & H). exists (id, e). split; [done|]. by apply elem_of_map_to_list.
Qed.

Lemma childless_iff parents_of l id :
  childless parents_of l id = true <-> forall e, e ∈ l -> id ∉ parents_of e.
Proof.
  unfold childless. rewrite List.forallb_forall. setoid_rewrite <- list_elem_of_In.
  setoid_rewrite negb_true_iff. setoid_rewrite bool_decide_eq_false. done.
Qed.

Lemma elem_of_tips_of member parents_of es id :
  ids_ok es ->
  id ∈ tips_of parents_of (filter (fun e => member e = true) (entry_values es))
  <-> tip member parents_of es id.
Proof.
  intros Hids. unfold tips_of, tip.
  rewrite elem_of_list_to_set, list_elem_of_fmap.
  setoid_rewrite list_elem_of_filter. setoid_rewrite childless_iff.
  setoid_rewrite list_elem_of_filter. setoid_rewrite elem_of_entry_values. split.
  - intros (e & -> & Hc & Hm & i & Hi). pose proof (Hids _ _ Hi) as Hid. subst i. naive_solver.
  - intros [(e & He & Hm) Hc]. exists e. pose proof (Hids _ _ He) as <-. naive_solver.
Qed.

Lemma is_tip_iff es tree id :
  is_tip es tree id = true <->
  forall id' e', es !! id' = Some e' -> in_tree e' tree = true -> id ∉ Entry_parents e'.
Proof.
  unfold is_tip. rewrite List.forallb_forall. setoid_rewrite <- list_elem_of_In.
  setoid_rewrite elem_of_entry_values. setoid_rewrite negb_true_iff.
  setoid_rewrite andb_false_iff. setoid_rewrite bool_decide_eq_false. split.
  - intros H id' e' He Ht. destruct (H e') as [?|?]; [eauto|congruence|done].
  - intros H e' (id' & He). destruct (in_tree e' tree) eqn:Et; [right; by eapply H|by left].
Qed.

Lemma find_subtree_In l name :
  is_Some (find_subtree l name) <-> name ∈ st_name <$> l.
Proof.
  split.
  - intros (n & [Hn <-]%find_subtree_Some). by apply list_elem_of_fmap_2.
  - intros (n & -> & Hn)%list_elem_of_fmap. unfold find_subtree.
    destruct (List.find _ l) eqn:E; [eauto|].
    rewrite list_elem_of_In in Hn. apply (List.find_none _ _ E n) in Hn.
    by rewrite bool_decide_true in Hn.
Qed.

Lemma in_subtree_iff e name : in_subtree e name = true <-> name ∈ Entry_subtrees e.
Proof.
  unfold in_subtree. rewrite has_subtree_true. unfold Entry_subtrees.
  rewrite list_elem_of_fmap. naive_solver.
Qed.

Lemma is_subtree_tip_iff es tree subtree id :
  is_subtree_tip es tree subtree id = true <->
  forall id' e', es !! id' = Some e' -> in_store e' tree subtree = true ->
    id ∉ subtree_parents_or_nil subtree e'.
Proof.
  unfold is_subtree_tip. rewrite List.forallb_forall. setoid_rewrite <- list_elem_of_In.
  setoid_rewrite elem_of_entry_values. setoid_rewrite negb_true_iff.
  assert (forall e, in_tree e tree && bool_decide (subtree ∈ Entry_subtrees e)
     && match subtree_parents e subtree with
        | Ok store_parents => bool_decide (id ∈ store_parents) | Err _ => false end
     = in_store e tree subtree && bool_decide (id ∈ subtree_parents_or_nil subtree e)) as Heq.
  { intros e. unfold in_store, subtree_parents_or_nil.
    replace (bool_decide (subtree ∈ Entry_subtrees e)) with (in_subtree e subtree).
    - destruct (subtree_parents e subtree); [done|].
      by rewrite (bool_decide_false (id ∈ [])) by set_solver.
    - apply eq_true_iff_eq. by rewrite in_subtree_iff, bool_decide_eq_true. }
  setoid_rewrite Heq. setoid_rewrite andb_false_iff. setoid_rewrite bool_decide_eq_false.
  split.
  - intros H id' e' He Ht. destruct (H e') as [?|?]; [eauto|congruence|done].
  - intros H e' (id' & He). destruct (in_store e' tree subtree) eqn:Et; [right; by eapply H|by left].
Qed.

Lemma elem_of_compute_tree_tips es tree id :
  ids_ok es -> id ∈ compute_tree_tips es tree <-> tree_tip es tree id.
Proof.
  intros Hids. unfold compute_tree_tips, tree_tip, tip.
  rewrite elem_of_list_to_set, list_elem_of_fmap. setoid_rewrite list_elem_of_filter.
  rewrite <- is_tip_iff. split.
  - intros ([i e] & -> & Hb & He%elem_of_map_to_list). simpl in *.
    rewrite !andb_true_iff in Hb. destruct Hb as [[Ht Htip] _]. eauto.
  - intros [(e & He & Ht) Htip]. exists (id, e). split; [done|].
    rewrite elem_of_map_to_list. split; [|done]. simpl. rewrite Ht, Htip. simpl.
    destruct (Entry_is_root e) eqn:Er; [simpl|done]. apply bool_decide_eq_true.
    unfold in_tree in Ht. apply orb_true_iff in Ht as [Ht|Ht]; [|by apply bool_decide_eq_true in Ht].
    apply bool_decide_eq_true in Ht. unfold Entry_is_root in Er. rewrite Ht in Er.
    by rewrite andb_false_r in Er.
Qed.

Lemma elem_of_compute_store_tips es tree subtree id :
  id ∈ compute_store_tips_from_all_entries es tree subtree <-> store_tip es tree subtree id.
Proof.
  unfold compute_store_tips_from_all_entries, store_tip, tip.
  rewrite elem_of_list_to_set, list_elem_of_fmap. setoid_rewrite list_elem_of_filter.
  rewrite <- is_subtree_tip_iff. split.
  - intros ([i e] & -> & Hb & He%elem_of_map_to_list). simpl in *.
    rewrite !andb_true_iff in Hb. destruct Hb as [[Ht Hs] Htip].
    split; [|done]. exists e. split; [done|]. unfold in_store. by rewrite Ht, Hs.
  - intros [(e & He & Ht) Htip]. exists (id, e). split; [done|].
    rewrite elem_of_map_to_list. split; [|done]. simpl. unfold in_store in Ht. by rewrite Ht, Htip.
Qed.

(** ** The invariant of the store *)

(** A tree's cache is exact: its tree tips, and the tips of every store it has
    computed. *)
Definition cache_exact (es : gmap ID Entry) (tree : ID) (c : TreeTipsCache) : Prop :=
  (forall id, id ∈ tree_tips c <-> tree_tip es tree id)
  /\ forall s ids, subtree_tips c !! s = Some ids -> forall id, id ∈ ids <-> store_tip es tree s id.

Record mem_inv (inner : InMemoryInner) : Prop := {
  mi_ids : ids_ok (entries inner);
  mi_valid id e : entries inner !! id = Some e -> Entry_validate e = Ok tt;
  mi_status : dom (verification_status inner) = dom (entries inner);
  mi_cached id e : entries inner !! id = Some e -> is_Some (mem_tips inner !! tree_of id e);
  mi_tips tree c :
    mem_tips inner !! tree = Some c -> proper_tree (entries inner) tree ->
    cache_exact (entries inner) tree c;
}.

Lemma in_tree_cases e tree :
  in_tree e tree = true <-> tn_root (e_tree e) = Some tree \/ Entry_id e = tree.
Proof. unfold in_tree. by rewrite orb_true_iff, !bool_decide_eq_true. Qed.

(** Entries of a proper tree have that tree cached. *)
Lemma in_tree_tree_of es id e tree :
  ids_ok es -> proper_tree es tree -> es !! id = Some e -> in_tree e tree = true ->
  tree_of id e = tree.
Proof.
  intros Hids Hp He [Hr|Hi]%in_tree_cases; unfold tree_of; [by rewrite Hr|].
  rewrite (Hids _ _ He) in Hi. subst tree. by rewrite (Hp e).
Qed.

Lemma uncached_no_tips inner tree :
  mem_inv inner -> proper_tree (entries inner) tree -> mem_tips inner !! tree = None ->
  cache_exact (entries inner) tree TreeTipsCache_default.
Proof.
  intros Hinv Hp Hn. split; [|done]. intros id. split; [set_solver|].
  intros [(e & He & Ht) _]. apply (in_tree_tree_of (entries inner) id) in Ht; [|by apply mi_ids|done..].
  apply (mi_cached _ Hinv) in He as [c Hc]. congruence.
Qed.

Lemma cache_at_exact inner tree :
  mem_inv inner -> proper_tree (entries inner) tree ->
  cache_exact (entries inner) tree (cache_at (mem_tips inner) tree).
Proof.
  intros Hinv Hp. unfold cache_at. destruct (mem_tips inner !! tree) eqn:E; simpl.
  - by apply (mi_tips _ Hinv).
  - by apply (uncached_no_tips inner).
Qed.

(** ** Putting an entry *)

Lemma tip_insert_other member parents_of es i e id :
  es !! i = None -> member e = false ->
  tip member parents_of (<[ i := e ]> es) id <-> tip member parents_of es id.
Proof.
  intros Hi Hm. unfold tip. split.
  - intros [(e' & He & Hm') Hc]. apply lookup_insert_Some in He as [[-> ->]|[Hne He]]; [congruence|].
    split; [eauto|]. intros id' e'' He' Hm''. apply (Hc id'); [|done].
    rewrite lookup_insert_ne; [done|]. intros ->. congruence.
  - intros [(e' & He & Hm') Hc]. split.
    + exists e'. rewrite lookup_insert_ne; [done|]. intros ->. congruence.
    + intros id' e'' [[-> ->]|[Hne He']]%lookup_insert_Some; [congruence|]. by apply (Hc id').
Qed.

Lemma ids_ok_insert es e : ids_ok es -> ids_ok (<[ Entry_id e := e ]> es).
Proof. intros H id e' [[<- <-]|[_ He]]%lookup_insert_Some; [done|by apply H]. Qed.

Lemma foldl_subtree_tips es tree names cache :
  let c := foldl (update_subtree_tips es tree) cache names in
  tree_tips c = tree_tips cache
  /\ forall s, subtree_tips c !! s =
       if decide (s ∈ names) then
         Some (tips_of (subtree_parents_or_nil s)
           (filter (fun e => in_store e tree s = true) (entry_values es)))
       else subtree_tips cache !! s.
Proof.
  cbn zeta. revert cache. induction names as [|n names IH]; intros cache; cbn [foldl].
  { split; [done|]. intros s. by rewrite decide_False by set_solver. }
  destruct (IH (update_subtree_tips es tree cache n)) as [Ht Hs]. split; [done|].
  intros s. rewrite Hs. destruct (decide (s ∈ names)) as [Hin|Hin].
  { by rewrite decide_True by set_solver. }
  cbn [update_subtree_tips subtree_tips]. destruct (decide (s = n)) as [->|Hne].
  - rewrite lookup_insert_eq. by rewrite decide_True by set_solver.
  - rewrite lookup_insert_ne by done. by rewrite decide_False by set_solver.
Qed.

(** The caches after a put of a new entry. *)
Lemma put_tips inner e tree :
  let es := <[ Entry_id e := e ]> (entries inner) in
  entries inner !! Entry_id e = None ->
  mem_tips (storage_put inner e) !! tree =
  if decide (tree = tree_of (Entry_id e) e) then
    Some (foldl (update_subtree_tips es tree)
      (mkTreeTipsCache (tips_of Entry_parents (filter (fun e => in_tree e tree = true) (entry_values es)))
         (subtree_tips (cache_at (mem_tips inner) tree))) (Entry_subtrees e))
  else mem_tips inner !! tree.
Proof.
  cbn zeta. intros Hn. unfold storage_put. rewrite decide_False by (rewrite Hn; by intros [? ?]).
  fold (tree_of (Entry_id e) e). simpl.
  destruct (Entry_is_root e) eqn:Er.
  - assert (tree_of (Entry_id e) e = Entry_id e) as Ht.
    { unfold tree_of. unfold Entry_is_root in Er.
      destruct (tn_root (e_tree e)); [by rewrite andb_false_r in Er|done]. }
    rewrite Ht. case_decide as Heq.
    + subst tree. rewrite lookup_insert_eq. unfold update_tips_for_tree at 1, cache_at at 1.
      rewrite lookup_insert_eq. simpl. unfold update_tips_for_tree, cache_at.
      by rewrite lookup_insert_eq.
    + unfold update_tips_for_tree. by rewrite !lookup_insert_ne.
  - case_decide as Heq.
    + subst tree. rewrite lookup_insert_eq. unfold update_tips_for_tree, cache_at.
      by rewrite lookup_insert_eq.
    + unfold update_tips_for_tree. by rewrite !lookup_insert_ne.
Qed.

Lemma put_entries inner e :
  entries inner !! Entry_id e = None ->
  entries (storage_put inner e) = <[ Entry_id e := e ]> (entries inner)
  /\ verification_status (storage_put inner e) =
     <[ Entry_id e := Unverified ]> (verification_status inner).
Proof. intros Hn. unfold storage_put. by rewrite decide_False by (rewrite Hn; by intros [? ?]). Qed.

Lemma put_known inner e : is_Some (entries inner !! Entry_id e) -> storage_put inner e = inner.
Proof. intros H. unfold storage_put. by rewrite decide_True. Qed.

Lemma put_cache_exact inner e tree c :
  mem_inv inner -> entries inner !! Entry_id e = None ->
  mem_tips (storage_put inner e) !! tree = Some c ->
  proper_tree (<[ Entry_id e := e ]> (entries inner)) tree ->
  cache_exact (<[ Entry_id e := e ]> (entries inner)) tree c.
Proof.
  intros Hinv Hn Hc Hp. rewrite put_tips in Hc by done.
  assert (ids_ok (<[ Entry_id e := e ]> (entries inner))) as Hids
    by (apply ids_ok_insert, mi_ids, Hinv).
  assert (proper_tree (entries inner) tree) as Hp'.
  { intros e' He'. apply Hp. rewrite lookup_insert_ne; [done|]. intros <-. congruence. }
  case_decide as Heq.
  - injection Hc as <-. destruct (foldl_subtree_tips (<[ Entry_id e := e ]> (entries inner)) tree
      (Entry_subtrees e) (mkTreeTipsCache (tips_of Entry_parents (filter (fun e => in_tree e tree = true)
        (entry_values (<[ Entry_id e := e ]> (entries inner)))))
        (subtree_tips (cache_at (mem_tips inner) tree)))) as [Ht Hs].
    split.
    + intros id. rewrite Ht. by apply elem_of_tips_of.
    + intros s ids. rewrite Hs. case_decide as Hin.
      * intros [= <-] id. by apply elem_of_tips_of.
      * simpl. intros Hold id. destruct (cache_at_exact inner tree Hinv Hp') as [_ Hex].
        rewrite (Hex s ids Hold id). symmetry. apply tip_insert_other; [done|].
        unfold in_store. apply andb_false_iff. right. apply not_true_iff_false.
        by rewrite in_subtree_iff.
  - assert (in_tree e tree = false) as Hnot.
    { apply not_true_iff_false. intros Ht.
      apply (in_tree_tree_of (<[ Entry_id e := e ]> (entries inner)) (Entry_id e)) in Ht;
        [congruence|done|done|]. apply lookup_insert_eq. }
    destruct (mi_tips _ Hinv tree c Hc Hp') as [H1 H2]. split.
    + intros id. rewrite H1. symmetry. by apply tip_insert_other.
    + intros s ids Hs id. rewrite (H2 s ids Hs id). symmetry. apply tip_insert_other; [done|].
      unfold in_store. by rewrite Hnot.
Qed.

Lemma mem_put_inv inner e inner' : mem_inv inner -> mem_put inner e = Ok inner' -> mem_inv inner'.
Proof.
  intros Hinv. unfold mem_put. destruct (Entry_validate e) as [[]|] eqn:Ev; [|done].
  intros [= <-]. destruct (entries inner !! Entry_id e) as [e0|] eqn:Hn.
  { rewrite put_known; [done|]. by exists e0. }
  destruct (put_entries inner e Hn) as [He Hs]. split.
  - rewrite He. apply ids_ok_insert, mi_ids, Hinv.
  - intros id e'. rewrite He. intros [[_ <-]|[_ H]]%lookup_insert_Some; [done|].
    by apply (mi_valid _ Hinv id).
  - by rewrite He, Hs, !dom_insert_L, (mi_status _ Hinv).
  - intros id e'. rewrite He, put_tips by done. case_decide as Heq; [by eexists|].
    intros [[<- <-]|[_ H]]%lookup_insert_Some; [done|]. by apply (mi_cached _ Hinv).
  - intros tree c. rewrite He. by apply put_cache_exact.
Qed.

(** ** The other operations *)

Lemma mem_inv_init : mem_inv InMemory_new.
Proof.
  by split; try done; intros; simpl in *; rewrite ?lookup_empty in *.
Qed.

Lemma with_tips_inv inner tree c :
  mem_inv inner -> (proper_tree (entries inner) tree -> cache_exact (entries inner) tree c) ->
  mem_inv (with_tips inner (<[ tree := c ]> (mem_tips inner))).
Proof.
  intros [H1 H2 H3 H4 H5] Hc. split; simpl; try done.
  - intros id e He. destruct (decide (tree = tree_of id e)) as [->|Hne].
    + rewrite lookup_insert_eq. by eexists.
    + rewrite lookup_insert_ne by done. by apply H4.
  - intros t c' [[<- <-]|[_ H]]%lookup_insert_Some; [done|by apply H5].
Qed.

Lemma traversal_snapshot_inv inner tree :
  mem_inv inner -> mem_inv (traversal_snapshot inner tree).1
    /\ entries (traversal_snapshot inner tree).1 = entries inner
    /\ (proper_tree (entries inner) tree ->
        forall id, id ∈ (traversal_snapshot inner tree).2 <-> tree_tip (entries inner) tree id).
Proof.
  intros Hinv. unfold traversal_snapshot. destruct (mem_tips inner !! tree) as [c|] eqn:E; simpl.
  - split; [done|]. split; [done|]. intros Hp. by apply (mi_tips _ Hinv).
  - assert (forall id, id ∈ compute_tree_tips (entries inner) tree <-> tree_tip (entries inner) tree id)
      as Ht by (intros id; apply elem_of_compute_tree_tips, mi_ids, Hinv).
    split; [|done]. apply with_tips_inv; [done|]. intros Hp. split; [done|]. simpl.
    by apply cache_at_exact.
Qed.

Lemma cache_store_tips_inv inner tree subtree s :
  mem_inv inner -> (forall id, id ∈ s <-> store_tip (entries inner) tree subtree id) ->
  mem_inv (cache_store_tips inner tree subtree s).
Proof.
  intros Hinv Hs. apply with_tips_inv; [done|]. intros Hp.
  destruct (cache_at_exact inner tree Hinv Hp) as [H1 H2]. split; [done|]. simpl.
  intros s' ids [[<- <-]|[_ H]]%lookup_insert_Some; [done|by apply H2].
Qed.

Lemma cached_store_tips_exact inner tree subtree s :
  mem_inv inner -> proper_tree (entries inner) tree -> cached_store_tips inner tree subtree = Some s ->
  forall id, id ∈ s <-> store_tip (entries inner) tree subtree id.
Proof.
  intros Hinv Hp (c & Hc & Hs)%bind_Some. destruct (mi_tips _ Hinv tree c Hc Hp) as [_ H]. by apply H.
Qed.

Lemma traversal_store_snapshot_inv inner tree subtree :
  mem_inv inner -> mem_inv (traversal_store_snapshot inner tree subtree).1
    /\ entries (traversal_store_snapshot inner tree subtree).1 = entries inner
    /\ (proper_tree (entries inner) tree -> forall id,
        id ∈ (traversal_store_snapshot inner tree subtree).2
        <-> store_tip (entries inner) tree subtree id).
Proof.
  intros Hinv. unfold traversal_store_snapshot.
  destruct (cached_store_tips inner tree subtree) as [s|] eqn:E; simpl.
  - split; [done|]. split; [done|]. intros Hp. by eapply cached_store_tips_exact.
  - split; [|split; [done|intros _ id; apply elem_of_compute_store_tips]].
    apply cache_store_tips_inv; [done|]. intros id. apply elem_of_compute_store_tips.
Qed.

Lemma update_status_inv inner id s inner' :
  mem_inv inner -> update_verification_status inner id s = Ok inner' ->
  mem_inv inner' /\ entries inner' = entries inner /\ mem_tips inner' = mem_tips inner.
Proof.
  intros [H1 H2 H3 H4 H5]. unfold update_verification_status.
  case_decide as Hs; [|done]. intros [= <-]. split; [|done]. split; simpl; try done.
  rewrite dom_insert_L, <- H3. apply elem_of_dom in Hs. set_solver.
Qed.
End backend_facts.

(** ** A concrete tree: a root, two children and their merge *)

#[local] Existing Instance nat_cid.
#[local] Existing Instance byte_crypto.
#[local] Existing Instance demo_codec.

Definition demo_root : Entry :=
  mkEntry 0 (mkTreeNode None [] (Some [Byte.x01]) 0) [mkSubTreeNode ROOT [] None None] SigInfo_default.

Definition demo_node (tag : Byte.byte) (height : Z) (parents : list ID) (store_parents : list ID) : Entry :=
  mkEntry 0 (mkTreeNode (Some (demo_id 1)) parents (Some [tag]) height)
    [mkSubTreeNode "data" store_parents (Some []) None] SigInfo_default.

Definition demo_left : Entry := demo_node Byte.x02 1 [demo_id 1] [].
Definition demo_right : Entry := demo_node Byte.x03 1 [demo_id 1] [].
Definition demo_merge : Entry := demo_node Byte.x04 2 [demo_id 2; demo_id 3] [demo_id 2; demo_id 3].

Definition demo_mem : InMemoryInner :=
  storage_put (storage_put (storage_put InMemory_new demo_root) demo_left) demo_right.

Lemma demo_mem_inv : mem_inv demo_mem.
Proof.
  apply (mem_put_inv (storage_put (storage_put InMemory_new demo_root) demo_left) demo_right);
    [|reflexivity].
  apply (mem_put_inv (storage_put InMemory_new demo_root) demo_left); [|reflexivity].
  apply (mem_put_inv InMemory_new demo_root); [|reflexivity]. apply mem_inv_init.
Qed.

Lemma demo_mem_entries :
  entries demo_mem = <[ demo_id 3 := demo_right ]> (<[ demo_id 2 := demo_left ]>
    (<[ demo_id 1 := demo_root ]> ∅)).
Proof. reflexivity. Qed.

Lemma demo_lookup id e :
  entries demo_mem !! id = Some e ->
  (id = demo_id 1 /\ e = demo_root) \/ (id = demo_id 2 /\ e = demo_left) \/ (id = demo_id 3 /\ e = demo_right).
Proof.
  rewrite demo_mem_entries.
  intros [[<- <-]|[_ [[<- <-]|[_ [[<- <-]|[_ H]]%lookup_insert_Some]]%lookup_insert_Some]]%lookup_insert_Some;
    auto. by rewrite lookup_empty in H.
Qed.

Lemma demo_proper : proper_tree (entries demo_mem) (demo_id 1).
Proof. intros e [[_ ->]|[[? _]|[? _]]]%demo_lookup; done. Qed.
