(* ===== verification/Traversal.v ===== *)
(** * Traversals of the DAG (in_memory/storage.rs, in_memory/traversal.rs,
    backend/mod.rs)

    The reads that walk parent references: ancestors of tips, paths, merge
    bases, store tips at a snapshot, and the reachability check used for
    delegation.  Each loop runs with fuel computed from the store; [None] means
    the fuel ran out, which is shown not to happen. *)

From S2P Require Import Prelude.
From S2P Require Import Worklist.
From S2P Require Import Path.
From S2P Require Import Position.
From S2P Require Import Ids.
From S2P Require Import Doc.
From S2P Require Import DocPath.
From S2P Require Import Errors.
From S2P Require Import Crypto.
From S2P Require Import Permission.
From S2P Require Import AuthTypes.
From S2P Require Import Entry.
From S2P Require Import Backend.

Section traversal.
Context `{CD : CodecSpec}.

(** Every parent reference of an entry: a bound on what a visit can push. *)
Definition parent_refs (e : Entry) : nat :=
  (length (Entry_parents e) + sum_list ((fun n => length (st_parents n)) <$> e_subtrees e))%nat.

Definition traversal_fuel (es : gmap ID Entry) (queue : nat) : nat :=
  S (queue + sum_list (parent_refs <$> entry_values es)).

(** ** Entries reachable from tips *)

Fixpoint check_tips (inner : InMemoryInner) (tree : ID) (tips : list ID) : Result unit Error :=
  match tips with
  | [] => Ok tt
  | tip :: rest =>
      match entries inner !! tip with
      | Some entry =>
          if in_tree entry tree then check_tips inner tree rest
          else Err (EBackend (EntryNotInTree tip tree))
      | None => Err (EBackend (EntryNotFound tip))
      end
  end.

Definition tree_visit (es : gmap ID Entry) (tree : ID) (current : ID) :
    Result (option (list Entry * list ID)) Error :=
  match es !! current with
  | Some entry => if in_tree entry tree then Ok (Some ([entry], Entry_parents entry)) else Ok None
  | None => Ok None
  end.

Definition get_tree_from_tips (inner : InMemoryInner) (tree : ID) (tips : list ID) :
    option (Result (list Entry) Error) :=
  if is_nil tips then Some (Ok [])
  else match check_tips inner tree tips with
  | Err e => Some (Err e)
  | Ok _ =>
      r ← worklist (tree_visit (entries inner) tree) FifoPruned
            (traversal_fuel (entries inner) (length tips)) tips ∅ [];
      Some (let? p := r in Ok (sort_entries_by_height p.2))
  end.

Definition store_visit (es : gmap ID Entry) (tree : ID) (subtree : string) (current : ID) :
    Result (option (list Entry * list ID)) Error :=
  match es !! current with
  | Some entry =>
      if in_store entry tree subtree then
        Ok (Some ([entry], subtree_parents_or_nil subtree entry))
      else Ok None
  | None => Ok None
  end.

Definition store_at (inner : InMemoryInner) (tree : ID) (subtree : string) (tips : list ID) :
    option (Result (list Entry) Error) :=
  if is_nil tips then Some (Ok [])
  else
    let to_process := filter (fun tip =>
      match entries inner !! tip with Some e => in_store e tree subtree | None => false end = true) tips in
    r ← worklist (store_visit (entries inner) tree subtree) FifoPruned
          (traversal_fuel (entries inner) (length to_process)) to_process ∅ [];
    Some (let? p := r in Ok (sort_entries_by_subtree_height subtree p.2)).

(** ** Store tips at a snapshot *)

(** [iter] is the order in which the hash set of the current tips is collected
    into a vector: any order. *)
Definition store_snapshot_at (iter : gset ID -> list ID) (inner : InMemoryInner) (tree : ID)
    (subtree : string) (main_entries : list ID) : option (InMemoryInner * Result (gset ID) Error) :=
  if is_nil main_entries then Some (inner, Ok ∅)
  else
    let '(inner, current_tree_tips) := traversal_snapshot inner tree in
    if decide (main_entries = iter current_tree_tips) then
      match cached_store_tips inner tree subtree with
      | Some s => Some (inner, Ok s)
      | None =>
          let computed_tips := compute_store_tips_from_all_entries (entries inner) tree subtree in
          Some (cache_store_tips inner tree subtree computed_tips, Ok computed_tips)
      end
    else
      r ← get_tree_from_tips inner tree main_entries;
      match r with
      | Err e => Some (inner, Err e)
      | Ok all_tree_entries =>
          let subtree_entries := filter (fun e => in_subtree e subtree = true) all_tree_entries in
          if is_nil subtree_entries then Some (inner, Ok ∅)
          else
            let subtree_entry_ids : gset ID := list_to_set (Entry_id <$> subtree_entries) in
            let all_parents : gset ID := list_to_set (filter (fun p => p ∈ subtree_entry_ids)
              (concat (subtree_parents_or_nil subtree <$> subtree_entries))) in
            Some (inner, Ok (subtree_entry_ids ∖ all_parents))
      end.

Definition mem_store_snapshot_at (iter : gset ID -> list ID) (inner : InMemoryInner) (tree : ID)
    (subtree : string) (main_snapshot : Snapshot) : option (InMemoryInner * Result Snapshot Error) :=
  r ← store_snapshot_at iter inner tree subtree (tips main_snapshot);
  Some (r.1, let? s := r.2 in Ok (Snapshot_new (elements s))).

(** ** Paths *)

(** [get_subtree_height]-style lookup used for ordering: 0 when absent. *)
Definition store_height_or_0 (es : gmap ID Entry) (subtree : string) (id : ID) : Z :=
  match es !! id with Some e => subtree_height_or_0 subtree e | None => 0 end.

Definition height_id_leb (es : gmap ID Entry) (subtree : string) (a b : ID) : bool :=
  cmp_leb (cmp_pair Z.compare ID_cmp)
    (store_height_or_0 es subtree a, a) (store_height_or_0 es subtree b, b).

Definition get_sorted_store_parents (inner : InMemoryInner) (tree_id entry_id : ID)
    (subtree : string) : Result (list ID) Error :=
  let? entry := ok_or (entries inner !! entry_id) (EBackend (EntryNotFound entry_id)) in
  if negb (in_tree entry tree_id) || negb (in_subtree entry subtree) then Ok []
  else match subtree_parents entry subtree with
       | Ok parents => Ok (sort_by (height_id_leb (entries inner) subtree) parents)
       | Err _ => Ok []
       end.

Definition path_visit (inner : InMemoryInner) (tree_id : ID) (subtree : string) (from_id : ID)
    (current : ID) : Result (option (list ID * list ID)) Error :=
  if decide (current = from_id) then Ok (Some ([], []))
  else
    let? parents := get_sorted_store_parents inner tree_id current subtree in
    Ok (Some ([current], parents)).

Definition get_path_from_to (inner : InMemoryInner) (tree_id : ID) (subtree : string)
    (from_id : ID) (to_ids : list ID) : option (Result (list ID) Error) :=
  if is_nil to_ids then Some (Ok [])
  else
    let to_process := filter (fun to_id => to_id <> from_id) to_ids in
    r ← worklist (path_visit inner tree_id subtree from_id) FifoPruned
          (traversal_fuel (entries inner) (length to_process)) to_process ∅ [];
    Some (let? p := r in
          Ok (sort_by (height_id_leb (entries inner) subtree) (sort_dedup ID_cmp p.2))).

(** [build_path_from_root]: follow the first parent until a root. *)
Definition path_parents (subtree : string) (entry : Entry) : list ID :=
  if str_is_empty subtree || negb (is_ok (subtree_parents entry subtree)) then Entry_parents entry
  else subtree_parents_or_nil subtree entry.

Fixpoint path_loop (inner : InMemoryInner) (tree : ID) (subtree : string) (fuel : nat)
    (current : ID) (visited : gset ID) (path : list ID) : option (Result (list ID) Error) :=
  match fuel with
  | O => None
  | S fuel =>
      if decide (current ∈ visited) then Some (Err (EBackend (CycleDetected current)))
      else
        let path := path ++ [current] in
        match storage_get inner current with
        | Err e => Some (Err e)
        | Ok entry =>
            if bool_decide (current = tree) || Entry_is_root entry then Some (Ok path)
            else match path_parents subtree entry with
                 | [] => Some (Ok path)
                 | p :: _ => path_loop inner tree subtree fuel p ({[ current ]} ∪ visited) path
                 end
        end
  end.

Definition build_path_from_root (inner : InMemoryInner) (tree : ID) (subtree : string)
    (target_entry : ID) : option (Result (list ID) Error) :=
  r ← path_loop inner tree subtree (S (S (size (entries inner)))) target_entry ∅ [];
  Some (let? path := r in Ok (reverse path)).

Definition collect_root_to_target (inner : InMemoryInner) (tree : ID) (subtree : string)
    (target_entry : ID) : option (Result (list ID) Error) :=
  build_path_from_root inner tree subtree target_entry.

(** ** Merge bases *)

Definition ancestor_visit (inner : InMemoryInner) (subtree : string) (current : ID) :
    Result (option (list unit * list ID)) Error :=
  match storage_get inner current with
  | Ok entry_data => Ok (Some ([], subtree_parents_or_nil subtree entry_data))
  | Err _ => Ok (Some ([], []))
  end.

Definition collect_ancestors (inner : InMemoryInner) (subtree : string) (entry : ID) :
    option (Result (gset ID) Error) :=
  r ← worklist (ancestor_visit inner subtree) Fifo (traversal_fuel (entries inner) 1) [entry] ∅ [];
  Some (let? p := r in Ok p.1).

Definition get_subtree_height (inner : InMemoryInner) (subtree : string) (entry : ID) : Z :=
  match storage_get inner entry with
  | Ok entry_data =>
      match subtree_height entry_data subtree with Ok h => h | Err _ => Entry_height entry_data end
  | Err _ => 0
  end.

(** The early [return Ok(false)] is the error of the walk. *)
Definition bypass_visit (inner : InMemoryInner) (subtree : string) (current : ID) :
    Result (option (list unit * list ID)) unit :=
  match storage_get inner current with
  | Ok entry_data =>
      match subtree_parents entry_data subtree with
      | Ok [] => Err tt
      | Ok parents => Ok (Some ([], parents))
      | Err _ => Err tt
      end
  | Err _ => Ok (Some ([], []))
  end.

Definition all_paths_pass_through (inner : InMemoryInner) (subtree : string) (entry candidate : ID) :
    option bool :=
  if decide (entry = candidate) then Some true
  else
    r ← worklist (bypass_visit inner subtree) Fifo (traversal_fuel (entries inner) 1) [entry]
          {[ candidate ]} [];
    Some (is_ok r).

(** The checks of every entry before the search. *)
Fixpoint check_merge_entries (inner : InMemoryInner) (tree : ID) (ids : list ID) : Result unit Error :=
  match ids with
  | [] => Ok tt
  | id :: rest =>
      match storage_get inner id with
      | Ok entry =>
          match Entry_validate entry with
          | Err _ => Err (EBackend (BackendEntryValidationFailed id))
          | Ok _ =>
              if negb (in_tree entry tree) then Err (EBackend (EntryNotInTree id tree))
              else check_merge_entries inner tree rest
          end
      | Err _ => Err (EBackend (EntryNotFound id))
      end
  end.

(** [option] version of [for .. { .. ? .. }] collecting the results. *)
Fixpoint collect_all {A B} (f : A -> option B) (l : list A) : option (list B) :=
  match l with
  | [] => Some []
  | x :: rest => b ← f x; bs ← collect_all f rest; Some (b :: bs)
  end.

(** The inner loop of step 4, with its early exit. *)
Fixpoint all_entries_pass (inner : InMemoryInner) (subtree : string) (candidate : ID)
    (ids : list ID) : option bool :=
  match ids with
  | [] => Some true
  | id :: rest =>
      b ← all_paths_pass_through inner subtree id candidate;
      if (b : bool) then all_entries_pass inner subtree candidate rest else Some false
  end.

Fixpoint first_dominator (inner : InMemoryInner) (subtree : string) (ids : list ID)
    (candidates : list ID) : option (option ID) :=
  match candidates with
  | [] => Some None
  | candidate :: rest =>
      b ← all_entries_pass inner subtree candidate ids;
      if (b : bool) then Some (Some candidate) else first_dominator inner subtree ids rest
  end.

Definition intersect_all (sets : list (gset ID)) : gset ID :=
  match sets with [] => ∅ | s :: rest => foldl (∩) s rest end.

Definition by_height_desc (inner : InMemoryInner) (subtree : string) (a b : ID) : bool :=
  get_subtree_height inner subtree b <=? get_subtree_height inner subtree a.

(** [iter] is the order in which the hash set of common ancestors is visited. *)
Definition find_merge_base (iter : gset ID -> list ID) (inner : InMemoryInner) (tree : ID)
    (subtree : string) (entry_ids : list ID) : option (Result ID Error) :=
  match entry_ids with
  | [] => Some (Err (EBackend (EmptyEntryList "find_merge_base")))
  | [id] => Some (Ok id)
  | _ =>
      match check_merge_entries inner tree entry_ids with
      | Err e => Some (Err e)
      | Ok _ =>
          rs ← collect_all (collect_ancestors inner subtree) entry_ids;
          match result_collect rs with
          | Err e => Some (Err e)
          | Ok ancestor_sets =>
              let common_ancestors := intersect_all ancestor_sets in
              if decide (common_ancestors = ∅) then
                Some (Err (EBackend (NoCommonAncestor entry_ids)))
              else
                let candidates := sort_by (by_height_desc inner subtree) (iter common_ancestors) in
                r ← first_dominator inner subtree entry_ids candidates;
                Some (ok_or r (EBackend (NoCommonAncestor entry_ids)))
          end
      end
  end.
End traversal.

(** ** Termination *)

Section traversal_facts.
Context `{CD : CodecSpec}.

Lemma find_subtree_refs l name n :
  find_subtree l name = Some n ->
  (length (st_parents n) <= sum_list ((fun n => length (st_parents n)) <$> l))%nat.
Proof.
  intros [Hn _]%find_subtree_Some. induction l as [|m l IH]; [set_solver|].
  rewrite fmap_cons. simpl. apply elem_of_cons in Hn as [->|Hn]; [lia|].
  specialize (IH Hn). lia.
Qed.

Lemma subtree_parents_refs e s : (length (subtree_parents_or_nil s e) <= parent_refs e)%nat.
Proof.
  unfold subtree_parents_or_nil, subtree_parents, parent_refs.
  destruct (find_subtree (e_subtrees e) s) as [n|] eqn:E; simpl; [|lia].
  apply find_subtree_refs in E. lia.
Qed.

Lemma parents_refs e : (length (Entry_parents e) <= parent_refs e)%nat.
Proof. unfold parent_refs. lia. Qed.

(** The fuel of the traversals is enough for any loop that pushes at most an
    entry's parent references when it visits the entry, and nothing for an ID
    without an entry. *)
Lemma traversal_fuel_enough {A E} (visit : ID -> Result (option (list A * list ID)) E)
    mode es queue seen acc :
  (forall x, length (next visit x) <= match es !! x with Some e => parent_refs e | None => 0 end)%nat ->
  exists r, worklist visit mode (traversal_fuel es (length queue)) queue seen acc = Some r.
Proof.
  intros Hv. apply (worklist_fuel visit mode (dom es)).
  - intros x Hx%not_elem_of_dom. specialize (Hv x). rewrite Hx in Hv.
    destruct (next visit x); [done|simpl in Hv; lia].
  - unfold traversal_fuel. apply Nat.lt_succ_r, Nat.add_le_mono_l. unfold out_degree, entry_values.
    apply sum_dom_le. intros x e Hx. specialize (Hv x). by rewrite Hx in Hv.
Qed.

(** ** Entries reachable from tips *)

(** One step to a parent inside a group of entries. *)
Definition edge (member : Entry -> bool) (parents_of : Entry -> list ID) (es : gmap ID Entry)
    (x y : ID) : Prop :=
  exists e, es !! x = Some e /\ member e = true /\ y ∈ parents_of e.

Definition tree_edge (es : gmap ID Entry) (tree : ID) : ID -> ID -> Prop :=
  edge (fun e => in_tree e tree) Entry_parents es.

Definition store_edge (es : gmap ID Entry) (tree : ID) (subtree : string) : ID -> ID -> Prop :=
  edge (fun e => in_store e tree subtree) (subtree_parents_or_nil subtree) es.

(** The visit shared by [get_tree_from_tips] and [store_at]. *)
Definition group_visit (member : Entry -> bool) (parents_of : Entry -> list ID)
    (es : gmap ID Entry) (current : ID) : Result (option (list Entry * list ID)) Error :=
  match es !! current with
  | Some entry => if member entry then Ok (Some ([entry], parents_of entry)) else Ok None
  | None => Ok None
  end.

Lemma wstep_group member parents_of es x y :
  wstep (group_visit member parents_of es) ∅ x y <-> edge member parents_of es x y.
Proof.
  unfold wstep, edge, next, group_visit. split.
  - intros [_ Hy]. destruct (es !! x) as [e|]; [|set_solver].
    destruct (member e) eqn:Em; [eauto|set_solver].
  - intros (e & -> & -> & Hy). split; [set_solver|done].
Qed.

Lemma group_marks member parents_of es x :
  marks (group_visit member parents_of es) x <-> exists e, es !! x = Some e /\ member e = true.
Proof.
  unfold marks, group_visit. split.
  - intros (o & ps & Hm). destruct (es !! x) as [e|]; [|done]. destruct (member e) eqn:Em; [eauto|done].
  - intros (e & -> & ->). eauto.
Qed.

(** The outputs of marked nodes are their entries. *)
Lemma group_outputs member parents_of es ord :
  ids_ok es -> (forall x, x ∈ ord -> marks (group_visit member parents_of es) x) ->
  let outs := concat (out (group_visit member parents_of es) <$> ord) in
  Entry_id <$> outs = ord /\ forall e, e ∈ outs <-> exists id, id ∈ ord /\ es !! id = Some e.
Proof.
  cbn zeta. intros Hids Hm. induction ord as [|x ord IH]; [set_solver|].
  destruct IH as [IH1 IH2]; [set_solver|].
  destruct (proj1 (group_marks member parents_of es x)) as (e & He & Hmem); [set_solver|].
  rewrite fmap_cons, concat_cons.
  assert (out (group_visit member parents_of es) x = [e]) as ->
    by (unfold out, group_visit; by rewrite He, Hmem).
  rewrite fmap_app, IH1. split; [simpl; by rewrite (Hids _ _ He)|].
  intros e'. rewrite elem_of_app, IH2, list_elem_of_singleton. split.
  - intros [->|(id & Hid & He')]; [exists x; set_solver|exists id; set_solver].
  - intros (id & [->|Hid]%elem_of_cons & He'); [left; congruence|right; eauto].
Qed.

Lemma group_search member parents_of es queue :
  ids_ok es -> (forall e, length (parents_of e) <= parent_refs e)%nat ->
  exists seen acc,
    worklist (group_visit member parents_of es) FifoPruned (traversal_fuel es (length queue)) queue ∅ []
      = Some (Ok (seen, acc))
    /\ NoDup acc
    /\ forall e, e ∈ acc <-> exists id, es !! id = Some e /\ member e = true
         /\ exists q, q ∈ queue /\ rtc (edge member parents_of es) q id.
Proof.
  intros Hids Hrefs. set (visit := group_visit member parents_of es).
  destruct (traversal_fuel_enough visit FifoPruned es queue ∅ []) as [r Hr].
  { intros x. unfold visit, next, group_visit. destruct (es !! x) as [e|]; [|done].
    destruct (member e); [apply Hrefs|simpl; lia]. }
  destruct r as [[seen acc]|e].
  2: { apply worklist_err in Hr as (x & _ & _ & Hx). unfold visit, group_visit in Hx.
       destruct (es !! x) as [e'|]; [by destruct (member e')|done]. }
  exists seen, acc. split; [done|].
  apply worklist_ok in Hr as (_ & _ & ord & Hnd & Hord & ->). rewrite app_nil_l.
  destruct (group_outputs member parents_of es ord) as [Hmap Hel]; [done| |].
  { intros x Hx. by apply Hord in Hx as (_ & ? & _). }
  fold visit in Hmap, Hel. split; [apply (NoDup_fmap_1 Entry_id); by rewrite Hmap|].
  assert (forall q x, rtc (wstep visit ∅) q x <-> rtc (edge member parents_of es) q x) as Hrtc.
  { intros q x. split; (induction 1; [apply rtc_refl|eapply rtc_l; [by apply wstep_group|done]]). }
  intros e. rewrite Hel. split.
  - intros (id & Hin & He). apply Hord in Hin as (_ & Hm & q & Hq & Hreach).
    apply group_marks in Hm as (e' & He' & Hm). exists id. split; [done|].
    split; [congruence|]. exists q. split; [done|]. by apply Hrtc.
  - intros (id & He & Hm & q & Hq & Hreach). exists id. split; [|done]. apply Hord.
    split; [set_solver|]. split; [apply group_marks; eauto|].
    exists q. split; [done|]. by apply Hrtc.
Qed.

Lemma check_tips_spec inner tree tips :
  match check_tips inner tree tips with
  | Ok _ => forall t, t ∈ tips -> exists e, entries inner !! t = Some e /\ in_tree e tree = true
  | Err err => exists t, t ∈ tips /\
      ((entries inner !! t = None /\ err = EBackend (EntryNotFound t))
       \/ exists e, entries inner !! t = Some e /\ in_tree e tree = false
          /\ err = EBackend (EntryNotInTree t tree))
  end.
Proof.
  induction tips as [|t tips IH]; simpl; [set_solver|].
  destruct (entries inner !! t) as [e|] eqn:E; [|exists t; set_solver].
  destruct (in_tree e tree) eqn:Et; [|exists t; set_solver].
  destruct (check_tips inner tree tips).
  - intros t' [->|Ht]%elem_of_cons; eauto.
  - destruct IH as (t' & Ht' & H). exists t'. split; [set_solver|done].
Qed.

Lemma check_tips_ok inner tree tips :
  (forall t, t ∈ tips -> exists e, entries inner !! t = Some e /\ in_tree e tree = true) ->
  check_tips inner tree tips = Ok tt.
Proof.
  induction tips as [|t tips IH]; intros H; simpl; [done|].
  destruct (H t) as (e & -> & ->); [set_solver|]. apply IH. set_solver.
Qed.

(** Sorted by height, then ID. *)
Definition height_sorted (height : Entry -> Z) (l : list Entry) : Prop :=
  Sorted (fun a b => entry_leb height a b = true) l.

Lemma sort_entries_sorted height l : height_sorted height (sort_by (entry_leb height) l).
Proof. apply sort_by_sorted. intros a b. apply cmp_leb_total, _. Qed.

(** The walk of [get_tree_from_tips] once the tips are checked. *)
Lemma tree_from_checked_tips inner tree tips :
  ids_ok (entries inner) -> check_tips inner tree tips = Ok tt ->
  exists acc, get_tree_from_tips inner tree tips = Some (Ok (sort_entries_by_height acc))
    /\ NoDup acc
    /\ forall e, e ∈ acc <-> exists id, entries inner !! id = Some e /\ in_tree e tree = true
         /\ exists t, t ∈ tips /\ rtc (tree_edge (entries inner) tree) t id.
Proof.
  intros Hids Hc. unfold get_tree_from_tips. destruct tips as [|t0 tips0] eqn:Et; simpl is_nil; cbn iota.
  { exists []. split; [done|]. split; [constructor|]. set_solver. }
  rewrite <- Et in *. rewrite Hc.
  destruct (group_search (fun e => in_tree e tree) Entry_parents (entries inner) tips)
    as (seen & acc & Hw & Hnd & Hacc); [done|apply parents_refs|].
  change (tree_visit (entries inner) tree)
    with (group_visit (fun e => in_tree e tree) Entry_parents (entries inner)).
  rewrite Hw. by exists acc.
Qed.

(** [get_tree_from_tips] terminates; it fails exactly when a tip is missing
    or belongs to another tree, and otherwise returns, each once and sorted by
    height and ID, exactly the entries of the tree reachable from the tips
    through parents within the tree. *)
Theorem get_tree_from_tips_spec inner tree tips :
  ids_ok (entries inner) ->
  match get_tree_from_tips inner tree tips with
  | None => False
  | Some (Err err) => exists t, t ∈ tips /\
      ((entries inner !! t = None /\ err = EBackend (EntryNotFound t))
       \/ exists e, entries inner !! t = Some e /\ in_tree e tree = false
          /\ err = EBackend (EntryNotInTree t tree))
  | Some (Ok result) =>
      (forall t, t ∈ tips -> exists e, entries inner !! t = Some e /\ in_tree e tree = true)
      /\ NoDup result /\ height_sorted Entry_height result
      /\ forall e, e ∈ result <-> exists id, entries inner !! id = Some e /\ in_tree e tree = true
           /\ exists t, t ∈ tips /\ rtc (tree_edge (entries inner) tree) t id
  end.
Proof.
  intros Hids. pose proof (check_tips_spec inner tree tips) as Hc.
  destruct (check_tips inner tree tips) as [[]|err] eqn:Ec.
  - destruct (tree_from_checked_tips inner tree tips) as (acc & -> & Hnd & Hacc); [done..|].
    split; [done|]. unfold sort_entries_by_height. split; [by rewrite sort_by_perm|].
    split; [apply sort_entries_sorted|]. intros e. rewrite elem_of_sort_by. apply Hacc.
  - unfold get_tree_from_tips. rewrite Ec. destruct tips; [done|exact Hc].
Qed.

(** The walk of [store_at]. *)
Lemma store_at_walk inner tree subtree tips :
  ids_ok (entries inner) ->
  exists acc, store_at inner tree subtree tips
      = Some (Ok (sort_entries_by_subtree_height subtree acc))
    /\ NoDup acc
    /\ forall e, e ∈ acc <-> exists id,
         entries inner !! id = Some e /\ in_store e tree subtree = true
         /\ exists t, t ∈ tips /\ rtc (store_edge (entries inner) tree subtree) t id.
Proof.
  intros Hids. unfold store_at. destruct tips as [|t0 tips0] eqn:Et; simpl is_nil; cbn iota.
  { exists []. split; [done|]. split; [constructor|]. set_solver. }
  rewrite <- Et. clear Et t0 tips0. set (queue := filter _ tips).
  destruct (group_search (fun e => in_store e tree subtree) (subtree_parents_or_nil subtree)
    (entries inner) queue) as (seen & acc & Hw & Hnd & Hacc); [done|intros e; apply subtree_parents_refs|].
  change (store_visit (entries inner) tree subtree)
    with (group_visit (fun e => in_store e tree subtree) (subtree_parents_or_nil subtree) (entries inner)).
  rewrite Hw. exists acc. split; [done|]. split; [done|].
  intros e. rewrite Hacc. split.
  - intros (id & He & Hm & q & Hq & Hr). unfold queue in Hq.
    apply list_elem_of_filter in Hq as [_ Hq]. eauto 10.
  - intros (id & He & Hm & q & Hq & Hr). exists id. split; [done|]. split; [done|]. exists q.
    split; [|done]. unfold queue. apply list_elem_of_filter. split; [|done].
    destruct Hr as [|x y z (e' & -> & Hm' & _) _]; [by rewrite He|done].
Qed.

(** [store_at] terminates without error and returns, each once and sorted
    by store height and ID, exactly the entries of the store reachable through
    store parents from those tips that belong to the store; other tips are
    ignored. *)
Theorem store_at_spec inner tree subtree tips :
  ids_ok (entries inner) ->
  exists result, store_at inner tree subtree tips = Some (Ok result)
    /\ NoDup result /\ height_sorted (subtree_height_or_0 subtree) result
    /\ forall e, e ∈ result <-> exists id,
         entries inner !! id = Some e /\ in_store e tree subtree = true
         /\ exists t, t ∈ tips /\ rtc (store_edge (entries inner) tree subtree) t id.
Proof.
  intros Hids. destruct (store_at_walk inner tree subtree tips Hids) as (acc & -> & Hnd & Hacc).
  eexists; split; [done|]. unfold sort_entries_by_subtree_height.
  split; [by rewrite sort_by_perm|]. split; [apply sort_entries_sorted|].
  intros e. by rewrite elem_of_sort_by.
Qed.
End traversal_facts.

(** ** Runs on the concrete tree *)

#[local] Existing Instance nat_cid.
#[local] Existing Instance byte_crypto.
#[local] Existing Instance demo_codec.

Lemma get_tree_from_tips_spec_witness :
  get_tree_from_tips demo_mem (demo_id 1) [demo_id 2] = Some (Ok [demo_root; demo_left])
  /\ rtc (tree_edge (entries demo_mem) (demo_id 1)) (demo_id 2) (demo_id 1).
Proof.
  assert (get_tree_from_tips demo_mem (demo_id 1) [demo_id 2] = Some (Ok [demo_root; demo_left])) as E
    by reflexivity.
  split; [exact E|].
  pose proof (get_tree_from_tips_spec demo_mem (demo_id 1) [demo_id 2] (mi_ids _ demo_mem_inv)) as H.
  rewrite E in H. destruct H as (_ & _ & _ & H).
  destruct (proj1 (H demo_root)) as (id & He & _ & t & Ht & Hr); [by left|].
  apply list_elem_of_singleton in Ht. subst t.
  apply demo_lookup in He as [[-> _]|[[_ He]|[_ He]]]; [exact Hr|discriminate He|discriminate He].
Defined.

Lemma store_at_spec_witness :
  exists result, store_at demo_mem (demo_id 1) "data" [demo_id 3; demo_id 1] = Some (Ok result)
    /\ demo_right ∈ result.
Proof.
  destruct (store_at_spec demo_mem (demo_id 1) "data" [demo_id 3; demo_id 1] (mi_ids _ demo_mem_inv))
    as (result & E & _ & _ & H).
  exists result. split; [exact E|]. apply H. exists (demo_id 3).
  split; [reflexivity|]. split; [reflexivity|]. exists (demo_id 3). split; [by left|apply rtc_refl].
Defined.
