(* ===== verification/Reachability.v ===== *)
(** * Bounded reachability (backend/mod.rs, check_targets_reachable_from)

    The default method of the backend trait, as the in-memory backend runs it:
    are all targets ancestors of the claimed tips?  The verdict has three
    values, and the negative one is meant to be definite even though the local
    history may be partial. *)

From S2P Require Import Prelude.
From S2P Require Import Worklist.
From S2P Require Import Path.
From S2P Require Import Position.
From S2P Require Import Ids.
From S2P Require Import Doc.
From S2P Require Import DocPath.
From S2P Require Import Errors.
From S2P Require Import Crypto.
From S2P Require Import Permission.
From S2P Require Import AuthTypes.
From S2P Require Import Entry.
From S2P Require Import Backend.
From S2P Require Import Traversal.

Section reachability.
Context `{CD : CodecSpec}.

Inductive Reachability : Type :=
  | Reachable
  | Unreachable
  | Indeterminate (missing : list ID).

(** The loop over the targets: unmet targets, missing ones, the height floor. *)
Fixpoint scan_targets (inner : InMemoryInner) (tree : ID) (targets : list ID)
    (unmet : gset ID) (missing : list ID) (floor_height : Z) : Result (gset ID * list ID * Z) Error :=
  match targets with
  | [] => Ok (unmet, missing, floor_height)
  | target :: rest =>
      match storage_get inner target with
      | Ok entry =>
          if negb (in_tree entry tree) then Err (EBackend (EntryNotInTree target tree))
          else scan_targets inner tree rest ({[ target ]} ∪ unmet) missing
                 (Z.min floor_height (Entry_height entry))
      | Err _ =>
          scan_targets inner tree rest ({[ target ]} ∪ unmet) (missing ++ [target]) floor_height
      end
  end.

Record WalkState : Type := mkWalkState {
  ws_visited : gset ID;
  ws_unmet : gset ID;
  ws_missing : list ID;
  ws_stack : list ID;
}.

(** [stack.extend(parents)], with the top of the stack first. *)
Definition push_parents (entry : Entry) (floor_height : Z) (stack : list ID) : list ID :=
  if Entry_height entry >? floor_height then reverse (Entry_parents entry) ++ stack else stack.

(** The loop that seeds the walk with [from]. *)
Fixpoint seed_from (inner : InMemoryInner) (tree : ID) (floor_height : Z) (from : list ID)
    (s : WalkState) : Result WalkState Error :=
  match from with
  | [] => Ok s
  | tip :: rest =>
      match storage_get inner tip with
      | Ok entry =>
          if negb (in_tree entry tree) then Err (EBackend (EntryNotInTree tip tree))
          else if decide (tip ∈ ws_visited s) then seed_from inner tree floor_height rest s
          else seed_from inner tree floor_height rest
                 (mkWalkState ({[ tip ]} ∪ ws_visited s) (ws_unmet s ∖ {[ tip ]}) (ws_missing s)
                    (push_parents entry floor_height (ws_stack s)))
      | Err _ =>
          seed_from inner tree floor_height rest
            (mkWalkState (ws_visited s) (ws_unmet s) (ws_missing s ++ [tip]) (ws_stack s))
      end
  end.

(** The bounded ancestor walk; [None] means the fuel ran out. *)
Fixpoint reach_walk (inner : InMemoryInner) (tree : ID) (floor_height : Z) (fuel : nat)
    (s : WalkState) : option WalkState :=
  match fuel with
  | O => None
  | S fuel =>
      if decide (ws_unmet s = ∅) then Some s
      else match ws_stack s with
      | [] => Some s
      | current :: stack =>
          if decide (current ∈ ws_visited s) then
            reach_walk inner tree floor_height fuel
              (mkWalkState (ws_visited s) (ws_unmet s) (ws_missing s) stack)
          else
            let visited := {[ current ]} ∪ ws_visited s in
            match storage_get inner current with
            | Ok entry =>
                if negb (in_tree entry tree) then
                  reach_walk inner tree floor_height fuel
                    (mkWalkState visited (ws_unmet s) (ws_missing s) stack)
                else
                  reach_walk inner tree floor_height fuel
                    (mkWalkState visited (ws_unmet s ∖ {[ current ]}) (ws_missing s)
                       (push_parents entry floor_height stack))
            | Err _ =>
                reach_walk inner tree floor_height fuel
                  (mkWalkState visited (ws_unmet s) (ws_missing s ++ [current]) stack)
            end
      end
  end.

Definition check_targets_reachable_from (inner : InMemoryInner) (tree : ID) (from targets : list ID) :
    option (Result Reachability Error) :=
  if is_nil from && negb (is_nil targets) then Some (Ok Unreachable)
  else
    match scan_targets inner tree targets ∅ [] u64_max with
    | Err e => Some (Err e)
    | Ok (unmet, missing, floor_height) =>
        match seed_from inner tree floor_height from (mkWalkState ∅ unmet missing []) with
        | Err e => Some (Err e)
        | Ok s =>
            s ← reach_walk inner tree floor_height
                  (traversal_fuel (entries inner) (length (ws_stack s))) s;
            Some (Ok (if decide (ws_unmet s = ∅) then Reachable
                      else if negb (is_nil (ws_missing s))
                      then Indeterminate (sort_dedup ID_cmp (ws_missing s))
                      else Unreachable))
        end
    end.

(** ** Facts *)

Definition member_of (es : gmap ID Entry) (tree : ID) (x : ID) : Prop :=
  exists e, es !! x = Some e /\ in_tree e tree = true.

Definition foreign (es : gmap ID Entry) (tree : ID) (x : ID) : Prop :=
  exists e, es !! x = Some e /\ in_tree e tree = false.

(** [x] is one of the tips or an ancestor of one. *)
Definition below (es : gmap ID Entry) (tree : ID) (from : list ID) (x : ID) : Prop :=
  exists f, f ∈ from /\ rtc (tree_edge es tree) f x.

(** A parent is lower than its child. *)
Definition heights_decrease (es : gmap ID Entry) (tree : ID) : Prop :=
  forall x y e e', tree_edge es tree x y -> es !! x = Some e -> es !! y = Some e' ->
    Entry_height e' < Entry_height e.

Lemma scan_targets_spec inner tree targets unmet missing floor :
  match scan_targets inner tree targets unmet missing floor with
  | Err err => exists x, x ∈ targets /\ foreign (entries inner) tree x
      /\ err = EBackend (EntryNotInTree x tree)
  | Ok (unmet', missing', floor') =>
      unmet' = list_to_set targets ∪ unmet
      /\ (forall x, x ∈ missing' <-> x ∈ missing \/ (x ∈ targets /\ entries inner !! x = None))
      /\ floor' <= floor
      /\ forall x e, x ∈ targets -> entries inner !! x = Some e ->
           in_tree e tree = true /\ floor' <= Entry_height e
  end.
Proof.
  revert unmet missing floor. induction targets as [|t targets IH]; intros unmet missing floor; simpl.
  { split; [set_solver|]. split; [set_solver|]. split; [lia|set_solver]. }
  unfold storage_get. destruct (entries inner !! t) as [e|] eqn:E; simpl.
  - destruct (in_tree e tree) eqn:Et; simpl; [|exists t; split; [by left|]; split; [by exists e|done]].
    specialize (IH ({[ t ]} ∪ unmet) missing (Z.min floor (Entry_height e))).
    destruct (scan_targets _ _ _ _ _ _) as [[[u m] fl]|err]; [|set_solver].
    destruct IH as (-> & Hm & Hfl & Hall). split; [set_solver|]. split; [|split; [lia|]].
    + intros x. rewrite Hm, elem_of_cons. split; [tauto|].
      intros [?|[[->|?] ?]]; [tauto|congruence|tauto].
    + intros x e' [->|Hx]%elem_of_cons He'; [|by apply (Hall x)].
      rewrite E in He'. injection He' as <-. split; [done|lia].
  - specialize (IH ({[ t ]} ∪ unmet) (missing ++ [t]) floor).
    destruct (scan_targets _ _ _ _ _ _) as [[[u m] fl]|err]; [|set_solver].
    destruct IH as (-> & Hm & Hfl & Hall). split; [set_solver|]. split; [|split; [lia|]].
    + intros x. rewrite Hm, elem_of_app, list_elem_of_singleton, elem_of_cons.
      split; [|tauto]. intros [[?| ->]|?]; tauto.
    + intros x e' [->|Hx]%elem_of_cons He'; [congruence|by apply (Hall x)].
Qed.

Lemma elem_of_push_parents e floor stack p :
  p ∈ push_parents e floor stack <-> (floor < Entry_height e /\ p ∈ Entry_parents e) \/ p ∈ stack.
Proof.
  unfold push_parents. destruct (Z.gtb_spec (Entry_height e) floor) as [H|H].
  - rewrite elem_of_app, elem_of_reverse. tauto.
  - split; [tauto|]. intros [[? _]|?]; [lia|done].
Qed.

Section walk.
Context (inner : InMemoryInner) (tree : ID) (from targets : list ID) (floor : Z).

(** The invariant of both loops; [seeds] are the tips already handled. *)
Record walk_inv (seeds : list ID) (s : WalkState) : Prop := {
  wi_unmet t : t ∈ ws_unmet s -> t ∈ targets;
  wi_met t : t ∈ targets -> t ∈ ws_unmet s
    \/ (member_of (entries inner) tree t /\ below (entries inner) tree from t);
  wi_visited x e : x ∈ ws_visited s -> entries inner !! x = Some e -> in_tree e tree = true ->
    x ∉ ws_unmet s
    /\ (floor < Entry_height e -> forall p, p ∈ Entry_parents e -> p ∈ ws_visited s \/ p ∈ ws_stack s);
  wi_gone x : x ∈ ws_visited s \/ x ∈ targets -> entries inner !! x = None -> x ∈ ws_missing s;
  wi_stack x : x ∈ ws_stack s -> below (entries inner) tree from x;
  wi_missing x : x ∈ ws_missing s -> entries inner !! x = None
    /\ (x ∈ targets \/ below (entries inner) tree from x);
  wi_seeds f : f ∈ seeds -> f ∈ ws_visited s \/ f ∈ ws_missing s;
}.

(** The three ways a step handles an ID [x] taken from the tips or the stack. *)
Section visit.
Context (seeds : list ID) (s : WalkState) (x : ID) (stack : list ID).
Context (Hinv : walk_inv seeds s) (Hx : below (entries inner) tree from x).
Context (Hin : forall p, p ∈ stack -> p ∈ ws_stack s).
Context (Hout : forall p, p ∈ ws_stack s -> p = x \/ p ∈ stack).

Lemma walk_member e :
  entries inner !! x = Some e -> in_tree e tree = true ->
  walk_inv (seeds ++ [x]) (mkWalkState ({[ x ]} ∪ ws_visited s) (ws_unmet s ∖ {[ x ]}) (ws_missing s)
    (push_parents e floor stack)).
Proof.
  intros He Ht. destruct Hinv as [H1 H2 H3 H4 H5 H6 H7].
  split; cbn [ws_visited ws_unmet ws_missing ws_stack].
  - set_solver.
  - intros t Htt. destruct (decide (t = x)) as [->|Hne]; [right; split; [by exists e|done]|].
    destruct (H2 t Htt); [left; set_solver|by right].
  - intros y e' Hy He' Ht'. destruct (decide (y = x)) as [->|Hne].
    + rewrite He in He'. injection He' as <-. split; [set_solver|].
      intros Hfl p Hp. right. apply elem_of_push_parents. by left.
    + destruct (H3 y e') as [Hu Hp]; [set_solver|done..|]. split; [set_solver|].
      intros Hfl p Hpp. destruct (Hp Hfl p Hpp) as [?|[->|?]%Hout]; [set_solver|set_solver|].
      right. apply elem_of_push_parents. by right.
  - intros y [[->%elem_of_singleton|Hy]%elem_of_union|Hy] Hn; [congruence| |]; apply H4; auto.
  - intros y [[_ Hy]|Hy]%elem_of_push_parents; [|by apply H5, Hin].
    destruct Hx as (f & Hf & Hr). exists f. split; [done|]. eapply rtc_r; [done|]. by exists e.
  - done.
  - intros f [Hf|Hf]%elem_of_app; [destruct (H7 f Hf); [left; set_solver|by right]|set_solver].
Qed.

Lemma walk_foreign :
  foreign (entries inner) tree x ->
  walk_inv seeds (mkWalkState ({[ x ]} ∪ ws_visited s) (ws_unmet s) (ws_missing s) stack).
Proof.
  intros (e & He & Ht). destruct Hinv as [H1 H2 H3 H4 H5 H6 H7].
  split; cbn [ws_visited ws_unmet ws_missing ws_stack]; auto.
  - intros y e' Hy He' Ht'. destruct (decide (y = x)) as [->|Hne]; [congruence|].
    destruct (H3 y e') as [Hu Hp]; [set_solver|done..|]. split; [done|].
    intros Hfl p Hpp. destruct (Hp Hfl p Hpp) as [?|[->|?]%Hout]; [set_solver|set_solver|by right].
  - intros y [Hy|Hy] Hn; [|by apply H4; auto]. apply H4; [|done].
    apply elem_of_union in Hy as [->%elem_of_singleton|?]; [congruence|by left].
  - intros f Hf. destruct (H7 f Hf); [left; set_solver|by right].
Qed.

(** [visited] gains [x] in the walk but not among the tips. *)
Lemma walk_missing visited :
  entries inner !! x = None -> (forall y, y ∈ ws_visited s -> y ∈ visited) ->
  (forall y, y ∈ visited -> y = x \/ y ∈ ws_visited s) -> 
  x ∈ visited \/ (forall p, p ∈ ws_stack s -> p ∈ stack) ->
  walk_inv (seeds ++ [x]) (mkWalkState visited (ws_unmet s) (ws_missing s ++ [x]) stack).
Proof.
  intros Hn Hv1 Hv2 Hxs. destruct Hinv as [H1 H2 H3 H4 H5 H6 H7].
  split; cbn [ws_visited ws_unmet ws_missing ws_stack]; auto.
  - intros y e' Hy He' Ht'. destruct (Hv2 y Hy) as [->|Hy']; [congruence|].
    destruct (H3 y e') as [Hu Hp]; [done..|]. split; [done|].
    intros Hfl p Hpp. destruct (Hp Hfl p Hpp) as [?|Hps]; [auto|].
    destruct Hxs as [Hxv|Hxs]; [|auto]. destruct (Hout p Hps) as [->|?]; auto.
  - intros y Hy Hn'. apply elem_of_app. destruct (decide (y = x)) as [->|Hne]; [right; set_solver|left].
    apply H4; [|done]. destruct Hy as [Hy|Hy]; [|by right]. destruct (Hv2 y Hy); [done|by left].
  - intros y [Hy|Hy]%elem_of_app; [by apply H6|]. apply list_elem_of_singleton in Hy as ->. auto.
  - intros f [Hf|Hf]%elem_of_app; [destruct (H7 f Hf); [left; auto|right; set_solver]|set_solver].
Qed.

Lemma walk_skip :
  x ∈ ws_visited s -> walk_inv (seeds ++ [x]) (mkWalkState (ws_visited s) (ws_unmet s) (ws_missing s) stack).
Proof.
  intros Hv. destruct Hinv as [H1 H2 H3 H4 H5 H6 H7].
  split; cbn [ws_visited ws_unmet ws_missing ws_stack]; auto.
  - intros y e' Hy He' Ht'. destruct (H3 y e') as [Hu Hp]; [done..|]. split; [done|].
    intros Hfl p Hpp. destruct (Hp Hfl p Hpp) as [?|[->|?]%Hout]; auto.
  - intros f [Hf|Hf]%elem_of_app; [auto|set_solver].
Qed.
End visit.

Lemma walk_inv_seeds seeds seeds' s :
  walk_inv seeds s -> (forall f, f ∈ seeds' -> f ∈ seeds) -> walk_inv seeds' s.
Proof. intros [H1 H2 H3 H4 H5 H6 H7] Hs. split; auto. Qed.

Lemma seed_from_spec rest seeds s :
  walk_inv seeds s -> (forall f, f ∈ rest -> f ∈ from) ->
  match seed_from inner tree floor rest s with
  | Ok s' => walk_inv (seeds ++ rest) s'
  | Err err => exists x, x ∈ rest /\ foreign (entries inner) tree x
      /\ err = EBackend (EntryNotInTree x tree)
  end.
Proof.
  revert seeds s. induction rest as [|x rest IH]; intros seeds s Hinv Hfrom; cbn [seed_from].
  { by rewrite app_nil_r. }
  assert (below (entries inner) tree from x) as Hx.
  { exists x. split; [apply Hfrom; by left|apply rtc_refl]. }
  assert (forall s', walk_inv (seeds ++ [x]) s' ->
    match seed_from inner tree floor rest s' with
    | Ok s'' => walk_inv (seeds ++ x :: rest) s''
    | Err err => exists y, y ∈ x :: rest /\ foreign (entries inner) tree y
        /\ err = EBackend (EntryNotInTree y tree)
    end) as Hrest.
  { intros s' Hs'. specialize (IH _ _ Hs'). destruct (seed_from _ _ _ _ _).
    - rewrite cons_middle, app_assoc. apply IH. set_solver.
    - destruct IH as (y & Hy & H); [set_solver|]. exists y. split; [by right|done]. }
  unfold storage_get. destruct (entries inner !! x) as [e|] eqn:E; simpl.
  - destruct (in_tree e tree) eqn:Et; simpl; [|exists x; split; [by left|]; split; [by exists e|done]].
    case_decide as Hv.
    + apply Hrest. destruct s as [v u m st]. by apply (walk_skip seeds _ x st Hinv); auto.
    + apply Hrest, walk_member; auto.
  - apply Hrest. apply (walk_missing seeds s x (ws_stack s)); auto.
Qed.

(** What a visit of [x] pushes. *)
Definition expand (x : ID) : list ID :=
  match entries inner !! x with
  | Some e => if in_tree e tree then push_parents e floor [] else []
  | None => []
  end.

Definition expand_visit (x : ID) : Result (option (list unit * list ID)) unit := Ok (Some ([], expand x)).

Lemma push_parents_length e stack :
  length (push_parents e floor stack) = (length (push_parents e floor []) + length stack)%nat.
Proof. unfold push_parents. destruct (_ >? _); [|done]. by rewrite app_nil_r, length_app. Qed.

Lemma reach_walk_spec fuel seeds s :
  walk_inv seeds s ->
  (length (ws_stack s) + out_degree expand_visit (dom (entries inner) ∖ ws_visited s) < fuel)%nat ->
  exists s', reach_walk inner tree floor fuel s = Some s' /\ walk_inv seeds s'
    /\ (ws_unmet s' = ∅ \/ ws_stack s' = []).
Proof.
  revert s. induction fuel as [|fuel IH]; intros s Hinv Hf; [lia|]. cbn [reach_walk].
  case_decide as Hu; [by eauto|]. destruct (ws_stack s) as [|x stack] eqn:Es; [by eauto|].
  assert (below (entries inner) tree from x) as Hx by (apply (wi_stack _ _ Hinv); rewrite Es; by left).
  assert (forall p, p ∈ stack -> p ∈ ws_stack s) as Hin by (rewrite Es; set_solver).
  assert (forall p, p ∈ ws_stack s -> p = x \/ p ∈ stack) as Hout by (rewrite Es; set_solver).
  assert (forall s', walk_inv (seeds ++ [x]) s' -> walk_inv seeds s') as Hseeds.
  { intros s' Hs'. eapply walk_inv_seeds; [done|]. set_solver. }
  simpl in Hf. case_decide as Hv.
  { apply IH; [by apply Hseeds, (walk_skip seeds s x stack)|simpl; lia]. }
  unfold storage_get. destruct (entries inner !! x) as [e|] eqn:E; cbn [ok_or].
  - assert (length (expand x) + out_degree expand_visit (dom (entries inner) ∖ ({[ x ]} ∪ ws_visited s))
      = out_degree expand_visit (dom (entries inner) ∖ ws_visited s))%nat as Hd.
    { rewrite (out_degree_remove expand_visit (dom (entries inner) ∖ ws_visited s) x).
      - replace (dom (entries inner) ∖ ({[ x ]} ∪ ws_visited s))
          with (dom (entries inner) ∖ ws_visited s ∖ {[ x ]}) by set_solver. done.
      - apply elem_of_difference. split; [by apply elem_of_dom; exists e|done]. }
    unfold expand in Hd. rewrite E in Hd. destruct (in_tree e tree) eqn:Et; cbn [negb].
    + apply IH; [by apply Hseeds, walk_member|]. cbn [ws_stack ws_visited].
      rewrite push_parents_length. lia.
    + apply IH; [apply walk_foreign; try done; by exists e|]. cbn [ws_stack ws_visited]. simpl in Hd. lia.
  - apply IH.
    + apply Hseeds, (walk_missing seeds s x stack); try done; [set_solver..|left; set_solver].
    + cbn [ws_stack ws_visited]. replace (dom (entries inner) ∖ ({[ x ]} ∪ ws_visited s))
        with (dom (entries inner) ∖ ws_visited s); [lia|].
      apply not_elem_of_dom in E. set_solver.
Qed.

(** The walk is exhaustive above the floor: in any extension of the history
    that does not hold a missing entry, an unmet target is not below [from]. *)
Lemma walk_exhaustive s es' t :
  walk_inv from s -> ws_stack s = [] -> entries inner ⊆ es' -> heights_decrease es' tree ->
  (forall x, x ∈ ws_missing s -> es' !! x = None) ->
  (forall e, entries inner !! t = Some e -> floor <= Entry_height e) ->
  member_of (entries inner) tree t -> below es' tree from t -> t ∉ ws_unmet s.
Proof.
  intros Hinv Hst Hsub Hdec Hmiss Hfloor (et & Het & Htt) (f & Hf & Hr).
  assert (forall x, rtc (tree_edge es' tree) f x -> forall e', es' !! x = Some e' ->
    in_tree e' tree = true -> floor <= Entry_height e' -> x ∈ ws_visited s) as Hvis.
  { intros x Hx. pattern x. eapply (rtc_ind_r _ f); [|clear x Hx|exact Hx].
    - intros e' He' _ _. destruct (wi_seeds _ _ Hinv f Hf) as [?|Hm%Hmiss]; [done|congruence].
    - intros y z Hfy (ey & Hey & Hty & Hz) IH ez Hez Htz Hfl.
      assert (Entry_height ez < Entry_height ey) as Hlt by (eapply (Hdec y z); [by exists ey|done..]).
      assert (y ∈ ws_visited s) as Hy by (apply (IH ey); [done..|lia]).
      destruct (entries inner !! y) as [e|] eqn:E.
      + pose proof (lookup_weaken _ _ _ _ E Hsub) as E'. rewrite Hey in E'. injection E' as <-.
        destruct (wi_visited _ _ Hinv y ey) as [_ Hp]; [done..|].
        destruct (Hp ltac:(lia) z Hz) as [?|Hzs]; [done|]. rewrite Hst in Hzs. set_solver.
      + assert (y ∈ ws_missing s) as Hm%Hmiss by (apply (wi_gone _ _ Hinv); auto). congruence. }
  assert (t ∈ ws_visited s) as Hv.
  { apply (Hvis t Hr et); [by eapply lookup_weaken|done|by apply Hfloor]. }
  by destruct (wi_visited _ _ Hinv t et Hv Het Htt).
Qed.
End walk.

Lemma walk_fuel inner tree floor s :
  (length (ws_stack s) + out_degree (expand_visit inner tree floor) (dom (entries inner) ∖ ws_visited s)
   < traversal_fuel (entries inner) (length (ws_stack s)))%nat.
Proof.
  unfold traversal_fuel. apply Nat.lt_succ_r, Nat.add_le_mono_l. unfold out_degree, entry_values.
  apply sum_dom_le. intros x e He. unfold next, expand_visit, expand. rewrite He.
  destruct (in_tree e tree); [|simpl; lia]. unfold push_parents, parent_refs.
  destruct (_ >? _); [rewrite app_nil_r, length_reverse|simpl]; lia.
Qed.

(** What each verdict says. *)
Definition verdict_holds (es : gmap ID Entry) (tree : ID) (from targets : list ID)
    (verdict : option (Result Reachability Error)) : Prop :=
  match verdict with
  | None => False
  | Some (Err err) => exists x, (x ∈ targets \/ x ∈ from) /\ foreign es tree x
      /\ err = EBackend (EntryNotInTree x tree)
  | Some (Ok Reachable) => forall t, t ∈ targets -> member_of es tree t /\ below es tree from t
  | Some (Ok Unreachable) => exists t, t ∈ targets
      /\ forall es', es ⊆ es' -> heights_decrease es' tree -> ~ below es' tree from t
  | Some (Ok (Indeterminate missing)) =>
      missing <> [] /\ StronglySorted (fun a b => ID_cmp a b = Lt) missing
      /\ (forall x, x ∈ missing -> es !! x = None /\ (x ∈ targets \/ below es tree from x))
      /\ (heights_decrease es tree ->
          exists t, t ∈ targets /\ ~ (member_of es tree t /\ below es tree from t))
  end.

Lemma reach_verdict inner tree from targets :
  verdict_holds (entries inner) tree from targets
    (check_targets_reachable_from inner tree from targets).
Proof.
  unfold verdict_holds, check_targets_reachable_from.
  destruct (is_nil from && negb (is_nil targets)) eqn:E0.
  { destruct from; [|done]. destruct targets as [|t targets]; [done|]. exists t. split; [by left|].
    intros es' _ _ (f & Hf & _). set_solver. }
  pose proof (scan_targets_spec inner tree targets ∅ [] u64_max) as Hscan.
  destruct (scan_targets inner tree targets ∅ [] u64_max) as [[[unmet missing] floor]|err];
    [|set_solver]. destruct Hscan as (Hunmet & Hmissing & _ & Htargets).
  assert (walk_inv inner tree from targets floor [] (mkWalkState ∅ unmet missing [])) as Hinit.
  { split; cbn [ws_visited ws_unmet ws_missing ws_stack].
    - set_solver.
    - intros t Ht. left. rewrite Hunmet. set_solver.
    - set_solver.
    - intros x [Hx|Hx] Hn; [set_solver|]. apply Hmissing. auto.
    - set_solver.
    - intros x [Hx|[Hx Hn]]%Hmissing; [set_solver|auto].
    - set_solver. }
  pose proof (seed_from_spec _ _ _ _ _ from [] _ Hinit (fun f H => H)) as Hseed.
  destruct (seed_from inner tree floor from _) as [s0|err]; [|set_solver]. simpl in Hseed.
  destruct (reach_walk_spec _ _ _ _ _ _ _ _ Hseed (walk_fuel inner tree floor s0))
    as (s & -> & Hinv & Hend). cbn [mbind option_bind].
  destruct (decide (ws_unmet s = ∅)) as [Hu|Hu].
  { intros t Ht. destruct (wi_met _ _ _ _ _ _ _ Hinv t Ht) as [H|H]; [set_solver|done]. }
  destruct Hend as [?|Hst]; [done|].
  apply set_choose_L in Hu as (t & Ht). pose proof (wi_unmet _ _ _ _ _ _ _ Hinv t Ht) as Htt.
  pose proof (wi_missing _ _ _ _ _ _ _ Hinv) as Hmiss.
  pose proof (wi_gone _ _ _ _ _ _ _ Hinv) as Hgone.
  destruct (ws_missing s) as [|x0 ms] eqn:Em; cbn [is_nil negb].
  - exists t. split; [done|]. intros es' Hsub Hdec Hbelow.
    destruct (entries inner !! t) as [e|] eqn:E; [|exfalso; specialize (Hgone t); set_solver].
    destruct (Htargets t e) as [Hin Hfl]; [done..|]. revert Ht.
    apply (walk_exhaustive inner tree from targets floor s es'); try done.
    + rewrite Em. set_solver.
    + by intros e' [= <-]%(eq_trans (eq_sym E)).
    + by exists e.
  - split; [|split; [apply sort_dedup_sorted, _|split]].
    + intros Hnil. assert (x0 ∈ sort_dedup ID_cmp (x0 :: ms)) as H by (apply elem_of_sort_dedup; by left).
      rewrite Hnil in H. set_solver.
    + intros x Hx%elem_of_sort_dedup. by apply Hmiss.
    + intros Hdec. exists t. split; [done|]. intros [Hm Hb]. revert Ht.
      apply (walk_exhaustive inner tree from targets floor s (entries inner)); try done.
      * intros x. rewrite Em. apply Hmiss.
      * intros e He. by apply (Htargets t e).
Qed.

(** The reachability check terminates, and each verdict means what it says.
    Reachable: every target is in the tree, at or below one of the tips.
    Unreachable: some target is below no tip, not even in any larger history
    (whose parents are lower than their children) that later syncs may bring.
    Indeterminate: the reported IDs, sorted and not repeated, are all absent
    locally, and each is a target or an ancestor of a tip; some target is not
    established by the local history.  The check fails only on a target or tip
    that is present and belongs to another tree. *)
Theorem check_targets_reachable_spec inner tree from targets :
  let es := entries inner in
  match check_targets_reachable_from inner tree from targets with
  | None => False
  | Some (Err err) => exists x, (x ∈ targets \/ x ∈ from) /\ foreign es tree x
      /\ err = EBackend (EntryNotInTree x tree)
  | Some (Ok Reachable) => forall t, t ∈ targets -> member_of es tree t /\ below es tree from t
  | Some (Ok Unreachable) => exists t, t ∈ targets
      /\ forall es', es ⊆ es' -> heights_decrease es' tree -> ~ below es' tree from t
  | Some (Ok (Indeterminate missing)) =>
      missing <> [] /\ StronglySorted (fun a b => ID_cmp a b = Lt) missing
      /\ (forall x, x ∈ missing -> es !! x = None /\ (x ∈ targets \/ below es tree from x))
      /\ (heights_decrease es tree ->
          exists t, t ∈ targets /\ ~ (member_of es tree t /\ below es tree from t))
  end.
Proof. apply reach_verdict. Qed.
End reachability.
