(* ===== verification/Validation.v ===== *)
(** * Entry validation (auth/validation)

    Whether an entry is signed by a key that may do what the entry does: key
    resolution, directly or through a path of delegated trees, and the
    validator that tries the signature against each resolved key.  The opening
    of a delegated tree and the reading of its settings at claimed tips are an
    interface ([InstanceSpec]) that the database layer implements.  The caches
    of the validator and the resolver are never filled by the code and are left
    out. *)

From S2P Require Import Prelude.
From S2P Require Import Worklist.
From S2P Require Import Path.
From S2P Require Import Position.
From S2P Require Import Ids.
From S2P Require Import Doc.
From S2P Require Import DocPath.
From S2P Require Import Errors.
From S2P Require Import Crypto.
From S2P Require Import Permission.
From S2P Require Import AuthTypes.
From S2P Require Import AuthSettings.
From S2P Require Import Entry.
From S2P Require Import Backend.
From S2P Require Import Traversal.
From S2P Require Import Reachability.

(** What the resolver needs of the database layer. *)
Class InstanceSpec `{CD : CodecSpec} := {
  Database : Type;
  PinnedTransaction : Type;
  SettingsStore : Type;
  Database_open : InMemoryInner -> ID -> Result Database Error;
  new_transaction_at : Database -> Snapshot -> Result PinnedTransaction Error;
  get_settings : PinnedTransaction -> Result SettingsStore Error;
  auth_snapshot : SettingsStore -> Result AuthSettings Error;
}.

Section validation.
Context `{IS : InstanceSpec}.

(** ** Permissions (validation/permissions.rs) *)

Definition check_permissions (resolved : ResolvedAuth) (operation : Operation) : bool :=
  match operation with
  | WriteData =>
      can_write (ra_effective_permission resolved) || can_admin (ra_effective_permission resolved)
  | WriteSettings => can_admin (ra_effective_permission resolved)
  end.

(** [Iterator::max]: the last of the greatest elements. *)
Definition max_permission (l : list Permission) : option Permission :=
  match l with
  | [] => None
  | p :: rest => Some (foldl (fun acc q => if Permission_leb acc q then q else acc) p rest)
  end.

Definition select_effective_permission (candidates : list ResolvedAuth) (pubkey : PublicKey) :
    option Permission :=
  max_permission (ra_effective_permission <$>
    filter (fun ra => ra_public_key ra = pubkey /\ grants_access ra = true) candidates).

(** ** Delegation paths (validation/delegation.rs) *)

Definition MAX_DELEGATION_STEPS : nat := 10.
Definition MAX_DELEGATION_TIPS : nat := 64.

Definition permission_min (a b : Permission) : Permission := if Permission_leb a b then a else b.
Definition permission_max (a b : Permission) : Permission := if Permission_leb a b then b else a.

Definition combine_bounds (cumulative : option PermissionBounds) (next : PermissionBounds) :
    PermissionBounds :=
  match cumulative with
  | Some existing =>
      mkPermissionBounds (permission_min (bound_max existing) (bound_max next))
        (match bound_min existing, bound_min next with
         | Some existing_min, Some new_min => Some (permission_max existing_min new_min)
         | Some existing_min, None => Some existing_min
         | None, Some new_min => Some new_min
         | None, None => None
         end)
  | None => next
  end.

(** [format!(hint({:?}), hint.hint_type())]. *)
Definition hint_key_name (hint : KeyHint) : string :=
  let quote := String (Ascii.ascii_of_nat 34) EmptyString in
  "hint(" +:+ quote +:+ hint_type hint +:+ quote +:+ ")".

(** The body of the loop over the steps.  [None] is the reachability walk out of
    fuel. *)
Definition delegation_step (engine : InMemoryInner) (settings : AuthSettings)
    (bounds : option PermissionBounds) (step : DelegationStep) :
    option (Result (AuthSettings * option PermissionBounds) Error) :=
  if (MAX_DELEGATION_TIPS <? length (step_tips step))%nat then
    Some (Err (EAuth (DelegationTipsTooMany (step_tree step) (length (step_tips step)) MAX_DELEGATION_TIPS)))
  else
    match get_delegated_tree settings (step_tree step) with
    | Err e => Some (Err e)
    | Ok delegated_tree_ref =>
        let root_id := tr_root (dt_tree delegated_tree_ref) in
        match Database_open engine root_id with
        | Err _ => Some (Err (EAuth (DelegatedTreeLoadFailed root_id)))
        | Ok delegated_tree =>
            verdict ← check_targets_reachable_from engine root_id (step_tips step)
              (tr_tips (dt_tree delegated_tree_ref));
            match verdict with
            | Err _ | Ok Unreachable =>
                Some (Err (EAuth (InvalidDelegationTips root_id (step_tips step))))
            | Ok (Indeterminate missing) =>
                Some (Err (EAuth (DelegatedTreeUnsynced root_id missing)))
            | Ok Reachable =>
                match new_transaction_at delegated_tree (Snapshot_new (step_tips step)) with
                | Err _ => Some (Err (EAuth (InvalidDelegationTips root_id (step_tips step))))
                | Ok pinned_txn =>
                    match get_settings pinned_txn with
                    | Err e => Some (Err e)
                    | Ok store =>
                        match auth_snapshot store with
                        | Err _ => Some (Err (EAuth InvalidAuthConfiguration))
                        | Ok next_settings =>
                            Some (Ok (next_settings,
                              Some (combine_bounds bounds (dt_permission_bounds delegated_tree_ref))))
                        end
                    end
                end
            end
        end
    end.

Fixpoint delegation_steps (engine : InMemoryInner) (settings : AuthSettings)
    (bounds : option PermissionBounds) (steps : list DelegationStep) :
    option (Result (AuthSettings * option PermissionBounds) Error) :=
  match steps with
  | [] => Some (Ok (settings, bounds))
  | step :: rest =>
      r ← delegation_step engine settings bounds step;
      match r with
      | Err e => Some (Err e)
      | Ok (settings, bounds) => delegation_steps engine settings bounds rest
      end
  end.

Definition clamp_match (bounds : PermissionBounds) (r : ResolvedAuth) : ResolvedAuth :=
  mkResolvedAuth (ra_public_key r) (clamp_permission (ra_effective_permission r) bounds)
    (ra_key_status r).

Definition resolve_delegation_path_with_depth (steps : list DelegationStep) (final_hint : KeyHint)
    (settings : AuthSettings) (engine : InMemoryInner) : option (Result (list ResolvedAuth) Error) :=
  if is_nil steps then Some (Err (EAuth EmptyDelegationPath))
  else if (MAX_DELEGATION_STEPS <? length steps)%nat then
    Some (Err (EAuth (DelegationPathTooLong (length steps) MAX_DELEGATION_STEPS)))
  else if hint_is_global final_hint then Some (Err (EAuth InvalidDelegationStep))
  else
    r ← delegation_steps engine settings None steps;
    Some (let? p := r in
          let? matches := resolve_hint p.1 final_hint in
          if is_nil matches then Err (EAuth (KeyNotFound (hint_key_name final_hint)))
          else match p.2 with
               | Some bounds => Ok (clamp_match bounds <$> matches)
               | None => Ok matches
               end).

(** ** Key resolution (validation/resolver.rs) *)

Definition MAX_DELEGATION_DEPTH : nat := 10.

Definition resolve_direct_key (hint : KeyHint) (settings : AuthSettings) :
    Result (list ResolvedAuth) Error :=
  let? matches := resolve_hint settings hint in
  if is_nil matches then Err (EAuth (KeyNotFound (hint_key_name hint))) else Ok matches.

Definition resolve_sig_key_with_depth (sig_key : SigKey) (settings : AuthSettings)
    (instance : option InMemoryInner) (depth : nat) : option (Result (list ResolvedAuth) Error) :=
  if (MAX_DELEGATION_DEPTH <=? depth)%nat then
    Some (Err (EAuth (DelegationDepthExceeded MAX_DELEGATION_DEPTH)))
  else match sig_key with
  | Direct hint => Some (resolve_direct_key hint settings)
  | Delegation path hint =>
      match instance with
      | None => Some (Err (EAuth DatabaseRequired))
      | Some engine => resolve_delegation_path_with_depth path hint settings engine
      end
  end.

Definition resolve_sig_key (sig_key : SigKey) (settings : AuthSettings)
    (instance : option InMemoryInner) : option (Result (list ResolvedAuth) Error) :=
  resolve_sig_key_with_depth sig_key settings instance 0.

(** ** The validator (validation/entry.rs) *)

Definition entry_operation (entry : Entry) : Operation :=
  if decide (SETTINGS ∈ Entry_subtrees entry) then WriteSettings else WriteData.

(** The loop over the candidates. *)
Fixpoint try_candidates (entry : Entry) (operation : Operation) (candidates : list ResolvedAuth) :
    bool :=
  match candidates with
  | [] => false
  | resolved_auth :: rest =>
      if negb (grants_access resolved_auth) then try_candidates entry operation rest
      else if is_ok (verify_entry_signature entry (ra_public_key resolved_auth)) then
        if check_permissions resolved_auth operation then true
        else try_candidates entry operation rest
      else try_candidates entry operation rest
  end.

Definition has_auth (settings : AuthSettings) : bool :=
  negb (bool_decide (get_all_keys settings = ∅)) || has_global_permission settings.

(** The method's result is always [Ok]. *)
Definition validate_entry (entry : Entry) (settings : AuthSettings) (instance : option InMemoryInner) :
    option bool :=
  if is_some (malformed_reason (e_sig entry)) then Some false
  else if is_unsigned (e_sig entry) then Some (negb (has_auth settings))
  else if negb (has_auth settings) then Some false
  else
    r ← resolve_sig_key (sig_key (e_sig entry)) settings instance;
    match r with
    | Ok resolved_auths => Some (try_candidates entry (entry_operation entry) resolved_auths)
    | Err _ => Some false
    end.

(** [resolve_identity_permission]. *)
Definition resolve_identity_permission (pubkey : PublicKey) (identity : SigKey)
    (settings : AuthSettings) (instance : option InMemoryInner) : option (Result Permission Error) :=
  match identity with
  | Direct hint =>
      let claims_other :=
        match hint_pubkey hint with Some claimed => negb (bool_decide (claimed = pubkey)) | None => false end in
      Some (
        if hint_is_global hint then
          if claims_other then Err (EAuth SigningKeyMismatch)
          else
            let? global := map_err (fun _ => EAuth InvalidAuthConfiguration) (get_global_key settings) in
            if negb (is_active global) then Err (EAuth InvalidAuthConfiguration)
            else Ok (key_permissions global)
        else if claims_other then Err (EAuth SigningKeyMismatch)
        else if negb (is_some (hint_pubkey hint)) && negb (is_some (hint_name hint)) then
          Err (EAuth InvalidAuthConfiguration)
        else
          match
            match resolve_hint settings hint with
            | Ok candidates => select_effective_permission candidates pubkey
            | Err _ => None
            end
          with
          | Some permission => Ok permission
          | None =>
              match get_global_key settings with
              | Ok global =>
                  if is_active global then Ok (key_permissions global)
                  else Err (EAuth (KeyNotFound (default (PublicKey_to_string pubkey) (hint_name hint))))
              | Err _ => Err (EAuth (KeyNotFound (default (PublicKey_to_string pubkey) (hint_name hint))))
              end
          end)
  | Delegation _ _ =>
      r ← resolve_sig_key identity settings instance;
      Some (match r with
            | Err _ => Err (EAuth InvalidAuthConfiguration)
            | Ok resolved_auths =>
                ok_or (select_effective_permission resolved_auths pubkey) (EAuth SigningKeyMismatch)
            end)
  end.
End validation.

(** ** Facts *)

Section validation_facts.
Context `{IS : InstanceSpec}.

(** A path that resolved: every step is declared in the settings before it,
    claims few enough tips, none of them below the committed floor, and leads to
    the settings of the delegated tree at the claimed tips. *)
Inductive delegation_chain (engine : InMemoryInner) :
    AuthSettings -> list DelegationStep -> list DelegatedTreeRef -> AuthSettings -> Prop :=
  | chain_nil s : delegation_chain engine s [] [] s
  | chain_cons s step ref db txn store s1 steps refs s2 :
      (length (step_tips step) <= MAX_DELEGATION_TIPS)%nat ->
      get_delegated_tree s (step_tree step) = Ok ref ->
      Database_open engine (tr_root (dt_tree ref)) = Ok db ->
      (forall t, t ∈ tr_tips (dt_tree ref) ->
         member_of (entries engine) (tr_root (dt_tree ref)) t
         /\ below (entries engine) (tr_root (dt_tree ref)) (step_tips step) t) ->
      new_transaction_at db (Snapshot_new (step_tips step)) = Ok txn ->
      get_settings txn = Ok store -> auth_snapshot store = Ok s1 ->
      delegation_chain engine s1 steps refs s2 ->
      delegation_chain engine s (step :: steps) (ref :: refs) s2.

Lemma permission_min_le a b :
  ordering_value (permission_min a b) <= ordering_value a
  /\ ordering_value (permission_min a b) <= ordering_value b.
Proof.
  unfold permission_min. destruct (Permission_leb a b) eqn:E.
  - apply Permission_leb_le in E. lia.
  - apply Permission_leb_gt in E. lia.
Qed.

(** Combined bounds allow no more than either part. *)
Lemma combine_bounds_max cumulative next :
  ordering_value (bound_max (combine_bounds cumulative next)) <= ordering_value (bound_max next)
  /\ forall b, cumulative = Some b ->
       ordering_value (bound_max (combine_bounds cumulative next)) <= ordering_value (bound_max b).
Proof.
  destruct cumulative as [existing|]; simpl; [|split; [lia|done]].
  destruct (permission_min_le (bound_max existing) (bound_max next)). split; [lia|].
  by intros b [= <-].
Qed.

Lemma delegation_step_total engine s b step : is_Some (delegation_step engine s b step).
Proof.
  unfold delegation_step. destruct (_ <? _)%nat; [by eexists|].
  destruct (get_delegated_tree s (step_tree step)) as [ref|]; [|by eexists].
  destruct (Database_open engine _); [|by eexists].
  pose proof (reach_verdict engine (tr_root (dt_tree ref)) (step_tips step) (tr_tips (dt_tree ref))) as H.
  destruct (check_targets_reachable_from _ _ _ _) as [v|]; [|done]. simpl.
  repeat case_match; by eexists.
Qed.

Lemma delegation_steps_total engine s b steps : is_Some (delegation_steps engine s b steps).
Proof.
  revert s b. induction steps as [|step steps IH]; intros s b; cbn [delegation_steps]; [by eexists|].
  destruct (delegation_step_total engine s b step) as [[[s1 b1]|e] ->]; simpl; [apply IH|by eexists].
Qed.

Lemma delegation_step_ok engine s b step s1 b1 :
  delegation_step engine s b step = Some (Ok (s1, b1)) ->
  exists ref, b1 = Some (combine_bounds b (dt_permission_bounds ref))
    /\ forall steps refs s2, delegation_chain engine s1 steps refs s2 ->
         delegation_chain engine s (step :: steps) (ref :: refs) s2.
Proof.
  unfold delegation_step. destruct (_ <? _)%nat eqn:Elen; [done|]. apply Nat.ltb_ge in Elen.
  destruct (get_delegated_tree s (step_tree step)) as [ref|] eqn:Eref; [|done].
  destruct (Database_open engine _) as [db|] eqn:Edb; [|done].
  pose proof (reach_verdict engine (tr_root (dt_tree ref)) (step_tips step) (tr_tips (dt_tree ref))) as H.
  destruct (check_targets_reachable_from _ _ _ _) as [[[| |missing]|]|]; simpl; try done.
  destruct (new_transaction_at db _) as [txn|] eqn:Etxn; [|done].
  destruct (get_settings txn) as [store|] eqn:Estore; [|done].
  destruct (auth_snapshot store) as [s1'|] eqn:Eauth; [|done].
  intros [= -> <-]. exists ref. split; [done|]. intros steps refs s2 Hchain.
  by eapply chain_cons.
Qed.

Lemma delegation_steps_ok engine s b steps s' b' :
  delegation_steps engine s b steps = Some (Ok (s', b')) ->
  exists refs, delegation_chain engine s steps refs s'
    /\ (forall bb, b' = Some bb -> forall ref, ref ∈ refs ->
         ordering_value (bound_max bb) <= ordering_value (bound_max (dt_permission_bounds ref)))
    /\ (forall bb b0, b' = Some bb -> b = Some b0 ->
         ordering_value (bound_max bb) <= ordering_value (bound_max b0))
    /\ (steps <> [] -> is_Some b').
Proof.
  revert s b. induction steps as [|step steps IH]; intros s b; cbn [delegation_steps].
  { intros [= -> ->]. exists []. split; [constructor|]. split; [set_solver|]. split; [|done].
    intros bb b0 -> [= ->]. lia. }
  destruct (delegation_step engine s b step) as [[[s1 b1]|e]|] eqn:Estep; simpl; try done.
  apply delegation_step_ok in Estep as (ref & -> & Hchain). intros Hrest.
  destruct (IH _ _ Hrest) as (refs & Hrefs & Hmax & Hprev & _).
  destruct (combine_bounds_max b (dt_permission_bounds ref)) as [Hc1 Hc2].
  exists (ref :: refs). split; [by apply Hchain|].
  assert (forall bb, b' = Some bb ->
    ordering_value (bound_max bb) <= ordering_value (bound_max (combine_bounds b (dt_permission_bounds ref))))
    as Hle by (intros bb Hbb; by apply Hprev).
  split; [|split].
  - intros bb Hbb r [->|Hr]%elem_of_cons; [|by apply Hmax]. specialize (Hle bb Hbb). lia.
  - intros bb b0 Hbb Hb. specialize (Hle bb Hbb). specialize (Hc2 b0 Hb). lia.
  - intros _. destruct steps as [|st steps']; [simpl in Hrest; by injection Hrest as _ <-; eexists|].
    by destruct (IH _ _ Hrest) as (_ & _ & _ & _ & H); apply H.
Qed.

(** C36: a delegation path resolves only along declared delegations, at most ten,
    each claiming at most 64 tips that cover the floor the parent committed, to
    keys that the last tree's settings hold at the claimed tips; and what it
    resolves to never exceeds the bound of any delegation on the path, nor
    changes a key's identity or status. *)
Theorem delegation_path_bounded engine settings steps hint matches :
  resolve_delegation_path_with_depth steps hint settings engine = Some (Ok matches) ->
  exists refs settings' rs,
    delegation_chain engine settings steps refs settings'
    /\ (1 <= length steps <= 10)%nat /\ hint_is_global hint = false
    /\ resolve_hint settings' hint = Ok rs /\ matches <> []
    /\ forall m, m ∈ matches ->
         (exists r, r ∈ rs /\ ra_public_key m = ra_public_key r /\ ra_key_status m = ra_key_status r)
         /\ forall ref, ref ∈ refs ->
              Permission_leb (ra_effective_permission m) (bound_max (dt_permission_bounds ref)) = true.
Proof.
  unfold resolve_delegation_path_with_depth. destruct (is_nil steps) eqn:En; [done|].
  destruct (_ <? _)%nat eqn:El; [done|]. apply Nat.ltb_ge in El.
  destruct (hint_is_global hint) eqn:Eg; [done|].
  intros (r & Hr & Hm)%bind_Some. destruct r as [[s' b']|e]; [|done]. simpl in Hm.
  assert (steps <> []) as Hne by (by intros ->).
  apply delegation_steps_ok in Hr as (refs & Hchain & Hmax & _ & Hb).
  destruct (Hb Hne) as [bb ->]. specialize (Hmax bb eq_refl).
  destruct (resolve_hint s' hint) as [rs|] eqn:Ers; [|done]. simpl in Hm.
  destruct (is_nil rs) eqn:Enil; [done|]. injection Hm as <-.
  exists refs, s', rs. split; [done|]. split.
  { unfold MAX_DELEGATION_STEPS in El. destruct steps; [done|]. simpl in *. lia. }
  split; [done|]. split; [done|]. split; [by destruct rs|].
  intros m (r & -> & Hin)%list_elem_of_fmap. split; [by exists r|].
  intros ref Href. apply Permission_leb_le. simpl.
  pose proof (clamp_permission_max (ra_effective_permission r) bb). specialize (Hmax ref Href). lia.
Qed.

(** ** The validator *)

Lemma resolve_sig_key_total sig_key settings instance :
  is_Some (resolve_sig_key sig_key settings instance).
Proof.
  unfold resolve_sig_key, resolve_sig_key_with_depth. cbn [Nat.leb MAX_DELEGATION_DEPTH].
  destruct sig_key as [hint|path hint]; [by eexists|]. destruct instance as [engine|]; [|by eexists].
  unfold resolve_delegation_path_with_depth. repeat (case_match; [by eexists|]).
  destruct (delegation_steps_total engine settings None path) as [r ->]. by eexists.
Qed.

(** The key that lets an entry pass: active, verifying, and permitted. *)
Definition authorizes (entry : Entry) (r : ResolvedAuth) : Prop :=
  grants_access r = true /\ verify_entry_signature entry (ra_public_key r) = Ok tt
  /\ check_permissions r (entry_operation entry) = true.

Lemma try_candidates_spec entry candidates :
  try_candidates entry (entry_operation entry) candidates = true
  <-> exists r, r ∈ candidates /\ authorizes entry r.
Proof.
  induction candidates as [|r rest IH]; simpl.
  { split; [done|]. by intros (r & ?%elem_of_nil & _). }
  assert (~ authorizes entry r -> try_candidates entry (entry_operation entry) rest = true
    <-> exists r0, r0 ∈ r :: rest /\ authorizes entry r0) as Hskip.
  { intros Hr. rewrite IH. split; intros (r0 & Hin & H); exists r0.
    - split; [by right|done].
    - apply elem_of_cons in Hin as [->|Hin]; done. }
  unfold authorizes at 1 in Hskip. destruct (grants_access r) eqn:Eg; simpl; [|by apply Hskip; intros [? _]].
  destruct (verify_entry_signature entry (ra_public_key r)) as [[]|] eqn:Ev; simpl;
    [|by apply Hskip; intros (_ & ? & _)].
  destruct (check_permissions r (entry_operation entry)) eqn:Ep; [|by apply Hskip; intros (_ & _ & ?)].
  split; [|done]. intros _. exists r. split; [by left|done].
Qed.

Lemma validate_entry_cases entry settings instance :
  exists b, validate_entry entry settings instance = Some b
    /\ (b = true <->
        malformed_reason (e_sig entry) = None
        /\ if is_unsigned (e_sig entry) then has_auth settings = false
           else has_auth settings = true
             /\ exists rs r, resolve_sig_key (sig_key (e_sig entry)) settings instance = Some (Ok rs)
                /\ r ∈ rs /\ authorizes entry r).
Proof.
  unfold validate_entry. destruct (malformed_reason (e_sig entry)) eqn:Em; simpl.
  { exists false. split; [done|]. by split; [|intros [? _]]. }
  destruct (is_unsigned (e_sig entry)).
  { exists (negb (has_auth settings)). split; [done|]. rewrite negb_true_iff. tauto. }
  destruct (has_auth settings); simpl; [|exists false; split; [done|]; by split; [|intros (_ & ? & _)]].
  destruct (resolve_sig_key_total (sig_key (e_sig entry)) settings instance) as [[rs|e] Hr];
    rewrite Hr; simpl.
  - eexists. split; [done|]. rewrite try_candidates_spec. split.
    { intros (r & Hin & H). split; [done|]. split; [done|]. by exists rs, r. }
    intros (_ & _ & rs' & r & [= <-] & H). eauto.
  - exists false. split; [done|]. split; [done|]. by intros (_ & _ & rs & r & ? & _).
Qed.

(** C3: validation always gives an answer, and accepts exactly these entries: an
    unsigned one where no authentication is configured, and a signed one where
    it is, with a well-formed signature block, one of the keys it resolves to
    being active, verifying its signature, and permitted to write, or to
    administer when the entry touches the settings. *)
Theorem validate_entry_spec entry settings instance :
  exists b, validate_entry entry settings instance = Some b
    /\ (b = true <->
        malformed_reason (e_sig entry) = None
        /\ if is_unsigned (e_sig entry) then has_auth settings = false
           else has_auth settings = true
             /\ exists rs r, resolve_sig_key (sig_key (e_sig entry)) settings instance = Some (Ok rs)
                /\ r ∈ rs /\ ra_key_status r = Active
                /\ verify_entry_signature entry (ra_public_key r) = Ok tt
                /\ can_write (ra_effective_permission r) = true
                /\ (SETTINGS ∈ Entry_subtrees entry -> can_admin (ra_effective_permission r) = true)).
Proof.
  destruct (validate_entry_cases entry settings instance) as (b & -> & Hb). exists b. split; [done|].
  rewrite Hb. clear b Hb.
  assert (forall r, authorizes entry r <-> ra_key_status r = Active
    /\ verify_entry_signature entry (ra_public_key r) = Ok tt
    /\ can_write (ra_effective_permission r) = true
    /\ (SETTINGS ∈ Entry_subtrees entry -> can_admin (ra_effective_permission r) = true)) as Hr.
  { intros r. unfold authorizes, grants_access, check_permissions, entry_operation.
    rewrite bool_decide_eq_true. repeat f_equiv.
    case_decide; destruct (ra_effective_permission r); simpl; tauto. }
  destruct (is_unsigned (e_sig entry)); [done|].
  split; intros (Hm & Ha & rs & r & Hrs & Hin & H%Hr); (split; [done|]; split; [done|]; by exists rs, r).
Qed.

(** After a key is revoked, no entry that names it is accepted any more. *)
Theorem revoked_key_rejected s s' pk entry instance :
  AuthSettings_ok s -> revoke_key s pk = Ok s' -> sig_key (e_sig entry) = SigKey_from_pubkey pk ->
  validate_entry entry s' instance = Some false.
Proof.
  intros Hok Hrev Hkey.
  destruct (validate_entry_cases entry s' instance) as (b & -> & Hb). destruct b; [|done]. exfalso.
  destruct Hb as [Hb _]. destruct (Hb eq_refl) as [_ H]. unfold is_unsigned in H.
  rewrite Hkey in H. simpl in H. destruct H as (_ & rs & r & Hrs & Hin & Hg & _).
  unfold resolve_sig_key, resolve_sig_key_with_depth, resolve_direct_key, resolve_hint in Hrs.
  simpl in Hrs. destruct (revoked_key_lookup s s' pk Hok Hrev) as (key & Hget & Hst).
  rewrite Hget in Hrs. injection Hrs as <-. apply list_elem_of_singleton in Hin as ->.
  unfold grants_access in Hg. simpl in Hg. by rewrite Hst in Hg.
Qed.

Lemma has_auth_key s pk key :
  AuthSettings_ok s -> get_key_by_pubkey s pk = Ok key -> has_auth s = true.
Proof.
  intros Hok Hget. unfold has_auth. apply orb_true_iff. left. apply negb_true_iff, bool_decide_eq_false.
  intros Hempty. apply get_key_in_all in Hget; [|done]. by rewrite Hempty, lookup_empty in Hget.
Qed.

(** C37: an entry signed with a key that the settings hold as active, and that may
    write (and administer, when the entry touches the settings), is accepted. *)
Theorem signed_entry_accepted s sk key e instance :
  AuthSettings_ok s -> get_key_by_pubkey s (public_key sk) = Ok key -> key_status key = Active ->
  can_write (key_permissions key) = true ->
  (SETTINGS ∈ Entry_subtrees e -> can_admin (key_permissions key) = true) ->
  sig_key (e_sig e) = SigKey_from_pubkey (public_key sk) ->
  validate_entry (with_signature e (sign_entry e sk)) s instance = Some true.
Proof.
  intros Hok Hget Hst Hw Ha Hkey. set (e' := with_signature e (sign_entry e sk)).
  destruct (validate_entry_cases e' s instance) as (b & -> & Hb). f_equal. apply Hb.
  assert (sig_key (e_sig e') = SigKey_from_pubkey (public_key sk)) as Hk' by done.
  unfold malformed_reason, is_unsigned. rewrite Hk'. simpl. split; [done|].
  split; [by eapply has_auth_key|].
  unfold resolve_sig_key, resolve_sig_key_with_depth, resolve_direct_key, resolve_hint. simpl.
  rewrite Hget. eexists _, _. split; [done|]. split; [by left|].
  unfold authorizes, grants_access, check_permissions, entry_operation. simpl.
  split; [by apply bool_decide_eq_true|]. split; [apply signed_entry_verifies|].
  case_decide; [by apply Ha|]. by rewrite Hw.
Qed.

(** ** The permission of a proven identity *)

Lemma max_permission_spec l p :
  max_permission l = Some p <-> exists q rest, l = q :: rest
    /\ p = foldl (fun acc q => if Permission_leb acc q then q else acc) q rest.
Proof. unfold max_permission. destruct l; naive_solver. Qed.

Lemma max_fold_spec rest acc :
  let m := foldl (fun acc q => if Permission_leb acc q then q else acc) acc rest in
  (m = acc \/ m ∈ rest) /\ ordering_value acc <= ordering_value m
  /\ forall q, q ∈ rest -> ordering_value q <= ordering_value m.
Proof.
  cbn zeta. revert acc. induction rest as [|q rest IH]; intros acc; simpl.
  { split; [by left|]. split; [lia|set_solver]. }
  destruct (IH (if Permission_leb acc q then q else acc)) as (Hin & Hacc & Hmax).
  destruct (Permission_leb acc q) eqn:E.
  - apply Permission_leb_le in E. split; [destruct Hin as [->|?]; right; set_solver|].
    split; [lia|]. intros q' [->|Hq']%elem_of_cons; auto.
  - apply Permission_leb_gt in E. split; [destruct Hin as [->|?]; [by left|right; set_solver]|].
    split; [lia|]. intros q' [->|Hq']%elem_of_cons; [lia|auto].
Qed.

(** The selected permission is the highest that an active candidate gives the key. *)
Lemma select_effective_spec candidates pk :
  match select_effective_permission candidates pk with
  | Some p =>
      (exists r, r ∈ candidates /\ ra_public_key r = pk /\ ra_key_status r = Active
         /\ ra_effective_permission r = p)
      /\ forall r, r ∈ candidates -> ra_public_key r = pk -> ra_key_status r = Active ->
           Permission_leb (ra_effective_permission r) p = true
  | None => forall r, r ∈ candidates -> ra_public_key r = pk -> ra_key_status r <> Active
  end.
Proof.
  unfold select_effective_permission. set (l := filter _ candidates).
  assert (forall r, r ∈ l <-> r ∈ candidates /\ ra_public_key r = pk /\ ra_key_status r = Active) as Hl.
  { intros r. unfold l, grants_access. rewrite list_elem_of_filter, bool_decide_eq_true. tauto. }
  clearbody l. destruct l as [|r0 rest]; cbn [fmap list_fmap max_permission].
  { intros r Hr Hpk Hst. assert (r ∈ []) as ?%elem_of_nil by (by apply Hl). done. }
  destruct (max_fold_spec (ra_effective_permission <$> rest) (ra_effective_permission r0))
    as (Hin & Hacc & Hmax).
  set (m := foldl _ _ _) in *. split.
  - assert (exists r, r ∈ r0 :: rest /\ ra_effective_permission r = m) as (r & Hr%Hl & <-).
    { destruct Hin as [Hm|(r & Hm & Hr)%list_elem_of_fmap]; [exists r0; split; [by left|done]|].
      exists r. split; [by right|done]. }
    exists r. naive_solver.
  - intros r Hr Hpk Hst. apply Permission_leb_le.
    assert (r ∈ r0 :: rest) as [->|Hin']%elem_of_cons by (by apply Hl); [done|].
    by apply Hmax, list_elem_of_fmap_2.
Qed.

(** The permission granted to a proven public key is never spoofed and never
    comes from a revoked key: a hint that claims another key is refused, and a
    granted permission is that of an active candidate for this very key, the
    highest there is, or of the active global permission. *)
Theorem identity_permission_sound pk identity settings instance :
  match resolve_identity_permission pk identity settings instance with
  | None => False
  | Some (Err _) => True
  | Some (Ok p) =>
      (exists key, get_global_key settings = Ok key /\ key_status key = Active
         /\ p = key_permissions key
         /\ match identity with
            | Direct hint => hint_pubkey hint = None \/ hint_pubkey hint = Some pk
            | Delegation _ _ => False
            end)
      \/ exists rs r, resolve_sig_key identity settings instance = Some (Ok rs) /\ r ∈ rs
         /\ ra_public_key r = pk /\ ra_key_status r = Active /\ ra_effective_permission r = p
         /\ forall r', r' ∈ rs -> ra_public_key r' = pk -> ra_key_status r' = Active ->
              Permission_leb (ra_effective_permission r') p = true
  end.
Proof.
  unfold resolve_identity_permission. destruct identity as [hint|path hint].
  - set (claims := match hint_pubkey hint with Some _ => _ | None => false end).
    assert (claims = false -> hint_pubkey hint = None \/ hint_pubkey hint = Some pk) as Hclaims.
    { unfold claims. destruct (hint_pubkey hint); [|by left].
      intros ->%negb_false_iff%bool_decide_eq_true. by right. }
    destruct (hint_is_global hint).
    + destruct claims; [done|]. destruct (get_global_key settings) as [g|]; simpl; [|done].
      unfold is_active. case_bool_decide; simpl; [|done]. left. exists g. auto.
    + destruct claims; [done|]. destruct (_ && _); [done|].
      set (global := match get_global_key settings with Ok _ => _ | Err _ => _ end).
      assert (match global with
              | Ok p => exists key, get_global_key settings = Ok key /\ key_status key = Active
                  /\ p = key_permissions key /\ (hint_pubkey hint = None \/ hint_pubkey hint = Some pk)
              | Err _ => True end) as Hglobal.
      { unfold global, is_active. destruct (get_global_key settings) as [g|]; [|done].
        case_bool_decide; [|done]. exists g. auto. }
      destruct (resolve_hint settings hint) as [cands|] eqn:Ec; [|by destruct global; [left|]].
      pose proof (select_effective_spec cands pk) as Hsel.
      destruct (select_effective_permission cands pk) as [p|]; [|by destruct global; [left|]].
      right. destruct Hsel as [(r & Hr & Hpk & Hst & Hp) Hmax]. exists cands, r.
      split; [|done]. unfold resolve_sig_key, resolve_sig_key_with_depth, resolve_direct_key. simpl.
      rewrite Ec. simpl. by destruct cands; [apply elem_of_nil in Hr|].
  - destruct (resolve_sig_key_total (Delegation path hint) settings instance) as [[rs|e] Hrs];
      rewrite Hrs; simpl; [|done].
    pose proof (select_effective_spec rs pk) as Hsel.
    destruct (select_effective_permission rs pk) as [p|]; simpl; [|done].
    right. destruct Hsel as [(r & Hr & Hpk & Hst & Hp) Hmax]. by exists rs, r.
Qed.
End validation_facts.

(** ** A concrete delegation *)

#[local] Existing Instance nat_cid.
#[local] Existing Instance byte_crypto.
#[local] Existing Instance demo_codec.

(** A database layer whose every tree has the demo settings. *)
Definition demo_instance : InstanceSpec := {|
  Database := unit;
  PinnedTransaction := unit;
  SettingsStore := unit;
  Database_open _ _ := Ok tt;
  new_transaction_at _ _ := Ok tt;
  get_settings _ := Ok tt;
  auth_snapshot _ := Ok demo_settings;
|}.

#[local] Existing Instance demo_instance.

(** The settings that delegate to [demo_tree], and a backend that holds it. *)
Definition demo_parent : AuthSettings :=
  mkAuthSettings (set_key (inner demo_settings) (delegations_path demo_tree)
    (VDoc (DelegatedTreeRef_to_doc demo_delegation))).

Definition demo_engine : InMemoryInner :=
  storage_put InMemory_new
    (mkEntry 0 (mkTreeNode None [] (Some [Byte.x04]) 0) [mkSubTreeNode ROOT [] None None] SigInfo_default).

(** The key has Write(3) in the delegated tree, the delegation allows Write(10). *)
Lemma delegation_path_bounded_witness :
  resolve_delegation_path_with_depth [mkDelegationStep demo_tree [demo_tree]]
    (KeyHint_from_pubkey demo_pk) demo_parent demo_engine
    = Some (Ok [mkResolvedAuth demo_pk (Write 10) Active])
  /\ exists refs settings',
       delegation_chain demo_engine demo_parent [mkDelegationStep demo_tree [demo_tree]] refs settings'.
Proof.
  assert (resolve_delegation_path_with_depth [mkDelegationStep demo_tree [demo_tree]]
    (KeyHint_from_pubkey demo_pk) demo_parent demo_engine
    = Some (Ok [mkResolvedAuth demo_pk (Write 10) Active])) as E by (vm_compute; reflexivity).
  split; [exact E|].
  destruct (delegation_path_bounded demo_engine demo_parent [mkDelegationStep demo_tree [demo_tree]]
    (KeyHint_from_pubkey demo_pk) [mkResolvedAuth demo_pk (Write 10) Active] E)
    as (refs & s' & _ & Hchain & _).
  exists refs, s'. exact Hchain.
Defined.

Lemma revoked_key_rejected_witness :
  validate_entry (mkEntry 0 (mkTreeNode None [] None 0) [] (SigInfo_from_pubkey demo_pk))
    (put_key demo_settings (PublicKey_to_string demo_pk) (set_status demo_key Revoked)) None
  = Some false.
Proof.
  assert (get_key_by_pubkey demo_settings demo_pk = Ok demo_key) as E by (vm_compute; reflexivity).
  apply (revoked_key_rejected demo_settings _ demo_pk).
  - split; exact I.
  - unfold revoke_key. unfold get_key_by_pubkey in E. by rewrite E.
  - reflexivity.
Defined.

Lemma signed_entry_accepted_witness :
  exists e, validate_entry e demo_settings None = Some true.
Proof.
  set (sk := Ed25519Private (KS := byte_crypto) Byte.x07).
  set (e := mkEntry 0 (mkTreeNode None [] None 0) [] (SigInfo_from_pubkey (public_key sk))).
  exists (with_signature e (sign_entry e sk)).
  apply (signed_entry_accepted demo_settings sk demo_key e None).
  - split; exact I.
  - vm_compute. reflexivity.
  - reflexivity.
  - reflexivity.
  - intros H. by apply elem_of_nil in H.
  - reflexivity.
Defined.
