(* ===== verification/CrdtCache.v ===== *)
(** * The CRDT state cache (backend/database/in_memory/cache.rs)

    A byte-bounded cache of materialised states over the LRU cache of the [lru]
    crate, which is an interface here ([LruSpec]). *)

From S2P Require Import Prelude.
From S2P Require Import Path.
From S2P Require Import Ids.

Inductive CacheScope : Type := Shared | User (uuid : string).

#[export] Instance CacheScope_eq_dec : EqDecision CacheScope.
Proof. solve_decision. Defined.

Definition storage_key (s : CacheScope) : option string :=
  match s with Shared => None | User uuid => Some uuid end.

(** [usize] on the 64-bit targets. *)
Definition usize_max : Z := 2 ^ 64 - 1.
Definition saturating_add (a b : Z) : Z := Z.min (a + b) usize_max.
Definition saturating_sub (a b : Z) : Z := Z.max (a - b) 0.

Section assoc.
Context {K V : Type} `{!EqDecision K}.

Definition assoc_lookup (k : K) (l : list (K * V)) : option V :=
  snd <$> List.find (fun kv => bool_decide (kv.1 = k)) l.

Definition assoc_remove (k : K) (l : list (K * V)) : list (K * V) := filter (fun kv => kv.1 <> k) l.
End assoc.

(** [lru::LruCache], unbounded: its contents as the list that [iter] gives, the
    most recently used first. *)
Class LruSpec (K V : Type) `{!EqDecision K} := {
  LruCache : Type;
  lru_unbounded : LruCache;
  lru_get : LruCache -> K -> LruCache * option V;
  lru_put : LruCache -> K -> V -> LruCache * option V;
  lru_pop_lru : LruCache -> LruCache * option (K * V);
  lru_clear : LruCache -> LruCache;
  lru_items : LruCache -> list (K * V);
  lru_unbounded_items : lru_items lru_unbounded = [];
  lru_get_spec c k :
    (lru_get c k).2 = assoc_lookup k (lru_items c)
    /\ lru_items (lru_get c k).1 =
       match assoc_lookup k (lru_items c) with
       | Some v => (k, v) :: assoc_remove k (lru_items c)
       | None => lru_items c
       end;
  lru_put_spec c k v :
    (lru_put c k v).2 = assoc_lookup k (lru_items c)
    /\ lru_items (lru_put c k v).1 = (k, v) :: assoc_remove k (lru_items c);
  lru_pop_spec c :
    (lru_pop_lru c).2 = last (lru_items c)
    /\ lru_items (lru_pop_lru c).1 = removelast (lru_items c);
  lru_clear_items c : lru_items (lru_clear c) = [];
}.

Section crdt_cache.
Context `{CS : CidSpec}.

Definition CacheKey : Type := CacheScope * ID * string.

#[export] Instance CacheKey_eq_dec : EqDecision CacheKey.
Proof. unfold CacheKey. solve_decision. Defined.

Context `{LS : !LruSpec CacheKey (list Byte.byte)}.

Record InMemoryCrdtCache : Type := mkInMemoryCrdtCache {
  lru : LruCache;
  current_bytes : Z;
  capacity_bytes : Z;
}.

Definition DEFAULT_CAPACITY_BYTES : Z := 256 * 1024 * 1024.

Definition with_capacity_bytes (capacity : Z) : InMemoryCrdtCache :=
  mkInMemoryCrdtCache lru_unbounded 0 capacity.

Definition InMemoryCrdtCache_new : InMemoryCrdtCache := with_capacity_bytes DEFAULT_CAPACITY_BYTES.

Definition cache_get (c : InMemoryCrdtCache) (scope : CacheScope) (entry_id : ID) (subtree : string) :
    InMemoryCrdtCache * option (list Byte.byte) :=
  let r := lru_get (lru c) (scope, entry_id, subtree) in
  (mkInMemoryCrdtCache r.1 (current_bytes c) (capacity_bytes c), r.2).

Definition vec_len (v : list Byte.byte) : Z := Z.of_nat (length v).

(** The eviction loop. *)
Fixpoint evict (fuel : nat) (cache_key : CacheKey) (c : InMemoryCrdtCache) : option InMemoryCrdtCache :=
  match fuel with
  | O => None
  | S fuel =>
      if current_bytes c >? capacity_bytes c then
        match lru_pop_lru (lru c) with
        | (l, None) => Some (mkInMemoryCrdtCache l (current_bytes c) (capacity_bytes c))
        | (l, Some (k, v)) =>
            if decide (k = cache_key) then
              Some (mkInMemoryCrdtCache (lru_put l k v).1 (current_bytes c) (capacity_bytes c))
            else
              evict fuel cache_key (mkInMemoryCrdtCache l
                (saturating_sub (current_bytes c) (vec_len v)) (capacity_bytes c))
        end
      else Some c
  end.

Definition cache_put (c : InMemoryCrdtCache) (scope : CacheScope) (entry_id : ID) (subtree : string)
    (state : list Byte.byte) : option InMemoryCrdtCache :=
  let blob_size := vec_len state in
  let cache_key := (scope, entry_id, subtree) in
  let r := lru_put (lru c) cache_key state in
  let bytes := match r.2 with
               | Some prev => saturating_sub (current_bytes c) (vec_len prev)
               | None => current_bytes c
               end in
  evict (S (length (lru_items r.1))) cache_key
    (mkInMemoryCrdtCache r.1 (saturating_add bytes blob_size) (capacity_bytes c)).

Definition cache_clear (c : InMemoryCrdtCache) : InMemoryCrdtCache :=
  mkInMemoryCrdtCache (lru_clear (lru c)) 0 (capacity_bytes c).

(** ** Facts *)

Definition items (c : InMemoryCrdtCache) : list (CacheKey * list Byte.byte) := lru_items (lru c).

Definition total (l : list (CacheKey * list Byte.byte)) : Z :=
  foldr (fun kv n => vec_len kv.2 + n) 0 l.

(** Each key once, and the counted bytes are those of the blobs. *)
Record cache_inv (c : InMemoryCrdtCache) : Prop := {
  ci_keys : NoDup (items c).*1;
  ci_bytes : current_bytes c = total (items c);
  ci_fit : total (items c) <= usize_max;
}.

Lemma total_nonneg l : 0 <= total l.
Proof. induction l as [|kv l IH]; simpl; [done|]. unfold vec_len. lia. Qed.

Lemma total_cons kv l : total (kv :: l) = vec_len kv.2 + total l.
Proof. done. Qed.

Lemma total_app l1 l2 : total (l1 ++ l2) = total l1 + total l2.
Proof. induction l1 as [|kv l1 IH]; simpl; [done|]. rewrite IH. lia. Qed.

Lemma assoc_remove_absent (k : CacheKey) (l : list (CacheKey * list Byte.byte)) :
  k ∉ l.*1 -> assoc_remove k l = l /\ assoc_lookup k l = None.
Proof.
  unfold assoc_remove, assoc_lookup.
  induction l as [|[k' v] l IH]; [done|]. rewrite fmap_cons. cbn [fst]. intros Hk.
  destruct IH as [IH1 IH2]; [set_solver|]. split.
  - rewrite filter_cons, decide_True; [by rewrite IH1|]. simpl. set_solver.
  - simpl. rewrite bool_decide_false by set_solver. done.
Qed.

(** Removing a key removes the bytes of its value. *)
Lemma assoc_remove_total (k : CacheKey) (l : list (CacheKey * list Byte.byte)) :
  NoDup l.*1 ->
  total (assoc_remove k l)
    = total l - match assoc_lookup k l with Some v => vec_len v | None => 0 end
  /\ NoDup (k :: (assoc_remove k l).*1).
Proof.
  intros Hnd. assert (k ∉ (assoc_remove k l).*1) as Hk.
  { intros ([k' v] & Heq & Hin)%list_elem_of_fmap. unfold assoc_remove in Hin.
    apply list_elem_of_filter in Hin as [Hne _]. simpl in *. congruence. }
  induction l as [|[k' v] l IH]; [split; [done|by apply NoDup_singleton]|].
  rewrite fmap_cons in Hnd. apply NoDup_cons in Hnd as [Hk' Hnd]. cbn [fst] in *.
  destruct (decide (k' = k)) as [->|Hne].
  - destruct (assoc_remove_absent k l Hk') as [Hr _]. unfold assoc_remove, assoc_lookup in *.
    rewrite filter_cons, decide_False in * by (simpl; tauto). rewrite Hr in *. simpl.
    rewrite bool_decide_true by done. simpl. split; [lia|by apply NoDup_cons].
  - unfold assoc_remove, assoc_lookup in *.
    rewrite filter_cons, decide_True in * by done. rewrite fmap_cons in *. cbn [fst] in *.
    destruct IH as [IH1 IH2]; [done|set_solver|]. simpl. rewrite bool_decide_false by done.
    split; [lia|]. apply NoDup_cons in IH2 as [? ?]. apply NoDup_cons. split; [done|].
    apply NoDup_cons. split; [|done].
    intros (kv & -> & [_ Hin]%list_elem_of_filter)%list_elem_of_fmap. apply Hk'.
    by apply list_elem_of_fmap_2.
Qed.

Lemma assoc_lookup_iff (k : CacheKey) v (l : list (CacheKey * list Byte.byte)) :
  NoDup l.*1 -> assoc_lookup k l = Some v <-> (k, v) ∈ l.
Proof.
  unfold assoc_lookup. induction l as [|[k' v'] l IH]; [set_solver|].
  rewrite fmap_cons, NoDup_cons. cbn [fst]. intros [Hk Hnd]. simpl. destruct (decide (k' = k)) as [->|Hne].
  - rewrite bool_decide_true by done. simpl. rewrite elem_of_cons. split; [intros [= ->]; by left|].
    intros [[= ->]|Hin]; [done|]. destruct Hk. by apply (list_elem_of_fmap_2 fst) in Hin.
  - rewrite bool_decide_false, IH, elem_of_cons by done. split; [by right|].
    intros [[= -> ->]|?]; done.
Qed.

(** The loop drops a suffix of the least recently used items, no longer than
    needed, and never the item just put, which is the most recent. *)
Lemma evict_spec fuel ck st rest c :
  items c = (ck, st) :: rest -> NoDup (ck :: rest.*1) -> current_bytes c = total (items c) ->
  (length rest + 1 < fuel)%nat ->
  exists c' kept gone,
    evict fuel ck c = Some c' /\ rest = kept ++ gone /\ items c' = (ck, st) :: kept
    /\ current_bytes c' = total (items c') /\ capacity_bytes c' = capacity_bytes c
    /\ (current_bytes c' <= capacity_bytes c \/ kept = [])
    /\ forall x gone', gone = x :: gone' -> capacity_bytes c < total ((ck, st) :: kept ++ [x]).
Proof.
  revert fuel c. induction rest as [|[k v] rest IH] using rev_ind; intros fuel c Hi Hnd Hb Hf;
    (destruct fuel as [|fuel]; [lia|]); cbn [evict].
  - destruct (Z.gtb_spec (current_bytes c) (capacity_bytes c)) as [Hgt|Hle].
    2: { exists c, [], []. repeat split; try done. by right. }
    destruct (lru_pop_spec (lru c)) as [Hp1 Hp2]. unfold items in Hi. rewrite Hi in Hp1, Hp2.
    destruct (lru_pop_lru (lru c)) as [l o]. simpl in Hp1, Hp2. subst o. rewrite decide_True by done.
    eexists _, [], []. split; [done|].
    destruct (lru_put_spec l ck st) as [_ Hput]. unfold items in *. cbn [lru current_bytes capacity_bytes].
    rewrite Hput, Hp2. split; [done|]. split; [done|]. split; [by rewrite Hb, Hi|].
    split; [done|]. split; [by right|done].
  - destruct (Z.gtb_spec (current_bytes c) (capacity_bytes c)) as [Hgt|Hle].
    2: { exists c, (rest ++ [(k, v)]), []. rewrite app_nil_r. repeat split; try done. by left. }
    destruct (lru_pop_spec (lru c)) as [Hp1 Hp2]. unfold items in Hi.
    rewrite Hi, app_comm_cons in Hp1, Hp2. rewrite last_snoc in Hp1. rewrite removelast_last in Hp2.
    destruct (lru_pop_lru (lru c)) as [l o]. cbn [fst snd] in Hp1, Hp2. subst o.
    rewrite fmap_app, app_comm_cons in Hnd. apply NoDup_app in Hnd as (Hnd & Hdis & _).
    rewrite decide_False by (intros ->; apply (Hdis ck); set_solver).
    assert (total (lru_items (lru c)) = total ((ck, st) :: rest) + vec_len v) as Ht.
    { rewrite Hi, app_comm_cons, total_app. simpl. lia. }
    unfold items in Hb. rewrite Ht in Hb. pose proof (total_nonneg ((ck, st) :: rest)).
    destruct (IH fuel (mkInMemoryCrdtCache l (saturating_sub (current_bytes c) (vec_len v))
      (capacity_bytes c))) as (c' & kept & gone & -> & -> & Hi' & Hb' & Hc' & Hcap & Hmin).
    + done.
    + done.
    + cbn [current_bytes items lru]. unfold items. cbn [lru]. rewrite Hp2, Hb. unfold saturating_sub. lia.
    + rewrite length_app in Hf. simpl in Hf. lia.
    + cbn [capacity_bytes] in *. exists c', kept, (gone ++ [(k, v)]). rewrite app_assoc.
      split; [done|]. split; [done|]. split; [done|]. split; [done|]. split; [done|]. split; [done|].
      intros x gone' Heq. destruct gone as [|y gone]; [|injection Heq as -> _; by eapply Hmin].
      injection Heq as <- _. rewrite app_nil_r, total_cons in Hb.
      rewrite total_cons, total_app. simpl in *. lia.
Qed.

(** Whatever the byte count says, a put keeps the new item and a prefix of the
    others. *)
Lemma evict_keeps fuel ck st rest c :
  items c = (ck, st) :: rest -> NoDup (ck :: rest.*1) -> (length rest + 1 < fuel)%nat ->
  exists c' kept gone,
    evict fuel ck c = Some c' /\ rest = kept ++ gone /\ items c' = (ck, st) :: kept.
Proof.
  revert fuel c. induction rest as [|[k v] rest IH] using rev_ind; intros fuel c Hi Hnd Hf;
    (destruct fuel as [|fuel]; [lia|]); cbn [evict];
    (destruct (current_bytes c >? capacity_bytes c);
     [|eexists c, _, []; split; [done|]; split; [by rewrite app_nil_r|done]]);
    destruct (lru_pop_spec (lru c)) as [Hp1 Hp2]; unfold items in Hi; rewrite Hi in Hp1, Hp2.
  - destruct (lru_pop_lru (lru c)) as [l o]. simpl in Hp1, Hp2. subst o. rewrite decide_True by done.
    eexists _, [], []. split; [done|]. split; [done|].
    destruct (lru_put_spec l ck st) as [_ Hput]. unfold items. cbn [lru]. by rewrite Hput, Hp2.
  - rewrite app_comm_cons, last_snoc in Hp1. rewrite app_comm_cons, removelast_last in Hp2.
    destruct (lru_pop_lru (lru c)) as [l o]. cbn [fst snd] in Hp1, Hp2. subst o.
    rewrite fmap_app, app_comm_cons in Hnd. apply NoDup_app in Hnd as (Hnd & Hdis & _).
    rewrite decide_False by (intros ->; apply (Hdis ck); set_solver).
    destruct (IH fuel (mkInMemoryCrdtCache l (saturating_sub (current_bytes c) (vec_len v))
      (capacity_bytes c))) as (c' & kept & gone & -> & -> & Hi'); [done|done| |].
    { rewrite length_app in Hf. simpl in Hf. lia. }
    exists c', kept, (gone ++ [(k, v)]). by rewrite app_assoc.
Qed.

Lemma cache_put_keeps c scope entry_id subtree state :
  let key : CacheKey := (scope, entry_id, subtree) in
  NoDup (items c).*1 ->
  exists c', cache_put c scope entry_id subtree state = Some c' /\ NoDup (items c').*1
    /\ forall k v, (k, v) ∈ items c' -> (k = key /\ v = state) \/ (k <> key /\ (k, v) ∈ items c).
Proof.
  cbn zeta. intros Hk. set (key := (scope, entry_id, subtree) : CacheKey).
  destruct (assoc_remove_total key (items c) Hk) as [_ Hnd].
  destruct (lru_put_spec (lru c) key state) as [Hp1 Hp2]. fold (items c) in Hp1, Hp2.
  unfold cache_put. fold key. rewrite Hp1, Hp2. set (c1 := mkInMemoryCrdtCache _ _ _).
  destruct (evict_keeps (S (length ((key, state) :: assoc_remove key (items c)))) key state
    (assoc_remove key (items c)) c1) as (c' & kept & gone & -> & Hsplit & Hi'); [exact Hp2|done|simpl; lia|].
  exists c'. split; [done|]. rewrite Hi'. split.
  - rewrite Hsplit, fmap_app, app_comm_cons in Hnd. rewrite fmap_cons. by apply NoDup_app in Hnd as [? _].
  - intros k v [[= -> ->]|Hin]%elem_of_cons; [by left|right].
    assert ((k, v) ∈ assoc_remove key (items c)) as Hr by (rewrite Hsplit; set_solver).
    by apply list_elem_of_filter in Hr.
Qed.

Lemma cache_get_keeps c scope entry_id subtree :
  let key : CacheKey := (scope, entry_id, subtree) in
  let r := cache_get c scope entry_id subtree in
  NoDup (items c).*1 ->
  NoDup (items r.1).*1 /\ (forall kv, kv ∈ items r.1 -> kv ∈ items c)
  /\ forall v, r.2 = Some v -> (key, v) ∈ items c.
Proof.
  cbn zeta. intros Hk. unfold cache_get. set (key := (scope, entry_id, subtree) : CacheKey).
  destruct (lru_get_spec (lru c) key) as [Hv Hi]. fold (items c) in Hi, Hv.
  destruct (assoc_remove_total key (items c) Hk) as [_ Hnd].
  unfold items at 1 2. cbn [fst snd lru]. rewrite Hi, Hv.
  destruct (assoc_lookup key (items c)) as [v|] eqn:E; [|done].
  apply assoc_lookup_iff in E; [|done]. split; [done|]. split; [|by intros v' [= <-]].
  intros kv [->|Hin]%elem_of_cons; [done|]. by apply list_elem_of_filter in Hin as [_ ?].
Qed.

(** The cache after a put. *)
Lemma cache_put_spec c scope entry_id subtree state :
  let key : CacheKey := (scope, entry_id, subtree) in
  cache_inv c -> total (items c) + vec_len state <= usize_max ->
  exists c' kept gone,
    cache_put c scope entry_id subtree state = Some c' /\ cache_inv c'
    /\ assoc_remove key (items c) = kept ++ gone /\ items c' = (key, state) :: kept
    /\ (total (items c') <= capacity_bytes c \/ kept = [])
    /\ (forall x gone', gone = x :: gone' -> capacity_bytes c < total ((key, state) :: kept ++ [x])).
Proof.
  cbn zeta. intros [Hk Hb Hfit] Hsz. set (key := (scope, entry_id, subtree) : CacheKey).
  destruct (assoc_remove_total key (items c) Hk) as [Ht Hnd].
  destruct (lru_put_spec (lru c) key state) as [Hp1 Hp2]. fold (items c) in Hp1, Hp2.
  pose proof (total_nonneg (assoc_remove key (items c))) as H0.
  unfold cache_put. fold key. rewrite Hp1, Hp2.
  set (c1 := mkInMemoryCrdtCache _ _ _).
  assert (items c1 = (key, state) :: assoc_remove key (items c)) as Hi1 by exact Hp2.
  destruct (evict_spec (S (length ((key, state) :: assoc_remove key (items c)))) key state
    (assoc_remove key (items c)) c1) as (c' & kept & gone & He & Hsplit & Hi' & Hb' & Hc' & Hcap & Hmin).
  - done.
  - done.
  - rewrite Hi1. unfold c1. cbn [current_bytes]. rewrite total_cons, Hb, Ht. cbn [snd]. unfold saturating_add, saturating_sub, vec_len in *.
    destruct (assoc_lookup key (items c)); lia.
  - simpl. lia.
  - exists c', kept, gone. split; [exact He|].
    assert (total ((key, state) :: kept) <= total (items c) + vec_len state) as Hle.
    { rewrite total_cons. rewrite Hsplit, total_app in Ht. pose proof (total_nonneg gone).
      simpl. unfold vec_len in *. destruct (assoc_lookup key (items c)); lia. }
    assert (cache_inv c') as Hinv'.
    { split; [|done|rewrite Hi'; lia]. rewrite Hi', fmap_cons. rewrite Hsplit, fmap_app in Hnd.
      rewrite app_comm_cons in Hnd. by apply NoDup_app in Hnd as [? _]. }
    split; [done|]. split; [done|]. split; [done|]. split; [by rewrite <- Hb'|done].
Qed.

Lemma cache_put_inv c scope entry_id subtree state c' :
  cache_inv c -> total (items c) + vec_len state <= usize_max ->
  cache_put c scope entry_id subtree state = Some c' -> cache_inv c'.
Proof.
  intros Hinv Hsz Hput.
  destruct (cache_put_spec c scope entry_id subtree state Hinv Hsz) as (c1 & _ & _ & Hput1 & Hc1 & _).
  congruence.
Qed.

(** Putting a state in the CRDT cache terminates and keeps the byte count
    exact; afterwards the cache holds the new state as its most recent item and
    the most recently used others, within the capacity unless the new state
    alone exceeds it, and drops no more than that needs; a read returns the new
    state, and what it returns for another key is what the cache held. *)
Theorem crdt_cache_spec c scope entry_id subtree state :
  let key : CacheKey := (scope, entry_id, subtree) in
  cache_inv c -> total (items c) + vec_len state <= usize_max ->
  exists c' kept gone,
    cache_put c scope entry_id subtree state = Some c' /\ cache_inv c'
    /\ assoc_remove key (items c) = kept ++ gone /\ items c' = (key, state) :: kept
    /\ (total (items c') <= capacity_bytes c \/ kept = [])
    /\ (forall x gone', gone = x :: gone' -> capacity_bytes c < total ((key, state) :: kept ++ [x]))
    /\ (cache_get c' scope entry_id subtree).2 = Some state
    /\ forall scope' id' subtree', (scope', id', subtree') <> key ->
         (cache_get c' scope' id' subtree').2 = None
         \/ (cache_get c' scope' id' subtree').2 = (cache_get c scope' id' subtree').2.
Proof.
  cbn zeta. intros Hinv Hsz.
  destruct (cache_put_spec c scope entry_id subtree state Hinv Hsz)
    as (c' & kept & gone & Hput & Hinv' & Hsplit & Hi' & Hcap & Hmin).
  exists c', kept, gone. repeat (split; [done|]).
  set (key := (scope, entry_id, subtree) : CacheKey) in *.
  assert (forall s i t, (cache_get c' s i t).2 = assoc_lookup ((s, i, t) : CacheKey) (items c')
    /\ (cache_get c s i t).2 = assoc_lookup ((s, i, t) : CacheKey) (items c)) as Hget
    by (intros; split; apply lru_get_spec).
  split.
  - destruct (Hget scope entry_id subtree) as [-> _].
    apply assoc_lookup_iff; [apply Hinv'|]. rewrite Hi'. by left.
  - intros s' i' t' Hne. destruct (Hget s' i' t') as [-> ->].
    destruct (assoc_lookup _ (items c')) as [v|] eqn:E; [right|by left]. symmetry.
    apply assoc_lookup_iff in E; [|apply Hinv']. apply assoc_lookup_iff; [apply Hinv|].
    rewrite Hi' in E. apply elem_of_cons in E as [Heq|E]; [by injection Heq as -> -> -> ->|].
    assert ((s', i', t', v) ∈ assoc_remove key (items c)) as Hin by (rewrite Hsplit; set_solver).
    by apply list_elem_of_filter in Hin as [_ ?].
Qed.

Lemma cache_inv_init capacity : cache_inv (with_capacity_bytes capacity).
Proof.
  unfold with_capacity_bytes. split; unfold items; cbn [lru current_bytes];
    rewrite lru_unbounded_items; [constructor|done|done].
Qed.

Lemma cache_get_inv c scope entry_id subtree :
  cache_inv c -> cache_inv (cache_get c scope entry_id subtree).1.
Proof.
  intros [Hk Hb Hf]. unfold cache_get. set (key := (scope, entry_id, subtree) : CacheKey).
  destruct (lru_get_spec (lru c) key) as [_ Hi]. fold (items c) in Hi.
  destruct (assoc_remove_total key (items c) Hk) as [Ht Hnd].
  split; unfold items; cbn [fst lru current_bytes]; rewrite Hi;
    destruct (assoc_lookup key (items c)) as [v|]; rewrite ?total_cons; simpl in *; try done; lia.
Qed.

Lemma cache_clear_inv c : cache_inv (cache_clear c) /\ items (cache_clear c) = [].
Proof.
  unfold cache_clear, items. cbn [lru]. rewrite lru_clear_items. split; [|done].
  split; unfold items; cbn [lru current_bytes]; rewrite lru_clear_items; [constructor|done|done].
Qed.
End crdt_cache.

(** ** A concrete LRU cache and an execution *)

#[local] Existing Instance nat_cid.

Section list_lru.
Context {K V : Type} `{!EqDecision K}.

Definition list_lru_get (c : list (K * V)) (k : K) : list (K * V) * option V :=
  match assoc_lookup k c with
  | Some v => ((k, v) :: assoc_remove k c, Some v)
  | None => (c, None)
  end.

#[refine] Definition list_lru : LruSpec K V := {|
  LruCache := list (K * V);
  lru_unbounded := [];
  lru_get := list_lru_get;
  lru_put c k v := ((k, v) :: assoc_remove k c, assoc_lookup k c);
  lru_pop_lru c := (removelast c, last c);
  lru_clear _ := [];
  lru_items c := c;
|}.
Proof. all: try done. intros c k. unfold list_lru_get. by destruct (assoc_lookup k c). Defined.
End list_lru.

#[local] Existing Instance list_lru.

Definition cache_demo_id (n : nat) : ID := mkID (Some n : option (@Cid nat_cid)).

Definition demo_cache : InMemoryCrdtCache :=
  mkInMemoryCrdtCache
    [((Shared, cache_demo_id 1, "s"), [Byte.x01; Byte.x02]);
     ((User "u", cache_demo_id 1, "s"), [Byte.x03])] 3 4.

(** The user's blob is evicted: the three bytes and the new two exceed four. *)
Lemma crdt_cache_spec_witness :
  (cache_get (mkInMemoryCrdtCache
     [((Shared, cache_demo_id 2, "s"), [Byte.x04; Byte.x05]);
      ((Shared, cache_demo_id 1, "s"), [Byte.x01; Byte.x02])] 4 4) Shared (cache_demo_id 2) "s").2
  = Some [Byte.x04; Byte.x05].
Proof.
  destruct (crdt_cache_spec demo_cache Shared (cache_demo_id 2) "s" [Byte.x04; Byte.x05])
    as (c' & kept & gone & Hput & _ & _ & _ & _ & _ & Hget & _).
  - split; [|done|done]. apply NoDup_cons. split; [|apply NoDup_singleton]. by intros ?%list_elem_of_singleton.
  - done.
  - assert (cache_put demo_cache Shared (cache_demo_id 2) "s" [Byte.x04; Byte.x05] = Some
      (mkInMemoryCrdtCache
       [((Shared, cache_demo_id 2, "s"), [Byte.x04; Byte.x05]);
        ((Shared, cache_demo_id 1, "s"), [Byte.x01; Byte.x02])] 4 4)) as E by reflexivity.
    rewrite Hput in E. injection E as <-. exact Hget.
Defined.
