(* ===== verification/StoreTips.v ===== *)
(** * Tips and the backend's invariant

    The tips of a tree cover it, the store tips at a snapshot are those of the
    entries the snapshot reaches, whichever path of the code computes them, and
    every state the backend can reach keeps its caches exact. *)

From S2P Require Import Prelude.
From S2P Require Import Worklist.
From S2P Require Import Path.
From S2P Require Import Position.
From S2P Require Import Ids.
From S2P Require Import Doc.
From S2P Require Import DocPath.
From S2P Require Import Errors.
From S2P Require Import Crypto.
From S2P Require Import Permission.
From S2P Require Import AuthTypes.
From S2P Require Import Entry.
From S2P Require Import Backend.
From S2P Require Import Traversal.

Section store_tips.
Context `{CD : CodecSpec}.

(** No entry of a group is its own ancestor: some rank decreases along parents
    (heights do, when every entry is higher than its parents). *)
Definition acyclic_group (member : Entry -> bool) (parents_of : Entry -> list ID)
    (es : gmap ID Entry) : Prop :=
  exists rank : ID -> nat, forall x y, edge member parents_of es x y -> (rank y < rank x)%nat.

Definition acyclic (es : gmap ID Entry) (tree : ID) : Prop :=
  acyclic_group (fun e => in_tree e tree) Entry_parents es.

Definition acyclic_store (es : gmap ID Entry) (tree : ID) (subtree : string) : Prop :=
  acyclic_group (fun e => in_store e tree subtree) (subtree_parents_or_nil subtree) es.

Lemma height_lower_bound (height : Entry -> Z) (es : gmap ID Entry) :
  exists m, forall id e, es !! id = Some e -> m <= height e.
Proof.
  induction es as [|i e es _ IH] using map_ind; [exists 0; set_solver|].
  destruct IH as [m Hm]. exists (Z.min m (height e)). intros id e'.
  rewrite lookup_insert_Some. intros [[_ <-]|[_ H]]; [lia|]. specialize (Hm id e' H). lia.
Qed.

Lemma heights_acyclic (height : Entry -> Z) member parents_of es :
  (forall x y e e', edge member parents_of es x y -> es !! x = Some e -> es !! y = Some e' ->
    height e' < height e) ->
  acyclic_group member parents_of es.
Proof.
  intros Hdec. destruct (height_lower_bound height es) as [m Hm].
  exists (fun x => match es !! x with Some e => S (Z.to_nat (height e - m)) | None => 0%nat end).
  intros x y Hxy. destruct Hxy as (e & He & Hin & Hy) eqn:E. rewrite He.
  destruct (es !! y) as [e'|] eqn:Ey; [|lia].
  assert (height e' < height e) by (eapply Hdec; [|done|done]; by exists e).
  pose proof (Hm y e' Ey). lia.
Qed.

(** A bound on a rank over the entries of the store. *)
Lemma rank_bound (es : gmap ID Entry) (rank : ID -> nat) :
  exists m, forall id, is_Some (es !! id) -> (rank id <= m)%nat.
Proof.
  exists (sum_list (rank <$> elements (dom es))). intros id Hid%elem_of_dom.
  assert (id ∈ elements (dom es)) as Hin by (by apply elem_of_elements).
  induction (elements (dom es)) as [|x l IH]; [set_solver|]. rewrite fmap_cons. simpl.
  apply elem_of_cons in Hin as [->|Hin]; [lia|]. specialize (IH Hin). lia.
Qed.

(** Every entry of an acyclic group is an ancestor of one of its tips. *)
Lemma tips_cover member parents_of es id e :
  acyclic_group member parents_of es -> es !! id = Some e -> member e = true ->
  exists t, tip member parents_of es t /\ rtc (edge member parents_of es) t id.
Proof.
  intros [rank Hrank]. destruct (rank_bound es rank) as [m Hm].
  remember (m - rank id)%nat as k eqn:Hk. revert id e Hk.
  induction k as [k IH] using lt_wf_ind; intros id e -> He Ht.
  set (group := filter (fun e => member e = true) (entry_values es)).
  assert (forall e', e' ∈ group <-> member e' = true /\ exists c, es !! c = Some e') as Hg.
  { intros e'. unfold group. by rewrite list_elem_of_filter, elem_of_entry_values. }
  destruct (childless parents_of group id) eqn:Et.
  { exists id. split; [|apply rtc_refl]. split; [eauto|]. rewrite childless_iff in Et.
    intros id' e' He' Hm'. apply Et, Hg. eauto. }
  apply forallb_false in Et as (e' & (Hm' & c & Hc)%Hg & Hp%negb_false_iff%bool_decide_eq_true).
  assert (edge member parents_of es c id) as Hedge by (by exists e').
  assert (rank id < rank c)%nat by (by apply Hrank).
  assert (rank c <= m)%nat by (apply Hm; eauto).
  destruct (IH (m - rank c)%nat) with (id := c) (e := e') as (t & Htip & Hreach); [lia|done..|].
  exists t. split; [done|]. by eapply rtc_r.
Qed.

(** The entries a main snapshot reaches. *)
Definition reached (es : gmap ID Entry) (tree : ID) (main : list ID) (id : ID) (e : Entry) : Prop :=
  es !! id = Some e /\ in_tree e tree = true
  /\ exists t, t ∈ main /\ rtc (tree_edge es tree) t id.

(** The store tips among them. *)
Definition scope_tip (es : gmap ID Entry) (tree : ID) (subtree : string) (main : list ID) (id : ID) :
    Prop :=
  (exists e, reached es tree main id e /\ in_subtree e subtree = true)
  /\ forall id' e', reached es tree main id' e' -> in_subtree e' subtree = true ->
       id ∉ subtree_parents_or_nil subtree e'.

(** Reading at the current tips is reading everything. *)
Lemma scope_tip_current es tree subtree main id :
  acyclic es tree -> (forall t, t ∈ main <-> tree_tip es tree t) ->
  scope_tip es tree subtree main id <-> store_tip es tree subtree id.
Proof.
  intros Hac Hmain.
  assert (forall id e, reached es tree main id e <-> es !! id = Some e /\ in_tree e tree = true) as Hr.
  { intros id' e. split; [by intros (? & ? & _)|]. intros [He Ht]. split; [done|]. split; [done|].
    destruct (tips_cover (fun e => in_tree e tree) Entry_parents es id' e) as (t & Htip & Hreach); [done..|].
    exists t. split; [by apply Hmain|done]. }
  unfold scope_tip, store_tip, tip, in_store. setoid_rewrite Hr. setoid_rewrite andb_true_iff.
  split; (intros [(e & He) Hc]; split; [exists e; tauto|]).
  - intros id' e' He' [Ht Hs]. by apply (Hc id').
  - intros id' e' [He' Ht] Hs. by apply (Hc id').
Qed.

(** The path that walks from the main entries. *)
Lemma elem_of_scope es tree subtree main (result : list Entry) id :
  ids_ok es ->
  (forall e, e ∈ result <-> exists id, es !! id = Some e /\ in_tree e tree = true
     /\ exists t, t ∈ main /\ rtc (tree_edge es tree) t id) ->
  let subtree_entries := filter (fun e => in_subtree e subtree = true) result in
  let ids : gset ID := list_to_set (Entry_id <$> subtree_entries) in
  id ∈ ids ∖ (list_to_set (filter (fun p => p ∈ ids)
    (concat (subtree_parents_or_nil subtree <$> subtree_entries))) : gset ID)
  <-> scope_tip es tree subtree main id.
Proof.
  intros Hids Hres. cbn zeta. set (l := filter _ result). set (ids := list_to_set _ : gset ID).
  assert (forall e, e ∈ l <-> (exists id, reached es tree main id e) /\ in_subtree e subtree = true) as Hl.
  { intros e. unfold l. rewrite list_elem_of_filter, Hres. unfold reached. tauto. }
  assert (forall x, x ∈ ids <-> exists e, reached es tree main x e /\ in_subtree e subtree = true) as Hi.
  { intros x. unfold ids. rewrite elem_of_list_to_set, list_elem_of_fmap. split.
    - intros (e & -> & [[i Hr] Hs]%Hl). exists e. split; [|done].
      destruct Hr as (He & Hr). rewrite (Hids _ _ He). by split.
    - intros (e & Hr & Hs). exists e. split; [|apply Hl; eauto]. symmetry. apply Hids, Hr. }
  rewrite elem_of_difference, elem_of_list_to_set, list_elem_of_filter, elem_of_concat.
  setoid_rewrite list_elem_of_fmap. unfold scope_tip. rewrite <- Hi. split.
  - intros [Hin Hno]. split; [done|]. intros id' e' Hr Hs Hp. apply Hno. split; [done|].
    exists (subtree_parents_or_nil subtree e'). split; [done|]. exists e'. split; [done|].
    apply Hl. eauto.
  - intros [Hin Hno]. split; [done|]. intros (_ & ps & Hp & e' & -> & [[i Hr] Hs]%Hl).
    by apply (Hno i e').
Qed.

(** The tips of a store at a snapshot, by the outcome. *)
Lemma store_snapshot_at_cases iter inner tree subtree main_entries :
  mem_inv inner -> proper_tree (entries inner) tree -> acyclic (entries inner) tree ->
  (forall s, iter s ≡ₚ elements s) ->
  match store_snapshot_at iter inner tree subtree main_entries with
  | None => False
  | Some (inner', r) =>
      mem_inv inner' /\ entries inner' = entries inner
      /\ match r with
         | Ok ids => forall id, id ∈ ids <-> scope_tip (entries inner) tree subtree main_entries id
         | Err _ => exists t, t ∈ main_entries
             /\ forall e, entries inner !! t = Some e -> in_tree e tree = false
         end
  end.
Proof.
  intros Hinv Hp Hac Hiter. unfold store_snapshot_at.
  destruct (is_nil main_entries) eqn:En.
  { destruct main_entries; [|done]. split; [done|]. split; [done|]. unfold scope_tip, reached. set_solver. }
  destruct (traversal_snapshot_inv inner tree Hinv) as (Hinv1 & He1 & Ht1).
  destruct (traversal_snapshot inner tree) as [inner1 current]. simpl in *. specialize (Ht1 Hp).
  case_decide as Heq.
  - assert (forall id, scope_tip (entries inner) tree subtree main_entries id
      <-> store_tip (entries inner1) tree subtree id) as Hscope.
    { intros id. rewrite He1. apply scope_tip_current; [done|]. intros t. rewrite Heq, Hiter.
      rewrite elem_of_elements. apply Ht1. }
    destruct (cached_store_tips inner1 tree subtree) as [s|] eqn:Es.
    + split; [done|]. split; [done|]. intros id. rewrite Hscope.
      eapply cached_store_tips_exact; [done| |done]. by rewrite He1.
    + split; [apply cache_store_tips_inv; [done|intros id; apply elem_of_compute_store_tips]|].
      split; [done|]. intros id. rewrite Hscope. apply elem_of_compute_store_tips.
  - pose proof (check_tips_spec inner1 tree main_entries) as Hc.
    destruct (check_tips inner1 tree main_entries) as [[]|err] eqn:Ec.
    + destruct (tree_from_checked_tips inner1 tree main_entries) as (acc & -> & _ & Hacc);
        [apply mi_ids, Hinv1|done|]. simpl. rewrite He1 in Hacc.
      assert (forall e, e ∈ sort_entries_by_height acc <-> e ∈ acc) as Hsort
        by (intros e; apply elem_of_sort_by).
      setoid_rewrite <- Hsort in Hacc.
      assert (Hs := fun id => elem_of_scope (entries inner) tree subtree main_entries
        (sort_entries_by_height acc) id (mi_ids _ Hinv) Hacc).
      cbn zeta in Hs. destruct (filter _ (sort_entries_by_height acc)) eqn:El; simpl is_nil; cbn iota.
      * split; [done|]. split; [done|]. intros id. rewrite <- Hs. set_solver.
      * by split.
    + unfold get_tree_from_tips. rewrite Ec, En. simpl. split; [done|]. split; [done|].
      destruct Hc as (t & Ht & H). exists t. split; [done|]. rewrite He1 in H. naive_solver.
Qed.

(** [store_snapshot_at] terminates, keeps the backend's invariant and
    entries, and, at main entries that belong to the tree, returns exactly the
    store tips among the entries those main entries reach.  The answer does not
    depend on which path computes it: the cached tips when the main entries are
    the current tips in the hash set's order, or the walk.  A main entry that is
    missing or foreign is reported. *)
Theorem store_snapshot_at_spec iter inner tree subtree main_entries :
  mem_inv inner -> proper_tree (entries inner) tree -> acyclic (entries inner) tree ->
  (forall s, iter s ≡ₚ elements s) ->
  match store_snapshot_at iter inner tree subtree main_entries with
  | None => False
  | Some (inner', r) =>
      mem_inv inner' /\ entries inner' = entries inner
      /\ match r with
         | Ok ids => forall id, id ∈ ids <-> scope_tip (entries inner) tree subtree main_entries id
         | Err _ => exists t, t ∈ main_entries
             /\ forall e, entries inner !! t = Some e -> in_tree e tree = false
         end
  end.
Proof. apply store_snapshot_at_cases. Qed.

(** ** Reading at the current tips *)

#[local] Instance entry_leb_trans height : Transitive (fun a b => entry_leb height a b = true).
Proof.
  intros a b c. apply (transitivity (R := fun a b => cmp_leb (cmp_pair Z.compare ID_cmp) a b = true)).
Qed.

Lemma sort_entries_strongly height l :
  StronglySorted (fun a b => entry_leb height a b = true) (sort_by (entry_leb height) l).
Proof. apply (Sorted_StronglySorted _), sort_entries_sorted. Qed.

(** In a list sorted by height a lower entry comes first. *)
Lemma lower_before height l l1 e l2 e' :
  sort_by (entry_leb height) l = l1 ++ e :: l2 -> e' ∈ l -> height e' < height e -> e' ∈ l1.
Proof.
  intros Hl He' Hh. pose proof (sort_entries_strongly height l) as Hs. rewrite Hl in Hs.
  rewrite <- (elem_of_sort_by (entry_leb height)), Hl in He'.
  apply elem_of_app in He' as [?|Hin]; [done|]. exfalso.
  apply elem_of_cons in Hin as [->|Hin]; [lia|].
  apply StronglySorted_app in Hs as (_ & _ & Hs). apply StronglySorted_inv in Hs as [_ Hs].
  rewrite Forall_forall in Hs. specialize (Hs e' Hin). unfold entry_leb, cmp_leb, cmp_pair in Hs. simpl in Hs.
  assert (Z.compare (height e) (height e') = Gt) as Hc by (apply Z.compare_gt_iff; lia).
  by rewrite Hc in Hs.
Qed.

(** Two lists of the same stored entries sort to the same list. *)
Lemma sorted_entries_unique es height (l1 l2 : list Entry) :
  ids_ok es -> (forall e, e ∈ l1 -> exists id, es !! id = Some e) ->
  NoDup l1 -> NoDup l2 -> (forall e, e ∈ l1 <-> e ∈ l2) ->
  sort_by (entry_leb height) l1 = sort_by (entry_leb height) l2.
Proof.
  intros Hids Hin Hnd1 Hnd2 Hsame. set (R := fun a b => entry_leb height a b = true).
  assert (forall l, StronglySorted R (sort_by (entry_leb height) l)) as Hsorted.
  { intros l. apply (Sorted_StronglySorted R), sort_entries_sorted. }
  apply (StronglySorted_unique_strong R); [|done..|].
  - intros a b Ha Hb Hab Hba. rewrite elem_of_sort_by in Ha, Hb. apply Hsame in Hb.
    destruct (Hin a Ha) as [i Hi], (Hin b Hb) as [j Hj].
    assert ((height a, Entry_id a) = (height b, Entry_id b)) as Hid
      by (by apply (anti_symm (fun a b => cmp_leb (cmp_pair Z.compare ID_cmp) a b = true))).
    apply (f_equal snd) in Hid. cbn [snd] in Hid.
    rewrite (Hids _ _ Hi), (Hids _ _ Hj) in Hid. subst. congruence.
  - rewrite !sort_by_perm. by apply NoDup_Permutation.
Qed.

Lemma entry_values_NoDup es : ids_ok es -> NoDup (entry_values es).
Proof.
  intros Hids. unfold entry_values. apply NoDup_fmap_2_strong; [|apply NoDup_map_to_list].
  intros [i e] [j e'] Hi%elem_of_map_to_list Hj%elem_of_map_to_list Heq. simpl in *. subst e'.
  f_equal. by rewrite <- (Hids _ _ Hi), <- (Hids _ _ Hj).
Qed.

(** A walk from all tips of an acyclic group finds the whole group. *)
Lemma walk_from_tips member parents_of es height (queue : list ID) (acc : list Entry) :
  ids_ok es -> acyclic_group member parents_of es -> (forall t, t ∈ queue <-> tip member parents_of es t) ->
  NoDup acc ->
  (forall e, e ∈ acc <-> exists id, es !! id = Some e /\ member e = true
     /\ exists q, q ∈ queue /\ rtc (edge member parents_of es) q id) ->
  sort_by (entry_leb height) acc
  = sort_by (entry_leb height) (filter (fun e => member e = true) (entry_values es)).
Proof.
  intros Hids Hac Hq Hnd Hacc. apply (sorted_entries_unique es); [done| |done| |].
  - intros e (id & He & _)%Hacc. eauto.
  - by apply NoDup_filter, entry_values_NoDup.
  - intros e. rewrite Hacc, list_elem_of_filter, elem_of_entry_values. split; [naive_solver|].
    intros (Hm & id & He). exists id. split; [done|]. split; [done|].
    destruct (tips_cover member parents_of es id e) as (t & Ht & Hr); [done..|].
    exists t. by rewrite Hq.
Qed.

(** C22: a snapshot loses nothing: reading a tree at its current snapshot gives
    the whole tree, and reading a store at its current snapshot gives the whole
    store, as the same sorted lists that [get_tree] and [get_store] return. *)
Theorem snapshot_reads_everything inner tree subtree :
  mem_inv inner -> proper_tree (entries inner) tree ->
  acyclic (entries inner) tree -> acyclic_store (entries inner) tree subtree ->
  get_tree_from_tips inner tree (tips (mem_snapshot inner tree).2) = Some (Ok (get_tree inner tree))
  /\ store_at inner tree subtree (tips (mem_store_snapshot inner tree subtree).2)
     = Some (Ok (get_store inner tree subtree)).
Proof.
  intros Hinv Hp Hac Hacs. pose proof (mi_ids _ Hinv) as Hids. split.
  - destruct (traversal_snapshot_inv inner tree Hinv) as (_ & _ & Ht). specialize (Ht Hp).
    assert (forall t, t ∈ tips (mem_snapshot inner tree).2 <-> tree_tip (entries inner) tree t) as Hq.
    { intros t. unfold mem_snapshot. simpl. by rewrite elem_of_sort_dedup, elem_of_elements. }
    destruct (tree_from_checked_tips inner tree (tips (mem_snapshot inner tree).2))
      as (acc & -> & Hnd & Hacc); [done| |].
    { apply check_tips_ok. intros t [(e & He & Hm) _]%Hq. eauto. }
    do 2 f_equal. by apply (walk_from_tips _ Entry_parents _ _ (tips (mem_snapshot inner tree).2)).
  - destruct (traversal_store_snapshot_inv inner tree subtree Hinv) as (_ & _ & Ht). specialize (Ht Hp).
    assert (forall t, t ∈ tips (mem_store_snapshot inner tree subtree).2
      <-> store_tip (entries inner) tree subtree t) as Hq.
    { intros t. unfold mem_store_snapshot. simpl. by rewrite elem_of_sort_dedup, elem_of_elements. }
    destruct (store_at_walk inner tree subtree (tips (mem_store_snapshot inner tree subtree).2))
      as (acc & -> & Hnd & Hacc); [done|].
    do 2 f_equal. by apply (walk_from_tips _ (subtree_parents_or_nil subtree) _ _
      (tips (mem_store_snapshot inner tree subtree).2)).
Qed.
End store_tips.

(** ** Runs on the concrete tree *)

#[local] Existing Instance nat_cid.
#[local] Existing Instance byte_crypto.
#[local] Existing Instance demo_codec.

Lemma demo_acyclic : acyclic (entries demo_mem) (demo_id 1).
Proof.
  apply (heights_acyclic Entry_height). intros x y e e' (e0 & He0 & _ & Hy) He He'. rewrite He in He0. injection He0 as <-.
    apply demo_lookup in He as [[_ ->]|[[_ ->]|[_ ->]]]; simpl in Hy; [set_solver| |];
      apply list_elem_of_singleton in Hy as ->;
      apply demo_lookup in He' as [[_ ->]|[[? _]|[? _]]]; done.
Qed.

Lemma demo_acyclic_store : acyclic_store (entries demo_mem) (demo_id 1) "data".
Proof.
  apply (heights_acyclic Entry_height). intros x y e e' (e0 & He0 & _ & Hy) _ _.
    apply demo_lookup in He0 as [[_ ->]|[[_ ->]|[_ ->]]]; simpl in Hy; set_solver.
Qed.

Lemma store_snapshot_at_spec_witness :
  exists inner', store_snapshot_at elements demo_mem (demo_id 1) "data" [demo_id 2]
    = Some (inner', Ok {[ demo_id 2 ]})
    /\ scope_tip (entries demo_mem) (demo_id 1) "data" [demo_id 2] (demo_id 2).
Proof.
  pose proof (store_snapshot_at_spec elements demo_mem (demo_id 1) "data" [demo_id 2]
    demo_mem_inv demo_proper demo_acyclic (fun s => Permutation_refl _)) as H.
  assert (store_snapshot_at elements demo_mem (demo_id 1) "data" [demo_id 2]
    = Some ((traversal_snapshot demo_mem (demo_id 1)).1, Ok {[ demo_id 2 ]})) as E by reflexivity.
  rewrite E in H. destruct H as (_ & _ & H). eexists. split; [exact E|]. apply H. set_solver.
Defined.

Lemma snapshot_reads_everything_witness :
  tips (mem_snapshot demo_mem (demo_id 1)).2 = [demo_id 2; demo_id 3]
  /\ get_tree_from_tips demo_mem (demo_id 1) [demo_id 2; demo_id 3]
     = Some (Ok (get_tree demo_mem (demo_id 1))).
Proof.
  assert (tips (mem_snapshot demo_mem (demo_id 1)).2 = [demo_id 2; demo_id 3]) as E by reflexivity.
  split; [exact E|].
  destruct (snapshot_reads_everything demo_mem (demo_id 1) "data" demo_mem_inv demo_proper
    demo_acyclic demo_acyclic_store) as [H _].
  rewrite E in H. exact H.
Defined.
