(* ===== verification/MergeBase.v ===== *)
(** * Merge bases and paths (in_memory/traversal.rs)

    The merge base is a common dominator of the entries, of greatest height;
    the path from it holds what a store's state at the entries adds to its
    state at the base. *)

From S2P Require Import Prelude.
From S2P Require Import Worklist.
From S2P Require Import Path.
From S2P Require Import Position.
From S2P Require Import Ids.
From S2P Require Import Doc.
From S2P Require Import DocPath.
From S2P Require Import Errors.
From S2P Require Import Crypto.
From S2P Require Import Permission.
From S2P Require Import AuthTypes.
From S2P Require Import Entry.
From S2P Require Import Backend.
From S2P Require Import Traversal.
From S2P Require Import StoreTips.

Section merge_base.
Context `{CD : CodecSpec}.

(** One step to a store parent, of whatever tree the entry is. *)
Definition up (es : gmap ID Entry) (subtree : string) (x y : ID) : Prop :=
  exists e, es !! x = Some e /\ y ∈ subtree_parents_or_nil subtree e.

(** A present entry without store parents ends a path. *)
Definition is_store_root (es : gmap ID Entry) (subtree : string) (x : ID) : Prop :=
  exists e, es !! x = Some e /\ subtree_parents_or_nil subtree e = [].

(** A step that does not leave [c]. *)
Definition avoiding (c : ID) (R : ID -> ID -> Prop) (x y : ID) : Prop := x <> c /\ R x y.

(** [c] is on every path from [x] to a root. *)
Definition dominates (es : gmap ID Entry) (subtree : string) (c x : ID) : Prop :=
  forall r, rtc (avoiding c (up es subtree)) x r -> is_store_root es subtree r -> r = c.

Lemma rtc_iff {A} (R1 R2 : A -> A -> Prop) x y :
  (forall a b, R1 a b <-> R2 a b) -> rtc R1 x y <-> rtc R2 x y.
Proof. intros H. split; (induction 1; [apply rtc_refl|eapply rtc_l; [by apply H|done]]). Qed.

Lemma collect_ancestors_spec inner subtree entry :
  exists s, collect_ancestors inner subtree entry = Some (Ok s)
    /\ forall x, x ∈ s <-> rtc (up (entries inner) subtree) entry x.
Proof.
  unfold collect_ancestors.
  destruct (traversal_fuel_enough (ancestor_visit inner subtree) Fifo (entries inner) [entry] ∅ [])
    as [r Hr].
  { intros x. unfold next, ancestor_visit, storage_get. destruct (entries inner !! x); simpl; [|lia].
    apply subtree_parents_refs. }
  simpl length in Hr. rewrite Hr. destruct r as [[seen acc]|e].
  - exists seen. split; [done|]. apply worklist_ok in Hr as (Hseen & _). intros x. rewrite Hseen.
    assert (forall a b, wstep (ancestor_visit inner subtree) ∅ a b <-> up (entries inner) subtree a b) as Hs.
    { intros a b. unfold wstep, up, next, ancestor_visit, storage_get.
      destruct (entries inner !! a) as [e|]; simpl; [|set_solver]. set_solver. }
    unfold wreach. setoid_rewrite list_elem_of_singleton. split.
    + intros [?|(_ & _ & q & -> & Hq)]; [set_solver|]. by apply (rtc_iff _ _ _ _ Hs).
    + intros Hq. right. split; [set_solver|]. split.
      * unfold marks, ancestor_visit. destruct (storage_get inner x); eauto.
      * exists entry. split; [done|]. by apply (rtc_iff _ _ _ _ Hs).
  - apply worklist_err in Hr as (x & _ & _ & Hx). unfold ancestor_visit in Hx.
    by destruct (storage_get inner x).
Qed.

Lemma bypass_visit_cases inner subtree x :
  match bypass_visit inner subtree x with
  | Err _ => is_store_root (entries inner) subtree x
  | Ok o => exists ps, o = Some ([], ps) /\ (forall y, y ∈ ps <-> up (entries inner) subtree x y)
      /\ ~ is_store_root (entries inner) subtree x
  end.
Proof.
  unfold bypass_visit, storage_get, is_store_root, up, subtree_parents_or_nil.
  destruct (entries inner !! x) as [e|] eqn:E; simpl.
  - destruct (subtree_parents e subtree) as [[|p ps]|err] eqn:Ep.
    + exists e. by rewrite Ep.
    + eexists. split; [done|]. split.
      * intros y. split; [intros Hy; exists e; by rewrite Ep|]. intros (e' & [= <-] & Hy). by rewrite Ep in Hy.
      * intros (e' & [= <-] & Hy). by rewrite Ep in Hy.
    + exists e. by rewrite Ep.
  - eexists. split; [done|]. split; [set_solver|]. by intros (e & ? & _).
Qed.

Lemma all_paths_pass_through_spec inner subtree entry candidate :
  exists b, all_paths_pass_through inner subtree entry candidate = Some b
    /\ (b = true <-> dominates (entries inner) subtree candidate entry).
Proof.
  unfold all_paths_pass_through. case_decide as Heq.
  { subst. exists true. split; [done|]. split; [|done]. intros _ r Hr _.
    inversion Hr as [|? y ? [? _] _]; by subst. }
  destruct (traversal_fuel_enough (bypass_visit inner subtree) Fifo (entries inner) [entry]
    {[ candidate ]} []) as [r Hr].
  { intros x. unfold next, bypass_visit, storage_get.
    destruct (entries inner !! x) as [e|]; simpl; [|lia].
    pose proof (subtree_parents_refs e subtree) as H. unfold subtree_parents_or_nil in H.
    destruct (subtree_parents e subtree) as [[|? ?]|]; simpl in *; lia. }
  simpl length in Hr. rewrite Hr. simpl. eexists; split; [done|].
  assert (forall a b, wstep (bypass_visit inner subtree) {[ candidate ]} a b
    <-> avoiding candidate (up (entries inner) subtree) a b) as Hs.
  { intros a b. unfold wstep, avoiding, next. pose proof (bypass_visit_cases inner subtree a) as H.
    destruct (bypass_visit inner subtree a).
    - destruct H as (ps & -> & Hps & _). rewrite Hps. set_solver.
    - destruct H as (e0 & He & Hn). split; [set_solver|]. intros [_ (e' & He' & Hb)].
      rewrite He in He'. injection He' as <-. rewrite Hn in Hb. set_solver. }
  destruct r as [[seen acc]|u]; simpl.
  - apply worklist_ok in Hr as (_ & Hno & _). split; [|done]. intros _ r Hreach Hroot.
    destruct (decide (r = candidate)) as [|Hne]; [done|]. exfalso.
    pose proof (bypass_visit_cases inner subtree r) as H.
    destruct (bypass_visit inner subtree r) as [o|u] eqn:Ev; [by destruct H as (ps & _ & _ & H)|].
    apply (Hno r u); [set_solver| |done]. exists entry. split; [by left|].
    by apply (rtc_iff _ _ _ _ Hs).
  - apply worklist_err in Hr as (x & Hx & (q & Hq & Hreach) & Hv). split; [done|]. intros Hdom.
    apply list_elem_of_singleton in Hq as ->. exfalso. apply Hx, elem_of_singleton.
    apply (Hdom x); [by apply (rtc_iff _ _ _ _ Hs)|].
    pose proof (bypass_visit_cases inner subtree x) as H. by rewrite Hv in H.
Qed.

Lemma all_entries_pass_spec inner subtree candidate ids :
  exists b, all_entries_pass inner subtree candidate ids = Some b
    /\ (b = true <-> forall x, x ∈ ids -> dominates (entries inner) subtree candidate x).
Proof.
  induction ids as [|id ids (b & Hb & IH)]; simpl; [exists true; split; [done|set_solver]|].
  destruct (all_paths_pass_through_spec inner subtree id candidate) as (b1 & -> & Hb1). simpl.
  destruct b1.
  - exists b. split; [done|]. rewrite IH. split.
    + intros H x [->|Hx]%elem_of_cons; [by apply Hb1|auto].
    + intros H x Hx. apply H. by right.
  - exists false. split; [done|]. split; [done|]. intros H. apply Hb1, H. by left.
Qed.

Lemma first_dominator_spec inner subtree ids candidates :
  let ok c := forall x, x ∈ ids -> dominates (entries inner) subtree c x in
  match first_dominator inner subtree ids candidates with
  | None => False
  | Some None => forall c, c ∈ candidates -> ~ ok c
  | Some (Some b) => exists l1 l2, candidates = l1 ++ b :: l2 /\ ok b /\ forall c, c ∈ l1 -> ~ ok c
  end.
Proof.
  cbn zeta. induction candidates as [|c candidates IH]; simpl; [set_solver|].
  destruct (all_entries_pass_spec inner subtree c ids) as (b & -> & Hb). simpl. destruct b.
  - exists [], candidates. split; [done|]. split; [by apply Hb|set_solver].
  - assert (~ forall x, x ∈ ids -> dominates (entries inner) subtree c x) as Hc by (by rewrite <- Hb).
    destruct (first_dominator inner subtree ids candidates) as [[d|]|]; [| |done].
    + destruct IH as (l1 & l2 & -> & Hd & Hl). exists (c :: l1), l2. split; [done|].
      split; [done|]. intros c' [->|?]%elem_of_cons; auto.
    + intros c' [->|?]%elem_of_cons; auto.
Qed.

(** A common ancestor of the entries that is on every path from each of them
    to a root. *)
Definition common_dominator (es : gmap ID Entry) (subtree : string) (ids : list ID) (c : ID) : Prop :=
  forall x, x ∈ ids -> rtc (up es subtree) x c /\ dominates es subtree c x.

Lemma collect_ancestor_sets inner subtree ids :
  exists rs sets, collect_all (collect_ancestors inner subtree) ids = Some rs
    /\ result_collect rs = Ok sets
    /\ Forall2 (fun id s => forall x, x ∈ s <-> rtc (up (entries inner) subtree) id x) ids sets.
Proof.
  induction ids as [|id ids (rs & sets & Hc & Hr & Hf)]; cbn [collect_all].
  { exists [], []. split; [done|]. split; [done|constructor]. }
  destruct (collect_ancestors_spec inner subtree id) as (s & -> & Hs). cbn [mbind option_bind].
  rewrite Hc. exists (Ok s :: rs), (s :: sets). split; [done|]. split; [|by constructor].
  simpl. by rewrite Hr.
Qed.

Lemma elem_of_intersect_all sets x :
  sets <> [] -> x ∈ intersect_all sets <-> forall s, s ∈ sets -> x ∈ s.
Proof.
  destruct sets as [|s0 sets]; [done|]. intros _. unfold intersect_all. revert s0.
  induction sets as [|s sets IH]; intros s0; cbn [foldl].
  { split; [by intros Hx s ->%list_elem_of_singleton|]. intros H. apply H. by left. }
  rewrite IH. split.
  - intros H s' [->|[->|Hs]%elem_of_cons]%elem_of_cons.
    + specialize (H (s0 ∩ s)). set_solver.
    + specialize (H (s0 ∩ s)). set_solver.
    + apply H. by right.
  - intros H s' [->|Hs]%elem_of_cons; [|apply H; by right; right].
    apply elem_of_intersection. split; apply H; [by left|by right; left].
Qed.

Lemma Forall_cons_elem {A} (P : A -> Prop) a l :
  (forall x, x ∈ a :: l -> P x) <-> P a /\ forall x, x ∈ l -> P x.
Proof. rewrite <- !Forall_forall. apply Forall_cons. Qed.

Lemma by_height_desc_max inner subtree l1 b l2 c :
  Sorted (fun a b => by_height_desc inner subtree a b = true) (l1 ++ b :: l2) -> c ∈ l2 ->
  get_subtree_height inner subtree c <= get_subtree_height inner subtree b.
Proof.
  intros Hs Hc. apply Sorted_StronglySorted in Hs.
  - induction l1 as [|a l1 IH]; simpl in Hs; apply StronglySorted_inv in Hs as [Hs Hf]; [|auto].
    rewrite Forall_forall in Hf. specialize (Hf c Hc). unfold by_height_desc in Hf. lia.
  - intros x y z. unfold by_height_desc. lia.
Qed.

Lemma check_merge_entries_spec inner tree ids :
  match check_merge_entries inner tree ids with
  | Ok _ => forall x, x ∈ ids -> exists e, entries inner !! x = Some e /\ in_tree e tree = true
  | Err _ => exists x, x ∈ ids
      /\ forall e, entries inner !! x = Some e -> is_ok (Entry_validate e) && in_tree e tree = false
  end.
Proof.
  induction ids as [|x ids IH]; simpl; [set_solver|]. unfold storage_get.
  destruct (entries inner !! x) as [e|] eqn:E; simpl; [|exists x; set_solver].
  destruct (Entry_validate e) as [[]|err] eqn:Ev; simpl.
  - destruct (in_tree e tree) eqn:Et; simpl.
    + destruct (check_merge_entries inner tree ids).
      * intros y [->|Hy]%elem_of_cons; eauto.
      * destruct IH as (y & Hy & H). exists y. split; [by right|done].
    + exists x. split; [by left|]. intros e' [= <-]%(eq_trans (eq_sym E)). by rewrite Et, andb_false_r.
  - exists x. split; [by left|]. intros e' [= <-]%(eq_trans (eq_sym E)). by rewrite Ev.
Qed.

(** The search, by its outcome. *)
Lemma find_merge_base_cases iter inner tree subtree ids :
  (forall s, iter s ≡ₚ elements s) ->
  match find_merge_base iter inner tree subtree ids with
  | None => False
  | Some (Ok b) =>
      ids = [b]
      \/ (common_dominator (entries inner) subtree ids b
          /\ forall c, common_dominator (entries inner) subtree ids c ->
               get_subtree_height inner subtree c <= get_subtree_height inner subtree b)
  | Some (Err err) =>
      (ids = [] /\ err = EBackend (EmptyEntryList "find_merge_base"))
      \/ (exists x, x ∈ ids /\ forall e, entries inner !! x = Some e ->
           is_ok (Entry_validate e) && in_tree e tree = false)
      \/ (err = EBackend (NoCommonAncestor ids)
          /\ forall c, ~ common_dominator (entries inner) subtree ids c)
  end.
Proof.
  intros Hiter. unfold find_merge_base.
  destruct ids as [|i0 [|i1 ids']] eqn:Eids; [by auto..|]. rewrite <- Eids.
  assert (ids <> []) as Hne by (by rewrite Eids). clear Eids.
  pose proof (check_merge_entries_spec inner tree ids) as Hcheck.
  destruct (check_merge_entries inner tree ids) as [u|err]; [|by auto].
  destruct (collect_ancestor_sets inner subtree ids) as (rs & sets & -> & Hsets & Hf).
  cbn [mbind option_bind]. rewrite Hsets.
  assert (forall c, c ∈ intersect_all sets
    <-> forall x, x ∈ ids -> rtc (up (entries inner) subtree) x c) as Hcommon.
  { intros c. rewrite elem_of_intersect_all by (intros ->; by inversion Hf; subst).
    clear -Hf. induction Hf as [|x s ids sets Hx Hf IH]; [by split; intros _ ? ?%elem_of_nil|].
    rewrite (Forall_cons_elem (fun s => c ∈ s)), Hx, IH.
    by rewrite (Forall_cons_elem (fun x => rtc (up (entries inner) subtree) x c)). }
  case_decide as Hempty.
  { right; right. split; [done|]. intros c Hc. assert (c ∈ intersect_all sets) as Hin; [|set_solver].
    apply Hcommon. intros x Hx. by apply Hc. }
  pose proof (first_dominator_spec inner subtree ids
    (sort_by (by_height_desc inner subtree) (iter (intersect_all sets)))) as Hfd. cbn zeta in Hfd.
  assert (forall c, c ∈ sort_by (by_height_desc inner subtree) (iter (intersect_all sets))
    <-> c ∈ intersect_all sets) as Hcand by (intros c; by rewrite elem_of_sort_by, Hiter, elem_of_elements).
  assert (forall c, common_dominator (entries inner) subtree ids c <-> c ∈ intersect_all sets
    /\ forall x, x ∈ ids -> dominates (entries inner) subtree c x) as Hcd.
  { intros c. rewrite Hcommon. unfold common_dominator. naive_solver. }
  destruct (first_dominator inner subtree ids _) as [[b|]|]; cbn [ok_or]; [| |done].
  - right. destruct Hfd as (l1 & l2 & Hl & Hb & Hl1). split.
    + apply Hcd. split; [|done]. apply Hcand. rewrite Hl. set_solver.
    + intros c [Hc Hdom]%Hcd. apply Hcand in Hc. rewrite Hl in Hc.
      apply elem_of_app in Hc as [Hc|[->|Hc]%elem_of_cons]; [by destruct (Hl1 c Hc)|lia|].
      apply (by_height_desc_max inner subtree l1 b l2); [|done]. rewrite <- Hl.
      apply sort_by_sorted. unfold by_height_desc. lia.
  - right; right. split; [done|]. intros c [Hc Hdom]%Hcd. apply (Hfd c); [by apply Hcand|done].
Qed.

(** An entry that can be merged, and the error for one that cannot. *)
Definition usable (inner : InMemoryInner) (tree x : ID) : Prop :=
  exists e, entries inner !! x = Some e /\ Entry_validate e = Ok tt /\ in_tree e tree = true.

Definition unusable_error (inner : InMemoryInner) (tree x : ID) (err : Error) : Prop :=
  match entries inner !! x with
  | None => err = EBackend (EntryNotFound x)
  | Some e =>
      if is_ok (Entry_validate e) then in_tree e tree = false /\ err = EBackend (EntryNotInTree x tree)
      else err = EBackend (BackendEntryValidationFailed x)
  end.

Definition first_unusable (inner : InMemoryInner) (tree : ID) (ids : list ID) (err : Error) : Prop :=
  exists l1 x l2, ids = l1 ++ x :: l2 /\ Forall (usable inner tree) l1 /\ unusable_error inner tree x err.

Lemma check_merge_entries_exact inner tree ids :
  match check_merge_entries inner tree ids with
  | Ok _ => Forall (usable inner tree) ids
  | Err err => first_unusable inner tree ids err
  end.
Proof.
  induction ids as [|x ids IH]; simpl; [constructor|]. unfold storage_get.
  assert (forall err, unusable_error inner tree x err -> first_unusable inner tree (x :: ids) err) as Hx.
  { intros err H. exists [], x, ids. split; [done|]. by split; [constructor|]. }
  unfold unusable_error in Hx. destruct (entries inner !! x) as [e|] eqn:E; simpl; [|by apply Hx].
  destruct (Entry_validate e) as [[]|err] eqn:Ev; simpl in *; [|by apply Hx].
  destruct (in_tree e tree) eqn:Et; simpl; [|by apply Hx].
  assert (usable inner tree x) as Hu by (by exists e).
  destruct (check_merge_entries inner tree ids) as [[]|err]; [by constructor|].
  destruct IH as (l1 & y & l2 & -> & H1 & H2). exists (x :: l1), y, l2. split; [done|]. by split; [constructor|].
Qed.

(** C20: [find_merge_base] terminates.  An empty list is an error, and a single
    entry is its own merge base, unchecked.  For two or more entries the first
    one that is missing, invalid or of another tree is reported as such; when
    all are usable, the result is a common ancestor that lies on every path
    from each of them to a root, such that no common dominator is higher, or
    the error that there is none, and then there is none.  Assumed: iterating a
    set yields its elements in some order. *)
Theorem find_merge_base_spec iter inner tree subtree ids :
  (forall s, iter s ≡ₚ elements s) ->
  match ids with
  | [] => find_merge_base iter inner tree subtree ids = Some (Err (EBackend (EmptyEntryList "find_merge_base")))
  | [b] => find_merge_base iter inner tree subtree ids = Some (Ok b)
  | _ => exists r, find_merge_base iter inner tree subtree ids = Some r
      /\ ((exists err, r = Err err /\ first_unusable inner tree ids err)
          \/ Forall (usable inner tree) ids
             /\ match r with
                | Ok b => common_dominator (entries inner) subtree ids b
                    /\ forall c, common_dominator (entries inner) subtree ids c ->
                         get_subtree_height inner subtree c <= get_subtree_height inner subtree b
                | Err err => err = EBackend (NoCommonAncestor ids)
                    /\ forall c, ~ common_dominator (entries inner) subtree ids c
                end)
  end.
Proof.
  intros Hiter. destruct ids as [|i0 [|i1 ids']]; [done..|]. set (ids := i0 :: i1 :: ids').
  pose proof (find_merge_base_cases iter inner tree subtree ids Hiter) as H.
  pose proof (check_merge_entries_exact inner tree ids) as Hc.
  destruct (check_merge_entries inner tree ids) as [u|err] eqn:E.
  - destruct (find_merge_base iter inner tree subtree ids) as [r|]; [|done]. exists r. split; [done|]. right.
    split; [done|]. destruct r as [b|err]; destruct H as [H|H]; [done..|by destruct H|].
    destruct H as [(x & Hx & Hn)|H]; [|done]. rewrite Forall_forall in Hc.
    destruct (Hc x Hx) as (e & He & Hv & Ht). specialize (Hn e He). by rewrite Hv, Ht in Hn.
  - exists (Err err). unfold find_merge_base. rewrite E. split; [done|]. left. by exists err.
Qed.

(** ** Paths from a base *)

Lemma sorted_store_parents_spec inner tree x subtree e :
  entries inner !! x = Some e ->
  exists ps, get_sorted_store_parents inner tree x subtree = Ok ps
    /\ (forall y, y ∈ ps <-> store_edge (entries inner) tree subtree x y)
    /\ (length ps <= parent_refs e)%nat.
Proof.
  intros E. unfold get_sorted_store_parents. rewrite E. cbn [ok_or].
  assert (forall y, store_edge (entries inner) tree subtree x y
    <-> in_store e tree subtree = true /\ y ∈ subtree_parents_or_nil subtree e) as Hedge.
  { intros y. unfold store_edge, edge. rewrite E. naive_solver. }
  setoid_rewrite Hedge. clear Hedge. pose proof (subtree_parents_refs e subtree) as Hlen.
  unfold subtree_parents_or_nil in *. simpl.
  replace (negb (in_tree e tree) || negb (in_subtree e subtree)) with (negb (in_store e tree subtree))
    by apply negb_andb.
  destruct (in_store e tree subtree); cbn [negb]; [|exists []; split; [done|]; split; [|simpl; lia];
    intros y; split; [by intros ?%elem_of_nil|by intros [? _]]].
  destruct (subtree_parents e subtree) as [ps|err] eqn:Ep.
  - eexists; split; [done|]. split; [intros y; rewrite elem_of_sort_by; naive_solver|].
    by rewrite (Permutation_length (sort_by_perm _ _)).
  - exists []. split; [done|]. split; [set_solver|simpl; lia].
Qed.

Lemma path_visit_cases inner tree subtree from x :
  match path_visit inner tree subtree from x with
  | Err err => entries inner !! x = None /\ err = EBackend (EntryNotFound x)
  | Ok o => exists ps, o = Some (if decide (x = from) then [] else [x], ps)
      /\ (forall y, y ∈ ps <-> avoiding from (store_edge (entries inner) tree subtree) x y)
      /\ (length ps <= match entries inner !! x with Some e => parent_refs e | None => 0 end)%nat
  end.
Proof.
  unfold path_visit, avoiding. case_decide as Hx.
  { exists []. split; [done|]. split; [set_solver|simpl; lia]. }
  destruct (entries inner !! x) as [e|] eqn:E.
  - destruct (sorted_store_parents_spec inner tree x subtree e E) as (ps & -> & Hps & Hlen). simpl.
    exists ps. split; [done|]. split; [|done]. intros y. rewrite Hps. tauto.
  - unfold get_sorted_store_parents. by rewrite E.
Qed.

(** The IDs a path search can meet. *)
Definition on_path (es : gmap ID Entry) (tree : ID) (subtree : string) (from : ID) (to_ids : list ID)
    (x : ID) : Prop :=
  x <> from /\ exists t, t ∈ to_ids /\ rtc (avoiding from (store_edge es tree subtree)) t x.

Lemma path_search inner tree subtree from to_ids :
  match get_path_from_to inner tree subtree from to_ids with
  | None => False
  | Some (Err err) => exists x, entries inner !! x = None /\ err = EBackend (EntryNotFound x)
      /\ on_path (entries inner) tree subtree from to_ids x
  | Some (Ok l) =>
      NoDup l /\ Sorted (fun a b => height_id_leb (entries inner) subtree a b = true) l
      /\ (forall x, x ∈ l <-> on_path (entries inner) tree subtree from to_ids x)
      /\ forall x, x ∈ l -> is_Some (entries inner !! x)
  end.
Proof.
  unfold get_path_from_to. destruct (is_nil to_ids) eqn:Enil.
  { destruct to_ids; [|done]. split; [constructor|]. split; [constructor|]. split; [|set_solver].
    unfold on_path. set_solver. }
  set (queue := filter _ to_ids). set (visit := path_visit inner tree subtree from).
  destruct (traversal_fuel_enough visit FifoPruned (entries inner) queue ∅ []) as [r Hr].
  { intros x. pose proof (path_visit_cases inner tree subtree from x) as H. fold visit in H.
    unfold next. destruct (visit x); [|simpl; lia]. by destruct H as (ps & -> & _ & Hlen). }
  fold queue. rewrite Hr. cbn [mbind option_bind].
  assert (forall a b, wstep visit ∅ a b
    <-> avoiding from (store_edge (entries inner) tree subtree) a b) as Hs.
  { intros a b. unfold wstep, next. pose proof (path_visit_cases inner tree subtree from a) as H.
    fold visit in H. destruct (visit a) as [o|err].
    - destruct H as (ps & -> & Hps & _). rewrite Hps. set_solver.
    - destruct H as [Hn _]. split; [set_solver|]. intros [_ (e & He & _)]. congruence. }
  assert (forall x, x <> from -> from_queue visit ∅ queue x
    <-> on_path (entries inner) tree subtree from to_ids x) as Hfq.
  { intros x Hx. unfold from_queue, on_path, queue. setoid_rewrite list_elem_of_filter.
    setoid_rewrite (rtc_iff _ _ _ _ Hs). split; [naive_solver|]. intros (_ & t & Ht & Hreach).
    exists t. split; [split; [|done]|done]. intros ->.
    inversion Hreach as [|? y ? [? _] _]; by subst. }
  destruct r as [[seen acc]|err]; cbn [result_bind snd].
  - apply worklist_ok in Hr as (_ & Hno & ord & Hnd & Hord & Hacc). rewrite app_nil_l in Hacc.
    assert (forall x, x ∈ acc <-> on_path (entries inner) tree subtree from to_ids x) as Hel.
    { intros x. rewrite Hacc, elem_of_concat. setoid_rewrite list_elem_of_fmap.
      setoid_rewrite Hord. unfold wreach, marks. split.
      - intros (l & Hl & y & -> & _ & (o & ps & Hm) & Hfrom).
        unfold out in Hl. rewrite Hm in Hl.
        pose proof (path_visit_cases inner tree subtree from y) as H. fold visit in H. rewrite Hm in H.
        destruct H as (ps' & [= -> ->] & _). case_decide; [set_solver|].
        apply list_elem_of_singleton in Hl as ->. by apply Hfq.
      - intros Hp. pose proof Hp as [Hne _]. apply Hfq in Hp; [|done].
        pose proof (path_visit_cases inner tree subtree from x) as H. fold visit in H.
        destruct (visit x) as [o|err] eqn:Ev; [|by destruct (Hno x err); [set_solver|..]].
        destruct H as (ps & -> & _). rewrite decide_False in Ev by done.
        exists [x]. split; [by left|]. exists x. split; [unfold out; by rewrite Ev|].
        split; [set_solver|]. split; [eauto|done]. }
    assert (forall x, x ∈ sort_by (height_id_leb (entries inner) subtree) (sort_dedup ID_cmp acc)
      <-> x ∈ acc) as Hsort by (intros x; rewrite elem_of_sort_by; apply elem_of_sort_dedup).
    split; [rewrite sort_by_perm; apply sort_dedup_NoDup, _|].
    split; [apply sort_by_sorted; intros a b; apply cmp_leb_total, _|].
    split; [intros x; by rewrite Hsort|].
    intros x [Hne Hp]%Hsort%Hel.
    pose proof (path_visit_cases inner tree subtree from x) as H. fold visit in H.
    destruct (entries inner !! x) as [e|] eqn:E; [by eexists|]. exfalso.
    apply (Hno x (EBackend (EntryNotFound x))); [set_solver|by apply Hfq|].
    unfold visit, path_visit, get_sorted_store_parents. by rewrite decide_False, E.
  - apply worklist_err in Hr as (x & _ & Hfrom & Hv).
    pose proof (path_visit_cases inner tree subtree from x) as H. fold visit in H. rewrite Hv in H.
    destruct H as [Hn ->]. exists x. split; [done|]. split; [done|]. apply Hfq; [|done].
    intros ->. unfold visit, path_visit in Hv. by rewrite decide_True in Hv.
Qed.

(** The store parents of a store's entries are present and in the store. *)
Definition store_closed (es : gmap ID Entry) (tree : ID) (subtree : string) : Prop :=
  forall x y, store_edge es tree subtree x y ->
    exists e, es !! y = Some e /\ in_store e tree subtree = true.

Section closed_store.
Context (es : gmap ID Entry) (tree : ID) (subtree : string).
Context (Hclosed : store_closed es tree subtree) (Hac : acyclic_store es tree subtree).

Definition stored (x : ID) : Prop := exists e, es !! x = Some e /\ in_store e tree subtree = true.

Lemma up_store_edge x y : stored x -> up es subtree x y <-> store_edge es tree subtree x y.
Proof.
  intros (e & He & Hs). unfold up, store_edge, edge. split; intros (e' & He' & H); exists e'.
  - split; [done|]. split; [congruence|done].
  - naive_solver.
Qed.

Lemma stored_rtc R x y :
  (forall a b, stored a -> R a b -> stored b) -> stored x -> rtc R x y -> stored y.
Proof. intros HR Hx H. induction H; eauto. Qed.

Lemma stored_up x y : stored x -> up es subtree x y -> stored y.
Proof. intros Hx Hxy. apply (Hclosed x), up_store_edge; done. Qed.

(** On a store's entries, steps that avoid [c] are the same in both relations. *)
Lemma avoiding_up_store c x y :
  stored x ->
  rtc (avoiding c (up es subtree)) x y <-> rtc (avoiding c (store_edge es tree subtree)) x y.
Proof.
  intros Hx. split; intros H; induction H as [|x z y [Hc Hxz] Hzy IH]; try apply rtc_refl.
  - eapply rtc_l; [split; [done|]; by apply up_store_edge|]. apply IH. by eapply stored_up.
  - eapply rtc_l; [split; [done|]; by apply up_store_edge|]. apply IH. by apply (Hclosed x).
Qed.

Lemma rank_up (rank : ID -> nat) x y :
  (forall a b, store_edge es tree subtree a b -> (rank b < rank a)%nat) ->
  stored x -> rtc (up es subtree) x y -> (rank y <= rank x)%nat /\ (x <> y -> (rank y < rank x)%nat).
Proof.
  intros Hr Hx H. induction H as [x|x z y Hxz Hzy IH]; [done|].
  assert (rank z < rank x)%nat by (by apply Hr, up_store_edge).
  destruct IH as [IH _]; [by eapply stored_up|]. lia.
Qed.

(** Every entry of the store leads to a root. *)
Lemma reaches_root x :
  stored x -> exists r, rtc (up es subtree) x r /\ is_store_root es subtree r.
Proof.
  destruct Hac as [rank Hrank]. remember (rank x) as n eqn:Hn. revert x Hn.
  induction n as [n IH] using lt_wf_ind; intros x -> Hx. destruct Hx as (e & He & Hs) eqn:Ex.
  destruct (subtree_parents_or_nil subtree e) as [|p ps] eqn:Ep.
  - exists x. split; [apply rtc_refl|]. by exists e.
  - assert (store_edge es tree subtree x p) as Hp.
    { exists e. split; [done|]. split; [done|]. rewrite Ep. by left. }
    destruct (IH (rank p)) with (x := p) as (r & Hr & Hroot); [by apply Hrank|done|by apply (Hclosed x)|].
    exists r. split; [|done]. eapply rtc_l; [|done]. apply up_store_edge; [by exists e|done].
Qed.

(** A path to an entry that is not below [c] avoids [c]. *)
Lemma rtc_not_below c x y :
  rtc (up es subtree) x y -> ~ rtc (up es subtree) c y -> rtc (avoiding c (up es subtree)) x y.
Proof.
  intros H Hc. induction H as [x|x z y Hxz Hzy IH]; [apply rtc_refl|].
  eapply rtc_l; [|by apply IH]. split; [|done]. intros ->. apply Hc. by eapply rtc_l.
Qed.

(** What a path from a common dominator holds. *)
Lemma dominated_path c to_ids x :
  (forall t, t ∈ to_ids -> stored t) -> common_dominator es subtree to_ids c ->
  on_path es tree subtree c to_ids x
  <-> (exists t, t ∈ to_ids /\ rtc (up es subtree) t x) /\ ~ rtc (up es subtree) c x.
Proof.
  intros Hto Hdom. split.
  - intros (Hne & t & Ht & Hr). pose proof (Hto t Ht) as Hst. apply avoiding_up_store in Hr; [|done].
    assert (rtc (up es subtree) t x) as Htx.
    { clear -Hr. induction Hr as [|a b d [_ Hab] _ IH]; [apply rtc_refl|by eapply rtc_l]. }
    assert (stored x) as Hsx by (eapply stored_rtc; [apply stored_up|exact Hst|exact Htx]).
    split; [by exists t|]. intros Hcx.
    destruct (Hdom t Ht) as [Htc Hd]. assert (stored c) as Hsc.
    { eapply stored_rtc; [apply stored_up|exact Hst|exact Htc]. }
    destruct Hac as [rank Hrank]. destruct (rank_up rank c x Hrank Hsc Hcx) as [_ Hlt].
    assert (~ rtc (up es subtree) x c) as Hxc.
    { intros H. destruct (rank_up rank x c Hrank Hsx H) as [Hle _]. specialize (Hlt (not_eq_sym Hne)). lia. }
    destruct (reaches_root x Hsx) as (r & Hxr & Hroot). apply Hxc. replace c with r; [done|].
    apply Hd; [|done]. etrans; [done|]. clear -Hxr Hxc.
    induction Hxr as [x|x z y Hxz Hzy IH]; [apply rtc_refl|].
    eapply rtc_l; [split; [|done]|apply IH].
    + intros ->. apply Hxc, rtc_refl.
    + intros H. apply Hxc. by eapply rtc_l.
  - intros ((t & Ht & Hr) & Hn). split; [intros ->; apply Hn, rtc_refl|]. exists t. split; [done|].
    apply avoiding_up_store; [by apply Hto|]. by apply rtc_not_below.
Qed.
End closed_store.

(** The path from a common dominator. *)
Lemma path_from_base inner tree subtree base to_ids :
  store_closed (entries inner) tree subtree -> acyclic_store (entries inner) tree subtree ->
  (forall t, t ∈ to_ids -> stored (entries inner) tree subtree t) ->
  common_dominator (entries inner) subtree to_ids base ->
  exists l, get_path_from_to inner tree subtree base to_ids = Some (Ok l)
    /\ NoDup l /\ Sorted (fun a b => height_id_leb (entries inner) subtree a b = true) l
    /\ forall x, x ∈ l <->
         (exists t, t ∈ to_ids /\ rtc (up (entries inner) subtree) t x)
         /\ ~ rtc (up (entries inner) subtree) base x.
Proof.
  intros Hclosed Hac Hto Hdom. pose proof (path_search inner tree subtree base to_ids) as H.
  destruct (get_path_from_to inner tree subtree base to_ids) as [[l|err]|]; [| |done].
  - destruct H as (Hnd & Hs & Hl & _). exists l. split; [done|]. split; [done|]. split; [done|].
    intros x. rewrite Hl. by apply dominated_path.
  - destruct H as (x & Hx & _ & _ & t & Ht & Hr). exfalso.
    assert (stored (entries inner) tree subtree x) as (e & He & _); [|congruence].
    eapply stored_rtc; [|by apply (Hto t)|exact Hr]. intros a b _ [_ Hab]. by apply (Hclosed a).
Qed.

(** C23: in an acyclic store whose history is complete, the path from a common
    dominator of the targets to the targets is computed without error and holds
    exactly the entries below the targets that are not at or below the
    dominator, each once, sorted by height and ID: the entries that turn the
    state at the merge base into the state at the targets, nothing missing and
    nothing applied twice. *)
Theorem path_from_base_exact inner tree subtree base to_ids :
  store_closed (entries inner) tree subtree -> acyclic_store (entries inner) tree subtree ->
  (forall t, t ∈ to_ids -> stored (entries inner) tree subtree t) ->
  common_dominator (entries inner) subtree to_ids base ->
  exists l, get_path_from_to inner tree subtree base to_ids = Some (Ok l)
    /\ NoDup l /\ Sorted (fun a b => height_id_leb (entries inner) subtree a b = true) l
    /\ forall x, x ∈ l <->
         (exists t, t ∈ to_ids /\ rtc (up (entries inner) subtree) t x)
         /\ ~ rtc (up (entries inner) subtree) base x.
Proof. apply path_from_base. Qed.
End merge_base.

(** ** Runs on a concrete store *)

#[local] Existing Instance nat_cid.
#[local] Existing Instance byte_crypto.
#[local] Existing Instance demo_codec.

(** Two entries above a common store root. *)
Definition demo_fork : InMemoryInner :=
  storage_put (storage_put (storage_put (storage_put InMemory_new demo_root)
    (demo_node Byte.x02 1 [demo_id 1] []))
    (demo_node Byte.x03 2 [demo_id 2] [demo_id 2]))
    (demo_node Byte.x04 2 [demo_id 2] [demo_id 2]).

Definition fork_base (es : gmap ID Entry) : Prop :=
  common_dominator es "data" [demo_id 3; demo_id 4] (demo_id 2).

Lemma find_merge_base_spec_witness :
  find_merge_base elements demo_fork (demo_id 1) "data" [demo_id 3; demo_id 4] = Some (Ok (demo_id 2))
  /\ fork_base (entries demo_fork).
Proof.
  assert (find_merge_base elements demo_fork (demo_id 1) "data" [demo_id 3; demo_id 4]
    = Some (Ok (demo_id 2))) as E by reflexivity.
  split; [exact E|].
  pose proof (find_merge_base_spec elements demo_fork (demo_id 1) "data" [demo_id 3; demo_id 4]
    (fun s => Permutation_refl _)) as H.
  cbv iota in H. rewrite E in H. destruct H as (r & Hr & H). injection Hr as <-.
  destruct H as [(err & H & _)|(_ & H & _)]; [discriminate H|exact H].
Defined.

Lemma fork_lookup id e :
  entries demo_fork !! id = Some e ->
  (id = demo_id 1 /\ e = demo_root) \/ (id = demo_id 2 /\ e = demo_node Byte.x02 1 [demo_id 1] [])
  \/ (id = demo_id 3 /\ e = demo_node Byte.x03 2 [demo_id 2] [demo_id 2])
  \/ (id = demo_id 4 /\ e = demo_node Byte.x04 2 [demo_id 2] [demo_id 2]).
Proof.
  assert (entries demo_fork =
    <[ demo_id 4 := demo_node Byte.x04 2 [demo_id 2] [demo_id 2] ]>
    (<[ demo_id 3 := demo_node Byte.x03 2 [demo_id 2] [demo_id 2] ]>
    (<[ demo_id 2 := demo_node Byte.x02 1 [demo_id 1] [] ]> (<[ demo_id 1 := demo_root ]> ∅)))) as ->
    by reflexivity.
  rewrite !lookup_insert_Some, lookup_empty. naive_solver.
Qed.

Lemma fork_up x y : up (entries demo_fork) "data" x y -> (x = demo_id 3 \/ x = demo_id 4) /\ y = demo_id 2.
Proof.
  intros (e & [[-> ->]|[[-> ->]|[[-> ->]|[-> ->]]]]%fork_lookup & Hy); simpl in Hy;
    [by apply elem_of_nil in Hy..| |]; apply list_elem_of_singleton in Hy; auto.
Qed.

Lemma fork_dominator : fork_base (entries demo_fork).
Proof.
  intros x Hx. assert (up (entries demo_fork) "data" x (demo_id 2)) as Hup.
  { apply elem_of_cons in Hx as [->|Hx]; [|apply list_elem_of_singleton in Hx as ->];
      (eexists; split; [reflexivity|by left]). }
  split; [by apply rtc_once|]. intros r Hr (e & He & Hn).
  inversion Hr as [|? z ? [_ Hxz] Hzr]; subst.
  - destruct Hup as (e' & He' & Hin). rewrite He in He'. injection He' as <-. rewrite Hn in Hin. set_solver.
  - apply fork_up in Hxz as [_ ->]. by inversion Hzr as [|? z ? [? _] _].
Qed.

Lemma path_from_base_exact_witness :
  exists l, get_path_from_to demo_fork (demo_id 1) "data" (demo_id 2) [demo_id 3; demo_id 4]
    = Some (Ok l) /\ demo_id 4 ∈ l.
Proof.
  assert (forall x y, store_edge (entries demo_fork) (demo_id 1) "data" x y ->
    (x = demo_id 3 \/ x = demo_id 4) /\ y = demo_id 2) as Hedge.
  { intros x y (e & He & _ & Hy). apply fork_up. by exists e. }
  destruct (path_from_base_exact demo_fork (demo_id 1) "data" (demo_id 2) [demo_id 3; demo_id 4])
    as (l & E & _ & _ & Hl).
  - intros x y [_ ->]%Hedge. eexists. split; reflexivity.
  - exists (fun x => if decide (x = demo_id 2) then 0%nat else 1%nat).
    intros x y [[->| ->] ->]%Hedge; simpl; lia.
  - intros t [->|[->|[]%elem_of_nil]%elem_of_cons]%elem_of_cons; (eexists; split; reflexivity).
  - exact fork_dominator.
  - exists l. split; [exact E|]. apply Hl. split; [exists (demo_id 4); split; [set_solver|apply rtc_refl]|].
    intros H. inversion H as [|? z ? [[Hz|Hz] _]%fork_up _]; discriminate.
Defined.
