(* ===== verification/BackendSteps.v ===== *)
(** * The in-memory backend as a state machine

    The backend with its CRDT cache, every operation that changes it as a step,
    and what holds in every reachable state: the caches are exact, entries are
    never lost or replaced, and the order in which entries arrive does not
    matter. *)

From S2P Require Import Prelude.
From S2P Require Import Worklist.
From S2P Require Import Path.
From S2P Require Import Position.
From S2P Require Import Ids.
From S2P Require Import Doc.
From S2P Require Import DocPath.
From S2P Require Import Errors.
From S2P Require Import Crypto.
From S2P Require Import Permission.
From S2P Require Import AuthTypes.
From S2P Require Import Entry.
From S2P Require Import Backend.
From S2P Require Import Traversal.
From S2P Require Import CrdtCache.
From S2P Require Import StoreTips.

Section backend_steps.
Context `{CD : CodecSpec} `{LS : !LruSpec CacheKey (list Byte.byte)}.

Record InMemory : Type := mkInMemory {
  mem_inner : InMemoryInner;
  crdt_cache : InMemoryCrdtCache;
}.

Definition InMemory_default : InMemory := mkInMemory InMemory_new InMemoryCrdtCache_new.

(** ** Persistence (persistence.rs) *)

Record SerializableDatabase : Type := mkSerializableDatabase {
  sd_version : Z;
  sd_entries : gmap ID Entry;
  sd_verification_status : gmap ID VerificationStatus;
  sd_instance_metadata : option InstanceMetadata;
  sd_instance_secrets : option InstanceSecrets;
  sd_tips : gmap ID TreeTipsCache;
}.

Definition PERSISTENCE_VERSION : Z := 0.

Definition InMemory_serialize (m : InMemory) : SerializableDatabase :=
  mkSerializableDatabase PERSISTENCE_VERSION (entries (mem_inner m))
    (verification_status (mem_inner m)) (instance_metadata (mem_inner m))
    (instance_secrets (mem_inner m)) (mem_tips (mem_inner m)).

(** [None] is the deserializer's error on an unsupported version. *)
Definition InMemory_deserialize (d : SerializableDatabase) : option InMemory :=
  if sd_version d =? PERSISTENCE_VERSION then
    Some (mkInMemory (mkInMemoryInner (sd_entries d) (sd_verification_status d)
      (sd_instance_metadata d) (sd_instance_secrets d) (sd_tips d)) InMemoryCrdtCache_new)
  else None.

(** ** The operations that change the backend *)

Definition with_inner (m : InMemory) (inner : InMemoryInner) : InMemory :=
  mkInMemory inner (crdt_cache m).

Definition with_cache (m : InMemory) (c : InMemoryCrdtCache) : InMemory :=
  mkInMemory (mem_inner m) c.

(** One completed call.  The blobs of the CRDT cache fit in the address space. *)
Inductive mem_step (m : InMemory) : InMemory -> Prop :=
  | StepPut e inner' :
      mem_put (mem_inner m) e = Ok inner' -> mem_step m (with_inner m inner')
  | StepStatus id s inner' :
      update_verification_status (mem_inner m) id s = Ok inner' -> mem_step m (with_inner m inner')
  | StepSnapshot tree : mem_step m (with_inner m (mem_snapshot (mem_inner m) tree).1)
  | StepStoreSnapshot tree subtree :
      mem_step m (with_inner m (mem_store_snapshot (mem_inner m) tree subtree).1)
  | StepStoreSnapshotAt iter tree subtree snap inner' r :
      mem_store_snapshot_at iter (mem_inner m) tree subtree snap = Some (inner', r) ->
      mem_step m (with_inner m inner')
  | StepMetadata md : mem_step m (with_inner m (set_instance_metadata (mem_inner m) md))
  | StepSecrets s : mem_step m (with_inner m (set_instance_secrets (mem_inner m) s))
  | StepCacheGet scope id subtree :
      mem_step m (with_cache m (cache_get (crdt_cache m) scope id subtree).1)
  | StepCachePut scope id subtree state c' :
      total (items (crdt_cache m)) + vec_len state <= usize_max ->
      cache_put (crdt_cache m) scope id subtree state = Some c' ->
      mem_step m (with_cache m c')
  | StepCacheClear : mem_step m (with_cache m (cache_clear (crdt_cache m)))
  | StepReload m' :
      InMemory_deserialize (InMemory_serialize m) = Some m' -> mem_step m m'.

Record backend_inv (m : InMemory) : Prop := {
  bi_mem : mem_inv (mem_inner m);
  bi_cache : cache_inv (crdt_cache m);
}.

(** [store_snapshot_at] changes nothing but the tips cache, and keeps it exact. *)
Lemma store_snapshot_at_inv iter inner tree subtree main inner' r :
  mem_inv inner -> store_snapshot_at iter inner tree subtree main = Some (inner', r) ->
  mem_inv inner' /\ entries inner' = entries inner.
Proof.
  intros Hinv. unfold store_snapshot_at. destruct (is_nil main); [by intros [= <- _]|].
  destruct (traversal_snapshot_inv inner tree Hinv) as (Hinv1 & He1 & _).
  destruct (traversal_snapshot inner tree) as [inner1 current]. simpl in *. case_decide.
  - destruct (cached_store_tips inner1 tree subtree); intros [= <- _]; [done|].
    split; [|done]. apply cache_store_tips_inv; [done|]. intros id. apply elem_of_compute_store_tips.
  - intros (r' & _ & Hr)%bind_Some. destruct r' as [l|e]; [|by injection Hr as <- _].
    by destruct (is_nil _); injection Hr as <- _.
Qed.

(** A step keeps the invariant and every stored entry. *)
Lemma mem_step_inv m m' :
  backend_inv m -> mem_step m m' ->
  backend_inv m' /\ entries (mem_inner m) ⊆ entries (mem_inner m').
Proof.
  intros [Hm Hc] Hstep. destruct Hstep as [e inner' H|id s inner' H|tree|tree subtree
    |iter tree subtree snap inner' r H|md|s|scope id subtree|scope id subtree state c' Hsz H| |m' H].
  - split; [split; [by eapply mem_put_inv|done]|]. cbn [mem_inner with_inner].
    unfold mem_put in H. destruct (Entry_validate e); [|done]. injection H as <-.
    destruct (entries (mem_inner m) !! Entry_id e) eqn:E.
    + by rewrite put_known by eauto.
    + destruct (put_entries _ _ E) as [-> _]. by apply insert_subseteq.
  - destruct (update_status_inv _ _ _ _ Hm H) as (? & He & _). split; [done|]. simpl. by rewrite He.
  - destruct (traversal_snapshot_inv _ tree Hm) as (? & He & _). split; [done|]. simpl. by rewrite He.
  - destruct (traversal_store_snapshot_inv _ tree subtree Hm) as (? & He & _).
    split; [done|]. simpl. by rewrite He.
  - unfold mem_store_snapshot_at in H. apply bind_Some in H as ([i r'] & H & [= <- _]).
    destruct (store_snapshot_at_inv _ _ _ _ _ _ _ Hm H) as [? He].
    split; [done|]. simpl. by rewrite He.
  - split; [split; [destruct Hm; by split|done]|done].
  - split; [split; [destruct Hm; by split|done]|done].
  - split; [split; [done|by apply cache_get_inv]|done].
  - split; [split; [done|]|done]. by eapply cache_put_inv.
  - split; [split; [done|apply cache_clear_inv]|done].
  - unfold InMemory_deserialize, InMemory_serialize in H. simpl in H. injection H as <-.
    split; [split; [destruct Hm; by split|apply cache_inv_init]|done].
Qed.

Lemma mem_steps_inv m m' :
  backend_inv m -> rtc mem_step m m' ->
  backend_inv m' /\ entries (mem_inner m) ⊆ entries (mem_inner m').
Proof.
  intros Hinv H. induction H as [m|m1 m2 m3 H12 H23 IH]; [done|].
  destruct (mem_step_inv _ _ Hinv H12) as [Hinv2 Hsub]. destruct (IH Hinv2) as [? ?].
  split; [done|]. by etrans.
Qed.

Lemma backend_inv_init : backend_inv InMemory_default.
Proof. split; [apply mem_inv_init|apply cache_inv_init]. Qed.

(** C21: in every state the backend can reach, each entry is valid, is stored
    under its own ID and has a verification status; the snapshots of a tree and
    of its stores are exactly their tips, whether cached or computed; and every
    later state still holds the entry. *)
Theorem backend_reachable_exact m :
  rtc mem_step InMemory_default m ->
  let inner := mem_inner m in
  (forall id e, entries inner !! id = Some e ->
     Entry_id e = id /\ Entry_validate e = Ok tt /\ is_ok (get_verification_status inner id) = true)
  /\ (forall tree, proper_tree (entries inner) tree ->
       (forall id, id ∈ tips (mem_snapshot inner tree).2 <-> tree_tip (entries inner) tree id)
       /\ forall subtree id, id ∈ tips (mem_store_snapshot inner tree subtree).2
            <-> store_tip (entries inner) tree subtree id)
  /\ forall m' id e, rtc mem_step m m' -> storage_get inner id = Ok e ->
       storage_get (mem_inner m') id = Ok e.
Proof.
  intros Hreach. destruct (mem_steps_inv _ _ backend_inv_init Hreach) as [Hinv _].
  pose proof (bi_mem _ Hinv) as Hm. cbn zeta. split; [|split].
  - intros id e He. split; [by apply (mi_ids _ Hm)|]. split; [by apply (mi_valid _ Hm id)|].
    assert (id ∈ dom (verification_status (mem_inner m))) as [s Hs]%elem_of_dom
      by (rewrite (mi_status _ Hm); by apply elem_of_dom).
    unfold get_verification_status. by rewrite Hs.
  - intros tree Hp. split.
    + intros id. destruct (traversal_snapshot_inv _ tree Hm) as (_ & _ & Ht).
      unfold mem_snapshot. simpl. rewrite elem_of_sort_dedup, elem_of_elements. by apply Ht.
    + intros subtree id. destruct (traversal_store_snapshot_inv _ tree subtree Hm) as (_ & _ & Ht).
      unfold mem_store_snapshot. simpl. rewrite elem_of_sort_dedup, elem_of_elements. by apply Ht.
  - intros m' id e Hsteps He. destruct (mem_steps_inv _ _ Hinv Hsteps) as [_ Hsub].
    unfold storage_get in *. destruct (entries (mem_inner m) !! id) eqn:E; [|done].
    injection He as ->. by rewrite (lookup_weaken _ _ _ _ E Hsub).
Qed.

(** ** Putting entries *)

(** [put] rejects exactly the structurally invalid entries; a new entry is
    readable afterwards with status [Unverified] and nothing else changes; an
    entry already stored is left alone, with its verification status; putting
    twice is putting once. *)
Theorem put_spec inner e :
  match mem_put inner e with
  | Err err => Entry_validate e = Err err
  | Ok inner' =>
      Entry_validate e = Ok tt
      /\ match entries inner !! Entry_id e with
         | Some _ => inner' = inner
         | None =>
             storage_get inner' (Entry_id e) = Ok e
             /\ get_verification_status inner' (Entry_id e) = Ok Unverified
             /\ forall id, id <> Entry_id e ->
                  storage_get inner' id = storage_get inner id
                  /\ get_verification_status inner' id = get_verification_status inner id
         end
      /\ mem_put inner' e = Ok inner'
  end.
Proof.
  unfold mem_put. destruct (Entry_validate e) as [[]|err] eqn:Ev; simpl; [|done]. split; [done|].
  destruct (entries inner !! Entry_id e) as [e0|] eqn:E.
  - rewrite !put_known by eauto. done.
  - destruct (put_entries inner e E) as [He Hs]. unfold storage_get, get_verification_status.
    rewrite He, Hs, !lookup_insert_eq. split.
    + split; [done|]. split; [done|]. intros id Hid. by rewrite !lookup_insert_ne.
    + f_equal. apply put_known. rewrite He, lookup_insert_eq. eauto.
Qed.

Definition put_all (inner : InMemoryInner) (l : list Entry) : InMemoryInner := foldl storage_put inner l.

Lemma put_lookup inner e id :
  entries (storage_put inner e) !! id =
  match entries inner !! id with
  | Some x => Some x
  | None => if decide (id = Entry_id e) then Some e else None
  end.
Proof.
  destruct (entries inner !! Entry_id e) as [e0|] eqn:E.
  - rewrite put_known by eauto. destruct (entries inner !! id) eqn:E'; [done|].
    case_decide; [congruence|done].
  - destruct (put_entries inner e E) as [-> _]. destruct (decide (id = Entry_id e)) as [->|Hne].
    + by rewrite lookup_insert_eq, E.
    + rewrite lookup_insert_ne by done. by destruct (entries inner !! id).
Qed.

(** The new statuses are [Unverified], on exactly the new entries. *)
Lemma put_all_spec inner l id :
  mem_inv inner -> (forall e, e ∈ l -> Entry_validate e = Ok tt) ->
  mem_inv (put_all inner l)
  /\ entries (put_all inner l) !! id =
     match entries inner !! id with
     | Some x => Some x
     | None => List.find (fun e => bool_decide (id = Entry_id e)) l
     end
  /\ verification_status (put_all inner l) !! id =
     match verification_status inner !! id with
     | Some s => Some s
     | None => (fun _ => Unverified) <$> entries (put_all inner l) !! id
     end.
Proof.
  revert inner. induction l as [|e l IH]; intros inner Hinv Hval; cbn [put_all foldl].
  - split; [done|]. split; [by destruct (entries inner !! id)|].
    destruct (verification_status inner !! id) eqn:Es; [done|].
    apply not_elem_of_dom in Es. rewrite (mi_status _ Hinv) in Es. apply not_elem_of_dom in Es.
    by rewrite Es.
  - fold (put_all (storage_put inner e) l).
    assert (mem_inv (storage_put inner e)) as Hinv'.
    { apply (mem_put_inv inner e); [done|]. unfold mem_put. by rewrite (Hval e) by set_solver. }
    destruct (IH (storage_put inner e)) as (H1 & H2 & H3); [done|set_solver|].
    split; [done|]. split.
    + rewrite H2, put_lookup. destruct (entries inner !! id); [done|]. simpl. case_decide.
      * by rewrite bool_decide_true.
      * by rewrite bool_decide_false.
    + rewrite H3. destruct (entries inner !! Entry_id e) as [e0|] eqn:E; [by rewrite put_known by eauto|].
      destruct (put_entries inner e E) as [Hen Hst]. rewrite Hst.
      destruct (decide (id = Entry_id e)) as [->|Hne]; [|by rewrite lookup_insert_ne].
      rewrite lookup_insert_eq. assert (verification_status inner !! Entry_id e = None) as ->.
      { apply not_elem_of_dom. rewrite (mi_status _ Hinv). by apply not_elem_of_dom. }
      by rewrite H2, Hen, lookup_insert_eq.
Qed.

Lemma find_unique_perm (l1 l2 : list Entry) id :
  l1 ≡ₚ l2 -> (forall a b, a ∈ l1 -> b ∈ l1 -> Entry_id a = Entry_id b -> a = b) ->
  List.find (fun e => bool_decide (id = Entry_id e)) l1
  = List.find (fun e => bool_decide (id = Entry_id e)) l2.
Proof.
  intros Hp Hu. destruct (List.find _ l1) as [a|] eqn:E1; destruct (List.find _ l2) as [b|] eqn:E2.
  - apply List.find_some in E1 as [Ha ->%bool_decide_eq_true], E2 as [Hb Hid%bool_decide_eq_true].
    rewrite <- list_elem_of_In in Ha, Hb. rewrite <- Hp in Hb. by rewrite (Hu a b).
  - apply List.find_some in E1 as [Ha Hid]. rewrite <- list_elem_of_In, Hp, list_elem_of_In in Ha.
    apply (List.find_none _ _ E2) in Ha. congruence.
  - apply List.find_some in E2 as [Hb Hid]. rewrite <- list_elem_of_In, <- Hp, list_elem_of_In in Hb.
    apply (List.find_none _ _ E1) in Hb. congruence.
  - done.
Qed.

(** The order in which valid entries arrive does not matter: two backends
    that received the same entries in different orders hold the same entries
    and statuses and give the same snapshot of every tree and store (no two of
    the entries collide on their ID). *)
Theorem put_order_irrelevant inner l1 l2 tree subtree :
  mem_inv inner -> l1 ≡ₚ l2 -> (forall e, e ∈ l1 -> Entry_validate e = Ok tt) ->
  (forall a b, a ∈ l1 -> b ∈ l1 -> Entry_id a = Entry_id b -> a = b) ->
  let m1 := put_all inner l1 in
  let m2 := put_all inner l2 in
  entries m1 = entries m2 /\ verification_status m1 = verification_status m2
  /\ (proper_tree (entries m1) tree ->
      (mem_snapshot m1 tree).2 = (mem_snapshot m2 tree).2
      /\ (mem_store_snapshot m1 tree subtree).2 = (mem_store_snapshot m2 tree subtree).2).
Proof.
  intros Hinv Hp Hval Hu. cbn zeta.
  assert (forall e, e ∈ l2 -> Entry_validate e = Ok tt) as Hval2 by (intros e; rewrite <- Hp; apply Hval).
  assert (entries (put_all inner l1) = entries (put_all inner l2)) as He.
  { apply map_eq. intros id. destruct (put_all_spec inner l1 id) as (_ & -> & _); [done..|].
    destruct (put_all_spec inner l2 id) as (_ & -> & _); [done..|].
    destruct (entries inner !! id); [done|]. by apply find_unique_perm. }
  split; [done|]. split.
  { apply map_eq. intros id. destruct (put_all_spec inner l1 id) as (_ & _ & ->); [done..|].
    destruct (put_all_spec inner l2 id) as (_ & _ & ->); [done..|]. by rewrite He. }
  intros Hpt. destruct (put_all_spec inner l1 tree) as (Hm1 & _); [done..|].
  destruct (put_all_spec inner l2 tree) as (Hm2 & _); [done..|].
  destruct (traversal_snapshot_inv _ tree Hm1) as (_ & _ & T1), (traversal_snapshot_inv _ tree Hm2) as (_ & _ & T2).
  destruct (traversal_store_snapshot_inv _ tree subtree Hm1) as (_ & _ & S1).
  destruct (traversal_store_snapshot_inv _ tree subtree Hm2) as (_ & _ & S2).
  rewrite <- He in T2, S2. unfold mem_snapshot, mem_store_snapshot. simpl. split.
  - do 2 f_equal. apply set_eq. intros id. by rewrite T1, T2.
  - do 2 f_equal. apply set_eq. intros id. by rewrite S1, S2.
Qed.
End backend_steps.

(** ** Runs on the concrete tree *)

#[local] Existing Instance nat_cid.
#[local] Existing Instance byte_crypto.
#[local] Existing Instance demo_codec.
#[local] Existing Instance list_lru.

Lemma demo_reachable :
  rtc mem_step InMemory_default (mkInMemory demo_mem InMemoryCrdtCache_new).
Proof.
  apply (rtc_l _ _ (mkInMemory (storage_put InMemory_new demo_root) InMemoryCrdtCache_new)).
  { by apply (StepPut InMemory_default demo_root). }
  apply (rtc_l _ _ (mkInMemory (storage_put (storage_put InMemory_new demo_root) demo_left)
    InMemoryCrdtCache_new)).
  { by apply (StepPut (mkInMemory (storage_put InMemory_new demo_root) InMemoryCrdtCache_new) demo_left). }
  apply rtc_once.
  by apply (StepPut (mkInMemory (storage_put (storage_put InMemory_new demo_root) demo_left)
    InMemoryCrdtCache_new) demo_right).
Qed.

Lemma backend_reachable_exact_witness :
  rtc mem_step InMemory_default (mkInMemory demo_mem InMemoryCrdtCache_new)
  /\ tree_tip (entries demo_mem) (demo_id 1) (demo_id 3).
Proof.
  split; [exact demo_reachable|].
  destruct (backend_reachable_exact _ demo_reachable) as (_ & H & _).
  destruct (H (demo_id 1) demo_proper) as [Ht _]. apply Ht.
  assert (tips (mem_snapshot demo_mem (demo_id 1)).2 = [demo_id 2; demo_id 3]) as E by reflexivity.
  cbn [mem_inner]. rewrite E. set_solver.
Defined.

Lemma put_order_irrelevant_witness :
  entries (put_all InMemory_new [demo_root; demo_left; demo_merge])
  = entries (put_all InMemory_new [demo_merge; demo_root; demo_left]).
Proof.
  apply (put_order_irrelevant InMemory_new [demo_root; demo_left; demo_merge]
    [demo_merge; demo_root; demo_left] (demo_id 1) "data").
  - apply mem_inv_init.
  - apply (Permutation_app_comm [demo_root; demo_left] [demo_merge]).
  - intros e [->|[->|[->|[]%elem_of_nil]%elem_of_cons]%elem_of_cons]%elem_of_cons; reflexivity.
  - intros a b [->|[->|[->|[]%elem_of_nil]%elem_of_cons]%elem_of_cons]%elem_of_cons
      [->|[->|[->|[]%elem_of_nil]%elem_of_cons]%elem_of_cons]%elem_of_cons H;
      first [reflexivity|discriminate H].
Defined.

(** ** Where the tips cache goes wrong *)

(** A file without the [tips] field loads (the field defaults to empty), but
    reading a store before the tree then caches an empty set of tree tips,
    which [snapshot] returns although the tree has tips. *)
Theorem load_without_tips_loses_tips :
  exists m, InMemory_deserialize (mkSerializableDatabase 0 (entries demo_mem)
      (verification_status demo_mem) None None ∅) = Some m
    /\ tips (mem_snapshot (mem_inner m) (demo_id 1)).2 = [demo_id 2; demo_id 3]
    /\ tips (mem_snapshot (mem_store_snapshot (mem_inner m) (demo_id 1) "data").1 (demo_id 1)).2 = [].
Proof. eexists. split; [reflexivity|]. split; reflexivity. Qed.
