(* ===== verification/Verify.v ===== *)
(** * Verification (database/mod.rs, instance/mod.rs)

    The verification pass of a database: the settings an entry pins
    ([get_historical_settings_for_entry]), the walk over the unverified region,
    and the promotion or rejection of its entries, parents before children.
    The statuses are those of the in-memory backend; the JSON codec of an
    entry's metadata is an interface.  Write callbacks, locks and the task-local
    flag that suppresses re-entry carry no state of the pass and are left out.

    Shown here: the pass ends without panicking; it never changes a settled
    status, keeps the verified set closed under ancestors, and leaves every
    entry of the region with exactly the verdict its parents' final statuses
    and its pinned settings give it. *)

From S2P Require Import Prelude.
From S2P Require Import Worklist.
From S2P Require Import Kahn.
From S2P Require Import Path.
From S2P Require Import Position.
From S2P Require Import Ids.
From S2P Require Import Doc.
From S2P Require Import DocPath.
From S2P Require Import Errors.
From S2P Require Import Crypto.
From S2P Require Import Permission.
From S2P Require Import AuthTypes.
From S2P Require Import AuthSettings.
From S2P Require Import Entry.
From S2P Require Import Backend.
From S2P Require Import Traversal.
From S2P Require Import StoreTips.
From S2P Require Import Reachability.
From S2P Require Import Validation.

Section metadata.
Context `{CS : CidSpec}.

(** The metadata of an entry (transaction/mod.rs). *)
Record EntryMetadata : Type := mkEntryMetadata {
  settings_snapshot : Snapshot;
  entropy : option Z;
}.
End metadata.

(** [serde_json] at [EntryMetadata] and [Doc]. *)
Class JsonSpec `{CD : CodecSpec} := {
  json_to_metadata : Bytes -> option EntryMetadata;
  metadata_to_json : EntryMetadata -> Bytes;
  doc_to_json : Doc -> Bytes;
}.

Section verify.
Context `{IS : InstanceSpec} `{JS : !JsonSpec}.
Context (map_iter : forall A : Type, gmap ID A -> list (ID * A)).

(** ** The pinned settings *)

Inductive PinnedSettings : Type :=
| Complete (auth_settings : AuthSettings)
| Incomplete.

(** The walk over the settings and main parents; [Err tt] is the early return
    with [Incomplete]. *)
Definition closure_visit (inner : InMemoryInner) (id : ID) :
    Result (option (list unit * list ID)) unit :=
  match storage_get inner id with
  | Ok e => Ok (Some ([], subtree_parents_or_nil SETTINGS e ++ Entry_parents e))
  | Err _ => Err tt
  end.

(** The fold of the settings documents, in the order the backend returns. *)
Fixpoint merge_settings (settings_doc : Doc) (es : list Entry) : Result Doc Error :=
  match es with
  | [] => Ok settings_doc
  | e :: rest =>
      match Entry_data e SETTINGS with
      | Ok data =>
          let? part := ok_or (json_to_doc data) ESerialize in
          merge_settings (Doc_merge settings_doc part) rest
      | Err _ => merge_settings settings_doc rest
      end
  end.

Definition auth_of_settings (settings_doc : Doc) : AuthSettings :=
  match Doc_get settings_doc "auth" with
  | Some (VDoc auth_doc) => mkAuthSettings auth_doc
  | _ => AuthSettings_new
  end.

(** What an entry's metadata pins: [None] when it cannot be parsed. *)
Definition pinned_tips (entry : Entry) : option (list ID) :=
  match tn_metadata (e_tree entry) with
  | Some raw => tips ∘ settings_snapshot <$> json_to_metadata raw
  | None => Some []
  end.

(** An entry that pins nothing and writes the settings is validated against the
    settings it establishes itself. *)
Definition effective_tips (entry : Entry) (settings_tips : list ID) : list ID :=
  if is_nil settings_tips then [Entry_id entry] else settings_tips.

Definition get_historical_settings_for_entry (inner : InMemoryInner) (root : ID) (entry : Entry) :
    option (Result PinnedSettings Error) :=
  match pinned_tips entry with
  | None => Some (Ok Incomplete)
  | Some settings_tips =>
      if is_nil settings_tips && negb (in_subtree entry SETTINGS) then
        Some (Ok (Complete AuthSettings_new))
      else
        let effective_tips := effective_tips entry settings_tips in
        walk ← worklist (closure_visit inner) Lifo
                 (traversal_fuel (entries inner) (length effective_tips))
                 (reverse effective_tips) ∅ [];
        match walk with
        | Err _ => Some (Ok Incomplete)
        | Ok _ =>
            r ← store_at inner root SETTINGS (tips (Snapshot_new effective_tips));
            Some (let? es := r in
                  let? settings_doc := merge_settings Doc_new es in
                  Ok (Complete (auth_of_settings settings_doc)))
        end
  end.

(** ** Reading one entry *)

Definition Database_get_entry (inner : InMemoryInner) (root id : ID) : Result Entry Error :=
  let? entry := storage_get inner id in
  if in_tree entry root then Ok entry else Err (EInstance (EntryNotInDatabase id root)).

Fixpoint Database_get_entries (inner : InMemoryInner) (root : ID) (ids : list ID) :
    Result (list Entry) Error :=
  match ids with
  | [] => Ok []
  | id :: rest =>
      let? entry := Database_get_entry inner root id in
      let? es := Database_get_entries inner root rest in
      Ok (entry :: es)
  end.

Definition Database_verify_entry_signature (inner : InMemoryInner) (root id : ID) :
    option (Result bool Error) :=
  match Database_get_entry inner root id with
  | Err e => Some (Err e)
  | Ok entry =>
      r ← get_historical_settings_for_entry inner root entry;
      match r with
      | Err e => Some (Err e)
      | Ok Incomplete => Some (Ok false)
      | Ok (Complete auth_settings) =>
          b ← validate_entry entry auth_settings (Some inner); Some (Ok b)
      end
  end.

(** ** The pass *)

Record VerifyReport : Type := mkVerifyReport {
  verified : nat;
  failed : nat;
  still_unverified : nat;
}.

Definition VerifyReport_default : VerifyReport := mkVerifyReport 0 0 0.

Definition region_visit (inner : InMemoryInner) (id : ID) :
    Result (option (list (ID * Entry) * list ID)) Error :=
  match get_verification_status inner id with
  | Err e => if Error_is_not_found e then Ok (Some ([], [])) else Err e
  | Ok Verified | Ok Failed => Ok (Some ([], []))
  | Ok Unverified =>
      let? entry := storage_get inner id in
      Ok (Some ([(id, entry)], Entry_parents entry))
  end.

(** The loop over the parents: is one [Failed], is one not [Verified] yet. *)
Fixpoint parent_flags (inner : InMemoryInner) (parents : list ID) (compromised blocked : bool) :
    Result (bool * bool) Error :=
  match parents with
  | [] => Ok (compromised, blocked)
  | p :: rest =>
      match get_verification_status inner p with
      | Ok Verified => parent_flags inner rest compromised blocked
      | Ok Failed => parent_flags inner rest true blocked
      | Ok Unverified => parent_flags inner rest compromised true
      | Err e => if Error_is_not_found e then parent_flags inner rest compromised true else Err e
      end
  end.

(** The status the pass gives an entry; [Unverified] leaves it alone. *)
Definition judge (inner : InMemoryInner) (root : ID) (entry : Entry) :
    option (Result VerificationStatus Error) :=
  match parent_flags inner (Entry_parents entry) false false with
  | Err e => Some (Err e)
  | Ok (compromised, blocked) =>
      if compromised then Some (Ok Failed)
      else if blocked then Some (Ok Unverified)
      else
        r ← get_historical_settings_for_entry inner root entry;
        match r with
        | Err e => Some (Err e)
        | Ok Incomplete => Some (Ok Unverified)
        | Ok (Complete auth_settings) =>
            valid ← validate_entry entry auth_settings (Some inner);
            Some (Ok (if valid : bool then Verified else Failed))
        end
  end.

Definition count_status (report : VerifyReport) (s : VerificationStatus) : VerifyReport :=
  match s with
  | Verified => mkVerifyReport (S (verified report)) (failed report) (still_unverified report)
  | Failed => mkVerifyReport (verified report) (S (failed report)) (still_unverified report)
  | Unverified => mkVerifyReport (verified report) (failed report) (S (still_unverified report))
  end.

(** The loop over the sorted region.  An error ends it, with the statuses
    updated so far. *)
Fixpoint process_order (root : ID) (unverified : gmap ID Entry) (order : list ID)
    (inner : InMemoryInner) (report : VerifyReport) (any_promoted : bool) :
    option (Outcome (InMemoryInner * Result (VerifyReport * bool) Error)) :=
  match order with
  | [] => Some (Done (inner, Ok (report, any_promoted)))
  | id :: rest =>
      match unverified !! id with
      | None => Some Panic
      | Some entry =>
          r ← judge inner root entry;
          match r with
          | Err e => Some (Done (inner, Err e))
          | Ok Unverified =>
              process_order root unverified rest inner (count_status report Unverified) any_promoted
          | Ok s =>
              match update_verification_status inner id s with
              | Err e => Some (Done (inner, Err e))
              | Ok inner =>
                  process_order root unverified rest inner (count_status report s)
                    (any_promoted || bool_decide (s = Verified))
              end
          end
      end
  end.

Definition Database_verify (inner : InMemoryInner) (root : ID) :
    option (Outcome (InMemoryInner * Result (VerifyReport * bool) Error)) :=
  let '(inner, raw_tips) := mem_snapshot inner root in
  r ← worklist (region_visit inner) Fifo
        (traversal_fuel (entries inner) (length (tips raw_tips))) (tips raw_tips) ∅ [];
  match r with
  | Err e => Some (Done (inner, Err e))
  | Ok (_, acc) =>
      let unverified : gmap ID Entry := list_to_map acc in
      o ← kahn_sort Entry_parents map_iter unverified;
      match o with
      | Panic => Some Panic
      | Done order => process_order root unverified order inner VerifyReport_default false
      end
  end.
End verify.

(** ** What the pass does *)

Section verify_facts.
Context `{IS : InstanceSpec} `{JS : !JsonSpec}.
Context (map_iter : forall A : Type, gmap ID A -> list (ID * A)).

Definition status (inner : InMemoryInner) (id : ID) : option VerificationStatus :=
  verification_status inner !! id.

(** The ancestors of a verified entry of the tree are present and verified. *)
Definition verified_closed (inner : InMemoryInner) (tree : ID) : Prop :=
  forall id e p, entries inner !! id = Some e -> in_tree e tree = true -> status inner id = Some Verified ->
    p ∈ Entry_parents e -> status inner p = Some Verified.

(** The part of the DAG the pass visits: unverified entries that hang from a
    tip through unverified ones. *)
Definition region_edge (inner : InMemoryInner) (x y : ID) : Prop :=
  status inner x = Some Unverified /\ exists e, entries inner !! x = Some e /\ y ∈ Entry_parents e.

Definition in_region (inner : InMemoryInner) (root x : ID) : Prop :=
  status inner x = Some Unverified
  /\ exists t, tree_tip (entries inner) root t /\ rtc (region_edge inner) t x.

(** No entry is its own ancestor. *)
Definition acyclic_history (es : gmap ID Entry) : Prop :=
  acyclic_group (fun _ => true) Entry_parents es.

(** One step of the completeness walk. *)
Definition closure_edge (es : gmap ID Entry) (x y : ID) : Prop :=
  exists e, es !! x = Some e /\ y ∈ subtree_parents_or_nil SETTINGS e ++ Entry_parents e.

Lemma closure_refs e :
  (length (subtree_parents_or_nil SETTINGS e ++ Entry_parents e) <= parent_refs e)%nat.
Proof.
  rewrite length_app. unfold subtree_parents_or_nil, subtree_parents, parent_refs.
  destruct (find_subtree (e_subtrees e) SETTINGS) as [n|] eqn:E; simpl; [|lia].
  apply find_subtree_refs in E. lia.
Qed.

(** The completeness walk ends; it succeeds when everything it reaches is
    present and fails when something is missing. *)
Lemma closure_walk inner tips :
  exists w, worklist (closure_visit inner) Lifo (traversal_fuel (entries inner) (length tips))
              (reverse tips) ∅ [] = Some w
    /\ let reached x := exists t, t ∈ tips /\ rtc (closure_edge (entries inner)) t x in
       match w with
       | Ok _ => forall x, reached x -> is_Some (entries inner !! x)
       | Err _ => exists x, reached x /\ entries inner !! x = None
       end.
Proof.
  set (visit := closure_visit inner).
  assert (forall x y, wstep visit ∅ x y <-> closure_edge (entries inner) x y) as Hnext.
  { intros x y. unfold wstep, next, visit, closure_visit, storage_get, closure_edge.
    destruct (entries inner !! x) as [e|]; simpl; [|set_solver].
    split; [intros []; eauto|]. intros (e' & [= <-] & ?). set_solver. }
  destruct (traversal_fuel_enough visit Lifo (entries inner) (reverse tips) ∅ []) as [w Hw].
  { intros x. unfold next, visit, closure_visit, storage_get.
    destruct (entries inner !! x) as [e|]; simpl; [apply closure_refs|lia]. }
  rewrite length_reverse in Hw. exists w. split; [done|].
  assert (forall x, from_queue visit ∅ (reverse tips) x
    <-> exists t, t ∈ tips /\ rtc (closure_edge (entries inner)) t x) as Hfrom.
  { intros x. unfold from_queue. setoid_rewrite elem_of_reverse.
    assert (forall t, rtc (wstep visit ∅) t x <-> rtc (closure_edge (entries inner)) t x) as Hr.
    { intros t. split; induction 1; try apply rtc_refl; (eapply rtc_l; [by apply Hnext|done]). }
    split; intros (t & ? & ?); exists t; (split; [done|by apply Hr]). }
  destruct w as [[seen acc]|[]]; simpl.
  - apply worklist_ok in Hw as (_ & Herr & _). intros x Hx%Hfrom.
    specialize (Herr x tt). unfold visit, closure_visit, storage_get in Herr.
    destruct (entries inner !! x); [eauto|]. exfalso. apply Herr; [set_solver|done|done].
  - apply worklist_err in Hw as (x & _ & Hx%Hfrom & Hv). exists x. split; [done|].
    unfold visit, closure_visit, storage_get in Hv. by destruct (entries inner !! x).
Qed.

Lemma merge_settings_err doc es e :
  merge_settings doc es = Err e ->
  e = ESerialize /\ exists x data, x ∈ es /\ Entry_data x SETTINGS = Ok data /\ json_to_doc data = None.
Proof.
  revert doc. induction es as [|x es IH]; intros doc; simpl; [done|].
  destruct (Entry_data x SETTINGS) as [data|] eqn:Ed; [|intros (-> & y & d & ? & ?)%IH; set_solver].
  destruct (json_to_doc data) as [part|] eqn:Ej; simpl.
  - intros (-> & y & d & ? & ?)%IH. set_solver.
  - intros [= <-]. split; [done|]. exists x, data. set_solver.
Qed.

(** *** What an entry pins, read off its metadata and the history *)

(** The settings tips in the metadata of an entry; none without metadata. *)
Definition pins (entry : Entry) (ts : list ID) : Prop :=
  match tn_metadata (e_tree entry) with
  | None => ts = []
  | Some raw => exists md, json_to_metadata raw = Some md /\ ts = tips (settings_snapshot md)
  end.

Definition unreadable_metadata (entry : Entry) : Prop :=
  exists raw, tn_metadata (e_tree entry) = Some raw /\ json_to_metadata raw = None.

(** Where its settings are read: at the tips it pins, or at the entry itself
    when it pins none and writes the settings. *)
Definition settings_points (entry : Entry) (ts : list ID) : Prop :=
  ts <> [] /\ pins entry ts
  \/ pins entry [] /\ in_subtree entry SETTINGS = true /\ ts = [Entry_id entry].

(** The ancestors of [ts], through settings parents and tree parents. *)
Definition settings_reach (es : gmap ID Entry) (ts : list ID) (x : ID) : Prop :=
  exists t, t ∈ ts /\ rtc (closure_edge es) t x.

(** The settings entries of the tree at or below [ts], in height order. *)
Definition settings_below (es : gmap ID Entry) (root : ID) (ts : list ID) (l : list Entry) : Prop :=
  NoDup l /\ height_sorted (subtree_height_or_0 SETTINGS) l
  /\ forall e, e ∈ l <-> exists id, es !! id = Some e /\ in_store e root SETTINGS = true
       /\ exists t, t ∈ ts /\ rtc (store_edge es root SETTINGS) t id.

Definition settings_data (e : Entry) : option Bytes :=
  match Entry_data e SETTINGS with Ok data => Some data | Err _ => None end.

(** The settings that [entry] is to be checked against. *)
Definition settings_pinned (es : gmap ID Entry) (root : ID) (entry : Entry)
    (r : Result PinnedSettings Error) : Prop :=
  match r with
  | Ok Incomplete =>
      unreadable_metadata entry
      \/ exists ts x, settings_points entry ts /\ settings_reach es ts x /\ es !! x = None
  | Ok (Complete auth) =>
      pins entry [] /\ in_subtree entry SETTINGS = false /\ auth = AuthSettings_new
      \/ exists ts l docs, settings_points entry ts
           /\ (forall x, settings_reach es ts x -> is_Some (es !! x)) /\ settings_below es root ts l
           /\ json_to_doc <$> omap settings_data l = Some <$> docs
           /\ auth = match Doc_get (foldl Doc_merge Doc_new docs) "auth" with
                     | Some (VDoc d) => mkAuthSettings d
                     | _ => AuthSettings_new
                     end
  | Err err => err = ESerialize
      /\ exists ts l x data, settings_points entry ts
           /\ (forall x, settings_reach es ts x -> is_Some (es !! x)) /\ settings_below es root ts l
           /\ x ∈ l /\ Entry_data x SETTINGS = Ok data /\ json_to_doc data = None
  end.

Lemma pinned_tips_pins entry :
  match pinned_tips entry with
  | None => unreadable_metadata entry
  | Some ts => pins entry ts
  end.
Proof.
  unfold pinned_tips, unreadable_metadata, pins. destruct (tn_metadata (e_tree entry)) as [raw|]; [|done].
  destruct (json_to_metadata raw) as [md|] eqn:E; simpl; [by exists md|by exists raw].
Qed.

Lemma effective_points entry ts :
  pins entry ts -> is_nil ts && negb (in_subtree entry SETTINGS) = false ->
  settings_points entry (effective_tips entry ts).
Proof.
  intros Hp Hn. unfold effective_tips. destruct ts as [|t ts]; simpl in *; [|by left].
  apply negb_false_iff in Hn. by right.
Qed.

Lemma merge_settings_docs es doc d :
  merge_settings doc es = Ok d ->
  exists docs, json_to_doc <$> omap settings_data es = Some <$> docs /\ d = foldl Doc_merge doc docs.
Proof.
  revert doc. induction es as [|x es IH]; intros doc; simpl; [intros [= <-]; by exists []|].
  unfold settings_data at 1. destruct (Entry_data x SETTINGS) as [data|]; [|apply IH].
  destruct (json_to_doc data) as [part|] eqn:Ej; simpl; [|done].
  intros (docs & Hd & ->)%IH. exists (part :: docs). simpl. split; [|done]. rewrite Ej. f_equal. exact Hd.
Qed.

Lemma settings_store_at inner root ts :
  ids_ok (entries inner) ->
  exists l, store_at inner root SETTINGS (tips (Snapshot_new ts)) = Some (Ok l)
    /\ settings_below (entries inner) root ts l.
Proof.
  intros Hids. destruct (store_at_walk inner root SETTINGS (tips (Snapshot_new ts)) Hids) as (acc & -> & Hnd & Hin).
  eexists. split; [done|]. unfold settings_below, sort_entries_by_subtree_height.
  split; [by rewrite sort_by_perm|]. split; [apply sort_entries_sorted|]. intros e. rewrite elem_of_sort_by, Hin.
  by setoid_rewrite elem_of_Snapshot_new.
Qed.

Lemma historical_pinned inner root entry :
  ids_ok (entries inner) ->
  exists r, get_historical_settings_for_entry inner root entry = Some r
    /\ settings_pinned (entries inner) root entry r.
Proof.
  intros Hids. unfold get_historical_settings_for_entry. pose proof (pinned_tips_pins entry) as Hp.
  destruct (pinned_tips entry) as [ts|]; [|eexists; split; [done|by left]].
  destruct (is_nil ts && negb (in_subtree entry SETTINGS)) eqn:En.
  { apply andb_true_iff in En as [Hn%is_nil_true Hs%negb_true_iff]. subst ts. eexists. split; [done|by left]. }
  pose proof (effective_points entry ts Hp En) as Hpts. set (eff := effective_tips entry ts) in *.
  destruct (closure_walk inner eff) as (w & -> & Hc). cbn [mbind option_bind].
  destruct w as [p|]; [|destruct Hc as (x & Hx & Hno); eexists; split; [done|right; by exists eff, x]].
  destruct (settings_store_at inner root eff Hids) as (l & -> & Hl). cbn [mbind option_bind result_bind].
  destruct (merge_settings Doc_new l) as [doc|err] eqn:Em; simpl; eexists; (split; [done|]).
  - apply merge_settings_docs in Em as (docs & Hd & ->). right. by exists eff, l, docs.
  - apply merge_settings_err in Em as (-> & x & data & ? & ? & ?). split; [done|]. by exists eff, l, x, data.
Qed.


Lemma historical_total inner root entry :
  ids_ok (entries inner) -> exists r, get_historical_settings_for_entry inner root entry = Some r.
Proof. intros Hids. destruct (historical_pinned inner root entry Hids) as (r & ? & _). by exists r. Qed.

Lemma historical_ext inner inner' root entry :
  entries inner = entries inner' ->
  get_historical_settings_for_entry inner root entry = get_historical_settings_for_entry inner' root entry.
Proof.
  intros He. unfold get_historical_settings_for_entry, store_at, closure_visit, storage_get.
  by rewrite He.
Qed.

(** ** The verdict on one entry *)

Definition failed_parent (inner : InMemoryInner) (p : ID) : bool :=
  bool_decide (status inner p = Some Failed).

Definition pending_parent (inner : InMemoryInner) (p : ID) : bool :=
  match status inner p with Some Verified | Some Failed => false | _ => true end.

Lemma parent_flags_spec inner ps c b :
  parent_flags inner ps c b
  = Ok (c || existsb (failed_parent inner) ps, b || existsb (pending_parent inner) ps).
Proof.
  revert c b. induction ps as [|p ps IH]; intros c b; simpl; [by rewrite !orb_false_r|].
  unfold get_verification_status, failed_parent at 1, pending_parent at 1, status.
  destruct (verification_status inner !! p) as [[]|]; simpl; rewrite IH; simpl;
    by rewrite ?orb_false_r, ?orb_true_r, ?orb_true_l.
Qed.

Lemma existsb_false_elem {A} (f : A -> bool) l :
  existsb f l = false <-> forall x, x ∈ l -> f x = false.
Proof.
  induction l as [|x l IH]; simpl; [set_solver|]. rewrite orb_false_iff, IH. set_solver.
Qed.

Lemma judge_total inner root entry :
  ids_ok (entries inner) -> exists r, judge inner root entry = Some r.
Proof.
  intros Hids. unfold judge. rewrite parent_flags_spec. simpl.
  destruct (existsb _ _); [eauto|]. destruct (existsb _ _); [eauto|].
  destruct (historical_total inner root entry Hids) as [r ->]. simpl.
  destruct r as [[auth|]|]; [|eauto..].
  destruct (validate_entry_cases entry auth (Some inner)) as (b & -> & _). simpl. eauto.
Qed.

(** What each verdict means. *)
Lemma judge_ok inner root entry s :
  judge inner root entry = Some (Ok s) ->
  match s with
  | Verified =>
      (forall p, p ∈ Entry_parents entry -> status inner p = Some Verified)
      /\ exists auth, get_historical_settings_for_entry inner root entry = Some (Ok (Complete auth))
         /\ validate_entry entry auth (Some inner) = Some true
  | Failed =>
      (exists p, p ∈ Entry_parents entry /\ status inner p = Some Failed)
      \/ (forall p, p ∈ Entry_parents entry -> status inner p = Some Verified)
         /\ exists auth, get_historical_settings_for_entry inner root entry = Some (Ok (Complete auth))
            /\ validate_entry entry auth (Some inner) = Some false
  | Unverified =>
      (forall p, p ∈ Entry_parents entry -> status inner p <> Some Failed)
      /\ ((exists p, p ∈ Entry_parents entry /\ status inner p <> Some Verified)
          \/ get_historical_settings_for_entry inner root entry = Some (Ok Incomplete))
  end.
Proof.
  unfold judge. rewrite parent_flags_spec. simpl.
  destruct (existsb (failed_parent inner) (Entry_parents entry)) eqn:Ef.
  { intros [= <-]. left. apply existsb_exists in Ef as (p & Hp%list_elem_of_In & Hf%bool_decide_eq_true).
    by exists p. }
  rewrite existsb_false_elem in Ef.
  assert (forall p, p ∈ Entry_parents entry -> status inner p <> Some Failed) as Hnf.
  { intros p Hp. by apply (bool_decide_eq_false _), Ef. }
  destruct (existsb (pending_parent inner) (Entry_parents entry)) eqn:Eb.
  { intros [= <-]. split; [done|]. left. apply existsb_exists in Eb as (p & Hp%list_elem_of_In & Hf).
    exists p. split; [done|]. unfold pending_parent in Hf. by intros Hv; rewrite Hv in Hf. }
  rewrite existsb_false_elem in Eb.
  assert (forall p, p ∈ Entry_parents entry -> status inner p = Some Verified) as Hv.
  { intros p Hp. specialize (Eb p Hp). specialize (Hnf p Hp). unfold pending_parent in Eb.
    by destruct (status inner p) as [[]|]. }
  destruct (get_historical_settings_for_entry inner root entry) as [[[auth|]|]|]; simpl; [|naive_solver..].
  destruct (validate_entry entry auth (Some inner)) as [[]|] eqn:Eq; intros [= <-]; [|right]; eauto.
Qed.

Lemma judge_err inner root entry e :
  judge inner root entry = Some (Err e) ->
  get_historical_settings_for_entry inner root entry = Some (Err e).
Proof.
  unfold judge. rewrite parent_flags_spec. simpl. destruct (existsb _ _); [done|].
  destruct (existsb _ _); [done|].
  destruct (get_historical_settings_for_entry inner root entry) as [[[auth|]|]|]; simpl; try naive_solver.
  by destruct (validate_entry entry auth (Some inner)).
Qed.

(** ** The loop over the sorted region *)

Definition with_verdict (inner : InMemoryInner) (id : ID) (s : VerificationStatus) : InMemoryInner :=
  with_status inner (<[ id := s ]> (verification_status inner)).

Lemma process_step root unverified id rest inner report any entry s :
  mem_inv inner -> unverified !! id = Some entry -> status inner id = Some Unverified ->
  judge inner root entry = Some (Ok s) ->
  exists inner', process_order root unverified (id :: rest) inner report any
      = process_order root unverified rest inner' (count_status report s) (any || bool_decide (s = Verified))
    /\ mem_inv inner' /\ entries inner' = entries inner /\ status inner' id = Some s
    /\ forall x, x <> id -> status inner' x = status inner x.
Proof.
  intros Hinv Hu Hst Hj. simpl. rewrite Hu, Hj. simpl.
  assert (update_verification_status inner id s = Ok (with_verdict inner id s)) as Hup.
  { unfold update_verification_status. rewrite decide_True; [done|]. unfold status in Hst. by rewrite Hst. }
  destruct (update_status_inv _ _ _ _ Hinv Hup) as (Hinv' & He' & _).
  destruct (decide (s = Unverified)) as [->|Hs].
  - exists inner. rewrite bool_decide_eq_false_2, orb_false_r by done. auto.
  - exists (with_verdict inner id s). unfold status, with_verdict. simpl.
    split; [destruct s; try done; by rewrite Hup|]. split; [done|]. split; [done|].
    rewrite lookup_insert_eq. split; [done|]. intros x Hx. by rewrite lookup_insert_ne.
Qed.

(** Where an error stops the loop: the settings that some entry pins do not
    parse. *)
Definition pin_error (es : gmap ID Entry) (root : ID) (order : list ID) (e : Error) : Prop :=
  exists id entry, id ∈ order /\ es !! id = Some entry /\ settings_pinned es root entry (Err e).

(** The verdict on [entry], taken in a state with the given statuses of
    everything but [later]. *)
Definition judged (inner' : InMemoryInner) (root id : ID) (entry : Entry) (later : list ID) : Prop :=
  exists mid s, mem_inv mid /\ entries mid = entries inner' /\ judge mid root entry = Some (Ok s)
    /\ status inner' id = Some s /\ forall x, x ∉ later -> status mid x = status inner' x.

(** The rule of the pass, on the final statuses of the parents ([inner]) and an
    engine to resolve delegated keys in ([mid]). *)
Definition deserves (inner mid : InMemoryInner) (root : ID) (entry : Entry) (s : VerificationStatus) : Prop :=
  let parents_verified := forall p, p ∈ Entry_parents entry -> status inner p = Some Verified in
  let checked b := exists auth, settings_pinned (entries inner) root entry (Ok (Complete auth))
                     /\ validate_entry entry auth (Some mid) = Some b in
  match s with
  | Verified => parents_verified /\ checked true
  | Failed => (exists p, p ∈ Entry_parents entry /\ status inner p = Some Failed)
              \/ parents_verified /\ checked false
  | Unverified => (forall p, p ∈ Entry_parents entry -> status inner p <> Some Failed)
              /\ ((exists p, p ∈ Entry_parents entry /\ status inner p <> Some Verified)
                  \/ settings_pinned (entries inner) root entry (Ok Incomplete))
  end.

Lemma historical_inv inner root entry r :
  ids_ok (entries inner) -> get_historical_settings_for_entry inner root entry = Some r ->
  settings_pinned (entries inner) root entry r.
Proof. intros Hids E. destruct (historical_pinned inner root entry Hids) as (r' & E' & H). congruence. Qed.

Lemma judge_deserves inner mid root entry s :
  mem_inv mid -> entries mid = entries inner ->
  (forall p, p ∈ Entry_parents entry -> status mid p = status inner p) ->
  judge mid root entry = Some (Ok s) -> deserves inner mid root entry s.
Proof.
  intros Hinv He Hp Hj%judge_ok. unfold deserves. rewrite <- He.
  pose proof (fun r => historical_inv mid root entry r (mi_ids _ Hinv)) as Hh.
  destruct s.
  - destruct Hj as [Hv (auth & Hs%Hh & Hval)]. split; [|by exists auth]. intros p Hin. rewrite <- Hp; auto.
  - destruct Hj as [Hnf Hj]. split; [intros p Hin; rewrite <- Hp; auto|].
    destruct Hj as [(p & Hin & Hv)|Hs%Hh]; [left; exists p; split; [done|by rewrite <- Hp]|by right].
  - destruct Hj as [(p & Hin & Hf)|[Hv (auth & Hs%Hh & Hval)]].
    + left. exists p. split; [done|]. by rewrite <- Hp.
    + right. split; [intros p Hin; rewrite <- Hp; auto|by exists auth].
Qed.

Lemma verdict_closed inner inner1 root tree id entry s :
  verified_closed inner tree -> status inner id = Some Unverified -> entries inner !! id = Some entry ->
  judge inner root entry = Some (Ok s) -> entries inner1 = entries inner ->
  status inner1 id = Some s -> (forall x, x <> id -> status inner1 x = status inner x) ->
  verified_closed inner1 tree.
Proof.
  intros Hcl Hst He Hj He1 Hs1 Hother x e p Hx Hin Hv Hp. rewrite He1 in Hx.
  assert (forall q, status inner q = Some Verified -> status inner1 q = Some Verified) as Hkeep.
  { intros q Hq. rewrite Hother; [done|]. intros ->. congruence. }
  apply Hkeep. destruct (decide (x = id)) as [->|Hne].
  - replace e with entry in Hp by congruence. replace s with Verified in Hj by congruence.
    apply judge_ok in Hj as [Hpar _]. by apply Hpar.
  - rewrite Hother in Hv by done. by eapply Hcl.
Qed.

Lemma process_order_spec root unverified order inner report any :
  mem_inv inner -> NoDup order ->
  (forall id, id ∈ order -> status inner id = Some Unverified
     /\ exists e, unverified !! id = Some e /\ entries inner !! id = Some e) ->
  exists inner' r, process_order root unverified order inner report any = Some (Done (inner', r))
    /\ mem_inv inner' /\ entries inner' = entries inner
    /\ (forall x, x ∉ order -> status inner' x = status inner x)
    /\ (forall tree, verified_closed inner tree -> verified_closed inner' tree)
    /\ match r with
       | Err e => pin_error (entries inner) root order e
       | Ok (report', any') =>
           report' = foldl count_status report (omap (status inner') order)
           /\ any' = any || existsb (fun x => bool_decide (status inner' x = Some Verified)) order
           /\ forall l1 id l2 e, order = l1 ++ id :: l2 -> entries inner !! id = Some e ->
                judged inner' root id e (id :: l2)
       end.
Proof.
  revert inner report any. induction order as [|id rest IH]; intros inner report any Hinv Hnd Hin.
  { exists inner, (Ok (report, any)). rewrite orb_false_r. split; [done|]. do 4 (split; [done|]).
    split; [done|]. split; [done|]. intros [|? ?]; naive_solver. }
  apply NoDup_cons in Hnd as [Hid Hnd].
  destruct (Hin id) as [Hst (entry & Hu & He)]; [set_solver|].
  destruct (judge_total inner root entry (mi_ids _ Hinv)) as [[s|err] Hj].
  2: { exists inner, (Err err). simpl. rewrite Hu, Hj. simpl. split; [done|]. do 4 (split; [done|]).
       exists id, entry. split; [set_solver|]. split; [done|].
       eapply historical_inv; [apply Hinv|by apply judge_err]. }
  destruct (process_step root unverified id rest inner report any entry s)
    as (inner1 & -> & Hinv1 & He1 & Hs1 & Hother); [done..|].
  destruct (IH inner1 (count_status report s) (any || bool_decide (s = Verified)))
    as (inner' & r & -> & Hinv' & He' & Hout & Hcl & Hr); [done..| |].
  { intros x Hx. rewrite He1, Hother by set_solver. apply Hin. set_solver. }
  assert (status inner' id = Some s) as Hs' by (rewrite Hout; done).
  exists inner', r. split; [done|]. split; [done|]. split; [congruence|]. split; [|split].
  - intros x Hx. rewrite Hout, Hother by set_solver. done.
  - intros tree Hclosed. apply Hcl. by eapply verdict_closed.
  - destruct r as [[report' any']|e'].
    + destruct Hr as (-> & -> & Hj'). simpl. rewrite Hs'. simpl. split; [done|].
      split; [by rewrite orb_assoc; destruct s|].
      intros [|y l1] x l2 e Ho Hx; injection Ho as -> Ho.
      * subst l2. replace e with entry by congruence. exists inner, s. split; [done|].
        split; [congruence|]. split; [done|]. split; [done|]. intros y Hy. rewrite Hout, Hother; set_solver.
      * apply (Hj' l1 x l2 e Ho). by rewrite He1.
    + destruct Hr as (x & e0 & Hx & ? & ?). exists x, e0. rewrite <- He1. split; [set_solver|done].
Qed.

(** ** The region *)

Lemma region_next inner x y :
  mem_inv inner -> wstep (region_visit inner) ∅ x y <-> region_edge inner x y.
Proof.
  intros Hinv. unfold wstep, next, region_visit, region_edge, get_verification_status, storage_get, status.
  destruct (verification_status inner !! x) as [[]|] eqn:Es; simpl; try naive_solver set_solver.
  destruct (entries inner !! x) as [e|] eqn:Ee; simpl; [|set_solver].
  split; [intros [_ ?]; split; [done|by exists e]|]. intros (_ & e' & [= <-] & ?). set_solver.
Qed.

Lemma region_visit_ok inner x :
  mem_inv inner -> exists o ps, region_visit inner x = Ok (Some (o, ps))
    /\ forall id e, (id, e) ∈ o <-> id = x /\ status inner x = Some Unverified /\ entries inner !! x = Some e.
Proof.
  intros Hinv. unfold region_visit, get_verification_status, storage_get, status.
  pose proof (mi_status _ Hinv) as Hdom.
  destruct (verification_status inner !! x) as [s|] eqn:Es; simpl.
  2: { exists [], []. split; [done|]. set_solver. }
  assert (is_Some (entries inner !! x)) as [e He].
  { apply elem_of_dom. rewrite <- Hdom. apply elem_of_dom. eauto. }
  destruct s; [exists [], []; split; [done|set_solver]| |exists [], []; split; [done|set_solver]].
  rewrite He. simpl. exists [(x, e)], (Entry_parents e). split; [done|].
  intros id e'. rewrite list_elem_of_singleton. naive_solver.
Qed.

(** The walk collects the region. *)
Lemma region_walk inner queue :
  mem_inv inner ->
  exists seen acc, worklist (region_visit inner) Fifo (traversal_fuel (entries inner) (length queue))
      queue ∅ [] = Some (Ok (seen, acc))
    /\ forall id e, (list_to_map acc : gmap ID Entry) !! id = Some e <->
         (status inner id = Some Unverified
          /\ exists t, t ∈ queue /\ rtc (region_edge inner) t id)
         /\ entries inner !! id = Some e.
Proof.
  intros Hinv. set (visit := region_visit inner).
  destruct (traversal_fuel_enough visit Fifo (entries inner) queue ∅ []) as [r Hr].
  { intros x. unfold visit, next, region_visit, storage_get.
    destruct (get_verification_status inner x) as [[]|]; simpl; [lia| |lia|].
    - destruct (entries inner !! x); simpl; [apply parents_refs|lia].
    - destruct (Error_is_not_found e); simpl; lia. }
  destruct r as [[seen acc]|err].
  2: { apply worklist_err in Hr as (x & _ & _ & Hx).
       destruct (region_visit_ok inner x Hinv) as (o & ps & Hv & _). unfold visit in Hx. congruence. }
  exists seen, acc. split; [done|].
  apply worklist_ok in Hr as (_ & _ & ord & Hnd & Hord & ->). rewrite app_nil_l.
  intros id e. rewrite (collect_lookup (out visit)
    (fun x => if decide (status inner x = Some Unverified) then entries inner !! x else None)).
  2: { intros x y w. destruct (region_visit_ok inner x Hinv) as (o & ps & Hv & Ho).
       unfold out, visit. rewrite Hv, Ho. case_decide; naive_solver. }
  rewrite Hord. unfold wreach, marks, from_queue.
  assert (forall t, rtc (wstep visit ∅) t id <-> rtc (region_edge inner) t id) as Hrtc.
  { intros t. split; induction 1; try apply rtc_refl; (eapply rtc_l; [by apply region_next|done]). }
  destruct (region_visit_ok inner id Hinv) as (o & ps & Hv & _). setoid_rewrite Hrtc.
  split; [intros ((_ & _ & ?) & Hd); by case_decide|]. intros ((Hu & ?) & ?). rewrite decide_True by done.
  split; [|done]. split; [set_solver|]. split; [by exists o, ps|done].
Qed.

Lemma snapshot_status inner root : verification_status (mem_snapshot inner root).1 = verification_status inner.
Proof. unfold mem_snapshot, traversal_snapshot. by destruct (mem_tips inner !! root). Qed.

Lemma snapshot_region inner root id :
  mem_inv inner -> proper_tree (entries inner) root ->
  (status inner id = Some Unverified
   /\ exists t, t ∈ tips (mem_snapshot inner root).2 /\ rtc (region_edge inner) t id)
  <-> in_region inner root id.
Proof.
  intros Hinv Hp. unfold in_region. destruct (traversal_snapshot_inv inner root Hinv) as (_ & _ & Ht).
  cbn [mem_snapshot snd]. setoid_rewrite elem_of_Snapshot_new.
  setoid_rewrite elem_of_elements. by setoid_rewrite (Ht Hp).
Qed.

(** In a topological order, a parent is never at or after its child. *)
Lemma parents_settled (nodes : gmap ID Entry) order l1 id l2 e p :
  topological Entry_parents nodes order -> order = l1 ++ id :: l2 -> nodes !! id = Some e ->
  p ∈ Entry_parents e -> p ∉ id :: l2.
Proof.
  intros Htopo Ho He Hp Hin.
  assert (p ∈ order) as Hpo by (subst order; set_solver).
  assert (p ∈ l1) as Hl1.
  { eapply (topo_first _ _ _ Htopo); [done|done|done|]. by apply (topo_nodes _ _ _ Htopo). }
  pose proof (topo_nodup _ _ _ Htopo) as Hnd. subst order. apply NoDup_app in Hnd as (_ & Hd & _).
  by apply (Hd p).
Qed.

Lemma count_fold l report :
  let n s := length (filter (fun x => x = s) l) in
  foldl count_status report l
  = mkVerifyReport (verified report + n Verified) (failed report + n Failed)
      (still_unverified report + n Unverified).
Proof.
  revert report. induction l as [|s l IH]; intros [v f u]; simpl; [by rewrite !Nat.add_0_r|].
  rewrite IH. rewrite !filter_cons. destruct s; simpl; f_equal; lia.
Qed.

(** The run of the pass: a topological order of the region is processed. *)
Lemma verify_run inner root :
  mem_inv inner -> (forall A (m : gmap ID A), map_iter A m ≡ₚ map_to_list m) ->
  exists (nodes : gmap ID Entry) order inner' r,
    Database_verify map_iter inner root = Some (Done (inner', r))
    /\ topological Entry_parents nodes order
    /\ (forall x e, nodes !! x = Some e <->
         (status inner x = Some Unverified
          /\ exists t, t ∈ tips (mem_snapshot inner root).2 /\ rtc (region_edge inner) t x)
         /\ entries inner !! x = Some e)
    /\ mem_inv inner' /\ entries inner' = entries inner
    /\ (forall x, x ∉ order -> status inner' x = status inner x)
    /\ (forall tree, verified_closed inner tree -> verified_closed inner' tree)
    /\ match r with
       | Err e => pin_error (entries inner) root order e
       | Ok (report, any) =>
           report = foldl count_status VerifyReport_default (omap (status inner') order)
           /\ any = existsb (fun x => bool_decide (status inner' x = Some Verified)) order
           /\ forall l1 id l2 e, order = l1 ++ id :: l2 -> entries inner !! id = Some e ->
                judged inner' root id e (id :: l2)
       end.
Proof.
  intros Hinv Hiter. unfold Database_verify.
  destruct (traversal_snapshot_inv inner root Hinv) as (Hinv1 & He1 & _).
  pose proof (snapshot_status inner root) as Hs1.
  change (traversal_snapshot inner root).1 with (mem_snapshot inner root).1 in Hinv1, He1.
  destruct (mem_snapshot inner root) as [inner1 raw]. cbn [fst snd] in *.
  destruct (region_walk inner1 (tips raw) Hinv1) as (seen & acc & -> & Hmap). cbn [mbind option_bind].
  set (nodes := list_to_map acc : gmap ID Entry) in *. unfold region_edge, status in Hmap.
  rewrite Hs1, He1 in Hmap. fold (status inner) (region_edge inner) in Hmap.
  destruct (kahn_sort_spec Entry_parents map_iter nodes Hiter) as (order & -> & Htopo).
  cbn [mbind option_bind].
  assert (forall x, status inner1 x = status inner x) as Hst by (intros x; unfold status; by rewrite Hs1).
  destruct (process_order_spec root nodes order inner1 VerifyReport_default false)
    as (inner' & r & -> & Hinv' & He' & Hout & Hcl & Hr); [done|apply Htopo| |].
  { intros x Hx. destruct (topo_nodes _ _ _ Htopo x Hx) as [e He].
    pose proof He as [[Hu _] Hx']%Hmap. rewrite Hst, He1. split; [done|]. by exists e. }
  rewrite He1 in He', Hr. exists nodes, order, inner', r. split; [done|]. split; [done|]. split; [done|].
  split; [done|]. split; [done|]. split; [intros x Hx; by rewrite Hout, Hst|]. split; [|done].
  intros tree Hc. apply Hcl. intros x e p. rewrite !Hst, He1. apply Hc.
Qed.

(** What every pass keeps. *)
Lemma verify_keeps inner root :
  mem_inv inner -> (forall A (m : gmap ID A), map_iter A m ≡ₚ map_to_list m) ->
  exists inner' r, Database_verify map_iter inner root = Some (Done (inner', r))
    /\ mem_inv inner' /\ entries inner' = entries inner
    /\ (forall x s, status inner x = Some s -> s <> Unverified -> status inner' x = Some s)
    /\ forall tree, verified_closed inner tree -> verified_closed inner' tree.
Proof.
  intros Hinv Hiter. destruct (verify_run inner root Hinv Hiter)
    as (nodes & order & inner' & r & E & Htopo & Hmap & Hinv' & He' & Hout & Hcl & _).
  exists inner', r. split; [done|]. split; [done|]. split; [done|]. split; [|done].
  intros x s Hs Hne. rewrite Hout; [done|]. intros Hx.
  apply (topo_nodes _ _ _ Htopo) in Hx as [e [[Hu _] _]%Hmap]. congruence.
Qed.

(** C2: The verification pass of a tree ends without panicking.  It changes no
    entry and no settled status, touches only the unverified region that
    hangs from the tips, and keeps the verified set closed under ancestors.
    If it completes, an entry of the region that ends [Verified] has verified
    parents and a signature that is valid under the settings it pins; one that
    ends [Failed] has a failed parent, or verified parents and a signature
    that is not valid under those settings; and one that is left [Unverified]
    has no failed parent, but one that is not verified or pinned settings that are
    incomplete.  The report counts those verdicts, and the pass stops early only
    when the settings that some entry of the region pins do not parse.
    Assumed: the invariant of the backend, a root ID that is not the
    ID of an entry of another tree ([proper_tree]), a history without cycles, and that iterating a map yields
    its entries in some order. *)
Theorem verify_spec inner root :
  mem_inv inner -> proper_tree (entries inner) root -> acyclic_history (entries inner) ->
  (forall A (m : gmap ID A), map_iter A m ≡ₚ map_to_list m) ->
  exists inner' r, Database_verify map_iter inner root = Some (Done (inner', r))
    /\ mem_inv inner' /\ entries inner' = entries inner
    /\ (forall x, ~ in_region inner root x -> status inner' x = status inner x)
    /\ (forall tree, verified_closed inner tree -> verified_closed inner' tree)
    /\ exists region, NoDup region /\ (forall x, x ∈ region <-> in_region inner root x)
       /\ match r with
          | Err e => pin_error (entries inner) root region e
          | Ok (report, any_promoted) =>
              (forall x e, x ∈ region -> entries inner !! x = Some e ->
                 exists mid s, mem_inv mid /\ entries mid = entries inner
                   /\ status inner' x = Some s /\ deserves inner' mid root e s)
              /\ let n s := length (filter (fun x => x = s) (omap (status inner') region)) in
                 report = mkVerifyReport (n Verified) (n Failed) (n Unverified)
              /\ any_promoted = existsb (fun x => bool_decide (status inner' x = Some Verified)) region
          end.
Proof.
  intros Hinv Hp [rank Hrank] Hiter.
  destruct (verify_run inner root Hinv Hiter)
    as (nodes & order & inner' & r & E & Htopo & Hmap & Hinv' & He' & Hout & Hcl & Hr).
  assert (forall x e, nodes !! x = Some e <-> in_region inner root x /\ entries inner !! x = Some e)
    as Hnodes by (intros x e; rewrite Hmap, snapshot_region; done).
  assert (forall x, x ∈ order <-> in_region inner root x) as Horder.
  { intros x. rewrite (topological_complete Entry_parents rank nodes order); [|..|done].
    - split; [intros [e He]; by apply Hnodes in He as [? _]|]. intros Hx. pose proof Hx as [Hu _].
      assert (is_Some (entries inner !! x)) as [e He].
      { apply elem_of_dom. rewrite <- (mi_status _ Hinv). apply elem_of_dom. unfold status in Hu. eauto. }
      exists e. by apply Hnodes.
    - intros y v p [_ Hy]%Hnodes Hpar _. apply Hrank. by exists v. }
  exists inner', r. split; [done|]. split; [done|]. split; [done|]. split; [|split; [done|]].
  - intros x Hx. apply Hout. by rewrite Horder.
  - exists order. split; [apply Htopo|]. split; [done|].
    destruct r as [[report any]|e]; [|done]. destruct Hr as (-> & -> & Hj). split; [|split; [|done]].
    + intros x e Hx He. apply list_elem_of_split in Hx as (l1 & l2 & Ho).
      destruct (Hj l1 x l2 e Ho He) as (mid & s & Hmi & Hm & Hjm & Hsx & Hmid).
      exists mid, s. split; [done|]. split; [congruence|]. split; [done|].
      apply judge_deserves; [done..| |done]. intros p Hpar. apply Hmid. apply (parents_settled nodes order l1 x l2 e); [done..| |done]. apply Hnodes.
      split; [|done]. apply Horder. rewrite Ho. set_solver.
    + by rewrite count_fold.
Qed.
End verify_facts.

(** ** Concrete passes *)

#[local] Existing Instance nat_cid.
#[local] Existing Instance byte_crypto.

(** The metadata bytes of a test entry: the entry's own number, then the numbers
    of the settings tips it pins. *)
Definition demo_json (CD : CodecSpec) : JsonSpec (CD := CD) := {|
  json_to_metadata b :=
    match b with
    | _ :: pins => Some (mkEntryMetadata
        (Snapshot_new ((fun x => demo_id (N.to_nat (Byte.to_N x))) <$> pins)) None)
    | [] => None
    end;
  metadata_to_json md := [];
  doc_to_json _ := [];
|}.

Definition list_iter `{CS : CidSpec} (A : Type) (m : gmap ID A) : list (ID * A) := map_to_list m.

Section demo_pass.
#[local] Existing Instance demo_codec.
#[local] Existing Instance demo_instance.
#[local] Instance demo_pass_json : JsonSpec := demo_json demo_codec.

Lemma demo_acyclic_history : acyclic_history (entries demo_mem).
Proof.
  apply (heights_acyclic Entry_height). intros x y e e' (e0 & He0 & _ & Hy) He He'. rewrite He in He0. injection He0 as <-.
    apply demo_lookup in He as [[_ ->]|[[_ ->]|[_ ->]]]; simpl in Hy; [set_solver| |];
      apply list_elem_of_singleton in Hy as ->;
      apply demo_lookup in He' as [[_ ->]|[[? _]|[? _]]]; done.
Qed.

Lemma verify_spec_witness :
  exists inner' r, Database_verify list_iter demo_mem (demo_id 1) = Some (Done (inner', r))
    /\ verified_closed inner' (demo_id 1) /\ r = Ok (mkVerifyReport 3 0 0, true).
Proof.
  destruct (verify_spec list_iter demo_mem (demo_id 1) demo_mem_inv demo_proper demo_acyclic_history
    (fun A m => Permutation_refl _)) as (inner' & r & E & _ & _ & _ & Hcl & _).
  exists inner', r. split; [exact E|]. split.
  - apply Hcl. intros id e p He _ Hs _. exfalso. unfold status in Hs.
    apply demo_lookup in He as [[-> _]|[[-> _]|[-> _]]]; vm_compute in Hs; discriminate Hs.
  - assert (match Database_verify list_iter demo_mem (demo_id 1) with
            | Some (Done (_, r)) => r = Ok (mkVerifyReport 3 0 0, true) | _ => False end) as H
      by (vm_compute; reflexivity).
    rewrite E in H. exact H.
Defined.

End demo_pass.
