(* ===== verification/VerifyCases.v ===== *)
(** * Verification: cases where the pass does not do what it should

    Concrete runs of [Database::verify] (database/mod.rs) that end with an
    entry in a state its documentation excludes. *)

From S2P Require Import Prelude.
From S2P Require Import Worklist.
From S2P Require Import Kahn.
From S2P Require Import Path.
From S2P Require Import Position.
From S2P Require Import Ids.
From S2P Require Import Doc.
From S2P Require Import DocPath.
From S2P Require Import Errors.
From S2P Require Import Crypto.
From S2P Require Import Permission.
From S2P Require Import AuthTypes.
From S2P Require Import AuthSettings.
From S2P Require Import Entry.
From S2P Require Import Backend.
From S2P Require Import Traversal.
From S2P Require Import StoreTips.
From S2P Require Import Reachability.
From S2P Require Import Validation.
From S2P Require Import Verify.

#[local] Existing Instance nat_cid.
#[local] Existing Instance byte_crypto.

(** The backend after storing the entries with the given statuses. *)
Definition store_all `{CD : CodecSpec} (l : list (Entry * VerificationStatus)) (inner : InMemoryInner) :
    InMemoryInner :=
  foldl (fun inner p => with_verdict (storage_put inner p.1) (Entry_id p.1) p.2) inner l.

(** The state after a pass on the tree of entry 1. *)
Definition pass `{IS : InstanceSpec} `{JS : !JsonSpec} (inner : InMemoryInner) (root : ID) :
    option InMemoryInner :=
  match Database_verify list_iter inner root with
  | Some (Done (inner', Ok _)) => Some inner'
  | _ => None
  end.

Definition case_root : Entry :=
  mkEntry 0 (mkTreeNode None [] (Some [Byte.x01]) 0) [mkSubTreeNode ROOT [] None None] SigInfo_default.

Definition case_node (metadata : Bytes) (height : Z) (parents : list ID) (subtrees : list SubTreeNode)
    (sig : SigInfo) : Entry :=
  mkEntry 0 (mkTreeNode (Some (demo_id 1)) parents (Some metadata) height) subtrees sig.

(** ** An unverified entry behind a failed one *)

Section stranded.
#[local] Existing Instance demo_codec.
#[local] Existing Instance demo_instance.
#[local] Instance stranded_json : JsonSpec := demo_json demo_codec.

(** Entry 2 is signed although no key is configured, entry 3 pins the settings
    entry 9, which has not arrived, and entry 4 merges the two. *)
Definition stranded_bad : Entry :=
  case_node [Byte.x02] 1 [demo_id 1] [] (mkSigInfo (Some EmptyString) (SigKey_from_pubkey demo_pk)).
Definition stranded_good : Entry := case_node [Byte.x03; Byte.x09] 1 [demo_id 1] [] SigInfo_default.
Definition stranded_merge : Entry := case_node [Byte.x04] 2 [demo_id 2; demo_id 3] [] SigInfo_default.
Definition stranded_pin : Entry := case_node [Byte.x09] 1 [demo_id 1] [] SigInfo_default.

Definition stranded_mem : InMemoryInner :=
  store_all [(case_root, Unverified); (stranded_bad, Unverified); (stranded_good, Unverified);
             (stranded_merge, Unverified)] InMemory_new.

(** After the first pass the merge entry is failed, because of entry 2, and
    entry 3 waits for its pinned settings.  The settings arrive, entry 3 would
    now be verified, and the next pass no longer reaches it: the walk stops at
    the failed tip, and entry 3 stays unverified. *)
Theorem verify_strands_below_failed :
  match pass stranded_mem (demo_id 1) with
  | None => False
  | Some first =>
      status first (demo_id 3) = Some Unverified
      /\ match pass (storage_put first stranded_pin) (demo_id 1) with
         | None => False
         | Some second =>
             judge second (demo_id 1) stranded_good = Some (Ok Verified)
             /\ status second (demo_id 3) = Some Unverified
         end
  end.
Proof. vm_compute. repeat split. Qed.
End stranded.

(** ** One entry whose settings do not parse *)

Section poisoned.
(** As the demo codec, but the byte [ff] is not JSON. *)
Definition strict_codec : CodecSpec := {|
  to_dagcbor e := default [] (tn_metadata (e_tree e));
  blake3_dagcbor_cid b := match b with x :: _ => N.to_nat (Byte.to_N x) | [] => 0%nat end : @Cid nat_cid;
  json_to_doc b := match b with [Byte.xff] => None | _ => Some Doc_new end;
|}.

#[local] Existing Instance strict_codec.

Definition strict_instance : InstanceSpec := {|
  Database := unit;
  PinnedTransaction := unit;
  SettingsStore := unit;
  Database_open _ _ := Ok tt;
  new_transaction_at _ _ := Ok tt;
  get_settings _ := Ok tt;
  auth_snapshot _ := Ok AuthSettings_new;
|}.

#[local] Existing Instance strict_instance.
#[local] Instance poisoned_json : JsonSpec := demo_json strict_codec.

Definition poisoned_entry : Entry :=
  case_node [Byte.x03] 1 [demo_id 1] [mkSubTreeNode SETTINGS [] (Some [Byte.xff]) None] SigInfo_default.
Definition poisoned_sibling : Entry := case_node [Byte.x02] 1 [demo_id 1] [] SigInfo_default.

Definition poisoned_mem : InMemoryInner :=
  store_all [(case_root, Verified); (poisoned_entry, Unverified); (poisoned_sibling, Unverified)]
    InMemory_new.

(** An entry that carries settings that do not parse is not marked as failed:
    the pass ends with an error.  Its sibling, which alone would be verified,
    stays unverified; nothing has changed, so every later pass ends the same
    way. *)
Theorem verify_blocked_by_unparsable_settings :
  Entry_validate poisoned_entry = Ok tt
  /\ judge poisoned_mem (demo_id 1) poisoned_sibling = Some (Ok Verified)
  /\ match Database_verify list_iter poisoned_mem (demo_id 1) with
     | Some (Done (inner', r)) =>
         r = Err ESerialize /\ status inner' (demo_id 2) = Some Unverified
         /\ status inner' (demo_id 3) = Some Unverified
     | _ => False
     end.
Proof. vm_compute. repeat split. Qed.
End poisoned.

(** ** A delegation whose tree is not synced yet *)

Section unsynced.
(** Every settings document configures the demo key and the delegation to the
    demo tree. *)
Definition delegating_codec : CodecSpec := {|
  to_dagcbor e := default [] (tn_metadata (e_tree e));
  blake3_dagcbor_cid b := match b with x :: _ => N.to_nat (Byte.to_N x) | [] => 0%nat end : @Cid nat_cid;
  json_to_doc _ := Some (with_child Doc_new "auth" (VDoc (inner demo_parent)));
|}.

#[local] Existing Instance delegating_codec.

Definition delegating_instance : InstanceSpec := {|
  Database := unit;
  PinnedTransaction := unit;
  SettingsStore := unit;
  Database_open _ _ := Ok tt;
  new_transaction_at _ _ := Ok tt;
  get_settings _ := Ok tt;
  auth_snapshot _ := Ok demo_settings;
|}.

#[local] Existing Instance delegating_instance.
#[local] Instance unsynced_json : JsonSpec := demo_json delegating_codec.

Definition delegating_root : Entry :=
  mkEntry 0 (mkTreeNode None [] (Some [Byte.x01]) 0)
    [mkSubTreeNode ROOT [] None None; mkSubTreeNode SETTINGS [] (Some []) None] SigInfo_default.

(** Entry 2 pins the settings of the root and is signed through the delegated
    tree at its tip 5. *)
Definition delegated_sig : SigInfo :=
  mkSigInfo None (Delegation [mkDelegationStep demo_tree [demo_id 5]] (KeyHint_from_pubkey demo_pk)).
Definition delegated_entry : Entry :=
  let e := case_node [Byte.x02; Byte.x01] 1 [demo_id 1] [] delegated_sig in
  with_signature e (sign_entry e (Ed25519Private (KS := byte_crypto) Byte.x07)).

(** The delegated tree: its root 4, and its tip 5. *)
Definition delegated_root : Entry :=
  mkEntry 0 (mkTreeNode None [] (Some [Byte.x04]) 0) [mkSubTreeNode ROOT [] None None] SigInfo_default.
Definition delegated_tip : Entry :=
  mkEntry 0 (mkTreeNode (Some demo_tree) [demo_tree] (Some [Byte.x05]) 1) [] SigInfo_default.

Definition unsynced_mem : InMemoryInner :=
  store_all [(delegating_root, Verified); (delegated_entry, Unverified); (delegated_root, Verified)]
    InMemory_new.

(** The tip of the delegated tree is missing, so the delegation cannot be
    decided, and resolution reports it as unsynced; the pass nevertheless marks
    the entry as failed.  After the tip arrives the entry is valid, and the next
    pass leaves it failed. *)
Theorem verify_fails_unsynced_delegation :
  resolve_sig_key (sig_key (e_sig delegated_entry)) demo_parent (Some unsynced_mem)
    = Some (Err (EAuth (DelegatedTreeUnsynced demo_tree [demo_id 5])))
  /\ match pass unsynced_mem (demo_id 1) with
     | None => False
     | Some first =>
         status first (demo_id 2) = Some Failed
         /\ let synced := storage_put first delegated_tip in
            judge synced (demo_id 1) delegated_entry = Some (Ok Verified)
            /\ match pass synced (demo_id 1) with
               | None => False
               | Some second => status second (demo_id 2) = Some Failed
               end
     end.
Proof. vm_compute. repeat split. Qed.
End unsynced.
