(* ===== verification/IdsAdded.v ===== *)
(** * Entries added between two snapshots (database/mod.rs)

    [Database::ids_added]: the guard against a backward bracket, the walk from
    the later tips to the earlier ones, and the topological sort.  Shown here:
    it ends without panicking, lists exactly the entries above the earlier tips,
    parents first, and misses no new entry unless the guard applies; and a fork
    on which the guard does lose new entries. *)

From S2P Require Import Prelude.
From S2P Require Import Worklist.
From S2P Require Import Kahn.
From S2P Require Import Path.
From S2P Require Import Position.
From S2P Require Import Ids.
From S2P Require Import Doc.
From S2P Require Import DocPath.
From S2P Require Import Errors.
From S2P Require Import Crypto.
From S2P Require Import Permission.
From S2P Require Import AuthTypes.
From S2P Require Import AuthSettings.
From S2P Require Import Entry.
From S2P Require Import Backend.
From S2P Require Import Traversal.
From S2P Require Import StoreTips.
From S2P Require Import Reachability.
From S2P Require Import Validation.
From S2P Require Import Verify.

Section ids_added.
Context `{CD : CodecSpec}.
(** The orders in which a hash set and a hash map are iterated. *)
Context (iter : gset ID -> list ID) (map_iter : forall A : Type, gmap ID A -> list (ID * A)).

(** The heights of all the entries, or [None] at the first that is missing. *)
Fixpoint resolve_heights (inner : InMemoryInner) (ids : list ID) : option (list Z) :=
  match ids with
  | [] => Some []
  | id :: rest =>
      match storage_get inner id with
      | Ok e => cons (Entry_height e) <$> resolve_heights inner rest
      | Err _ => None
      end
  end.

(** [best.map_or(h, |b| pick(b, h))] over the heights. *)
Definition extreme (pick : Z -> Z -> Z) (hs : list Z) : option Z :=
  foldl (fun best h => Some (match best with Some b => pick b h | None => h end)) None hs.

(** The earlier tips are all strictly higher than the later ones. *)
Definition backward_bracket (inner : InMemoryInner) (boundary : gset ID) (post : Snapshot) : bool :=
  if decide (boundary = ∅) then false
  else match resolve_heights inner (tips post), resolve_heights inner (iter boundary) with
       | Some post_heights, Some prev_heights =>
           match extreme Z.max post_heights, extreme Z.min prev_heights with
           | Some post_h, Some prev_h => post_h <? prev_h
           | _, _ => false
           end
       | _, _ => false
       end.

Definition added_visit (inner : InMemoryInner) (id : ID) :
    Result (option (list (ID * Entry) * list ID)) Error :=
  let? entry := storage_get inner id in Ok (Some ([(id, entry)], Entry_parents entry)).

(** [boundary.contains(&id)] skips an ID, as if it had been visited. *)
Definition ids_added (inner : InMemoryInner) (previous_tips post_tips : Snapshot) :
    option (Outcome (Result (list ID) Error)) :=
  if decide (previous_tips = post_tips) then Some (Done (Ok []))
  else
    let boundary : gset ID := list_to_set (tips previous_tips) in
    if backward_bracket inner boundary post_tips then Some (Done (Ok []))
    else
      r ← worklist (added_visit inner) Fifo
            (traversal_fuel (entries inner) (length (tips post_tips))) (tips post_tips) boundary [];
      match r with
      | Err e => Some (Done (Err e))
      | Ok (_, acc) =>
          o ← kahn_sort Entry_parents map_iter (list_to_map acc : gmap ID Entry);
          Some (let! order := o in Done (Ok order))
      end.

(** ** Which entries are new *)

Definition history_edge (es : gmap ID Entry) (x y : ID) : Prop :=
  exists e, es !! x = Some e /\ y ∈ Entry_parents e.

(** Reached from the later tips before the walk meets an earlier one. *)
Definition new_since (es : gmap ID Entry) (prev post : list ID) (x : ID) : Prop :=
  x ∉ prev /\ exists q, q ∈ post /\ rtc (fun a b => a ∉ prev /\ history_edge es a b) q x.

Definition at_or_below (es : gmap ID Entry) (tips : list ID) (x : ID) : Prop :=
  exists t, t ∈ tips /\ rtc (history_edge es) t x.

(** What lies below the later tips and not below the earlier ones is new. *)
Lemma new_since_complete es prev post x :
  at_or_below es post x -> ~ at_or_below es prev x -> new_since es prev post x.
Proof.
  intros (q & Hq & Hr) Hn.
  assert (forall a, rtc (history_edge es) a x -> a ∉ prev) as Ha.
  { intros a Hr' Hp. apply Hn. by exists a. }
  split; [apply Ha, rtc_refl|]. exists q. split; [done|].
  clear Hq. induction Hr as [|a b c Hab Hbc IH]; [apply rtc_refl|].
  eapply rtc_l; [split; [by apply Ha; eapply rtc_l|done]|by apply IH].
Qed.

Lemma added_walk inner (B : gset ID) queue :
  exists r, worklist (added_visit inner) Fifo (traversal_fuel (entries inner) (length queue)) queue B []
      = Some r
    /\ let reached x := x ∉ B /\ exists q, q ∈ queue
           /\ rtc (fun a b => a ∉ B /\ history_edge (entries inner) a b) q x in
       match r with
       | Err e => exists x, reached x /\ entries inner !! x = None /\ e = EBackend (EntryNotFound x)
       | Ok (_, acc) => forall x e, (list_to_map acc : gmap ID Entry) !! x = Some e
           <-> reached x /\ entries inner !! x = Some e
       end
    /\ (is_ok r = true -> forall x, reached x -> is_Some (entries inner !! x)).
Proof.
  set (visit := added_visit inner).
  destruct (traversal_fuel_enough visit Fifo (entries inner) queue B []) as [r Hr].
  { intros x. unfold visit, next, added_visit, storage_get.
    destruct (entries inner !! x); simpl; [apply parents_refs|lia]. }
  exists r. split; [done|].
  assert (forall x, from_queue visit B queue x <-> exists q, q ∈ queue
    /\ rtc (fun a b => a ∉ B /\ history_edge (entries inner) a b) q x) as Hfrom.
  { intros x. assert (forall a b, wstep visit B a b <-> a ∉ B /\ history_edge (entries inner) a b) as Hs.
    { intros a b. unfold wstep, history_edge, next, visit, added_visit, storage_get.
      destruct (entries inner !! a) as [e|]; simpl; [|set_solver].
      split; [intros []; eauto|]. intros (? & e' & [= <-] & ?). done. }
    split; intros (q & Hq & Hrt); exists q; (split; [done|]); clear Hq;
      (induction Hrt as [|a b c Hab _ IH]; [apply rtc_refl|eapply rtc_l; [by apply Hs|done]]). }
  destruct r as [[seen acc]|err]; cbn zeta.
  2: { split; [|done]. apply worklist_err in Hr as (x & HxB & Hx%Hfrom & Hv). exists x.
       unfold visit, added_visit, storage_get in Hv.
       destruct (entries inner !! x); simpl in Hv; [done|]. injection Hv as <-. done. }
  apply worklist_ok in Hr as (_ & Herr & ord & Hnd & Hord & ->). rewrite app_nil_l.
  assert (forall x, x ∉ B -> from_queue visit B queue x -> is_Some (entries inner !! x)) as Hsome.
  { intros x HxB Hx. specialize (Herr x (EBackend (EntryNotFound x)) HxB Hx).
    unfold visit, added_visit, storage_get in Herr. by destruct (entries inner !! x); [eauto|]. }
  split; [|by intros _ x [? ?%Hfrom]; apply Hsome].
  intros x e. rewrite (collect_lookup (out visit) (fun x => entries inner !! x)).
  2: { intros a b w. unfold out, visit, added_visit, storage_get.
       destruct (entries inner !! a); simpl; [|set_solver]. rewrite list_elem_of_singleton. naive_solver. }
  rewrite Hord. unfold wreach. unfold from_queue in Hfrom. rewrite Hfrom.
  split; [tauto|]. intros [[HxB Hx] He].
  split; [|done]. split; [done|]. split; [|done].
  unfold marks, visit, added_visit, storage_get. rewrite He. simpl. eauto.
Qed.

(** *** The backward bracket, by the heights of the tips *)

(** All the tips are stored, there are some on both sides, and every earlier tip
    is higher than every later one. *)
Definition moved_back (es : gmap ID Entry) (prev post : list ID) : Prop :=
  prev <> [] /\ post <> [] /\ (forall t, t ∈ prev ++ post -> is_Some (es !! t))
  /\ forall p q ep eq, p ∈ prev -> q ∈ post -> es !! p = Some ep -> es !! q = Some eq ->
       Entry_height eq < Entry_height ep.

Lemma resolve_heights_spec inner ids :
  match resolve_heights inner ids with
  | Some hs => (forall t, t ∈ ids -> is_Some (entries inner !! t))
      /\ forall h, h ∈ hs <-> exists t e, t ∈ ids /\ entries inner !! t = Some e /\ h = Entry_height e
  | None => exists t, t ∈ ids /\ entries inner !! t = None
  end.
Proof.
  induction ids as [|t ids IH]; cbn [resolve_heights]; [split; [set_solver|]; intros h; set_solver|].
  unfold storage_get. destruct (entries inner !! t) as [e|] eqn:E; cbn [ok_or]; [|exists t; set_solver].
  destruct (resolve_heights inner ids) as [hs|]; simpl; [|destruct IH as (x & ? & ?); exists x; set_solver].
  destruct IH as [H1 H2]. split.
  - intros x [->|Hx]%elem_of_cons; eauto.
  - intros h. rewrite elem_of_cons, H2. split.
    + intros [->|(x & ex & ? & ? & ?)]; [exists t, e|exists x, ex]; set_solver.
    + intros (x & ex & [->|Hx]%elem_of_cons & He & ->); [left; congruence|right; eauto].
Qed.

Lemma extreme_spec (R : Z -> Z -> Prop) `{!PreOrder R} pick hs :
  (forall a b, R a (pick a b) /\ R b (pick a b)) -> (forall a b, pick a b = a \/ pick a b = b) ->
  match extreme pick hs with
  | Some m => m ∈ hs /\ forall h, h ∈ hs -> R h m
  | None => hs = []
  end.
Proof.
  intros Hle Hor. unfold extreme. destruct hs as [|h0 hs]; [done|]. simpl.
  assert (forall l b, exists m, foldl (fun best h => Some (match best with Some b => pick b h | None => h end)) (Some b) l
    = Some m /\ (m = b \/ m ∈ l) /\ R b m /\ forall h, h ∈ l -> R h m) as Hf.
  { induction l as [|h l IH]; intros b; simpl; [exists b; split; [done|]; set_solver|].
    destruct (IH (pick b h)) as (m & -> & Hm & Hb & Hall). destruct (Hle b h) as [Hb' Hh]. exists m. split; [done|].
    split; [destruct Hm as [->|?]; [destruct (Hor b h) as [->| ->]; [by left|right; by left]|right; by right]|].
    split; [by etrans|]. intros x [->|Hx]%elem_of_cons; [by etrans|by apply Hall]. }
  destruct (Hf hs h0) as (m & -> & Hm & Hb & Hall). split; [destruct Hm as [->|?]; [by left|by right]|].
  intros h [->|Hx]%elem_of_cons; [done|by apply Hall].
Qed.

Lemma extreme_max hs :
  match extreme Z.max hs with Some m => m ∈ hs /\ forall h, h ∈ hs -> h <= m | None => hs = [] end.
Proof. apply (extreme_spec Z.le); intros a b; lia. Qed.

Lemma extreme_min hs :
  match extreme Z.min hs with Some m => m ∈ hs /\ forall h, h ∈ hs -> m <= h | None => hs = [] end.
Proof.
  assert (PreOrder (fun a b : Z => b <= a)) by (split; [intros ?; lia|intros ? ? ? ? ?; lia]).
  apply (extreme_spec (fun a b => b <= a)); intros a b; lia.
Qed.

Lemma backward_bracket_iff inner prev post :
  (forall s, iter s ≡ₚ elements s) ->
  backward_bracket inner (list_to_set prev) post = true <-> moved_back (entries inner) prev (tips post).
Proof.
  intros Hiter. unfold backward_bracket, moved_back. case_decide as Hd.
  { split; [done|]. intros (Hne & _). destruct Hne. destruct prev as [|t prev]; [done|]. set_solver. }
  assert (prev <> []) as Hne by (by intros ->).
  set (B := iter (list_to_set prev)). assert (forall t, t ∈ B <-> t ∈ prev) as HB.
  { intros t. unfold B. by rewrite Hiter, elem_of_elements, elem_of_list_to_set. }
  pose proof (resolve_heights_spec inner (tips post)) as Hq. pose proof (resolve_heights_spec inner B) as Hp.
  setoid_rewrite elem_of_app.
  destruct (resolve_heights inner (tips post)) as [qs|]; [|destruct Hq as (t & ? & ?); split; [done|]; intros (_ & _ & Hall & _);
    destruct (Hall t); [by right|congruence]].
  destruct (resolve_heights inner B) as [ps|]; [|destruct Hp as (t & Ht%HB & ?); split; [done|]; intros (_ & _ & Hall & _);
    destruct (Hall t); [by left|congruence]].
  destruct Hq as [Hqs Hq], Hp as [Hps Hp]. pose proof (extreme_max qs) as Hm. pose proof (extreme_min ps) as Hn.
  destruct (extreme Z.max qs) as [m|].
  2: { split; [done|]. intros (_ & Hpost & Hall & _). destruct (tips post) as [|t l]; [done|].
       destruct (Hall t) as [e He]; [set_solver|]. assert (Entry_height e ∈ qs) by (apply Hq; exists t, e; set_solver). set_solver. }
  destruct (extreme Z.min ps) as [n|].
  2: { exfalso. destruct prev as [|t l]; [done|]. destruct (Hps t) as [e He]; [apply HB; by left|].
       assert (Entry_height e ∈ ps) by (apply Hp; exists t, e; split; [apply HB; by left|done]). set_solver. }
  destruct Hm as [Hm1 Hm2], Hn as [Hn1 Hn2]. rewrite Z.ltb_lt. split.
  - intros Hlt. split; [done|]. split; [apply Hq in Hm1 as (t & e & Ht & _); by intros E; rewrite E in Ht; apply not_elem_of_nil in Ht|].
    split; [intros t [Ht|Ht]; [by apply Hps, HB|by apply Hqs]|]. intros p q ep eq Hpp Hqq Hep Heq.
    assert (Entry_height eq <= m) by (apply Hm2, Hq; eauto). assert (n <= Entry_height ep); [|lia].
    apply Hn2, Hp. exists p, ep. by rewrite HB.
  - intros (_ & _ & _ & Hall). apply Hq in Hm1 as (q & eq & ? & ? & ->). apply Hp in Hn1 as (p & ep & Hpp%HB & ? & ->). by eapply Hall.
Qed.

(** Without the two shortcuts: the walk from the later tips. *)
Lemma ids_added_walk inner prev post :
  acyclic_history (entries inner) ->
  (forall A (m : gmap ID A), map_iter A m ≡ₚ map_to_list m) ->
  prev <> post -> backward_bracket inner (list_to_set (tips prev)) post = false ->
  let es := entries inner in
  match ids_added inner prev post with
  | None | Some Panic => False
  | Some (Done (Err e)) =>
      exists x, new_since es (tips prev) (tips post) x /\ es !! x = None
        /\ e = EBackend (EntryNotFound x)
  | Some (Done (Ok order)) =>
      NoDup order
      /\ (forall x, x ∈ order <-> new_since es (tips prev) (tips post) x)
      /\ (forall l1 x l2 e p, order = l1 ++ x :: l2 -> es !! x = Some e ->
            p ∈ Entry_parents e -> p ∈ order -> p ∈ l1)
      /\ forall x, at_or_below es (tips post) x -> ~ at_or_below es (tips prev) x -> x ∈ order
  end.
Proof.
  intros [rank Hrank] Hiter Hne Eb es. unfold ids_added. rewrite decide_False by done.
  set (B := list_to_set (tips prev) : gset ID) in *. rewrite Eb.
  destruct (added_walk inner B (tips post)) as (r & -> & Hr & Hpresent). cbn [mbind option_bind].
  assert (forall x, (x ∉ B /\ exists q, q ∈ tips post
    /\ rtc (fun a b => a ∉ B /\ history_edge (entries inner) a b) q x)
    <-> new_since es (tips prev) (tips post) x) as Hnew.
  { intros x. unfold new_since, B. rewrite elem_of_list_to_set.
    assert (forall q, rtc (fun a b => a ∉ (list_to_set (tips prev) : gset ID) /\ history_edge (entries inner) a b) q x
      <-> rtc (fun a b => a ∉ tips prev /\ history_edge es a b) q x) as Hrt.
    { intros q. split; (induction 1 as [|a b c [Ha ?] ? IH]; [apply rtc_refl|]);
        (eapply rtc_l; [|apply IH]); rewrite elem_of_list_to_set in *; done. }
    by setoid_rewrite Hrt. }
  destruct r as [[seen acc]|e]; cbn zeta in Hr, Hpresent.
  2: { destruct Hr as (x & Hx%Hnew & Hno & ->). by exists x. }
  set (nodes := list_to_map acc : gmap ID Entry) in *.
  destruct (kahn_sort_spec Entry_parents map_iter nodes Hiter) as (order & -> & Htopo).
  cbn [mbind option_bind outcome_bind].
  assert (forall x, x ∈ order <-> new_since es (tips prev) (tips post) x) as Horder.
  { intros x. rewrite (topological_complete Entry_parents rank nodes order); [|..|done].
    - rewrite <- Hnew. split; [intros [e He]; by apply Hr in He as [? _]|]. intros Hx.
      destruct (Hpresent eq_refl x Hx) as [e He]. exists e. by apply Hr.
    - intros y v p [_ Hy]%Hr Hpar _. apply Hrank. by exists v. }
  split; [apply Htopo|]. split; [done|]. split.
  - intros l1 x l2 e p Ho He Hp Hpo. apply (topo_first _ _ _ Htopo l1 x l2 e p Ho); [|done|].
    + apply Hr. split; [|done]. apply Hnew, Horder. rewrite Ho. set_solver.
    + by apply (topo_nodes _ _ _ Htopo).
  - intros x Hpost Hprev. by apply Horder, new_since_complete.
Qed.

(** C32: [ids_added] ends without panicking.  When the two snapshots are equal, or
    when all their tips are stored and every earlier tip is higher than every
    later one, it returns nothing.  Otherwise it returns exactly the entries
    reached from the later tips before an earlier one is met, each once and
    after its parents, and no entry that is below the later and not below the
    earlier tips is left out; and it fails only when such an entry is missing
    locally.  Assumed: a history without cycles, and that iterating a set or a
    map yields its elements in some order. *)
Theorem ids_added_spec inner prev post :
  acyclic_history (entries inner) -> (forall s, iter s ≡ₚ elements s) ->
  (forall A (m : gmap ID A), map_iter A m ≡ₚ map_to_list m) ->
  let es := entries inner in
  let shortcut := prev = post \/ moved_back es (tips prev) (tips post) in
  match ids_added inner prev post with
  | None | Some Panic => False
  | Some (Done (Err e)) => ~ shortcut
      /\ exists x, new_since es (tips prev) (tips post) x /\ es !! x = None
           /\ e = EBackend (EntryNotFound x)
  | Some (Done (Ok order)) =>
      (shortcut /\ order = [])
      \/ (~ shortcut /\ NoDup order
          /\ (forall x, x ∈ order <-> new_since es (tips prev) (tips post) x)
          /\ (forall l1 x l2 e p, order = l1 ++ x :: l2 -> es !! x = Some e ->
                p ∈ Entry_parents e -> p ∈ order -> p ∈ l1)
          /\ forall x, at_or_below es (tips post) x -> ~ at_or_below es (tips prev) x -> x ∈ order)
  end.
Proof.
  intros Hac Hset Hiter es shortcut.
  destruct (decide (prev = post)) as [Heq|Hne]; [unfold ids_added; rewrite decide_True by done; left; by split; [left|]|].
  pose proof (backward_bracket_iff inner (tips prev) post Hset) as Hb.
  destruct (backward_bracket inner (list_to_set (tips prev)) post) eqn:Eb.
  { unfold ids_added. rewrite decide_False, Eb by done. left. split; [|done]. right. by apply Hb. }
  assert (~ shortcut) as Hs by (intros [?|H]; [done|]; by apply Hb in H).
  pose proof (ids_added_walk inner prev post Hac Hiter Hne Eb) as H. cbv zeta in H.
  destruct (ids_added inner prev post) as [[[order|e]|]|]; auto.
Qed.
End ids_added.

(** ** Concrete brackets *)

#[local] Existing Instance nat_cid.
#[local] Existing Instance byte_crypto.
#[local] Existing Instance demo_codec.

Lemma ids_added_spec_witness :
  ids_added elements list_iter demo_mem (mkSnapshot [demo_id 1]) (mkSnapshot [demo_id 2; demo_id 3])
    = Some (Done (Ok [demo_id 3; demo_id 2]))
  /\ new_since (entries demo_mem) [demo_id 1] [demo_id 2; demo_id 3] (demo_id 3).
Proof.
  assert (ids_added elements list_iter demo_mem (mkSnapshot [demo_id 1]) (mkSnapshot [demo_id 2; demo_id 3])
    = Some (Done (Ok [demo_id 3; demo_id 2]))) as E by (vm_compute; reflexivity).
  split; [exact E|].
  pose proof (ids_added_spec elements list_iter demo_mem (mkSnapshot [demo_id 1])
    (mkSnapshot [demo_id 2; demo_id 3]) demo_acyclic_history (fun s => Permutation_refl _)
    (fun A m => Permutation_refl _)) as H.
  cbv zeta in H. rewrite E in H. destruct H as [[_ H]|(_ & _ & H & _)]; [discriminate H|].
  apply H. set_solver.
Defined.

(** Two branches from the root: entry 2, and entries 3 and 5 above it. *)
Definition fork_tip : Entry := demo_node Byte.x05 2 [demo_id 3] [].
Definition fork_mem : InMemoryInner := storage_put demo_mem fork_tip.

(** On a fork the guard against a backward bracket reports nothing: the
    entry on the lower branch is new with respect to the tip of the higher
    branch, and is not listed. *)
Theorem ids_added_loses_fork :
  ids_added elements list_iter fork_mem (mkSnapshot [demo_id 5]) (mkSnapshot [demo_id 2])
    = Some (Done (Ok []))
  /\ new_since (entries fork_mem) [demo_id 5] [demo_id 2] (demo_id 2)
  /\ ~ at_or_below (entries fork_mem) [demo_id 5] (demo_id 2).
Proof.
  split; [vm_compute; reflexivity|]. split.
  - split; [set_solver|]. exists (demo_id 2). split; [set_solver|apply rtc_refl].
  - intros (t & ->%list_elem_of_singleton & Hr).
    assert (forall a b, rtc (history_edge (entries fork_mem)) a b ->
      a <> demo_id 2 -> b <> demo_id 2) as Hno; [|by eapply Hno].
    clear Hr. intros a b. induction 1 as [|a b c (e & He & Hb) _ IH]; [done|]. intros Ha. apply IH.
    unfold fork_mem in He.
    change (entries (storage_put demo_mem fork_tip)) with (<[ demo_id 5 := fork_tip ]> (entries demo_mem)) in He.
    apply lookup_insert_Some in He as [[_ <-]|[_ He]];
      [|apply demo_lookup in He as [[_ ->]|[[-> ->]|[_ ->]]]; [simpl in Hb; set_solver|done|]];
      apply list_elem_of_singleton in Hb as ->; done.
Qed.
