(* ===== verification/Frontier.v ===== *)
(** * The verified frontier (database/mod.rs)

    [Database::verified_frontier]: the tips of the maximal part of the tree in
    which every entry and all its ancestors are verified, computed in one pass
    over the entries sorted by height.  It is what a database handle reads at
    by default. *)

From S2P Require Import Prelude.
From S2P Require Import Worklist.
From S2P Require Import Path.
From S2P Require Import Position.
From S2P Require Import Ids.
From S2P Require Import Doc.
From S2P Require Import DocPath.
From S2P Require Import Errors.
From S2P Require Import Crypto.
From S2P Require Import Permission.
From S2P Require Import AuthTypes.
From S2P Require Import AuthSettings.
From S2P Require Import Entry.
From S2P Require Import Backend.
From S2P Require Import Traversal.
From S2P Require Import Reachability.
From S2P Require Import Validation.
From S2P Require Import StoreTips.
From S2P Require Import Kahn.
From S2P Require Import Verify.
From S2P Require Import IdsAdded.

Section frontier.
Context `{CD : CodecSpec}.

(** The loop over the sorted entries. *)
Fixpoint frontier_pass (inner : InMemoryInner) (es : list Entry) (in_prefix covered : gset ID) :
    Result (gset ID * gset ID) Error :=
  match es with
  | [] => Ok (in_prefix, covered)
  | e :: rest =>
      let? s := get_verification_status inner (Entry_id e) in
      if decide (s = Verified) then
        if forallb (fun p => bool_decide (p ∈ in_prefix)) (Entry_parents e) then
          frontier_pass inner rest ({[ Entry_id e ]} ∪ in_prefix) (list_to_set (Entry_parents e) ∪ covered)
        else frontier_pass inner rest in_prefix covered
      else frontier_pass inner rest in_prefix covered
  end.

Definition verified_frontier (inner : InMemoryInner) (root : ID) : Result (list ID) Error :=
  let es := get_tree inner root in
  let? sets := frontier_pass inner es ∅ ∅ in
  Ok (filter (fun id => id ∈ sets.1 /\ id ∉ sets.2) (Entry_id <$> es)).

(** ** The verified prefix *)

(** The entries of the tree that are verified with all their ancestors. *)
Inductive verified_prefix (inner : InMemoryInner) (root : ID) : ID -> Prop :=
  | PrefixEntry id e :
      entries inner !! id = Some e -> in_tree e root = true -> status inner id = Some Verified ->
      (forall p, p ∈ Entry_parents e -> verified_prefix inner root p) ->
      verified_prefix inner root id.

Lemma prefix_below inner root x y :
  verified_prefix inner root x -> rtc (history_edge (entries inner)) x y -> verified_prefix inner root y.
Proof.
  intros Hx Hr. induction Hr as [|a b c (e & He & Hb) _ IH]; [done|]. apply IH.
  destruct Hx as [a e' He' _ _ Hp]. apply Hp. congruence.
Qed.

Section pass.
Context (inner : InMemoryInner) (root : ID).
Hypothesis Hinv : mem_inv inner.

Lemma get_tree_elem e :
  e ∈ get_tree inner root <-> entries inner !! Entry_id e = Some e /\ in_tree e root = true.
Proof.
  unfold get_tree, sort_entries_by_height. rewrite elem_of_sort_by, list_elem_of_filter, elem_of_entry_values.
  split; [|naive_solver]. intros (Ht & id & He). by rewrite (mi_ids _ Hinv _ _ He).
Qed.

Lemma get_tree_ids : NoDup (Entry_id <$> get_tree inner root).
Proof.
  assert (NoDup (get_tree inner root)) as Hnd.
  { unfold get_tree, sort_entries_by_height. rewrite sort_by_perm.
    apply NoDup_filter, entry_values_NoDup. apply Hinv. }
  apply NoDup_fmap_2_strong; [|done]. intros a b [Ha _]%get_tree_elem [Hb _]%get_tree_elem Hab. congruence.
Qed.

(** What the loop holds after the entries of [l1]. *)
Record pass_inv (l1 : list Entry) (P C : gset ID) : Prop := {
  pi_prefix (x : ID) : x ∈ P <-> verified_prefix inner root x /\ exists e, e ∈ l1 /\ Entry_id e = x;
  pi_covered (x : ID) : x ∈ C <-> exists e, e ∈ l1 /\ Entry_id e ∈ P /\ x ∈ Entry_parents e;
}.

Lemma pass_step l1 e l2 P C :
  heights_decrease (entries inner) root -> get_tree inner root = l1 ++ e :: l2 -> pass_inv l1 P C ->
  (status inner (Entry_id e) = Some Verified ->
   forallb (fun p => bool_decide (p ∈ P)) (Entry_parents e) = true ->
   pass_inv (l1 ++ [e]) ({[ Entry_id e ]} ∪ P) (list_to_set (Entry_parents e) ∪ C))
  /\ (status inner (Entry_id e) <> Some Verified
      \/ forallb (fun p => bool_decide (p ∈ P)) (Entry_parents e) = false ->
      pass_inv (l1 ++ [e]) P C).
Proof.
  intros Hh Hl [HP HC].
  assert (forall a, a ∈ l1 \/ a = e \/ a ∈ l2 <-> a ∈ get_tree inner root) as Hall
    by (intros a; rewrite Hl; set_solver).
  assert (e ∈ get_tree inner root) as He by (apply Hall; auto).
  apply get_tree_elem in He as [He Ht].
  assert (forall a, a ∈ l1 -> Entry_id a <> Entry_id e) as Hne.
  { intros a Ha Heq. pose proof get_tree_ids as Hnd. rewrite Hl, fmap_app, fmap_cons in Hnd.
    apply NoDup_app in Hnd as (_ & Hd & _). apply (Hd (Entry_id a)); [by apply list_elem_of_fmap_2|].
    rewrite Heq. set_solver. }
  assert (verified_prefix inner root (Entry_id e) <->
    status inner (Entry_id e) = Some Verified /\ forall p, p ∈ Entry_parents e -> p ∈ P) as Hv.
  { split.
    - intros Hp. inversion Hp as [id e' He' _ Hs Hpar]; subst. split; [done|]. intros p Hin.
      replace e' with e in Hpar by congruence. specialize (Hpar p Hin). apply HP. split; [done|].
      inversion Hpar as [p' ep Hep Hpt _ _]; subst. exists ep. split; [|by apply (mi_ids _ Hinv)].
      apply (lower_before Entry_height (filter (fun e => in_tree e root = true) (entry_values (entries inner))) l1 e l2).
      + done.
      + apply list_elem_of_filter. split; [done|]. apply elem_of_entry_values. eauto.
      + eapply Hh; [|done|done]. by exists e.
    - intros [Hs Hpar]. apply (PrefixEntry _ _ _ e); [done..|]. intros p Hp. by apply HP, Hpar. }
  split.
  - intros Hs Hpar. assert (forall p, p ∈ Entry_parents e -> p ∈ P) as Hin.
    { intros p Hp. rewrite List.forallb_forall in Hpar. eapply bool_decide_eq_true, Hpar.
      by apply list_elem_of_In. }
    split.
    + intros x. rewrite elem_of_union, elem_of_singleton, HP. setoid_rewrite elem_of_app. split.
      * intros [->|(? & a & ? & ?)]; [split; [by apply Hv|]; exists e; set_solver|].
        split; [done|]. exists a. auto.
      * intros (Hx & a & [Ha| ->%list_elem_of_singleton] & <-); [right; split; eauto|by left].
    + intros x. rewrite elem_of_union, elem_of_list_to_set, HC. setoid_rewrite elem_of_app. split.
      * intros [Hx|(a & Ha & HaP & Hx)]; [exists e; set_solver|exists a; set_solver].
      * intros (a & [Ha| ->%list_elem_of_singleton] & Hap & Hx); [right|by left]. exists a.
        split; [done|]. split; [|done]. specialize (Hne a Ha). set_solver.
  - intros Hno. assert (~ verified_prefix inner root (Entry_id e)) as Hnv.
    { rewrite Hv. intros [Hs Hpar]. destruct Hno as [?|Hno]; [done|].
      apply forallb_false in Hno as (p & Hp & Hb). apply bool_decide_eq_false in Hb. by apply Hb, Hpar. }
    split.
    + intros x. rewrite HP. setoid_rewrite elem_of_app. split; [naive_solver|].
      intros (Hx & a & [Ha| ->%list_elem_of_singleton] & <-); [eauto|done].
    + intros x. rewrite HC. setoid_rewrite elem_of_app. split; [naive_solver|].
      intros (a & [Ha| ->%list_elem_of_singleton] & Hap & Hx); [eauto|]. by apply HP in Hap as [? _].
Qed.

Lemma frontier_pass_spec l1 l2 P C :
  heights_decrease (entries inner) root -> get_tree inner root = l1 ++ l2 -> pass_inv l1 P C ->
  exists P' C', frontier_pass inner l2 P C = Ok (P', C') /\ pass_inv (get_tree inner root) P' C'.
Proof.
  intros Hh. revert l1 P C. induction l2 as [|e l2 IH]; intros l1 P C Hl Hp; simpl.
  { rewrite app_nil_r in Hl. rewrite Hl. eauto. }
  destruct (pass_step l1 e l2 P C Hh Hl Hp) as [Hyes Hno].
  assert (get_tree inner root = (l1 ++ [e]) ++ l2) as Hl' by (by rewrite <- app_assoc).
  assert (e ∈ get_tree inner root) as [He _]%get_tree_elem by (rewrite Hl; set_solver).
  assert (is_Some (status inner (Entry_id e))) as [s Hs].
  { apply elem_of_dom. rewrite (mi_status _ Hinv). apply elem_of_dom. eauto. }
  unfold get_verification_status. unfold status in Hs. rewrite Hs. simpl.
  case_decide as Hsv; [subst s; destruct (forallb _ _) eqn:Ef|].
  - apply (IH _ _ _ Hl'). by apply Hyes.
  - apply (IH _ _ _ Hl'), Hno. by right.
  - apply (IH _ _ _ Hl'), Hno. left. unfold status. rewrite Hs. congruence.
Qed.
End pass.

(** Every entry of the prefix is at or below one of its tips. *)
Lemma prefix_covered inner root (P : gset ID) x :
  mem_inv inner -> heights_decrease (entries inner) root ->
  (forall y, y ∈ P <-> verified_prefix inner root y) -> x ∈ P ->
  exists t, t ∈ P /\ rtc (history_edge (entries inner)) t x
    /\ forall c e, c ∈ P -> entries inner !! c = Some e -> t ∉ Entry_parents e.
Proof.
  intros Hinv Hh HP Hx. set (member e := bool_decide (Entry_id e ∈ P)).
  assert (forall y e, entries inner !! y = Some e -> member e = true <-> y ∈ P) as Hm.
  { intros y e He. unfold member. by rewrite bool_decide_eq_true, (mi_ids _ Hinv _ _ He). }
  pose proof (proj1 (HP x) Hx) as Hpx. inversion Hpx as [x' ex Hex _ _ _]; subst x'.
  destruct (tips_cover member Entry_parents (entries inner) x ex) as (t & [(et & Het & Htm) Htip] & Hr).
  - apply (heights_acyclic Entry_height). intros a b ea eb (e0 & He0 & Hm0 & Hb) Hea Heb.
    apply (Hm a) in Hm0; [|done]. apply HP in Hm0. inversion Hm0 as [a' e1 He1 Ht1 _ _]; subst a'.
    eapply Hh; [|done|done]. exists e1. split; [done|]. split; [done|]. congruence.
  - done.
  - by apply (Hm x).
  - exists t. split; [by apply (Hm t et)|]. split.
    + eapply rtc_subrel; [|done]. intros a b (e0 & ? & _ & ?). by exists e0.
    + intros c e Hc He. apply (Htip c e He). by apply (Hm c).
Qed.

(** C31: When heights increase from parents to children, the verified frontier is
    exactly the set of tips of the verified prefix, each once: it holds no entry
    that is unverified or has an unverified ancestor, and reading at it loses no
    entry of the prefix. *)
Theorem verified_frontier_spec inner root :
  mem_inv inner -> heights_decrease (entries inner) root ->
  exists l, verified_frontier inner root = Ok l /\ NoDup l
    /\ (forall x, x ∈ l <-> verified_prefix inner root x
          /\ forall c e, verified_prefix inner root c -> entries inner !! c = Some e -> x ∉ Entry_parents e)
    /\ forall x, at_or_below (entries inner) l x <-> verified_prefix inner root x.
Proof.
  intros Hinv Hh. unfold verified_frontier.
  destruct (frontier_pass_spec inner root Hinv [] (get_tree inner root) ∅ ∅ Hh eq_refl)
    as (P & C & -> & [HP HC]); [split; set_solver|].
  cbn [result_bind fst snd]. eexists. split; [done|].
  assert (forall x, x ∈ P <-> verified_prefix inner root x) as HP'.
  { intros x. rewrite HP. split; [tauto|]. intros Hx. split; [done|].
    inversion Hx as [x' e He Ht _ _]; subst x'. exists e.
    pose proof (mi_ids _ Hinv _ _ He) as Hid. split; [|done]. apply get_tree_elem; [done|]. by rewrite Hid. }
  assert (forall x, x ∈ C <-> exists c e, verified_prefix inner root c /\ entries inner !! c = Some e
    /\ x ∈ Entry_parents e) as HC'.
  { intros x. rewrite HC. split.
    - intros (e & [He _]%get_tree_elem & Hp%HP' & Hx); [|done]. eauto.
    - intros (c & e & Hc & He & Hx). pose proof (mi_ids _ Hinv _ _ He) as Hid.
      exists e. rewrite Hid. split; [|by rewrite HP']. inversion Hc as [c' e' He' Ht _ _]; subst c'.
      apply get_tree_elem; [done|]. rewrite Hid. split; [done|]. congruence. }
  assert (forall x, x ∈ filter (fun id => id ∈ P /\ id ∉ C) (Entry_id <$> get_tree inner root)
    <-> x ∈ P /\ x ∉ C) as Hl.
  { intros x. rewrite list_elem_of_filter. split; [tauto|]. intros Hx. split; [done|].
    destruct Hx as [[_ (e & He & <-)]%HP _]. by apply list_elem_of_fmap_2. }
  split; [by apply NoDup_filter, get_tree_ids|]. split.
  - intros x. rewrite Hl, HP', HC'. naive_solver.
  - intros x. split.
    + intros (t & [Ht%HP' _]%Hl & Hr). by eapply prefix_below.
    + intros Hx%HP'. destruct (prefix_covered inner root P x) as (t & Ht & Hr & Htip); [done..|].
      exists t. split; [|done]. apply Hl. split; [done|]. rewrite HC'.
      intros (c & e & Hc%HP' & He & Hp). by apply (Htip c e).
Qed.
End frontier.

#[local] Existing Instance nat_cid.
#[local] Existing Instance byte_crypto.
#[local] Existing Instance demo_codec.

(** The root and the left entry are verified, the right one is not. *)
Definition demo_verified : InMemoryInner :=
  with_verdict (with_verdict demo_mem (demo_id 1) Verified) (demo_id 2) Verified.

Lemma demo_verified_inv : mem_inv demo_verified.
Proof.
  assert (mem_inv (with_verdict demo_mem (demo_id 1) Verified)) as H1.
  { by apply (update_status_inv demo_mem (demo_id 1) Verified); [apply demo_mem_inv|reflexivity]. }
  by apply (update_status_inv (with_verdict demo_mem (demo_id 1) Verified) (demo_id 2) Verified).
Qed.

Lemma demo_heights : heights_decrease (entries demo_mem) (demo_id 1).
Proof.
  intros x y e e' (e0 & He0 & _ & Hy) He He'. rewrite He in He0. injection He0 as <-.
  apply demo_lookup in He as [[_ ->]|[[_ ->]|[_ ->]]]; simpl in Hy; [set_solver| |];
    apply list_elem_of_singleton in Hy as ->;
    apply demo_lookup in He' as [[_ ->]|[[? _]|[? _]]]; done.
Qed.

Lemma verified_frontier_spec_witness :
  verified_frontier demo_verified (demo_id 1) = Ok [demo_id 2]
  /\ verified_prefix demo_verified (demo_id 1) (demo_id 2).
Proof.
  assert (verified_frontier demo_verified (demo_id 1) = Ok [demo_id 2]) as E by (vm_compute; reflexivity).
  split; [exact E|].
  destruct (verified_frontier_spec demo_verified (demo_id 1) demo_verified_inv demo_heights)
    as (l & El & _ & Hl & _).
  rewrite E in El. injection El as <-. apply Hl. set_solver.
Defined.
