(* ===== verification/InstanceOps.v ===== *)
(** * Writing through an instance (instance/mod.rs, database/mod.rs)

    The entry points that change the stored entries and their verification
    statuses, with the write callbacks they notify: [put_entry] for local
    commits, [put_remote_entries] for synced batches, [Database::verify],
    [Database::snapshot] with its access-time verification, and
    [demote_to_unverified].  A callback is its identifier and cursor, and an
    operation returns the events it delivers, in the order in which the
    callbacks are invoked; the closures themselves are the users'.  The locks
    make each operation on a tree one step.

    Shown here: every sequence of these operations keeps the verified set
    closed under ancestors, provided that entries committed locally as verified
    have verified parents; and the events a callback receives are contiguous. *)

From S2P Require Import Prelude.
From S2P Require Import Worklist.
From S2P Require Import Path.
From S2P Require Import Position.
From S2P Require Import Ids.
From S2P Require Import Doc.
From S2P Require Import DocPath.
From S2P Require Import Errors.
From S2P Require Import Crypto.
From S2P Require Import Permission.
From S2P Require Import AuthTypes.
From S2P Require Import AuthSettings.
From S2P Require Import Entry.
From S2P Require Import Backend.
From S2P Require Import Traversal.
From S2P Require Import Reachability.
From S2P Require Import Validation.
From S2P Require Import StoreTips.
From S2P Require Import Kahn.
From S2P Require Import Verify.
From S2P Require Import IdsAdded.
From S2P Require Import Frontier.

Inductive WriteSource : Type := Local | Remote.

Section instance.
Context `{IS : InstanceSpec} `{JS : !JsonSpec}.
Context (map_iter : forall A : Type, gmap ID A -> list (ID * A)).

Record WriteEvent : Type := mkWriteEvent {
  previous_tips : Snapshot;
  post_tips : Snapshot;
  source : WriteSource;
}.

Record PerDbCallbackEntry : Type := mkPerDbCallbackEntry {
  cb_id : Z;
  last_tips : Snapshot;
}.

Record InstanceState : Type := mkInstanceState {
  engine : InMemoryInner;
  write_callbacks : gmap ID (list PerDbCallbackEntry);
  global_write_callbacks : list Z;
  next_callback_id : Z;
}.

Definition with_engine (inst : InstanceState) (inner : InMemoryInner) : InstanceState :=
  mkInstanceState inner (write_callbacks inst) (global_write_callbacks inst) (next_callback_id inst).

Definition with_callbacks (inst : InstanceState) (cbs : gmap ID (list PerDbCallbackEntry)) : InstanceState :=
  mkInstanceState (engine inst) cbs (global_write_callbacks inst) (next_callback_id inst).

(** An invocation of a callback. *)
Record Delivery : Type := mkDelivery { to_callback : Z; on_database : ID; event : WriteEvent }.

(** ** The registry of callbacks *)

(** [fetch_add] wraps around. *)
Definition take_callback_id (inst : InstanceState) : InstanceState * Z :=
  (mkInstanceState (engine inst) (write_callbacks inst) (global_write_callbacks inst)
     (as_u64 (next_callback_id inst + 1)), next_callback_id inst).

Definition register_write_callback (inst : InstanceState) (tree_id : ID) (initial_tips : Snapshot) :
    InstanceState * Z :=
  let '(inst, id) := take_callback_id inst in
  (with_callbacks inst (<[ tree_id :=
     default [] (write_callbacks inst !! tree_id) ++ [mkPerDbCallbackEntry id initial_tips] ]>
     (write_callbacks inst)), id).

Definition register_global_write_callback (inst : InstanceState) : InstanceState :=
  let '(inst, id) := take_callback_id inst in
  mkInstanceState (engine inst) (write_callbacks inst) (global_write_callbacks inst ++ [id])
    (next_callback_id inst).

Definition remove_write_callback (inst : InstanceState) (tree_id : ID) (id : Z) : InstanceState * bool :=
  match write_callbacks inst !! tree_id with
  | Some vec =>
      let kept := filter (fun entry => cb_id entry <> id) vec in
      if is_nil kept then
        (with_callbacks inst (delete tree_id (write_callbacks inst)), bool_decide (length kept < length vec)%nat)
      else (with_callbacks inst (<[ tree_id := kept ]> (write_callbacks inst)), false)
  | None => (inst, false)
  end.

Definition has_write_callbacks (inst : InstanceState) (tree_id : ID) : bool :=
  is_some (write_callbacks inst !! tree_id).

(** [Database::open]: the handle is the root's ID. *)
Definition open_database (inner : InMemoryInner) (root_id : ID) : Result ID Error :=
  let? _ := storage_get inner root_id in Ok root_id.

Definition deliver (tree_id : ID) (previous post : Snapshot) (src : WriteSource) (id : Z) : Delivery :=
  mkDelivery id tree_id (mkWriteEvent previous post src).

Definition spawn_write_callbacks (inst : InstanceState) (tree_id : ID) (previous post : Snapshot)
    (src : WriteSource) : InstanceState * list Delivery :=
  let per_db := write_callbacks inst !! tree_id in
  if negb (is_some per_db) && is_nil (global_write_callbacks inst) then (inst, [])
  else match open_database (engine inst) tree_id with
  | Err _ => (inst, [])
  | Ok _ =>
      let callbacks := default [] per_db in
      let advanced := (fun entry => mkPerDbCallbackEntry (cb_id entry) post) <$> callbacks in
      ((if is_some per_db then with_callbacks inst (<[ tree_id := advanced ]> (write_callbacks inst)) else inst),
       ((fun entry => deliver tree_id (last_tips entry) post src (cb_id entry)) <$> callbacks)
       ++ (deliver tree_id previous post src <$> global_write_callbacks inst))
  end.

(** ** Writes *)

Definition write_entry (inner : InMemoryInner) (verification : VerificationStatus) (entry : Entry) :
    Result InMemoryInner Error :=
  let? inner := mem_put inner entry in
  if decide (verification = Unverified) then Ok inner
  else update_verification_status inner (Entry_id entry) verification.

Definition put_entry (inst : InstanceState) (tree_id : ID) (verification : VerificationStatus)
    (entry : Entry) (src : WriteSource) : InstanceState * list Delivery * Result unit Error :=
  let '(inner, previous) := mem_snapshot (engine inst) tree_id in
  match write_entry inner verification entry with
  | Err e => (with_engine inst inner, [], Err e)
  | Ok inner =>
      if decide (verification = Verified) then
        let '(inner, post) := mem_snapshot inner tree_id in
        let '(inst, ds) := spawn_write_callbacks (with_engine inst inner) tree_id previous post src in
        (inst, ds, Ok tt)
      else (with_engine inst inner, [], Ok tt)
  end.

(** [Database::verify]: the pass, and one event when something was promoted. *)
Definition verify_and_fire (inst : InstanceState) (root : ID) :
    option (Outcome (InstanceState * list Delivery * Result VerifyReport Error)) :=
  let fire_tips := (mem_snapshot (engine inst) root).2 in
  o ← Database_verify map_iter (engine inst) root;
  Some (let! p := o in
        let inst := with_engine inst p.1 in
        match p.2 with
        | Err e => Done (inst, [], Err e)
        | Ok (report, any_promoted) =>
            if any_promoted : bool then
              let '(inst, ds) := spawn_write_callbacks inst root fire_tips fire_tips Remote in
              Done (inst, ds, Ok report)
            else Done (inst, [], Ok report)
        end).

(** The loop of [put_remote_entries]: entries that do not validate are skipped. *)
Fixpoint store_batch (inner : InMemoryInner) (es : list Entry) (stored : nat) : InMemoryInner * nat :=
  match es with
  | [] => (inner, stored)
  | entry :: rest =>
      match mem_put inner entry with
      | Ok inner => store_batch inner rest (S stored)
      | Err _ => store_batch inner rest stored
      end
  end.

Definition put_remote_entries (inst : InstanceState) (tree_id : ID) (es : list Entry) :
    option (Outcome (InstanceState * list Delivery * Result nat Error)) :=
  if is_nil es then Some (Done (inst, [], Ok 0%nat))
  else
    let '(inner, stored_count) := store_batch (engine inst) es 0 in
    let inst := with_engine inst inner in
    if decide (stored_count = 0%nat) then Some (Done (inst, [], Ok 0%nat))
    else match open_database inner tree_id with
    | Err e => Some (Done (inst, [], Err e))
    | Ok root =>
        o ← verify_and_fire inst root;
        Some (let! p := o in
              Done (p.1, let? _ := p.2 in Ok stored_count))
    end.

(** [Database::insert_raw]: an entry stored without verification. *)
Definition insert_raw (inst : InstanceState) (entry : Entry) : InstanceState * Result ID Error :=
  match mem_put (engine inst) entry with
  | Ok inner => (with_engine inst inner, Ok (Entry_id entry))
  | Err e => (inst, Err e)
  end.

(** ** Reads that verify *)

(** The tips without the failed ones. *)
Fixpoint visible_tips (inner : InMemoryInner) (ids : list ID) : Result (list ID) Error :=
  match ids with
  | [] => Ok []
  | t :: rest =>
      let? s := get_verification_status inner t in
      let? visible := visible_tips inner rest in
      Ok (if decide (s = Failed) then visible else t :: visible)
  end.

Definition any_unverified (inner : InMemoryInner) (ids : list ID) : bool :=
  existsb (fun t => match get_verification_status inner t with
                    | Ok s => bool_decide (s = Unverified)
                    | Err _ => true
                    end) ids.

(** The view of a handle on a state that needs no further verification. *)
Definition snapshot_view (inner : InMemoryInner) (root : ID) (allow_unverified suppressed : bool)
    (ids : list ID) : Result Snapshot Error :=
  if negb allow_unverified && negb suppressed then
    let? frontier := verified_frontier inner root in Ok (Snapshot_new frontier)
  else
    let? visible := visible_tips inner ids in Ok (Snapshot_new visible).

(** [Database::snapshot] on a local instance; [suppressed] is the task-local
    flag that is set during a verification pass.  The result of the access-time
    pass is ignored. *)
Definition Database_snapshot (inst : InstanceState) (root : ID) (allow_unverified suppressed : bool) :
    option (Outcome (InstanceState * list Delivery * Result Snapshot Error)) :=
  let '(inner, snap) := mem_snapshot (engine inst) root in
  let inst := with_engine inst inner in
  let unknown := match tips snap with
                 | first :: _ => negb (is_ok (get_verification_status inner first))
                 | [] => false
                 end in
  if unknown then Some (Done (inst, [], Ok (Snapshot_new (tips snap))))
  else if suppressed || negb (any_unverified inner (tips snap)) then
    Some (Done (inst, [], snapshot_view inner root allow_unverified suppressed (tips snap)))
  else
    o ← verify_and_fire inst root;
    Some (let! p := o in
          let '(inst, ds, _) := p in
          let '(inner, snap) := mem_snapshot (engine inst) root in
          Done (with_engine inst inner, ds,
                snapshot_view inner root allow_unverified suppressed (tips snap))).

(** ** Demotion *)

(** The children of an entry within the tree, from the index built over
    [get_tree]. *)
Definition children_in (es : list Entry) (p : ID) : list ID :=
  concat ((fun e => (fun _ => Entry_id e) <$> filter (fun q => q = p) (Entry_parents e)) <$> es).

Fixpoint demote_loop (tree_entries : list Entry) (target : ID) (fuel : nat) (queue : list ID)
    (visited : gset ID) (inner : InMemoryInner) : option (InMemoryInner * Result unit Error) :=
  match fuel with
  | O => None
  | S fuel =>
      match queue with
      | [] => Some (inner, Ok tt)
      | id :: queue =>
          if decide (id ∈ visited) then demote_loop tree_entries target fuel queue visited inner
          else
            let visited := {[ id ]} ∪ visited in
            match get_verification_status inner id with
            | Err e =>
                if Error_is_not_found e then demote_loop tree_entries target fuel queue visited inner
                else Some (inner, Err e)
            | Ok s =>
                match (if bool_decide (id = target) || bool_decide (s = Verified)
                       then update_verification_status inner id Unverified else Ok inner) with
                | Err e => Some (inner, Err e)
                | Ok inner =>
                    demote_loop tree_entries target fuel (queue ++ children_in tree_entries id) visited inner
                end
            end
      end
  end.

(** The fuel: the target and one step for each parent reference of the tree. *)
Definition demote_to_unverified (inst : InstanceState) (tree_id entry_id : ID) :
    option (InstanceState * Result unit Error) :=
  let tree_entries := get_tree (engine inst) tree_id in
  let fuel := (2 + sum_list ((fun e => length (Entry_parents e)) <$> tree_entries))%nat in
  r ← demote_loop tree_entries entry_id fuel [entry_id] ∅ (engine inst);
  Some (with_engine inst r.1, r.2).
End instance.

(** ** Demotion: the walk *)

Section demotion.
Context `{CD : CodecSpec}.

Lemma children_in_cons e es p : length (children_in (e :: es) p) = (occ p (Entry_parents e) + length (children_in es p))%nat.
Proof. unfold children_in, occ. simpl. by rewrite length_app, length_fmap. Qed.

Lemma elem_of_children_in es p c :
  c ∈ children_in es p <-> exists e, e ∈ es /\ Entry_id e = c /\ p ∈ Entry_parents e.
Proof.
  unfold children_in. rewrite elem_of_concat. setoid_rewrite list_elem_of_fmap. split.
  - intros (l & Hl & e & -> & He). apply list_elem_of_fmap in Hl as (q & -> & [-> Hq]%list_elem_of_filter).
    by exists e.
  - intros (e & He & <- & Hp). eexists. split; [|by exists e]. apply list_elem_of_fmap.
    exists p. split; [done|]. by apply list_elem_of_filter.
Qed.

Lemma sum_occ (l ps : list ID) : NoDup l -> (sum_list ((fun x => occ x ps) <$> l) <= length ps)%nat.
Proof.
  intros Hnd. induction ps as [|p ps IH].
  { induction l; simpl; [lia|]. apply NoDup_cons in Hnd as [_ ?]. unfold occ at 1. simpl. auto. }
  assert (sum_list ((fun x => occ x (p :: ps)) <$> l)
    = sum_list ((fun x => occ x ps) <$> l) + occ p l)%nat as ->.
  { clear. induction l as [|x l IH]; [done|]. rewrite !fmap_cons. simpl. rewrite IH, !occ_cons.
    repeat case_decide; subst; try lia; congruence. }
  assert (occ p l <= 1)%nat; [|simpl; lia].
  clear IH. induction Hnd as [|x l Hx _ IH]; [unfold occ; simpl; lia|]. rewrite occ_cons.
  case_decide; [subst; apply occ_0 in Hx; lia|done].
Qed.

Lemma children_degree es (l : list ID) :
  NoDup l -> (sum_list ((fun x => length (children_in es x)) <$> l)
              <= sum_list ((fun e => length (Entry_parents e)) <$> es))%nat.
Proof.
  intros Hnd. induction es as [|e es IH].
  { clear Hnd. induction l; simpl; [lia|done]. }
  assert (sum_list ((fun x => length (children_in (e :: es) x)) <$> l)
    = sum_list ((fun x => occ x (Entry_parents e)) <$> l)
      + sum_list ((fun x => length (children_in es x)) <$> l))%nat as ->.
  { clear. induction l as [|x l IH]; [done|]. rewrite !fmap_cons. simpl. rewrite IH.
    rewrite children_in_cons. lia. }
  rewrite fmap_cons. simpl. pose proof (sum_occ l (Entry_parents e) Hnd). lia.
Qed.

Section walk.
Context (inner0 : InMemoryInner) (es : list Entry) (target : ID).

Definition demote_visit (x : ID) : Result (option (list unit * list ID)) Error :=
  if decide (is_Some (status inner0 x)) then Ok (Some ([], children_in es x)) else Ok (Some ([], [])).

(** The state in which the nodes of [V] have been visited. *)
Definition demoted (V : gset ID) (x : ID) (s : VerificationStatus) : VerificationStatus :=
  if decide (x ∈ V /\ (x = target \/ s = Verified)) then Unverified else s.

Definition demoted_state (V : gset ID) : InMemoryInner :=
  with_status inner0 (map_imap (fun x s => Some (demoted V x s)) (verification_status inner0)).

Lemma demoted_status V x : status (demoted_state V) x = demoted V x <$> status inner0 x.
Proof. unfold status, demoted_state. simpl. rewrite map_lookup_imap. by destruct (_ !! x). Qed.

Lemma demoted_visit V x (m : gmap ID VerificationStatus) :
  (forall y, m !! y = demoted ({[ x ]} ∪ V) y <$> status inner0 y) ->
  with_status (demoted_state V) m = demoted_state ({[ x ]} ∪ V).
Proof.
  intros Hm. unfold demoted_state, with_status. simpl. f_equal. apply map_eq. intros y.
  rewrite Hm, map_lookup_imap. unfold status. by destruct (verification_status inner0 !! y).
Qed.

Lemma demoted_same V x :
  (forall s, status inner0 x = Some s -> x <> target /\ s <> Verified) ->
  demoted_state ({[ x ]} ∪ V) = demoted_state V.
Proof.
  intros Hx. rewrite <- (demoted_visit V x (verification_status (demoted_state V))); [done|].
  intros y. fold (status (demoted_state V) y). rewrite demoted_status.
  destruct (status inner0 y) as [s|] eqn:Es; [|done]. simpl. f_equal. unfold demoted.
  destruct (decide (y = x)) as [->|Hyx].
  - destruct (Hx s Es). rewrite !decide_False by tauto. done.
  - apply decide_ext. set_solver.
Qed.

Lemma demote_loop_walk fuel queue V :
  demote_loop es target fuel queue V (demoted_state V)
  = r ← worklist demote_visit Fifo fuel queue V [];
    match r with Ok (V', _) => Some (demoted_state V', Ok tt) | Err _ => None end.
Proof.
  revert queue V. induction fuel as [|fuel IH]; intros queue V; [done|]. simpl.
  destruct queue as [|x queue]; [done|]. case_decide as Hx; [apply IH|].
  unfold demote_visit at 1. unfold get_verification_status. fold (status (demoted_state V) x).
  rewrite demoted_status. destruct (status inner0 x) as [s|] eqn:Es; simpl.
  2: { rewrite app_nil_r, <- IH, demoted_same; [done|]. rewrite Es. done. }
  assert (demoted V x s = s) as -> by (unfold demoted; rewrite decide_False; [done|tauto]).
  destruct (bool_decide (x = target) || bool_decide (s = Verified)) eqn:Eb.
  - rewrite orb_true_iff, !bool_decide_eq_true in Eb. unfold update_verification_status.
    fold (status (demoted_state V) x). rewrite decide_True by (rewrite demoted_status, Es; eauto).
    rewrite (demoted_visit V x); [apply IH|]. intros y. destruct (decide (y = x)) as [->|Hyx].
    + rewrite lookup_insert_eq, Es. simpl. unfold demoted. rewrite decide_True by set_solver. done.
    + rewrite lookup_insert_ne by done. fold (status (demoted_state V) y). rewrite demoted_status.
      destruct (status inner0 y); [|done]. simpl. f_equal. apply decide_ext. set_solver.
  - rewrite orb_false_iff, !bool_decide_eq_false in Eb. rewrite <- IH, demoted_same; [done|].
    intros s'. rewrite Es. by intros [= <-].
Qed.
End walk.

(** A child of [x] within the tree. *)
Definition child_edge (inner : InMemoryInner) (tree x y : ID) : Prop :=
  exists e, entries inner !! y = Some e /\ in_tree e tree = true /\ x ∈ Entry_parents e.

(** Demotion succeeds; the target, if present, and its verified descendants
    become unverified, and nothing else changes. *)
Lemma demote_run inst tree target :
  mem_inv (engine inst) -> is_Some (status (engine inst) target) ->
  exists V : gset ID, demote_to_unverified inst tree target
      = Some (with_engine inst (demoted_state (engine inst) target V), Ok tt)
    /\ forall x, x ∈ V <-> rtc (child_edge (engine inst) tree) target x.
Proof.
  intros Hinv Ht. unfold demote_to_unverified. set (es := get_tree (engine inst) tree).
  assert (engine inst = demoted_state (engine inst) target ∅) as Hinit.
  { destruct (engine inst) as [en st md se tp]. unfold demoted_state, with_status. simpl. f_equal.
    apply map_eq. intros x. rewrite map_lookup_imap. destruct (st !! x); simpl; [|done].
    unfold demoted. by rewrite decide_False by set_solver. }
  set (visit := demote_visit (engine inst) es).
  assert (forall fuel, demote_loop es target fuel [target] ∅ (engine inst)
    = r ← worklist visit Fifo fuel [target] ∅ [];
      match r with Ok (V, _) => Some (demoted_state (engine inst) target V, Ok tt) | Err _ => None end) as ->.
  { intros fuel. unfold visit. by rewrite <- demote_loop_walk, <- Hinit. }
  assert (forall x y, wstep visit ∅ x y <->
    is_Some (status (engine inst) x) /\ child_edge (engine inst) tree x y) as Hstep.
  { intros x y. unfold wstep, next, visit, demote_visit.
    assert (y ∈ children_in es x <-> child_edge (engine inst) tree x y) as Hc.
    { rewrite elem_of_children_in. unfold child_edge, es. setoid_rewrite (get_tree_elem _ _ Hinv).
      split; [intros (e & [? ?] & <- & ?); eauto|].
      intros (e & He & ? & ?). exists e. by rewrite (mi_ids _ Hinv _ _ He). }
    case_decide; rewrite <- Hc; set_solver. }
  destruct (worklist_fuel visit Fifo (list_to_set (concat (Entry_parents <$> es)))
    (2 + sum_list ((fun e => length (Entry_parents e)) <$> es)) [target] ∅ []) as [r Hr].
  { intros x Hx. unfold next, visit, demote_visit. case_decide; [|done].
    apply elem_of_nil_inv. intros c (e & He & _ & Hp)%elem_of_children_in. apply Hx.
    apply elem_of_list_to_set, elem_of_concat. exists (Entry_parents e). split; [done|].
    by apply list_elem_of_fmap_2. }
  { unfold out_degree. replace (_ ∖ ∅) with (list_to_set (concat (Entry_parents <$> es)) : gset ID) by set_solver.
    set (D := elements _).
    assert (sum_list ((fun x => length (next visit x)) <$> D)
      <= sum_list ((fun x => length (children_in es x)) <$> D))%nat as H1.
    { clear. induction D as [|x D IH]; [done|]. rewrite !fmap_cons. simpl.
      assert (length (next visit x) <= length (children_in es x))%nat; [|lia].
      unfold next, visit, demote_visit. case_decide; simpl; lia. }
    pose proof (children_degree es D (NoDup_elements _)). simpl. lia. }
  rewrite Hr. cbn [mbind option_bind]. destruct r as [[V acc]|err].
  2: { apply worklist_err in Hr as (x & _ & _ & Hx). unfold visit, demote_visit in Hx. by case_decide. }
  exists V. split; [done|]. apply worklist_ok in Hr as (HV & _ & _). intros x. rewrite HV.
  assert (forall y z, is_Some (status (engine inst) y) -> rtc (child_edge (engine inst) tree) y z ->
    rtc (wstep visit ∅) y z) as Hwalk.
  { intros y z Hy Hyz. induction Hyz as [|y u z Hyu _ IH]; [apply rtc_refl|].
    eapply rtc_l; [by apply Hstep|]. apply IH. destruct Hyu as (e & He & _).
    apply elem_of_dom. rewrite (mi_status _ Hinv). apply elem_of_dom. eauto. }
  unfold wreach, marks. split.
  - intros [?|(_ & _ & q & ->%list_elem_of_singleton & Hq)]; [set_solver|].
    eapply rtc_subrel; [|done]. intros a b Hab. by apply Hstep in Hab as [_ ?].
  - intros Hx. right. split; [set_solver|]. split.
    + unfold visit, demote_visit. case_decide; eauto.
    + exists target. split; [set_solver|]. by apply Hwalk.
Qed.

(** Demotion demotes the target and its verified descendants, changes
    nothing else, and so keeps the verified set closed under ancestors. *)
Lemma demoted_closed inner tree target V :
  mem_inv inner -> (forall x, x ∈ V <-> rtc (child_edge inner tree) target x) ->
  mem_inv (demoted_state inner target V)
  /\ (verified_closed inner tree -> verified_closed (demoted_state inner target V) tree).
Proof.
  intros Hinv HV. split.
  - destruct Hinv as [H1 H2 H3 H4 H5]. split; try done. simpl. rewrite <- H3. apply set_eq.
    intros x. rewrite !elem_of_dom, map_lookup_imap.
    destruct (verification_status inner !! x); simpl; split; (intros [? ?]; eauto; done).
  - intros Hcl id e p He Ht Hs Hp. simpl in He. rewrite demoted_status in Hs |- *.
    destruct (status inner id) as [s|] eqn:Es; [|done]. simpl in Hs. injection Hs as Hs.
    unfold demoted in Hs. case_decide as Hd; [done|]. subst s.
    rewrite (Hcl id e p He Ht Es Hp). simpl. unfold demoted. rewrite decide_False; [done|].
    intros [HpV _]. apply Hd. split; [|by right]. apply HV in HpV. apply HV.
    eapply rtc_r; [done|]. by exists e.
Qed.

(** Demoting a stored entry succeeds: the entry and its verified
    descendants in the tree become unverified, every other status is kept
    (failed entries among the descendants included), and the verified entries of
    the tree stay closed under ancestors. *)
Theorem demote_spec inst tree target :
  mem_inv (engine inst) -> is_Some (status (engine inst) target) ->
  let chosen x s := x = target \/ s = Verified /\ rtc (child_edge (engine inst) tree) target x in
  exists inst', demote_to_unverified inst tree target = Some (inst', Ok tt)
    /\ mem_inv (engine inst') /\ entries (engine inst') = entries (engine inst)
    /\ (forall x s, status (engine inst) x = Some s -> chosen x s -> status (engine inst') x = Some Unverified)
    /\ (forall x s, status (engine inst) x = Some s -> ~ chosen x s -> status (engine inst') x = Some s)
    /\ (verified_closed (engine inst) tree -> verified_closed (engine inst') tree).
Proof.
  intros Hinv Ht chosen. destruct (demote_run inst tree target Hinv Ht) as (V & -> & HV).
  eexists. split; [done|]. destruct (demoted_closed _ _ _ _ Hinv HV) as [Hinv' Hcl].
  split; [done|]. split; [done|]. cbn [engine with_engine]. split; [|split; [|done]];
    intros x s Hs Hx; rewrite demoted_status, Hs; simpl; f_equal; unfold demoted.
  - rewrite decide_True; [done|]. rewrite HV. destruct Hx as [->|[-> Hr]]; [|auto].
    split; [apply rtc_refl|by left].
  - rewrite decide_False; [done|]. rewrite HV. intros [Hr [?|?]]; apply Hx; [by left|by right].
Qed.
End demotion.

(** ** The operations as steps *)

Section steps.
Context `{IS : InstanceSpec} `{JS : !JsonSpec}.
Context (map_iter : forall A : Type, gmap ID A -> list (ID * A)).
Context (root : ID).

(** One completed operation on the tree [root], with the events it delivers.
    A local write of a verified entry is a commit on verified parents, whose
    hash does not collide with that of another stored entry. *)
Inductive inst_step (inst : InstanceState) : list Delivery -> InstanceState -> Prop :=
  | StepCommit entry src inst' ds r :
      (forall p, p ∈ Entry_parents entry -> status (engine inst) p = Some Verified) ->
      (forall e, entries (engine inst) !! Entry_id entry = Some e -> e = entry) ->
      put_entry inst root Verified entry src = (inst', ds, r) -> inst_step inst ds inst'
  | StepPutUnverified entry src inst' ds r :
      put_entry inst root Unverified entry src = (inst', ds, r) -> inst_step inst ds inst'
  | StepRemote es inst' ds r :
      put_remote_entries map_iter inst root es = Some (Done (inst', ds, r)) -> inst_step inst ds inst'
  | StepRaw entry inst' r : insert_raw inst entry = (inst', r) -> inst_step inst [] inst'
  | StepVerify inst' ds r :
      verify_and_fire map_iter inst root = Some (Done (inst', ds, r)) -> inst_step inst ds inst'
  | StepRead allow_unverified suppressed inst' ds r :
      Database_snapshot map_iter inst root allow_unverified suppressed = Some (Done (inst', ds, r)) ->
      inst_step inst ds inst'
  | StepDemote target inst' r :
      is_Some (status (engine inst) target) ->
      demote_to_unverified inst root target = Some (inst', r) -> inst_step inst [] inst'
  | StepRegister initial_tips :
      next_callback_id inst < u64_max ->
      inst_step inst [] (register_write_callback inst root initial_tips).1
  | StepRegisterGlobal :
      next_callback_id inst < u64_max -> inst_step inst [] (register_global_write_callback inst)
  | StepRemove id : inst_step inst [] (remove_write_callback inst root id).1.

Inductive inst_steps : InstanceState -> list Delivery -> InstanceState -> Prop :=
  | StepsDone inst : inst_steps inst [] inst
  | StepsMore inst ds inst' ds' inst'' :
      inst_step inst ds inst' -> inst_steps inst' ds' inst'' -> inst_steps inst (ds ++ ds') inst''.

(** ** The verified set stays closed *)

Definition good (inner : InMemoryInner) : Prop := mem_inv inner /\ verified_closed inner root.

Lemma good_same inner inner' :
  mem_inv inner' -> entries inner' = entries inner -> verification_status inner' = verification_status inner ->
  good inner -> good inner'.
Proof.
  intros Hinv He Hs [_ Hcl]. split; [done|]. intros x e p. unfold status. rewrite He, Hs. apply Hcl.
Qed.

Lemma good_snapshot inner tree : good inner -> good (mem_snapshot inner tree).1.
Proof.
  intros Hg. destruct (traversal_snapshot_inv inner tree (proj1 Hg)) as (Hinv & He & _).
  by apply (good_same inner); [..|apply snapshot_status|].
Qed.

Lemma put_status inner e inner' :
  mem_inv inner -> mem_put inner e = Ok inner' ->
  mem_inv inner' /\ is_Some (status inner' (Entry_id e))
  /\ (forall x s, status inner x = Some s -> status inner' x = Some s)
  /\ (forall x, status inner' x = Some Verified -> status inner x = Some Verified)
  /\ forall x e', entries inner' !! x = Some e' -> status inner x = Some Verified -> entries inner !! x = Some e'.
Proof.
  intros Hinv Hput. split; [by eapply mem_put_inv|]. unfold mem_put in Hput.
  destruct (Entry_validate e); simpl in Hput; [|done]. injection Hput as <-.
  pose proof (mi_status _ Hinv) as Hdom. destruct (entries inner !! Entry_id e) as [e0|] eqn:E.
  - rewrite put_known by eauto. split; [|done].
    apply elem_of_dom. rewrite Hdom. apply elem_of_dom. eauto.
  - destruct (put_entries inner e E) as [He Hs]. unfold status. rewrite He, Hs.
    assert (verification_status inner !! Entry_id e = None) as Hn.
    { apply not_elem_of_dom. rewrite Hdom. by apply not_elem_of_dom. }
    rewrite lookup_insert_eq. split; [done|]. split; [|split].
    + intros x s Hx. rewrite lookup_insert_ne; [done|]. congruence.
    + intros x. rewrite lookup_insert_Some. naive_solver.
    + intros x e' Hx Hv. rewrite lookup_insert_Some in Hx. destruct Hx as [[<- _]|[_ ?]]; [congruence|done].
Qed.

Lemma good_put inner e inner' : good inner -> mem_put inner e = Ok inner' -> good inner'.
Proof.
  intros [Hinv Hcl] Hput. destruct (put_status _ _ _ Hinv Hput) as (Hinv' & _ & Hkeep & Hback & Hent).
  split; [done|]. intros x e' p He' Ht Hv Hp. apply Hkeep. apply Hback in Hv. by eapply Hcl; eauto.
Qed.

(** Writing a verified entry on verified parents. *)
Lemma good_commit inner e inner' :
  good inner -> (forall p, p ∈ Entry_parents e -> status inner p = Some Verified) ->
  (forall e0, entries inner !! Entry_id e = Some e0 -> e0 = e) ->
  write_entry inner Verified e = Ok inner' -> good inner'.
Proof.
  intros Hg Hpar Hsame. unfold write_entry. destruct (mem_put inner e) as [inner1|] eqn:Hput; simpl; [|done].
  destruct (good_put _ _ _ Hg Hput) as [Hinv1 Hcl1]. intros Hup.
  destruct (update_status_inv _ _ _ _ Hinv1 Hup) as (Hinv' & He' & _).
  destruct Hg as [Hinv _]. destruct (put_status _ _ _ Hinv Hput) as (_ & _ & Hkeep & Hback & Hent).
  split; [done|]. unfold update_verification_status in Hup. case_decide; [|done]. injection Hup as <-.
  assert (forall x, status inner1 x = Some Verified ->
    status (with_status inner1 (<[ Entry_id e := Verified ]> (verification_status inner1))) x = Some Verified) as Hmono.
  { intros x Hx. unfold status. simpl. destruct (decide (x = Entry_id e)) as [->|Hne];
      [by rewrite lookup_insert_eq|by rewrite lookup_insert_ne]. }
  intros x e' p Hx Ht Hv Hp. simpl in Hx. apply Hmono. unfold status in Hv. simpl in Hv.
  destruct (decide (x = Entry_id e)) as [->|Hne].
  - apply Hkeep, Hpar. replace e with e'; [done|].
    unfold mem_put in Hput. destruct (Entry_validate e); simpl in Hput; [|done]. injection Hput as <-.
    destruct (entries inner !! Entry_id e) as [e0|] eqn:E.
    + rewrite put_known in Hx by eauto. apply Hsame. congruence.
    + destruct (put_entries inner e E) as [He _]. rewrite He, lookup_insert_eq in Hx. congruence.
  - rewrite lookup_insert_ne in Hv by done. by eapply Hcl1.
Qed.

Lemma good_batch inner es n : good inner -> good (store_batch inner es n).1.
Proof.
  revert inner n. induction es as [|e es IH]; intros inner n Hg; [done|]. simpl.
  destruct (mem_put inner e) eqn:E; apply IH; [by eapply good_put|done].
Qed.

Lemma spawn_engine inst tree prev post src :
  engine (spawn_write_callbacks inst tree prev post src).1 = engine inst.
Proof.
  unfold spawn_write_callbacks. destruct (_ && _); [done|].
  destruct (open_database _ _); [|done]. simpl. by destruct (write_callbacks inst !! tree).
Qed.

Section closed.
Hypothesis Hiter : forall A (m : gmap ID A), map_iter A m ≡ₚ map_to_list m.

Lemma good_verify inst tree inst' ds r :
  good (engine inst) -> verify_and_fire map_iter inst tree = Some (Done (inst', ds, r)) -> good (engine inst').
Proof.
  intros [Hinv Hcl]. unfold verify_and_fire.
  destruct (verify_keeps map_iter (engine inst) tree Hinv Hiter) as (inner' & r' & -> & Hinv' & _ & _ & Hcl').
  assert (good inner') as Hg by (split; [done|by apply Hcl']). simpl.
  destruct r' as [[report any]|e]; [|by intros [= <- _ _]].
  destruct any; [|by intros [= <- _ _]].
  pose proof (spawn_engine (with_engine inst inner') tree (mem_snapshot (engine inst) tree).2
    (mem_snapshot (engine inst) tree).2 Remote) as He.
  destruct (spawn_write_callbacks _ _ _ _ _) as [inst1 ds1]. intros [= <- _ _]. simpl in He. by rewrite He.
Qed.

Lemma good_put_entry inst tree s entry src inst' ds r :
  good (engine inst) ->
  (forall inner', write_entry (mem_snapshot (engine inst) tree).1 s entry = Ok inner' -> good inner') ->
  put_entry inst tree s entry src = (inst', ds, r) -> good (engine inst').
Proof.
  intros Hg Hw. unfold put_entry. pose proof (good_snapshot _ tree Hg) as Hg1.
  destruct (mem_snapshot (engine inst) tree) as [inner prev]. cbn [fst] in *.
  destruct (write_entry inner s entry) as [inner1|]; [|by intros [= <- _ _]].
  specialize (Hw inner1 eq_refl). case_decide; [|by intros [= <- _ _]].
  pose proof (good_snapshot _ tree Hw) as Hg2. destruct (mem_snapshot inner1 tree) as [inner2 post].
  pose proof (spawn_engine (with_engine inst inner2) tree prev post src) as He.
  destruct (spawn_write_callbacks _ _ _ _ _) as [inst2 ds2]. intros [= <- _ _]. simpl in He. by rewrite He.
Qed.

Lemma good_step inst ds inst' : inst_step inst ds inst' -> good (engine inst) -> good (engine inst').
Proof.
  intros Hstep Hg. destruct Hstep as [entry src inst' ds r Hpar Hsame H|entry src inst' ds r H|es inst' ds r H
    |entry inst' r H|inst' ds r H|allow supp inst' ds r H|target inst' r Ht H|tips0 _|_|id].
  - eapply good_put_entry; [done| |done]. intros inner' Hw.
    pose proof (good_snapshot (engine inst) root Hg) as Hg1. eapply good_commit; [done|..|done].
    + intros p Hp. unfold status. rewrite snapshot_status. by apply Hpar.
    + destruct (traversal_snapshot_inv (engine inst) root (proj1 Hg)) as (_ & He & _).
      change (traversal_snapshot (engine inst) root).1 with (mem_snapshot (engine inst) root).1 in He.
      by rewrite He.
  - eapply good_put_entry; [done| |done]. intros inner'. unfold write_entry.
    destruct (mem_put _ entry) eqn:E; simpl; [|done]. intros [= <-].
    eapply good_put; [|done]. by apply good_snapshot.
  - unfold put_remote_entries in H. destruct (is_nil es); [by injection H as <- _ _|].
    pose proof (good_batch (engine inst) es 0 Hg) as Hb. destruct (store_batch _ es 0) as [inner n].
    case_decide; [by injection H as <- _ _|].
    destruct (open_database inner root) as [root'|] eqn:Eo; [|by injection H as <- _ _].
    assert (root' = root) as -> by (unfold open_database in Eo; destruct (storage_get _ _); simpl in Eo; congruence).
    destruct (verify_and_fire map_iter (with_engine inst inner) root) as [[[[i d] r']|]|] eqn:Ev; try done.
    injection H as <- _ _. by eapply good_verify in Ev.
  - unfold insert_raw in H. destruct (mem_put _ entry) eqn:E; injection H as <- _; [by eapply good_put|done].
  - by eapply good_verify.
  - unfold Database_snapshot in H. pose proof (good_snapshot (engine inst) root Hg) as Hg1.
    destruct (mem_snapshot (engine inst) root) as [inner snap]. cbn [fst] in Hg1.
    destruct (match tips snap with [] => false | _ => _ end); [by injection H as <- _ _|].
    destruct (supp || _); [by injection H as <- _ _|].
    destruct (verify_and_fire map_iter (with_engine inst inner) root) as [[[[i d] r']|]|] eqn:Ev; try done.
    cbn [mbind option_bind outcome_bind] in H. eapply good_verify in Ev; [|done]. pose proof (good_snapshot (engine i) root Ev) as Hg2.
    destruct (mem_snapshot (engine i) root) as [inner2 snap2]. injection H as <- _ _. exact Hg2.
  - destruct (demote_run inst root target (proj1 Hg) Ht) as (V & Hd & HV). rewrite Hd in H. injection H as <- _.
    destruct Hg as [Hinv Hcl]. destruct (demoted_closed _ _ _ _ Hinv HV) as [? Hcl']. split; [done|by apply Hcl'].
  - done.
  - done.
  - unfold remove_write_callback. destruct (write_callbacks inst !! root) as [vec|]; [|done].
    by destruct (is_nil _).
Qed.

(** C1: In every state that local commits on verified parents, synced batches,
    raw inserts, verification passes, reads and demotions can reach from an
    empty instance, the backend's invariant holds, and the verified entries of
    the tree are closed under ancestors: no verified entry has an ancestor that
    is missing, unverified or failed. *)
Theorem verified_set_closed cbs globals next ds inst :
  inst_steps (mkInstanceState InMemory_new cbs globals next) ds inst ->
  mem_inv (engine inst)
  /\ forall x y, status (engine inst) x = Some Verified ->
       rtc (tree_edge (entries (engine inst)) root) x y -> status (engine inst) y = Some Verified.
Proof.
  intros Hsteps.
  assert (good (engine inst)) as [Hinv Hcl].
  { remember (mkInstanceState InMemory_new cbs globals next) as inst0 eqn:E0.
    assert (good (engine inst0)) as Hg by (subst inst0; split; [apply mem_inv_init|done]).
    clear E0. induction Hsteps as [|i d i' d' i'' Hs _ IH]; [done|]. apply IH. by eapply good_step. }
  split; [done|]. intros x y Hx Hr. induction Hr as [|a b c (e' & He' & Ht & Hb) _ IH]; [done|].
  apply IH. by eapply Hcl.
Qed.
End closed.

(** ** The events of a callback *)

Definition callbacks_of (inst : InstanceState) (tree : ID) : list PerDbCallbackEntry :=
  default [] (write_callbacks inst !! tree).

(** The cursor of a registered callback. *)
Definition cursor (inst : InstanceState) (tree : ID) (id : Z) : option Snapshot :=
  last_tips <$> List.find (fun entry => bool_decide (cb_id entry = id)) (callbacks_of inst tree).

Definition events_for (tree : ID) (id : Z) (ds : list Delivery) : list WriteEvent :=
  event <$> filter (fun d => to_callback d = id /\ on_database d = tree) ds.

(** Each event starts where the one before it ended. *)
Fixpoint contiguous (from : Snapshot) (evs : list WriteEvent) (to : Snapshot) : Prop :=
  match evs with
  | [] => from = to
  | ev :: rest => previous_tips ev = from /\ contiguous (post_tips ev) rest to
  end.

Lemma contiguous_app from evs mid evs' to :
  contiguous from evs mid -> contiguous mid evs' to -> contiguous from (evs ++ evs') to.
Proof.
  revert from. induction evs as [|ev evs IH]; intros from; simpl; [by intros ->|].
  intros [? ?] ?. split; [done|]. by apply IH.
Qed.

(** Identifiers are fresh: those of a tree are distinct, none is global, and
    all are below the next one. *)
Record registry_ok (inst : InstanceState) : Prop := {
  ro_nodup tree : NoDup (cb_id <$> callbacks_of inst tree);
  ro_below tree c : c ∈ callbacks_of inst tree -> 0 <= cb_id c < next_callback_id inst;
  ro_global id : id ∈ global_write_callbacks inst ->
    0 <= id < next_callback_id inst /\ forall tree, id ∉ cb_id <$> callbacks_of inst tree;
  ro_next : 0 <= next_callback_id inst;
}.

Lemma cursor_Some inst tree id c :
  cursor inst tree id = Some c -> id ∈ cb_id <$> callbacks_of inst tree.
Proof.
  unfold cursor. destruct (List.find _ _) as [entry|] eqn:E; [|done]. intros _.
  apply List.find_some in E as [Hin%list_elem_of_In Hb%bool_decide_eq_true]. subst id.
  by apply list_elem_of_fmap_2.
Qed.

(** A step on the callbacks of the tree: what happens to a cursor and which
    events it gets.  [None] for the cursor afterwards is a removal. *)
Definition callback_step (inst : InstanceState) (ds : list Delivery) (inst' : InstanceState) : Prop :=
  registry_ok inst ->
  registry_ok inst' /\ next_callback_id inst <= next_callback_id inst'
  /\ forall tree id, 0 <= id < next_callback_id inst ->
       (cursor inst tree id = None -> cursor inst' tree id = None)
       /\ forall c c', cursor inst tree id = Some c -> cursor inst' tree id = Some c' ->
            contiguous c (events_for tree id ds) c'.

Lemma callback_step_same inst inst' :
  write_callbacks inst' = write_callbacks inst ->
  global_write_callbacks inst' = global_write_callbacks inst ->
  next_callback_id inst' = next_callback_id inst -> callback_step inst [] inst'.
Proof.
  intros Hw Hg Hn [H1 H2 H3 H4]. unfold cursor, callbacks_of in *. rewrite Hw, Hn. split.
  - split; unfold callbacks_of; rewrite ?Hw, ?Hn, ?Hg; done.
  - split; [lia|]. intros tree id _. split; [done|]. intros c c' Hc Hc'. simpl. congruence.
Qed.

Lemma filter_other {A} (P : A -> Prop) `{!forall x, Decision (P x)} l : (forall x, x ∈ l -> ~ P x) -> filter P l = [].
Proof.
  intros Hno. apply elem_of_nil_inv. intros x [Hx Hin]%list_elem_of_filter. by apply (Hno x).
Qed.

(** In the list of deliveries to distinct callbacks, a callback has its own. *)
Lemma find_deliver tree post src l id :
  NoDup (cb_id <$> l) ->
  events_for tree id ((fun c => deliver tree (last_tips c) post src (cb_id c)) <$> l)
  = match List.find (fun c => bool_decide (cb_id c = id)) l with
    | Some c => [mkWriteEvent (last_tips c) post src]
    | None => []
    end.
Proof.
  unfold events_for. induction l as [|c l IH]; [done|]. rewrite !fmap_cons. intros [Hc Hnd]%NoDup_cons.
  rewrite filter_cons. simpl. case_bool_decide as Hid.
  - rewrite decide_True by done. rewrite fmap_cons. simpl. f_equal.
    rewrite filter_other; [done|]. intros d (c' & -> & Hc')%list_elem_of_fmap [Hd _]. simpl in Hd.
    apply Hc. rewrite Hid, <- Hd. by apply list_elem_of_fmap_2.
  - rewrite decide_False by tauto. by apply IH.
Qed.

Lemma find_advanced post (l : list PerDbCallbackEntry) id :
  last_tips <$> List.find (fun c => bool_decide (cb_id c = id))
    ((fun c => mkPerDbCallbackEntry (cb_id c) post) <$> l)
  = (fun _ => post) <$> List.find (fun c => bool_decide (cb_id c = id)) l.
Proof. induction l as [|c l IH]; [done|]. simpl. by destruct (bool_decide _). Qed.

Lemma spawn_step inst tree prev post src :
  let p := spawn_write_callbacks inst tree prev post src in callback_step inst p.2 p.1.
Proof.
  unfold spawn_write_callbacks. destruct (negb _ && _); [by apply callback_step_same|].
  destruct (open_database (engine inst) tree) as [root'|]; [|by apply callback_step_same]. cbn [fst snd].
  set (l := default [] (write_callbacks inst !! tree)).
  set (inst' := if is_some (write_callbacks inst !! tree) then _ else inst).
  assert (forall t, callbacks_of inst' t =
    if decide (t = tree) then (fun c => mkPerDbCallbackEntry (cb_id c) post) <$> l
    else callbacks_of inst t) as Hcb.
  { intros t. unfold inst', callbacks_of, l. destruct (write_callbacks inst !! tree) as [l'|] eqn:E; simpl.
    - case_decide as Ht; [subst t; by rewrite lookup_insert_eq|by rewrite lookup_insert_ne].
    - case_decide as Ht; [subst t; by rewrite E|done]. }
  assert (next_callback_id inst' = next_callback_id inst
    /\ global_write_callbacks inst' = global_write_callbacks inst) as [Hn Hg]
    by (unfold inst'; by destruct (is_some _)).
  assert (forall t, cb_id <$> callbacks_of inst' t = cb_id <$> callbacks_of inst t) as Hids.
  { intros t. rewrite Hcb. case_decide as Ht; [subst t|done]. rewrite <- list_fmap_compose. done. }
  intros [H1 H2 H3 H4]. split; [|split; [lia|]].
  - split; rewrite ?Hn, ?Hg; [intros t; by rewrite Hids| |intros id Hid; setoid_rewrite Hids; by apply H3|done].
    intros t c Hc. assert (cb_id c ∈ cb_id <$> callbacks_of inst t) as (c0 & -> & Hc0)%list_elem_of_fmap
      by (rewrite <- Hids; by apply list_elem_of_fmap_2). by apply (H2 t).
  - intros t id _. unfold cursor. rewrite Hcb. unfold events_for. rewrite filter_app, fmap_app.
    assert (id ∈ cb_id <$> callbacks_of inst t ->
      filter (fun d => to_callback d = id /\ on_database d = t) (deliver tree prev post src <$> global_write_callbacks inst) = []) as Hglob.
    { intros Hin. apply filter_other. intros d (g & -> & Hgl)%list_elem_of_fmap [Hd _]. simpl in Hd. subst g.
      by apply H3 in Hgl as [_ Hgl]; apply (Hgl t). }
    case_decide as Ht.
    + subst t. rewrite find_advanced. change (callbacks_of inst tree) with l in *.
      split; [by destruct (List.find _ l)|]. intros c c' Hc Hc'.
      rewrite Hglob by (by apply (cursor_Some inst tree id c)).
      rewrite app_nil_r. fold (events_for tree id ((fun c => deliver tree (last_tips c) post src (cb_id c)) <$> l)).
      rewrite find_deliver by apply (H1 tree).
      destruct (List.find (fun c => bool_decide (cb_id c = id)) l); simpl in *; [|done]. naive_solver.
    + split; [done|]. intros c c' Hc Hc'. rewrite Hglob by (by apply (cursor_Some inst t id c)).
      rewrite filter_other; [simpl; congruence|].
      intros d (g & -> & _)%list_elem_of_fmap [_ Hd]. by apply Ht.
Qed.

Lemma callback_step_trans inst ds inst1 ds' inst' :
  callback_step inst ds inst1 -> callback_step inst1 ds' inst' -> callback_step inst (ds ++ ds') inst'.
Proof.
  intros S1 S2 Hok. destruct (S1 Hok) as (Hok1 & Hn1 & C1). destruct (S2 Hok1) as (Hok' & Hn2 & C2).
  split; [done|]. split; [lia|]. intros tree id Hid. destruct (C1 tree id Hid) as [N1 E1].
  destruct (C2 tree id) as [N2 E2]; [lia|]. split; [auto|]. intros c c' Hc Hc'.
  destruct (cursor inst1 tree id) as [c1|] eqn:E.
  - unfold events_for. rewrite filter_app, fmap_app. eapply contiguous_app; eauto.
  - rewrite N2 in Hc' by done. done.
Qed.

Lemma register_step inst initial_tips :
  next_callback_id inst < u64_max -> callback_step inst [] (register_write_callback inst root initial_tips).1.
Proof.
  intros Hlt [H1 H2 H3 H4]. unfold register_write_callback, take_callback_id. cbn [fst snd write_callbacks].
  set (n := next_callback_id inst) in *. set (inst' := with_callbacks _ _).
  assert (next_callback_id inst' = n + 1) as Hn by (simpl; apply as_u64_id; unfold is_u64, in_range; lia).
  assert (forall t, callbacks_of inst' t = callbacks_of inst t
    ++ if decide (t = root) then [mkPerDbCallbackEntry n initial_tips] else []) as Hcb.
  { intros t. unfold callbacks_of at 1. simpl. case_decide as Ht.
    - subst t. by rewrite lookup_insert_eq.
    - rewrite lookup_insert_ne by done. by rewrite app_nil_r. }
  assert (forall t, n ∉ cb_id <$> callbacks_of inst t) as Hfresh.
  { intros t (c & Hc & Hin)%list_elem_of_fmap. apply H2 in Hin. lia. }
  split; [split|split; [lia|]].
  - intros t. rewrite Hcb, fmap_app. case_decide; [|by rewrite app_nil_r]. apply NoDup_app.
    split; [done|]. split; [set_solver|apply NoDup_singleton].
  - intros t c. rewrite Hn, Hcb. intros [Hc|Hc]%elem_of_app; [apply H2 in Hc; lia|].
    case_decide; [|set_solver]. apply list_elem_of_singleton in Hc as ->. simpl. lia.
  - intros id Hid. rewrite Hn. apply H3 in Hid as [Hb Hno]. split; [lia|]. intros t.
    rewrite Hcb, fmap_app. specialize (Hno t). case_decide; [|set_solver]. simpl.
    rewrite elem_of_app, list_elem_of_singleton. intros [?|Heq]; [done|lia].
  - lia.
  - intros t id Hid. unfold cursor. rewrite Hcb. 
    assert (forall l : list PerDbCallbackEntry,
      List.find (fun c => bool_decide (cb_id c = id)) (l ++ if decide (t = root) then [mkPerDbCallbackEntry n initial_tips] else [])
      = List.find (fun c => bool_decide (cb_id c = id)) l) as Hfind.
    { induction l as [|c l IH]; simpl; [|by destruct (bool_decide _)].
      case_decide; [|done]. simpl. rewrite bool_decide_eq_false_2 by lia. done. }
    rewrite Hfind. split; [done|]. simpl. congruence.
Qed.

Lemma register_global_step inst :
  next_callback_id inst < u64_max -> callback_step inst [] (register_global_write_callback inst).
Proof.
  intros Hlt [H1 H2 H3 H4]. unfold register_global_write_callback, take_callback_id.
  assert (as_u64 (next_callback_id inst + 1) = next_callback_id inst + 1) as Hn
    by (apply as_u64_id; unfold is_u64, in_range; lia).
  unfold cursor, callbacks_of in *. split; [split|]; cbn [write_callbacks next_callback_id global_write_callbacks];
    unfold callbacks_of; cbn [write_callbacks]; rewrite ?Hn.
  - done.
  - intros t c Hc. apply H2 in Hc. lia.
  - intros id [Hid|Hid]%elem_of_app; [apply H3 in Hid as [? ?]; split; [lia|done]|].
    apply list_elem_of_singleton in Hid as ->. split; [lia|].
    intros t (c & Hc & Hin)%list_elem_of_fmap. apply H2 in Hin. lia.
  - lia.
  - split; [lia|]. intros t id _. split; [done|]. simpl. congruence.
Qed.

Lemma find_kept (l : list PerDbCallbackEntry) id i :
  List.find (fun c => bool_decide (cb_id c = i)) (filter (fun c => cb_id c <> id) l)
  = if decide (i = id) then None else List.find (fun c => bool_decide (cb_id c = i)) l.
Proof.
  induction l as [|c l IH]; simpl; [by case_decide|]. rewrite filter_cons.
  destruct (decide (cb_id c <> id)) as [Hk|Hk]; simpl; rewrite IH.
  - repeat case_decide; case_bool_decide; congruence.
  - case_decide; [done|]. rewrite bool_decide_eq_false_2; [done|]. intros Hc. apply Hk. congruence.
Qed.

Lemma remove_step inst id : callback_step inst [] (remove_write_callback inst root id).1.
Proof.
  unfold remove_write_callback. destruct (write_callbacks inst !! root) as [vec|] eqn:E;
    [|by apply callback_step_same].
  set (kept := filter (fun entry => cb_id entry <> id) vec).
  set (inst' := (if is_nil kept then _ else _).1).
  assert (next_callback_id inst' = next_callback_id inst
    /\ global_write_callbacks inst' = global_write_callbacks inst) as [Hn Hg]
    by (unfold inst'; by destruct (is_nil kept)).
  assert (forall t, callbacks_of inst' t = if decide (t = root) then kept else callbacks_of inst t) as Hcb.
  { intros t. unfold inst', callbacks_of. destruct (is_nil kept) eqn:Ek; simpl; case_decide as Ht.
    - subst t. rewrite lookup_delete_eq. apply is_nil_true in Ek. by rewrite Ek.
    - by rewrite lookup_delete_ne.
    - subst t. by rewrite lookup_insert_eq.
    - by rewrite lookup_insert_ne. }
  assert (callbacks_of inst root = vec) as Hvec by (unfold callbacks_of; by rewrite E).
  assert (forall t, cb_id <$> callbacks_of inst' t `sublist_of` cb_id <$> callbacks_of inst t) as Hsub.
  { intros t. rewrite Hcb. case_decide as Ht; [|done]. subst t. rewrite Hvec.
    apply fmap_sublist, sublist_filter. }
  intros [H1 H2 H3 H4]. split; [split|split; [lia|]].
  - intros t. by eapply sublist_NoDup.
  - intros t c Hc. rewrite Hn. rewrite Hcb in Hc. case_decide as Ht; [|by apply (H2 t)]. subst t.
    apply list_elem_of_filter in Hc as [_ Hc]. apply (H2 root). by rewrite Hvec.
  - intros i Hi. rewrite Hg in Hi. rewrite Hn. apply H3 in Hi as [? Hno]. split; [done|]. intros t Hin.
    apply (Hno t). by eapply elem_of_submseteq, sublist_submseteq.
  - by rewrite Hn.
  - intros t i _. unfold cursor. rewrite Hcb. case_decide as Ht; [|split; [done|simpl; congruence]].
    subst t. rewrite Hvec. unfold kept. rewrite find_kept. case_decide; [done|]. split; [done|simpl; congruence].
Qed.

Lemma put_entry_step inst tree s entry src inst' ds r :
  put_entry inst tree s entry src = (inst', ds, r) -> callback_step inst ds inst'.
Proof.
  unfold put_entry. destruct (mem_snapshot (engine inst) tree) as [inner prev].
  destruct (write_entry inner s entry) as [inner1|]; [|intros [= <- <- _]; by apply callback_step_same].
  case_decide; [|intros [= <- <- _]; by apply callback_step_same].
  destruct (mem_snapshot inner1 tree) as [inner2 post].
  pose proof (spawn_step (with_engine inst inner2) tree prev post src) as Hs.
  destruct (spawn_write_callbacks _ _ _ _ _) as [inst2 ds2]. intros [= <- <- _].
  apply (callback_step_trans inst [] (with_engine inst inner2) ds2); [by apply callback_step_same|done].
Qed.

Lemma verify_step inst inst' ds r :
  verify_and_fire map_iter inst root = Some (Done (inst', ds, r)) -> callback_step inst ds inst'.
Proof.
  unfold verify_and_fire. destruct (Database_verify map_iter (engine inst) root) as [[[inner p]|]|]; try done.
  cbn [mbind option_bind outcome_bind fst snd].
  destruct p as [[report any]|e]; [|intros [= <- <- _]; by apply callback_step_same].
  destruct any; [|intros [= <- <- _]; by apply callback_step_same].
  set (fire := (mem_snapshot (engine inst) root).2).
  pose proof (spawn_step (with_engine inst inner) root fire fire Remote) as Hs.
  destruct (spawn_write_callbacks _ _ _ _ _) as [inst2 ds2]. intros [= <- <- _].
  apply (callback_step_trans inst [] (with_engine inst inner) ds2); [by apply callback_step_same|done].
Qed.

Lemma inst_step_callbacks inst ds inst' : inst_step inst ds inst' -> callback_step inst ds inst'.
Proof.
  intros Hstep. destruct Hstep as [entry src inst' ds r _ _ H|entry src inst' ds r H|es inst' ds r H
    |entry inst' r H|inst' ds r H|allow supp inst' ds r H|target inst' r Ht H|tips0 Hlt|Hlt|id].
  - by eapply put_entry_step.
  - by eapply put_entry_step.
  - unfold put_remote_entries in H.
    destruct (is_nil es); [injection H as <- <- _; by apply callback_step_same|].
    destruct (store_batch _ es 0) as [inner n].
    case_decide; [injection H as <- <- _; by apply callback_step_same|].
    destruct (open_database inner root) as [root'|] eqn:Eo;
      [|injection H as <- <- _; by apply callback_step_same].
    assert (root' = root) as -> by (unfold open_database in Eo; destruct (storage_get _ _); simpl in Eo; congruence).
    destruct (verify_and_fire map_iter (with_engine inst inner) root) as [[[[i d] r']|]|] eqn:Ev; try done.
    injection H as <- <- _. apply (callback_step_trans inst [] (with_engine inst inner) d);
      [by apply callback_step_same|by eapply verify_step].
  - unfold insert_raw in H. destruct (mem_put _ entry); injection H as <- _; by apply callback_step_same.
  - by eapply verify_step.
  - unfold Database_snapshot in H. destruct (mem_snapshot (engine inst) root) as [inner snap].
    destruct (match tips snap with [] => false | _ => _ end); [injection H as <- <- _; by apply callback_step_same|].
    destruct (supp || _); [injection H as <- <- _; by apply callback_step_same|].
    destruct (verify_and_fire map_iter (with_engine inst inner) root) as [[[[i d] r']|]|] eqn:Ev; try done.
    cbn [mbind option_bind outcome_bind] in H. destruct (mem_snapshot (engine i) root) as [inner2 snap2].
    injection H as <- <- _.
    apply (callback_step_trans inst [] (with_engine inst inner) d); [by apply callback_step_same|].
    rewrite <- (app_nil_r d). eapply callback_step_trans; [by eapply verify_step|by apply callback_step_same].
  - unfold demote_to_unverified in H. destruct (demote_loop _ _ _ _ _ _) as [[? ?]|]; [|done].
    injection H as <- _. by apply callback_step_same.
  - by apply register_step.
  - by apply register_global_step.
  - apply remove_step.
Qed.

(** C34: The events a callback receives are contiguous: whatever the operations
    between two states in which it is registered, the first event starts at its
    cursor in the first state, each further event starts at the tips at which
    the one before it ended, and its cursor in the second state is where the
    last event ended. *)
Theorem callback_events_contiguous inst ds inst' id c c' :
  registry_ok inst -> inst_steps inst ds inst' ->
  cursor inst root id = Some c -> cursor inst' root id = Some c' ->
  contiguous c (events_for root id ds) c'.
Proof.
  intros Hok Hsteps Hc Hc'.
  assert (callback_step inst ds inst') as Hstep.
  { clear Hok Hc Hc'. induction Hsteps as [|i d i' d' i'' Hs _ IH]; [by apply callback_step_same|].
    eapply callback_step_trans; [by apply inst_step_callbacks|done]. }
  destruct (Hstep Hok) as (_ & _ & Hall). apply (Hall root id); [|done..].
  apply cursor_Some in Hc as (entry & -> & Hin)%list_elem_of_fmap. by apply (ro_below _ Hok root).
Qed.
End steps.

(** ** Concrete runs *)

#[local] Existing Instance nat_cid.
#[local] Existing Instance byte_crypto.
#[local] Existing Instance demo_codec.
#[local] Existing Instance demo_instance.
#[local] Instance demo_ops_json : JsonSpec := demo_json demo_codec.

(** An instance with one callback on the tree of the demo root. *)
Definition demo_inst (inner : InMemoryInner) : InstanceState :=
  mkInstanceState inner {[ demo_id 1 := [mkPerDbCallbackEntry 0 Snapshot_EMPTY] ]} [] 1.

Lemma demote_spec_witness :
  exists inst', demote_to_unverified (demo_inst demo_verified) (demo_id 1) (demo_id 1) = Some (inst', Ok tt)
    /\ status (engine inst') (demo_id 1) = Some Unverified.
Proof.
  destruct (demote_spec (demo_inst demo_verified) (demo_id 1) (demo_id 1) demo_verified_inv)
    as (inst' & E & _ & _ & H & _); [vm_compute; eauto|].
  exists inst'. split; [exact E|]. apply (H (demo_id 1) Verified); [vm_compute; reflexivity|by left].
Defined.

(** A raw insert of the root, then a verification pass. *)
Lemma verified_set_closed_witness :
  exists ds inst, inst_steps list_iter (demo_id 1) (mkInstanceState InMemory_new ∅ [] 0) ds inst
    /\ status (engine inst) (demo_id 1) = Some Verified /\ mem_inv (engine inst).
Proof.
  set (inst0 := mkInstanceState InMemory_new ∅ [] 0).
  set (inst1 := with_engine inst0 (storage_put InMemory_new demo_root)).
  assert (match verify_and_fire list_iter inst1 (demo_id 1) with
          | Some (Done (i, _, _)) => status (engine i) (demo_id 1) = Some Verified | _ => False end) as Hs
    by (vm_compute; reflexivity).
  destruct (verify_and_fire list_iter inst1 (demo_id 1)) as [[[[inst2 ds2] r2]|]|] eqn:E; [|destruct Hs..].
  assert (inst_steps list_iter (demo_id 1) inst0 ([] ++ ds2 ++ []) inst2) as Hsteps.
  { eapply StepsMore; [apply (StepRaw list_iter (demo_id 1) inst0 demo_root inst1 (Ok (demo_id 1))); reflexivity|].
    eapply StepsMore; [exact (StepVerify list_iter (demo_id 1) inst1 inst2 ds2 r2 E)|apply StepsDone]. }
  exists ([] ++ ds2 ++ []), inst2. split; [exact Hsteps|]. split; [exact Hs|].
  exact (proj1 (verified_set_closed list_iter (demo_id 1) (fun A m => Permutation_refl _) ∅ [] 0 _ inst2 Hsteps)).
Defined.

Lemma demo_registry inner : registry_ok (demo_inst inner).
Proof.
  assert (forall t c, c ∈ callbacks_of (demo_inst inner) t -> c = mkPerDbCallbackEntry 0 Snapshot_EMPTY) as Hc.
  { intros t c. unfold callbacks_of, demo_inst. simpl. destruct (decide (t = demo_id 1)) as [->|Hne].
    - rewrite lookup_singleton_eq. simpl. by intros ->%list_elem_of_singleton.
    - rewrite lookup_singleton_ne by congruence. simpl. set_solver. }
  split; [|by intros t c ->%Hc|simpl; set_solver|done].
  intros t. unfold callbacks_of, demo_inst. simpl. destruct (decide (t = demo_id 1)) as [->|Hne].
  - rewrite lookup_singleton_eq. apply NoDup_singleton.
  - rewrite lookup_singleton_ne by congruence. constructor.
Qed.

(** A verification pass notifies the callback from its initial cursor. *)
Lemma callback_events_contiguous_witness :
  exists ds inst' c', inst_steps list_iter (demo_id 1) (demo_inst demo_mem) ds inst'
    /\ length ds = 1%nat
    /\ contiguous Snapshot_EMPTY (events_for (demo_id 1) 0 ds) c'.
Proof.
  set (c' := mkSnapshot [demo_id 2; demo_id 3]).
  assert (match verify_and_fire list_iter (demo_inst demo_mem) (demo_id 1) with
          | Some (Done (i, ds, _)) => length ds = 1%nat /\ cursor i (demo_id 1) 0 = Some c'
          | _ => False end) as Hs by (vm_compute; split; reflexivity).
  destruct (verify_and_fire list_iter (demo_inst demo_mem) (demo_id 1)) as [[[[inst2 ds2] r2]|]|] eqn:E;
    [|destruct Hs..].
  destruct Hs as [Hl Hc'].
  assert (inst_steps list_iter (demo_id 1) (demo_inst demo_mem) (ds2 ++ []) inst2) as Hsteps.
  { eapply StepsMore; [exact (StepVerify list_iter (demo_id 1) _ inst2 ds2 r2 E)|apply StepsDone]. }
  exists (ds2 ++ []), inst2, c'. split; [exact Hsteps|]. split; [by rewrite app_nil_r|].
  exact (callback_events_contiguous list_iter (demo_id 1) (demo_inst demo_mem) (ds2 ++ []) inst2 0 Snapshot_EMPTY c'
    (demo_registry demo_mem) Hsteps (eq_refl : cursor (demo_inst demo_mem) (demo_id 1) 0 = Some Snapshot_EMPTY) Hc').
Defined.

(** The root is verified, entry 2 is not yet. *)
Definition half_verified : InMemoryInner := with_verdict demo_mem (demo_id 1) Verified.

(** A commit on an unverified parent, as a handle opened with
    [allow_unverified] makes it, is stored as verified.  The parent would be
    verified by itself, but the pass that follows does not reach it any more. *)
Theorem commit_on_unverified_strands :
  let child := demo_node Byte.x05 2 [demo_id 2; demo_id 3] [] in
  judge half_verified (demo_id 1) demo_left = Some (Ok Verified)
  /\ let '(inst, _, r) := put_entry (demo_inst half_verified) (demo_id 1) Verified child Local in
     r = Ok tt /\ status (engine inst) (demo_id 5) = Some Verified
     /\ match Database_verify list_iter (engine inst) (demo_id 1) with
        | Some (Done (inner', Ok _)) => status inner' (demo_id 2) = Some Unverified
        | _ => False
        end.
Proof. vm_compute. repeat split. Qed.
