(* ===== verification/WireCodec.v ===== *)
(** * A concrete codec

    An instance of the serialisation interfaces on which whole runs can be
    evaluated: every document is written tag by tag and read back, an entry's ID
    is a checksum of its contents. *)

From S2P Require Import Prelude.
From S2P Require Import Path.
From S2P Require Import Position.
From S2P Require Import Ids.
From S2P Require Import Doc.
From S2P Require Import Errors.
From S2P Require Import Crypto.
From S2P Require Import Permission.
From S2P Require Import AuthTypes.
From S2P Require Import AuthSettings.
From S2P Require Import Entry.
From S2P Require Import Backend.
From S2P Require Import Validation.
From S2P Require Import Verify.

(** ** Numbers, texts and lists *)

Fixpoint write_pos (p : positive) : Bytes :=
  match p with
  | xI p => Byte.x03 :: write_pos p
  | xO p => Byte.x02 :: write_pos p
  | xH => [Byte.x01]
  end.

Fixpoint read_pos (b : Bytes) : option (positive * Bytes) :=
  match b with
  | Byte.x03 :: b => p ← read_pos b; Some (xI p.1, p.2)
  | Byte.x02 :: b => p ← read_pos b; Some (xO p.1, p.2)
  | Byte.x01 :: b => Some (xH, b)
  | _ => None
  end.

Definition write_Z (z : Z) : Bytes :=
  match z with Z0 => [Byte.x00] | Zpos p => Byte.x01 :: write_pos p | Zneg p => Byte.x02 :: write_pos p end.

Definition read_Z (b : Bytes) : option (Z * Bytes) :=
  match b with
  | Byte.x00 :: b => Some (0, b)
  | Byte.x01 :: b => p ← read_pos b; Some (Zpos p.1, p.2)
  | Byte.x02 :: b => p ← read_pos b; Some (Zneg p.1, p.2)
  | _ => None
  end.

Fixpoint write_bytes (l : Bytes) : Bytes :=
  match l with [] => [Byte.x00] | x :: l => Byte.x01 :: x :: write_bytes l end.

Fixpoint read_bytes (b : Bytes) : option (Bytes * Bytes) :=
  match b with
  | Byte.x00 :: b => Some ([], b)
  | Byte.x01 :: x :: b => p ← read_bytes b; Some (x :: p.1, p.2)
  | _ => None
  end.

Definition write_string (s : string) : Bytes := write_bytes (String.list_byte_of_string s).

Definition read_string (b : Bytes) : option (string * Bytes) :=
  p ← read_bytes b; Some (String.string_of_list_byte p.1, p.2).

Lemma read_pos_write p rest : read_pos (write_pos p ++ rest) = Some (p, rest).
Proof. induction p as [p IH|p IH|]; simpl; by rewrite ?IH. Qed.

Lemma read_Z_write z rest : read_Z (write_Z z ++ rest) = Some (z, rest).
Proof. destruct z; simpl; by rewrite ?read_pos_write. Qed.

Lemma read_bytes_write l rest : read_bytes (write_bytes l ++ rest) = Some (l, rest).
Proof. induction l as [|x l IH]; simpl; [done|]. by rewrite IH. Qed.

Lemma read_string_write s rest : read_string (write_string s ++ rest) = Some (s, rest).
Proof.
  unfold read_string, write_string. rewrite read_bytes_write. simpl. by rewrite String.string_of_list_byte_of_string.
Qed.

(** ** Values *)

Fixpoint write_value (v : Value) : Bytes :=
  match v with
  | Null => [Byte.x00]
  | Bool b => [Byte.x01; if b then Byte.x01 else Byte.x00]
  | Int z => Byte.x02 :: write_Z z
  | Text s => Byte.x03 :: write_string s
  | VDoc (mkDoc ver at_ m) =>
      Byte.x04 :: write_Z ver ++ (if at_ then Byte.x01 else Byte.x00)
        :: map_fold (fun k v acc => Byte.x01 :: write_string k ++ write_value v ++ acc) [Byte.x00] m
  | VList (mkList its) =>
      Byte.x05 :: foldr (fun '(p, v) acc =>
        Byte.x01 :: write_Z (numerator p) ++ write_Z (denominator p) ++ write_Z (unique_id p) ++ write_value v ++ acc)
        [Byte.x00] its
  | Deleted => [Byte.x06]
  end.

Fixpoint read_value (fuel : nat) (b : Bytes) : option (Value * Bytes) :=
  match fuel with
  | O => None
  | S fuel =>
      match b with
      | Byte.x00 :: b => Some (Null, b)
      | Byte.x01 :: x :: b => Some (Bool (bool_decide (x = Byte.x01)), b)
      | Byte.x02 :: b => p ← read_Z b; Some (Int p.1, p.2)
      | Byte.x03 :: b => p ← read_string b; Some (Text p.1, p.2)
      | Byte.x04 :: b =>
          ver ← read_Z b;
          match ver.2 with
          | x :: b =>
              p ← read_children fuel b;
              Some (VDoc (mkDoc ver.1 (bool_decide (x = Byte.x01)) (list_to_map p.1)), p.2)
          | [] => None
          end
      | Byte.x05 :: b => p ← read_items fuel b; Some (VList (mkList p.1), p.2)
      | Byte.x06 :: b => Some (Deleted, b)
      | _ => None
      end
  end
with read_children (fuel : nat) (b : Bytes) : option (list (string * Value) * Bytes) :=
  match fuel with
  | O => None
  | S fuel =>
      match b with
      | Byte.x00 :: b => Some ([], b)
      | Byte.x01 :: b =>
          k ← read_string b;
          v ← read_value fuel k.2;
          rest ← read_children fuel v.2;
          Some ((k.1, v.1) :: rest.1, rest.2)
      | _ => None
      end
  end
with read_items (fuel : nat) (b : Bytes) : option (list (Position * Value) * Bytes) :=
  match fuel with
  | O => None
  | S fuel =>
      match b with
      | Byte.x00 :: b => Some ([], b)
      | Byte.x01 :: b =>
          n ← read_Z b;
          d ← read_Z n.2;
          u ← read_Z d.2;
          v ← read_value fuel u.2;
          rest ← read_items fuel v.2;
          Some ((mkPosition n.1 d.1 u.1, v.1) :: rest.1, rest.2)
      | _ => None
      end
  end.

(** The number of values in a value. *)
Fixpoint value_size (v : Value) : nat :=
  match v with
  | VDoc (mkDoc _ _ m) => S (map_fold (fun _ v acc => value_size v + acc)%nat 0%nat m)
  | VList (mkList its) => S (foldr (fun '(_, v) acc => value_size v + acc)%nat 0%nat its)
  | _ => 1%nat
  end.

(** What is read back at every size below [n]. *)
Definition reads_back (v : Value) : Prop := forall fuel rest,
  (length (write_value v) <= fuel)%nat -> read_value fuel (write_value v ++ rest) = Some (v, rest).

Lemma read_children_write (l : list (string * Value)) fuel rest :
  (forall k v, (k, v) ∈ l -> reads_back v) ->
  let w := foldr (fun '(k, v) acc => Byte.x01 :: write_string k ++ write_value v ++ acc) [Byte.x00] l in
  (length w <= fuel)%nat -> read_children fuel (w ++ rest) = Some (l, rest).
Proof.
  revert fuel. induction l as [|[k v] l IH]; intros fuel Hl; simpl; intros Hf; destruct fuel as [|fuel]; try (simpl in Hf; lia); [done|].
  cbn [read_children]. rewrite <- !app_assoc. rewrite read_string_write. cbn [mbind option_bind fst snd].
  rewrite !length_app in Hf.
  rewrite (Hl k v) by (by left || lia). cbn [mbind option_bind fst snd].
  rewrite IH; [done| |lia]. intros k' v' Hin. apply (Hl k'). by right.
Qed.

Lemma read_items_write (l : list (Position * Value)) fuel rest :
  (forall k v, (k, v) ∈ l -> reads_back v) ->
  let w := foldr (fun '(p, v) acc =>
    Byte.x01 :: write_Z (numerator p) ++ write_Z (denominator p) ++ write_Z (unique_id p) ++ write_value v ++ acc)
    [Byte.x00] l in
  (length w <= fuel)%nat -> read_items fuel (w ++ rest) = Some (l, rest).
Proof.
  revert fuel. induction l as [|[k v] l IH]; intros fuel Hl; simpl; intros Hf; destruct fuel as [|fuel]; try (simpl in Hf; lia); [done|].
  cbn [read_items]. rewrite <- !app_assoc. rewrite !read_Z_write. cbn [mbind option_bind fst snd].
  rewrite read_Z_write. cbn [mbind option_bind fst snd]. rewrite read_Z_write. cbn [mbind option_bind fst snd].
  rewrite !length_app in Hf. rewrite (Hl k v) by (by left || lia). cbn [mbind option_bind fst snd].
  rewrite IH; [by destruct k| |lia]. intros k' v' Hin. apply (Hl k'). by right.
Qed.

Lemma value_size_child (m : gmap string Value) k v :
  m !! k = Some v -> (value_size v <= map_fold (fun _ v acc => value_size v + acc) 0 m)%nat.
Proof.
  intros Hm%elem_of_map_to_list. rewrite map_fold_foldr. induction (map_to_list m) as [|[k' v'] l IH]; [by apply elem_of_nil in Hm|].
  simpl. apply elem_of_cons in Hm as [[= -> ->]|Hm]; [lia|]. specialize (IH Hm). lia.
Qed.

Lemma value_size_item (l : list (Position * Value)) k v :
  (k, v) ∈ l -> (value_size v <= foldr (fun '(_, v) acc => value_size v + acc) 0 l)%nat.
Proof.
  induction l as [|[k' v'] l IH]; intros Hm; [by apply elem_of_nil in Hm|].
  simpl. apply elem_of_cons in Hm as [[= -> ->]|Hm]; [lia|]. specialize (IH Hm). lia.
Qed.

Lemma read_value_write v : reads_back v.
Proof.
  remember (value_size v) as n eqn:Hn. revert v Hn. induction n as [n IH] using lt_wf_ind. intros v -> fuel rest Hf.
  destruct fuel as [|fuel]; [destruct v as [| | | |[]|[]|]; simpl in Hf; lia|].
  destruct v as [|b|z|s|[ver a m]|[its]|]; cbn [write_value read_value app].
  - done.
  - by destruct b.
  - by rewrite read_Z_write.
  - by rewrite read_string_write.
  - rewrite <- app_assoc, read_Z_write. cbn [mbind option_bind fst snd app]. rewrite map_fold_foldr.
    simpl in Hf. rewrite map_fold_foldr, length_app in Hf. simpl in Hf.
    pose proof (read_children_write (map_to_list m) fuel rest) as H. cbn zeta in H.
    assert (forall l, foldr (uncurry (fun k v acc => Byte.x01 :: write_string k ++ write_value v ++ acc)) [Byte.x00] l
      = foldr (fun '(k, v) acc => Byte.x01 :: write_string k ++ write_value v ++ acc) [Byte.x00] l) as Hu.
    { induction l as [|[k v] l IHl]; simpl; [done|]. by rewrite IHl. }
    rewrite Hu in Hf |- *. rewrite H; [|intros k v Hin|lia].
    + cbn [mbind option_bind fst snd]. rewrite list_to_map_to_list. by destruct a.
    + apply (IH (value_size v)); [|done]. apply elem_of_map_to_list in Hin. apply value_size_child in Hin. simpl. lia.
  - simpl in Hf. pose proof (read_items_write its fuel rest) as H. cbn zeta in H. rewrite H; [done| |lia].
    intros k v Hin. apply (IH (value_size v)); [|done]. apply value_size_item in Hin. simpl. lia.
  - done.
Qed.

(** ** The codec *)

Definition checksum (b : Bytes) : nat :=
  Z.to_nat ((foldl (fun acc x => (acc * 31 + Z.of_N (Byte.to_N x) + 7) mod 9973) 1 b) mod 997).

Definition entry_bytes (e : @Entry nat_cid byte_crypto) : Bytes :=
  write_string (ID_to_string (default ID_default (tn_root (e_tree e))))
  ++ concat ((fun id => write_string (ID_to_string id)) <$> tn_parents (e_tree e))
  ++ default [] (tn_metadata (e_tree e))
  ++ concat ((fun st => write_string (st_name st) ++ default [] (st_data st)) <$> e_subtrees e).

#[local] Existing Instance nat_cid.
#[local] Existing Instance byte_crypto.

Definition wire_codec : CodecSpec := {|
  to_dagcbor e := entry_bytes e;
  blake3_dagcbor_cid b := checksum b : @Cid nat_cid;
  json_to_doc b := match read_value (length b) b with Some (VDoc d, []) => Some d | _ => None end;
|}.

#[local] Existing Instance wire_codec.

Fixpoint read_ids (k : nat) (b : Bytes) : option (list ID) :=
  match k with
  | O => Some []
  | S k => i ← read_Z b; rest ← read_ids k i.2; Some (demo_id (Z.to_nat i.1) :: rest)
  end.

Definition wire_json : JsonSpec := {|
  json_to_metadata b :=
    z ← read_Z b;
    n ← read_Z z.2;
    ids ← read_ids (Z.to_nat n.1) n.2;
    Some (mkEntryMetadata (Snapshot_new ids) (if decide (z.1 < 0) then None else Some z.1));
  metadata_to_json md :=
    write_Z (default (-1) (entropy md)) ++ write_Z (Z.of_nat (length (tips (settings_snapshot md))))
    ++ concat ((fun id => match id with mkID (Some n) => write_Z (Z.of_nat n) | mkID None => write_Z (-1) end)
               <$> tips (settings_snapshot md));
  doc_to_json d := write_value (VDoc d);
|}.

(** The text of a document is never empty, and is read back. *)
Lemma wire_json_roundtrip d :
  json_to_doc (doc_to_json (JsonSpec := wire_json) d) = Some d /\ doc_to_json (JsonSpec := wire_json) d <> [].
Proof.
  split; [|by destruct d].
  change (match read_value (length (write_value (VDoc d))) (write_value (VDoc d)) with
          | Some (VDoc d, []) => Some d | _ => None end = Some d).
  rewrite <- (app_nil_r (write_value (VDoc d))) at 2. by rewrite read_value_write.
Qed.
