(* ===== verification/Transaction.v ===== *)
(** * Transactions: reading the state of a store (transaction/mod.rs)

    A transaction holds the entry being built and reads through the in-memory
    backend, with its tips caches and its cache of materialised states.  Its
    methods are computations in a state monad: [None] is a walk out of fuel, and
    a method returns a value or an error together with the state it leaves.
    The CRDT type is the document; encryption of a store is an interface.

    The state of a store at a set of tips is computed from the merge base of the
    tips, the entries on the paths from it, and cached intermediate states.
    StoreState shows that the result is the merge of all entries of the store
    below the tips in height order, whatever the cache holds. *)

From S2P Require Import Prelude.
From S2P Require Import Worklist.
From S2P Require Import Path.
From S2P Require Import Position.
From S2P Require Import Ids.
From S2P Require Import Doc.
From S2P Require Import DocPath.
From S2P Require Import Errors.
From S2P Require Import Crypto.
From S2P Require Import Permission.
From S2P Require Import AuthTypes.
From S2P Require Import AuthSettings.
From S2P Require Import Entry.
From S2P Require Import Backend.
From S2P Require Import Traversal.
From S2P Require Import CrdtCache.
From S2P Require Import StoreTips.
From S2P Require Import MergeBase.
From S2P Require Import BackendSteps.
From S2P Require Import Reachability.
From S2P Require Import Validation.
From S2P Require Import Kahn.
From S2P Require Import Verify.

Section transaction.
Context `{CD : CodecSpec} `{JS : !JsonSpec} `{LS : !LruSpec CacheKey (list Byte.byte)}.

(** The trait [Encryptor]. *)
Record Encryptor : Type := mkEncryptor {
  encrypt : Bytes -> Result Bytes Error;
  decrypt : Bytes -> Result Bytes Error;
}.

(** The mutable part of a transaction and the backend it works on. *)
Record TxState : Type := mkTxState {
  tx_mem : InMemory;
  entry_builder : option EntryBuilder;
  encryptors : gmap string Encryptor;
  system_subtrees_locked : bool;
}.

Definition with_mem (s : TxState) (m : InMemory) : TxState :=
  mkTxState m (entry_builder s) (encryptors s) (system_subtrees_locked s).

Definition with_builder (s : TxState) (b : EntryBuilder) : TxState :=
  mkTxState (tx_mem s) (Some b) (encryptors s) (system_subtrees_locked s).

(** ** The monad *)

Definition Tx (A : Type) : Type := TxState -> option (Outcome (TxState * Result A Error)).

Definition tx_ret {A} (a : A) : Tx A := fun s => Some (Done (s, Ok a)).

Definition tx_fail {A} (e : Error) : Tx A := fun s => Some (Done (s, Err e)).

Definition tx_bind {A B} (m : Tx A) (k : A -> Tx B) : Tx B := fun s =>
  match m s with
  | None => None
  | Some Panic => Some Panic
  | Some (Done (s, Err e)) => Some (Done (s, Err e))
  | Some (Done (s, Ok a)) => k a s
  end.

Definition tx_lift {A} (r : Result A Error) : Tx A := fun s => Some (Done (s, r)).

(** The result of a call as a value, error or not. *)
Definition tx_try {A} (m : Tx A) : Tx (Result A Error) := fun s =>
  match m s with
  | None => None
  | Some Panic => Some Panic
  | Some (Done (s, r)) => Some (Done (s, Ok r))
  end.

(** A read of the backend that changes nothing. *)
Definition tx_read {A} (f : InMemoryInner -> option (Result A Error)) : Tx A := fun s =>
  match f (mem_inner (tx_mem s)) with
  | None => None
  | Some r => Some (Done (s, r))
  end.
End transaction.

Notation "'do' x <- m ; k" := (tx_bind m (fun x => k))
  (at level 200, x pattern, m at level 100, k at level 200) : eidetica_scope.
Open Scope eidetica_scope.

Section operations.
Context `{CD : CodecSpec} `{JS : !JsonSpec} `{LS : !LruSpec CacheKey (list Byte.byte)}.
(** The order of iteration of a hash set, and the hash of [ID::from_bytes]. *)
Context (iter : gset ID -> list ID) (blake3_raw_cid : string -> Cid).
Context (root : ID).

(** ** The backend *)

Definition backend_get (id : ID) : Tx Entry := tx_read (fun inner => Some (storage_get inner id)).

Definition backend_snapshot : Tx Snapshot := fun s =>
  let '(inner, snap) := mem_snapshot (mem_inner (tx_mem s)) root in
  Some (Done (with_mem s (with_inner (tx_mem s) inner), Ok snap)).

Definition backend_store_snapshot (store : string) : Tx Snapshot := fun s =>
  let '(inner, snap) := mem_store_snapshot (mem_inner (tx_mem s)) root store in
  Some (Done (with_mem s (with_inner (tx_mem s) inner), Ok snap)).

Definition backend_store_snapshot_at (store : string) (main : Snapshot) : Tx Snapshot := fun s =>
  match mem_store_snapshot_at iter (mem_inner (tx_mem s)) root store main with
  | None => None
  | Some (inner, r) => Some (Done (with_mem s (with_inner (tx_mem s) inner), r))
  end.

Definition backend_store_at (store : string) (snap : Snapshot) : Tx (list Entry) :=
  tx_read (fun inner => store_at inner root store (tips snap)).

(** The local backend serves the shared scope of the cache. *)
Definition get_cached_crdt_state (id : ID) (store : string) : Tx (option Bytes) := fun s =>
  let '(cache, r) := cache_get (crdt_cache (tx_mem s)) Shared id store in
  Some (Done (with_mem s (with_cache (tx_mem s) cache), Ok r)).

Definition cache_crdt_state (id : ID) (store : string) (state : Bytes) : Tx unit := fun s =>
  match cache_put (crdt_cache (tx_mem s)) Shared id store state with
  | None => None
  | Some cache => Some (Done (with_mem s (with_cache (tx_mem s) cache), Ok tt))
  end.

(** ** Encryption *)

Definition decrypt_if_needed (subtree : string) (data : Bytes) : Tx Bytes := fun s =>
  Some (Done (s, match encryptors s !! subtree with
                 | Some encryptor => decrypt encryptor data
                 | None => Ok data
                 end)).

Definition encrypt_if_needed (subtree : string) (plaintext : Bytes) : Tx Bytes := fun s =>
  Some (Done (s, match encryptors s !! subtree with
                 | Some encryptor => encrypt encryptor plaintext
                 | None => Ok plaintext
                 end)).

Definition register_encryptor (subtree : string) (encryptor : Encryptor) : Tx unit := fun s =>
  Some (Done (mkTxState (tx_mem s) (entry_builder s) (<[ subtree := encryptor ]> (encryptors s))
    (system_subtrees_locked s), Ok tt)).

(** ** The builder *)

Definition get_builder : Tx EntryBuilder := fun s =>
  Some (Done (s, ok_or (entry_builder s) (ETransaction TransactionAlreadyCommitted))).

Definition put_builder (b : EntryBuilder) : Tx unit := fun s => Some (Done (with_builder s b, Ok tt)).

Definition builder_parents (b : EntryBuilder) : list ID := tn_parents (b_tree b).

Definition builder_has (b : EntryBuilder) (subtree : string) : bool :=
  bool_decide (subtree ∈ EntryBuilder_subtrees b).

Definition get_subtree_tips (subtree_name : string) (main_parents : list ID) : Tx (list ID) :=
  do snap <- backend_store_snapshot_at subtree_name (Snapshot_new main_parents);
  tx_ret (tips snap).

Definition init_subtree_parents (subtree_name : string) : Tx unit :=
  do b <- get_builder;
  if builder_has b subtree_name then tx_ret tt
  else
    do ids <- get_subtree_tips subtree_name (builder_parents b);
    do b <- get_builder;
    put_builder (set_subtree_parents b subtree_name ids).

Definition update_subtree (subtree : string) (data : Bytes) : Tx unit :=
  do b <- get_builder;
  do ids <- (if builder_has b subtree then tx_ret None
             else do snap <- backend_store_snapshot subtree; tx_ret (Some (tips snap)));
  do b <- get_builder;
  let b := set_subtree_data b subtree data in
  put_builder (match ids with Some ids => set_subtree_parents b subtree ids | None => b end).

Definition get_local_data (subtree_name : string) : Tx (option Doc) :=
  do b <- get_builder;
  match EntryBuilder_data b subtree_name with
  | Ok data =>
      if is_nil data then tx_ret None
      else tx_lift (let? d := ok_or (json_to_doc data)
                                (ETransaction (TransactionStoreDeserializationFailed subtree_name)) in
                    Ok (Some d))
  | Err _ => tx_ret None
  end.

(** ** The state of a store *)

(** What one entry contributes: nothing when it has no data for the store. *)
Definition entry_contribution (subtree_name : string) (entry : Entry) : Tx Doc :=
  match Entry_data entry subtree_name with
  | Ok data =>
      do plaintext <- decrypt_if_needed subtree_name data;
      tx_lift (ok_or (json_to_doc plaintext) ESerialize)
  | Err _ => tx_ret Doc_new
  end.

Fixpoint merge_entries (subtree_name : string) (state : Doc) (es : list Entry) : Tx Doc :=
  match es with
  | [] => tx_ret state
  | entry :: rest =>
      do local_data <- entry_contribution subtree_name entry;
      merge_entries subtree_name (Doc_merge state local_data) rest
  end.

Fixpoint merge_path_entries (subtree_name : string) (state : Doc) (entry_ids : list ID) : Tx Doc :=
  match entry_ids with
  | [] => tx_ret state
  | id :: rest =>
      do entry <- backend_get id;
      do local_data <- entry_contribution subtree_name entry;
      merge_path_entries subtree_name (Doc_merge state local_data) rest
  end.

Definition decode_cached (subtree_name : string) (cached_state : Bytes) : Tx Doc :=
  do decrypted <- decrypt_if_needed subtree_name cached_state;
  tx_lift (ok_or (json_to_doc decrypted) ESerialize).

Definition store_cached (id : ID) (subtree_name : string) (result : Doc) : Tx unit :=
  do to_cache <- encrypt_if_needed subtree_name (doc_to_json result);
  cache_crdt_state id subtree_name to_cache.

Definition compute_single_entry_state_recursive (subtree_name : string) (entry_id : ID) : Tx Doc :=
  do cached <- get_cached_crdt_state entry_id subtree_name;
  match cached with
  | Some cached_state => decode_cached subtree_name cached_state
  | None =>
      do es <- backend_store_at subtree_name (Snapshot_new [entry_id]);
      do result <- merge_entries subtree_name Doc_new es;
      do _ <- store_cached entry_id subtree_name result;
      tx_ret result
  end.

(** [merge:{tip1}:{tip2}:...], hashed. *)
Definition merge_cache_key (tip_ids : list ID) : string :=
  foldl (fun key tip => key +:+ ":" +:+ ID_to_string tip) "merge" (sort_by (cmp_leb ID_cmp) tip_ids).

Definition create_merge_cache_id (tip_ids : list ID) : ID :=
  mkID (Some (blake3_raw_cid (merge_cache_key tip_ids))).

Definition compute_subtree_state_merge_based (subtree_name : string) (entry_ids : list ID) : Tx Doc :=
  match entry_ids with
  | [] => tx_ret Doc_new
  | [id] => compute_single_entry_state_recursive subtree_name id
  | _ =>
      let cache_id := create_merge_cache_id entry_ids in
      do cached <- get_cached_crdt_state cache_id subtree_name;
      match cached with
      | Some cached_state => decode_cached subtree_name cached_state
      | None =>
          do merge_base_id <- tx_read (fun inner => find_merge_base iter inner root subtree_name entry_ids);
          do result <- compute_single_entry_state_recursive subtree_name merge_base_id;
          do path_entries <- tx_read (fun inner =>
            get_path_from_to inner root subtree_name merge_base_id entry_ids);
          do result <- merge_path_entries subtree_name result path_entries;
          do _ <- store_cached cache_id subtree_name result;
          tx_ret result
      end
  end.

(** The tips of the store for a transaction on [main_parents]: the current ones
    when the parents are the current snapshot. *)
Definition full_state_tips (subtree_name : string) (main_parents : list ID) : Tx Snapshot :=
  do current_database_snapshot <- backend_snapshot;
  let parents_snapshot := Snapshot_new main_parents in
  if decide (parents_snapshot = current_database_snapshot) then backend_store_snapshot subtree_name
  else backend_store_snapshot_at subtree_name parents_snapshot.

Definition get_full_state (subtree_name : string) : Tx Doc :=
  do b <- get_builder;
  do _ <- (if builder_has b subtree_name then tx_ret tt
           else
             do snap <- full_state_tips subtree_name (builder_parents b);
             do b <- get_builder;
             put_builder (set_subtree_parents b subtree_name (tips snap)));
  do b <- get_builder;
  let parents := match EntryBuilder_subtree_parents b subtree_name with Ok ps => ps | Err _ => [] end in
  if is_nil parents then tx_ret Doc_new
  else compute_subtree_state_merge_based subtree_name parents.

(** ** Opening a transaction and its metadata *)

Fixpoint check_new_tips (inner : InMemoryInner) (ids : list ID) : Result unit Error :=
  match ids with
  | [] => Ok tt
  | tip_id :: rest =>
      let? entry := storage_get inner tip_id in
      if negb (in_tree entry root) then Err (ETransaction (InvalidTip tip_id))
      else check_new_tips inner rest
  end.

(** Without tips only the root entry itself may be built. *)
Definition new_at (m : InMemory) (snapshot : Snapshot) : Result TxState Error :=
  let ids := tips snapshot in
  if is_nil ids && is_ok (storage_get (mem_inner m) root) then Err (ETransaction EmptyTipsNotAllowed)
  else
    let? _ := check_new_tips (mem_inner m) ids in
    let builder := EntryBuilder_new root in
    Ok (mkTxState m (Some (if is_nil ids then builder else set_parents builder ids)) ∅ false).

Definition set_locked (locked : bool) : Tx unit := fun s =>
  Some (Done (mkTxState (tx_mem s) (entry_builder s) (encryptors s) locked, Ok tt)).

(** The guard that [lock_system_subtrees] returns releases the lock when it is
    dropped. *)
Definition lock_system_subtrees : Tx unit := set_locked true.
Definition drop_lock_guard : Tx unit := set_locked false.

Definition set_entry_root (new_root : ID) : Tx unit :=
  do b <- get_builder;
  put_builder (set_root b new_root).

(** The metadata staged so far; what does not parse is replaced. *)
Definition builder_metadata (b : EntryBuilder) : EntryMetadata :=
  default (mkEntryMetadata (Snapshot_new []) None)
    (raw ← tn_metadata (b_tree b); json_to_metadata raw).

Definition set_metadata_entropy (e : Z) : Tx unit :=
  do b <- get_builder;
  let metadata := mkEntryMetadata (settings_snapshot (builder_metadata b)) (Some e) in
  put_builder (set_metadata b (metadata_to_json metadata)).
End operations.
