(* ===== verification/StoreState.v ===== *)
(** * The state of a store

    What [compute_subtree_state_merge_based] of transaction/mod.rs returns: the
    merge of all entries of the store at or below the tips, in height order,
    although it merges only the entries above the merge base into a state that
    may come from the cache. *)

From S2P Require Import Prelude.
From S2P Require Import Worklist.
From S2P Require Import Path.
From S2P Require Import Position.
From S2P Require Import Ids.
From S2P Require Import Doc.
From S2P Require Import DocPath.
From S2P Require Import Errors.
From S2P Require Import Crypto.
From S2P Require Import Permission.
From S2P Require Import AuthTypes.
From S2P Require Import AuthSettings.
From S2P Require Import Entry.
From S2P Require Import Backend.
From S2P Require Import Traversal.
From S2P Require Import CrdtCache.
From S2P Require Import StoreTips.
From S2P Require Import MergeBase.
From S2P Require Import BackendSteps.
From S2P Require Import Reachability.
From S2P Require Import Validation.
From S2P Require Import Kahn.
From S2P Require Import Verify.
From S2P Require Import Transaction.

(** A list that is sorted already stays as it is. *)
Lemma sort_by_id {A} (leb : A -> A -> bool) (l : list A) :
  StronglySorted (fun a b => leb a b = true) l -> sort_by leb l = l.
Proof.
  induction 1 as [|x l Hs IH Hx]; [done|]. simpl. rewrite IH.
  destruct l as [|y l]; [done|]. simpl. inversion Hx as [|? ? Hxy]; subst. by rewrite Hxy.
Qed.

Section history.
Context `{CD : CodecSpec}.
Context (inner : InMemoryInner) (root : ID) (subtree : string).
Notation es := (entries inner).
Notation height := (subtree_height_or_0 subtree).

(** A store whose history is complete and whose entries are higher than their
    store parents. *)
Record store_history : Prop := {
  sh_ids : ids_ok es;
  sh_valid id e : es !! id = Some e -> Entry_validate e = Ok tt;
  sh_closed : store_closed es root subtree;
  sh_heights x y e e' : store_edge es root subtree x y ->
    es !! x = Some e -> es !! y = Some e' -> height e' < height e;
}.

Context (H : store_history).

Lemma history_acyclic : acyclic_store es root subtree.
Proof. apply (heights_acyclic height). intros x y e e'. apply (sh_heights H). Qed.

(** Heights along a path. *)
Lemma up_height x y e e' :
  stored es root subtree x -> rtc (up es subtree) x y -> es !! x = Some e -> es !! y = Some e' ->
  height e' <= height e /\ (x <> y -> height e' < height e).
Proof.
  intros Hx Hr. revert e. induction Hr as [x|x z y Hxz Hzy IH]; intros e He He'.
  { rewrite He in He'. injection He' as ->. split; [lia|done]. }
  apply up_store_edge with (tree := root) in Hxz; [|done].
  destruct (sh_closed H x z Hxz) as (ez & Hez & Hs).
  destruct (IH (ex_intro _ ez (conj Hez Hs)) ez Hez He') as [Hle _].
  pose proof (sh_heights H x z e ez Hxz He Hez). lia.
Qed.

(** A path meets [c] or avoids it. *)
Lemma through_or_avoiding c x y :
  rtc (up es subtree) x y -> rtc (up es subtree) x c \/ rtc (avoiding c (up es subtree)) x y.
Proof.
  induction 1 as [x|x z y Hxz Hzy [IH|IH]]; [right; apply rtc_refl|left; by eapply rtc_l|].
  destruct (decide (x = c)) as [->|Hne]; [left; apply rtc_refl|right]. by eapply rtc_l; [split|].
Qed.

(** What is above the base is higher than what is at or below it. *)
Lemma above_base_higher base to_ids x y e e' :
  (forall t, t ∈ to_ids -> stored es root subtree t) ->
  common_dominator es subtree to_ids base ->
  on_path es root subtree base to_ids x -> rtc (up es subtree) base y ->
  es !! x = Some e -> es !! y = Some e' -> height e' < height e.
Proof.
  intros Hto Hdom Hx Hy He He'.
  pose proof (proj1 (dominated_path es root subtree (sh_closed H) history_acyclic base to_ids x Hto Hdom) Hx)
    as [(t & Ht & Htx) Hnb].
  pose proof (Hto t Ht) as Hst. destruct (Hdom t Ht) as [Htb Hd].
  assert (forall z, rtc (up es subtree) t z -> stored es root subtree z) as Hs.
  { intros z. apply stored_rtc; [|done]. intros a b. apply (stored_up _ _ _ (sh_closed H)). }
  assert (exists eb, es !! base = Some eb) as [eb Heb] by (destruct (Hs base Htb) as (eb & ? & _); eauto).
  pose proof (Hs x Htx) as Hsx.
  destruct (up_height base y eb e' (Hs base Htb) Hy Heb He') as [Hle _].
  assert (rtc (up es subtree) x base) as Hxb.
  { destruct (reaches_root es root subtree (sh_closed H) history_acyclic x Hsx) as (r & Hxr & Hroot).
    destruct (decide (x = base)) as [->|Hne]; [apply rtc_refl|].
    destruct (through_or_avoiding base x r Hxr) as [Hthru|Havoid]; [done|].
    assert (r = base) as ->; [|done]. apply Hd; [|done]. etrans; [|done].
    by apply rtc_not_below. }
  destruct (up_height x base e eb Hsx Hxb He Heb) as [_ Hlt].
  assert (x <> base) as Hne by (intros ->; apply Hnb, rtc_refl). specialize (Hlt Hne). lia.
Qed.

(** The entries of the path are sorted like their IDs. *)
Lemma path_entries_sorted l pe :
  Forall2 (fun id e => es !! id = Some e) l pe ->
  Sorted (fun a b => height_id_leb es subtree a b = true) l ->
  StronglySorted (fun a b => entry_leb height a b = true) pe.
Proof.
  intros Hf Hs. apply Sorted_StronglySorted in Hs.
  2: { intros a b c. apply (transitivity (R := fun a b => cmp_leb (cmp_pair Z.compare ID_cmp) a b = true)). }
  assert (forall a b e e', es !! a = Some e -> es !! b = Some e' ->
    height_id_leb es subtree a b = entry_leb height e e') as Heq.
  { intros a b e e' Ha Hb. unfold height_id_leb, entry_leb, store_height_or_0.
    by rewrite Ha, Hb, (sh_ids H _ _ Ha), (sh_ids H _ _ Hb). }
  induction Hf as [|id e l pe He Hf IH]; [constructor|].
  apply StronglySorted_inv in Hs as [Hs Hall]. constructor; [by apply IH|].
  clear IH Hs. induction Hf as [|id' e' l pe He' Hf IH]; [constructor|].
  apply Forall_cons in Hall as [Hle Hall]. constructor; [by rewrite <- (Heq id id')|by apply IH].
Qed.

Lemma path_entries l :
  (forall x, x ∈ l -> stored es root subtree x) ->
  exists pe, Forall2 (fun id e => es !! id = Some e) l pe.
Proof.
  induction l as [|x l IH]; intros Hl; [by exists []|].
  destruct IH as [pe Hpe]; [set_solver|]. destruct (Hl x) as (e & He & _); [by left|].
  exists (e :: pe). by constructor.
Qed.

Lemma path_entries_elem l pe e :
  Forall2 (fun id e => es !! id = Some e) l pe -> e ∈ pe <-> exists id, id ∈ l /\ es !! id = Some e.
Proof.
  induction 1 as [|id e' l pe He Hf IH]; [set_solver|]. rewrite elem_of_cons, IH. split.
  - intros [->|(i & ? & ?)]; [exists id; by split; [left|]|exists i; by split; [right|]].
  - intros (i & [->|Hi]%elem_of_cons & Hie); [left; congruence|right; eauto].
Qed.

Lemma path_entries_NoDup l pe :
  Forall2 (fun id e => es !! id = Some e) l pe -> NoDup l -> NoDup pe.
Proof.
  intros Hf. assert (Entry_id <$> pe = l) as <-; [|apply NoDup_fmap_1].
  induction Hf as [|id e l pe He Hf IH]; [done|]. rewrite fmap_cons, IH. f_equal. by apply (sh_ids H).
Qed.

Lemma up_store_rtc x y :
  stored es root subtree x -> rtc (up es subtree) x y <-> rtc (store_edge es root subtree) x y.
Proof.
  intros Hx. split; intros Hr; induction Hr as [|x z y Hxz Hzy IH]; try apply rtc_refl;
    (eapply rtc_l; [by apply (up_store_edge es root subtree)|]); apply IH.
  - by eapply (stored_up _ _ _ (sh_closed H)).
  - by apply (sh_closed H x).
Qed.

(** The entries below the tips, found by [store_at]. *)
Lemma store_at_below tips :
  (forall t, t ∈ tips -> stored es root subtree t) ->
  exists acc, store_at inner root subtree tips = Some (Ok (sort_by (entry_leb height) acc)) /\ NoDup acc
    /\ forall e, e ∈ acc <-> exists id, es !! id = Some e
         /\ exists t, t ∈ tips /\ rtc (up es subtree) t id.
Proof.
  intros Ht. destruct (store_at_walk inner root subtree tips (sh_ids H)) as (acc & -> & Hnd & Hacc).
  exists acc. split; [done|]. split; [done|]. intros e. rewrite Hacc. split.
  - intros (id & He & _ & t & Hin & Hr). exists id. split; [done|]. exists t. split; [done|].
    apply up_store_rtc; [by apply Ht|done].
  - intros (id & He & t & Hin & Hr). exists id. split; [done|].
    assert (stored es root subtree id) as (e' & He' & Hs).
    { eapply stored_rtc; [|by apply (Ht t)|exact Hr]. apply (stored_up _ _ _ (sh_closed H)). }
    split; [congruence|]. exists t. split; [done|]. apply up_store_rtc; [by apply Ht|done].
Qed.

(** Sorting the entries below the tips puts those at or below a common dominator
    first, and then the path from it. *)
Lemma store_split base tips :
  tips <> [] -> (forall t, t ∈ tips -> stored es root subtree t) ->
  common_dominator es subtree tips base ->
  exists l pe below, get_path_from_to inner root subtree base tips = Some (Ok l)
    /\ Forall2 (fun id e => es !! id = Some e) l pe
    /\ store_at inner root subtree [base] = Some (Ok below)
    /\ store_at inner root subtree tips = Some (Ok (below ++ pe)).
Proof.
  intros Hne Ht Hdom. pose proof history_acyclic as Hac.
  destruct (path_from_base inner root subtree base tips (sh_closed H) Hac Ht Hdom)
    as (l & Hl & Hnd & Hs & Hin).
  assert (forall t z, t ∈ tips -> rtc (up es subtree) t z -> stored es root subtree z) as Hst.
  { intros t z Hti Hr. eapply stored_rtc; [|by apply (Ht t)|exact Hr]. apply (stored_up _ _ _ (sh_closed H)). }
  destruct (path_entries l) as [pe Hpe].
  { intros x [(t & Hti & Hr) _]%Hin. by apply (Hst t). }
  assert (stored es root subtree base) as Hb.
  { destruct tips as [|t0 ?]; [done|]. apply (Hst t0); [by left|]. apply Hdom. by left. }
  destruct (store_at_below [base]) as (B & HB & HndB & HinB); [by intros t ->%list_elem_of_singleton|].
  destruct (store_at_below tips Ht) as (A & HA & HndA & HinA).
  exists l, pe, (sort_by (entry_leb height) B). split; [done|]. split; [done|]. split; [done|].
  rewrite HA. do 2 f_equal.
  assert (forall e, e ∈ B -> exists id, es !! id = Some e /\ rtc (up es subtree) base id) as HB1.
  { intros e (id & He & t & ->%list_elem_of_singleton & Hr)%HinB. eauto. }
  assert (forall x, x ∈ l <-> on_path es root subtree base tips x) as Hon.
  { intros x. rewrite Hin. symmetry. by apply dominated_path; [apply H|..]. }
  rewrite <- (sort_by_id (entry_leb height) (sort_by _ B ++ pe)).
  - apply (sorted_entries_unique es); [apply H| |done| |].
    + intros e (id & He & _)%HinA. eauto.
    + apply NoDup_app. rewrite sort_by_perm. split; [done|]. split; [|by eapply path_entries_NoDup].
      intros e (id & He & Hr)%elem_of_sort_by%HB1 (id' & Hl' & He')%(path_entries_elem l); [|done].
      apply Hin in Hl' as [_ Hn]. apply Hn.
      by rewrite <- (sh_ids H _ _ He'), (sh_ids H _ _ He).
    + intros e. rewrite elem_of_app, elem_of_sort_by, HinA, HinB, (path_entries_elem l pe) by done. split.
      * intros (id & He & t & Hti & Hr). destruct (decide (id ∈ Entry_id <$> B)) as [HidB|HidB].
        -- left. apply list_elem_of_fmap in HidB as (e' & -> & (id' & He' & Hr')%HB1).
           rewrite (sh_ids H _ _ He') in He. exists id'. split; [done|].
           exists base. split; [by apply list_elem_of_singleton|done].
        -- right. exists id. split; [|done]. apply Hin. split; [eauto|]. intros Hr'. apply HidB.
           rewrite <- (sh_ids H _ _ He). apply list_elem_of_fmap_2, HinB. exists id. split; [done|].
           exists base. split; [by apply list_elem_of_singleton|done].
      * intros [(id & He & t & ->%list_elem_of_singleton & Hr)|(id & Hid & He)]; exists id; (split; [done|]).
        -- destruct tips as [|t0 ?]; [done|]. exists t0. split; [by left|].
           etrans; [|done]. apply Hdom. by left.
        -- by apply Hin in Hid as [? _].
  - apply StronglySorted_app. split; [|split; [apply sort_entries_strongly|by eapply path_entries_sorted]].
    intros e e' (id & He & Hr)%elem_of_sort_by%HB1 (id' & Hid'%Hon & He')%(path_entries_elem l); [|done].
    pose proof (above_base_higher base tips id' id e' e Ht Hdom Hid' Hr He' He) as Hlt.
    unfold entry_leb, cmp_leb, cmp_pair. simpl. by rewrite (proj2 (Z.compare_lt_iff _ _) Hlt).
Qed.
End history.

(** ** The computation *)

Section state.
Context `{CD : CodecSpec} `{JS : !JsonSpec} `{LS : !LruSpec CacheKey (list Byte.byte)}.
Context (iter : gset ID -> list ID) (blake3_raw_cid : string -> Cid).
Context (root : ID) (subtree : string) (enc : option Encryptor) (inner : InMemoryInner).

(** Reading and writing a payload of the store. *)
Definition open_payload (b : Bytes) : Result Doc Error :=
  let? p := match enc with Some c => decrypt c b | None => Ok b end in ok_or (json_to_doc p) ESerialize.

Definition seal_payload (d : Doc) : Result Bytes Error :=
  match enc with Some c => encrypt c (doc_to_json d) | None => Ok (doc_to_json d) end.

Definition contribution (e : Entry) : Result Doc Error :=
  match Entry_data e subtree with Ok data => open_payload data | Err _ => Ok Doc_new end.

(** The specification: the entries in order, merged one after the other. *)
Fixpoint merge_all (state : Doc) (es : list Entry) : Result Doc Error :=
  match es with
  | [] => Ok state
  | e :: rest => let? d := contribution e in merge_all (Doc_merge state d) rest
  end.

(** The state of the store at the tips. *)
Definition store_state (tips : list ID) : option (Result Doc Error) :=
  r ← store_at inner root subtree tips; Some (let? es := r in merge_all Doc_new es).

(** The key under which the state at the tips is cached. *)
Definition state_key (tips : list ID) : ID :=
  match tips with [x] => x | _ => create_merge_cache_id blake3_raw_cid tips end.

Definition good_tips (tips : list ID) : Prop :=
  tips <> [] /\ NoDup tips /\ forall t, t ∈ tips -> stored (entries inner) root subtree t.

(** Every cached state of the store is the state at its tips. *)
Definition cache_sound (c : InMemoryCrdtCache) : Prop :=
  NoDup (CrdtCache.items c).*1
  /\ forall id b, ((Shared, id, subtree), b) ∈ CrdtCache.items c ->
       exists tips d, good_tips tips /\ id = state_key tips /\ store_state tips = Some (Ok d)
         /\ open_payload b = Ok d.

(** The transaction works on this backend with this encryptor, and its cache is
    sound. *)
Definition reads_store (s : TxState) : Prop :=
  mem_inner (tx_mem s) = inner /\ encryptors s !! subtree = enc /\ cache_sound (crdt_cache (tx_mem s)).

(** Two states of a transaction that differ only in the cache. *)
Definition cache_step (s s' : TxState) : Prop :=
  reads_store s' /\ entry_builder s' = entry_builder s /\ encryptors s' = encryptors s
  /\ system_subtrees_locked s' = system_subtrees_locked s.

Lemma cache_step_refl s : reads_store s -> cache_step s s.
Proof. intros Hs. by split; [exact Hs|]. Qed.

Lemma cache_step_trans s1 s2 s3 : cache_step s1 s2 -> cache_step s2 s3 -> cache_step s1 s3.
Proof. intros (_ & H1 & H2 & H3) (? & ? & ? & ?). split; [done|]. by rewrite <- H1, <- H2, <- H3. Qed.

Lemma merge_all_app st es1 es2 :
  merge_all st (es1 ++ es2) = let? d := merge_all st es1 in merge_all d es2.
Proof.
  revert st. induction es1 as [|e es1 IH]; intros st; [done|]. simpl.
  destruct (contribution e); [apply IH|done].
Qed.

Lemma entry_contribution_eq e s :
  encryptors s !! subtree = enc -> entry_contribution subtree e s = Some (Done (s, contribution e)).
Proof.
  intros He. unfold entry_contribution, contribution, open_payload, decrypt_if_needed, tx_bind, tx_lift.
  destruct (Entry_data e subtree) as [data|]; [|done]. rewrite He.
  destruct enc as [c|]; [|done]. by destruct (decrypt c data).
Qed.

Lemma merge_entries_eq st es s :
  encryptors s !! subtree = enc -> merge_entries subtree st es s = Some (Done (s, merge_all st es)).
Proof.
  intros He. revert st. induction es as [|e es IH]; intros st; [done|]. simpl. unfold tx_bind.
  rewrite entry_contribution_eq by done. by destruct (contribution e).
Qed.

Lemma merge_path_entries_eq st l pe s :
  mem_inner (tx_mem s) = inner -> encryptors s !! subtree = enc ->
  Forall2 (fun id e => entries inner !! id = Some e) l pe ->
  merge_path_entries subtree st l s = Some (Done (s, merge_all st pe)).
Proof.
  intros Hi He Hf. revert st. induction Hf as [|id e l pe Hid Hf IH]; intros st; [done|]. simpl.
  unfold tx_bind, backend_get, tx_read. rewrite Hi. unfold storage_get. rewrite Hid. simpl.
  rewrite entry_contribution_eq by done. by destruct (contribution e).
Qed.

Lemma decode_cached_eq b s :
  encryptors s !! subtree = enc -> decode_cached subtree b s = Some (Done (s, open_payload b)).
Proof.
  intros He. unfold decode_cached, open_payload, decrypt_if_needed, tx_bind, tx_lift. rewrite He.
  destruct enc as [c|]; [|done]. by destruct (decrypt c b).
Qed.

(** ** With a complete history *)

Context (H : store_history inner root subtree).
(** A state of the store can be stored and read back. *)
Context (Hseal : forall tips d, store_state tips = Some (Ok d) ->
  exists b, seal_payload d = Ok b /\ open_payload b = Ok d).
(** The hash of two sets of tips differs, also from an entry's ID. *)
Context (Hkeys : forall t1 t2, good_tips t1 -> good_tips t2 -> state_key t1 = state_key t2 -> t1 ≡ₚ t2).

(** The state depends on the set of tips only. *)
Lemma store_state_perm t1 t2 : good_tips t1 -> t1 ≡ₚ t2 -> store_state t1 = store_state t2.
Proof.
  intros (_ & _ & H1) Hp. assert (forall t, t ∈ t2 -> stored (entries inner) root subtree t) as H2.
  { intros t. rewrite <- Hp. apply H1. }
  unfold store_state.
  destruct (store_at_below inner root subtree H t1 H1) as (a1 & -> & Hnd1 & Hin1).
  destruct (store_at_below inner root subtree H t2 H2) as (a2 & -> & Hnd2 & Hin2).
  rewrite (sorted_entries_unique (entries inner) _ a1 a2); [done|apply H| |done|done|].
  - intros e (id & He & _)%Hin1. eauto.
  - intros e. rewrite Hin1, Hin2. by setoid_rewrite Hp.
Qed.

Lemma get_cached_eq tips s :
  reads_store s -> good_tips tips ->
  exists s' o, get_cached_crdt_state (state_key tips) subtree s = Some (Done (s', Ok o))
    /\ cache_step s s'
    /\ forall b, o = Some b -> exists d, store_state tips = Some (Ok d) /\ open_payload b = Ok d.
Proof.
  intros (Hi & He & Hnd & Hc) Ht. unfold get_cached_crdt_state.
  destruct (cache_get_keeps (crdt_cache (tx_mem s)) Shared (state_key tips) subtree Hnd)
    as (Hnd' & Hitems & Hv).
  destruct (cache_get (crdt_cache (tx_mem s)) Shared (state_key tips) subtree) as [c o].
  cbn [fst snd] in *. eexists _, o. split; [done|]. split.
  - split; [|done]. split; [done|]. split; [done|]. split; [done|]. eauto.
  - intros b Hb. destruct (Hc _ _ (Hv b Hb)) as (tips' & d & Ht' & Hk & Hd & Ho). exists d.
    split; [|done]. rewrite <- Hd. apply store_state_perm; [done|]. by apply Hkeys.
Qed.

Lemma store_cached_eq tips d s :
  reads_store s -> good_tips tips -> store_state tips = Some (Ok d) ->
  exists s', store_cached (state_key tips) subtree d s = Some (Done (s', Ok tt)) /\ cache_step s s'.
Proof.
  intros (Hi & He & Hnd & Hc) Ht Hd. destruct (Hseal tips d Hd) as (b & Hb & Ho).
  destruct (cache_put_keeps (crdt_cache (tx_mem s)) Shared (state_key tips) subtree b Hnd)
    as (c & Hput & Hnd' & Hitems).
  unfold store_cached, encrypt_if_needed, tx_bind, cache_crdt_state. rewrite He.
  fold (seal_payload d). rewrite Hb, Hput. eexists. split; [done|].
  split; [|done]. split; [done|]. split; [done|]. split; [done|].
  intros id b' [[Hk ->]|[_ Hin]]%Hitems; [|by apply Hc].
  injection Hk as ->. by exists tips, d.
Qed.

Lemma single_state id s :
  reads_store s -> good_tips [id] ->
  exists s' r, compute_single_entry_state_recursive root subtree id s = Some (Done (s', r))
    /\ store_state [id] = Some r /\ cache_step s s'.
Proof.
  intros Hs Ht. destruct (get_cached_eq [id] s Hs Ht) as (s1 & o & Hget & Hs1 & Ho).
  pose proof (proj1 Hs1) as Hr1. pose proof Hr1 as (Hi & He & _).
  unfold compute_single_entry_state_recursive, tx_bind at 1. cbn [state_key] in Hget. rewrite Hget.
  destruct o as [b|].
  - destruct (Ho b eq_refl) as (d & Hd & Hb). rewrite decode_cached_eq, Hb by done.
    by exists s1, (Ok d).
  - unfold tx_bind at 1, backend_store_at, tx_read. rewrite Hi.
    change (tips (Snapshot_new [id])) with [id].
    destruct (store_at_below inner root subtree H [id]) as (acc & Hat & _); [apply Ht|].
    unfold store_state in *. rewrite Hat. cbn [mbind option_bind result_bind].
    unfold tx_bind at 1. rewrite merge_entries_eq by done.
    destruct (merge_all Doc_new _) as [d|e] eqn:Em; [|eauto].
    destruct (store_cached_eq [id] d s1 Hr1 Ht) as (s2 & Hput & Hs2).
    { unfold store_state. rewrite Hat. cbn [mbind option_bind result_bind]. by rewrite Em. }
    cbn [state_key] in Hput. unfold tx_bind. rewrite Hput. exists s2, (Ok d).
    split; [done|]. split; [done|]. by eapply cache_step_trans.
Qed.

Context (Hiter : forall s, iter s ≡ₚ elements s).

(** The search for a merge base among stored entries. *)
Lemma merge_base_found t1 t2 rest :
  let tips := t1 :: t2 :: rest in
  good_tips tips ->
  (exists b, find_merge_base iter inner root subtree tips = Some (Ok b)
     /\ common_dominator (entries inner) subtree tips b /\ good_tips [b])
  \/ (find_merge_base iter inner root subtree tips = Some (Err (EBackend (NoCommonAncestor tips)))
      /\ forall c, ~ common_dominator (entries inner) subtree tips c).
Proof.
  cbn zeta. set (tips := t1 :: t2 :: rest). intros (_ & _ & Hst).
  pose proof (find_merge_base_cases iter inner root subtree tips Hiter) as Hc.
  destruct (find_merge_base iter inner root subtree tips) as [[b|err]|]; [| |done].
  - left. exists b. split; [done|]. destruct Hc as [Hc|[Hdom _]]; [done|]. split; [done|].
    split; [done|]. split; [apply NoDup_singleton|]. intros t ->%list_elem_of_singleton.
    eapply stored_rtc; [apply (stored_up _ _ _ (sh_closed _ _ _ H))|apply (Hst t1); by left|].
    apply Hdom. by left.
  - right. destruct Hc as [[? _]|[(x & Hx & Hbad)|[-> Hno]]]; [done| |done].
    destruct (Hst x Hx) as (e & He & Hs). specialize (Hbad e He).
    rewrite (sh_valid _ _ _ H _ _ He) in Hbad. unfold in_store in Hs.
    by destruct (in_tree e root).
Qed.

(** The computation from the merge base. *)
Lemma merge_based_eq tips s :
  reads_store s -> good_tips tips ->
  exists s' r, compute_subtree_state_merge_based iter blake3_raw_cid root subtree tips s
      = Some (Done (s', r)) /\ cache_step s s'
    /\ (store_state tips = Some r
        \/ (2 <= length tips)%nat /\ r = Err (EBackend (NoCommonAncestor tips))
           /\ forall c, ~ common_dominator (entries inner) subtree tips c).
Proof.
  intros Hs Ht. destruct tips as [|t1 [|t2 rest]]; [by destruct Ht| |].
  { destruct (single_state t1 s Hs Ht) as (s' & r & ? & ? & ?). exists s', r. auto. }
  set (tips := t1 :: t2 :: rest) in Ht.
  destruct (get_cached_eq tips s Hs Ht) as (s1 & o & Hget & Hs1 & Ho).
  pose proof (proj1 Hs1) as Hr1. pose proof Hr1 as (Hi & He & _).
  unfold compute_subtree_state_merge_based. cbv beta iota zeta.
  change (create_merge_cache_id blake3_raw_cid (t1 :: t2 :: rest)) with (state_key tips). fold tips.
  unfold tx_bind at 1. rewrite Hget. destruct o as [b|].
  { destruct (Ho b eq_refl) as (d & Hd & Hb). rewrite decode_cached_eq, Hb by done. eauto 10. }
  unfold tx_bind at 1, tx_read at 1. rewrite Hi.
  pose proof (merge_base_found t1 t2 rest Ht) as Hbase. cbv zeta in Hbase. fold tips in Hbase.
  destruct Hbase as [(b & -> & Hdom & Hb)|[-> Hno]].
  2: { exists s1. eexists. split; [done|]. split; [done|]. right. split; [simpl; lia|done]. }
  destruct (single_state b s1 Hr1 Hb) as (s2 & rb & Hsingle & Hstate & Hs2).
  pose proof (cache_step_trans _ _ _ Hs1 Hs2) as Hs12. pose proof (proj1 Hs2) as Hr2.
  pose proof Hr2 as (Hi2 & He2 & _).
  destruct (store_split inner root subtree H b tips) as (l & pe & below & Hl & Hpe & Hbelow & Hat);
    [done|apply Ht|done|].
  unfold store_state in Hstate. rewrite Hbelow in Hstate. cbn [mbind option_bind result_bind] in Hstate.
  injection Hstate as Hrb.
  assert (store_state tips = Some (let? d := rb in merge_all d pe)) as Htips.
  { unfold store_state. rewrite Hat. cbn [mbind option_bind result_bind]. by rewrite merge_all_app, Hrb. }
  unfold tx_bind at 1. rewrite Hsingle. destruct rb as [db|e]; [|eauto 10].
  unfold tx_bind at 1, tx_read at 1. rewrite Hi2, Hl. unfold tx_bind at 1.
  rewrite (merge_path_entries_eq db l pe) by done. cbn [result_bind] in Htips.
  destruct (merge_all db pe) as [d|e]; [|eauto 10].
  destruct (store_cached_eq tips d s2 Hr2 Ht Htips) as (s3 & Hput & Hs3). unfold tx_bind. rewrite Hput.
  exists s3, (Ok d). split; [done|]. split; [by eapply cache_step_trans|by left].
Qed.
End state.

(** ** Reading through a transaction *)

Section full_state.
Context `{CD : CodecSpec} `{JS : !JsonSpec} `{LS : !LruSpec CacheKey (list Byte.byte)}.
Context (iter : gset ID -> list ID) (blake3_raw_cid : string -> Cid).
Context (root : ID) (subtree : string) (enc : option Encryptor).

(** Everything here depends on the entries of the backend only. *)
Lemma store_state_ext inner inner' tips :
  entries inner = entries inner' ->
  store_state root subtree enc inner tips = store_state root subtree enc inner' tips.
Proof. destruct inner, inner'. simpl. by intros ->. Qed.

Lemma store_history_ext inner inner' :
  entries inner = entries inner' -> store_history inner root subtree -> store_history inner' root subtree.
Proof. intros He [? ? ? ?]. by split; rewrite <- He. Qed.

Lemma good_tips_ext inner inner' tips :
  entries inner = entries inner' -> good_tips root subtree inner tips -> good_tips root subtree inner' tips.
Proof. unfold good_tips. by intros ->. Qed.

Lemma cache_sound_ext inner inner' c :
  entries inner = entries inner' -> cache_sound blake3_raw_cid root subtree enc inner c ->
  cache_sound blake3_raw_cid root subtree enc inner' c.
Proof.
  intros He [Hnd Hc]. split; [done|]. intros id b Hin. destruct (Hc id b Hin) as (tips & d & Ht & Hk & Hd & Ho).
  exists tips, d. split; [by eapply good_tips_ext|]. split; [done|]. split; [|done].
  by rewrite <- (store_state_ext inner).
Qed.

(** A backend on which the store can be read: its invariant, a complete and
    acyclic history, states that survive being stored, and no collision of the
    hashes that name cached states. *)
Record readable (inner : InMemoryInner) : Prop := {
  rd_inv : mem_inv inner;
  rd_proper : proper_tree (entries inner) root;
  rd_acyclic : acyclic (entries inner) root;
  rd_history : store_history inner root subtree;
  rd_seal tips d : store_state root subtree enc inner tips = Some (Ok d) ->
    exists b, seal_payload enc d = Ok b /\ open_payload enc b = Ok d;
  rd_keys t1 t2 : good_tips root subtree inner t1 -> good_tips root subtree inner t2 ->
    state_key blake3_raw_cid t1 = state_key blake3_raw_cid t2 -> t1 ≡ₚ t2;
}.

Lemma readable_ext inner inner' :
  entries inner = entries inner' -> mem_inv inner' -> readable inner -> readable inner'.
Proof.
  intros He Hinv' [_ Hp Ha Hh Hs Hk]. split; [done|by rewrite <- He|by rewrite <- He| | |].
  - by eapply store_history_ext.
  - intros tips d. rewrite <- (store_state_ext inner inner') by done. apply Hs.
  - intros t1 t2 H1 H2. apply Hk; by eapply good_tips_ext.
Qed.

Context (Hiter : forall s, iter s ≡ₚ elements s).

Lemma full_state_tips_eq s parents :
  let inner := mem_inner (tx_mem s) in
  mem_inv inner -> proper_tree (entries inner) root -> acyclic (entries inner) root ->
  (forall t, t ∈ parents -> exists e, entries inner !! t = Some e /\ in_tree e root = true) ->
  exists inner' snap, full_state_tips iter root subtree parents s
      = Some (Done (with_mem s (with_inner (tx_mem s) inner'), Ok snap))
    /\ mem_inv inner' /\ entries inner' = entries inner /\ NoDup (tips snap)
    /\ forall id, id ∈ tips snap <-> scope_tip (entries inner) root subtree parents id.
Proof.
  cbn zeta. set (inner := mem_inner (tx_mem s)). intros Hinv Hp Hac Hpar.
  destruct (traversal_snapshot_inv inner root Hinv) as (Hinv1 & He1 & Ht1). specialize (Ht1 Hp).
  unfold full_state_tips, backend_snapshot, tx_bind. fold inner.
  set (inner1 := (traversal_snapshot inner root).1) in *.
  change (mem_snapshot inner root) with (inner1, Snapshot_new (elements (traversal_snapshot inner root).2)).
  cbv beta iota. rewrite <- He1 in Hp, Hac.
  case_decide as Heq.
  - destruct (traversal_store_snapshot_inv inner1 root subtree Hinv1) as (Hinv2 & He2 & Ht2).
    specialize (Ht2 Hp). exists (traversal_store_snapshot inner1 root subtree).1,
      (Snapshot_new (elements (traversal_store_snapshot inner1 root subtree).2)).
    split; [done|]. split; [exact Hinv2|]. split; [by rewrite He2|].
    split; [apply sort_dedup_NoDup, _|]. intros id. rewrite <- He1, scope_tip_current; [|done|].
    + by rewrite <- Ht2, elem_of_Snapshot_new, elem_of_elements.
    + intros t. by rewrite He1, <- Ht1, <- (elem_of_Snapshot_new t parents), Heq, elem_of_Snapshot_new, elem_of_elements.
  - pose proof (store_snapshot_at_cases iter inner1 root subtree (tips (Snapshot_new parents))
      Hinv1 Hp Hac Hiter) as Hc.
    unfold backend_store_snapshot_at, mem_store_snapshot_at. cbn [tx_mem with_mem mem_inner with_inner].
    destruct (store_snapshot_at iter inner1 root subtree _) as [[inner2 r]|]; [|done].
    destruct Hc as (Hinv2 & He2 & Hr). cbn [mbind option_bind fst snd].
    destruct r as [ids|err].
    + exists inner2, (Snapshot_new (elements ids)). split; [done|]. split; [done|]. split; [by rewrite He2|].
      split; [apply sort_dedup_NoDup, _|]. intros id. rewrite elem_of_Snapshot_new, elem_of_elements, Hr, He1.
      unfold scope_tip, reached. by setoid_rewrite elem_of_Snapshot_new.
    + destruct Hr as (t & Ht & Hno). rewrite elem_of_Snapshot_new in Ht.
      destruct (Hpar t Ht) as (e & He & Hin). rewrite He1 in Hno. by rewrite (Hno e He) in Hin.
Qed.

Lemma set_parents_get b ps :
  EntryBuilder_subtree_parents (set_subtree_parents b subtree ps) subtree = Ok ps.
Proof.
  unfold EntryBuilder_subtree_parents, set_subtree_parents, on_subtrees. simpl.
  rewrite find_subtree_upsert, decide_True by done. by destruct (find_subtree (b_subtrees b) subtree).
Qed.

(** The call, once the tips are known. *)
Lemma get_full_state_run s b snap s0 :
  entry_builder s = Some b -> subtree ∉ EntryBuilder_subtrees b ->
  full_state_tips iter root subtree (builder_parents b) s = Some (Done (s0, Ok snap)) ->
  entry_builder s0 = Some b ->
  let s1 := with_builder s0 (set_subtree_parents b subtree (tips snap)) in
  get_full_state iter blake3_raw_cid root subtree s
  = (if is_nil (tips snap) then tx_ret Doc_new
     else compute_subtree_state_merge_based iter blake3_raw_cid root subtree (tips snap)) s1.
Proof.
  intros Hb Hnew Htips Hb0. cbn zeta. unfold get_full_state, tx_bind, get_builder. rewrite Hb. cbn [ok_or].
  unfold builder_has. rewrite bool_decide_false by done. rewrite Htips, Hb0. cbn [ok_or]. unfold put_builder.
  cbn [entry_builder with_builder ok_or]. by rewrite set_parents_get.
Qed.

(** A set of store tips: none of them, or tips whose state can be read. *)
Lemma scope_tips_good inner parents l :
  NoDup l -> (forall id, id ∈ l <-> scope_tip (entries inner) root subtree parents id) -> l <> [] ->
  good_tips root subtree inner l.
Proof.
  intros Hnd Hl Hne. split; [done|]. split; [done|].
  intros t [(e & (He & Ht & _) & Hs) _]%Hl. exists e. split; [done|]. unfold in_store. by rewrite Ht, Hs.
Qed.

(** Reading a store, with the tips that it is read at. *)
Lemma full_state_eq s b :
  let inner := mem_inner (tx_mem s) in
  readable inner -> encryptors s !! subtree = enc ->
  cache_sound blake3_raw_cid root subtree enc inner (crdt_cache (tx_mem s)) ->
  entry_builder s = Some b -> subtree ∉ EntryBuilder_subtrees b ->
  (forall t, t ∈ builder_parents b ->
     exists e, entries inner !! t = Some e /\ in_tree e root = true) ->
  exists s' r l, get_full_state iter blake3_raw_cid root subtree s = Some (Done (s', r))
    /\ NoDup l /\ (forall id, id ∈ l <-> scope_tip (entries inner) root subtree (builder_parents b) id)
    /\ entry_builder s' = Some (set_subtree_parents b subtree l)
    /\ (store_state root subtree enc inner l = Some r
        \/ (2 <= length l)%nat /\ r = Err (EBackend (NoCommonAncestor l))
           /\ forall c, ~ common_dominator (entries inner) subtree l c)
    /\ entries (mem_inner (tx_mem s')) = entries inner /\ readable (mem_inner (tx_mem s'))
    /\ cache_sound blake3_raw_cid root subtree enc (mem_inner (tx_mem s')) (crdt_cache (tx_mem s')).
Proof.
  cbn zeta. intros Hrd Henc Hc Hb Hnew Hpar.
  destruct (full_state_tips_eq s (builder_parents b)) as (inner' & snap & Htips & Hinv' & He' & Hnd & Hin);
    [apply Hrd|apply Hrd|apply Hrd|done|].
  set (s1 := with_builder (with_mem s (with_inner (tx_mem s) inner'))
    (set_subtree_parents b subtree (tips snap))).
  assert (readable inner') as Hrd' by (by eapply readable_ext).
  assert (reads_store blake3_raw_cid root subtree enc inner' s1) as Hs1.
  { split; [done|]. split; [done|]. by eapply cache_sound_ext. }
  rewrite (get_full_state_run s b snap (with_mem s (with_inner (tx_mem s) inner'))) by done. fold s1.
  assert (forall s2, cache_step blake3_raw_cid root subtree enc inner' s1 s2 ->
    entry_builder s2 = Some (set_subtree_parents b subtree (tips snap))
    /\ entries (mem_inner (tx_mem s2)) = entries (mem_inner (tx_mem s)) /\ readable (mem_inner (tx_mem s2))
    /\ cache_sound blake3_raw_cid root subtree enc (mem_inner (tx_mem s2)) (crdt_cache (tx_mem s2))) as Hend.
  { intros s2 ((-> & _ & Hc2) & Hb2 & _). by rewrite Hb2. }
  destruct (is_nil (tips snap)) eqn:En.
  - assert (tips snap = []) as El by (by destruct (tips snap)). rewrite El in *.
    exists s1, (Ok Doc_new), []. split; [done|]. split; [constructor|]. split; [done|].
    destruct (Hend s1 (cache_step_refl _ _ _ _ _ _ Hs1)) as (? & ? & ? & ?).
    split; [done|]. split; [by left|done].
  - destruct (merge_based_eq iter blake3_raw_cid root subtree enc inner' (rd_history _ Hrd')
      (rd_seal _ Hrd') (rd_keys _ Hrd') Hiter (tips snap) s1 Hs1) as (s2 & r & Hrun & Hs2 & Hr).
    { rewrite <- He' in Hin. eapply scope_tips_good; [done|done|by destruct (tips snap)]. }
    exists s2, r, (tips snap). split; [done|]. split; [done|]. split; [done|].
    destruct (Hend s2 Hs2) as (? & ? & ? & ?). split; [done|].
    rewrite (store_state_ext inner' (mem_inner (tx_mem s))), He' in Hr by done. done.
Qed.


(** ** New entries *)

Lemma storage_put_entries inner e :
  entries (storage_put inner e)
  = if decide (is_Some (entries inner !! Entry_id e)) then entries inner
    else <[ Entry_id e := e ]> (entries inner).
Proof. unfold storage_put. by case_decide. Qed.

(** Entries that arrive are not below entries whose history is complete. *)
Lemma store_edge_sub es es' x y :
  store_closed es root subtree -> es ⊆ es' -> stored es root subtree x ->
  rtc (store_edge es' root subtree) x y <-> rtc (store_edge es root subtree) x y.
Proof.
  intros Hcl Hsub Hx.
  assert (forall a c, stored es root subtree a ->
    store_edge es' root subtree a c <-> store_edge es root subtree a c) as Hedge.
  { intros a c (ea & Ha & _). unfold store_edge, edge.
    by rewrite Ha, (lookup_weaken _ _ _ _ Ha Hsub). }
  split; intros Hr; induction Hr as [|x z y Hxz Hzy IH]; try apply rtc_refl;
    apply Hedge in Hxz as Hxz'; try done; (eapply rtc_l; [done|]); apply IH.
  - by apply (Hcl x).
  - by apply (Hcl x).
Qed.

(** So the state at tips whose history is complete never changes again. *)
Lemma store_state_sub inner inner' tips :
  ids_ok (entries inner) -> ids_ok (entries inner') -> store_closed (entries inner) root subtree ->
  entries inner ⊆ entries inner' -> good_tips root subtree inner tips ->
  store_state root subtree enc inner' tips = store_state root subtree enc inner tips.
Proof.
  intros Hids Hids' Hcl Hsub (_ & _ & Ht). unfold store_state.
  destruct (store_at_walk inner' root subtree tips Hids') as (a1 & -> & Hnd1 & Hin1).
  destruct (store_at_walk inner root subtree tips Hids) as (a2 & -> & Hnd2 & Hin2).
  unfold sort_entries_by_subtree_height.
  rewrite (sorted_entries_unique (entries inner') _ a1 a2); [done|done| |done|done|].
  { intros x (id & Hx & _)%Hin1. eauto. }
  intros x. rewrite Hin1, Hin2. split; intros (id & Hx & Hs & t & Hti & Hr); exists id.
  - apply (store_edge_sub (entries inner)) in Hr; [|done|done|by apply Ht].
    assert (stored (entries inner) root subtree id) as (x' & Hx' & _).
    { eapply stored_rtc; [|by apply (Ht t)|exact Hr]. intros a c _. apply Hcl. }
    pose proof (lookup_weaken _ _ _ _ Hx' Hsub). replace x' with x in Hx' by congruence. eauto 10.
  - split; [by eapply lookup_weaken|]. split; [done|]. exists t. split; [done|].
    apply (store_edge_sub (entries inner)); [done|done|by apply Ht|done].
Qed.

Lemma store_state_put inner e tips :
  mem_inv inner -> mem_inv (storage_put inner e) -> store_closed (entries inner) root subtree ->
  good_tips root subtree inner tips ->
  store_state root subtree enc (storage_put inner e) tips = store_state root subtree enc inner tips.
Proof.
  intros Hinv Hinv' Hcl Ht. apply store_state_sub; [apply Hinv|apply Hinv'|done| |done].
  rewrite storage_put_entries. case_decide as Hd; [done|]. by apply insert_subseteq, eq_None_not_Some.
Qed.

(** Cached states outlive writes: when the store's history is complete, an
    entry that arrives, of this or another store, leaves every cached state of
    the store the state at its tips, so nothing has to be invalidated. *)
Theorem put_keeps_cached_states inner e inner' c :
  mem_inv inner -> store_history inner root subtree -> mem_put inner e = Ok inner' ->
  cache_sound blake3_raw_cid root subtree enc inner c ->
  cache_sound blake3_raw_cid root subtree enc inner' c.
Proof.
  intros Hinv Hh Hput [Hnd Hc]. pose proof (mem_put_inv inner e inner' Hinv Hput) as Hinv'.
  unfold mem_put in Hput. destruct (Entry_validate e); [|done]. injection Hput as <-.
  split; [done|]. intros id b Hin. destruct (Hc id b Hin) as (tips & d & Ht & Hk & Hd & Ho).
  exists tips, d. split; [|split; [done|split; [|done]]].
  - destruct Ht as (? & ? & Hst). split; [done|]. split; [done|]. intros t Hti.
    destruct (Hst t Hti) as (x & Hx & Hs). exists x. split; [|done].
    rewrite storage_put_entries. case_decide as Hdec; [done|]. rewrite lookup_insert_ne; [done|].
    intros Heq. apply Hdec. rewrite Heq. eauto.
  - rewrite store_state_put; try done. apply Hh.
Qed.
End full_state.

(** ** A store on a fork *)

#[local] Existing Instance nat_cid.
#[local] Existing Instance byte_crypto.
#[local] Existing Instance list_lru.

(** A payload is one byte, the value of the key [n]; no byte is the empty
    document. *)
Definition byte_doc (b : Byte.byte) : Doc := mkDoc DOC_VERSION false {[ "n" := Int (Z.of_N (Byte.to_N b)) ]}.

Definition byte_codec : CodecSpec := {|
  to_dagcbor e := default [] (tn_metadata (e_tree e));
  blake3_dagcbor_cid b := match b with x :: _ => N.to_nat (Byte.to_N x) | [] => 0%nat end : @Cid nat_cid;
  json_to_doc b := match b with [] => Some Doc_new | [x] => Some (byte_doc x) | _ => None end;
|}.

Section demo_state.
#[local] Existing Instance byte_codec.

#[local] Instance byte_json : JsonSpec := {|
  json_to_metadata b := None;
  metadata_to_json md := [];
  doc_to_json d := match children d !! "n" with
                   | Some (Int z) => option_list (Byte.of_N (Z.to_N z))
                   | _ => []
                   end;
|}.

(** A mark in front of the plaintext. *)
Definition mark_encryptor : Encryptor := {|
  encrypt p := Ok (Byte.x55 :: p);
  decrypt c := match c with Byte.x55 :: p => Ok p | _ => Err ESerialize end;
|}.

Definition state_node (tag : Byte.byte) (height : Z) (parents store_parents : list ID) (b : Byte.byte) : Entry :=
  mkEntry 0 (mkTreeNode (Some (demo_id 1)) parents (Some [tag]) height)
    [mkSubTreeNode "data" store_parents (Some [Byte.x55; b]) None] SigInfo_default.

Definition state_base : Entry := state_node Byte.x02 1 [demo_id 1] [] Byte.x0a.
Definition state_left : Entry := state_node Byte.x03 2 [demo_id 2] [demo_id 2] Byte.x0b.
Definition state_right : Entry := state_node Byte.x04 2 [demo_id 2] [demo_id 2] Byte.x0c.

Definition state_mem : InMemoryInner :=
  storage_put (storage_put (storage_put (storage_put InMemory_new demo_root) state_base) state_left) state_right.

Definition weak_hash (s : string) : @Cid nat_cid := (100 + String.length s)%nat.

(** The cache holds the state at the base. *)
Definition state_tx : TxState :=
  mkTxState (mkInMemory state_mem
    (mkInMemoryCrdtCache [((Shared, demo_id 2, "data"), [Byte.x55; Byte.x0a])] 2 100))
    (Some (set_parents (EntryBuilder_new (demo_id 1)) [demo_id 3; demo_id 4]))
    {[ "data" := mark_encryptor ]} false.

Lemma state_lookup id e :
  entries state_mem !! id = Some e ->
  (id = demo_id 1 /\ e = demo_root) \/ (id = demo_id 2 /\ e = state_base)
  \/ (id = demo_id 3 /\ e = state_left) \/ (id = demo_id 4 /\ e = state_right).
Proof.
  assert (entries state_mem = <[ demo_id 4 := state_right ]> (<[ demo_id 3 := state_left ]>
    (<[ demo_id 2 := state_base ]> (<[ demo_id 1 := demo_root ]> ∅)))) as -> by reflexivity.
  rewrite !lookup_insert_Some, lookup_empty. naive_solver.
Qed.

Lemma state_mem_inv : mem_inv state_mem.
Proof.
  apply (mem_put_inv (storage_put (storage_put (storage_put InMemory_new demo_root) state_base) state_left)
    state_right); [|reflexivity].
  apply (mem_put_inv (storage_put (storage_put InMemory_new demo_root) state_base) state_left); [|reflexivity].
  apply (mem_put_inv (storage_put InMemory_new demo_root) state_base); [|reflexivity].
  apply (mem_put_inv InMemory_new demo_root); [|reflexivity]. apply mem_inv_init.
Qed.

Lemma state_edge x y :
  store_edge (entries state_mem) (demo_id 1) "data" x y -> (x = demo_id 3 \/ x = demo_id 4) /\ y = demo_id 2.
Proof.
  intros (e & [[-> ->]|[[-> ->]|[[-> ->]|[-> ->]]]]%state_lookup & _ & Hy); simpl in Hy;
    [by apply elem_of_nil in Hy..| |]; apply list_elem_of_singleton in Hy; auto.
Qed.

Lemma state_history : store_history state_mem (demo_id 1) "data".
Proof.
  split.
  - apply state_mem_inv.
  - apply state_mem_inv.
  - intros x y [_ ->]%state_edge. exists state_base. by split.
  - intros x y e e' [Hx ->]%state_edge He%state_lookup [[[=] _]|[[_ ->]|[[[=] _]|[[=] _]]]]%state_lookup.
    destruct He as [[-> _]|[[-> _]|[[_ ->]|[_ ->]]]]; [by destruct Hx|by destruct Hx|done|done].
Qed.

(** The states that payloads of this codec give. *)
Definition byte_state (d : Doc) : Prop := d = Doc_new \/ exists b, d = byte_doc b.

Lemma byte_state_merge d d' : byte_state d -> byte_state d' -> byte_state (Doc_merge d d').
Proof.
  intros [->|[b ->]] [->|[b' ->]]; [by left|right; by exists b'|right; by exists b|right; by exists b'].
Qed.

Lemma byte_state_all d es r :
  byte_state d -> merge_all "data" (Some mark_encryptor) d es = Ok r -> byte_state r.
Proof.
  revert d. induction es as [|e es IH]; intros d Hd; simpl; [by intros [= <-]|].
  destruct (contribution "data" (Some mark_encryptor) e) as [d'|] eqn:Ec; [|done]. simpl.
  apply IH, byte_state_merge; [done|]. unfold contribution in Ec.
  destruct (Entry_data e "data") as [p|]; [|injection Ec as <-; by left].
  unfold open_payload in Ec. destruct (decrypt mark_encryptor p) as [q|]; [|done]. cbn [result_bind] in Ec.
  destruct q as [|b [|? ?]]; [injection Ec as <-; by left|injection Ec as <-; right; by exists b|discriminate Ec].
Qed.

Lemma byte_state_seal d :
  byte_state d -> exists b, seal_payload (Some mark_encryptor) d = Ok b
    /\ open_payload (Some mark_encryptor) b = Ok d.
Proof.
  intros [->|[b ->]]; eexists; (split; [reflexivity|]); [reflexivity|].
  unfold open_payload. simpl. rewrite lookup_singleton_eq. rewrite N2Z.id, Byte.of_to_N. reflexivity.
Qed.

Definition store_ids : list ID := [demo_id 2; demo_id 3; demo_id 4].

(** The lists of different entries of the store. *)
Definition all_tips : list (list ID) :=
  concat ((fun l => permutations l) <$> [[demo_id 2]; [demo_id 3]; [demo_id 4];
    [demo_id 2; demo_id 3]; [demo_id 2; demo_id 4]; [demo_id 3; demo_id 4]; store_ids]).

Lemma state_tips_listed t : good_tips (demo_id 1) "data" state_mem t -> t ∈ all_tips.
Proof.
  intros (Hne & Hnd & Hst).
  assert (forall x, x ∈ t -> x ∈ store_ids) as Hin.
  { intros x (e & [[-> ->]|[[-> ->]|[[-> ->]|[-> ->]]]]%state_lookup & Hs)%Hst; [discriminate Hs|..];
      repeat first [by left|right]. }
  assert (length t <= 3)%nat as Hlen.
  { change 3%nat with (length store_ids). apply submseteq_length, NoDup_submseteq; [done|exact Hin]. }
  assert (forall x, x ∈ t -> x = demo_id 2 \/ x = demo_id 3 \/ x = demo_id 4) as Hcase.
  { intros x Hx%Hin. unfold store_ids in Hx. by rewrite !elem_of_cons, elem_of_nil in Hx; tauto. }
  clear Hst Hin.
  destruct t as [|a [|b [|c [|? ?]]]]; [done|..|simpl in Hlen; lia]; clear Hlen Hne;
    [pose proof (Hcase a ltac:(set_solver)) as Ha
    |pose proof (Hcase a ltac:(set_solver)) as Ha; pose proof (Hcase b ltac:(set_solver)) as Hb
    |pose proof (Hcase a ltac:(set_solver)) as Ha; pose proof (Hcase b ltac:(set_solver)) as Hb;
     pose proof (Hcase c ltac:(set_solver)) as Hc]; clear Hcase;
    destruct_or?; subst;
    first [apply (bool_decide_unpack _); by vm_compute
          |exfalso; revert Hnd; apply (bool_decide_unpack _); by vm_compute].
Qed.

Lemma state_keys t1 t2 :
  good_tips (demo_id 1) "data" state_mem t1 -> good_tips (demo_id 1) "data" state_mem t2 ->
  state_key weak_hash t1 = state_key weak_hash t2 -> t1 ≡ₚ t2.
Proof.
  intros H1%state_tips_listed H2%state_tips_listed.
  assert (Forall (fun t1 => Forall (fun t2 => state_key weak_hash t1 = state_key weak_hash t2 -> t1 ≡ₚ t2)
    all_tips) all_tips) as Hall by (apply (bool_decide_unpack _); by vm_compute).
  rewrite Forall_forall in Hall. specialize (Hall t1 H1). rewrite Forall_forall in Hall. by apply Hall.
Qed.

Lemma state_readable : readable weak_hash (demo_id 1) "data" (Some mark_encryptor) state_mem.
Proof.
  split.
  - apply state_mem_inv.
  - intros e [[_ ->]|[[[=] _]|[[[=] _]|[[=] _]]]]%state_lookup. done.
  - apply (heights_acyclic Entry_height). intros x y e e' (e0 & H0 & _ & Hy) He He'. rewrite He in H0.
    injection H0 as <-.
    destruct (state_lookup _ _ He) as [[_ ->]|[[_ ->]|[[_ ->]|[_ ->]]]]; simpl in Hy;
      [by apply elem_of_nil in Hy| | |]; apply list_elem_of_singleton in Hy as ->;
      destruct (state_lookup _ _ He') as [[? ->]|[[? ->]|[[? ->]|[? ->]]]]; done.
  - apply state_history.
  - intros tips d Hd. apply byte_state_seal. unfold store_state in Hd.
    destruct (store_at state_mem (demo_id 1) "data" tips) as [[es|]|]; [|done..].
    injection Hd as Hd. eapply byte_state_all; [|exact Hd]. by left.
  - apply state_keys.
Qed.

Lemma state_tx_sound :
  cache_sound weak_hash (demo_id 1) "data" (Some mark_encryptor) state_mem (crdt_cache (tx_mem state_tx)).
Proof.
  split; [apply NoDup_singleton|]. intros id b [= -> ->]%list_elem_of_singleton.
  exists [demo_id 2], (byte_doc Byte.x0a). split; [|by split; [|split; [vm_compute|]]].
  split; [done|]. split; [apply NoDup_singleton|]. intros t ->%list_elem_of_singleton.
  exists state_base. by split.
Qed.


(** The later of the two concurrent writes wins. *)
Lemma state_tx_reads :
  match get_full_state elements weak_hash (demo_id 1) "data" state_tx with
  | Some (Done (_, r)) => r = Ok (byte_doc Byte.x0c)
  | _ => False
  end.
Proof. vm_compute. reflexivity. Qed.

Lemma put_keeps_cached_states_witness :
  cache_sound weak_hash (demo_id 1) "data" (Some mark_encryptor)
    (storage_put state_mem (state_node Byte.x05 3 [demo_id 3; demo_id 4] [demo_id 3; demo_id 4] Byte.x0d))
    (crdt_cache (tx_mem state_tx)).
Proof.
  apply (put_keeps_cached_states weak_hash (demo_id 1) "data" (Some mark_encryptor) state_mem
    (state_node Byte.x05 3 [demo_id 3; demo_id 4] [demo_id 3; demo_id 4] Byte.x0d)).
  - exact state_mem_inv.
  - exact state_history.
  - reflexivity.
  - exact state_tx_sound.
Defined.


(** An entry whose store parent is not there yet; it writes nothing itself. *)
Definition early_node : Entry :=
  mkEntry 0 (mkTreeNode (Some (demo_id 1)) [demo_id 2] (Some [Byte.x03]) 2)
    [mkSubTreeNode "data" [demo_id 2] (Some [Byte.x55]) None] SigInfo_default.

Definition read_at (m : InMemory) (parents : list ID) : option (InMemory * Result Doc Error) :=
  match get_full_state elements weak_hash (demo_id 1) "data"
    (mkTxState m (Some (set_parents (EntryBuilder_new (demo_id 1)) parents)) {[ "data" := mark_encryptor ]} false) with
  | Some (Done (s, r)) => Some (tx_mem s, r)
  | _ => None
  end.

(** Where the history is not complete a cached state can go stale: the store is
    read before a parent has arrived, and after its arrival the same tips still
    give the state without it. *)
Theorem cached_state_misses_late_parent :
  match read_at (mkInMemory (storage_put (storage_put InMemory_new demo_root) early_node) InMemoryCrdtCache_new)
          [demo_id 3] with
  | None => False
  | Some (m, _) =>
      let m := with_inner m (storage_put (mem_inner m) state_base) in
      store_state (demo_id 1) "data" (Some mark_encryptor) (mem_inner m) [demo_id 3]
        = Some (Ok (byte_doc Byte.x0a))
      /\ match read_at m [demo_id 3] with
         | Some (_, r) => r = Ok Doc_new
         | None => False
         end
  end.
Proof. vm_compute. split; reflexivity. Qed.
End demo_state.
