(* ===== verification/Stores.v ===== *)
(** * Document stores and the registry of stores

    The methods of [DocStore] (store/docstore.rs) and of [Registry]
    (store/registry.rs) over a transaction, and how a transaction opens a store
    ([Transaction::get_store], with [Store::register] of store/mod.rs).  A handle
    is the name of its store.  Shown here: what a write in a transaction is read
    back as, that reads see the staged changes over the history, and that a
    system store is not opened under the lock. *)

From S2P Require Import Prelude.
From S2P Require Import Worklist.
From S2P Require Import Path.
From S2P Require Import Position.
From S2P Require Import Ids.
From S2P Require Import Doc.
From S2P Require Import DocPath.
From S2P Require Import DocMerge.
From S2P Require Import Errors.
From S2P Require Import Crypto.
From S2P Require Import Permission.
From S2P Require Import AuthTypes.
From S2P Require Import AuthSettings.
From S2P Require Import Entry.
From S2P Require Import Backend.
From S2P Require Import Traversal.
From S2P Require Import CrdtCache.
From S2P Require Import StoreTips.
From S2P Require Import MergeBase.
From S2P Require Import BackendSteps.
From S2P Require Import Reachability.
From S2P Require Import Validation.
From S2P Require Import Kahn.
From S2P Require Import Verify.
From S2P Require Import Transaction.

Section stores.
Context `{CD : CodecSpec} `{JS : !JsonSpec} `{LS : !LruSpec CacheKey (list Byte.byte)}.
Context (iter : gset ID -> list ID) (blake3_raw_cid : string -> Cid) (root : ID).

Notation full_state := (get_full_state iter blake3_raw_cid root).

(** ** [DocStore] *)

Definition local_data (name : string) : Tx (option Doc) := get_local_data name.

Definition key_not_found {A} (name key : string) : Result A Error := Err (EStore (StoreKeyNotFound name key)).

(** The value in the merged history. *)
Definition get_committed (name key : string) : Tx Value :=
  do data <- full_state name;
  tx_lift (match Doc_get data key with Some value => Ok value | None => key_not_found name key end).

Definition DocStore_get (name key : string) : Tx Value :=
  do local <- local_data name;
  match local with
  | Some data =>
      match Doc_get data key with
      | Some Deleted => tx_lift (key_not_found name key)
      | Some value => tx_ret value
      | None => get_committed name key
      end
  | None => get_committed name key
  end.

(** [get_result] and [get_path]. *)
Definition DocStore_get_path (name path : string) : Tx Value :=
  do local <- local_data name;
  match data ← local; Doc_get data path with
  | Some value => tx_ret value
  | None => get_committed name path
  end.

Definition DocStore_get_string (name key : string) : Tx string :=
  do value <- DocStore_get_path name key;
  tx_lift (match value with
           | Text s => Ok s
           | VDoc _ => Err (EStore (StoreTypeMismatch name "String" "Doc"))
           | VList _ => Err (EStore (StoreTypeMismatch name "String" "list"))
           | Deleted => key_not_found name key
           | _ => Err (EStore (StoreTypeMismatch name "String" "Other"))
           end).

Definition DocStore_get_list (name key : string) : Tx List :=
  do value <- DocStore_get name key;
  tx_lift (match value with
           | VList l => Ok l
           | _ => Err (EStore (StoreTypeMismatch name "list" "Other"))
           end).

Definition DocStore_get_node (name key : string) : Tx Doc :=
  do value <- DocStore_get name key;
  tx_lift (match value with
           | VDoc d => Ok d
           | _ => Err (EStore (StoreTypeMismatch name "Doc" "Other"))
           end).

Definition stage (name : string) (data : Doc) : Tx unit := update_subtree root name (doc_to_json data).

(** [set], [set_result] and [set_path]. *)
Definition DocStore_set (name key : string) (value : Value) : Tx unit :=
  do local <- local_data name;
  stage name (Doc_set (default Doc_new local) key value).1.

Definition DocStore_insert (name key : string) (value : Value) : Tx (option Value) :=
  do local <- local_data name;
  let data := default Doc_new local in
  let previous := match Doc_get data key with Some Deleted => None | o => o end in
  do _ <- stage name (Doc_set data key value).1;
  tx_ret previous.

Definition DocStore_get_all (name : string) : Tx Doc :=
  do data <- full_state name;
  do local <- local_data name;
  tx_ret (match local with Some l => Doc_merge data l | None => data end).

Definition DocStore_delete (name key : string) : Tx bool :=
  do state <- DocStore_get_all name;
  match Doc_get state key with
  | None => tx_ret false
  | Some _ =>
      do local <- local_data name;
      do _ <- stage name (Doc_remove (default Doc_new local) key).1;
      tx_ret true
  end.

(** [contains_key] and [contains_path]; errors count as absence. *)
Definition DocStore_contains_key (name key : string) : Tx bool :=
  do local <- tx_try (local_data name);
  if match local with Ok (Some data) => contains_key data key | _ => false end then tx_ret true
  else
    do data <- tx_try (full_state name);
    tx_ret (match data with Ok d => contains_key d key | Err _ => false end).

Section typed.
Context {T : Type} `{!FromValue T} (into : T -> Value).

Definition DocStore_get_as (name key : string) : Tx T :=
  do value <- DocStore_get name key;
  tx_lift (map_err ECRDT (try_from value)).

Definition DocStore_get_or_insert (name key : string) (dflt : T) : Tx T :=
  do existing <- tx_try (DocStore_get_as name key);
  match existing with
  | Ok v => tx_ret v
  | Err _ => do _ <- DocStore_set name key (into dflt); tx_ret dflt
  end.

Definition DocStore_modify (name key : string) (f : T -> T) : Tx unit :=
  do value <- DocStore_get_as name key;
  DocStore_set name key (into (f value)).

Definition DocStore_modify_or_insert (name key : string) (dflt : T) (f : T -> T) : Tx unit :=
  do value <- DocStore_get_or_insert name key dflt;
  DocStore_set name key (into (f value)).
End typed.

(** ** [Registry] *)

(** [serde_json] at [HeightStrategy]. *)
Context (strategy_of_json : string -> option HeightStrategy) (strategy_to_json : HeightStrategy -> string).

Record SubtreeSettings : Type := mkSubtreeSettings { height_strategy : option HeightStrategy }.

Definition SubtreeSettings_default : SubtreeSettings := mkSubtreeSettings None.

Definition is_default (s : SubtreeSettings) : bool := negb (is_some (height_strategy s)).

Record RegistryEntry : Type := mkRegistryEntry {
  type_id : string;
  config : Doc;
  settings : SubtreeSettings;
}.

Definition Registry_new (name : string) : Tx unit := init_subtree_parents iter root name.

Definition get_index : Tx unit := Registry_new INDEX.

Definition bad_entry {A} (registry : string) : Result A Error :=
  Err (EStore (StoreDeserializationFailed registry)).

Definition parse_config (registry : string) (doc : Doc) : Result Doc Error :=
  match Doc_get doc "config" with
  | Some (VDoc d) => Ok d
  | Some (Text s) => if decide (s = "{}") then Ok Doc_new else bad_entry registry
  | _ => Ok Doc_new
  end.

Definition parse_settings (registry : string) (doc : Doc) : Result SubtreeSettings Error :=
  match Doc_get doc "settings" with
  | None => Ok SubtreeSettings_default
  | Some (VDoc settings_doc) =>
      match Doc_get settings_doc "height_strategy" with
      | None => Ok SubtreeSettings_default
      | Some (Text json) =>
          match strategy_of_json json with
          | Some strategy => Ok (mkSubtreeSettings (Some strategy))
          | None => bad_entry registry
          end
      | Some _ => bad_entry registry
      end
  | Some _ => bad_entry registry
  end.

Definition parse_entry (registry : string) (value : Value) : Result RegistryEntry Error :=
  match value with
  | VDoc doc =>
      match Doc_get doc "type" with
      | Some (Text t) =>
          let? c := parse_config registry doc in
          let? st := parse_settings registry doc in
          Ok (mkRegistryEntry t c st)
      | _ => bad_entry registry
      end
  | _ => bad_entry registry
  end.

Definition get_entry (registry name : string) : Tx RegistryEntry :=
  do value <- DocStore_get registry name;
  tx_lift (parse_entry registry value).

Definition Registry_contains (registry name : string) : Tx bool :=
  do r <- tx_try (get_entry registry name);
  tx_ret (is_ok r).

Definition entry_doc (t : string) (c : Doc) : Doc :=
  (Doc_set (Doc_set Doc_new "type" (Text t)).1 "config" (VDoc c)).1.

Definition set_entry (registry name : string) (t : string) (c : Doc) : Tx unit :=
  DocStore_set registry name (VDoc (entry_doc t c)).

Definition Registry_list (registry : string) : Tx (gset string) :=
  do state <- full_state registry;
  tx_ret (Doc_keys state).

Definition get_subtree_settings (registry name : string) : Tx SubtreeSettings :=
  do r <- tx_try (get_entry registry name);
  tx_lift (match r with
           | Ok entry => Ok (settings entry)
           | Err e => if Error_is_not_found e then Ok SubtreeSettings_default else Err e
           end).

Definition settings_doc (s : SubtreeSettings) : Doc :=
  match height_strategy s with
  | Some strategy => (Doc_set Doc_new "height_strategy" (Text (strategy_to_json strategy))).1
  | None => Doc_new
  end.

Definition set_subtree_settings (registry name : string) (st : SubtreeSettings) : Tx unit :=
  do entry <- get_entry registry name;
  let metadata_doc := entry_doc (type_id entry) (config entry) in
  DocStore_set registry name (VDoc
    (if is_default st then metadata_doc
     else (Doc_set metadata_doc "settings" (VDoc (settings_doc st))).1)).

(** ** Opening a store *)

(** The type of store that is opened: its identifier, the identifiers it can
    read, and its default configuration. *)
Record StoreType : Type := mkStoreType {
  store_type_id : string;
  supports_type_id : string -> bool;
  default_config : Doc;
}.

Definition DocStore_type : StoreType := mkStoreType "docstore:v0" (String.eqb "docstore:v0") Doc_new.

Definition is_system_subtree (name : string) : bool :=
  bool_decide (name = INDEX) || bool_decide (name = SETTINGS) || bool_decide (name = ROOT).

Definition set_config (T : StoreType) (name : string) (c : Doc) : Tx unit :=
  do _ <- get_index;
  set_entry INDEX name (store_type_id T) c.

(** The [load] of these types only wraps the name, so opening returns nothing. *)
Definition get_store (T : StoreType) (name : string) : Tx unit := fun s =>
  if is_system_subtree name && system_subtrees_locked s then
    Some (Done (s, Err (ETransaction (SystemSubtreeLocked name))))
  else
    (do _ <- init_subtree_parents iter root name;
     if is_system_subtree name then tx_ret tt
     else
       do _ <- get_index;
       do known <- Registry_contains INDEX name;
       if known : bool then
         do info <- get_entry INDEX name;
         if supports_type_id T (type_id info) then tx_ret tt
         else tx_lift (Err (EStore (StoreTypeMismatch name (store_type_id T) (type_id info))))
       else set_config T name (default_config T)) s.
End stores.

(** ** What staged changes do to reads *)

Section store_facts.
Context `{CD : CodecSpec} `{JS : !JsonSpec} `{LS : !LruSpec CacheKey (list Byte.byte)}.
Context (iter : gset ID -> list ID) (blake3_raw_cid : string -> Cid) (root : ID).

(** The document staged for a store. *)
Definition staged (b : EntryBuilder) (name : string) : Result (option Doc) Error :=
  match EntryBuilder_data b name with
  | Ok [] | Err _ => Ok None
  | Ok data => let? d := ok_or (json_to_doc data) (ETransaction (TransactionStoreDeserializationFailed name)) in
               Ok (Some d)
  end.

Lemma local_data_eq name s b :
  entry_builder s = Some b -> local_data name s = Some (Done (s, staged b name)).
Proof.
  intros Hb. unfold local_data, get_local_data, staged, tx_bind, get_builder. rewrite Hb. cbn [ok_or].
  destruct (EntryBuilder_data b name) as [[|x data]|]; done.
Qed.

Lemma builder_data_set b name data name' :
  EntryBuilder_data (set_subtree_data b name data) name'
  = if decide (name' = name) then Ok data else EntryBuilder_data b name'.
Proof.
  unfold EntryBuilder_data, set_subtree_data, on_subtrees. simpl. rewrite find_subtree_upsert by done.
  destruct (decide (name' = name)); [|done]. by destruct (find_subtree (b_subtrees b) name).
Qed.

Lemma builder_data_parents b name ps name' :
  EntryBuilder_data (set_subtree_parents b name ps) name' = EntryBuilder_data b name'.
Proof.
  unfold EntryBuilder_data, set_subtree_parents, on_subtrees. simpl. rewrite find_subtree_upsert by done.
  destruct (decide (name' = name)) as [->|]; [|done]. by destruct (find_subtree (b_subtrees b) name).
Qed.

(** Staging a document replaces what is staged for the store, and nothing
    else; no entry of the backend changes. *)
Lemma stage_eq name d s b :
  entry_builder s = Some b -> json_to_doc (doc_to_json d) = Some d -> doc_to_json d <> [] ->
  exists s' b', stage root name d s = Some (Done (s', Ok tt)) /\ entry_builder s' = Some b'
    /\ staged b' name = Ok (Some d) /\ (forall name', name' <> name -> staged b' name' = staged b name')
    /\ encryptors s' = encryptors s /\ entries (mem_inner (tx_mem s')) = entries (mem_inner (tx_mem s))
    /\ crdt_cache (tx_mem s') = crdt_cache (tx_mem s).
Proof.
  intros Hb Hj Hne.
  assert (forall b', (forall name', EntryBuilder_data b' name'
      = EntryBuilder_data (set_subtree_data b name (doc_to_json d)) name') ->
    staged b' name = Ok (Some d) /\ forall name', name' <> name -> staged b' name' = staged b name') as Hst.
  { intros b' Hb'. unfold staged. split.
    - rewrite Hb', builder_data_set, decide_True by done. destruct (doc_to_json d) eqn:E; [done|].
      by rewrite Hj.
    - intros name' Hn. by rewrite Hb', builder_data_set, decide_False. }
  unfold stage, update_subtree, tx_bind, get_builder. rewrite Hb. cbn [ok_or].
  destruct (builder_has b name).
  - unfold tx_ret. rewrite Hb. cbn [ok_or]. unfold put_builder.
    eexists _, _. split; [done|]. split; [done|]. by destruct (Hst _ (fun _ => eq_refl)).
  - unfold backend_store_snapshot, tx_ret, put_builder.
    destruct (mem_store_snapshot (mem_inner (tx_mem s)) root name) as [inner' snap] eqn:E.
    cbn [entry_builder with_mem]. rewrite Hb. cbn [ok_or].
    eexists _, _. split; [done|]. split; [done|].
    destruct (Hst (set_subtree_parents (set_subtree_data b name (doc_to_json d)) name (tips snap)))
      as [? ?]; [intros; apply builder_data_parents|].
    repeat (split; [done|]). split; [|done]. cbn [tx_mem with_mem with_builder with_inner mem_inner].
    change inner' with (inner', snap).1. rewrite <- E. unfold mem_store_snapshot, traversal_store_snapshot.
    by destruct (cached_store_tips _ root name).
Qed.

(** A write in a transaction is read back in it: after [DocStore::set] both
    [get] and [get_path] return the value, before anything is committed; what is
    staged for other stores, the entries of the backend and the cached states
    are as before. *)
Theorem docstore_read_your_writes name key v s b local :
  let d := (Doc_set (default Doc_new local) key v).1 in
  entry_builder s = Some b -> staged b name = Ok local ->
  segments_of key <> [] -> is_deleted v = false ->
  json_to_doc (doc_to_json d) = Some d -> doc_to_json d <> [] ->
  exists s' b', DocStore_set root name key v s = Some (Done (s', Ok tt)) /\ entry_builder s' = Some b'
    /\ DocStore_get iter blake3_raw_cid root name key s' = Some (Done (s', Ok v))
    /\ DocStore_get_path iter blake3_raw_cid root name key s' = Some (Done (s', Ok v))
    /\ (forall name', name' <> name -> staged b' name' = staged b name')
    /\ entries (mem_inner (tx_mem s')) = entries (mem_inner (tx_mem s))
    /\ crdt_cache (tx_mem s') = crdt_cache (tx_mem s).
Proof.
  cbn zeta. intros Hb Hl Hseg Hv Hj Hne.
  destruct (stage_eq name (Doc_set (default Doc_new local) key v).1 s b Hb Hj Hne)
    as (s' & b' & Hrun & Hb' & Hst & Hother & _ & He & Hc).
  assert (Doc_get (Doc_set (default Doc_new local) key v).1 key = Some v) as Hget.
  { unfold Doc_get. rewrite get_raw_segments, Doc_set_segments, raw_at_set by done. by destruct v. }
  exists s', b'. split; [unfold DocStore_set, tx_bind; by rewrite (local_data_eq name s b), Hl|].
  split; [done|]. unfold DocStore_get, DocStore_get_path, tx_bind.
  rewrite (local_data_eq name s' b'), Hst by done. cbn [mbind option_bind]. rewrite Hget.
  split; [by destruct v|]. done.
Qed.

(** A staged deletion of a key hides the key from [get_all], but not from
    [get], which goes on to the history: [Doc::get] hides the tombstone for
    which [get] has a case of its own. *)
Theorem get_misses_staged_deletion name key s s' b l d v :
  entry_builder s = Some b -> staged b name = Ok (Some l) ->
  get_full_state iter blake3_raw_cid root name s = Some (Done (s', Ok d)) -> entry_builder s' = Some b ->
  str_contains dot key = false -> atomic l = false -> is_tombstone l key = true -> Doc_get d key = Some v ->
  DocStore_get iter blake3_raw_cid root name key s = Some (Done (s', Ok v))
  /\ exists all, DocStore_get_all iter blake3_raw_cid root name s = Some (Done (s', Ok all))
     /\ Doc_get all key = None.
Proof.
  intros Hb Hl Hfull Hb' Hkey Hat Hdel Hd.
  assert (Doc_get l key = None) as Hnone.
  { unfold Doc_get, is_tombstone in *. by destruct (get_raw l key) as [[]|]. }
  split.
  - unfold DocStore_get, tx_bind. rewrite (local_data_eq name s b), Hl, Hnone by done.
    unfold get_committed, tx_bind. by rewrite Hfull, Hd.
  - unfold DocStore_get_all, tx_bind. rewrite Hfull, (local_data_eq name s' b), Hl by done.
    eexists. split; [done|]. unfold Doc_get, is_tombstone, get_raw in *. rewrite Hkey in *.
    cbn [negb] in *. rewrite Doc_merge_children by done.
    destruct (children l !! key) as [[]|]; try done.
    unfold merge_opt. by destruct (children d !! key) as [[]|].
Qed.
End store_facts.

(** ** Runs on a concrete store *)

#[local] Existing Instance nat_cid.
#[local] Existing Instance byte_crypto.
#[local] Existing Instance list_lru.

(** The payloads: nothing, the value of the key [n], or its deletion. *)
Definition note_doc (v : Value) : Doc := mkDoc DOC_VERSION false {[ "n" := v ]}.

Definition note_codec : CodecSpec := {|
  to_dagcbor e := default [] (tn_metadata (e_tree e));
  blake3_dagcbor_cid b := match b with x :: _ => N.to_nat (Byte.to_N x) | [] => 0%nat end : @Cid nat_cid;
  json_to_doc b := Some (match b with
                         | [] => Doc_new
                         | [x] => note_doc (Int (Z.of_N (Byte.to_N x)))
                         | _ => note_doc Deleted
                         end);
|}.

Section demo_store.
#[local] Existing Instance note_codec.

#[local] Instance note_json : JsonSpec := {|
  json_to_metadata b := None;
  metadata_to_json md := [];
  doc_to_json d := match children d !! "n" with
                   | Some (Int z) => option_list (Byte.of_N (Z.to_N z))
                   | Some Deleted => [Byte.x00; Byte.x00]
                   | _ => []
                   end;
|}.

Definition note_entry : Entry :=
  mkEntry 0 (mkTreeNode (Some (demo_id 1)) [demo_id 1] (Some [Byte.x02]) 1)
    [mkSubTreeNode "data" [] (Some [Byte.x07]) None] SigInfo_default.

(** A transaction on an entry that sets [n] to 7. *)
Definition note_tx : TxState :=
  mkTxState (mkInMemory (storage_put (storage_put InMemory_new demo_root) note_entry) InMemoryCrdtCache_new)
    (Some (set_parents (EntryBuilder_new (demo_id 1)) [demo_id 2])) ∅ false.

Definition no_hash (s : string) : @Cid nat_cid := 100%nat.

Lemma docstore_read_your_writes_witness :
  exists s', DocStore_set (demo_id 1) "data" "n" (Int 9) note_tx = Some (Done (s', Ok tt))
    /\ DocStore_get elements no_hash (demo_id 1) "data" "n" s' = Some (Done (s', Ok (Int 9))).
Proof.
  destruct (docstore_read_your_writes elements no_hash (demo_id 1) "data" "n" (Int 9) note_tx
    (set_parents (EntryBuilder_new (demo_id 1)) [demo_id 2]) None) as (s' & b' & Hset & _ & Hget & _).
  - reflexivity.
  - reflexivity.
  - discriminate.
  - reflexivity.
  - reflexivity.
  - discriminate.
  - exists s'. split; [exact Hset|exact Hget].
Defined.

(** The committed value is read in the transaction that has deleted it. *)
Lemma deleted_key_still_read :
  match DocStore_delete elements no_hash (demo_id 1) "data" "n" note_tx with
  | Some (Done (s, r)) =>
      r = Ok true
      /\ match DocStore_get elements no_hash (demo_id 1) "data" "n" s,
               DocStore_contains_key elements no_hash (demo_id 1) "data" "n" s,
               DocStore_get_all elements no_hash (demo_id 1) "data" s with
         | Some (Done (_, v)), Some (Done (_, c)), Some (Done (_, Ok all)) =>
             v = Ok (Int 7) /\ c = Ok true /\ is_tombstone all "n" = true
         | _, _, _ => False
         end
  | _ => False
  end.
Proof. vm_compute. repeat split. Qed.
End demo_store.
