(* ===== verification/Commit.v ===== *)
(** * Committing a transaction (transaction/mod.rs, database/mod.rs)

    [Database::new_transaction] opens a transaction at the snapshot that the
    handle sees, and [Transaction::commit] turns the entry being built into a
    stored one: it computes the settings, checks that the authentication
    settings stay well formed, adds the subtrees that [_index] mentions, pins the
    settings, encrypts, computes the heights, builds, signs, validates and writes
    through the instance, which notifies the callbacks.

    A commit works on the transaction and on the instance: its computations
    carry both, and the events delivered so far.  The engine of the instance is
    the backend of the transaction. *)

From S2P Require Import Prelude.
From S2P Require Import Worklist.
From S2P Require Import Path.
From S2P Require Import Position.
From S2P Require Import Ids.
From S2P Require Import Doc.
From S2P Require Import DocPath.
From S2P Require Import Errors.
From S2P Require Import Crypto.
From S2P Require Import Permission.
From S2P Require Import AuthTypes.
From S2P Require Import AuthSettings.
From S2P Require Import Entry.
From S2P Require Import Backend.
From S2P Require Import Traversal.
From S2P Require Import CrdtCache.
From S2P Require Import StoreTips.
From S2P Require Import MergeBase.
From S2P Require Import BackendSteps.
From S2P Require Import Reachability.
From S2P Require Import Validation.
From S2P Require Import Kahn.
From S2P Require Import Verify.
From S2P Require Import InstanceOps.
From S2P Require Import Transaction.
From S2P Require Import Stores.

Section monad.
Context `{IS : InstanceSpec} `{JS : !JsonSpec} `{LS : !LruSpec CacheKey (list Byte.byte)}.

Record CommitState : Type := mkCommitState {
  c_tx : TxState;
  c_inst : InstanceState;
  c_events : list Delivery;
}.

(** The stored entries and tips: one backend, shared by both parts. *)
Definition c_engine (c : CommitState) : InMemoryInner := mem_inner (tx_mem (c_tx c)).

Definition Cm (A : Type) : Type := CommitState -> option (Outcome (CommitState * Result A Error)).

Definition cm_bind {A B} (m : Cm A) (k : A -> Cm B) : Cm B := fun c =>
  match m c with
  | None => None
  | Some Panic => Some Panic
  | Some (Done (c, Err e)) => Some (Done (c, Err e))
  | Some (Done (c, Ok a)) => k a c
  end.

Definition cm_lift {A} (r : Result A Error) : Cm A := fun c => Some (Done (c, r)).

(** A step of the transaction. *)
Definition of_tx {A} (m : Tx A) : Cm A := fun c =>
  match m (c_tx c) with
  | None => None
  | Some Panic => Some Panic
  | Some (Done (s, r)) => Some (Done (mkCommitState s (c_inst c) (c_events c), r))
  end.

(** A call of the instance, on the transaction's backend. *)
Definition of_instance {A}
    (f : InstanceState -> option (Outcome (InstanceState * list Delivery * Result A Error))) : Cm A := fun c =>
  match f (with_engine (c_inst c) (c_engine c)) with
  | None => None
  | Some Panic => Some Panic
  | Some (Done (inst, ds, r)) =>
      Some (Done (mkCommitState (with_mem (c_tx c) (with_inner (tx_mem (c_tx c)) (engine inst))) inst
                    (c_events c ++ ds), r))
  end.
End monad.

Notation "'run' x <- m ; k" := (cm_bind m (fun x => k))
  (at level 200, x pattern, m at level 100, k at level 200) : eidetica_scope.

Section commit.
Context `{IS : InstanceSpec} `{JS : !JsonSpec} `{LS : !LruSpec CacheKey (list Byte.byte)}.
(** The order of iteration of hash sets of IDs, hash maps by ID, and the keys of
    a document; the hash of [ID::from_bytes]; [serde_json] at [HeightStrategy]. *)
Context (iter : gset ID -> list ID) (map_iter : forall A : Type, gmap ID A -> list (ID * A)).
Context (key_iter : gset string -> list string) (blake3_raw_cid : string -> Cid).
Context (strategy_of_json : string -> option HeightStrategy).
(** The clock, as it is read for the height of the tree or of a subtree. *)
Context (now_millis : option string -> Z).
(** The handle: its database, key and view; [suppressed] is the task-local flag
    of a verification pass. *)
Context (root : ID) (provided_signing_key : option (PrivateKey * SigKey)) (allow_unverified suppressed : bool).

(** ** The settings *)

Definition has_auth_doc (settings : Doc) : bool :=
  match Doc_get settings "auth" with
  | Some (VDoc auth_map) => negb (Doc_is_empty auth_map)
  | _ => false
  end.

Definition local_settings : Tx Doc :=
  do staged <- get_local_data SETTINGS;
  tx_ret (default Doc_new staged).

(** The settings before the transaction; the staged ones when the transaction is
    the first to configure authentication. *)
Definition settings_for_validation (has_settings_update : bool) : Tx Doc :=
  do historical_settings <- get_full_state iter blake3_raw_cid root SETTINGS;
  if has_settings_update then
    if has_auth_doc historical_settings then tx_ret historical_settings
    else
      do staged_settings <- local_settings;
      tx_ret (if has_auth_doc staged_settings then staged_settings else historical_settings)
  else tx_ret historical_settings.

Definition corrupted {A} : Result A Error := Err (ETransaction CorruptedAuthConfiguration).

(** The authentication settings of a settings document: absent, or a document. *)
Definition auth_settings_of (settings : Doc) : Result AuthSettings Error :=
  if is_tombstone settings "auth" then corrupted
  else match Doc_get settings "auth" with
       | Some (VDoc auth_doc) => Ok (mkAuthSettings auth_doc)
       | None => Ok AuthSettings_new
       | Some _ => corrupted
       end.

Definition check_new_settings (has_settings_update : bool) (effective : Doc) : Tx unit :=
  if has_settings_update then
    do local <- local_settings;
    tx_lift (let? _ := auth_settings_of (Doc_merge effective local) in Ok tt)
  else tx_ret tt.

(** ** The subtrees that [_index] mentions *)

Definition missing_subtrees (b : EntryBuilder) : list string :=
  match EntryBuilder_data b INDEX with
  | Ok index_data =>
      match json_to_doc index_data with
      | Some index_doc => filter (fun name => name ∉ EntryBuilder_subtrees b) (key_iter (Doc_keys index_doc))
      | None => []
      end
  | Err _ => []
  end.

Fixpoint missing_tips (names : list string) (main_parents : list ID) : Tx (list (string * list ID)) :=
  match names with
  | [] => tx_ret []
  | name :: rest =>
      do ids <- get_subtree_tips iter root name main_parents;
      do others <- missing_tips rest main_parents;
      tx_ret ((name, ids) :: others)
  end.

Definition ensure_index_subtrees : Tx unit :=
  do b <- get_builder;
  do subtree_tips <- missing_tips (missing_subtrees b) (builder_parents b);
  do b <- get_builder;
  let b := foldl (fun b p => set_subtree_parents b p.1 p.2) b subtree_tips in
  do _ <- put_builder b;
  do b <- tx_lift (remove_empty_subtrees b);
  put_builder b.

(** ** Encryption and heights *)

Fixpoint encrypt_subtrees (encs : gmap string Encryptor) (names : list string) (b : EntryBuilder) :
    Result EntryBuilder Error :=
  match names with
  | [] => Ok b
  | name :: rest =>
      match encs !! name, EntryBuilder_data b name with
      | Some encryptor, Ok plaintext_data =>
          if is_nil plaintext_data then encrypt_subtrees encs rest b
          else
            let? ciphertext := encrypt encryptor plaintext_data in
            encrypt_subtrees encs rest (set_subtree_data b name ciphertext)
      | _, _ => encrypt_subtrees encs rest b
      end
  end.

Definition encrypt_builder (b : EntryBuilder) : Tx EntryBuilder := fun s =>
  Some (Done (s, encrypt_subtrees (encryptors s) (EntryBuilder_subtrees b) b)).

(** The largest height among the parents; those that cannot be read count 0. *)
Definition max_parent_height (height_of : Entry -> Result Z Error) (parents : list ID) : Tx (option Z) :=
  tx_read (fun inner => Some (Ok (
    if is_nil parents then None
    else Some (foldl (fun max_height parent_id =>
           match (let? parent := storage_get inner parent_id in height_of parent) with
           | Ok height => Z.max max_height height
           | Err _ => max_height
           end) 0 parents)))).

Definition tx_outcome {A} (o : Outcome A) : Tx A := fun s => Some (let! a := o in Done (s, Ok a)).

(** System subtrees inherit the height of the tree, others can override it. *)
Definition subtree_strategy (index : bool) (name : string) : Tx (option HeightStrategy) :=
  if String.prefix "_" name then tx_ret None
  else if index then
    do r <- tx_try (get_subtree_settings iter blake3_raw_cid root strategy_of_json INDEX name);
    tx_ret (match r with Ok st => height_strategy st | Err _ => None end)
  else tx_ret None.

Fixpoint set_subtree_heights (index : bool) (names : list string) (b : EntryBuilder) : Tx EntryBuilder :=
  match names with
  | [] => tx_ret b
  | name :: rest =>
      do strategy <- subtree_strategy index name;
      match strategy with
      | None => set_subtree_heights index rest b
      | Some strategy =>
          let parents := match EntryBuilder_subtree_parents b name with Ok ps => ps | Err _ => [] end in
          do max_height <- max_parent_height (fun parent => subtree_height parent name) parents;
          do height <- tx_outcome (calculate_height strategy (now_millis (Some name)) max_height);
          set_subtree_heights index rest (set_subtree_height b name (Some height))
      end
  end.

Definition height_strategy_of (settings : Doc) : HeightStrategy :=
  match Doc_get settings "height_strategy" with
  | Some (Text json) => default Incremental (strategy_of_json json)
  | _ => Incremental
  end.

Definition set_heights (strategy : HeightStrategy) (b : EntryBuilder) : Tx EntryBuilder :=
  do max_height <- max_parent_height (fun parent => Ok (Entry_height parent)) (builder_parents b);
  do height <- tx_outcome (calculate_height strategy (now_millis None) max_height);
  let b := set_height b height in
  do index <- tx_try (get_index iter root);
  set_subtree_heights (is_ok index) (EntryBuilder_subtrees b) b.

(** ** The entry *)

Definition pin_settings (b : EntryBuilder) (snap : Snapshot) : EntryBuilder :=
  set_metadata b (metadata_to_json (mkEntryMetadata snap (entropy (builder_metadata b)))).

Definition settings_for_height (has_settings_update : bool) (effective : Doc) : Tx Doc :=
  if has_settings_update then
    do local <- local_settings;
    tx_ret (Doc_merge effective local)
  else tx_ret effective.

(** From the pinned settings to the signed entry. *)
Definition build_entry (has_settings_update : bool) (effective : Doc) (snap : Snapshot) : Tx Entry :=
  do b <- get_builder;
  let b := pin_settings b snap in
  match provided_signing_key with
  | None => tx_fail (ETransaction AuthenticationRequired)
  | Some (signing_key, identity) =>
      let b := set_sig b (mkSigInfo None identity) in
      do b <- encrypt_builder b;
      do settings <- settings_for_height has_settings_update effective;
      do b <- set_heights (height_strategy_of settings) b;
      do entry <- tx_lift (build b);
      do _ <- tx_lift (Entry_validate entry);
      tx_ret (with_signature entry (sign_entry entry signing_key))
  end.

(** ** Commit *)

Definition validate_in_tx (entry : Entry) (settings : AuthSettings) : Tx bool :=
  tx_read (fun inner => is_valid ← validate_entry entry settings (Some inner); Some (Ok is_valid)).

Definition commit : Cm ID :=
  run b <- of_tx get_builder;
  let has_settings_update := builder_has b SETTINGS in
  run effective <- of_tx (settings_for_validation has_settings_update);
  run _ <- of_tx (check_new_settings has_settings_update effective);
  run _ <- of_tx ensure_index_subtrees;
  run db_snapshot <- of_instance (fun inst => Database_snapshot map_iter inst root allow_unverified suppressed);
  run snap <- of_tx (backend_store_snapshot_at iter root SETTINGS db_snapshot);
  run entry <- of_tx (build_entry has_settings_update effective snap);
  run auth_settings <- cm_lift (auth_settings_of effective);
  run is_valid <- of_tx (validate_in_tx entry auth_settings);
  if is_valid : bool then
    run _ <- of_instance (fun inst => Some (Done (put_entry inst root Verified entry Local)));
    cm_lift (Ok (Entry_id entry))
  else cm_lift (Err (ETransaction TransactionEntryValidationFailed)).

(** [Database::new_transaction]: at the snapshot that the handle sees. *)
Definition Database_new_transaction (inst : InstanceState) (cache : InMemoryCrdtCache) :
    option (Outcome (InstanceState * list Delivery * Result TxState Error)) :=
  o ← Database_snapshot map_iter inst root allow_unverified suppressed;
  Some (let! p := o in
        let '(inst, ds, r) := p in
        Done (inst, ds, let? snapshot := r in new_at root (mkInMemory (engine inst) cache) snapshot)).
End commit.
