(* ===== verification/TxFrame.v ===== *)
(** * What the reads of a transaction keep

    A small program logic for the computations of a transaction: [framed m] says
    that [m] ends, that it panics only where the height of a stored entry is at
    its limit, and that it keeps the invariant of the backend, the stored entries
    and their statuses, and what is staged.  It is closed under the combinators,
    so it holds of every read by following the code; the rules are the hint
    database [framed]. *)

From S2P Require Import Prelude.
From S2P Require Import Worklist.
From S2P Require Import Path.
From S2P Require Import Position.
From S2P Require Import Ids.
From S2P Require Import Doc.
From S2P Require Import DocPath.
From S2P Require Import Errors.
From S2P Require Import Crypto.
From S2P Require Import Permission.
From S2P Require Import AuthTypes.
From S2P Require Import AuthSettings.
From S2P Require Import Entry.
From S2P Require Import Backend.
From S2P Require Import Traversal.
From S2P Require Import CrdtCache.
From S2P Require Import StoreTips.
From S2P Require Import MergeBase.
From S2P Require Import BackendSteps.
From S2P Require Import Reachability.
From S2P Require Import Validation.
From S2P Require Import Kahn.
From S2P Require Import Verify.
From S2P Require Import InstanceOps.
From S2P Require Import Transaction.
From S2P Require Import Stores.
From S2P Require Import Commit.

Section builders.
Context `{CD : CodecSpec}.

(** What is staged for a store. *)
Definition payload (b : EntryBuilder) (name : string) : option Bytes :=
  match EntryBuilder_data b name with
  | Ok (x :: d) => Some (x :: d)
  | _ => None
  end.

(** No height in a store is fixed yet. *)
Definition unset (b : EntryBuilder) : Prop := Forall (fun n => st_height n = None) (b_subtrees b).

Lemma upsert_unset b name change new :
  (forall n, st_height (change n) = st_height n) -> st_height new = None ->
  unset b -> unset (on_subtrees b (upsert_subtree name change new)).
Proof.
  intros Hc Hn. unfold unset, on_subtrees. simpl. induction 1 as [|n l Hx Hl IH]; cbn [upsert_subtree]; [by constructor|].
  destruct (decide _); constructor; try done. by rewrite Hc.
Qed.

(** Same tree node and same staged data; heights are left alone. *)
Definition builder_same (b b' : EntryBuilder) : Prop :=
  b_tree b' = b_tree b /\ (forall name, payload b' name = payload b name) /\ (unset b -> unset b').

#[global] Instance builder_same_preorder : PreOrder builder_same.
Proof.
  split; [by intros b|]. intros b1 b2 b3 (H1 & H2 & ?) (H3 & H4 & ?). split; [congruence|].
  split; [|by auto]. intros name. by rewrite H4.
Qed.

Lemma find_subtree_iff l name n :
  NoDup (st_name <$> l) -> find_subtree l name = Some n <-> n ∈ l /\ st_name n = name.
Proof.
  intros Hnd. split; [apply find_subtree_Some|]. intros [Hin Hn]. unfold find_subtree.
  induction l as [|m l IH]; [by apply not_elem_of_nil in Hin|]. rewrite fmap_cons, NoDup_cons in Hnd.
  destruct Hnd as [Hm Hnd]. simpl. apply elem_of_cons in Hin as [->|Hin]; [by rewrite bool_decide_true|].
  rewrite bool_decide_false; [by apply IH|]. intros Heq. apply Hm. rewrite Heq, <- Hn. by apply list_elem_of_fmap_2.
Qed.

Lemma payload_Some b name d :
  payload b name = Some d <-> d <> [] /\ exists n, find_subtree (b_subtrees b) name = Some n /\ st_data n = Some d.
Proof.
  unfold payload, EntryBuilder_data. destruct (find_subtree (b_subtrees b) name) as [n|]; simpl; [|naive_solver].
  destruct (st_data n) as [[|x l]|] eqn:E; simpl; naive_solver.
Qed.

(** Two builders with the same data have the same payloads. *)
Lemma payload_same b b' :
  (forall name, EntryBuilder_data b' name = EntryBuilder_data b name \/
     is_ok (EntryBuilder_data b name) = false /\ is_ok (EntryBuilder_data b' name) = false) ->
  forall name, payload b' name = payload b name.
Proof.
  intros H name. unfold payload. destruct (H name) as [->|[H1 H2]]; [done|].
  by destruct (EntryBuilder_data b name), (EntryBuilder_data b' name).
Qed.

Lemma set_subtree_parents_same b name ps : builder_same b (set_subtree_parents b name ps).
Proof.
  split; [done|]. split; [|by apply upsert_unset]. apply payload_same. intros n.
  unfold EntryBuilder_data, set_subtree_parents, on_subtrees. simpl.
  rewrite find_subtree_upsert by done. case_decide as Hn; [|by left]. subst.
  destruct (find_subtree (b_subtrees b) name); [by left|by right].
Qed.

Lemma set_subtree_parents_ok b name ps : builder_ok b -> builder_ok (set_subtree_parents b name ps).
Proof. by apply upsert_subtree_ok. Qed.

(** Removing the empty subtrees keeps what is staged. *)
Lemma remove_empty_same b b' :
  builder_ok b -> remove_empty_subtrees b = Ok b' -> builder_same b b' /\ builder_ok b'.
Proof.
  unfold remove_empty_subtrees. destruct (get_index_referenced_subtrees b) as [index|]; simpl; [|done].
  intros Hb [= <-]. set (keep := filter (fun n => keep_subtree index n = true) (b_subtrees b)).
  assert (NoDup (st_name <$> keep)) as Hnd.
  { unfold builder_ok, EntryBuilder_subtrees in Hb. subst keep. clear -Hb. induction (b_subtrees b) as [|n l IH]; [done|].
    rewrite fmap_cons, NoDup_cons in Hb. destruct Hb as [Hn Hb]. rewrite filter_cons. case_decide; [|by apply IH].
    rewrite fmap_cons, NoDup_cons. split; [|by apply IH]. intros (m & Heq & [_ Hm]%list_elem_of_filter)%list_elem_of_fmap_1.
    apply Hn. rewrite Heq. by apply list_elem_of_fmap_2. }
  split; [|exact Hnd]. split; [done|]. split; [|unfold unset; rewrite !Forall_forall; intros Hu n [_ Hin]%list_elem_of_filter; by apply Hu]. intros name. apply option_eq. intros d. rewrite !payload_Some.
  unfold on_subtrees. simpl. fold keep. setoid_rewrite find_subtree_iff; [|done..].
  split; intros (Hd & n & [Hin Hn] & Hs); (split; [done|]); exists n; subst keep.
  - apply list_elem_of_filter in Hin as [_ Hin]. done.
  - split; [|done]. split; [|done]. apply list_elem_of_filter. split; [|done]. unfold keep_subtree. rewrite Hs.
    by destruct d.
Qed.
End builders.

(** ** The logic *)

Section framed.
Context `{CD : CodecSpec} `{JS : !JsonSpec} `{LS : !LruSpec CacheKey (list Byte.byte)}.

Record tx_inv (s : TxState) : Prop := {
  ti_mem : mem_inv (mem_inner (tx_mem s));
  ti_cache : NoDup (items (crdt_cache (tx_mem s))).*1;
  ti_builder : forall b, entry_builder s = Some b -> builder_ok b;
}.

Record tx_frame (s s' : TxState) : Prop := {
  tf_entries : entries (mem_inner (tx_mem s')) = entries (mem_inner (tx_mem s));
  tf_status : verification_status (mem_inner (tx_mem s')) = verification_status (mem_inner (tx_mem s));
  tf_encryptors : encryptors s' = encryptors s;
  tf_builder : option_Forall2 builder_same (entry_builder s) (entry_builder s');
}.

#[global] Instance tx_frame_preorder : PreOrder tx_frame.
Proof.
  split; [intros s; split; try done; by destruct (entry_builder s); constructor|].
  intros s1 s2 s3 [H1 H2 H3 H4] [H5 H6 H7 H8]. split; [congruence..|].
  destruct H4; inversion H8; constructor; by etrans.
Qed.

Lemma frame_builder s s' b :
  tx_frame s s' -> entry_builder s = Some b -> exists b', entry_builder s' = Some b' /\ builder_same b b'.
Proof. intros [_ _ _ H] Hb. rewrite Hb in H. inversion H; subst. eauto. Qed.

(** An entry whose height, or whose height in a store, admits no successor. *)
Definition at_limit (es : gmap ID Entry) : Prop :=
  exists id e h, es !! id = Some e /\ u64_max <= h
    /\ (Entry_height e = h \/ exists name, subtree_height e name = Ok h).

(** All heights are at most [bound]. *)
Definition height_in (e : Entry) (h : Z) : Prop := Entry_height e = h \/ exists name, subtree_height e name = Ok h.

Definition heights_below (es : gmap ID Entry) (bound : Z) : Prop :=
  forall id e h, es !! id = Some e -> height_in e h -> h <= bound.

(** The same of every entry, decided. *)
Definition heights_check (bound : Z) (e : Entry) : bool :=
  (Entry_height e <=? bound) && forallb (fun s => default (Entry_height e) (st_height s) <=? bound) (e_subtrees e).

Lemma heights_checked (es : gmap ID Entry) bound :
  forallb (fun p => heights_check bound p.2) (map_to_list es) = true -> heights_below es bound.
Proof.
  rewrite forallb_forall. intros H id e h He Hh. specialize (H (id, e)). rewrite <- list_elem_of_In, elem_of_map_to_list in H.
  apply H, andb_true_iff in He as [He Hs]. cbn [snd] in *. destruct Hh as [<-|[name Hn]]; [by apply Z.leb_le|].
  unfold subtree_height in Hn. destruct (find_subtree _ _) as [st|] eqn:Ef; [|done]. injection Hn as <-.
  apply Z.leb_le. rewrite forallb_forall in Hs. apply Hs. by apply find_some in Ef as [? _].
Qed.

Lemma below_limit es bound : heights_below es bound -> bound < u64_max -> ~ at_limit es.
Proof. intros Hb Hlt (id & e & h & He & Hh & Hin). specialize (Hb id e h He Hin). lia. Qed.

(** [m] ends, panics only at that limit, keeps the invariant, and its end is
    related to its start. *)
Definition obeys (R : TxState -> TxState -> Prop) {A} (m : Tx A) : Prop := forall s, tx_inv s ->
  match m s with
  | None => False
  | Some Panic => at_limit (entries (mem_inner (tx_mem s)))
  | Some (Done (s', _)) => tx_inv s' /\ R s s'
  end.

Definition framed {A} (m : Tx A) : Prop := obeys tx_frame m.

Lemma obeys_bind (R : TxState -> TxState -> Prop) `{!PreOrder R} {A B} (m : Tx A) (k : A -> Tx B) :
  (forall s s', R s s' -> entries (mem_inner (tx_mem s')) = entries (mem_inner (tx_mem s))) ->
  obeys R m -> (forall a, obeys R (k a)) -> obeys R (tx_bind m k).
Proof.
  intros HR Hm Hk s Hs. unfold tx_bind. specialize (Hm s Hs). destruct (m s) as [[[s1 [a|e]]|]|]; [|done..].
  destruct Hm as [Hs1 Hf]. specialize (Hk a s1 Hs1). destruct (k a s1) as [[[s2 r]|]|]; [|by rewrite <- (HR _ _ Hf)|done].
  destruct Hk as [? Hf']. split; [done|]. by etrans.
Qed.

Lemma framed_bind {A B} (m : Tx A) (k : A -> Tx B) : framed m -> (forall a, framed (k a)) -> framed (tx_bind m k).
Proof. apply obeys_bind; [apply _|apply tf_entries]. Qed.

Lemma tx_bind_ok {A B} (m : Tx A) (k : A -> Tx B) s s' b :
  tx_bind m k s = Some (Done (s', Ok b)) ->
  exists s1 a, m s = Some (Done (s1, Ok a)) /\ k a s1 = Some (Done (s', Ok b)).
Proof. unfold tx_bind. destruct (m s) as [[[s1 [a|e]]|]|]; [|done..]. eauto. Qed.

(** The end of a framed computation that returns. *)
Lemma framed_ok {A} (m : Tx A) s s' r :
  framed m -> tx_inv s -> m s = Some (Done (s', r)) -> tx_inv s' /\ tx_frame s s'.
Proof. intros Hm Hs E. specialize (Hm s Hs). by rewrite E in Hm. Qed.

Lemma framed_lift {A} (r : Result A Error) : framed (tx_lift r).
Proof. by intros s Hs. Qed.

Lemma framed_ret {A} (a : A) : framed (tx_ret a).
Proof. by intros s Hs. Qed.

Lemma framed_fail {A} (e : Error) : framed (tx_fail (A := A) e).
Proof. by intros s Hs. Qed.

Lemma framed_try {A} (m : Tx A) : framed m -> framed (tx_try m).
Proof. intros Hm s Hs. unfold tx_try. specialize (Hm s Hs). by destruct (m s) as [[[s' r]|]|]. Qed.

Lemma framed_read {A} (f : InMemoryInner -> option (Result A Error)) :
  (forall inner, mem_inv inner -> is_Some (f inner)) -> framed (tx_read f).
Proof. intros Hf s Hs. unfold tx_read. by destruct (Hf _ (ti_mem _ Hs)) as [r ->]. Qed.

(** A step of the backend that keeps entries and statuses. *)
Lemma framed_inner s inner' :
  tx_inv s -> mem_inv inner' -> entries inner' = entries (mem_inner (tx_mem s)) ->
  verification_status inner' = verification_status (mem_inner (tx_mem s)) ->
  tx_inv (with_mem s (with_inner (tx_mem s) inner')) /\ tx_frame s (with_mem s (with_inner (tx_mem s) inner')).
Proof.
  intros [H1 H2 H3] Hm He Hv. split; [by split|]. by split.
Qed.

Lemma framed_cache s c' :
  tx_inv s -> NoDup (items c').*1 ->
  tx_inv (with_mem s (with_cache (tx_mem s) c')) /\ tx_frame s (with_mem s (with_cache (tx_mem s) c')).
Proof. intros [H1 H2 H3] Hc. split; [by split|]. by split. Qed.

Lemma framed_put_builder s b b' :
  tx_inv s -> entry_builder s = Some b -> builder_same b b' -> builder_ok b' ->
  tx_inv (with_builder s b') /\ tx_frame s (with_builder s b').
Proof.
  intros [H1 H2 H3] Hb Hs Hok. split.
  - split; [done..|]. simpl. by intros ? [= <-].
  - split; try done. simpl. rewrite Hb. by constructor.
Qed.
End framed.

Create HintDb framed.
#[export] Hint Resolve framed_lift framed_ret framed_fail framed_try : framed.

(** Follow the code: binds, branches, and the rules of the database. *)
Ltac frame_step :=
  first
    [ solve [eauto with framed]
    | apply framed_bind; [|intros ?]
    | progress cbn zeta
    | match goal with
      | |- framed (match ?x with _ => _ end) => destruct x
      | |- framed (tx_bind (match ?x with _ => _ end) _) => destruct x
      end ].
Ltac frame := repeat frame_step.

Section rules.
Context `{CD : CodecSpec} `{JS : !JsonSpec} `{LS : !LruSpec CacheKey (list Byte.byte)}.
Context (iter : gset ID -> list ID) (blake3_raw_cid : string -> Cid) (root : ID).
Context (Hiter : forall s, iter s ≡ₚ elements s).

(** ** The backend *)

Lemma framed_get id : framed (backend_get id).
Proof. apply framed_read. by eexists. Qed.

Lemma framed_snapshot : framed (backend_snapshot root).
Proof.
  intros s Hs. unfold backend_snapshot. destruct (traversal_snapshot_inv _ root (ti_mem _ Hs)) as (Hm & He & _).
  pose proof (snapshot_status (mem_inner (tx_mem s)) root) as Hv.
  change (traversal_snapshot (mem_inner (tx_mem s)) root).1 with (mem_snapshot (mem_inner (tx_mem s)) root).1 in Hm, He.
  destruct (mem_snapshot (mem_inner (tx_mem s)) root) as [inner' snap]. by apply framed_inner.
Qed.

Lemma framed_store_snapshot store : framed (backend_store_snapshot root store).
Proof.
  intros s Hs. unfold backend_store_snapshot, mem_store_snapshot.
  destruct (traversal_store_snapshot_inv _ root store (ti_mem _ Hs)) as (Hm & He & _).
  assert (verification_status (traversal_store_snapshot (mem_inner (tx_mem s)) root store).1
    = verification_status (mem_inner (tx_mem s))) as Hv
    by (unfold traversal_store_snapshot; by destruct (cached_store_tips _ _ _)).
  destruct (traversal_store_snapshot (mem_inner (tx_mem s)) root store) as [inner' snap]. by apply framed_inner.
Qed.

Lemma store_snapshot_at_keeps inner tree subtree main :
  mem_inv inner ->
  exists inner' r, store_snapshot_at iter inner tree subtree main = Some (inner', r)
    /\ mem_inv inner' /\ entries inner' = entries inner
    /\ verification_status inner' = verification_status inner.
Proof.
  intros Hinv. unfold store_snapshot_at. destruct (is_nil main) eqn:En; [by eauto 10|].
  destruct (traversal_snapshot_inv inner tree Hinv) as (Hm & He & _).
  pose proof (snapshot_status inner tree) as Hv.
  change (verification_status (traversal_snapshot inner tree).1 = verification_status inner) in Hv.
  destruct (traversal_snapshot inner tree) as [inner1 current]. cbn [fst] in *. case_decide.
  - destruct (cached_store_tips inner1 tree subtree); [by eauto 10|]. eexists _, _. split; [done|].
    split; [|done]. apply cache_store_tips_inv; [done|]. intros id. apply elem_of_compute_store_tips.
  - destruct (check_tips inner1 tree main) as [[]|] eqn:Ec.
    + destruct (tree_from_checked_tips inner1 tree main) as (acc & -> & _); [apply mi_ids, Hm|done|]. simpl.
      destruct (is_nil (filter _ (sort_entries_by_height acc))); eauto 10.
    + unfold get_tree_from_tips. rewrite Ec, En. simpl. eauto 10.
Qed.

Lemma framed_store_snapshot_at store main : framed (backend_store_snapshot_at iter root store main).
Proof.
  intros s Hs. unfold backend_store_snapshot_at, mem_store_snapshot_at.
  destruct (store_snapshot_at_keeps _ root store (tips main) (ti_mem _ Hs)) as (inner' & r & -> & Hm & He & Hv).
  simpl. by apply framed_inner.
Qed.

Lemma framed_store_at store snap : framed (backend_store_at root store snap).
Proof.
  apply framed_read. intros inner Hinv.
  destruct (store_at_walk inner root store (tips snap) (mi_ids _ Hinv)) as (acc & -> & _). by eexists.
Qed.

Lemma framed_get_cached id store : framed (get_cached_crdt_state id store).
Proof.
  intros s Hs. unfold get_cached_crdt_state.
  destruct (cache_get_keeps (crdt_cache (tx_mem s)) Shared id store (ti_cache _ Hs)) as [Hnd _].
  destruct (cache_get (crdt_cache (tx_mem s)) Shared id store) as [c' r]. by apply framed_cache.
Qed.

Lemma framed_cache_state id store state : framed (cache_crdt_state id store state).
Proof.
  intros s Hs. unfold cache_crdt_state.
  destruct (cache_put_keeps (crdt_cache (tx_mem s)) Shared id store state (ti_cache _ Hs)) as (c' & -> & Hnd & _).
  by apply framed_cache.
Qed.

Lemma framed_decrypt name data : framed (decrypt_if_needed name data).
Proof. by intros s Hs. Qed.

Lemma framed_encrypt name data : framed (encrypt_if_needed name data).
Proof. by intros s Hs. Qed.

Lemma framed_get_builder : framed get_builder.
Proof. by intros s Hs. Qed.

Lemma framed_set_parents name ids : framed (do b <- get_builder; put_builder (set_subtree_parents b name ids)).
Proof.
  intros s Hs. unfold tx_bind, get_builder. destruct (entry_builder s) as [b|] eqn:Hb; simpl; [|done].
  eapply framed_put_builder; [done..|apply set_subtree_parents_same|]. apply set_subtree_parents_ok. by eapply ti_builder.
Qed.

Hint Resolve framed_get framed_snapshot framed_store_snapshot framed_store_snapshot_at framed_store_at
  framed_get_cached framed_cache_state framed_decrypt framed_encrypt framed_get_builder framed_set_parents : framed.

(** ** The state of a store *)

Lemma framed_contribution name e : framed (entry_contribution name e).
Proof. unfold entry_contribution. frame. Qed.
Hint Resolve framed_contribution : framed.

Lemma framed_merge_entries name d es : framed (merge_entries name d es).
Proof. revert d. induction es; intros d; simpl; frame. Qed.

Lemma framed_merge_path name d ids : framed (merge_path_entries name d ids).
Proof. revert d. induction ids; intros d; simpl; frame. Qed.

Lemma framed_decode name data : framed (decode_cached name data).
Proof. unfold decode_cached. frame. Qed.

Lemma framed_store_cached id name d : framed (store_cached id name d).
Proof. unfold store_cached. frame. Qed.
Hint Resolve framed_merge_entries framed_merge_path framed_decode framed_store_cached : framed.

Lemma framed_single name id : framed (compute_single_entry_state_recursive root name id).
Proof. unfold compute_single_entry_state_recursive. frame. Qed.
Hint Resolve framed_single : framed.

Lemma framed_merge_base name ids : framed (tx_read (fun inner => find_merge_base iter inner root name ids)).
Proof.
  apply framed_read. intros inner _. pose proof (find_merge_base_cases iter inner root name ids Hiter).
  destruct (find_merge_base iter inner root name ids); [by eexists|done].
Qed.

Lemma framed_path name base ids : framed (tx_read (fun inner => get_path_from_to inner root name base ids)).
Proof.
  apply framed_read. intros inner _. pose proof (path_search inner root name base ids).
  destruct (get_path_from_to inner root name base ids); [by eexists|done].
Qed.
Hint Resolve framed_merge_base framed_path : framed.

Lemma framed_merge_based name ids : framed (compute_subtree_state_merge_based iter blake3_raw_cid root name ids).
Proof. unfold compute_subtree_state_merge_based. frame. Qed.

Lemma framed_full_state_tips name ids : framed (full_state_tips iter root name ids).
Proof. unfold full_state_tips. frame. Qed.
Hint Resolve framed_merge_based framed_full_state_tips : framed.

Lemma framed_full_state name : framed (get_full_state iter blake3_raw_cid root name).
Proof. unfold get_full_state. frame. Qed.

Lemma framed_local_data name : framed (get_local_data name).
Proof. unfold get_local_data. frame. Qed.

Lemma framed_subtree_tips name ids : framed (get_subtree_tips iter root name ids).
Proof. unfold get_subtree_tips. frame. Qed.
Hint Resolve framed_full_state framed_local_data framed_subtree_tips : framed.

Lemma framed_init_parents name : framed (init_subtree_parents iter root name).
Proof. unfold init_subtree_parents. frame. Qed.
End rules.

#[export] Hint Resolve framed_get framed_snapshot framed_store_snapshot framed_store_snapshot_at framed_get_builder
  framed_full_state framed_local_data framed_subtree_tips framed_init_parents : framed.

(** ** Staging *)

Section staging.
Context `{CD : CodecSpec} `{JS : !JsonSpec} `{LS : !LruSpec CacheKey (list Byte.byte)}.

(** Staging changes the data of the builder, and not its place in the tree. *)
Definition place (b : EntryBuilder) : option ID * list ID := (tn_root (b_tree b), builder_parents b).

Definition tx_unset (s : TxState) : Prop := forall b, entry_builder s = Some b -> unset b.

Record tx_stage (s s' : TxState) : Prop := {
  ts_entries : entries (mem_inner (tx_mem s')) = entries (mem_inner (tx_mem s));
  ts_status : verification_status (mem_inner (tx_mem s')) = verification_status (mem_inner (tx_mem s));
  ts_place : place <$> entry_builder s' = place <$> entry_builder s;
  ts_unset : tx_unset s -> tx_unset s';
  ts_encryptors : encryptors s' = encryptors s;
}.

#[global] Instance tx_stage_preorder : PreOrder tx_stage.
Proof. split; [by intros s|]. intros s1 s2 s3 [] []. split; [congruence..|auto|congruence]. Qed.

Definition staging {A} (m : Tx A) : Prop := obeys tx_stage m.

Lemma staging_framed {A} (m : Tx A) : framed m -> staging m.
Proof.
  intros Hm s Hs. specialize (Hm s Hs). destruct (m s) as [[[s' r]|]|]; [|done..].
  destruct Hm as [Hs' [He Hv Hk Hb]]. split; [done|]. split; [done..| | |done]; inversion Hb as [b b' (Ht & _ & Hu) E1 E2|E1 E2]; simpl; try done.
  - unfold place, builder_parents. by rewrite Ht.
  - intros Hs0 b0 Hb0. rewrite <- E2 in Hb0. injection Hb0 as <-. apply Hu, Hs0. done.
  - intros _ b0 Hb0. congruence.
Qed.

Lemma staging_bind {A B} (m : Tx A) (k : A -> Tx B) : staging m -> (forall a, staging (k a)) -> staging (tx_bind m k).
Proof. apply obeys_bind; [apply _|apply ts_entries]. Qed.

Lemma staging_update root name data : staging (update_subtree root name data).
Proof.
  unfold update_subtree. apply staging_bind; [apply staging_framed, framed_get_builder|]. intros b0.
  apply staging_bind.
  { apply staging_framed. destruct (builder_has b0 name); frame. }
  intros ids s Hs. unfold tx_bind, get_builder. destruct (entry_builder s) as [b|] eqn:Hb; simpl; [|done].
  pose proof (ti_builder _ Hs b Hb) as Hok.
  set (b1 := match ids with Some ids => set_subtree_parents _ name ids | None => _ end).
  assert (b_tree b1 = b_tree b /\ builder_ok b1 /\ (unset b -> unset b1)) as (Ht1 & Hok1 & Hu1).
  { assert (builder_ok (set_subtree_data b name data)) as H1 by (by apply upsert_subtree_ok).
    assert (unset b -> unset (set_subtree_data b name data)) as H2 by (by apply upsert_unset).
    subst b1. destruct ids; [|done]. split; [done|]. split; [by apply set_subtree_parents_ok|].
    intros Hu. apply upsert_unset; auto. }
  destruct Hs as [Hm Hc _]. split; split; simpl; try done; [by intros ? [= <-]| |].
  - rewrite Hb. simpl. unfold place, builder_parents. by rewrite Ht1.
  - intros Hu b2 [= <-]. by apply Hu1, Hu.
Qed.

Lemma staging_entropy z : staging (set_metadata_entropy z).
Proof.
  intros s Hs. unfold set_metadata_entropy, tx_bind, get_builder. destruct (entry_builder s) as [b|] eqn:Hb; simpl; [|done].
  destruct Hs as [Hm Hc Hbs]. split; split; simpl; try done.
  - intros ? [= <-]. exact (Hbs b Hb).
  - by rewrite Hb.
  - intros Hu b' [= <-]. exact (Hu b Hb).
Qed.
End staging.

Create HintDb staging.
#[export] Hint Resolve staging_update staging_entropy : staging.

(** Follow the code of an operation that stages. *)
Ltac stage_step :=
  first
    [ solve [eauto with staging]
    | solve [apply staging_framed; frame]
    | apply staging_bind; [|intros ?]
    | progress cbn zeta
    | match goal with
      | |- staging (match ?x with _ => _ end) => destruct x
      end ].
Ltac stages := repeat stage_step.
