(* ===== verification/CommitSpec.v ===== *)
(** * What a commit does

    The stages of [Transaction::commit] followed to the stored entry: on success
    exactly one entry is added, signed, valid, higher than its parents and with
    the staged data; on an error the stored entries are as before. *)

From S2P Require Import Prelude.
From S2P Require Import Worklist.
From S2P Require Import Path.
From S2P Require Import Position.
From S2P Require Import Ids.
From S2P Require Import Doc.
From S2P Require Import DocPath.
From S2P Require Import Errors.
From S2P Require Import Crypto.
From S2P Require Import Permission.
From S2P Require Import AuthTypes.
From S2P Require Import AuthSettings.
From S2P Require Import Entry.
From S2P Require Import Backend.
From S2P Require Import Traversal.
From S2P Require Import CrdtCache.
From S2P Require Import StoreTips.
From S2P Require Import MergeBase.
From S2P Require Import BackendSteps.
From S2P Require Import Reachability.
From S2P Require Import Validation.
From S2P Require Import Kahn.
From S2P Require Import Verify.
From S2P Require Import InstanceOps.
From S2P Require Import Transaction.
From S2P Require Import Stores.
From S2P Require Import Commit.
From S2P Require Import TxFrame.

(** The largest height among the parents. *)
Section heights.
Context `{CD : CodecSpec} `{JS : !JsonSpec} `{LS : !LruSpec CacheKey (list Byte.byte)}.

Lemma max_parent_height_eq height_of parents s :
  exists o, max_parent_height height_of parents s = Some (Done (s, Ok o))
    /\ (parents = [] -> o = None)
    /\ (parents <> [] -> exists h, o = Some h /\ 0 <= h
        /\ (forall p e h', p ∈ parents -> entries (mem_inner (tx_mem s)) !! p = Some e ->
              height_of e = Ok h' -> h' <= h)
        /\ (h = 0 \/ exists p e, entries (mem_inner (tx_mem s)) !! p = Some e /\ height_of e = Ok h)).
Proof.
  unfold max_parent_height, tx_read. eexists. split; [done|]. split; [by intros ->|].
  intros Hne. destruct (is_nil parents) eqn:En; [by apply is_nil_true in En|]. eexists. split; [done|].
  clear Hne En. set (P (acc : Z) (ps : list ID) (h : Z) := acc <= h
    /\ (forall p e h', p ∈ ps -> entries (mem_inner (tx_mem s)) !! p = Some e -> height_of e = Ok h' -> h' <= h)
    /\ (h = acc \/ exists p e, entries (mem_inner (tx_mem s)) !! p = Some e /\ height_of e = Ok h)).
  match goal with |- context [foldl ?f 0 parents] => set (g := f) end.
  assert (forall ps acc, P acc ps (foldl g acc ps)) as H; [|exact (H parents 0)].
  induction ps as [|p ps IH]; intros acc; simpl; [split; [lia|set_solver]|].
  destruct (IH (g acc p)) as (H1 & H2 & H3).
  assert (g acc p = match entries (mem_inner (tx_mem s)) !! p with
                    | Some e => match height_of e with Ok h => Z.max acc h | Err _ => acc end
                    | None => acc
                    end) as Hg by (unfold g, storage_get; by destruct (entries (mem_inner (tx_mem s)) !! p)).
  set (h0 := foldl g (g acc p) ps) in *. clearbody h0. rewrite Hg in H1, H3. destruct (entries (mem_inner (tx_mem s)) !! p) as [e|] eqn:Ep.
  - destruct (height_of e) as [h|] eqn:Eh.
    + split; [lia|]. split.
      * intros p' e' h' [->|Hp]%elem_of_cons He Hh; [|by eauto]. replace h' with h by congruence. lia.
      * destruct H3 as [H3|?]; [|by right]. destruct (Z.max_spec acc h) as [[_ Hm]|[_ Hm]]; rewrite Hm in H3;
          [right; exists p, e; by rewrite H3|by left].
    + split; [lia|]. split; [|done]. intros p' e' h' [->|Hp]%elem_of_cons He Hh; [congruence|by eauto].
  - split; [lia|]. split; [|done]. intros p' e' h' [->|Hp]%elem_of_cons He Hh; [congruence|by eauto].
Qed.

End heights.

Section stages.
Context `{IS : InstanceSpec} `{JS : !JsonSpec} `{LS : !LruSpec CacheKey (list Byte.byte)}.
Context (iter : gset ID -> list ID) (key_iter : gset string -> list string) (blake3_raw_cid : string -> Cid).
Context (strategy_of_json : string -> option HeightStrategy) (now_millis : option string -> Z).
Context (root : ID) (provided_signing_key : option (PrivateKey * SigKey)).
Context (Hiter : forall s, iter s ≡ₚ elements s).

(** ** Framing the stages *)

Lemma framed_committed name key : framed (get_committed iter blake3_raw_cid root name key).
Proof. unfold get_committed. frame. Qed.
Hint Resolve framed_committed : framed.

Lemma framed_DocStore_get name key : framed (DocStore_get iter blake3_raw_cid root name key).
Proof. unfold DocStore_get, local_data. frame. Qed.
Hint Resolve framed_DocStore_get : framed.

Lemma framed_get_entry registry name : framed (get_entry iter blake3_raw_cid root strategy_of_json registry name).
Proof. unfold get_entry. frame. Qed.
Hint Resolve framed_get_entry : framed.

Lemma framed_subtree_settings registry name :
  framed (get_subtree_settings iter blake3_raw_cid root strategy_of_json registry name).
Proof. unfold get_subtree_settings. frame. Qed.

Lemma framed_local_settings : framed local_settings.
Proof. unfold local_settings. frame. Qed.
Hint Resolve framed_subtree_settings framed_local_settings : framed.

Lemma framed_settings_for_validation upd : framed (settings_for_validation iter blake3_raw_cid root upd).
Proof. unfold settings_for_validation. frame. Qed.

Lemma framed_check_new_settings upd d : framed (check_new_settings upd d).
Proof. unfold check_new_settings. frame. Qed.

Lemma framed_settings_for_height upd d : framed (settings_for_height upd d).
Proof. unfold settings_for_height. frame. Qed.

Lemma framed_missing_tips names ids : framed (missing_tips iter root names ids).
Proof. induction names; simpl; frame. Qed.

Lemma framed_strategy index name :
  framed (subtree_strategy iter blake3_raw_cid strategy_of_json root index name).
Proof. unfold subtree_strategy. frame. Qed.
Hint Resolve framed_missing_tips framed_strategy framed_settings_for_height : framed.

(** ** Heights *)

(** A height computed from the parents: the call panics only at the limit. *)
Lemma framed_height {A} height_of parents strategy now (k : Z -> Tx A) :
  (forall e h, height_of e = Ok h -> Entry_height e = h \/ exists name, subtree_height e name = Ok h) ->
  (forall h, framed (k h)) ->
  framed (do max_height <- max_parent_height height_of parents;
          do height <- tx_outcome (calculate_height strategy now max_height); k height).
Proof.
  intros Hof Hk s Hs. destruct (max_parent_height_eq height_of parents s) as (o & Ho & Hnil & Hsome).
  unfold tx_bind. rewrite Ho. unfold tx_outcome.
  destruct (calculate_height strategy now o) as [h|] eqn:Ec; simpl; [by apply Hk|].
  destruct parents as [|p ps]; [rewrite Hnil in Ec by done; by destruct strategy|].
  destruct Hsome as (h & -> & H0 & _ & Hw); [done|]. unfold calculate_height, checked in Ec.
  assert (is_u64 (h + 1) = false) as Hu by (destruct (is_u64 (h + 1)), strategy; done).
  assert (u64_max <= h) by (unfold is_u64, in_range in Hu; lia).
  destruct Hw as [->|(q & e & He & Hh)]; [unfold u64_max in *; lia|]. exists q, e, h. split; [done|]. split; [done|].
  by apply Hof.
Qed.

Lemma framed_subtree_heights index names b :
  framed (set_subtree_heights iter blake3_raw_cid strategy_of_json now_millis root index names b).
Proof.
  revert b. induction names as [|name names IH]; intros b; simpl; [frame|].
  apply framed_bind; [frame|]. intros [strategy|]; [|apply IH]. cbn zeta. apply framed_height; [|intros h; apply IH]. eauto.
Qed.
Hint Resolve framed_subtree_heights : framed.

Lemma framed_set_heights strategy b :
  framed (set_heights iter blake3_raw_cid strategy_of_json now_millis root strategy b).
Proof.
  unfold set_heights. apply framed_height; [intros e h [= <-]; by left|]. intros h. unfold get_index, Registry_new. frame.
Qed.

Lemma framed_encrypt_builder b : framed (encrypt_builder b).
Proof. by intros s Hs. Qed.
Hint Resolve framed_set_heights framed_encrypt_builder : framed.

Lemma framed_build_entry upd d snap :
  framed (build_entry iter blake3_raw_cid strategy_of_json now_millis root provided_signing_key upd d snap).
Proof. unfold build_entry. frame. Qed.

Lemma framed_validate e settings : framed (validate_in_tx e settings).
Proof.
  apply framed_read. intros inner _. destruct (validate_entry_cases e settings (Some inner)) as (b & -> & _). by eexists.
Qed.

(** ** The subtrees of the index *)

Lemma fold_parents_same b l :
  builder_ok b -> builder_same b (foldl (fun b p => set_subtree_parents b p.1 p.2) b l)
    /\ builder_ok (foldl (fun b p => set_subtree_parents b p.1 p.2) b l).
Proof.
  revert b. induction l as [|[name ps] l IH]; intros b Hb; simpl; [done|].
  destruct (IH (set_subtree_parents b name ps)) as [Hs Hok]; [by apply set_subtree_parents_ok|].
  split; [|done]. by etrans; [apply set_subtree_parents_same|].
Qed.

(** No subtree is left with empty data. *)
Definition no_empty (b : EntryBuilder) : Prop := forall name, EntryBuilder_data b name <> Ok [].

Lemma remove_empty_no_empty b b' : remove_empty_subtrees b = Ok b' -> no_empty b'.
Proof.
  unfold remove_empty_subtrees. destruct (get_index_referenced_subtrees b) as [index|]; simpl; [|done].
  intros [= <-] name. unfold EntryBuilder_data. destruct (find_subtree _ name) as [n|] eqn:Ef; simpl; [|done].
  apply find_subtree_Some in Ef as [Hin _]. simpl in Hin. apply list_elem_of_filter in Hin as [Hk _].
  unfold keep_subtree in Hk. destruct (st_data n) as [[|x l]|]; done.
Qed.

Lemma framed_ensure_index : framed (ensure_index_subtrees iter key_iter root).
Proof.
  intros s Hs. unfold ensure_index_subtrees, tx_bind at 1, get_builder at 1.
  destruct (entry_builder s) as [b|] eqn:Hb; simpl; [|done].
  pose proof (framed_missing_tips (missing_subtrees key_iter b) (builder_parents b) s Hs) as Hm.
  unfold tx_bind at 1. destruct (missing_tips _ _ _ _ s) as [[[s1 [l|e]]|]|]; [|done..].
  destruct Hm as [Hs1 Hf1]. destruct (frame_builder _ _ _ Hf1 Hb) as (b1 & Hb1 & Hsame1).
  unfold tx_bind, get_builder. rewrite Hb1. simpl.
  destruct (fold_parents_same b1 l) as [Hsame2 Hok2]; [by eapply ti_builder|].
  set (b2 := foldl _ b1 l) in *. clearbody b2.
  destruct (framed_put_builder s1 b1 b2 Hs1 Hb1 Hsame2 Hok2) as [Hs2 Hf2].
  unfold tx_lift. destruct (remove_empty_subtrees b2) as [b3|] eqn:E; [|split; [done|by etrans]].
  destruct (remove_empty_same b2 b3 Hok2 E) as [Hsame3 Hok3].
  destruct (framed_put_builder (with_builder s1 b2) b2 b3 Hs2 eq_refl Hsame3 Hok3) as [Hs3 Hf3].
  split; [done|]. etrans; [exact Hf1|]. by etrans.
Qed.

Lemma ensure_index_no_empty s s' :
  ensure_index_subtrees iter key_iter root s = Some (Done (s', Ok tt)) ->
  exists b, entry_builder s' = Some b /\ no_empty b.
Proof.
  unfold ensure_index_subtrees, tx_bind, get_builder. destruct (entry_builder s) as [b|]; simpl; [|done].
  destruct (missing_tips _ _ _ _ s) as [[[s1 [l|e]]|]|]; [|done..].
  destruct (entry_builder s1) as [b1|]; simpl; [|done].
  destruct (remove_empty_subtrees _) as [b3|] eqn:E; simpl; [|done]. intros [= <-]. exists b3. split; [done|].
  by eapply remove_empty_no_empty.
Qed.

(** The snapshot that is pinned holds the settings tips of the handle's view. *)
Lemma pin_scope inner store main snap inner' :
  mem_inv inner -> proper_tree (entries inner) root -> acyclic (entries inner) root ->
  mem_store_snapshot_at iter inner root store main = Some (inner', Ok snap) ->
  Snapshot_new (tips snap) = snap
  /\ forall id, id ∈ tips snap <-> scope_tip (entries inner) root store (tips main) id.
Proof.
  intros Hinv Hp Hac. unfold mem_store_snapshot_at.
  pose proof (store_snapshot_at_cases iter inner root store (tips main) Hinv Hp Hac Hiter) as H.
  destruct (store_snapshot_at iter inner root store (tips main)) as [[i [ids|]]|]; simpl; [|done..].
  intros [= _ <-]. split; [apply Snapshot_new_id, Snapshot_new_wf|]. intros id.
  rewrite elem_of_Snapshot_new, elem_of_elements. apply H.
Qed.

(** ** The settings that authorise *)

(** Settings that configure authentication: an [auth] document that is not
    empty. *)
Definition configures_auth (d : Doc) : Prop :=
  exists m, Doc_get d "auth" = Some (VDoc m) /\ Doc_is_empty m = false.

(** The settings that decide on a commit are those before it.  Settings staged
    in [b] decide only when those before configure no authentication and the
    staged ones do, and then they do decide. *)
Definition deciding (b : EntryBuilder) (historical effective : Doc) : Prop :=
  let staged d := exists data, payload b SETTINGS = Some data /\ json_to_doc data = Some d in
  (effective = historical \/ ~ configures_auth historical /\ configures_auth effective /\ staged effective)
  /\ forall d, ~ configures_auth historical -> configures_auth d -> staged d -> effective = d.

Lemma has_auth_doc_true d : has_auth_doc d = true <-> configures_auth d.
Proof.
  unfold has_auth_doc, configures_auth. split.
  - destruct (Doc_get d "auth") as [[]|]; try done. intros H%negb_true_iff. eauto.
  - intros (m & -> & ->). done.
Qed.

Lemma has_auth_doc_false d : has_auth_doc d = false <-> ~ configures_auth d.
Proof. rewrite <- has_auth_doc_true. by destruct (has_auth_doc d). Qed.

Lemma payload_has b name data : payload b name = Some data -> builder_has b name = true.
Proof.
  unfold payload, builder_has, EntryBuilder_data. intros H. apply bool_decide_eq_true_2.
  destruct (find_subtree (b_subtrees b) name) as [n|] eqn:E; [|done]. apply find_subtree_Some in E as [Hi <-].
  unfold EntryBuilder_subtrees. by apply list_elem_of_fmap_2.
Qed.

(** What is staged, read as a document. *)
Lemma local_settings_run s s' b d :
  entry_builder s = Some b -> local_settings s = Some (Done (s', Ok d)) ->
  match payload b SETTINGS with Some data => json_to_doc data = Some d | None => d = Doc_new end.
Proof.
  intros Hb. unfold local_settings, get_local_data, get_builder, tx_bind, payload. rewrite Hb. simpl.
  destruct (EntryBuilder_data b SETTINGS) as [[|x data]|]; simpl; try (by intros [= _ <-]).
  destruct (json_to_doc (x :: data)); simpl; [|done]. by intros [= _ <-].
Qed.

Lemma settings_for_validation_run s b s1 effective :
  tx_inv s -> entry_builder s = Some b ->
  settings_for_validation iter blake3_raw_cid root (builder_has b SETTINGS) s = Some (Done (s1, Ok effective)) ->
  exists s0 historical, get_full_state iter blake3_raw_cid root SETTINGS s = Some (Done (s0, Ok historical))
    /\ deciding b historical effective.
Proof.
  intros Hs Hb (s0 & hist & E0 & H)%tx_bind_ok. exists s0, hist. split; [done|].
  destruct (framed_ok _ _ _ _ (framed_full_state iter blake3_raw_cid root Hiter SETTINGS) Hs E0) as [_ Hf].
  destruct (frame_builder _ _ _ Hf Hb) as (b0 & Hb0 & _ & Hsame & _).
  destruct (builder_has b SETTINGS) eqn:Eh.
  2: { injection H as _ <-. split; [by left|]. intros d _ _ (data & Hp%payload_has & _). congruence. }
  destruct (has_auth_doc hist) eqn:Ea.
  { apply has_auth_doc_true in Ea. injection H as _ <-. split; [by left|]. by intros d []. }
  apply has_auth_doc_false in Ea. apply tx_bind_ok in H as (s2 & d & E2 & H). injection H as _ <-.
  apply (local_settings_run _ _ b0) in E2; [|done]. rewrite Hsame in E2.
  assert (configures_auth d -> exists data, payload b SETTINGS = Some data /\ json_to_doc data = Some d) as Hst.
  { destruct (payload b SETTINGS) as [data|]; [by exists data|]. subst d. by intros (m & ? & _). }
  destruct (has_auth_doc d) eqn:Ed; [apply has_auth_doc_true in Ed|apply has_auth_doc_false in Ed].
  - split; [right; auto|]. intros d' _ _ (data & Hp & Hj). rewrite Hp in E2. congruence.
  - split; [by left|]. intros d' _ Hd' (data & Hp & Hj). rewrite Hp in E2. destruct Ed. congruence.
Qed.
End stages.

(** ** The entry that is built *)

Section building.
Context `{IS : InstanceSpec} `{JS : !JsonSpec} `{LS : !LruSpec CacheKey (list Byte.byte)}.
Context (iter : gset ID -> list ID) (blake3_raw_cid : string -> Cid).
Context (strategy_of_json : string -> option HeightStrategy) (now_millis : option string -> Z).
Context (root : ID) (sk : PrivateKey) (identity : SigKey).
Context (Hiter : forall s, iter s ≡ₚ elements s).

(** The payload of a store as it is written. *)
Definition seal (enc : option Encryptor) (plaintext : Bytes) : Result Bytes Error :=
  match enc with Some encryptor => encrypt encryptor plaintext | None => Ok plaintext end.

Lemma set_subtree_data_get b name d name' :
  EntryBuilder_data (set_subtree_data b name d) name' =
  if decide (name' = name) then Ok d else EntryBuilder_data b name'.
Proof.
  unfold EntryBuilder_data, set_subtree_data, on_subtrees. simpl. rewrite find_subtree_upsert by done.
  case_decide; [|done]. subst. by destruct (find_subtree (b_subtrees b) name).
Qed.

Lemma encrypt_subtrees_spec encs names b b' :
  NoDup names -> builder_ok b -> encrypt_subtrees encs names b = Ok b' ->
  b_tree b' = b_tree b /\ b_sig b' = b_sig b /\ builder_ok b'
  /\ (forall name, name ∉ names -> EntryBuilder_data b' name = EntryBuilder_data b name)
  /\ forall name, name ∈ names ->
       match payload b name with
       | Some d => exists ct, seal (encs !! name) d = Ok ct /\ EntryBuilder_data b' name = Ok ct
       | None => EntryBuilder_data b' name = EntryBuilder_data b name
       end.
Proof.
  revert b. induction names as [|name names IH]; intros b Hnd Hb; simpl.
  { intros [= <-]. split_and!; try done. intros name Hn. by apply not_elem_of_nil in Hn. }
  apply NoDup_cons in Hnd as [Hname Hnd].
  assert (forall b1, builder_ok b1 -> encrypt_subtrees encs names b1 = Ok b' -> b_tree b1 = b_tree b -> b_sig b1 = b_sig b ->
    (forall n, n <> name -> EntryBuilder_data b1 n = EntryBuilder_data b n) ->
    match payload b name with
    | Some d => exists ct, seal (encs !! name) d = Ok ct /\ EntryBuilder_data b1 name = Ok ct
    | None => EntryBuilder_data b1 name = EntryBuilder_data b name
    end ->
    b_tree b' = b_tree b /\ b_sig b' = b_sig b /\ builder_ok b'
    /\ (forall n, n ∉ name :: names -> EntryBuilder_data b' n = EntryBuilder_data b n)
    /\ forall n, n ∈ name :: names ->
         match payload b n with
         | Some d => exists ct, seal (encs !! n) d = Ok ct /\ EntryBuilder_data b' n = Ok ct
         | None => EntryBuilder_data b' n = EntryBuilder_data b n
         end) as Hstep.
  { intros b1 Hb1 E Ht Hsig Hother Hthis. destruct (IH b1 Hnd Hb1 E) as (H1 & H2 & H3 & H4 & H5).
    split_and!; [congruence..|done| |].
    - intros n [Hn1 Hn2]%not_elem_of_cons. rewrite H4 by done. by apply Hother.
    - intros n [->|Hn]%elem_of_cons; [by rewrite H4|]. assert (n <> name) as Hne by congruence.
      specialize (H5 n Hn). unfold payload in *. by rewrite Hother in H5. }
  unfold payload at 1 in Hstep.
  destruct (encs !! name) as [en|] eqn:Ee, (EntryBuilder_data b name) as [[|x d]|err] eqn:Ed; simpl;
    try (intros E; apply (Hstep b); try done; eauto; fail).
  destruct (encrypt en (x :: d)) as [ct|] eqn:Ec; simpl; [|done]. intros E.
  apply (Hstep (set_subtree_data b name ct)); try done.
  - by apply upsert_subtree_ok.
  - intros n Hn. by rewrite set_subtree_data_get, decide_False.
  - exists ct. by rewrite set_subtree_data_get, decide_True.
Qed.

(** Two builders that differ in heights only. *)
Record same_but_heights (b b' : EntryBuilder) : Prop := {
  sh_root : tn_root (b_tree b') = tn_root (b_tree b);
  sh_parents : tn_parents (b_tree b') = tn_parents (b_tree b);
  sh_metadata : tn_metadata (b_tree b') = tn_metadata (b_tree b);
  sh_sig : b_sig b' = b_sig b;
  sh_ok : builder_ok b -> builder_ok b';
  sh_data : forall name, EntryBuilder_data b' name = EntryBuilder_data b name;
}.

Lemma set_subtree_height_same b name h :
  same_but_heights b (set_subtree_height b name h) /\ b_tree (set_subtree_height b name h) = b_tree b.
Proof.
  split; [|done]. split; try done; [by apply upsert_subtree_ok|].
  intros n. unfold EntryBuilder_data, set_subtree_height, on_subtrees. simpl. rewrite find_subtree_upsert by done.
  case_decide; [|done]. subst. by destruct (find_subtree (b_subtrees b) name).
Qed.

Lemma set_subtree_heights_same index names b s s' b' :
  set_subtree_heights iter blake3_raw_cid strategy_of_json now_millis root index names b s = Some (Done (s', Ok b')) ->
  same_but_heights b b' /\ b_tree b' = b_tree b.
Proof.
  revert b s. induction names as [|name names IH]; intros b s; simpl; [by intros [= _ <-]|].
  intros (s1 & [strategy|] & _ & H)%tx_bind_ok; [|by eapply IH]. cbn zeta in H.
  apply tx_bind_ok in H as (s2 & mh & _ & H). apply tx_bind_ok in H as (s3 & h & _ & H).
  destruct (IH _ _ H) as [[] Ht], (set_subtree_height_same b name (Some h)) as [[] Ht']. split; [|congruence].
  split; [congruence..|tauto|]. congruence.
Qed.

Lemma calculate_height_above strategy now h h' : calculate_height strategy now (Some h) = Done h' -> h < h'.
Proof. unfold calculate_height, checked. destruct (is_u64 (h + 1)), strategy; simpl; intros [= <-]; lia. Qed.

Lemma set_heights_spec strategy b s s' b' :
  set_heights iter blake3_raw_cid strategy_of_json now_millis root strategy b s = Some (Done (s', Ok b')) ->
  same_but_heights b b'
  /\ forall p e, p ∈ builder_parents b -> entries (mem_inner (tx_mem s)) !! p = Some e ->
       Entry_height e < tn_height (b_tree b').
Proof.
  unfold set_heights. intros (s1 & mh & Hmh & H)%tx_bind_ok.
  destruct (max_parent_height_eq (fun parent => Ok (Entry_height parent)) (builder_parents b) s)
    as (o & Ho & _ & Hsome). rewrite Ho in Hmh. injection Hmh as <- <-.
  apply tx_bind_ok in H as (s2 & h & Hh & H). unfold tx_outcome in Hh.
  destruct (calculate_height strategy (now_millis None) o) as [h0|] eqn:Ec; simpl in Hh; [|done]. injection Hh as <- <-.
  apply tx_bind_ok in H as (s3 & index & _ & H). apply set_subtree_heights_same in H as [[] Ht].
  split; [by split|]. intros p e Hp He. rewrite Ht. simpl.
  destruct Hsome as (hm & -> & _ & Hmax & _); [by intros E; rewrite E in Hp; apply not_elem_of_nil in Hp|].
  specialize (Hmax p e _ Hp He eq_refl). apply calculate_height_above in Ec. lia.
Qed.

(** *** How high an entry can get *)

(** The heights that are fixed in the builder's stores are at most [bound]. *)
Definition low (bound : Z) (b : EntryBuilder) : Prop :=
  Forall (fun n => forall h, st_height n = Some h -> h <= bound) (b_subtrees b).

Lemma unset_low bound b : unset b -> low bound b.
Proof. intros Hu. eapply Forall_impl; [exact Hu|]. intros n Hn h Hh. by rewrite Hn in Hh. Qed.

Lemma upsert_low bound b name h : low bound b -> h <= bound -> low bound (set_subtree_height b name (Some h)).
Proof.
  intros Hb Hh. unfold low, set_subtree_height, on_subtrees. simpl.
  induction Hb as [|n l Hn Hl IH]; cbn [upsert_subtree]; [constructor; [by intros ? [= <-]|constructor]|].
  destruct (decide _); constructor; try done. by intros ? [= <-].
Qed.

Lemma encrypt_unset encs names b b' : encrypt_subtrees encs names b = Ok b' -> unset b -> unset b'.
Proof.
  revert b. induction names as [|name names IH]; intros b; simpl; [by intros [= <-]|].
  destruct (encs !! name) as [en|]; [|apply IH]. destruct (EntryBuilder_data b name) as [d|]; [|apply IH].
  destruct (is_nil d); [apply IH|]. destruct (encrypt en d) as [ct|]; simpl; [|done].
  intros H Hu. apply (IH _ H). by apply upsert_unset.
Qed.

(** A new height is at most one above the stored ones and the clock. *)
Lemma new_height height_of parents strategy now bound s s1 s2 o h :
  (forall e h', height_of e = Ok h' -> height_in e h') ->
  heights_below (entries (mem_inner (tx_mem s))) bound -> 0 <= bound -> now <= bound ->
  max_parent_height height_of parents s = Some (Done (s1, Ok o)) ->
  tx_outcome (calculate_height strategy now o) s1 = Some (Done (s2, Ok h)) -> s2 = s /\ h <= bound + 1.
Proof.
  intros Hof Hb H0 Hnow Hmax Hh. destruct (max_parent_height_eq height_of parents s) as (o' & Ho & Hnil & Hsome).
  rewrite Ho in Hmax. injection Hmax as <- <-. unfold tx_outcome in Hh.
  destruct (calculate_height strategy now o') as [h0|] eqn:Ec; simpl in Hh; [|done]. injection Hh as <- <-.
  split; [done|]. assert (forall hp, o' = Some hp -> hp <= bound) as Hp.
  { intros hp ->. destruct parents as [|p ps]; [by specialize (Hnil eq_refl)|].
    destruct Hsome as (h' & [= <-] & _ & _ & [->|(q & e & He & Hq)]); [done|lia|]. eapply Hb; [exact He|by apply Hof]. }
  unfold calculate_height, checked in Ec. destruct o' as [hp|].
  - specialize (Hp hp eq_refl). destruct (is_u64 (hp + 1)), strategy; simpl in Ec; try done; injection Ec as <-; lia.
  - destruct strategy; simpl in Ec; injection Ec as <-; lia.
Qed.

Lemma set_subtree_heights_low index names b s s' b' bound :
  tx_inv s -> heights_below (entries (mem_inner (tx_mem s))) bound -> 0 <= bound -> (forall o, now_millis o <= bound) ->
  set_subtree_heights iter blake3_raw_cid strategy_of_json now_millis root index names b s = Some (Done (s', Ok b')) ->
  low (bound + 1) b -> low (bound + 1) b'.
Proof.
  intros Hs Hb H0 Hnow. revert b s Hs Hb. induction names as [|name names IH]; intros b s Hs Hb; simpl; [by intros [= _ <-]|].
  intros (s1 & strategy & E1 & H)%tx_bind_ok.
  destruct (framed_ok _ _ _ _ (framed_strategy iter blake3_raw_cid strategy_of_json root Hiter index name) Hs E1) as [Hs1 Hf1].
  rewrite <- (tf_entries _ _ Hf1) in Hb. destruct strategy as [strategy|]; [|by eapply IH]. cbn zeta in H.
  apply tx_bind_ok in H as (s2 & o & E2 & H). apply tx_bind_ok in H as (s3 & h & E3 & H).
  destruct (new_height _ _ _ _ bound _ _ _ _ _ (fun e h' E => or_intror (ex_intro _ name E)) Hb H0 (Hnow (Some name)) E2 E3) as [-> Hh].
  intros Hlow. eapply IH; [exact Hs1|exact Hb|exact H|]. by apply upsert_low.
Qed.

Lemma set_heights_low strategy b s s' b' bound :
  tx_inv s -> heights_below (entries (mem_inner (tx_mem s))) bound -> 0 <= bound -> (forall o, now_millis o <= bound) ->
  set_heights iter blake3_raw_cid strategy_of_json now_millis root strategy b s = Some (Done (s', Ok b')) ->
  unset b -> tn_height (b_tree b') <= bound + 1 /\ low (bound + 1) b'.
Proof.
  intros Hs Hb H0 Hnow. unfold set_heights. intros (s1 & o & E1 & H)%tx_bind_ok Hu.
  apply tx_bind_ok in H as (s2 & h & E2 & H).
  assert (forall e h', Ok (E := Error) (Entry_height e) = Ok h' -> height_in e h') as Hof by (intros e h' [= <-]; by left).
  destruct (new_height _ _ _ _ bound _ _ _ _ _ Hof Hb H0 (Hnow None) E1 E2) as [-> Hh].
  apply tx_bind_ok in H as (s3 & index & E3 & H).
  assert (framed (tx_try (get_index iter root))) as Hfi by (unfold get_index, Registry_new; frame).
  destruct (framed_ok _ _ _ _ Hfi Hs E3) as [Hs3 Hf3].
  rewrite <- (tf_entries _ _ Hf3) in Hb.
  split; [|eapply set_subtree_heights_low; [exact Hs3|exact Hb|done|done|exact H|by apply unset_low]].
  apply set_subtree_heights_same in H as [_ ->]. done.
Qed.

(** What is read from a built entry. *)
Lemma build_data b e name : builder_ok b -> build b = Ok e -> Entry_data e name = EntryBuilder_data b name.
Proof.
  intros Hb [-> _]%build_inv. unfold Entry_data, EntryBuilder_data. simpl. f_equal.
  assert (st_name <$> (normalize_node <$> b_subtrees b) = st_name <$> b_subtrees b) as Hn
    by (rewrite <- list_fmap_compose; apply list_fmap_ext; intros; apply normalize_node_name).
  assert (NoDup (st_name <$> sort_by name_leb (normalize_node <$> b_subtrees b))) as Hnd
    by (rewrite sort_by_perm, Hn; exact Hb).
  destruct (find_subtree (b_subtrees b) name) as [n|] eqn:E.
  - apply find_subtree_iff in E as [Hin Hname]; [|done].
    erewrite (proj2 (find_subtree_iff _ _ (normalize_node n) Hnd)); [done|].
    rewrite elem_of_sort_by, normalize_node_name. split; [by apply list_elem_of_fmap_2|done].
  - destruct (find_subtree (sort_by _ _) name) as [n|] eqn:E'; [|done].
    apply find_subtree_Some in E' as [Hin Hname]. rewrite elem_of_sort_by in Hin.
    apply list_elem_of_fmap_1 in Hin as (m & -> & Hm). rewrite normalize_node_name in Hname.
    by rewrite (proj2 (find_subtree_iff _ _ m Hb)) in E.
Qed.

(** The signed entry, in terms of the builder it is made from. *)
Record committed (encs : gmap string Encryptor) (es : gmap ID Entry) (b : EntryBuilder) (snap : Snapshot)
    (e : Entry) : Prop := {
  ce_valid : Entry_validate e = Ok tt;
  ce_root : tn_root (e_tree e) = tn_root (b_tree b);
  ce_parents : Entry_parents e = sort_dedup ID_cmp (builder_parents b);
  ce_pinned : tn_metadata (e_tree e)
    = Some (metadata_to_json (mkEntryMetadata snap (entropy (builder_metadata b))));
  ce_height : forall p e', p ∈ builder_parents b -> es !! p = Some e' -> Entry_height e' < Entry_height e;
  ce_data : forall name ct, Entry_data e name = Ok ct <->
    exists d, payload b name = Some d /\ seal (encs !! name) d = Ok ct;
  ce_identity : sig_key (e_sig e) = identity;
  ce_signed : verify_entry_signature e (public_key sk) = Ok tt;
}.

Lemma payload_None b name : no_empty b -> payload b name = None -> is_ok (EntryBuilder_data b name) = false.
Proof. intros Hb. specialize (Hb name). unfold payload. by destruct (EntryBuilder_data b name) as [[]|]. Qed.

Lemma sealed_data (encs : gmap string Encryptor) b b' name ct :
  no_empty b ->
  match payload b name with
  | Some d => exists ct, seal (encs !! name) d = Ok ct /\ EntryBuilder_data b' name = Ok ct
  | None => EntryBuilder_data b' name = EntryBuilder_data b name
  end ->
  EntryBuilder_data b' name = Ok ct <-> exists d, payload b name = Some d /\ seal (encs !! name) d = Ok ct.
Proof.
  intros Hne. destruct (payload b name) as [d|] eqn:Ep.
  - intros (ct' & Hs & ->). split; [intros [= <-]; eauto|]. intros (d' & [= <-] & Hs'). congruence.
  - intros ->. apply payload_None in Ep; [|done]. split; [|naive_solver].
    intros E. by rewrite E in Ep.
Qed.

Lemma build_entry_spec upd eff snap s s' b e :
  tx_inv s -> entry_builder s = Some b -> no_empty b ->
  build_entry iter blake3_raw_cid strategy_of_json now_millis root (Some (sk, identity)) upd eff snap s
    = Some (Done (s', Ok e)) ->
  committed (encryptors s) (entries (mem_inner (tx_mem s))) b snap e.
Proof.
  intros Hs Hb Hne. unfold build_entry. intros (s1 & b1 & H1 & H)%tx_bind_ok.
  unfold get_builder in H1. rewrite Hb in H1. injection H1 as <- <-. cbn zeta in H.
  set (b2 := set_sig (pin_settings b snap) (mkSigInfo None identity)) in H.
  apply tx_bind_ok in H as (s2 & b3 & H2 & H). unfold encrypt_builder in H2.
  assert (builder_ok b2) as Hok2 by exact (ti_builder _ Hs b Hb).
  destruct (encrypt_subtrees _ _ b2) as [b3'|] eqn:Ee; [|done]. injection H2 as <- <-.
  destruct (encrypt_subtrees_spec _ _ _ _ Hok2 Hok2 Ee) as (Ht3 & Hg3 & Hok3 & Hout & Hin).
  apply tx_bind_ok in H as (s3 & settings & H3 & H).
  destruct (framed_ok _ _ _ _ (framed_settings_for_height upd eff) Hs H3) as [Hs3 Hf3].
  apply tx_bind_ok in H as (s4 & b4 & H4 & H). apply set_heights_spec in H4 as [[] Hh].
  apply tx_bind_ok in H as (s5 & e0 & H5 & H). injection H5 as <- He0.
  apply tx_bind_ok in H as (s6 & [] & H6 & H). injection H6 as <- Hv. injection H as <- <-.
  specialize (sh_ok0 Hok3). assert (Hdata := fun name => build_data _ _ name sh_ok0 He0).
  apply build_inv in He0 as [He0 _]. rewrite (tf_entries _ _ Hf3) in Hh.
  split.
  - exact Hv.
  - subst e0. simpl. rewrite sh_root0, Ht3. done.
  - subst e0. unfold Entry_parents. simpl. rewrite sh_parents0, Ht3. done.
  - subst e0. simpl. rewrite sh_metadata0, Ht3. done.
  - intros p e' Hp He'. subst e0. apply (Hh p e'); [|done]. unfold builder_parents. by rewrite Ht3.
  - intros name ct. change (Entry_data (with_signature e0 (sign_entry e0 sk)) name) with (Entry_data e0 name).
    rewrite Hdata, sh_data0. apply sealed_data; [done|]. change (payload b name) with (payload b2 name).
    destruct (decide (name ∈ EntryBuilder_subtrees b2)) as [Hn|Hn]; [by apply Hin|].
    assert (find_subtree (b_subtrees b2) name = None) as Hnone.
    { destruct (find_subtree (b_subtrees b2) name) as [n|] eqn:Ef; [|done]. apply find_subtree_Some in Ef as [Hi <-].
      destruct Hn. by apply list_elem_of_fmap_2. }
    unfold payload, EntryBuilder_data at 1. rewrite Hnone. simpl. by apply Hout.
  - subst e0. simpl. by rewrite sh_sig0, Hg3.
  - apply signed_entry_verifies.
Qed.

Lemma built_low b e bound h :
  build b = Ok e -> tn_height (b_tree b) <= bound -> low bound b -> height_in e h -> h <= bound.
Proof.
  intros [-> _]%build_inv Ht Hl [<-|[name Hh]]; [done|]. unfold subtree_height in Hh. simpl in Hh.
  destruct (find_subtree _ name) as [n|] eqn:E; simpl in Hh; [|done]. injection Hh as <-.
  apply find_subtree_Some in E as [Hin _]. rewrite elem_of_sort_by in Hin.
  apply list_elem_of_fmap_1 in Hin as (m & -> & Hm). unfold low in Hl. rewrite Forall_forall in Hl.
  specialize (Hl m Hm). simpl. destruct (st_height m) as [h|]; simpl; [by apply Hl|done].
Qed.

(** An entry that is built is at most one higher than what is stored and the
    clock. *)
Lemma build_entry_low upd eff snap s s' b e bound h :
  tx_inv s -> entry_builder s = Some b -> unset b -> heights_below (entries (mem_inner (tx_mem s))) bound ->
  0 <= bound -> (forall o, now_millis o <= bound) ->
  build_entry iter blake3_raw_cid strategy_of_json now_millis root (Some (sk, identity)) upd eff snap s
    = Some (Done (s', Ok e)) -> height_in e h -> h <= bound + 1.
Proof.
  intros Hs Hb Hu Hbd H0 Hnow. unfold build_entry. intros (s1 & b1 & H1 & H)%tx_bind_ok.
  unfold get_builder in H1. rewrite Hb in H1. injection H1 as <- <-. cbn zeta in H.
  apply tx_bind_ok in H as (s2 & b3 & H2 & H). unfold encrypt_builder in H2. injection H2 as <- H2.
  apply encrypt_unset in H2; [|exact Hu]. apply tx_bind_ok in H as (s3 & settings & H3 & H).
  destruct (framed_ok _ _ _ _ (framed_settings_for_height upd eff) Hs H3) as [Hs3 Hf3].
  rewrite <- (tf_entries _ _ Hf3) in Hbd.
  apply tx_bind_ok in H as (s4 & b4 & H4 & H).
  destruct (set_heights_low _ _ _ _ _ bound Hs3 Hbd H0 Hnow H4 H2) as [Ht Hl].
  apply tx_bind_ok in H as (s5 & e0 & H5 & H). injection H5 as <- He0.
  apply tx_bind_ok in H as (s6 & [] & H6 & H). injection H as <- <-.
  intros Hh. eapply built_low; [exact He0|exact Ht|exact Hl|exact Hh].
Qed.
End building.

(** ** Calls of the instance *)

Section instance.
Context `{IS : InstanceSpec} `{JS : !JsonSpec}.
Context (map_iter : forall A : Type, gmap ID A -> list (ID * A)).
Context (Hmap : forall A (m : gmap ID A), map_iter A m ≡ₚ map_to_list m).

(** What reading a snapshot keeps, with the verification pass it can run. *)
Record engine_keeps (inner inner' : InMemoryInner) : Prop := {
  ek_inv : mem_inv inner -> mem_inv inner';
  ek_entries : entries inner' = entries inner;
  ek_settled : forall x s, status inner x = Some s -> s <> Unverified -> status inner' x = Some s;
  ek_closed : forall tree, verified_closed inner tree -> verified_closed inner' tree;
}.

#[global] Instance engine_keeps_preorder : PreOrder engine_keeps.
Proof.
  split; [by intros inner|]. intros i1 i2 i3 [] []. split; [tauto|congruence|by eauto|by eauto].
Qed.

Lemma engine_keeps_status inner inner' :
  (mem_inv inner -> mem_inv inner') -> entries inner' = entries inner ->
  verification_status inner' = verification_status inner -> engine_keeps inner inner'.
Proof.
  intros Hm He Hv. split; [done..| |]; unfold verified_closed, status; rewrite Hv; [done|].
  intros tree. by rewrite He.
Qed.

Lemma snapshot_keeps inner tree : mem_inv inner -> engine_keeps inner (mem_snapshot inner tree).1.
Proof.
  intros Hinv. destruct (traversal_snapshot_inv inner tree Hinv) as (? & ? & _).
  apply engine_keeps_status; [done..|apply snapshot_status].
Qed.

Lemma verify_and_fire_keeps inst root :
  mem_inv (engine inst) ->
  exists inst' ds r, verify_and_fire map_iter inst root = Some (Done (inst', ds, r))
    /\ engine_keeps (engine inst) (engine inst').
Proof.
  intros Hinv. unfold verify_and_fire.
  destruct (verify_keeps map_iter (engine inst) root Hinv Hmap) as (inner' & r & -> & Hm & He & Hs & Hcl). simpl.
  assert (engine_keeps (engine inst) inner') as Hk by done.
  destruct r as [[report any]|e]; [|by eexists _, _, _]. destruct any; [|by eexists _, _, _].
  pose proof (spawn_engine (with_engine inst inner') root (mem_snapshot (engine inst) root).2
    (mem_snapshot (engine inst) root).2 Remote) as Hsp.
  destruct (spawn_write_callbacks _ _ _ _ _) as [inst' ds]. simpl in Hsp. eexists _, _, _. split; [done|]. by rewrite Hsp.
Qed.

Lemma Database_snapshot_keeps inst root allow suppressed :
  mem_inv (engine inst) ->
  exists inst' ds r, Database_snapshot map_iter inst root allow suppressed = Some (Done (inst', ds, r))
    /\ engine_keeps (engine inst) (engine inst').
Proof.
  intros Hinv. unfold Database_snapshot. pose proof (snapshot_keeps (engine inst) root Hinv) as Hk.
  destruct (mem_snapshot (engine inst) root) as [inner snap]. cbn [fst] in Hk.
  destruct (match tips snap with [] => false | _ => _ end); [by eexists _, _, _|].
  destruct (suppressed || _); [by eexists _, _, _|].
  destruct (verify_and_fire_keeps (with_engine inst inner) root) as (inst1 & ds & r & -> & Hk1);
    [by apply (ek_inv _ _ Hk)|]. cbn [mbind option_bind outcome_bind].
  assert (mem_inv (engine inst1)) as Hinv1 by (apply (ek_inv _ _ Hk1), (ek_inv _ _ Hk), Hinv).
  pose proof (snapshot_keeps (engine inst1) root Hinv1) as Hk2.
  destruct (mem_snapshot (engine inst1) root) as [inner2 snap2]. eexists _, _, _. split; [done|]. simpl.
  etrans; [exact Hk|]. etrans; [exact Hk1|exact Hk2].
Qed.

(** A valid entry is stored as verified. *)
Lemma put_entry_verified inst root e src :
  mem_inv (engine inst) -> Entry_validate e = Ok tt ->
  exists inst' ds, put_entry inst root Verified e src = (inst', ds, Ok tt)
    /\ mem_inv (engine inst') /\ entries (engine inst') = entries (engine inst) ∪ {[ Entry_id e := e ]}
    /\ verification_status (engine inst') = <[ Entry_id e := Verified ]> (verification_status (engine inst)).
Proof.
  intros Hinv Hv. unfold put_entry. pose proof (snapshot_keeps (engine inst) root Hinv) as [Hi Hent _ _].
  pose proof (snapshot_status (engine inst) root) as Hst.
  destruct (mem_snapshot (engine inst) root) as [inner prev]. cbn [fst] in *. specialize (Hi Hinv).
  destruct (mem_put inner e) as [inner1|] eqn:Hput; [|by unfold mem_put in Hput; rewrite Hv in Hput].
  destruct (put_status _ _ _ Hi Hput) as (Hi1 & Hsome & _). unfold write_entry. rewrite Hput. cbn [result_bind].
  rewrite (decide_False (P := Verified = Unverified)) by done.
  unfold update_verification_status. rewrite decide_True by exact Hsome. rewrite decide_True by done.
  set (inner2 := with_status inner1 _).
  assert (mem_inv inner2 /\ entries inner2 = entries inner ∪ {[ Entry_id e := e ]}
    /\ verification_status inner2 = <[ Entry_id e := Verified ]> (verification_status inner)) as (Hi2 & He2 & Hv2).
  { split; [eapply update_status_inv with (id := Entry_id e) (s := Verified); [exact Hi1|];
      unfold update_verification_status; by rewrite decide_True by exact Hsome|].
    unfold mem_put in Hput. rewrite Hv in Hput. simpl in Hput. injection Hput as <-. subst inner2. simpl.
    destruct (entries inner !! Entry_id e) as [e0|] eqn:E.
    - rewrite put_known by eauto. split; [|done]. symmetry. apply map_eq. intros x. rewrite lookup_union.
      destruct (decide (x = Entry_id e)) as [->|Hne]; [by rewrite E, lookup_singleton_eq|].
      rewrite lookup_singleton_ne by done. by destruct (entries inner !! x).
    - destruct (put_entries inner e E) as [-> ->]. rewrite insert_insert_eq. split; [|done].
      rewrite insert_union_singleton_r; [done|]. by rewrite E. }
  pose proof (snapshot_keeps inner2 root Hi2) as [Hi3 He3 _ _]. pose proof (snapshot_status inner2 root) as Hv3.
  destruct (mem_snapshot inner2 root) as [inner3 post]. cbn [fst] in *.
  pose proof (spawn_engine (with_engine inst inner3) root prev post src) as Hsp.
  destruct (spawn_write_callbacks _ _ _ _ _) as [inst' ds]. simpl in Hsp. eexists _, _. split; [done|].
  rewrite Hsp. split_and!; [by apply Hi3|congruence..].
Qed.
End instance.

(** ** The whole commit *)

Section commit.
Context `{IS : InstanceSpec} `{JS : !JsonSpec} `{LS : !LruSpec CacheKey (list Byte.byte)}.
Context (iter : gset ID -> list ID) (map_iter : forall A : Type, gmap ID A -> list (ID * A)).
Context (key_iter : gset string -> list string) (blake3_raw_cid : string -> Cid).
Context (strategy_of_json : string -> option HeightStrategy) (now_millis : option string -> Z).
Context (root : ID) (provided_signing_key : option (PrivateKey * SigKey)) (allow_unverified suppressed : bool).
Context (Hiter : forall s, iter s ≡ₚ elements s) (Hmap : forall A (m : gmap ID A), map_iter A m ≡ₚ map_to_list m).

Notation do_commit := (commit iter map_iter key_iter blake3_raw_cid strategy_of_json now_millis root
  provided_signing_key allow_unverified suppressed).

(** The state [c1] that the stages before the write lead to. *)
Record commit_step (c c1 : CommitState) : Prop := {
  cs_inv : tx_inv (c_tx c1);
  cs_engine : engine_keeps (c_engine c) (c_engine c1);
  cs_encryptors : encryptors (c_tx c1) = encryptors (c_tx c);
  cs_builder : option_Forall2 builder_same (entry_builder (c_tx c)) (entry_builder (c_tx c1));
}.

Lemma commit_step_refl c : tx_inv (c_tx c) -> commit_step c c.
Proof. intros Hc. by split. Qed.

Lemma commit_step_trans c c1 c2 : commit_step c c1 -> commit_step c1 c2 -> commit_step c c2.
Proof.
  intros [H1 H2 H3 H4] [H5 H6 H7 H8]. split; [done|by etrans|congruence|].
  destruct H4; inversion H8; constructor. by etrans.
Qed.

(** The outcomes of a stage that started, with the whole commit, at [c0]. *)
Definition ends {A} (c0 : CommitState) (o : option (Outcome (CommitState * Result A Error)))
    (Q : CommitState -> A -> Prop) : Prop :=
  match o with
  | None => False
  | Some Panic => at_limit (entries (c_engine c0))
  | Some (Done (c1, Err _)) => commit_step c0 c1
  | Some (Done (c1, Ok a)) => Q c1 a
  end.

Lemma ends_bind {A B} c0 (m : Cm A) (k : A -> Cm B) c Q1 Q :
  ends c0 (m c) Q1 -> (forall c1 a, Q1 c1 a -> ends c0 (k a c1) Q) -> ends c0 (cm_bind m k c) Q.
Proof. unfold cm_bind, ends. destruct (m c) as [[[c1 [a|e]]|]|]; try done. intros H1 H2. by apply H2. Qed.

Lemma safe_mono {A} c0 (o : option (Outcome (CommitState * Result A Error))) (Q1 Q : CommitState -> A -> Prop) :
  ends c0 o Q1 -> (forall c1 a, Q1 c1 a -> Q c1 a) -> ends c0 o Q.
Proof. unfold ends. destruct o as [[[c1 [a|e]]|]|]; eauto. Qed.

Lemma ends_tx {A} c0 c (m : Tx A) :
  framed m -> commit_step c0 c ->
  ends c0 (of_tx m c) (fun c1 a =>
    m (c_tx c) = Some (Done (c_tx c1, Ok a)) /\ c_inst c1 = c_inst c /\ commit_step c0 c1).
Proof.
  intros Hm Hc. unfold of_tx. specialize (Hm (c_tx c) (cs_inv _ _ Hc)).
  destruct (m (c_tx c)) as [[[s r]|]|]; [|cbn; rewrite <- (ek_entries _ _ (cs_engine _ _ Hc)); exact Hm|done].
  destruct Hm as [Hs Hf].
  assert (commit_step c0 (mkCommitState s (c_inst c) (c_events c))) as Hstep.
  { eapply commit_step_trans; [exact Hc|]. destruct Hf as [He Hv Hen Hb]. split; [done| |done..].
    apply engine_keeps_status; [|done..]. intros _. apply Hs. }
  by destruct r.
Qed.

Lemma ends_snapshot c0 c :
  commit_step c0 c ->
  ends c0 (of_instance (fun inst => Database_snapshot map_iter inst root allow_unverified suppressed) c)
    (fun c1 snap => entry_builder (c_tx c1) = entry_builder (c_tx c) /\ commit_step c0 c1
       /\ exists inst inst' ds, engine inst = c_engine c /\ engine inst' = c_engine c1
          /\ Database_snapshot map_iter inst root allow_unverified suppressed = Some (Done (inst', ds, Ok snap))).
Proof.
  intros Hc. unfold of_instance. set (inst := with_engine (c_inst c) (c_engine c)).
  destruct (Database_snapshot_keeps map_iter Hmap inst root allow_unverified suppressed)
    as (inst' & ds & r & E & Hk); [apply ti_mem, Hc|]. rewrite E.
  set (c1 := mkCommitState _ _ _). assert (commit_step c0 c1) as Hstep.
  { eapply commit_step_trans; [exact Hc|]. destruct (cs_inv _ _ Hc). split; [|exact Hk|done..].
    split; [by apply Hk|done..]. }
  destruct r; [|done]. split; [done|]. split; [done|]. by exists inst, inst', ds.
Qed.

(** A commit up to the write: the entry [e] that is built from what is staged in
    [b], and the settings it is validated against. *)
Record commit_run (c : CommitState) (b : EntryBuilder) (c1 : CommitState) (e : Entry) (sk : PrivateKey)
    (identity : SigKey) (snap : Snapshot) (effective : Doc) (auth : AuthSettings) : Prop := {
  cr_provided : provided_signing_key = Some (sk, identity);
  cr_entry : committed sk identity (encryptors (c_tx c)) (entries (c_engine c)) b snap e;
  cr_settings : exists s1, settings_for_validation iter blake3_raw_cid root (builder_has b SETTINGS) (c_tx c)
    = Some (Done (s1, Ok effective));
  cr_auth : auth_settings_of effective = Ok auth;
  cr_valid : validate_entry e auth (Some (c_engine c1)) = Some true;
  cr_step : commit_step c c1;
  cr_pin : exists inst inst' ds db_snapshot inner,
    engine_keeps (c_engine c) (engine inst)
    /\ Database_snapshot map_iter inst root allow_unverified suppressed = Some (Done (inst', ds, Ok db_snapshot))
    /\ mem_store_snapshot_at iter (engine inst') root SETTINGS db_snapshot = Some (inner, Ok snap);
  cr_heights : forall bound h, unset b -> heights_below (entries (c_engine c)) bound -> 0 <= bound ->
    (forall o, now_millis o <= bound) -> height_in e h -> h <= bound + 1;
}.

Lemma committed_same sk identity encs es b b' snap e :
  builder_same b b' -> committed sk identity encs es b' snap e -> committed sk identity encs es b snap e.
Proof.
  intros (Ht & Hp & _) []. assert (builder_metadata b' = builder_metadata b) as Hm by (unfold builder_metadata; by rewrite Ht).
  unfold builder_parents in *. rewrite Ht in *. rewrite Hm in *. split; try done.
  intros name ct. rewrite <- Hp. apply ce_data0.
Qed.

(** The write. *)
Lemma safe_write c0 c1 e (P : Prop) :
  commit_step c0 c1 -> Entry_validate e = Ok tt -> P ->
  ends c0 ((run _ <- of_instance (fun inst => Some (Done (put_entry inst root Verified e Local)));
            cm_lift (Ok (Entry_id e))) c1)
    (fun c' id => P /\ id = Entry_id e /\ tx_inv (c_tx c')
       /\ entries (c_engine c') = entries (c_engine c1) ∪ {[ Entry_id e := e ]}
       /\ verification_status (c_engine c') = <[ Entry_id e := Verified ]> (verification_status (c_engine c1))).
Proof.
  intros Hc Hv HP. unfold cm_bind, of_instance.
  destruct (put_entry_verified (with_engine (c_inst c1) (c_engine c1)) root e Local) as (inst' & ds & -> & Hi & He & Hs);
    [apply ti_mem, Hc|done|]. simpl. split; [done|]. split; [done|]. destruct (cs_inv _ _ Hc). by split.
Qed.

Lemma snapshot_at_run store main s s' snap :
  backend_store_snapshot_at iter root store main s = Some (Done (s', Ok snap)) ->
  entry_builder s' = entry_builder s
  /\ exists inner, mem_store_snapshot_at iter (mem_inner (tx_mem s)) root store main = Some (inner, Ok snap).
Proof.
  unfold backend_store_snapshot_at. destruct (mem_store_snapshot_at _ _ _ _ _) as [[i r]|]; [|done].
  intros [= <- ->]. eauto.
Qed.

Lemma validate_run e auth s s' valid :
  validate_in_tx e auth s = Some (Done (s', Ok valid)) ->
  validate_entry e auth (Some (mem_inner (tx_mem s'))) = Some valid.
Proof.
  unfold validate_in_tx, tx_read. destruct (validate_entry e auth (Some (mem_inner (tx_mem s)))) eqn:E; [|done].
  by intros [= <- <-].
Qed.

Lemma commit_cases c b :
  tx_inv (c_tx c) -> entry_builder (c_tx c) = Some b ->
  ends c (do_commit c) (fun c' id => exists c1 e sk identity snap effective auth,
    commit_run c b c1 e sk identity snap effective auth /\ id = Entry_id e /\ tx_inv (c_tx c')
    /\ entries (c_engine c') = entries (c_engine c1) ∪ {[ Entry_id e := e ]}
    /\ verification_status (c_engine c') = <[ Entry_id e := Verified ]> (verification_status (c_engine c1))).
Proof.
  intros Hc Hb. unfold commit.
  eapply ends_bind; [apply ends_tx; [apply framed_get_builder|by apply commit_step_refl]|].
  intros c1 b1 (E1 & _ & S1). unfold get_builder in E1. rewrite Hb in E1. injection E1 as E1 <-. cbn zeta.
  eapply ends_bind; [apply ends_tx; [by apply framed_settings_for_validation|exact S1]|].
  intros c2 eff (E2 & _ & S2). rewrite <- E1 in E2.
  eapply ends_bind; [apply ends_tx; [apply framed_check_new_settings|exact S2]|]. intros c3 [] (_ & _ & S3).
  eapply ends_bind; [apply ends_tx; [by apply framed_ensure_index|exact S3]|]. intros c4 [] (E4 & _ & S4).
  apply ensure_index_no_empty in E4 as (b4 & Hb4 & Hne4).
  eapply ends_bind; [by apply ends_snapshot|].
  intros c5 db_snapshot (Hb5 & S5 & inst & inst' & ds & Hinst & Hinst' & E5). rewrite Hb4 in Hb5.
  eapply ends_bind; [apply ends_tx; [by apply framed_store_snapshot_at|exact S5]|]. intros c6 snap (E6 & _ & S6).
  apply snapshot_at_run in E6 as (Hb6 & inner & Hpin). rewrite Hb5 in Hb6.
  eapply ends_bind; [apply ends_tx; [by apply framed_build_entry|exact S6]|]. intros c7 e (E7 & _ & S7).
  destruct provided_signing_key as [[sk identity]|] eqn:Ekey;
    [|unfold build_entry, tx_bind, get_builder in E7; by rewrite Hb6 in E7].
  assert (forall bound h, unset b4 -> heights_below (entries (c_engine c6)) bound -> 0 <= bound ->
    (forall o, now_millis o <= bound) -> height_in e h -> h <= bound + 1) as Hlow.
  { intros bound h Hu Hbd H0 Hnow. eapply build_entry_low; [done|apply S6|exact Hb6|done..|exact E7]. }
  apply build_entry_spec with (b := b4) in E7; [|apply S6|done..].
  eapply ends_bind with (Q1 := fun c' a => c' = c7 /\ auth_settings_of eff = Ok a).
  { unfold cm_lift, ends. by destruct (auth_settings_of eff). }
  intros c8 auth [-> Hauth].
  eapply ends_bind; [apply ends_tx; [apply framed_validate|exact S7]|]. intros c9 valid (E9 & _ & S9).
  destruct valid; [|exact S9].
  assert (commit_run c b c9 e sk identity snap eff auth) as Hrun.
  { split; try done.
    - eapply committed_same; [|rewrite <- (cs_encryptors _ _ S6), <- (ek_entries _ _ (cs_engine _ _ S6)); exact E7].
      pose proof (cs_builder _ _ S6) as Hs. rewrite Hb, Hb6 in Hs. by inversion Hs.
    - eauto.
    - by apply validate_run in E9.
    - exists inst, inst', ds, db_snapshot, inner. rewrite Hinst, Hinst'. split; [apply S4|done].
    - intros bound h Hu Hbd H0 Hnow. apply Hlow; [|by rewrite (ek_entries _ _ (cs_engine _ _ S6))|done..].
      pose proof (cs_builder _ _ S6) as Hs. rewrite Hb, Hb6 in Hs. inversion Hs as [? ? (_ & _ & H)|]. by apply H. }
  eapply safe_mono; [apply (safe_write c c9 e (commit_run c b c9 e sk identity snap eff auth))|].
  - done.
  - apply E7.
  - done.
  - intros c' id (H1 & H2 & H3). by exists c9, e, sk, identity, snap, eff, auth.
Qed.

(** C4: Committing ends: it panics only where the height of a stored entry has no
    successor, and on an error the stored entries are as before.  On success
    exactly one entry is added (unless one with its ID is stored already), as
    verified.  It is valid; its parents are those of the transaction, and it is
    higher than each of them; its data in every store is what was staged there,
    encrypted where the store has an encryptor; it keeps the entropy; and it
    carries the identity of the provided key, whose public key verifies its
    signature.  The signature is valid under the settings at the parents of the
    transaction, before the commit; only when those configure no
    authentication, and the staged ones do, is it the staged ones that decide.
    The snapshot it pins is taken from the view that the handle has of the
    database at that moment: in a tree without cycles its tips are exactly the
    settings tips among the entries that this view reaches.  Assumed: the
    invariant of the transaction, that it is still open, and that iterating
    a set or a map yields its elements in some order. *)
Theorem commit_spec c b :
  tx_inv (c_tx c) -> entry_builder (c_tx c) = Some b ->
  match do_commit c with
  | None => False
  | Some Panic => at_limit (entries (c_engine c))
  | Some (Done (c', Err _)) => tx_inv (c_tx c') /\ entries (c_engine c') = entries (c_engine c)
  | Some (Done (c', Ok id)) => tx_inv (c_tx c')
      /\ exists e sk identity snap, id = Entry_id e /\ provided_signing_key = Some (sk, identity)
      /\ committed sk identity (encryptors (c_tx c)) (entries (c_engine c)) b snap e
      /\ entries (c_engine c') = entries (c_engine c) ∪ {[ id := e ]}
      /\ status (c_engine c') id = Some Verified
      /\ (forall x s, status (c_engine c) x = Some s -> s <> Unverified -> x <> id -> status (c_engine c') x = Some s)
      /\ (exists s0 historical effective auth inner,
           get_full_state iter blake3_raw_cid root SETTINGS (c_tx c) = Some (Done (s0, Ok historical))
           /\ deciding b historical effective /\ auth_settings_of effective = Ok auth
           /\ entries inner = entries (c_engine c) /\ validate_entry e auth (Some inner) = Some true)
      /\ exists inst inst' ds view, engine_keeps (c_engine c) (engine inst)
           /\ Database_snapshot map_iter inst root allow_unverified suppressed = Some (Done (inst', ds, Ok view))
           /\ (proper_tree (entries (c_engine c)) root -> acyclic (entries (c_engine c)) root ->
               forall t, t ∈ tips snap <-> scope_tip (entries (c_engine c)) root SETTINGS (tips view) t)
  end.
Proof.
  intros Hc Hb. pose proof (commit_cases c b Hc Hb) as H. unfold ends in H.
  destruct (do_commit c) as [[[c' [id|err]]|]|]; [|by destruct H as [? [] _ _]|done..].
  destruct H as (c1 & e & sk & identity & snap & eff & auth & [] & -> & Hc' & He & Hs).
  destruct (cs_engine _ _ cr_step0) as [_ Hent Hset _]. split; [done|]. exists e, sk, identity, snap.
  split_and!; try done.
  - congruence.
  - unfold status. by rewrite Hs, lookup_insert_eq.
  - intros x st Hx Hst Hne. unfold status. rewrite Hs, lookup_insert_ne by done. by apply Hset.
  - destruct cr_settings0 as [s1 (s0 & hist & E0 & Hd)%settings_for_validation_run]; [|done..].
    by exists s0, hist, eff, auth, (c_engine c1).
  - destruct cr_pin0 as (inst & inst' & ds & view & inner & Hk & Hv & Hpin). exists inst, inst', ds, view.
    split; [done|]. split; [done|]. intros Hp Hac.
    destruct (Database_snapshot_keeps map_iter Hmap inst root allow_unverified suppressed) as (i & d & r & E & Hk');
      [apply (ek_inv _ _ Hk), ti_mem, Hc|]. rewrite E in Hv. injection Hv as -> -> ->.
    assert (entries (engine inst') = entries (c_engine c)) as Hes
      by (rewrite (ek_entries _ _ Hk'); apply Hk).
    rewrite <- Hes in *. apply (pin_scope iter root Hiter) in Hpin as [_ Ht]; [done|..|done|done].
    apply (ek_inv _ _ Hk'), (ek_inv _ _ Hk), ti_mem, Hc.
Qed.

(** A commit on verified parents keeps the verified entries closed under
    ancestors. *)
Lemma commit_closed c b :
  tx_inv (c_tx c) -> entry_builder (c_tx c) = Some b -> verified_closed (c_engine c) root ->
  (forall p, p ∈ builder_parents b -> status (c_engine c) p = Some Verified) ->
  exists o, do_commit c = Some o /\ forall c' r, o = Done (c', r) ->
    mem_inv (c_engine c')
    /\ ((forall id, r = Ok id -> entries (c_engine c) !! id = None) ->
         forall x y, status (c_engine c') x = Some Verified ->
           rtc (tree_edge (entries (c_engine c')) root) x y -> status (c_engine c') y = Some Verified).
Proof.
  intros Hc Hb Hcl Hpar. pose proof (commit_cases c b Hc Hb) as H. unfold ends in H.
  destruct (do_commit c) as [o|]; [|done]. exists o. split; [done|]. intros c' r ->.
  assert (forall inner, verified_closed inner root -> forall x y, status inner x = Some Verified ->
    rtc (tree_edge (entries inner) root) x y -> status inner y = Some Verified) as Hrtc.
  { intros inner Hi x y Hx Hr. induction Hr as [|u v w (e & He & Ht & Hv) _ IH]; [done|]. apply IH. by eapply Hi. }
  destruct r as [id|err]; [|destruct H as [[] [] _ _]; split; [done|]; intros _; by apply Hrtc, ek_closed0].
  destruct H as (c1 & e & sk & identity & snap & eff & auth & [] & -> & [] & He & Hs). split; [done|].
  intros Hnew. specialize (Hnew _ eq_refl). apply Hrtc. destruct (cs_engine _ _ cr_step0) as [_ Hent Hset Hkeep].
  specialize (Hkeep root Hcl). intros x e' p Hx Ht Hv Hp. unfold status in *. rewrite Hs in *. rewrite He in Hx.
  destruct (decide (p = Entry_id e)) as [->|Hne]; [by rewrite lookup_insert_eq|]. rewrite lookup_insert_ne by done.
  destruct (decide (x = Entry_id e)) as [->|Hx'].
  - rewrite Hent, lookup_union_r, lookup_singleton_eq in Hx by done. injection Hx as <-.
    apply Hset; [|done]. apply Hpar. rewrite (ce_parents _ _ _ _ _ _ _ cr_entry0) in Hp. by apply elem_of_sort_dedup in Hp.
  - rewrite lookup_insert_ne in Hv by done. rewrite lookup_union_l in Hx by (by rewrite lookup_singleton_ne).
    by eapply Hkeep.
Qed.
End commit.

(** ** Concrete commits *)

#[local] Existing Instance nat_cid.
#[local] Existing Instance byte_crypto.
#[local] Existing Instance list_lru.

(** Settings with an active key, and the change that revokes it. *)
Definition keyed_doc (s : AuthSettings) : Doc := mkDoc DOC_VERSION false {[ "auth" := VDoc (inner s) ]}.

Definition revoked_settings : AuthSettings :=
  put_key AuthSettings_new (PublicKey_to_string demo_pk) (set_status demo_key Revoked).

(** The metadata of an entry is its own number and the numbers of the settings
    tips that it pins; its bytes are its metadata. *)
Definition commit_codec : CodecSpec := {|
  to_dagcbor e := default [] (tn_metadata (e_tree e));
  blake3_dagcbor_cid b := match b with x :: _ => N.to_nat (Byte.to_N x) | [] => 0%nat end : @Cid nat_cid;
  json_to_doc b := Some (match b with
                         | [Byte.x0a] => keyed_doc demo_settings
                         | [Byte.x0b] => keyed_doc revoked_settings
                         | _ => Doc_new
                         end);
|}.

Section demo_commit.
#[local] Existing Instance commit_codec.

Definition id_byte (id : ID) : Byte.byte :=
  match id with mkID (Some n) => default Byte.x00 (Byte.of_N (N.of_nat n)) | mkID None => Byte.x00 end.

#[local] Instance commit_json : JsonSpec := {|
  json_to_metadata b :=
    match b with
    | x :: pins => Some (mkEntryMetadata
        (Snapshot_new ((fun x => demo_id (N.to_nat (Byte.to_N x))) <$> pins)) (Some (Z.of_N (Byte.to_N x))))
    | [] => None
    end;
  metadata_to_json md :=
    default Byte.x00 (z ← entropy md; Byte.of_N (Z.to_N z)) :: (id_byte <$> tips (settings_snapshot md));
  doc_to_json d := if bool_decide (dom (children d) = ∅) then [] else [Byte.x0a];
|}.

#[local] Instance commit_instance : InstanceSpec := {|
  Database := unit;
  PinnedTransaction := unit;
  SettingsStore := unit;
  Database_open _ _ := Ok tt;
  new_transaction_at _ _ := Ok tt;
  get_settings _ := Ok tt;
  auth_snapshot _ := Ok demo_settings;
|}.

Definition settings_root : Entry :=
  mkEntry 0 (mkTreeNode None [] (Some [Byte.x01]) 0)
    [mkSubTreeNode ROOT [] None None; mkSubTreeNode SETTINGS [] (Some [Byte.x0a]) None] SigInfo_default.

Definition commit_mem : InMemoryInner := with_verdict (storage_put InMemory_new settings_root) (demo_id 1) Verified.

Definition commit_builder : EntryBuilder :=
  set_subtree_data (set_metadata (set_parents (EntryBuilder_new (demo_id 1)) [demo_id 1]) [Byte.x05]) "data" [Byte.x07].

Definition commit_state (inner : InMemoryInner) : CommitState :=
  mkCommitState (mkTxState (mkInMemory inner InMemoryCrdtCache_new) (Some commit_builder) ∅ false)
    (mkInstanceState inner ∅ [] 0) [].

Definition demo_hash (s : string) : @Cid nat_cid := 100%nat.

Definition commit_demo (inner : InMemoryInner) : option (Outcome (CommitState * Result ID Error)) :=
  commit elements list_iter elements demo_hash (fun _ => None) (fun _ => 50) (demo_id 1)
    (Some (Ed25519Private (KS := byte_crypto) Byte.x07, SigKey_from_pubkey demo_pk)) false false (commit_state inner).


Lemma commit_mem_inv : mem_inv commit_mem.
Proof.
  assert (update_verification_status (storage_put InMemory_new settings_root) (demo_id 1) Verified = Ok commit_mem) as E.
  { unfold update_verification_status. rewrite decide_True; [reflexivity|]. exists Unverified. vm_compute. reflexivity. }
  eapply update_status_inv; [|exact E]. apply (mem_put_inv InMemory_new settings_root); [apply mem_inv_init|reflexivity].
Qed.

Lemma commit_state_inv : tx_inv (c_tx (commit_state commit_mem)).
Proof.
  split; [apply commit_mem_inv|constructor|]. intros b [= <-]. apply NoDup_singleton.
Qed.

Lemma commit_spec_witness :
  match commit_demo commit_mem with
  | Some (Done (c', Ok id)) => exists e, id = demo_id 5 /\ entries (c_engine c') !! id = Some e
      /\ Entry_data e "data" = Ok [Byte.x07] /\ verify_entry_signature e demo_pk = Ok tt
  | _ => False
  end.
Proof.
  pose proof (commit_spec elements list_iter elements demo_hash (fun _ => None) (fun _ => 50)
    (demo_id 1) (Some (Ed25519Private (KS := byte_crypto) Byte.x07, SigKey_from_pubkey demo_pk)) false false
    (fun s => Permutation_refl _) (fun A m => Permutation_refl _) (commit_state commit_mem) commit_builder
    commit_state_inv eq_refl) as H.
  fold (commit_demo commit_mem) in H.
  assert (match commit_demo commit_mem with
          | Some (Done (c', Ok id)) => id = demo_id 5 | _ => False end) as Hid by (vm_compute; reflexivity).
  destruct (commit_demo commit_mem) as [[[c' [id|]]|]|]; [|destruct Hid..].
  destruct H as (_ & e & sk & identity & snap & _ & Hkey & Hc & He & _). injection Hkey as <- <-.
  exists e. split; [exact Hid|]. rewrite He. split.
  { subst id. rewrite lookup_union_r by (vm_compute; reflexivity). apply lookup_singleton_eq. }
  split; [|exact (ce_signed _ _ _ _ _ _ _ Hc)].
  apply (ce_data _ _ _ _ _ _ _ Hc). exists [Byte.x07]. split; reflexivity.
Defined.

(** The key is revoked after the transaction was opened on the root. *)
Definition revoking_entry : Entry :=
  mkEntry 0 (mkTreeNode (Some (demo_id 1)) [demo_id 1] (Some [Byte.x02; Byte.x01]) 1)
    [mkSubTreeNode SETTINGS [demo_id 1] (Some [Byte.x0b]) None] SigInfo_default.

Definition revoked_mem : InMemoryInner := with_verdict (storage_put commit_mem revoking_entry) (demo_id 2) Verified.

(** A commit is validated against the settings at the parents of its
    transaction, and pins the settings that the database has by then.  When the
    key is revoked in between, the commit succeeds and its entry is stored as
    verified; a verification pass rejects the same entry. *)
Theorem commit_verified_here_failed_elsewhere :
  match commit_demo revoked_mem with
  | Some (Done (c, Ok id)) =>
      status (c_engine c) id = Some Verified
      /\ match entries (c_engine c) !! id with
         | Some e => judge (c_engine c) (demo_id 1) e = Some (Ok Failed)
         | None => False
         end
  | _ => False
  end.
Proof. vm_compute. split; reflexivity. Qed.
End demo_commit.
