(* ===== verification/CommitVerdict.v ===== *)
(** * A commit and the verification of its entry

    The verdict of a commit and that of a verification pass are computed from
    different reads: the commit merges the settings at the parents of its
    transaction through the cache of states, the pass merges the settings that
    the entry pins.  Shown here: while the handle sees the parents of the
    transaction, both agree. *)

From S2P Require Import Prelude.
From S2P Require Import Worklist.
From S2P Require Import Path.
From S2P Require Import Position.
From S2P Require Import Ids.
From S2P Require Import Doc.
From S2P Require Import DocPath.
From S2P Require Import Errors.
From S2P Require Import Crypto.
From S2P Require Import Permission.
From S2P Require Import AuthTypes.
From S2P Require Import AuthSettings.
From S2P Require Import Entry.
From S2P Require Import Backend.
From S2P Require Import Traversal.
From S2P Require Import CrdtCache.
From S2P Require Import StoreTips.
From S2P Require Import MergeBase.
From S2P Require Import BackendSteps.
From S2P Require Import Reachability.
From S2P Require Import Validation.
From S2P Require Import Kahn.
From S2P Require Import Verify.
From S2P Require Import InstanceOps.
From S2P Require Import Transaction.
From S2P Require Import Stores.
From S2P Require Import DocMerge.
From S2P Require Import StoreState.
From S2P Require Import Commit.
From S2P Require Import TxFrame.
From S2P Require Import CommitSpec.

Section agreement.
Context `{IS : InstanceSpec} `{JS : !JsonSpec} `{LS : !LruSpec CacheKey (list Byte.byte)}.

(** ** Reading the settings *)

Lemma merge_settings_eq d es : merge_settings d es = merge_all SETTINGS None d es.
Proof.
  revert d. induction es as [|e es IH]; intros d; [done|]. cbn [merge_settings merge_all].
  unfold contribution, open_payload. destruct (Entry_data e SETTINGS) as [data|]; cbn [result_bind].
  - destruct (json_to_doc data); cbn [ok_or result_bind]; [apply IH|done].
  - rewrite Doc_merge_new_r. apply IH.
Qed.

Lemma auth_settings_same d auth : auth_settings_of d = Ok auth -> auth_of_settings d = auth.
Proof.
  unfold auth_settings_of, auth_of_settings, corrupted. destruct (is_tombstone d "auth"); [done|].
  destruct (Doc_get d "auth") as [[]|]; congruence.
Qed.

(** A key that is named directly is resolved in the settings alone. *)
Lemma validate_direct e settings i1 i2 hint :
  sig_key (e_sig e) = Direct hint -> validate_entry e settings i1 = validate_entry e settings i2.
Proof. unfold validate_entry, resolve_sig_key. by intros ->. Qed.

Lemma judge_verified inner root e auth :
  (forall p, p ∈ Entry_parents e -> status inner p = Some Verified) ->
  get_historical_settings_for_entry inner root e = Some (Ok (Complete auth)) ->
  validate_entry e auth (Some inner) = Some true -> judge inner root e = Some (Ok Verified).
Proof.
  intros Hv Hhist Hval. unfold judge. rewrite parent_flags_spec. cbn [orb].
  rewrite (proj2 (existsb_false_elem (failed_parent _) _)), (proj2 (existsb_false_elem (pending_parent _) _)).
  - rewrite Hhist. simpl. by rewrite Hval.
  - intros p Hp. unfold pending_parent. by rewrite Hv.
  - intros p Hp. unfold failed_parent. by rewrite Hv.
Qed.

(** Every parent is stored. *)
Definition complete (es : gmap ID Entry) : Prop := forall x p, closure_edge es x p -> is_Some (es !! p).

(** Settings whose ancestors are all present are merged as the store is read. *)
Lemma pinned_state inner root e ts d :
  pinned_tips e = Some ts -> ts <> [] ->
  (forall t x, t ∈ ts -> rtc (closure_edge (entries inner)) t x -> is_Some (entries inner !! x)) ->
  store_state root SETTINGS None inner (tips (Snapshot_new ts)) = Some (Ok d) ->
  get_historical_settings_for_entry inner root e = Some (Ok (Complete (auth_of_settings d))).
Proof.
  intros Hp Hne Hall Hst. unfold get_historical_settings_for_entry. rewrite Hp.
  assert (is_nil ts = false) as En by (by destruct ts). unfold effective_tips. rewrite En. cbn [andb].
  destruct (closure_walk inner ts) as (w & -> & Hw). cbn zeta in Hw. cbn [mbind option_bind].
  destruct w as [w|[]]; [|destruct Hw as (x & (t & Ht & Hr) & Hx); destruct (Hall t x Ht Hr); congruence].
  unfold store_state in Hst. destruct (store_at inner root SETTINGS (tips (Snapshot_new ts))) as [r|]; [|done].
  cbn [mbind option_bind] in *. injection Hst as Hst. destruct r as [es|]; cbn [result_bind] in *; [|done].
  by rewrite merge_settings_eq, Hst.
Qed.

(** Later entries do not change what the stored ones reach. *)
Lemma complete_reached es es' t x :
  complete es -> es ⊆ es' -> is_Some (es !! t) -> rtc (closure_edge es') t x -> is_Some (es !! x).
Proof.
  intros Hc Hsub Ht Hr. induction Hr as [|a b z (ea & Ha & Hb) _ IH]; [done|]. apply IH. apply (Hc a b). exists ea.
  split; [|done]. destruct Ht as [ea' Ht]. rewrite (lookup_weaken _ _ _ _ Ht Hsub) in Ha. congruence.
Qed.

(** ** The two verdicts *)

Context (iter : gset ID -> list ID) (map_iter : forall A : Type, gmap ID A -> list (ID * A)).
Context (key_iter : gset string -> list string) (blake3_raw_cid : string -> Cid).
Context (strategy_of_json : string -> option HeightStrategy) (now_millis : option string -> Z).
Context (root : ID) (sk : PrivateKey) (hint : KeyHint) (allow_unverified suppressed : bool).
Context (Hiter : forall s, iter s ≡ₚ elements s) (Hmap : forall A (m : gmap ID A), map_iter A m ≡ₚ map_to_list m).

Lemma scope_tip_same es tree subtree m1 m2 id :
  (forall t, t ∈ m1 <-> t ∈ m2) -> scope_tip es tree subtree m1 id <-> scope_tip es tree subtree m2 id.
Proof.
  intros Hm. assert (forall x e, reached es tree m1 x e <-> reached es tree m2 x e) as Hr
    by (intros x e; unfold reached; by setoid_rewrite Hm).
  unfold scope_tip. by setoid_rewrite Hr.
Qed.

(** The settings a commit reads when the transaction does not stage any. *)
Lemma settings_read s b s1 effective :
  readable blake3_raw_cid root SETTINGS None (mem_inner (tx_mem s)) -> encryptors s !! SETTINGS = None ->
  cache_sound blake3_raw_cid root SETTINGS None (mem_inner (tx_mem s)) (crdt_cache (tx_mem s)) ->
  entry_builder s = Some b -> SETTINGS ∉ EntryBuilder_subtrees b ->
  (forall t, t ∈ builder_parents b ->
     exists e, entries (mem_inner (tx_mem s)) !! t = Some e /\ in_tree e root = true) ->
  settings_for_validation iter blake3_raw_cid root (builder_has b SETTINGS) s = Some (Done (s1, Ok effective)) ->
  exists l, NoDup l
    /\ (forall id, id ∈ l <-> scope_tip (entries (mem_inner (tx_mem s))) root SETTINGS (builder_parents b) id)
    /\ store_state root SETTINGS None (mem_inner (tx_mem s)) l = Some (Ok effective).
Proof.
  intros Hrd Henc Hc Hb Hnew Hpar. unfold settings_for_validation, builder_has. rewrite bool_decide_false by done.
  destruct (full_state_eq iter blake3_raw_cid root SETTINGS None Hiter s b Hrd Henc Hc Hb Hnew Hpar)
    as (s' & r & l & E & Hnd & Hl & _ & Hst & _). unfold tx_bind. rewrite E. destruct r as [d|]; [|done].
  intros [= _ <-]. exists l. split; [done|]. split; [done|]. by destruct Hst as [?|(_ & ? & _)].
Qed.

(** The state at the pinned tips, at any later time. *)
Lemma state_later inner inner' l ts d :
  store_history inner root SETTINGS -> ids_ok (entries inner') -> entries inner ⊆ entries inner' ->
  good_tips root SETTINGS inner l -> l ≡ₚ ts ->
  store_state root SETTINGS None inner l = Some (Ok d) -> store_state root SETTINGS None inner' ts = Some (Ok d).
Proof.
  intros Hh Hids Hsub Hl Hp Hst. rewrite (store_state_sub root SETTINGS None inner inner'); [|apply Hh|done|apply Hh|done|].
  - by rewrite <- (store_state_perm root SETTINGS None inner Hh l ts).
  - destruct Hl as (Hne & Hnd & Hs). split; [intros ->; by apply Permutation_nil_r in Hp|].
    split; [by rewrite <- Hp|]. intros t. rewrite <- Hp. apply Hs.
Qed.

(** A transaction that stages no settings, on a complete history whose settings
    can be read, and whose parents are what the handle sees: also after the
    verification pass that taking a snapshot can run. *)
Record quiet (c : CommitState) (b : EntryBuilder) : Prop := {
  qu_readable : readable blake3_raw_cid root SETTINGS None (c_engine c);
  qu_plain : encryptors (c_tx c) !! SETTINGS = None;
  qu_cache : cache_sound blake3_raw_cid root SETTINGS None (c_engine c) (crdt_cache (tx_mem (c_tx c)));
  qu_builder : entry_builder (c_tx c) = Some b;
  qu_root : tn_root (b_tree b) = Some root;
  qu_staged : SETTINGS ∉ EntryBuilder_subtrees b;
  qu_parents : forall t, t ∈ builder_parents b -> exists e, entries (c_engine c) !! t = Some e /\ in_tree e root = true;
  qu_complete : complete (entries (c_engine c));
  qu_settings : exists t, scope_tip (entries (c_engine c)) root SETTINGS (builder_parents b) t;
  qu_view : forall inst inst' ds snap, engine_keeps (c_engine c) (engine inst) ->
    Database_snapshot map_iter inst root allow_unverified suppressed = Some (Done (inst', ds, Ok snap)) ->
    forall t, t ∈ tips snap <-> t ∈ builder_parents b;
  qu_metadata : forall snap, Snapshot_new (tips snap) = snap ->
    (forall t, t ∈ tips snap -> is_Some (entries (c_engine c) !! t)) ->
    let md := mkEntryMetadata snap (entropy (builder_metadata b)) in
    json_to_metadata (metadata_to_json md) = Some md;
}.

(** What the entry pins, and the state there, in any later backend. *)
Lemma quiet_pins c b c1 e snap effective auth inner' :
  tx_inv (c_tx c) -> quiet c b ->
  commit_run iter map_iter blake3_raw_cid now_millis root (Some (sk, Direct hint)) allow_unverified suppressed
    c b c1 e sk (Direct hint) snap effective auth ->
  ids_ok (entries inner') -> entries (c_engine c) ⊆ entries inner' ->
  get_historical_settings_for_entry inner' root e = Some (Ok (Complete auth)).
Proof.
  intros Hc Q [_ Hent (s1 & Hset) Hauth _ _ (inst & inst' & ds & db & inner & Hk & Hsnap & Hpin)] Hids Hsub.
  destruct (settings_read (c_tx c) b s1 effective (qu_readable _ _ Q) (qu_plain _ _ Q) (qu_cache _ _ Q)
    (qu_builder _ _ Q) (qu_staged _ _ Q) (qu_parents _ _ Q) Hset) as (l & Hnd & Hl & Hst).
  destruct (qu_readable _ _ Q) as [Hinv Hp Hac Hh _ _].
  destruct (Database_snapshot_keeps map_iter Hmap inst root allow_unverified suppressed) as (i & d' & r & E & Hk').
  { by apply (ek_inv _ _ Hk). }
  rewrite E in Hsnap. injection Hsnap as -> -> ->.
  assert (entries (engine inst') = entries (c_engine c)) as Hes
    by (rewrite (ek_entries _ _ Hk'); apply Hk).
  apply (pin_scope iter root Hiter) in Hpin as [Hcanon Htips];
    [|by apply (ek_inv _ _ Hk'), (ek_inv _ _ Hk)|by rewrite Hes|by rewrite Hes].
  assert (forall t, t ∈ tips snap <-> t ∈ l) as Hsame.
  { intros t. rewrite Htips, Hl, Hes. apply scope_tip_same. by apply (qu_view _ _ Q inst inst' ds). }
  assert (forall t, t ∈ tips snap -> is_Some (entries (c_engine c) !! t)) as Hin.
  { intros t Ht. apply Htips in Ht as [(e' & (He & _) & _) _]. rewrite Hes in He. eauto. }
  rewrite <- (auth_settings_same _ _ Hauth). apply pinned_state with (ts := tips snap).
  - unfold pinned_tips. rewrite (ce_pinned _ _ _ _ _ _ _ Hent), (qu_metadata _ _ Q) by done. done.
  - destruct (qu_settings _ _ Q) as [t Ht%Hl%Hsame]. intros E'. rewrite E' in Ht. by apply not_elem_of_nil in Ht.
  - intros t x Ht Hr. eapply complete_reached in Hr; [|apply Q|exact Hsub|by apply Hin].
    destruct Hr as [ex Hx]. exists ex. by eapply lookup_weaken.
  - rewrite Hcanon. eapply state_later; [exact Hh|done|exact Hsub| | |exact Hst].
    + eapply scope_tips_good; [done|exact Hl|]. destruct (qu_settings _ _ Q) as [t Ht%Hl]. intros ->.
      by apply not_elem_of_nil in Ht.
    + apply NoDup_Permutation; [done| |by intros t; rewrite Hsame]. rewrite <- Hcanon. apply sort_dedup_NoDup, _.
Qed.

End agreement.

(** ** A commit on the settings of the root *)

#[local] Existing Instance nat_cid.
#[local] Existing Instance byte_crypto.
#[local] Existing Instance list_lru.

Section demo_verdict.
#[local] Existing Instance commit_codec.
#[local] Existing Instance commit_json.
#[local] Existing Instance commit_instance.

Lemma commit_lookup id e : entries commit_mem !! id = Some e -> id = demo_id 1 /\ e = settings_root.
Proof.
  assert (entries commit_mem = <[ demo_id 1 := settings_root ]> ∅) as -> by reflexivity.
  rewrite lookup_insert_Some, lookup_empty. naive_solver.
Qed.

Lemma commit_no_edge member parents_of x y :
  parents_of settings_root = [] -> edge member parents_of (entries commit_mem) x y -> False.
Proof. intros Hp (e & [_ ->]%commit_lookup & _ & Hy). rewrite Hp in Hy. by apply elem_of_nil in Hy. Qed.

Lemma commit_state_doc es d :
  NoDup es -> (forall e, e ∈ es -> e = settings_root) -> merge_all SETTINGS None Doc_new es = Ok d ->
  open_payload None (doc_to_json d) = Ok d.
Proof.
  intros Hnd Hes. destruct es as [|e1 [|e2 es]].
  - intros [= <-]. reflexivity.
  - rewrite (Hes e1) by set_solver. intros [= <-]. reflexivity.
  - rewrite (Hes e1), (Hes e2) in Hnd by set_solver. apply NoDup_cons in Hnd as [Hn _]. set_solver.
Qed.

Lemma commit_readable : readable demo_hash (demo_id 1) SETTINGS None commit_mem.
Proof.
  split.
  - apply commit_mem_inv.
  - by intros e [_ ->]%commit_lookup.
  - exists (fun _ => 0%nat). intros x y []%commit_no_edge. done.
  - split; [apply commit_mem_inv..| |].
    + intros x y []%commit_no_edge. done.
    + intros x y e e' []%commit_no_edge. done.
  - intros ts d Hd. eexists. split; [done|]. unfold store_state in Hd.
    destruct (store_at_walk commit_mem (demo_id 1) SETTINGS ts (mi_ids _ commit_mem_inv)) as (acc & E & Hnd & Hin).
    rewrite E in Hd. injection Hd as Hd. eapply commit_state_doc; [| |exact Hd].
    + unfold sort_entries_by_subtree_height. by rewrite sort_by_perm.
    + intros e. unfold sort_entries_by_subtree_height. rewrite elem_of_sort_by. by intros (id & [_ ->]%commit_lookup & _)%Hin.
  - intros t1 t2 (Hn1 & Hnd1 & H1) (Hn2 & Hnd2 & H2) _.
    assert (forall t, t <> [] -> (forall x, x ∈ t -> stored (entries commit_mem) (demo_id 1) SETTINGS x) ->
      forall x, x ∈ t <-> x = demo_id 1) as Hone.
    { intros t Hne Ht x. split; [by intros (e & [-> _]%commit_lookup & _)%Ht|]. intros ->.
      destruct t as [|y t]; [done|]. destruct (Ht y) as (e & [-> _]%commit_lookup & _); set_solver. }
    apply NoDup_Permutation; [done..|]. intros x. by rewrite (Hone t1), (Hone t2).
Qed.

(** The root is the only tip that a handle can see. *)
Lemma commit_tip id : tree_tip (entries commit_mem) (demo_id 1) id <-> id = demo_id 1.
Proof.
  split; [by intros ((e & [-> _]%commit_lookup & _) & _)|]. intros ->. split; [by exists settings_root|].
  intros id' e' [_ ->]%commit_lookup _. apply not_elem_of_nil.
Qed.

Lemma commit_view inst inst' ds snap :
  engine_keeps commit_mem (engine inst) ->
  Database_snapshot list_iter inst (demo_id 1) true false = Some (Done (inst', ds, Ok snap)) ->
  tips snap = [demo_id 1].
Proof.
  intros [Hi He Hs _]. specialize (Hi commit_mem_inv).
  destruct (traversal_snapshot_inv (engine inst) (demo_id 1) Hi) as (_ & _ & Ht).
  pose proof (snapshot_status (engine inst) (demo_id 1)) as Hst.
  assert (tips (mem_snapshot (engine inst) (demo_id 1)).2 = [demo_id 1]) as Htips.
  { unfold mem_snapshot. destruct (traversal_snapshot (engine inst) (demo_id 1)) as [i l]. cbn [fst snd] in *.
    rewrite He in Ht. specialize (Ht (rd_proper _ _ _ _ _ commit_readable)).
    rewrite (proj2 (Snapshot_new_ext (elements l) [demo_id 1])); [reflexivity|].
    intros x. rewrite elem_of_elements, Ht, commit_tip. set_solver. }
  unfold Database_snapshot. destruct (mem_snapshot (engine inst) (demo_id 1)) as [inner snap0]. cbn [fst snd] in *.
  rewrite Htips. specialize (Hs (demo_id 1) Verified eq_refl). unfold status in Hs.
  unfold any_unverified, get_verification_status. cbn [existsb]. rewrite Hst, Hs by done. simpl.
  unfold snapshot_view. cbn [negb andb visible_tips]. unfold get_verification_status. rewrite Hst, Hs by done.
  by intros [= _ _ <-].
Qed.

Lemma commit_quiet : quiet list_iter demo_hash (demo_id 1) true false (commit_state commit_mem) commit_builder.
Proof.
  split; try reflexivity.
  - exact commit_readable.
  - split; [constructor|]. by intros id b []%elem_of_nil.
  - intros [H|[]%elem_of_nil]%elem_of_cons. discriminate H.
  - intros t ->%list_elem_of_singleton. by exists settings_root.
  - intros x p (e & [_ ->]%commit_lookup & []%elem_of_nil).
  - exists (demo_id 1). split.
    + exists settings_root. split; [|done]. split; [done|]. split; [done|]. exists (demo_id 1). split; [by left|done].
    + intros id' e' ([_ ->]%commit_lookup & _) _. apply not_elem_of_nil.
  - intros inst inst' ds snap Hk E t. by rewrite (commit_view inst inst' ds snap Hk E).
  - intros snap Hsnap Hin. assert (forall t, t ∈ tips snap -> t = demo_id 1) as Ht.
    { intros t Ht. destruct (Hin t Ht) as [e [-> _]%commit_lookup]. done. }
    destruct snap as [ts]. injection Hsnap as Hsnap. simpl in Ht.
    assert (NoDup ts) as Hnd by (rewrite <- Hsnap; apply sort_dedup_NoDup, _).
    destruct ts as [|t1 [|t2 l]]; [reflexivity|rewrite (Ht t1) by set_solver; reflexivity|].
    rewrite (Ht t1), (Ht t2) in Hnd by set_solver. apply NoDup_cons in Hnd as [Hn _]. set_solver.
Qed.

End demo_verdict.
