(* ===== verification/Lifecycle.v ===== *)
(** * A transaction from its opening to its commit

    The operations of the stores stage changes and keep everything else: the
    stored entries, their statuses and the place of the new entry.  So a
    transaction that is opened on the verified frontier, used in any way and
    committed keeps the verified entries closed under ancestors. *)

From S2P Require Import Prelude.
From S2P Require Import Worklist.
From S2P Require Import Path.
From S2P Require Import Position.
From S2P Require Import Ids.
From S2P Require Import Doc.
From S2P Require Import DocPath.
From S2P Require Import Errors.
From S2P Require Import Crypto.
From S2P Require Import Permission.
From S2P Require Import AuthTypes.
From S2P Require Import AuthSettings.
From S2P Require Import Entry.
From S2P Require Import Backend.
From S2P Require Import Traversal.
From S2P Require Import CrdtCache.
From S2P Require Import StoreTips.
From S2P Require Import MergeBase.
From S2P Require Import BackendSteps.
From S2P Require Import Reachability.
From S2P Require Import Validation.
From S2P Require Import Kahn.
From S2P Require Import Verify.
From S2P Require Import InstanceOps.
From S2P Require Import Transaction.
From S2P Require Import Stores.
From S2P Require Import Frontier.
From S2P Require Import Commit.
From S2P Require Import TxFrame.
From S2P Require Import CommitSpec.

Section lifecycle.
Context `{IS : InstanceSpec} `{JS : !JsonSpec} `{LS : !LruSpec CacheKey (list Byte.byte)}.
Context (iter : gset ID -> list ID) (map_iter : forall A : Type, gmap ID A -> list (ID * A)).
Context (key_iter : gset string -> list string) (blake3_raw_cid : string -> Cid).
Context (strategy_of_json : string -> option HeightStrategy) (strategy_to_json : HeightStrategy -> string).
Context (now_millis : option string -> Z) (root : ID) (provided_signing_key : option (PrivateKey * SigKey)).

(** ** The use of a transaction *)

Inductive TxOp : Type :=
  | OpGetStore (T : StoreType) (name : string)
  | OpGet (name key : string)
  | OpGetAll (name : string)
  | OpSet (name key : string) (value : Value)
  | OpInsert (name key : string) (value : Value)
  | OpDelete (name key : string)
  | OpSetSubtreeSettings (name : string) (settings : SubtreeSettings)
  | OpEntropy (entropy : Z).

Definition discard {A} (m : Tx A) : Tx unit := do _ <- m; tx_ret tt.

Definition exec (op : TxOp) : Tx unit :=
  match op with
  | OpGetStore T name => get_store iter blake3_raw_cid root strategy_of_json T name
  | OpGet name key => discard (DocStore_get iter blake3_raw_cid root name key)
  | OpGetAll name => discard (DocStore_get_all iter blake3_raw_cid root name)
  | OpSet name key value => DocStore_set root name key value
  | OpInsert name key value => discard (DocStore_insert root name key value)
  | OpDelete name key => discard (DocStore_delete iter blake3_raw_cid root name key)
  | OpSetSubtreeSettings name st =>
      set_subtree_settings iter blake3_raw_cid root strategy_of_json strategy_to_json INDEX name st
  | OpEntropy entropy => set_metadata_entropy entropy
  end.

(** A caller can go on after an error. *)
Fixpoint exec_all (ops : list TxOp) (s : TxState) : option (Outcome TxState) :=
  match ops with
  | [] => Some (Done s)
  | op :: rest =>
      match exec op s with
      | None => None
      | Some Panic => Some Panic
      | Some (Done (s, _)) => exec_all rest s
      end
  end.

Context (Hiter : forall s, iter s ≡ₚ elements s) (Hmap : forall A (m : gmap ID A), map_iter A m ≡ₚ map_to_list m).

(** ** Every operation stages *)

Lemma staging_get name key : staging (DocStore_get iter blake3_raw_cid root name key).
Proof. by apply staging_framed, framed_DocStore_get. Qed.

Lemma staging_get_all name : staging (DocStore_get_all iter blake3_raw_cid root name).
Proof. unfold DocStore_get_all, local_data. stages. Qed.

Lemma staging_set name key value : staging (DocStore_set root name key value).
Proof. unfold DocStore_set, local_data, stage. stages. Qed.

Lemma staging_insert name key value : staging (DocStore_insert root name key value).
Proof. unfold DocStore_insert, local_data, stage. stages. Qed.

Lemma staging_entry registry name : staging (get_entry iter blake3_raw_cid root strategy_of_json registry name).
Proof. by apply staging_framed, framed_get_entry. Qed.

Lemma staging_contains registry name :
  staging (Registry_contains iter blake3_raw_cid root strategy_of_json registry name).
Proof.
  apply staging_framed. unfold Registry_contains. apply framed_bind; [by apply framed_try, framed_get_entry|]. intros r. frame.
Qed.

Lemma staging_index : staging (get_index iter root).
Proof. by apply staging_framed, framed_init_parents. Qed.
Hint Resolve staging_get staging_get_all staging_set staging_insert staging_entry staging_contains staging_index : staging.

Lemma staging_delete name key : staging (DocStore_delete iter blake3_raw_cid root name key).
Proof. unfold DocStore_delete, local_data, stage. stages. Qed.

Lemma staging_subtree_settings registry name st :
  staging (set_subtree_settings iter blake3_raw_cid root strategy_of_json strategy_to_json registry name st).
Proof. unfold set_subtree_settings. stages. Qed.

Lemma staging_get_store T name : staging (get_store iter blake3_raw_cid root strategy_of_json T name).
Proof.
  assert (staging (do _ <- init_subtree_parents iter root name;
     if is_system_subtree name then tx_ret tt
     else
       do _ <- get_index iter root;
       do known <- Registry_contains iter blake3_raw_cid root strategy_of_json INDEX name;
       if known : bool then
         do info <- get_entry iter blake3_raw_cid root strategy_of_json INDEX name;
         if supports_type_id T (type_id info) then tx_ret tt
         else tx_lift (Err (EStore (StoreTypeMismatch name (store_type_id T) (type_id info))))
       else set_config iter root T name (default_config T))) as H by (unfold set_config, set_entry; stages).
  intros s Hs. unfold get_store. destruct (is_system_subtree name && system_subtrees_locked s); [done|]. by apply H.
Qed.
Hint Resolve staging_delete staging_subtree_settings staging_get_store : staging.

Lemma staging_exec op : staging (exec op).
Proof. destruct op; simpl; unfold discard; stages. Qed.

Lemma exec_all_stages ops s :
  tx_inv s ->
  match exec_all ops s with
  | None => False
  | Some Panic => at_limit (entries (mem_inner (tx_mem s)))
  | Some (Done s') => tx_inv s' /\ tx_stage s s'
  end.
Proof.
  revert s. induction ops as [|op ops IH]; intros s Hs; simpl; [done|]. pose proof (staging_exec op s Hs) as H.
  destruct (exec op s) as [[[s1 r]|]|]; [|done..]. destruct H as [Hs1 H1]. specialize (IH s1 Hs1).
  destruct (exec_all ops s1) as [[s2|]|]; [|by rewrite <- (ts_entries _ _ H1)|done].
  destruct IH as [Hs2 H2]. split; [done|]. by etrans.
Qed.

(** ** Opening *)

Lemma frontier_pass_verified inner es P C P' C' :
  frontier_pass inner es P C = Ok (P', C') -> (forall x, x ∈ P -> status inner x = Some Verified) ->
  forall x, x ∈ P' -> status inner x = Some Verified.
Proof.
  revert P C. induction es as [|e es IH]; intros P C; simpl; [by intros [= <- <-]|].
  unfold get_verification_status. destruct (verification_status inner !! Entry_id e) as [s|] eqn:Es; simpl; [|done].
  case_decide as Hs; [destruct (forallb _ _)|]; intros E HP; (eapply IH; [exact E|]); [|done..].
  intros x [->%elem_of_singleton|Hx]%elem_of_union; [|by apply HP]. unfold status. by rewrite Es, Hs.
Qed.

Lemma frontier_verified inner l : verified_frontier inner root = Ok l -> forall x, x ∈ l -> status inner x = Some Verified.
Proof.
  unfold verified_frontier. destruct (frontier_pass _ _ _ _) as [[P C]|] eqn:E; cbn [result_bind]; [|done].
  intros [= <-] x [[Hx _] _]%list_elem_of_filter. eapply frontier_pass_verified; [exact E| |exact Hx].
  intros y []%not_elem_of_empty.
Qed.

Lemma view_verified inner ids snap :
  snapshot_view inner root false false ids = Ok snap -> forall t, t ∈ tips snap -> status inner t = Some Verified.
Proof.
  unfold snapshot_view. cbn [negb andb]. destruct (verified_frontier inner root) as [l|] eqn:E; simpl; [|done].
  intros [= <-] t. rewrite elem_of_Snapshot_new. by apply frontier_verified.
Qed.

(** What a handle sees without unverified entries: verified entries, unless the
    first tip is not stored at all. *)
Lemma snapshot_verified inst inst' ds snap :
  mem_inv (engine inst) -> Database_snapshot map_iter inst root false false = Some (Done (inst', ds, Ok snap)) ->
  (forall t, t ∈ tips snap -> status (engine inst') t = Some Verified)
  \/ exists t, t ∈ tips snap /\ entries (engine inst') !! t = None.
Proof.
  intros Hinv. unfold Database_snapshot. pose proof (snapshot_keeps (engine inst) root Hinv) as Hk.
  destruct (mem_snapshot (engine inst) root) as [inner snap0]. cbn [fst] in Hk.
  destruct (tips snap0) as [|first rest] eqn:Et; cbn iota.
  - cbn [existsb any_unverified negb orb]. intros [= <- _ E]. left. by eapply view_verified.
  - destruct (get_verification_status inner first) as [s|] eqn:Es; cbn [is_ok negb].
    + destruct (false || _); [intros [= <- _ E]; left; by eapply view_verified|].
      destruct (verify_and_fire map_iter (with_engine inst inner) root) as [[[[i d] r]|]|]; [|done..].
      cbn [mbind option_bind outcome_bind]. destruct (mem_snapshot (engine i) root) as [inner2 snap2].
      intros [= <- _ E]. left. by eapply view_verified.
    + intros [= <- _ <-]. right. exists first. rewrite elem_of_Snapshot_new. split; [by left|]. simpl.
      apply not_elem_of_dom. rewrite <- (mi_status _ (ek_inv _ _ Hk Hinv)). apply not_elem_of_dom.
      unfold get_verification_status in Es. by destruct (verification_status inner !! first).
Qed.

Lemma check_new_tips_ok inner ids :
  check_new_tips root inner ids = Ok tt ->
  forall t, t ∈ ids -> exists e, entries inner !! t = Some e /\ in_tree e root = true.
Proof.
  induction ids as [|t ids IH]; simpl; [by intros _ t []%elem_of_nil|]. unfold storage_get at 1.
  destruct (entries inner !! t) as [e|] eqn:E; simpl; [|done]. destruct (in_tree e root) eqn:Et; simpl; [|done].
  intros H x [->|Hx]%elem_of_cons; [by exists e|by apply IH].
Qed.

Lemma new_at_ok m snap s :
  mem_inv (mem_inner m) -> NoDup (items (crdt_cache m)).*1 -> new_at root m snap = Ok s ->
  tx_inv s /\ tx_mem s = m /\ exists b, entry_builder s = Some b /\ builder_parents b = tips snap
    /\ forall t, t ∈ tips snap -> exists e, entries (mem_inner m) !! t = Some e /\ in_tree e root = true.
Proof.
  intros Hm Hc. unfold new_at. destruct (is_nil (tips snap) && _); [done|].
  destruct (check_new_tips root (mem_inner m) (tips snap)) as [[]|] eqn:E; simpl; [|done]. intros [= <-].
  split.
  - split; [done..|]. simpl. intros b [= <-]. destruct (is_nil (tips snap)); apply NoDup_nil_2.
  - split; [done|]. eexists. split; [done|]. split; [by destruct (tips snap)|]. by apply check_new_tips_ok.
Qed.

(** C8: A transaction on a handle that reads verified entries only, from opening it
    over any use of its stores to its commit: every call ends, nothing is stored
    before the commit, and in every state the verified entries of the tree stay
    closed under ancestors, provided that the committed entry does not collide
    with a stored one. *)
Theorem transaction_keeps_closed inst cache ops :
  mem_inv (engine inst) -> NoDup (items cache).*1 -> verified_closed (engine inst) root ->
  exists inst1 ds r,
    Database_new_transaction map_iter root false false inst cache = Some (Done (inst1, ds, r))
    /\ mem_inv (engine inst1) /\ verified_closed (engine inst1) root
    /\ entries (engine inst1) = entries (engine inst)
    /\ forall s, r = Ok s ->
       match exec_all ops s with
       | None => False
       | Some Panic => at_limit (entries (engine inst))
       | Some (Done s1) =>
           entries (mem_inner (tx_mem s1)) = entries (engine inst)
           /\ exists o, commit iter map_iter key_iter blake3_raw_cid strategy_of_json now_millis root
                provided_signing_key false false (mkCommitState s1 inst1 ds) = Some o
              /\ forall c' r', o = Done (c', r') ->
                   mem_inv (c_engine c')
                   /\ ((forall id, r' = Ok id -> entries (engine inst) !! id = None) ->
                        forall x y, status (c_engine c') x = Some Verified ->
                          rtc (tree_edge (entries (c_engine c')) root) x y -> status (c_engine c') y = Some Verified)
       end.
Proof.
  intros Hinv Hc Hcl. unfold Database_new_transaction.
  destruct (Database_snapshot_keeps map_iter Hmap inst root false false Hinv) as (inst1 & ds & r & E & [Hi He _ Hk]).
  rewrite E. cbn [mbind option_bind outcome_bind]. eexists inst1, ds, _. split; [done|]. specialize (Hi Hinv).
  split; [done|]. split; [by apply Hk|]. split; [done|]. intros s Hs. destruct r as [snap|]; simpl in Hs; [|done].
  apply new_at_ok in Hs as (Hs & Hmem & b & Hb & Hpar & Hstored); [|done..].
  assert (forall t, t ∈ tips snap -> status (engine inst1) t = Some Verified) as Hv.
  { destruct (snapshot_verified inst inst1 ds snap Hinv E) as [?|(t & Ht & Hn)]; [done|].
    destruct (Hstored t Ht) as (e & He' & _). simpl in He'. congruence. }
  pose proof (exec_all_stages ops s Hs) as Hops. rewrite Hmem in Hops. simpl in Hops. rewrite He in Hops.
  destruct (exec_all ops s) as [[s1|]|]; [|done..]. destruct Hops as [Hs1 [He1 Hv1 Hp1]].
  rewrite Hmem in He1, Hv1. simpl in He1, Hv1. split; [congruence|].
  rewrite Hb in Hp1. destruct (entry_builder s1) as [b1|] eqn:Hb1; [|done]. injection Hp1 as _ Hp1.
  assert (forall x, status (mem_inner (tx_mem s1)) x = status (engine inst1) x) as Hst by (intros x; unfold status; by rewrite Hv1).
  destruct (commit_closed iter map_iter key_iter blake3_raw_cid strategy_of_json now_millis root provided_signing_key
    false false Hiter Hmap (mkCommitState s1 inst1 ds) b1) as (o & Eo & Ho); [done|done| | |].
  - intros x e p. unfold c_engine. simpl. rewrite He1, !Hst. by apply Hk.
  - intros p. rewrite Hp1, Hpar. unfold c_engine. simpl. rewrite Hst. apply Hv.
  - exists o. split; [done|]. intros c' r' ->. destruct (Ho c' r' eq_refl) as [? H]. split; [done|].
    intros Hnew. apply H. intros id ->. unfold c_engine. simpl. rewrite He1, He. by apply Hnew.
Qed.
End lifecycle.

(** ** A concrete transaction *)

#[local] Existing Instance nat_cid.
#[local] Existing Instance byte_crypto.
#[local] Existing Instance list_lru.

Section demo_lifecycle.
#[local] Existing Instance commit_codec.
#[local] Existing Instance commit_json.
#[local] Existing Instance commit_instance.

(** Set a key, choose the entropy, commit. *)
Lemma transaction_keeps_closed_witness :
  exists inst1 ds s s1 c' id,
    Database_new_transaction list_iter (demo_id 1) false false (mkInstanceState commit_mem ∅ [] 0) InMemoryCrdtCache_new
      = Some (Done (inst1, ds, Ok s))
    /\ exec_all elements demo_hash (fun _ => None) (fun _ => EmptyString) (demo_id 1)
         [OpSet "data" "n" (Int 7); OpEntropy 5] s = Some (Done s1)
    /\ commit elements list_iter elements demo_hash (fun _ => None) (fun _ => 50) (demo_id 1)
         (Some (Ed25519Private (KS := byte_crypto) Byte.x07, SigKey_from_pubkey demo_pk)) false false
         (mkCommitState s1 inst1 ds) = Some (Done (c', Ok id))
    /\ status (c_engine c') id = Some Verified /\ mem_inv (c_engine c').
Proof.
  destruct (transaction_keeps_closed elements list_iter elements demo_hash (fun _ => None) (fun _ => EmptyString)
    (fun _ => 50) (demo_id 1) (Some (Ed25519Private (KS := byte_crypto) Byte.x07, SigKey_from_pubkey demo_pk))
    (fun s => Permutation_refl _) (fun A m => Permutation_refl _) (mkInstanceState commit_mem ∅ [] 0)
    InMemoryCrdtCache_new [OpSet "data" "n" (Int 7); OpEntropy 5]) as (inst1 & ds & r & E & _ & _ & _ & H).
  - exact commit_mem_inv.
  - constructor.
  - intros id e p He _ _ Hp. change (entries _) with (<[ demo_id 1 := settings_root ]> (∅ : gmap ID Entry)) in He.
    apply lookup_insert_Some in He as [[_ <-]|[_ He]]; [by apply not_elem_of_nil in Hp|by rewrite lookup_empty in He].
  - assert (match Database_new_transaction list_iter (demo_id 1) false false (mkInstanceState commit_mem ∅ [] 0)
               InMemoryCrdtCache_new with
            | Some (Done (inst1, ds, Ok s)) =>
                match exec_all elements demo_hash (fun _ => None) (fun _ => EmptyString) (demo_id 1)
                        [OpSet "data" "n" (Int 7); OpEntropy 5] s with
                | Some (Done s1) =>
                    match commit elements list_iter elements demo_hash (fun _ => None) (fun _ => 50) (demo_id 1)
                      (Some (Ed25519Private (KS := byte_crypto) Byte.x07, SigKey_from_pubkey demo_pk)) false false
                      (mkCommitState s1 inst1 ds) with
                    | Some (Done (c', Ok id)) => status (c_engine c') id = Some Verified
                    | _ => False
                    end
                | _ => False
                end
            | _ => False
            end) as Hrun by (vm_compute; reflexivity).
    rewrite E in Hrun. destruct r as [s|]; [|destruct Hrun]. specialize (H s eq_refl).
    destruct (exec_all _ _ _ _ _ _ s) as [[s1|]|] eqn:Es; [|destruct Hrun..]. destruct H as (_ & o & Eo & Ho).
    rewrite Eo in Hrun. destruct o as [[c' [id|]]|]; [|destruct Hrun..].
    exists inst1, ds, s, s1, c', id. split; [exact E|]. split; [exact Es|]. split; [exact Eo|]. split; [exact Hrun|].
    exact (proj1 (Ho c' (Ok id) eq_refl)).
Defined.
End demo_lifecycle.
