(* ===== verification/Settings.v ===== *)
(** * The settings store (store/settings_store.rs)

    The typed view of the [_settings] store of a transaction, and with it the
    database layer that the resolution of delegations uses: [eidetica_instance]
    implements the interface [InstanceSpec] with the transactions of this
    development.  Shown here: what that layer reads at pinned tips is the merge
    of the settings entries that the tips reach, whatever their verification
    status; so an entry that was rejected as forged can grant authority in the
    trees that delegate to its tree. *)

From S2P Require Import Prelude.
From S2P Require Import Worklist.
From S2P Require Import Path.
From S2P Require Import Position.
From S2P Require Import Ids.
From S2P Require Import Doc.
From S2P Require Import DocPath.
From S2P Require Import Errors.
From S2P Require Import Crypto.
From S2P Require Import Permission.
From S2P Require Import AuthTypes.
From S2P Require Import AuthSettings.
From S2P Require Import Entry.
From S2P Require Import Backend.
From S2P Require Import Traversal.
From S2P Require Import CrdtCache.
From S2P Require Import StoreTips.
From S2P Require Import MergeBase.
From S2P Require Import BackendSteps.
From S2P Require Import Reachability.
From S2P Require Import Validation.
From S2P Require Import Kahn.
From S2P Require Import Verify.
From S2P Require Import InstanceOps.
From S2P Require Import Transaction.
From S2P Require Import Stores.
From S2P Require Import StoreState.
From S2P Require Import Commit.
From S2P Require Import TxFrame.
From S2P Require Import CommitSpec.
From S2P Require Import CommitVerdict.
From S2P Require Import Lifecycle.
From S2P Require Import VerifyCases.

Section settings_store.
Context `{CD : CodecSpec} `{JS : !JsonSpec} `{LS : !LruSpec CacheKey (list Byte.byte)}.
Context (iter : gset ID -> list ID) (blake3_raw_cid : string -> Cid) (root : ID).
Context (strategy_of_json : string -> option HeightStrategy) (strategy_to_json : HeightStrategy -> string).

Definition get_name : Tx string := DocStore_get_string iter blake3_raw_cid root SETTINGS "name".

Definition settings_set_name (name : string) : Tx unit := DocStore_set root SETTINGS "name" (Text name).

Definition settings_get (key : string) : Tx Value := DocStore_get iter blake3_raw_cid root SETTINGS key.

Definition settings_get_string (key : string) : Tx string :=
  DocStore_get_string iter blake3_raw_cid root SETTINGS key.

Definition settings_get_all : Tx Doc := DocStore_get_all iter blake3_raw_cid root SETTINGS.

(** A value that is not a text counts as not configured. *)
Definition get_height_strategy : Tx HeightStrategy :=
  do r <- tx_try (settings_get "height_strategy");
  tx_lift (match r with
           | Ok (Text json) => ok_or (strategy_of_json json) (ECRDT DeserializationFailed)
           | Ok _ => Ok Incremental
           | Err e => if Error_is_not_found e then Ok Incremental else Err e
           end).

Definition set_height_strategy (strategy : HeightStrategy) : Tx unit :=
  DocStore_set root SETTINGS "height_strategy" (Text (strategy_to_json strategy)).

Definition settings_auth_snapshot : Tx AuthSettings :=
  do all <- settings_get_all;
  tx_ret (match Doc_get all "auth" with
          | Some (VDoc auth_doc) => mkAuthSettings auth_doc
          | _ => AuthSettings_new
          end).

(** ** Keys and delegations: only the path of the key is written *)

Definition set_auth_key (pubkey : PublicKey) (key : AuthKey) : Tx unit :=
  DocStore_set root SETTINGS ("auth.keys." +:+ PublicKey_to_string pubkey) (VDoc (AuthKey_to_doc key)).

Definition set_global_auth_key (key : AuthKey) : Tx unit :=
  DocStore_set root SETTINGS "auth.global" (VDoc (AuthKey_to_doc key)).

Definition get_global_auth_key : Tx AuthKey :=
  do auth_settings <- settings_auth_snapshot;
  tx_lift (get_global_key auth_settings).

Definition get_auth_key (pubkey : PublicKey) : Tx AuthKey :=
  do auth_settings <- settings_auth_snapshot;
  tx_lift (get_key_by_pubkey auth_settings pubkey).

Definition rename_auth_key (pubkey : PublicKey) (name : option string) : Tx unit :=
  do key <- get_auth_key pubkey;
  set_auth_key pubkey (set_name key name).

Definition revoke_auth_key (pubkey : PublicKey) : Tx unit :=
  do key <- get_auth_key pubkey;
  set_auth_key pubkey (set_status key Revoked).

Definition settings_add_delegated_tree (tree_ref : DelegatedTreeRef) : Tx unit :=
  DocStore_set root SETTINGS ("auth.delegations." +:+ ID_to_string (tr_root (dt_tree tree_ref)))
    (VDoc (DelegatedTreeRef_to_doc tree_ref)).

Definition get_auth_doc_for_validation : Tx Doc :=
  do auth_settings <- settings_auth_snapshot;
  tx_ret (inner auth_settings).
End settings_store.

(** ** The database layer of delegations *)

Section instance.
Context `{CD : CodecSpec} `{JS : !JsonSpec} `{LS : !LruSpec CacheKey (list Byte.byte)}.
Context (iter : gset ID -> list ID) (blake3_raw_cid : string -> Cid).

(** The result of a computation; that it has one is [pinned_read]. *)
Definition result_of {A} (m : Tx A) (s : TxState) : Result A Error :=
  match m s with
  | Some (Done (_, r)) => r
  | _ => Err ESerialize
  end.

(** A handle is a backend and a root, a pinned transaction is opened on the
    given tips, with no cached states: these do not change what is read. *)
Definition eidetica_instance : InstanceSpec := {|
  Database := InMemoryInner * ID;
  PinnedTransaction := TxState * ID;
  SettingsStore := TxState * ID;
  Database_open engine root := let? root := open_database engine root in Ok (engine, root);
  new_transaction_at db snapshot :=
    let? s := new_at db.2 (mkInMemory db.1 InMemoryCrdtCache_new) snapshot in Ok (s, db.2);
  get_settings txn := Ok txn;
  auth_snapshot store := result_of (settings_auth_snapshot iter blake3_raw_cid store.2) store.1;
|}.
End instance.

Section pinned.
Context `{CD : CodecSpec} `{JS : !JsonSpec} `{LS : !LruSpec CacheKey (list Byte.byte)}.
Context (iter : gset ID -> list ID) (blake3_raw_cid : string -> Cid) (Hiter : forall s, iter s ≡ₚ elements s).

Lemma fresh_data b name ps :
  name ∉ EntryBuilder_subtrees b -> staged (set_subtree_parents b name ps) name = Ok None.
Proof.
  intros Hn. unfold staged. rewrite builder_data_parents. unfold EntryBuilder_data.
  assert (find_subtree (b_subtrees b) name = None) as ->; [|done].
  apply eq_None_not_Some. by rewrite find_subtree_In.
Qed.

(** The settings that a transaction without staged settings reads. *)
Lemma settings_snapshot_eq root s b :
  readable blake3_raw_cid root SETTINGS None (mem_inner (tx_mem s)) -> encryptors s !! SETTINGS = None ->
  cache_sound blake3_raw_cid root SETTINGS None (mem_inner (tx_mem s)) (crdt_cache (tx_mem s)) ->
  entry_builder s = Some b -> SETTINGS ∉ EntryBuilder_subtrees b ->
  (forall t, t ∈ builder_parents b ->
     exists e, entries (mem_inner (tx_mem s)) !! t = Some e /\ in_tree e root = true) ->
  exists s' l r, settings_auth_snapshot iter blake3_raw_cid root s
      = Some (Done (s', let? d := r in Ok (auth_of_settings d)))
    /\ NoDup l
    /\ (forall id, id ∈ l <-> scope_tip (entries (mem_inner (tx_mem s))) root SETTINGS (builder_parents b) id)
    /\ (store_state root SETTINGS None (mem_inner (tx_mem s)) l = Some r
        \/ (2 <= length l)%nat /\ r = Err (EBackend (NoCommonAncestor l))).
Proof.
  intros Hrd Henc Hc Hb Hnew Hpar.
  destruct (full_state_eq iter blake3_raw_cid root SETTINGS None Hiter s b Hrd Henc Hc Hb Hnew Hpar)
    as (s' & r & l & E & Hnd & Hl & Hb' & Hst & _).
  exists s', l, r. split; [|split; [done|split; [done|naive_solver]]].
  unfold settings_auth_snapshot, settings_get_all, DocStore_get_all, tx_bind. rewrite E.
  destruct r as [d|]; [|done]. rewrite (local_data_eq SETTINGS s' _ Hb'), fresh_data by done. done.
Qed.

(** The settings of a tree at tips, as the resolution of a delegation reads
    them. *)
Definition settings_at (engine : InMemoryInner) (root : ID) (ids : list ID) : Result AuthSettings Error :=
  let? db := Database_open (InstanceSpec := eidetica_instance iter blake3_raw_cid) engine root in
  let? txn := new_transaction_at db (Snapshot_new ids) in
  let? store := get_settings txn in
  auth_snapshot store.

Lemma empty_cache_sound root subtree enc inner :
  cache_sound blake3_raw_cid root subtree enc inner InMemoryCrdtCache_new.
Proof.
  unfold cache_sound, CrdtCache.items. cbn. rewrite lru_unbounded_items. split; [constructor|].
  intros id b []%elem_of_nil.
Qed.

(** The read succeeds, at the store tips in scope. *)
Lemma pinned_read engine root ids :
  readable blake3_raw_cid root SETTINGS None engine -> is_Some (entries engine !! root) -> ids <> [] ->
  (forall t, t ∈ ids -> exists e, entries engine !! t = Some e /\ in_tree e root = true) ->
  exists l r, settings_at engine root ids = (let? d := r in Ok (auth_of_settings d))
    /\ NoDup l /\ (forall id, id ∈ l <-> scope_tip (entries engine) root SETTINGS ids id)
    /\ (store_state root SETTINGS None engine l = Some r
        \/ (2 <= length l)%nat /\ r = Err (EBackend (NoCommonAncestor l))).
Proof.
  intros Hrd [er Hr] Hne Hids.
  assert (forall l, (forall t, t ∈ l -> exists e, entries engine !! t = Some e /\ in_tree e root = true) ->
    check_new_tips root engine l = Ok tt) as Hcheck.
  { induction l as [|t l IH]; intros Hl; [done|]. simpl. unfold storage_get.
    destruct (Hl t) as (e & He & Ht); [by left|]. rewrite He. cbn [ok_or result_bind]. rewrite Ht. simpl.
    apply IH. intros x Hx. apply Hl. by right. }
  assert (forall t, t ∈ tips (Snapshot_new ids) -> exists e, entries engine !! t = Some e /\ in_tree e root = true)
    as Hids' by (intros t; rewrite elem_of_Snapshot_new; apply Hids).
  assert (is_nil (tips (Snapshot_new ids)) = false) as En.
  { destruct (tips (Snapshot_new ids)) eqn:E; [|done]. destruct ids as [|t ids]; [done|].
    exfalso. apply (not_elem_of_nil t). rewrite <- E, elem_of_Snapshot_new. by left. }
  set (s := mkTxState (mkInMemory engine InMemoryCrdtCache_new)
    (Some (set_parents (EntryBuilder_new root) (tips (Snapshot_new ids)))) ∅ false).
  assert (new_at root (mkInMemory engine InMemoryCrdtCache_new) (Snapshot_new ids) = Ok s) as Hnew.
  { unfold new_at. cbn [mem_inner]. by rewrite Hcheck, En. }
  edestruct (settings_snapshot_eq root s) as (s' & l & r & E & Hnd & Hl & Hst);
    [exact Hrd|done| |done|set_solver|exact Hids'|].
  { apply empty_cache_sound. }
  exists l, r. split; [|split; [done|split; [|done]]].
  - unfold settings_at. cbn. unfold open_database, storage_get. rewrite Hr. cbn [ok_or result_bind fst snd].
    rewrite Hnew. cbn [result_bind fst snd]. unfold result_of. by rewrite E.
  - intros id. rewrite Hl. apply scope_tip_same. intros t. apply elem_of_Snapshot_new.
Qed.

(** What tips reach does not change when an entry arrives. *)
Lemma reached_put engine e engine' root ids :
  mem_put engine e = Ok engine' ->
  (forall x y, tree_edge (entries engine) root x y -> is_Some (entries engine !! y)) ->
  (forall t, t ∈ ids -> is_Some (entries engine !! t)) ->
  forall x ex, reached (entries engine') root ids x ex <-> reached (entries engine) root ids x ex.
Proof.
  unfold mem_put. destruct (Entry_validate e) as [[]|]; [|done]. intros [= <-] Hcl Hids x ex.
  rewrite storage_put_entries. case_decide as Hd; [done|]. set (id := Entry_id e) in *.
  assert (entries engine !! id = None) as Hnew by (by apply eq_None_not_Some).
  assert (forall a c, is_Some (entries engine !! a) ->
    tree_edge (<[ id := e ]> (entries engine)) root a c <-> tree_edge (entries engine) root a c) as Hedge.
  { intros a c [ea Ha]. unfold tree_edge, edge. rewrite lookup_insert_ne; [done|congruence]. }
  assert (forall t y, is_Some (entries engine !! t) ->
    rtc (tree_edge (<[ id := e ]> (entries engine)) root) t y ->
    rtc (tree_edge (entries engine) root) t y /\ is_Some (entries engine !! y)) as Hto.
  { intros t y Ht Hr. induction Hr as [|t z y Htz _ IH]; [by split; [apply rtc_refl|]|].
    apply Hedge in Htz; [|done]. destruct (IH (Hcl _ _ Htz)) as [? ?]. split; [by eapply rtc_l|done]. }
  assert (forall t y, is_Some (entries engine !! t) -> rtc (tree_edge (entries engine) root) t y ->
    rtc (tree_edge (<[ id := e ]> (entries engine)) root) t y) as Hfrom.
  { intros t y Ht Hr. revert Ht. induction Hr as [|t z y Htz _ IH]; intros Ht; [apply rtc_refl|].
    eapply rtc_l; [by apply Hedge|]. apply IH. by eapply Hcl. }
  unfold reached. split; intros (Hx & Hin & t & Ht & Hr).
  - destruct (Hto t x (Hids t Ht) Hr) as [? [ex' Hx']]. rewrite lookup_insert_ne in Hx by congruence. eauto 10.
  - rewrite lookup_insert_ne by congruence. eauto 10.
Qed.

(** The database layer keeps what the resolution of delegations relies on: at
    claimed tips of a stored tree the settings can be read; what is read are
    exactly the settings entries that the tips reach, merged in height order, or
    the report that no common ancestor dominates the tips; and reading the same
    tips again after another entry has arrived gives the same settings. *)
Theorem delegated_settings_spec engine root ids :
  readable blake3_raw_cid root SETTINGS None engine -> is_Some (entries engine !! root) -> ids <> [] ->
  (forall t, t ∈ ids -> exists e, entries engine !! t = Some e /\ in_tree e root = true) ->
  (exists l r, settings_at engine root ids = (let? d := r in Ok (auth_of_settings d))
    /\ NoDup l /\ (forall id, id ∈ l <-> scope_tip (entries engine) root SETTINGS ids id)
    /\ (store_state root SETTINGS None engine l = Some r
        \/ (2 <= length l)%nat /\ r = Err (EBackend (NoCommonAncestor l))))
  /\ forall e engine' s s',
       (forall x y, tree_edge (entries engine) root x y -> is_Some (entries engine !! y)) ->
       mem_put engine e = Ok engine' -> readable blake3_raw_cid root SETTINGS None engine' ->
       settings_at engine root ids = Ok s -> settings_at engine' root ids = Ok s' -> s' = s.
Proof.
  intros Hrd Hroot Hne Hids. destruct (pinned_read engine root ids Hrd Hroot Hne Hids) as (l & r & Hr & Hnd & Hl & Hst).
  split; [by exists l, r|]. intros e engine' s s' Hcl Hput Hrd' Hs Hs'.
  assert (forall t et, entries engine !! t = Some et -> entries engine' !! t = Some et) as Hkeep.
  { intros t et Ht. unfold mem_put in Hput. destruct (Entry_validate e); [|done]. injection Hput as <-.
    rewrite storage_put_entries. case_decide as Hd; [done|]. rewrite lookup_insert_ne; [done|].
    intros <-. apply Hd. eauto. }
  destruct (pinned_read engine' root ids Hrd') as (l' & r' & Hr' & Hnd' & Hl' & Hst'); [| done | |].
  { destruct Hroot as [er ?]. eauto. }
  { intros t Ht. destruct (Hids t Ht) as (et & ? & ?). eauto. }
  assert (l ≡ₚ l') as Hp.
  { apply NoDup_Permutation; [done..|]. intros x. rewrite Hl, Hl'.
    assert (forall y ey, reached (entries engine') root ids y ey <-> reached (entries engine) root ids y ey) as Hre.
    { apply (reached_put engine e engine'); [done|done|]. intros t Ht. destruct (Hids t Ht) as (? & ? & _). eauto. }
    unfold scope_tip. by setoid_rewrite Hre. }
  rewrite Hr in Hs. rewrite Hr' in Hs'.
  destruct r as [d|]; [|done]. destruct r' as [d'|]; [|done]. simpl in Hs, Hs'.
  destruct Hst as [Hst|[_ ?]]; [|done]. destruct Hst' as [Hst'|[_ ?]]; [|done].
  enough (d = d') by congruence. destruct (decide (l = [])) as [->|Hl0].
  { apply Permutation_nil_l in Hp. subst l'. unfold store_state, store_at in Hst, Hst'. simpl in *. congruence. }
  pose proof (scope_tips_good root SETTINGS engine ids l Hnd Hl Hl0) as Hg.
  pose proof Hput as Hput'. unfold mem_put in Hput'. destruct (Entry_validate e); [|done]. injection Hput' as E.
  assert (good_tips root SETTINGS engine' l) as Hg'.
  { destruct Hg as (? & ? & Hg). split; [done|]. split; [done|]. intros t Ht.
    destruct (Hg t Ht) as (x & Hx & ?). exists x. split; [by apply Hkeep|done]. }
  rewrite <- (store_state_perm root SETTINGS None engine' (rd_history _ _ _ _ _ Hrd') l l' Hg' Hp) in Hst'.
  subst engine'. rewrite store_state_put in Hst'; [congruence|apply Hrd|apply Hrd'|apply Hrd|done].
Qed.
End pinned.

(** ** Concrete settings *)

#[local] Existing Instance nat_cid.
#[local] Existing Instance byte_crypto.
#[local] Existing Instance list_lru.

Section demo_settings.
#[local] Existing Instance commit_codec.
#[local] Existing Instance commit_json.

Lemma commit_settings_at :
  (let? s := settings_at elements demo_hash commit_mem (demo_id 1) [demo_id 1] in
   Ok (find_all_sigkeys_for_pubkey s demo_pk)) = Ok [(SigKey_from_pubkey demo_pk, Write 3)].
Proof. vm_compute. reflexivity. Qed.

Lemma delegated_settings_spec_witness :
  exists (l : list ID) r, settings_at elements demo_hash commit_mem (demo_id 1) [demo_id 1]
      = (let? d := r in Ok (auth_of_settings d))
    /\ (forall id, id ∈ l <-> scope_tip (entries commit_mem) (demo_id 1) SETTINGS [demo_id 1] id)
    /\ (let? s := settings_at elements demo_hash commit_mem (demo_id 1) [demo_id 1] in
        Ok (find_all_sigkeys_for_pubkey s demo_pk)) = Ok [(SigKey_from_pubkey demo_pk, Write 3)].
Proof.
  destruct (delegated_settings_spec elements demo_hash (fun s => Permutation_refl _)
    commit_mem (demo_id 1) [demo_id 1]) as [(l & r & E & _ & Hl & _) _].
  - exact commit_readable.
  - exists settings_root. reflexivity.
  - discriminate.
  - intros t ->%list_elem_of_singleton. exists settings_root. split; reflexivity.
  - exists l, r. split; [exact E|]. split; [exact Hl|exact commit_settings_at].
Defined.
End demo_settings.

(** ** A forged entry of a delegated tree *)

(** The settings that the payloads stand for: those of a tree that delegates to
    [demo_tree], those of [demo_tree], and a change that adds a foreign key. *)
Definition forger : PrivateKey := Ed25519Private (KS := byte_crypto) Byte.x09.

Definition forged_settings : AuthSettings :=
  put_key AuthSettings_new (PublicKey_to_string (public_key forger)) (AuthKey_active None (Write 5)).

Definition forged_codec : CodecSpec := {|
  to_dagcbor e := default [] (tn_metadata (e_tree e));
  blake3_dagcbor_cid b := match b with x :: _ => N.to_nat (Byte.to_N x) | [] => 0%nat end : @Cid nat_cid;
  json_to_doc b := Some (match b with
                         | [Byte.x0a] => keyed_doc demo_parent
                         | [Byte.x0b] => keyed_doc demo_settings
                         | [Byte.x0c] => keyed_doc forged_settings
                         | _ => Doc_new
                         end);
|}.

Section forged.
#[local] Existing Instance forged_codec.

#[local] Instance forged_json : JsonSpec := {|
  json_to_metadata b :=
    match b with
    | x :: pins => Some (mkEntryMetadata
        (Snapshot_new ((fun x => demo_id (N.to_nat (Byte.to_N x))) <$> pins)) None)
    | [] => None
    end;
  metadata_to_json md := id_byte <$> tips (settings_snapshot md);
  doc_to_json d := [];
|}.

#[local] Instance forged_instance : InstanceSpec := eidetica_instance elements demo_hash.

Definition tree_root (n payload : Byte.byte) : Entry :=
  mkEntry 0 (mkTreeNode None [] (Some [n]) 0)
    [mkSubTreeNode ROOT [] None None; mkSubTreeNode SETTINGS [] (Some [payload]) None] SigInfo_default.

Definition signed_by (sk : PrivateKey) (e : Entry) : Entry := with_signature e (sign_entry e sk).

(** Entry 5 of the delegated tree 4 adds the forger's key and is signed with it;
    entry 2 of tree 1 is signed through the delegation at entry 5. *)
Definition forged_entry : Entry :=
  signed_by forger (mkEntry 0 (mkTreeNode (Some demo_tree) [demo_tree] (Some [Byte.x05; Byte.x04]) 1)
    [mkSubTreeNode SETTINGS [demo_tree] (Some [Byte.x0c]) None]
    (mkSigInfo None (SigKey_from_pubkey (public_key forger)))).

Definition intruding_entry : Entry :=
  signed_by forger (case_node [Byte.x02; Byte.x01] 1 [demo_id 1] []
    (mkSigInfo None (Delegation [mkDelegationStep demo_tree [demo_id 5]] (KeyHint_from_pubkey (public_key forger))))).

Definition forged_mem : InMemoryInner :=
  store_all [(tree_root Byte.x01 Byte.x0a, Verified); (tree_root Byte.x04 Byte.x0b, Verified);
             (forged_entry, Unverified); (intruding_entry, Unverified)] InMemory_new.

(** Nobody has granted the forger's key anything: it is in neither tree's
    settings, and the pass over the delegated tree marks the entry that adds it
    as failed.  The pass over the delegating tree nevertheless reads the
    delegated settings at that failed entry, because the claimed tips only have
    to be entries of the tree, and marks the forger's entry as verified. *)
Theorem failed_entry_grants_delegation :
  find_all_sigkeys_for_pubkey demo_parent (public_key forger) = []
  /\ find_all_sigkeys_for_pubkey demo_settings (public_key forger) = []
  /\ match pass forged_mem demo_tree with
     | None => False
     | Some checked =>
         status checked (demo_id 5) = Some Failed
         /\ match pass checked (demo_id 1) with
            | None => False
            | Some final => status final (demo_id 5) = Some Failed /\ status final (demo_id 2) = Some Verified
            end
     end.
Proof. vm_compute. repeat split. Qed.
End forged.
