(* ===== verification/SyncWalk.v ===== *)
(** * Which entries a peer is sent (sync/utils.rs, sync/handler_tree_ops.rs)

    The walks over parent references with which the sync module finds the
    entries that are missing here, the entries that a peer is missing, and all
    the entries of a tree.  Shown here: the walks end, and what each returns, in
    terms of the entries that the starting points reach. *)

From S2P Require Import Prelude.
From S2P Require Import Worklist.
From S2P Require Import Path.
From S2P Require Import Position.
From S2P Require Import Ids.
From S2P Require Import Doc.
From S2P Require Import DocPath.
From S2P Require Import Errors.
From S2P Require Import Crypto.
From S2P Require Import Permission.
From S2P Require Import AuthTypes.
From S2P Require Import AuthSettings.
From S2P Require Import Entry.
From S2P Require Import Backend.
From S2P Require Import Traversal.
From S2P Require Import Reachability.
From S2P Require Import Validation.
From S2P Require Import StoreTips.
From S2P Require Import Kahn.
From S2P Require Import Verify.
From S2P Require Import Frontier.

Section walks.
Context `{CD : CodecSpec}.
(** The order of iteration of a hash map. *)
Context (map_iter : forall A : Type, gmap ID A -> list (ID * A)).

(** The parents that a loop pushes after it has marked [id] itself. *)
Definition other_parents (id : ID) (entry : Entry) : list ID :=
  filter (fun p => p <> id) (Entry_parents entry).

Definition backend_error {A} : Result A Error := Err (ESync SyncBackendError).

(** ** utils.rs *)

Definition missing_visit (inner : InMemoryInner) (entry_id : ID) :
    Result (option (list ID * list ID)) Error :=
  match storage_get inner entry_id with
  | Ok entry => Ok (Some ([], other_parents entry_id entry))
  | Err e => if Error_is_not_found e then Ok (Some ([entry_id], [])) else backend_error
  end.

Definition collect_missing_ancestors (inner : InMemoryInner) (entry_ids : list ID) :
    option (Result (list ID) Error) :=
  r ← worklist (missing_visit inner) FifoPruned (traversal_fuel (entries inner) (length entry_ids))
        entry_ids ∅ [];
  Some (let? p := r in Ok p.2).

Definition send_visit (inner : InMemoryInner) (entry_id : ID) :
    Result (option (list (ID * Entry) * list ID)) Error :=
  match storage_get inner entry_id with
  | Ok entry => Ok (Some ([(entry_id, entry)], other_parents entry_id entry))
  | Err _ => backend_error
  end.

(** The entries that are known to the peer count as visited. *)
Definition collect_ancestors_to_send (inner : InMemoryInner) (entry_ids their_tips : list ID) :
    option (Result (list Entry) Error) :=
  r ← worklist (send_visit inner) FifoPruned (traversal_fuel (entries inner) (length entry_ids))
        entry_ids (list_to_set their_tips) [];
  Some (let? p := r in Ok (map_iter Entry (list_to_map p.2)).*2).

(** ** handler_tree_ops.rs *)

(** The body of the loops; [skip] are the IDs that are passed over. *)
Definition tree_walk_visit (inner : InMemoryInner) (skip : list ID) (entry_id : ID) :
    Result (option (list Entry * list ID)) Error :=
  if decide (entry_id ∈ skip) then Ok None
  else match storage_get inner entry_id with
  | Ok entry => Ok (Some ([entry], filter (fun p => p ∉ skip) (other_parents entry_id entry)))
  | Err e => if Error_is_not_found e then Ok (Some ([], [])) else Err e
  end.

Definition tree_walk (inner : InMemoryInner) (skip ids : list ID) :
    option (Result (gset ID * list Entry) Error) :=
  worklist (tree_walk_visit inner skip) FifoPruned (traversal_fuel (entries inner) (length ids)) ids ∅ [].

Definition collect_all_tree_entries (inner : InMemoryInner) (tree_id : ID) :
    option (InMemoryInner * Result (list Entry) Error) :=
  let '(inner, snapshot) := mem_snapshot inner tree_id in
  r ← tree_walk inner [tree_id] (tips snapshot);
  Some (inner, let? p := r in Ok p.2).

Definition collect_all_entries_for_bootstrap (inner : InMemoryInner) (tree_id : ID) :
    option (InMemoryInner * Result (list Entry) Error) :=
  let '(inner, snapshot) := mem_snapshot inner tree_id in
  r ← tree_walk inner [] (tips snapshot);
  Some (inner, let? p := r in Ok (reverse p.2)).

Definition find_missing_entries_for_peer (inner : InMemoryInner) (our_tips peer_tips : list ID) :
    option (Result (list Entry) Error) :=
  let missing_tip_ids := filter (fun tip_id => tip_id ∉ peer_tips) our_tips in
  if is_nil missing_tip_ids then Some (Ok [])
  else collect_ancestors_to_send inner missing_tip_ids peer_tips.

(** Every visited ID counts, whether its entry can be read or not. *)
Definition count_visit (inner : InMemoryInner) (tree_id entry_id : ID) :
    Result (option (list unit * list ID)) Error :=
  if decide (entry_id = tree_id) then Ok None
  else match storage_get inner entry_id with
  | Ok entry => Ok (Some ([tt], filter (fun p => p <> tree_id) (other_parents entry_id entry)))
  | Err _ => Ok (Some ([tt], []))
  end.

Definition count_tree_entries (inner : InMemoryInner) (tree_id : ID) :
    option (InMemoryInner * Result nat Error) :=
  let '(inner, snapshot) := mem_snapshot inner tree_id in
  r ← worklist (count_visit inner tree_id) FifoPruned
        (traversal_fuel (entries inner) (length (tips snapshot))) (tips snapshot) ∅ [];
  Some (inner, let? p := r in Ok (1 + length p.2)%nat).

Record TreeInfo : Type := mkTreeInfo {
  ti_tree_id : ID;
  ti_name : option string;
  ti_entry_count : nat;
  ti_last_modified : Z;
}.

(** The loop over the roots: a root whose entries cannot be counted is left out. *)
Fixpoint tree_infos (inner : InMemoryInner) (roots : list ID) : option (InMemoryInner * list TreeInfo) :=
  match roots with
  | [] => Some (inner, [])
  | root_id :: rest =>
      p ← count_tree_entries inner root_id;
      q ← tree_infos p.1 rest;
      Some (q.1, match p.2 with
                 | Ok entry_count => mkTreeInfo root_id None entry_count 0 :: q.2
                 | Err _ => q.2
                 end)
  end.

Definition get_available_trees (inner : InMemoryInner) : option (InMemoryInner * list TreeInfo) :=
  tree_infos inner (all_roots inner).
End walks.

(** ** What the walks reach *)

Section facts.
Context `{CD : CodecSpec}.

Lemma rtc_but_loops {A} (R R' : A -> A -> Prop) x y :
  (forall a b, R a b -> a = b \/ R' a b) -> rtc R x y -> rtc R' x y.
Proof.
  intros HR. induction 1 as [|x y z Hxy _ IH]; [apply rtc_refl|].
  destruct (HR _ _ Hxy) as [->|]; [done|]. by eapply rtc_l.
Qed.

(** One step to a parent. *)
Definition parent_edge (es : gmap ID Entry) (x y : ID) : Prop :=
  exists e, es !! x = Some e /\ y ∈ Entry_parents e.

(** One step to a parent that does not start in [B]. *)
Definition step_outside (es : gmap ID Entry) (B : gset ID) (x y : ID) : Prop :=
  x ∉ B /\ parent_edge es x y.

(** Reached from the IDs without going through [B], and not in it. *)
Definition reached_outside (es : gmap ID Entry) (B : gset ID) (ids : list ID) (x : ID) : Prop :=
  x ∉ B /\ exists q, q ∈ ids /\ rtc (step_outside es B) q x.

Lemma elem_of_other_parents id e p : p ∈ other_parents id e <-> p <> id /\ p ∈ Entry_parents e.
Proof. unfold other_parents. by rewrite list_elem_of_filter. Qed.

Lemma other_parents_refs id e : (length (other_parents id e) <= parent_refs e)%nat.
Proof.
  unfold other_parents. pose proof (length_filter (fun p => p <> id) (Entry_parents e)).
  pose proof (parents_refs e). lia.
Qed.

(** A walk that pushes the other parents of the entries that it finds. *)
Lemma parents_from_queue {A E} (visit : ID -> Result (option (list A * list ID)) E) es B ids x :
  (forall y, next visit y = match es !! y with Some e => other_parents y e | None => [] end) ->
  from_queue visit B ids x <-> exists q, q ∈ ids /\ rtc (step_outside es B) q x.
Proof.
  intros Hn. unfold from_queue. split; intros (q & Hq & Hr); exists q; (split; [done|]).
  - eapply rtc_but_loops; [|exact Hr]. intros a b [Ha Hb]. right. split; [done|]. rewrite Hn in Hb.
    destruct (es !! a) as [e|] eqn:He; [|by apply elem_of_nil in Hb]. exists e. split; [done|].
    by apply elem_of_other_parents in Hb as [_ ?].
  - eapply rtc_but_loops; [|exact Hr]. intros a b [Ha (e & He & Hb)].
    destruct (decide (a = b)) as [|Hab]; [by left|]. right. split; [done|]. rewrite Hn, He.
    by apply elem_of_other_parents.
Qed.

Lemma storage_get_Some inner id e : entries inner !! id = Some e -> storage_get inner id = Ok e.
Proof. unfold storage_get. by intros ->. Qed.

Lemma storage_get_None inner id :
  entries inner !! id = None -> storage_get inner id = Err (EBackend (EntryNotFound id)).
Proof. unfold storage_get. by intros ->. Qed.

Lemma next_fuel {A E} (visit : ID -> Result (option (list A * list ID)) E) es ids seen acc :
  (forall y, next visit y = match es !! y with Some e => other_parents y e | None => [] end) ->
  exists r, worklist visit FifoPruned (traversal_fuel es (length ids)) ids seen acc = Some r.
Proof.
  intros Hn. apply traversal_fuel_enough. intros x. rewrite Hn. destruct (es !! x); [|simpl; lia].
  apply other_parents_refs.
Qed.

Section one_backend.
Context (inner : InMemoryInner).
Notation es := (entries inner).

Lemma next_missing y :
  next (missing_visit inner) y = match es !! y with Some e => other_parents y e | None => [] end.
Proof. unfold next, missing_visit, storage_get. by destruct (es !! y). Qed.

Lemma next_send y :
  next (send_visit inner) y = match es !! y with Some e => other_parents y e | None => [] end.
Proof. unfold next, send_visit, storage_get. by destruct (es !! y). Qed.

(** [collect_missing_ancestors] ends without an error and returns, each
    once, exactly the IDs without an entry that the given ones reach. *)
Theorem collect_missing_ancestors_spec ids :
  exists missing, collect_missing_ancestors inner ids = Some (Ok missing)
    /\ NoDup missing /\ forall x, x ∈ missing <-> es !! x = None /\ reached_outside es ∅ ids x.
Proof.
  unfold collect_missing_ancestors.
  destruct (next_fuel (missing_visit inner) es ids ∅ [] next_missing) as [r Hr]. rewrite Hr.
  cbn [mbind option_bind]. destruct r as [[seen acc]|e].
  2: { apply worklist_err in Hr as (x & _ & _ & Hx). unfold missing_visit, storage_get in Hx.
       by destruct (es !! x). }
  exists acc. split; [done|]. apply worklist_ok in Hr as (_ & _ & ord & Hnd & Hord & ->). rewrite app_nil_l.
  assert (forall x, x ∈ ord <-> reached_outside es ∅ ids x) as Hre.
  { intros x. rewrite Hord. unfold wreach, reached_outside.
    rewrite <- (parents_from_queue (missing_visit inner) es) by apply next_missing. unfold from_queue, marks.
    assert (exists o ps, missing_visit inner x = Ok (Some (o, ps))); [|tauto].
    unfold missing_visit, storage_get. destruct (es !! x); simpl; eauto. }
  assert (forall x, out (missing_visit inner) x = if es !! x then [] else [x]) as Hout.
  { intros x. unfold out, missing_visit, storage_get. by destruct (es !! x). }
  setoid_rewrite <- Hre. clear Hord Hre. induction Hnd as [|y l Hy Hnd [IH1 IH2]]; [split; [constructor|set_solver]|].
  rewrite fmap_cons, concat_cons, Hout. destruct (es !! y) as [e|] eqn:E; simpl.
  - split; [done|]. intros x. rewrite IH2, elem_of_cons. split; [tauto|]. intros [Hx [->|?]]; [congruence|done].
  - split; [constructor; [|done]; rewrite IH2; tauto|]. intros x. rewrite !elem_of_cons, IH2.
    split; [intros [->|?]; tauto|]. tauto.
Qed.

(** What a peer with the given tips is sent. *)
Lemma send_walk map_iter ids their :
  (forall A (m : gmap ID A), map_iter A m ≡ₚ map_to_list m) ->
  exists r, collect_ancestors_to_send map_iter inner ids their = Some r
    /\ match r with
       | Ok l => exists sent : gmap ID Entry, l ≡ₚ (map_to_list sent).*2
           /\ (forall id e, sent !! id = Some e <-> es !! id = Some e /\ reached_outside es (list_to_set their) ids id)
           /\ forall x, reached_outside es (list_to_set their) ids x -> is_Some (es !! x)
       | Err e => e = ESync SyncBackendError
           /\ exists x, reached_outside es (list_to_set their) ids x /\ es !! x = None
       end.
Proof.
  intros Hmap. unfold collect_ancestors_to_send. set (B := list_to_set their : gset ID).
  destruct (next_fuel (send_visit inner) es ids B [] next_send) as [r Hr]. rewrite Hr.
  cbn [mbind option_bind]. eexists. split; [done|]. destruct r as [[seen acc]|e]; cbn [result_bind].
  - apply worklist_ok in Hr as (_ & Herr & ord & Hnd & Hord & ->). rewrite app_nil_l.
    assert (forall x, x ∉ B -> from_queue (send_visit inner) B ids x -> is_Some (es !! x)) as Hpres.
    { intros x Hx Hf. specialize (Herr x (ESync SyncBackendError) Hx Hf). unfold send_visit, storage_get in Herr.
      by destruct (es !! x). }
    assert (forall x, x ∈ ord <-> reached_outside es B ids x) as Hre.
    { intros x. rewrite Hord. unfold wreach, reached_outside.
      rewrite <- (parents_from_queue (send_visit inner) es) by apply next_send.
      split; [intros (? & _ & ?); done|]. intros [Hx Hf]. split; [done|]. split; [|done].
      destruct (Hpres x Hx Hf) as [e He]. unfold marks, send_visit. rewrite (storage_get_Some _ _ e) by done. eauto. }
    exists (list_to_map (concat (out (send_visit inner) <$> ord))). split; [by rewrite Hmap|]. split.
    + intros id e. rewrite (collect_lookup _ (fun x => es !! x)), Hre; [tauto|].
      intros x y w. unfold out, send_visit, storage_get. destruct (es !! x) as [ex|]; simpl; set_solver.
    + intros x [Hx Hq]. apply Hpres; [done|]. by apply (parents_from_queue _ es), Hq; apply next_send.
  - apply worklist_err in Hr as (x & Hx & Hf & He). unfold send_visit, storage_get in He.
    destruct (es !! x) eqn:E; [done|]. injection He as <-. split; [done|]. exists x. split; [|done].
    split; [done|]. by apply (parents_from_queue (send_visit inner) es) in Hf; [|apply next_send].
Qed.

(** ** The walks over a tree *)

Lemma filter_all {A} (P : A -> Prop) `{!forall x, Decision (P x)} (l : list A) :
  (forall x, x ∈ l -> P x) -> filter P l = l.
Proof.
  induction l as [|x l IH]; intros Hl; [done|]. rewrite filter_cons_True by (apply Hl; by left).
  f_equal. apply IH. intros y Hy. apply Hl. by right.
Qed.

(** Only the nodes that are not skipped matter. *)
Lemma outside_path es B q x :
  rtc (step_outside es B) q x -> x ∉ B -> rtc (fun a b => step_outside es B a b /\ b ∉ B) q x.
Proof.
  intros Hr Hx. induction Hr as [|a b x Hab Hbx IH]; [apply rtc_refl|]. specialize (IH Hx).
  eapply rtc_l; [|exact IH]. split; [done|]. inversion Hbx as [|? ? ? [Hb _]]; subst; done.
Qed.

(** A walk that passes over [skip] and pushes the other parents outside it. *)
Lemma skipping_from_queue {A E} (visit : ID -> Result (option (list A * list ID)) E) (skip ids : list ID) x :
  (forall y, next visit y = if decide (y ∈ skip) then [] else
     match es !! y with Some e => filter (fun p => p ∉ skip) (other_parents y e) | None => [] end) ->
  x ∉ skip -> from_queue visit ∅ ids x <-> reached_outside es (list_to_set skip) ids x.
Proof.
  intros Hn Hx. unfold from_queue, reached_outside. rewrite elem_of_list_to_set. split.
  - intros (q & Hq & Hr). split; [done|]. exists q. split; [done|]. eapply rtc_but_loops; [|exact Hr].
    intros a b [_ Hb]. right. rewrite Hn in Hb. case_decide as Ha; [by apply elem_of_nil in Hb|].
    split; [by rewrite elem_of_list_to_set|]. destruct (es !! a) as [e|] eqn:He; [|by apply elem_of_nil in Hb].
    exists e. split; [done|]. by apply list_elem_of_filter in Hb as [_ [_ ?]%elem_of_other_parents].
  - intros (_ & q & Hq & Hr). exists q. split; [done|].
    apply outside_path in Hr; [|by rewrite elem_of_list_to_set].
    eapply rtc_but_loops; [|exact Hr]. intros a b [[Ha (e & He & Hb)] Hb'].
    destruct (decide (a = b)) as [|Hab]; [by left|]. right. split; [set_solver|]. rewrite Hn, He.
    rewrite elem_of_list_to_set in Ha, Hb'. rewrite decide_False by done.
    apply list_elem_of_filter. split; [done|]. by apply elem_of_other_parents.
Qed.

Lemma skipping_fuel {A E} (visit : ID -> Result (option (list A * list ID)) E) (skip ids : list ID) acc :
  (forall y, next visit y = if decide (y ∈ skip) then [] else
     match es !! y with Some e => filter (fun p => p ∉ skip) (other_parents y e) | None => [] end) ->
  exists r, worklist visit FifoPruned (traversal_fuel es (length ids)) ids ∅ acc = Some r.
Proof.
  intros Hn. apply traversal_fuel_enough. intros x. rewrite Hn. case_decide; [simpl; destruct (es !! x); lia|].
  destruct (es !! x) as [e|]; [|simpl; lia].
  pose proof (length_filter (fun p => p ∉ skip) (other_parents x e)). pose proof (other_parents_refs x e). lia.
Qed.

Lemma next_tree_walk skip y :
  next (tree_walk_visit inner skip) y = if decide (y ∈ skip) then [] else
    match es !! y with Some e => filter (fun p => p ∉ skip) (other_parents y e) | None => [] end.
Proof. unfold next, tree_walk_visit, storage_get. case_decide; [done|]. by destruct (es !! y). Qed.

Lemma tree_walk_spec skip ids :
  ids_ok es ->
  exists seen l, tree_walk inner skip ids = Some (Ok (seen, l)) /\ NoDup l
    /\ forall e, e ∈ l <-> exists id, es !! id = Some e /\ reached_outside es (list_to_set skip) ids id.
Proof.
  intros Hids. unfold tree_walk.
  destruct (skipping_fuel (tree_walk_visit inner skip) skip ids [] (next_tree_walk skip)) as [r Hr].
  rewrite Hr. destruct r as [[seen acc]|e].
  2: { apply worklist_err in Hr as (x & _ & _ & Hx). unfold tree_walk_visit, storage_get in Hx.
       case_decide; [done|]. by destruct (es !! x). }
  exists seen, acc. split; [done|]. apply worklist_ok in Hr as (_ & _ & ord & Hnd & Hord & ->). rewrite app_nil_l.
  assert (forall x, x ∈ ord <-> reached_outside es (list_to_set skip) ids x) as Hre.
  { intros x. rewrite Hord. unfold wreach. destruct (decide (x ∈ skip)) as [Hx|Hx].
    - split; [|intros [? _]; set_solver]. intros (_ & (o & ps & Hm) & _). unfold tree_walk_visit in Hm.
      by rewrite decide_True in Hm.
    - rewrite <- (skipping_from_queue (tree_walk_visit inner skip)) by (done || apply next_tree_walk).
      unfold from_queue, marks. assert (exists o ps, tree_walk_visit inner skip x = Ok (Some (o, ps))); [|set_solver].
      unfold tree_walk_visit, storage_get. rewrite decide_False by done. destruct (es !! x); simpl; eauto. }
  assert (forall x, x ∈ ord -> out (tree_walk_visit inner skip) x = option_list (es !! x)) as Hout.
  { intros x [Hx _]%Hre. unfold out, tree_walk_visit, storage_get. rewrite decide_False by set_solver.
    by destruct (es !! x). }
  split.
  - clear Hord Hre. induction Hnd as [|x ord Hx Hnd IH]; [constructor|]. rewrite fmap_cons, concat_cons.
    rewrite Hout by (by left). apply NoDup_app. split; [destruct (es !! x); [apply NoDup_singleton|constructor]|].
    split; [|apply IH; intros y Hy; apply Hout; by right]. intros e He (l & Hl & Hin)%elem_of_concat.
    apply list_elem_of_fmap in Hin as (y & -> & Hy). rewrite Hout in Hl by (by right).
    destruct (es !! x) as [ex|] eqn:Ex; simpl in He; [|by apply elem_of_nil in He].
    destruct (es !! y) as [ey|] eqn:Ey; simpl in Hl; [|by apply elem_of_nil in Hl].
    apply list_elem_of_singleton in He, Hl. subst. apply Hx. apply Hids in Ex, Ey. congruence.
  - intros e. rewrite elem_of_concat. split.
    + intros (l & Hl & (x & -> & Hx)%list_elem_of_fmap). rewrite Hout in Hl by done. exists x.
      split; [|by apply Hre]. destruct (es !! x) as [ex|]; simpl in Hl; [|by apply elem_of_nil in Hl].
      by apply list_elem_of_singleton in Hl as ->.
    + intros (x & Hx & Hr). apply Hre in Hr. exists (out (tree_walk_visit inner skip) x).
      split; [rewrite Hout, Hx by done; by left|]. by apply list_elem_of_fmap_2.
Qed.

Lemma next_count tree y :
  next (count_visit inner tree) y = if decide (y ∈ [tree]) then [] else
    match es !! y with Some e => filter (fun p => p ∉ [tree]) (other_parents y e) | None => [] end.
Proof.
  unfold next, count_visit, storage_get. destruct (decide (y = tree)) as [->|Hy].
  - by rewrite decide_True by set_solver.
  - rewrite decide_False by set_solver. destruct (es !! y); [|done]. simpl. apply list_filter_iff.
    intros p. rewrite list_elem_of_singleton. done.
Qed.
End one_backend.

(** ** Whole trees *)

(** A history of a tree as replicas hold it: acyclic, and closed under parents,
    which belong to the tree. *)
Record tree_history (es : gmap ID Entry) (tree : ID) : Prop := {
  th_proper : proper_tree es tree;
  th_acyclic : acyclic es tree;
  th_closed x y : tree_edge es tree x y -> exists e, es !! y = Some e /\ in_tree e tree = true;
}.

(** The root is stored and starts the history. *)
Definition rooted (es : gmap ID Entry) (tree : ID) : Prop :=
  exists e, es !! tree = Some e /\ in_tree e tree = true /\ Entry_parents e = [].

Section one_tree.
Context (es : gmap ID Entry) (tree : ID) (Hth : tree_history es tree).

Definition in_history (x : ID) : Prop := exists e, es !! x = Some e /\ in_tree e tree = true.

Lemma step_stays B x y : in_history x -> step_outside es B x y -> in_history y /\ tree_edge es tree x y.
Proof.
  intros (e & He & Ht) [_ (e' & He' & Hy)]. assert (e' = e) as -> by congruence.
  assert (tree_edge es tree x y) as Hxy by (exists e; eauto). split; [|done]. by apply (th_closed _ _ Hth) in Hxy.
Qed.

Lemma reach_stays B x y : in_history x -> rtc (step_outside es B) x y -> in_history y.
Proof. intros Hx. induction 1 as [|x y z Hxy _ IH]; [done|]. apply IH. by eapply step_stays. Qed.

(** From the tips every entry of the tree is reached, and nothing else. *)
Lemma tips_reach_history ids B x :
  (forall t, t ∈ ids <-> tree_tip es tree t) ->
  (forall b, b ∈ B -> in_history b -> exists e, es !! b = Some e /\ Entry_parents e = []) ->
  reached_outside es B ids x <-> x ∉ B /\ in_history x.
Proof.
  intros Ht HB. split.
  - intros (Hx & q & Hq & Hr). split; [done|]. eapply reach_stays; [|exact Hr]. apply Ht in Hq as [Hq _]. done.
  - intros (Hx & e & He & Hm). split; [done|].
    destruct (tips_cover _ _ _ _ _ (th_acyclic _ _ Hth) He Hm) as (t & Htip & Hr). exists t.
    split; [by apply Ht|]. eapply rtc_subrel; [|exact Hr]. intros a b (ea & Hea & Hma & Hb).
    split; [|by exists ea]. intros Ha. destruct (HB a Ha) as (e' & He' & Hnil); [by exists ea|].
    assert (e' = ea) as -> by congruence. rewrite Hnil in Hb. by apply elem_of_nil in Hb.
Qed.
End one_tree.

Lemma snapshot_tips inner tree :
  mem_inv inner -> proper_tree (entries inner) tree ->
  entries (mem_snapshot inner tree).1 = entries inner /\ mem_inv (mem_snapshot inner tree).1
  /\ forall t, t ∈ tips (mem_snapshot inner tree).2 <-> tree_tip (entries inner) tree t.
Proof.
  intros Hinv Hp. destruct (traversal_snapshot_inv inner tree Hinv) as (Hi & He & Ht). split; [done|].
  split; [done|]. intros t. unfold mem_snapshot. simpl. rewrite elem_of_sort_dedup, elem_of_elements. by apply Ht.
Qed.

Lemma get_tree_perm inner tree l (P : Entry -> Prop) `{!forall e, Decision (P e)} :
  mem_inv inner -> NoDup l ->
  (forall e, e ∈ l <-> entries inner !! Entry_id e = Some e /\ in_tree e tree = true /\ P e) ->
  l ≡ₚ filter P (get_tree inner tree).
Proof.
  intros Hinv Hnd Hl. apply NoDup_Permutation; [done| |].
  - apply NoDup_filter. eapply NoDup_fmap_1. by apply get_tree_ids.
  - intros e. rewrite Hl, list_elem_of_filter, get_tree_elem by done. tauto.
Qed.

Section collections.
Context (inner : InMemoryInner) (tree : ID).
Hypothesis (Hinv : mem_inv inner) (Hth : tree_history (entries inner) tree).

(** The walk from the tips. *)
Lemma tree_walk_collects skip :
  (forall b, b ∈ skip -> in_history (entries inner) tree b -> exists e, entries inner !! b = Some e /\ Entry_parents e = []) ->
  exists seen l, tree_walk (mem_snapshot inner tree).1 skip (tips (mem_snapshot inner tree).2) = Some (Ok (seen, l))
    /\ l ≡ₚ filter (fun e => Entry_id e ∉ skip) (get_tree inner tree).
Proof.
  intros Hskip. destruct (snapshot_tips inner tree Hinv (th_proper _ _ Hth)) as (He & Hi & Ht).
  destruct (tree_walk_spec (mem_snapshot inner tree).1 skip (tips (mem_snapshot inner tree).2))
    as (seen & l & Hw & Hnd & Hl); [apply Hi|]. exists seen, l. split; [done|].
  apply get_tree_perm; [done..|]. intros e. rewrite Hl, He.
  setoid_rewrite (tips_reach_history _ _ Hth); [|exact Ht|set_solver]. split.
  - intros (id & Hid & Hns & e' & He' & Hm). assert (e' = e) as -> by congruence.
    rewrite (mi_ids _ Hinv _ _ Hid). split; [done|]. set_solver.
  - intros (Hid & Hm & Hns). exists (Entry_id e). split; [done|]. split; [set_solver|]. by exists e.
Qed.

Lemma bootstrap_collects :
  exists l, collect_all_entries_for_bootstrap inner tree = Some ((mem_snapshot inner tree).1, Ok l)
    /\ l ≡ₚ get_tree inner tree.
Proof.
  destruct (tree_walk_collects []) as (seen & l & Hw & Hp); [set_solver|].
  unfold collect_all_entries_for_bootstrap. destruct (mem_snapshot inner tree) as [inner' snap] eqn:Es.
  simpl in Hw |- *. rewrite Hw. simpl. eexists. split; [done|]. rewrite reverse_Permutation, Hp.
  rewrite filter_all; [done|]. set_solver.
Qed.

Lemma all_tree_entries_collects :
  rooted (entries inner) tree ->
  exists l, collect_all_tree_entries inner tree = Some ((mem_snapshot inner tree).1, Ok l)
    /\ l ≡ₚ filter (fun e => Entry_id e <> tree) (get_tree inner tree).
Proof.
  intros (er & Her & Hmr & Hpr). destruct (tree_walk_collects [tree]) as (seen & l & Hw & Hp).
  { intros b ->%list_elem_of_singleton _. eauto. }
  unfold collect_all_tree_entries. destruct (mem_snapshot inner tree) as [inner' snap] eqn:Es.
  simpl in Hw |- *. rewrite Hw. simpl. eexists. split; [done|]. rewrite Hp.
  erewrite list_filter_iff; [done|]. intros e. by rewrite list_elem_of_singleton.
Qed.

Lemma count_counts :
  rooted (entries inner) tree ->
  count_tree_entries inner tree = Some ((mem_snapshot inner tree).1, Ok (length (get_tree inner tree))).
Proof.
  intros (er & Her & Hmr & Hpr). destruct (snapshot_tips inner tree Hinv (th_proper _ _ Hth)) as (He & Hi & Ht).
  unfold count_tree_entries. destruct (mem_snapshot inner tree) as [inner' snap] eqn:Es. cbn [fst snd] in He, Hi, Ht |- *.
  destruct (skipping_fuel inner' (count_visit inner' tree) [tree] (tips snap) [] (next_count inner' tree)) as [r Hr].
  rewrite Hr. cbn [mbind option_bind]. destruct r as [[seen acc]|e]; cbn [result_bind].
  2: { apply worklist_err in Hr as (x & _ & _ & Hx). unfold count_visit in Hx.
       case_decide; [done|]. by destruct (storage_get _ _). }
  apply worklist_ok in Hr as (_ & _ & ord & Hnd & Hord & ->). rewrite app_nil_l. cbn [snd].
  assert (forall x, x ∈ ord <-> x <> tree /\ in_history (entries inner) tree x) as Hre.
  { intros x. rewrite Hord. unfold wreach. destruct (decide (x = tree)) as [->|Hx].
    - split; [|intros [? _]; done]. intros (_ & (o & ps & Hm) & _). unfold count_visit in Hm.
      by rewrite decide_True in Hm.
    - assert (from_queue (count_visit inner' tree) ∅ (tips snap) x <-> in_history (entries inner) tree x) as <-.
      { rewrite (skipping_from_queue inner' _ [tree]);
          [|apply next_count|by rewrite list_elem_of_singleton]. rewrite He.
        rewrite (tips_reach_history _ _ Hth); [|exact Ht|].
        - rewrite elem_of_list_to_set, list_elem_of_singleton. tauto.
        - intros b Hb _. rewrite elem_of_list_to_set, list_elem_of_singleton in Hb. subst b. eauto. }
      pose proof (not_elem_of_empty (C := gset ID) x).
      unfold from_queue, marks. assert (exists o ps, count_visit inner' tree x = Ok (Some (o, ps))); [|tauto].
      unfold count_visit. rewrite decide_False by done. destruct (storage_get inner' x); eauto. }
  assert (length (concat (out (count_visit inner' tree) <$> ord)) = length ord) as ->.
  { assert (forall x, x ∈ ord -> out (count_visit inner' tree) x = [tt]) as Hout.
    { intros x [Hx _]%Hre. unfold out, count_visit. rewrite decide_False by done. by destruct (storage_get _ _). }
    clear Hnd Hord Hre. induction ord as [|x ord IH]; [done|]. rewrite fmap_cons, concat_cons, length_app.
    rewrite Hout by (by left). simpl. f_equal. apply IH. intros y Hy. apply Hout. by right. }
  do 3 f_equal. transitivity (length (tree :: ord)); [done|].
  rewrite <- (length_fmap Entry_id (get_tree inner tree)). apply Permutation_length, NoDup_Permutation.
  - constructor; [|done]. rewrite Hre. tauto.
  - by apply get_tree_ids.
  - intros x. rewrite elem_of_cons, Hre, list_elem_of_fmap. setoid_rewrite (get_tree_elem _ _ Hinv). split.
    + intros [->|(_ & e & Hx & Hm)]; [exists er|exists e]; pose proof (mi_ids _ Hinv) as Hids;
        [rewrite (Hids _ _ Her)|rewrite (Hids _ _ Hx)]; done.
    + intros (e & -> & Hx & Hm). destruct (decide (Entry_id e = tree)); [by left|]. right. split; [done|]. by exists e.
Qed.
End collections.

(** C27: on a tree whose parents are all stored, [collect_all_entries_for_bootstrap]
    returns every entry of the tree once and nothing else, [collect_all_tree_entries]
    all but the root, and [count_tree_entries] their number. *)
Theorem tree_collections_spec inner tree :
  mem_inv inner -> tree_history (entries inner) tree -> rooted (entries inner) tree ->
  (exists l, collect_all_entries_for_bootstrap inner tree = Some ((mem_snapshot inner tree).1, Ok l)
     /\ l ≡ₚ get_tree inner tree)
  /\ (exists l, collect_all_tree_entries inner tree = Some ((mem_snapshot inner tree).1, Ok l)
        /\ l ≡ₚ filter (fun e => Entry_id e <> tree) (get_tree inner tree))
  /\ count_tree_entries inner tree = Some ((mem_snapshot inner tree).1, Ok (length (get_tree inner tree))).
Proof.
  intros Hinv Hth Hroot. split; [by apply bootstrap_collects|].
  split; [by apply all_tree_entries_collects|by apply count_counts].
Qed.

(** ** What a peer is missing *)

(** Two replicas hold the same entry under the same ID. *)
Definition agree (es es' : gmap ID Entry) : Prop :=
  forall id e e', es !! id = Some e -> es' !! id = Some e' -> e = e'.

Section two_replicas.
Context (es es' : gmap ID Entry) (tree : ID).
Hypothesis (Hth : tree_history es tree) (Hth' : tree_history es' tree) (Hag : agree es es').

(** What an entry that both hold reaches here is there as well. *)
Lemma shared_below x y :
  in_history es tree x -> in_history es' tree x -> rtc (tree_edge es tree) x y -> in_history es' tree y.
Proof.
  intros Hx Hx' Hr. induction Hr as [|x y z Hxy _ IH]; [done|].
  apply IH; [by apply (th_closed _ _ Hth) in Hxy|]. destruct Hxy as (e & He & Hm & Hy), Hx' as (e' & He' & Hm').
  assert (e = e') as <- by (by eapply Hag). apply (th_closed _ _ Hth' x y). exists e. done.
Qed.

(** An entry that they do not have lies below a tip that they do not have, on a
    path that avoids their tips. *)
Lemma missing_reached tips tips' x :
  (forall t, t ∈ tips <-> tree_tip es tree t) -> (forall t, t ∈ tips' <-> tree_tip es' tree t) ->
  in_history es tree x -> ~ in_history es' tree x ->
  reached_outside es (list_to_set tips') (filter (fun t => t ∉ tips') tips) x.
Proof.
  intros Ht Ht' Hx Hno. assert (forall a, rtc (tree_edge es tree) a x -> in_history es tree a -> a ∉ tips') as Hout.
  { intros a Ha Hin Hat. apply Hno. apply (shared_below a); [done| |done]. apply Ht' in Hat as [? _]. done. }
  split; [rewrite elem_of_list_to_set; by apply Hout|]. destruct Hx as (e & He & Hm).
  destruct (tips_cover _ _ _ _ _ (th_acyclic _ _ Hth) He Hm) as (t & Htip & Hr).
  exists t. split; [apply list_elem_of_filter; split; [|by apply Ht]; apply Hout; [done|apply Htip]|].
  destruct Htip as [Hin _]. clear Hno He Hm. induction Hr as [|a b c Hab Hbc IH]; [apply rtc_refl|].
  eapply rtc_l; [|apply IH; [done|by apply (th_closed _ _ Hth) in Hab]]. destruct Hab as (ea & Hea & Hma & Hb).
  split; [|by exists ea]. rewrite elem_of_list_to_set. apply Hout; [|done].
  eapply rtc_l; [|exact Hbc]. by exists ea.
Qed.

(** The walk stays in the tree. *)
Lemma missing_stays B ids x :
  (forall t, t ∈ ids -> in_history es tree t) -> reached_outside es B ids x -> in_history es tree x.
Proof. intros Hids (_ & q & Hq & Hr). eapply reach_stays; [done| |exact Hr]. by apply Hids. Qed.
End two_replicas.

Lemma find_missing_total map_iter inner es' tree our_tips peer_tips :
  (forall A (m : gmap ID A), map_iter A m ≡ₚ map_to_list m) ->
  mem_inv inner -> tree_history (entries inner) tree -> tree_history es' tree -> agree (entries inner) es' ->
  (forall t, t ∈ our_tips <-> tree_tip (entries inner) tree t) -> (forall t, t ∈ peer_tips <-> tree_tip es' tree t) ->
  exists l, find_missing_entries_for_peer map_iter inner our_tips peer_tips = Some (Ok l)
    /\ NoDup (Entry_id <$> l)
    /\ (forall e, e ∈ l -> entries inner !! Entry_id e = Some e /\ in_tree e tree = true /\ Entry_id e ∉ peer_tips)
    /\ (forall e, entries inner !! Entry_id e = Some e -> in_tree e tree = true ->
          ~ in_history es' tree (Entry_id e) -> e ∈ l).
Proof.
  intros Hmap Hinv Hth Hth' Hag Ht Ht'. unfold find_missing_entries_for_peer.
  set (ids := filter (fun t => t ∉ peer_tips) our_tips).
  assert (forall e, entries inner !! Entry_id e = Some e -> in_tree e tree = true -> ~ in_history es' tree (Entry_id e) ->
    reached_outside (entries inner) (list_to_set peer_tips) ids (Entry_id e)) as Hmiss.
  { intros e He Hm Hno. apply (missing_reached _ es' tree); try done. by exists e. }
  assert (forall x, reached_outside (entries inner) (list_to_set peer_tips) ids x -> in_history (entries inner) tree x) as Hstay.
  { intros x. apply missing_stays; [done|]. intros t [_ [Hin _]%Ht]%list_elem_of_filter. done. }
  destruct (is_nil ids) eqn:Enil.
  { exists []. split; [done|]. split; [constructor|]. split; [set_solver|]. intros e He Hm Hno.
    destruct (Hmiss e He Hm Hno) as (_ & q & Hq & _). destruct ids; [by apply elem_of_nil in Hq|done]. }
  destruct (send_walk inner map_iter ids peer_tips Hmap) as (r & -> & Hr). destruct r as [l|e].
  - destruct Hr as (sent & Hl & Hsent & _). exists l. split; [done|].
    assert (forall e, e ∈ l <-> entries inner !! Entry_id e = Some e
      /\ reached_outside (entries inner) (list_to_set peer_tips) ids (Entry_id e)) as Hel.
    { intros e. rewrite Hl, list_elem_of_fmap. split.
      - intros ([id e'] & -> & Hin%elem_of_map_to_list). apply Hsent in Hin as [Hid Hre]. simpl.
        by rewrite (mi_ids _ Hinv _ _ Hid).
      - intros Hs%Hsent. exists (Entry_id e, e). split; [done|]. by apply elem_of_map_to_list. }
    split; [|split].
    + rewrite Hl, <- list_fmap_compose.
      assert (forall p, p ∈ map_to_list sent -> (Entry_id ∘ snd) p = p.1) as Hfst.
      { intros [id e] Hin%elem_of_map_to_list. apply Hsent in Hin as [Hid _]. by apply (mi_ids _ Hinv). }
      rewrite (list_fmap_ext _ fst); [apply NoDup_fst_map_to_list|].
      intros i p Hp. apply Hfst. by eapply list_elem_of_lookup_2.
    + intros e [He Hre]%Hel. destruct (Hstay _ Hre) as (e' & He' & Hm). assert (e' = e) as -> by congruence.
      split; [done|]. split; [done|]. destruct Hre as [Hni _]. by rewrite elem_of_list_to_set in Hni.
    + intros e He Hm Hno. apply Hel. auto.
  - destruct Hr as (_ & x & Hx & Hnone). apply Hstay in Hx as (e' & He' & _). congruence.
Qed.
End facts.

(** ** Concrete trees *)

#[local] Existing Instance nat_cid.
#[local] Existing Instance byte_crypto.
#[local] Existing Instance demo_codec.

Lemma demo_history : tree_history (entries demo_mem) (demo_id 1).
Proof.
  split; [apply demo_proper|apply demo_acyclic|]. intros x y (e & He & Hm & Hy).
  exists demo_root. split; [|done].
  apply demo_lookup in He as [[_ ->]|[[_ ->]|[_ ->]]]; simpl in Hy; [by apply elem_of_nil in Hy| |];
    by apply list_elem_of_singleton in Hy as ->.
Qed.

Lemma demo_rooted : rooted (entries demo_mem) (demo_id 1).
Proof. by exists demo_root. Qed.

Lemma tree_collections_spec_witness :
  exists l, collect_all_entries_for_bootstrap demo_mem (demo_id 1)
      = Some ((mem_snapshot demo_mem (demo_id 1)).1, Ok l)
    /\ Entry_id <$> l = [demo_id 1; demo_id 3; demo_id 2] /\ l ≡ₚ get_tree demo_mem (demo_id 1).
Proof.
  destruct (tree_collections_spec demo_mem (demo_id 1) demo_mem_inv demo_history demo_rooted) as [(l & E & Hl) _].
  exists l. split; [exact E|]. split; [|exact Hl].
  assert (match collect_all_entries_for_bootstrap demo_mem (demo_id 1) with
    | Some (_, Ok l) => Entry_id <$> l | _ => [] end = [demo_id 1; demo_id 3; demo_id 2]) as Ei
    by (vm_compute; reflexivity).
  rewrite E in Ei. exact Ei.
Defined.

(** A diamond with arms of unequal length: 6 has the parents 4 and 5, 4 has 2,
    5 has 3 and 3 has 2. *)
Definition uneven_mem : InMemoryInner :=
  fold_left storage_put
    [demo_root; demo_node Byte.x02 1 [demo_id 1] []; demo_node Byte.x03 2 [demo_id 2] [];
     demo_node Byte.x04 2 [demo_id 2] []; demo_node Byte.x05 3 [demo_id 3] [];
     demo_node Byte.x06 4 [demo_id 4; demo_id 5] []] InMemory_new.

(** The reversed breadth-first order does not put parents before children: 3 is
    sent before its parent 2. *)
Lemma bootstrap_order_not_topological :
  match collect_all_entries_for_bootstrap uneven_mem (demo_id 1) with
  | Some (_, Ok l) => Entry_id <$> l | _ => [] end
  = [demo_id 1; demo_id 3; demo_id 2; demo_id 5; demo_id 4; demo_id 6]
  /\ Entry_parents (demo_node Byte.x03 2 [demo_id 2] []) = [demo_id 2].
Proof. split; [vm_compute; reflexivity|reflexivity]. Qed.
