(* ===== verification/SyncAuth.v ===== *)
(** * Sync messages and how a request proves its key (sync/protocol.rs, sync/handler.rs)

    The messages of the sync protocol, the signature over a tree request, and the
    handler's check of it: signature, freshness and a table of spent nonces.
    Shown here: no two requests have the same signing bytes, a signed request is
    accepted once, and a captured one is never accepted a second time while the
    clock does not run backwards and the signer does not reuse the nonce. *)

From S2P Require Import Prelude.
From S2P Require Import Path.
From S2P Require Import Position.
From S2P Require Import Ids.
From S2P Require Import Doc.
From S2P Require Import Errors.
From S2P Require Import Crypto.
From S2P Require Import Permission.
From S2P Require Import AuthTypes.
From S2P Require Import AuthSettings.
From S2P Require Import Entry.
From S2P Require Import Backend.
From S2P Require Import SyncWalk.

(** [u64::to_be_bytes]. *)
Definition byte_of (z : Z) : Byte.byte := default Byte.x00 (Byte.of_N (Z.to_N (z mod 256))).
Definition to_be_bytes (n : Z) : Bytes :=
  (fun i => byte_of (Z.shiftr n (8 * i))) <$> [7; 6; 5; 4; 3; 2; 1; 0].

Definition as_bytes (s : string) : Bytes := String.list_byte_of_string s.

(** [u64::abs_diff]. *)
Definition abs_diff (a b : Z) : Z := Z.abs (a - b).

Section protocol.
Context `{CD : CodecSpec}.

Record HandshakeRequest : Type := mkHandshakeRequest {
  hr_device_id : PublicKey;
  hr_public_key : PublicKey;
  hr_display_name : option string;
  hr_protocol_version : Z;
  hr_challenge : Bytes;
  hr_listen_addresses : list Address;
}.

Record HandshakeResponse : Type := mkHandshakeResponse {
  hs_device_id : PublicKey;
  hs_public_key : PublicKey;
  hs_display_name : option string;
  hs_protocol_version : Z;
  hs_challenge_response : Bytes;
  hs_new_challenge : Bytes;
  hs_available_trees : list TreeInfo;
}.

Record SyncRequestAuth : Type := mkSyncRequestAuth {
  sa_key : PublicKey;
  sa_timestamp_ms : Z;
  sa_nonce : Bytes;
  sa_signature : Bytes;
}.

Record SyncTreeRequest : Type := mkSyncTreeRequest {
  sr_tree_id : ID;
  sr_our_tips : Snapshot;
  sr_peer_pubkey : option PublicKey;
  sr_requesting_key : option PublicKey;
  sr_requesting_key_name : option string;
  sr_requested_permission : option Permission;
  sr_metadata : option Doc;
  sr_auth : option SyncRequestAuth;
}.

Record BootstrapResponse : Type := mkBootstrapResponse {
  br_tree_id : ID;
  br_root_entry : Entry;
  br_all_entries : list Entry;
  br_key_approved : bool;
  br_granted_permission : option Permission;
}.

Record IncrementalResponse : Type := mkIncrementalResponse {
  ir_tree_id : ID;
  ir_their_tips : list ID;
  ir_missing_entries : list Entry;
}.

Inductive SyncRequest : Type :=
| ReqHandshake (r : HandshakeRequest)
| ReqSyncTree (r : SyncTreeRequest)
| ReqSendEntries (entries : list Entry).

(** The text of an error response and the message of a pending one are not kept. *)
Inductive SyncResponse : Type :=
| RespHandshake (r : HandshakeResponse)
| RespBootstrap (r : BootstrapResponse)
| RespIncremental (r : IncrementalResponse)
| RespBootstrapPending (request_id : string)
| RespAck
| RespCount (n : nat)
| RespError.

Definition PROTOCOL_VERSION : Z := 0.

Record RequestContext : Type := mkRequestContext {
  rc_remote_address : option Address;
  rc_peer_pubkey : option PublicKey;
}.

(** ** [SyncRequestAuth] *)

Definition SYNC_REQUEST_DOMAIN : Bytes := as_bytes "eidetica/sync/tree-request/v1".

Definition push (field : Bytes) : Bytes := to_be_bytes (Z.of_nat (length field)) ++ field.

Definition SyncRequestAuth_signing_bytes (server_pubkey : PublicKey) (tree_id : ID) (tips : Snapshot)
    (timestamp_ms : Z) (nonce : Bytes) : Bytes :=
  push SYNC_REQUEST_DOMAIN
  ++ push (as_bytes (PublicKey_to_string server_pubkey))
  ++ push (as_bytes (ID_to_string tree_id))
  ++ push (to_be_bytes (Z.of_nat (length (Ids.tips tips))))
  ++ concat ((fun tip => push (as_bytes (ID_to_string tip))) <$> Ids.tips tips)
  ++ push (to_be_bytes timestamp_ms)
  ++ push nonce.

(** [nonce] is what [generate_challenge] draws. *)
Definition SyncRequestAuth_sign (nonce : Bytes) (signing_key : PrivateKey) (server_pubkey : PublicKey)
    (tree_id : ID) (tips : Snapshot) (timestamp_ms : Z) : SyncRequestAuth :=
  let signature := create_challenge_response
    (SyncRequestAuth_signing_bytes server_pubkey tree_id tips timestamp_ms nonce) signing_key in
  mkSyncRequestAuth (public_key signing_key) timestamp_ms nonce signature.

Definition SyncRequestAuth_verify (self : SyncRequestAuth) (server_pubkey : PublicKey) (tree_id : ID)
    (tips : Snapshot) : Result unit AuthError :=
  verify_challenge_response
    (SyncRequestAuth_signing_bytes server_pubkey tree_id tips (sa_timestamp_ms self) (sa_nonce self))
    (sa_signature self) (sa_key self).

(** ** The handler's check *)

Definition MAX_REQUEST_AGE_MS : Z := 60000.

(** The spent nonces; the order of the hash map is never observed. *)
Definition SpentNonces : Type := list ((PublicKey * Bytes) * Z).

Definition spent_lookup (spent : SpentNonces) (k : PublicKey * Bytes) : option Z :=
  snd <$> head (filter (fun p => p.1 = k) spent).

(** [HashMap::insert]: the value is replaced, the old one returned. *)
Definition spent_insert (spent : SpentNonces) (k : PublicKey * Bytes) (v : Z) : SpentNonces * option Z :=
  ((k, v) :: filter (fun p => p.1 <> k) spent, spent_lookup spent k).

Definition spent_retain (now : Z) (spent : SpentNonces) : SpentNonces :=
  filter (fun p => abs_diff now p.2 <= MAX_REQUEST_AGE_MS) spent.

Definition auth_failed {A} (reason : string) : Result A Error := Err (ESync (SyncAuthenticationFailed reason)).

(** [authenticate_request] of the server with key [id] when its clock reads [now]. *)
Definition authenticate_request (id : PublicKey) (now : Z) (spent : SpentNonces) (request : SyncTreeRequest) :
    SpentNonces * Result PublicKey Error :=
  match sr_auth request with
  | None => (spent, Err (ESync (SyncAuthenticationRequired (ID_to_string (sr_tree_id request)))))
  | Some auth =>
      match SyncRequestAuth_verify auth id (sr_tree_id request) (sr_our_tips request) with
      | Err _ => (spent, auth_failed "invalid request signature")
      | Ok _ =>
          if decide (abs_diff now (sa_timestamp_ms auth) > MAX_REQUEST_AGE_MS)
          then (spent, auth_failed "request timestamp outside the freshness window")
          else
            let '(spent, old) := spent_insert (spent_retain now spent) (sa_key auth, sa_nonce auth)
                                   (sa_timestamp_ms auth) in
            (spent, if old then auth_failed "request nonce already spent" else Ok (sa_key auth))
      end
  end.

(** The requests that one handler authenticates, each with the reading of the
    clock, and the answers. *)
Fixpoint authenticate_all (id : PublicKey) (spent : SpentNonces) (reqs : list (Z * SyncTreeRequest)) :
    list (Result PublicKey Error) :=
  match reqs with
  | [] => []
  | (now, r) :: rest =>
      let '(spent, answer) := authenticate_request id now spent r in
      answer :: authenticate_all id spent rest
  end.
End protocol.

(** ** The signing bytes determine the request *)

Definition be_value (bs : Bytes) : Z := fold_left (fun acc b => acc * 256 + Z.of_N (Byte.to_N b)) bs 0.

Lemma byte_of_value z : Z.of_N (Byte.to_N (byte_of z)) = z mod 256.
Proof.
  unfold byte_of. pose proof (Z.mod_pos_bound z 256 ltac:(lia)) as Hb.
  destruct (Byte.of_N (Z.to_N (z mod 256))) as [b|] eqn:Ho.
  - apply Byte.to_of_N in Ho. simpl. rewrite Ho. lia.
  - apply Byte.of_N_None_iff in Ho. lia.
Qed.

Lemma to_be_bytes_value n : is_u64 n = true -> be_value (to_be_bytes n) = n.
Proof.
  ranges. intros [Hl Hu]. unfold to_be_bytes, be_value. cbn [fmap list_fmap fold_left].
  rewrite !byte_of_value, !Z.shiftr_div_pow2 by lia. simpl Z.mul. simpl Z.pow. rewrite Z.div_1_r.
  Z.to_euclidean_division_equations. lia.
Qed.

Lemma to_be_bytes_inj a b : is_u64 a = true -> is_u64 b = true -> to_be_bytes a = to_be_bytes b -> a = b.
Proof. intros Ha Hb He. by rewrite <- (to_be_bytes_value a), <- (to_be_bytes_value b), He. Qed.

Lemma as_bytes_inj s t : as_bytes s = as_bytes t -> s = t.
Proof.
  intros H. rewrite <- (String.string_of_list_byte_of_string s), <- (String.string_of_list_byte_of_string t).
  unfold as_bytes in H. by rewrite H.
Qed.

(** A length that fits the prefix, as every length in memory does. *)
Definition len_ok {A} (l : list A) : Prop := is_u64 (Z.of_nat (length l)) = true.

Section facts.
Context `{CD : CodecSpec}.

Lemma push_inj a b r s : len_ok a -> len_ok b -> push a ++ r = push b ++ s -> a = b /\ r = s.
Proof.
  unfold push. intros Ha Hb. rewrite <- !app_assoc. intros H. apply app_inj_1 in H as [Hl H]; [|done].
  apply to_be_bytes_inj in Hl; [|done..]. apply app_inj_1 in H; [done|lia].
Qed.

Lemma push_all_inj {A} (f : A -> Bytes) (l k : list A) r s :
  (forall x y, f x = f y -> x = y) -> (forall x, x ∈ l -> len_ok (f x)) -> (forall x, x ∈ k -> len_ok (f x)) ->
  length l = length k ->
  concat ((fun x => push (f x)) <$> l) ++ r = concat ((fun x => push (f x)) <$> k) ++ s -> l = k /\ r = s.
Proof.
  intros Hf. revert k. induction l as [|x l IH]; intros [|y k] Hl Hk Hlen; try done.
  rewrite !fmap_cons, !concat_cons, <- !app_assoc. intros [He%Hf H]%push_inj; [|apply Hl; by left|apply Hk; by left].
  apply IH in H as [-> ->]; [by subst| | |simpl in Hlen; lia]; intros z Hz; [apply Hl|apply Hk]; by right.
Qed.

(** What is signed fits its prefixes: the texts and the nonce have a 64-bit
    length, the timestamp is a [u64]. *)
Record signable (server_pubkey : PublicKey) (tree_id : ID) (snap : Snapshot) (timestamp_ms : Z) (nonce : Bytes) :
    Prop := {
  sg_server : len_ok (as_bytes (PublicKey_to_string server_pubkey));
  sg_tree : len_ok (as_bytes (ID_to_string tree_id));
  sg_count : len_ok (tips snap);
  sg_tips t : t ∈ tips snap -> len_ok (as_bytes (ID_to_string t));
  sg_time : is_u64 timestamp_ms = true;
  sg_nonce : len_ok nonce;
}.

(** C26: the bytes that a sync request's signature covers determine the server,
    the tree, the tips, the timestamp and the nonce: a signature made for one
    request covers no other. *)
Theorem signing_bytes_injective pk pk' tree tree' snap snap' ts ts' nonce nonce' :
  signable pk tree snap ts nonce -> signable pk' tree' snap' ts' nonce' ->
  SyncRequestAuth_signing_bytes pk tree snap ts nonce = SyncRequestAuth_signing_bytes pk' tree' snap' ts' nonce' ->
  pk = pk' /\ tree = tree' /\ snap = snap' /\ ts = ts' /\ nonce = nonce'.
Proof.
  intros [H1 H2 H3 H4 H5 H6] [H1' H2' H3' H4' H5' H6']. unfold SyncRequestAuth_signing_bytes.
  intros [_ H]%push_inj; [|done..]. apply push_inj in H as [Hpk H]; [|done..].
  apply push_inj in H as [Htree H]; [|done..]. apply push_inj in H as [Hn H]; [|done..].
  apply to_be_bytes_inj in Hn; [|done..].
  apply (push_all_inj (fun t => as_bytes (ID_to_string t))) in H as [Htips H]; [|..|lia]; [|by intros ?? ?%as_bytes_inj%ID_to_string_inj|done..].
  apply push_inj in H as [Hts H]; [|done..]. apply to_be_bytes_inj in Hts; [|done..].
  rewrite <- (app_nil_r (push nonce)), <- (app_nil_r (push nonce')) in H. apply push_inj in H as [Hnonce _]; [|done..].
  apply as_bytes_inj, PublicKey_to_string_inj in Hpk. apply as_bytes_inj, ID_to_string_inj in Htree.
  destruct snap, snap'. simpl in Htips. by subst.
Qed.

(** A request that is signed as the client signs it passes the signature check. *)
Lemma sign_verifies nonce sk pk tree snap ts :
  SyncRequestAuth_verify (SyncRequestAuth_sign nonce sk pk tree snap ts) pk tree snap = Ok tt.
Proof. apply PublicKey_verify_sign. Qed.

(** ** A signature is accepted once *)

Lemma spent_insert_lookup spent k v : spent_lookup (spent_insert spent k v).1 k = Some v.
Proof. unfold spent_lookup, spent_insert, SpentNonces. cbn [fst]. by rewrite filter_cons_True. Qed.

Lemma spent_insert_other spent k k' v : k <> k' -> spent_lookup (spent_insert spent k v).1 k' = spent_lookup spent k'.
Proof.
  intros Hk. unfold spent_lookup, spent_insert, SpentNonces. cbn [fst]. rewrite filter_cons_False by done. do 2 f_equal.
  rewrite list_filter_filter. apply list_filter_iff. intros [k0 v0]. simpl. split; [tauto|]. intros ->. done.
Qed.

Lemma spent_retain_keeps now spent k v :
  spent_lookup spent k = Some v -> abs_diff now v <= MAX_REQUEST_AGE_MS ->
  spent_lookup (spent_retain now spent) k = Some v.
Proof.
  unfold spent_lookup, spent_retain, SpentNonces. induction spent as [|[k0 v0] spent IH]; [done|].
  intros Hl Hv. destruct (decide (k0 = k)) as [->|Hk].
  - rewrite filter_cons_True in Hl by done. simpl in Hl. injection Hl as ->.
    rewrite (filter_cons_True _ (k, v)) by done. by rewrite filter_cons_True.
  - rewrite filter_cons_False in Hl by done. specialize (IH Hl Hv).
    destruct (decide (abs_diff now v0 <= MAX_REQUEST_AGE_MS)) as [H0|H0].
    + rewrite (filter_cons_True _ (k0, v0)) by done. by rewrite filter_cons_False.
    + by rewrite (filter_cons_False _ (k0, v0)).
Qed.

(** The nonce [k] was spent by a request of time [ts]: it is in the table, or the
    clock has left the window of [ts] for good. *)
Definition marked (k : PublicKey * Bytes) (ts now : Z) (spent : SpentNonces) : Prop :=
  ts <= now + MAX_REQUEST_AGE_MS /\ (spent_lookup spent k = Some ts \/ now > ts + MAX_REQUEST_AGE_MS).

(** The request carries a signature that verifies. *)
Definition proves (id : PublicKey) (r : SyncTreeRequest) (a : SyncRequestAuth) : Prop :=
  sr_auth r = Some a /\ SyncRequestAuth_verify a id (sr_tree_id r) (sr_our_tips r) = Ok tt.

Lemma authenticate_cases id now spent r :
  ((authenticate_request id now spent r).1 = spent /\ exists e, (authenticate_request id now spent r).2 = Err e)
  \/ exists a, proves id r a /\ abs_diff now (sa_timestamp_ms a) <= MAX_REQUEST_AGE_MS
       /\ (authenticate_request id now spent r).1
          = (spent_insert (spent_retain now spent) (sa_key a, sa_nonce a) (sa_timestamp_ms a)).1
       /\ (authenticate_request id now spent r).2
          = if spent_lookup (spent_retain now spent) (sa_key a, sa_nonce a)
            then auth_failed "request nonce already spent" else Ok (sa_key a).
Proof.
  unfold authenticate_request. destruct (sr_auth r) as [a|] eqn:Ea; [|left; eauto].
  destruct (SyncRequestAuth_verify a _ _ _) as [[]|] eqn:Ev; [|left; unfold auth_failed; eauto].
  case_decide; [left; unfold auth_failed; eauto|]. right. exists a. split; [done|]. split; [lia|]. done.
Qed.

Lemma marked_step id k ts now now' spent r :
  marked k ts now spent -> now <= now' ->
  (forall a, proves id r a -> (sa_key a, sa_nonce a) = k -> sa_timestamp_ms a = ts) ->
  marked k ts now' (authenticate_request id now' spent r).1.
Proof.
  intros [Hts Hm] Hle Hr. split; [lia|].
  destruct (authenticate_cases id now' spent r) as [[-> _]|(a & Ha & Hfresh & -> & _)]; [destruct Hm; [by left|right; lia]|].
  destruct (decide ((sa_key a, sa_nonce a) = k)) as [Hk|Hk].
  - left. rewrite Hk, spent_insert_lookup. f_equal. auto.
  - rewrite spent_insert_other by done. destruct Hm as [Hm|]; [|right; lia].
    destruct (decide (abs_diff now' ts <= MAX_REQUEST_AGE_MS)) as [Hw|Hw]; [left; by apply spent_retain_keeps|].
    right. unfold abs_diff in Hw. lia.
Qed.

Lemma marked_rejects id k ts now now' spent r a :
  marked k ts now spent -> now <= now' -> sr_auth r = Some a -> (sa_key a, sa_nonce a) = k ->
  (forall b, proves id r b -> (sa_key b, sa_nonce b) = k -> sa_timestamp_ms b = ts) ->
  exists e, (authenticate_request id now' spent r).2 = Err e.
Proof.
  intros [Hts Hm] Hle Ha Hk Hr. destruct (authenticate_cases id now' spent r) as [[_ ?]|(b & Hb & Hfresh & _ & ->)]; [done|].
  assert (b = a) as -> by (destruct Hb; congruence). rewrite (Hr a Hb Hk) in Hfresh.
  destruct Hm as [Hm|Hm]; [|unfold abs_diff in Hfresh; lia].
  rewrite Hk, (spent_retain_keeps now' _ _ ts Hm Hfresh). unfold auth_failed. eauto.
Qed.

Lemma accepted_marks id now spent r a key :
  sr_auth r = Some a -> (authenticate_request id now spent r).2 = Ok key ->
  key = sa_key a /\ proves id r a
  /\ marked (sa_key a, sa_nonce a) (sa_timestamp_ms a) now (authenticate_request id now spent r).1.
Proof.
  intros Ha. destruct (authenticate_cases id now spent r) as [[_ [e ->]]|(b & Hb & Hfresh & -> & ->)]; [done|].
  assert (b = a) as -> by (destruct Hb; congruence). destruct (spent_lookup _ _); [done|]. intros [= <-].
  split; [done|]. split; [done|]. split; [unfold abs_diff in Hfresh; lia|]. left. apply spent_insert_lookup.
Qed.

(** The clock does not run backwards. *)
Definition clock_monotone (reqs : list (Z * SyncTreeRequest)) : Prop :=
  forall i j p q, (i < j)%nat -> reqs !! i = Some p -> reqs !! j = Some q -> p.1 <= q.1.

(** The signer of [k] used the nonce for one timestamp only. *)
Definition nonce_used_once (id : PublicKey) (k : PublicKey * Bytes) (ts : Z) (reqs : list (Z * SyncTreeRequest)) : Prop :=
  forall p a, p ∈ reqs -> proves id p.2 a -> (sa_key a, sa_nonce a) = k -> sa_timestamp_ms a = ts.

Lemma authenticate_all_cons id spent now r reqs :
  authenticate_all id spent ((now, r) :: reqs)
  = (authenticate_request id now spent r).2 :: authenticate_all id (authenticate_request id now spent r).1 reqs.
Proof. simpl. by destruct (authenticate_request id now spent r). Qed.

Lemma clock_monotone_tail p reqs :
  clock_monotone (p :: reqs) -> clock_monotone reqs /\ forall q, q ∈ reqs -> p.1 <= q.1.
Proof.
  intros H. split.
  - intros i j a b Hij Ha Hb. apply (H (S i) (S j)); [lia|done..].
  - intros q [j Hj]%list_elem_of_lookup. apply (H 0%nat (S j)); [lia|done..].
Qed.

Lemma marked_trace id k ts reqs : forall now spent j nj r a,
  marked k ts now spent -> clock_monotone reqs -> (forall q, q ∈ reqs -> now <= q.1) ->
  nonce_used_once id k ts reqs -> reqs !! j = Some (nj, r) -> sr_auth r = Some a -> (sa_key a, sa_nonce a) = k ->
  exists e, authenticate_all id spent reqs !! j = Some (Err e).
Proof.
  induction reqs as [|[n0 r0] reqs IH]; intros now spent j nj r a Hm Hc Hnow Hn Hj Ha Hk; [done|].
  rewrite authenticate_all_cons. apply clock_monotone_tail in Hc as [Hc Hle].
  assert (now <= n0) as H0 by (apply (Hnow (n0, r0)); by left).
  assert (forall b, proves id r0 b -> (sa_key b, sa_nonce b) = k -> sa_timestamp_ms b = ts) as Hr0.
  { intros b. apply (Hn (n0, r0)). by left. }
  destruct j as [|j]; simpl in Hj |- *.
  - injection Hj as -> ->. destruct (marked_rejects id k ts now nj spent r a) as [e ->]; eauto.
  - eapply IH; [|done|exact Hle| |done..]; [by eapply marked_step|]. intros p b Hp. apply Hn. by right.
Qed.

(** C25: while the clock does not run backwards and the signer keeps one timestamp
    per nonce, a request whose signature was accepted is never accepted again:
    of two requests with the same key and nonce the later one is refused.  The
    key that is returned is the one that the signature verifies under. *)
Theorem replay_refused id spent reqs i j ni nj r r' a a' key :
  clock_monotone reqs -> (i < j)%nat -> reqs !! i = Some (ni, r) -> reqs !! j = Some (nj, r') ->
  sr_auth r = Some a -> sr_auth r' = Some a' -> sa_key a' = sa_key a -> sa_nonce a' = sa_nonce a ->
  nonce_used_once id (sa_key a, sa_nonce a) (sa_timestamp_ms a) reqs ->
  authenticate_all id spent reqs !! i = Some (Ok key) ->
  key = sa_key a /\ proves id r a /\ exists e, authenticate_all id spent reqs !! j = Some (Err e).
Proof.
  revert spent i j. induction reqs as [|[n0 r0] reqs IH]; intros spent i j Hc Hij Hi Hj Ha Ha' Hkey Hnonce Hn; [done|].
  apply clock_monotone_tail in Hc as [Hc Hle]. destruct j as [|j]; [lia|]. rewrite authenticate_all_cons.
  assert (nonce_used_once id (sa_key a, sa_nonce a) (sa_timestamp_ms a) reqs) as Hn'.
  { intros p b Hp. apply Hn. by right. }
  destruct i as [|i]; simpl in Hi, Hj |- *; [|apply IH; [done|lia|done..]].
  injection Hi as -> ->. intros [= Hok]. apply (accepted_marks _ _ _ _ a) in Hok as (-> & Hp & Hm); [|done].
  split; [done|]. split; [done|].
  eapply (marked_trace id _ _ reqs ni _ j nj r' a'); [exact Hm|done|exact Hle|done..|congruence].
Qed.
End facts.

(** ** Concrete requests *)

#[local] Existing Instance nat_cid.
#[local] Existing Instance byte_crypto.
#[local] Existing Instance demo_codec.

Definition demo_server : PublicKey := Ed25519 Byte.x07.
Definition demo_client : PrivateKey := Ed25519Private Byte.x05.
Definition demo_nonce : Bytes := [Byte.x01; Byte.x02].

(** The client's request for the demo tree, signed at time [ts]. *)
Definition demo_request (ts : Z) : SyncTreeRequest :=
  let snap := Snapshot_new [demo_id 2] in
  mkSyncTreeRequest (demo_id 1) snap None None None None None
    (Some (SyncRequestAuth_sign demo_nonce demo_client demo_server (demo_id 1) snap ts)).

Lemma signing_bytes_injective_witness :
  SyncRequestAuth_signing_bytes demo_server (demo_id 1) (Snapshot_new [demo_id 2]) 1000 demo_nonce
  <> SyncRequestAuth_signing_bytes demo_server (demo_id 1) (Snapshot_new [demo_id 3]) 1000 demo_nonce.
Proof.
  assert (forall i, (i < 9)%nat -> signable demo_server (demo_id 1) (Snapshot_new [demo_id i]) 1000 demo_nonce) as Hs.
  { intros i Hi. split; try reflexivity. intros t Ht. apply list_elem_of_singleton in Ht as ->.
    do 9 (destruct i as [|i]; [reflexivity|]). lia. }
  intros H. apply signing_bytes_injective in H; [|apply Hs; lia..]. destruct H as (_ & _ & H & _). done.
Defined.

Lemma replay_refused_witness :
  let reqs := [(1000, demo_request 900); (2000, demo_request 900)] in
  authenticate_all demo_server [] reqs !! 0%nat = Some (Ok (public_key demo_client))
  /\ exists e, authenticate_all demo_server [] reqs !! 1%nat = Some (Err e).
Proof.
  intros reqs. assert (authenticate_all demo_server [] reqs !! 0%nat = Some (Ok (public_key demo_client))) as E by reflexivity.
  split; [exact E|].
  set (a := SyncRequestAuth_sign demo_nonce demo_client demo_server (demo_id 1) (Snapshot_new [demo_id 2]) 900).
  destruct (replay_refused demo_server [] reqs 0 1 1000 2000 (demo_request 900) (demo_request 900) a a
    (public_key demo_client)) as (_ & _ & He); [|lia|reflexivity..| |exact E|exact He].
  - intros i j p q Hij Hp Hq. destruct i as [|[|i]], j as [|[|j]]; try lia; try done.
    simpl in Hp, Hq. injection Hp as <-. injection Hq as <-. simpl. lia.
  - intros p b Hp [Ha _] _. assert (p.2 = demo_request 900) as Hr by set_solver. rewrite Hr in Ha. by injection Ha as <-.
Defined.

(** Without the second condition it fails.  The signer sends the nonce again with
    an older timestamp: the request is refused, but its timestamp replaces the
    one in the table, which is dropped too early, and the first request is
    accepted again. *)
Lemma refused_request_reopens_nonce :
  authenticate_all demo_server []
    [(0, demo_request 60000); (60000, demo_request 0); (60001, demo_request 60000)]
  = [Ok (public_key demo_client); auth_failed "request nonce already spent"; Ok (public_key demo_client)].
Proof. reflexivity. Qed.
