(* ===== verification/Table.v ===== *)
(** * Tables (store/table.rs)

    A store of records under generated keys: a document that maps each key to the
    JSON text of its record.  Shown here: what is written is read back, a deleted
    record is gone for every reader, and a search returns the matching records of
    the merged state. *)

From S2P Require Import Prelude.
From S2P Require Import Path.
From S2P Require Import Position.
From S2P Require Import Ids.
From S2P Require Import Doc.
From S2P Require Import DocPath.
From S2P Require Import DocMerge.
From S2P Require Import Errors.
From S2P Require Import Crypto.
From S2P Require Import Permission.
From S2P Require Import AuthTypes.
From S2P Require Import AuthSettings.
From S2P Require Import Entry.
From S2P Require Import Backend.
From S2P Require Import Traversal.
From S2P Require Import CrdtCache.
From S2P Require Import Reachability.
From S2P Require Import Validation.
From S2P Require Import BackendSteps.
From S2P Require Import Verify.
From S2P Require Import WireCodec.
From S2P Require Import Transaction.
From S2P Require Import Stores.

(** [serde_json] at a record type. *)
Class RowCodec (T : Type) := {
  row_to_json : T -> option string;
  row_of_json : string -> option T;
  row_of_to_json x j : row_to_json x = Some j -> row_of_json j = Some x;
}.

Section table.
Context `{CD : CodecSpec} `{JS : !JsonSpec} `{LS : !LruSpec CacheKey (list Byte.byte)}.
Context (iter : gset ID -> list ID) (blake3_raw_cid : string -> Cid) (root : ID).
(** The order of iteration of a document's hash map. *)
Context (doc_iter : gmap string Value -> list (string * Value)).
Context {T : Type} `{RC : !RowCodec T}.

Definition Table_type : StoreType := mkStoreType "table:v0" (String.eqb "table:v0") Doc_new.

Definition parse_row (name value : string) : Result T Error :=
  ok_or (row_of_json value) (EStore (StoreDeserializationFailed name)).

Definition serialize_row (name : string) (row : T) : Result string Error :=
  ok_or (row_to_json row) (EStore (StoreSerializationFailed name)).

(** The row in the merged history. *)
Definition committed_row (name key : string) : Tx T :=
  do data <- get_full_state iter blake3_raw_cid root name;
  tx_lift (match v ← Doc_get data key; as_text v with
           | Some value => parse_row name value
           | None => key_not_found name key
           end).

Definition Table_get (name key : string) : Tx T :=
  do local <- local_data name;
  match local with
  | Some data =>
      if is_tombstone data key then tx_lift (key_not_found name key)
      else match v ← Doc_get data key; as_text v with
           | Some value => tx_lift (parse_row name value)
           | None => committed_row name key
           end
  | None => committed_row name key
  end.

Definition Table_set (name key : string) (row : T) : Tx unit :=
  do local <- local_data name;
  do serialized_row <- tx_lift (serialize_row name row);
  stage root name (Doc_set (default Doc_new local) key (Text serialized_row)).1.

(** [uuid] is the key that [Uuid::new_v4] generates. *)
Definition Table_insert (uuid name : string) (row : T) : Tx string :=
  do _ <- Table_set name uuid row;
  tx_ret uuid.

Definition Table_delete (name key : string) : Tx bool :=
  do found <- tx_try (Table_get name key);
  if negb (is_ok found) then tx_ret false
  else
    do local <- local_data name;
    do _ <- stage root name (Doc_remove (default Doc_new local) key).1;
    tx_ret true.

(** The loop of [search] over the entries with a text. *)
Fixpoint search_rows (name : string) (query : T -> bool) (l : list (string * Value)) :
    Result (list (string * T)) Error :=
  match l with
  | [] => Ok []
  | (key, map_value) :: rest =>
      match as_text map_value with
      | None => search_rows name query rest
      | Some value =>
          let? row := parse_row name value in
          let? found := search_rows name query rest in
          Ok (if query row then (key, row) :: found else found)
      end
  end.

Definition Table_search (name : string) (query : T -> bool) : Tx (list (string * T)) :=
  do data <- DocStore_get_all iter blake3_raw_cid root name;
  tx_lift (search_rows name query (doc_iter (Doc_iter data))).
End table.

(** ** What the operations do *)

Section table_facts.
Context `{CD : CodecSpec} `{JS : !JsonSpec} `{LS : !LruSpec CacheKey (list Byte.byte)}.
Context (iter : gset ID -> list ID) (blake3_raw_cid : string -> Cid) (root : ID).
Context (doc_iter : gmap string Value -> list (string * Value)).
Context {T : Type} `{RC : !RowCodec T}.

(** What the store holds for a key in the staged document. *)
Lemma get_of_set d key v :
  segments_of key <> [] -> get_raw (Doc_set d key v).1 key = Some v.
Proof. intros Hk. by rewrite get_raw_segments, Doc_set_segments, raw_at_set. Qed.

(** A search fails on the first row that does not parse, and else returns the
    rows that satisfy the query. *)
Lemma search_rows_spec name (query : T -> bool) l :
  match search_rows name query l with
  | Ok found => forall key row, (key, row) ∈ found <->
      query row = true /\ exists j, (key, Text j) ∈ l /\ row_of_json j = Some row
  | Err e => e = EStore (StoreDeserializationFailed name)
      /\ exists key j, (key, Text j) ∈ l /\ row_of_json (T := T) j = None
  end.
Proof.
  induction l as [|[k v] l IH]; simpl; [intros key row; set_solver|].
  destruct (as_text v) as [j|] eqn:Ev.
  - assert (v = Text j) as -> by (destruct v; naive_solver). unfold parse_row.
    destruct (row_of_json j) as [r|] eqn:Ej; simpl; [|by split; [|exists k, j; split; [left|]]].
    destruct (search_rows name query l) as [found|e]; simpl.
    2: { destruct IH as (-> & key & j' & Hin & Hj). split; [done|]. exists key, j'. split; [by right|done]. }
    intros key row. assert ((key, row) ∈ (if query r then (k, r) :: found else found)
      <-> (query row = true /\ key = k /\ row = r) \/ (key, row) ∈ found) as ->.
    { destruct (query r) eqn:Eq; [rewrite elem_of_cons|].
      - split; (intros [H|H]; [left|by right]); [by injection H as -> ->|by destruct H as (_ & -> & ->)].
      - split; [by right|]. intros [(Hq & _ & ->)|H]; [congruence|done]. }
    rewrite IH. setoid_rewrite elem_of_cons. split.
    + intros [(Hq & -> & ->)|(Hq & j' & Hin & Hj)]; [by split; [|exists j; split; [left|]]|].
      split; [done|]. exists j'. split; [by right|done].
    + intros (Hq & j' & [[= -> ->]|Hin] & Hj); [left; naive_solver|right; eauto].
  - assert (forall key j, (key, Text j) ∈ (k, v) :: l <-> (key, Text j) ∈ l) as Hc.
    { intros key j. rewrite elem_of_cons. split; [|by right]. intros [[= -> <-]|]; [done|done]. }
    destruct (search_rows name query l); setoid_rewrite Hc; exact IH.
Qed.

(** What a write of [v] under [key] stages, and what a read of the key then finds
    in the staged document. *)
Lemma stage_key name key v s b local :
  let d := (Doc_set (default Doc_new local) key v).1 in
  entry_builder s = Some b -> staged b name = Ok local -> segments_of key <> [] ->
  json_to_doc (doc_to_json d) = Some d -> doc_to_json d <> [] ->
  exists s' b', stage root name d s = Some (Done (s', Ok tt)) /\ entry_builder s' = Some b'
    /\ staged b' name = Ok (Some d) /\ get_raw d key = Some v
    /\ entries (mem_inner (tx_mem s')) = entries (mem_inner (tx_mem s)).
Proof.
  cbn zeta. intros Hb Hl Hk Hj Hne.
  destruct (stage_eq root name (Doc_set (default Doc_new local) key v).1 s b Hb Hj Hne)
    as (s' & b' & Hrun & Hb' & Hst & _ & _ & He & _).
  exists s', b'. do 3 (split; [done|]). split; [by apply get_of_set|done].
Qed.

(** What a transaction does to a table is what it reads back: after
    [Table::set] (or [insert], under the generated key) [get] returns the row,
    and after [Table::delete] has returned true, [get] finds no record, although
    the merged history may still have one.  Nothing of the backend changes. *)
Theorem table_read_your_writes name key row j s b local :
  let put := (Doc_set (default Doc_new local) key (Text j)).1 in
  let gone := (Doc_remove (default Doc_new local) key).1 in
  entry_builder s = Some b -> staged b name = Ok local -> segments_of key <> [] ->
  row_to_json row = Some j ->
  json_to_doc (doc_to_json put) = Some put -> doc_to_json put <> [] ->
  json_to_doc (doc_to_json gone) = Some gone -> doc_to_json gone <> [] ->
  (exists s', Table_insert root key name row s = Some (Done (s', Ok key))
     /\ Table_set root name key row s = Some (Done (s', Ok tt))
     /\ Table_get iter blake3_raw_cid root name key s' = Some (Done (s', Ok row))
     /\ entries (mem_inner (tx_mem s')) = entries (mem_inner (tx_mem s)))
  /\ forall s' found, Table_get (T := T) iter blake3_raw_cid root name key s = Some (Done (s', found)) ->
     entry_builder s' = Some b ->
     match found with
     | Err _ => Table_delete (T := T) iter blake3_raw_cid root name key s = Some (Done (s', Ok false))
     | Ok _ => exists s1, Table_delete (T := T) iter blake3_raw_cid root name key s = Some (Done (s1, Ok true))
         /\ Table_get (T := T) iter blake3_raw_cid root name key s1 = Some (Done (s1, key_not_found name key))
         /\ entries (mem_inner (tx_mem s1)) = entries (mem_inner (tx_mem s'))
     end.
Proof.
  cbn zeta. intros Hb Hl Hk Hrow Hj Hne Hj' Hne'. split.
  - destruct (stage_key name key (Text j) s b local Hb Hl Hk Hj Hne) as (s' & b' & Hrun & Hb' & Hst & Hraw & He).
    assert (Table_set root name key row s = Some (Done (s', Ok tt))) as Hset.
    { unfold Table_set, tx_bind, serialize_row. by rewrite (local_data_eq name s b), Hl, Hrow. }
    exists s'. split; [unfold Table_insert, tx_bind; by rewrite Hset|]. split; [done|]. split; [|done].
    unfold Table_get, tx_bind. rewrite (local_data_eq name s' b'), Hst by done. unfold is_tombstone, Doc_get.
    rewrite Hraw. cbn. unfold parse_row. by rewrite (row_of_to_json row j).
  - intros s' found Hget Hb'. unfold Table_delete, tx_bind, tx_try. rewrite Hget.
    destruct found as [r|e]; [|done]. cbn [is_ok negb].
    destruct (stage_key name key Deleted s' b local Hb' Hl Hk Hj' Hne') as (s1 & b1 & Hrun & Hb1 & Hst & Hraw & He).
    rewrite (local_data_eq name s' b), Hl by done. unfold Doc_remove. rewrite Hrun. exists s1. split; [done|]. split; [|done].
    unfold Table_get, tx_bind. rewrite (local_data_eq name s1 b1), Hst by done. unfold is_tombstone.
    by rewrite Hraw.
Qed.
End table_facts.

(** ** A concrete table *)

(** Records that are their own JSON text. *)
#[export] Instance text_row : RowCodec string.
Proof. refine {| row_to_json s := Some s; row_of_json s := Some s |}. by intros x j [= ->]. Defined.

#[local] Existing Instance nat_cid.
#[local] Existing Instance byte_crypto.
#[local] Existing Instance list_lru.
#[local] Existing Instance wire_codec.
#[local] Existing Instance wire_json.

Definition table_tx : TxState :=
  mkTxState (mkInMemory InMemory_new InMemoryCrdtCache_new) (Some (EntryBuilder_new (demo_id 1))) ∅ false.

Lemma table_read_your_writes_witness :
  exists s', Table_set (demo_id 1) "rows" "k1" "first" table_tx = Some (Done (s', Ok tt))
    /\ Table_get elements no_hash (demo_id 1) "rows" "k1" s' = Some (Done (s', Ok "first")).
Proof.
  destruct (table_read_your_writes elements no_hash (demo_id 1) "rows" "k1" "first" "first" table_tx
    (EntryBuilder_new (demo_id 1)) None) as [(s' & _ & Hset & Hget & _) _];
    [reflexivity..|discriminate|reflexivity|vm_compute; reflexivity|discriminate|vm_compute; reflexivity|discriminate|].
  exists s'. split; [exact Hset|exact Hget].
Defined.

(** A key with a dot is a path: [get] finds the record, [search] does not. *)
Lemma search_misses_dotted_key :
  match Table_set (demo_id 1) "rows" "a.b" "first" table_tx with
  | Some (Done (s, _)) =>
      match Table_get (T := string) elements no_hash (demo_id 1) "rows" "a.b" s,
            Table_search (T := string) elements no_hash (demo_id 1) map_to_list "rows" (fun _ => true) s with
      | Some (Done (_, row)), Some (Done (_, found)) => row = Ok "first" /\ found = Ok []
      | _, _ => False
      end
  | _ => False
  end.
Proof. vm_compute. split; reflexivity. Qed.
