(* ===== verification/Node.v ===== *)
(** * Databases on a running instance (database/mod.rs)

    The operations that open databases, run transactions on them and decide who
    may access them, composed as callers compose them: on the state of the whole
    instance, where several databases and several open transactions share one
    backend.  Shown here: every composition of these operations ends, keeps the
    backend's invariant and loses no entry; and [can_access] grants access only
    on an authority that the settings name. *)

From S2P Require Import Prelude.
From S2P Require Import Path.
From S2P Require Import Position.
From S2P Require Import Ids.
From S2P Require Import Doc.
From S2P Require Import Errors.
From S2P Require Import Crypto.
From S2P Require Import Permission.
From S2P Require Import AuthTypes.
From S2P Require Import AuthSettings.
From S2P Require Import Entry.
From S2P Require Import Backend.
From S2P Require Import Traversal.
From S2P Require Import CrdtCache.
From S2P Require Import BackendSteps.
From S2P Require Import Reachability.
From S2P Require Import Validation.
From S2P Require Import Verify.
From S2P Require Import InstanceOps.
From S2P Require Import WireCodec.
From S2P Require Import Transaction.
From S2P Require Import Stores.
From S2P Require Import Commit.
From S2P Require Import TxFrame.
From S2P Require Import CommitSpec.
From S2P Require Import Lifecycle.
From S2P Require Import Settings.

Section node.
Context `{IS : InstanceSpec} `{JS : !JsonSpec} `{LS : !LruSpec CacheKey (list Byte.byte)}.

(** The instance, its cache of store states, the callbacks that were invoked, and
    the number of readings taken from the clock and the random source. *)
Record Node : Type := mkNode {
  n_inst : InstanceState;
  n_cache : InMemoryCrdtCache;
  n_events : list Delivery;
  n_tick : nat;
}.

Definition node_engine (n : Node) : InMemoryInner := engine (n_inst n).
Definition node_mem (n : Node) : InMemory := mkInMemory (node_engine n) (n_cache n).

Definition with_node_mem (n : Node) (m : InMemory) : Node :=
  mkNode (with_engine (n_inst n) (mem_inner m)) (crdt_cache m) (n_events n) (n_tick n).

Definition Nm (A : Type) : Type := Node -> option (Outcome (Node * Result A Error)).

Definition nm_ret {A} (a : A) : Nm A := fun n => Some (Done (n, Ok a)).

Definition nm_lift {A} (r : Result A Error) : Nm A := fun n => Some (Done (n, r)).

Definition nm_bind {A B} (m : Nm A) (k : A -> Nm B) : Nm B := fun n =>
  match m n with
  | None => None
  | Some Panic => Some Panic
  | Some (Done (n, Err e)) => Some (Done (n, Err e))
  | Some (Done (n, Ok a)) => k a n
  end.

(** The result of a computation whose error the caller looks at. *)
Definition nm_try {A} (m : Nm A) : Nm (Result A Error) := fun n =>
  match m n with
  | None => None
  | Some Panic => Some Panic
  | Some (Done (n, r)) => Some (Done (n, Ok r))
  end.

(** A read of the backend. *)
Definition nm_read {A} (f : InMemoryInner -> option (Result A Error)) : Nm A := fun n =>
  r ← f (node_engine n); Some (Done (n, r)).

(** A call of the backend that may fill its caches. *)
Definition nm_engine {A} (f : InMemoryInner -> option (InMemoryInner * Result A Error)) : Nm A := fun n =>
  p ← f (node_engine n); Some (Done (with_node_mem n (mkInMemory p.1 (n_cache n)), p.2)).

(** A call of the instance. *)
Definition nm_instance {A}
    (f : InstanceState -> option (Outcome (InstanceState * list Delivery * Result A Error))) : Nm A := fun n =>
  match f (n_inst n) with
  | None => None
  | Some Panic => Some Panic
  | Some (Done (inst, ds, r)) => Some (Done (mkNode inst (n_cache n) (n_events n ++ ds) (n_tick n), r))
  end.

(** The next reading of the clock or of the random source. *)
Definition tick : Nm nat := fun n =>
  Some (Done (mkNode (n_inst n) (n_cache n) (n_events n) (S (n_tick n)), Ok (n_tick n))).
End node.

Notation "'step' x <- m ; k" := (nm_bind m (fun x => k))
  (at level 200, x pattern, m at level 100, k at level 200) : eidetica_scope.

(** ** Handles *)

Section databases.
Context `{IS : InstanceSpec} `{JS : !JsonSpec} `{LS : !LruSpec CacheKey (list Byte.byte)}.
Context (iter : gset ID -> list ID) (map_iter : forall A : Type, gmap ID A -> list (ID * A)).
Context (key_iter : gset string -> list string) (blake3_raw_cid : string -> Cid).
Context (strategy_of_json : string -> option HeightStrategy) (strategy_to_json : HeightStrategy -> string).
(** The clock, by reading. *)
Context (now_millis : nat -> option string -> Z).

Record DatabaseKey : Type := mkDatabaseKey {
  dk_signing_key : PrivateKey;
  dk_identity : SigKey;
}.

Definition DatabaseKey_new (signing_key : PrivateKey) : DatabaseKey :=
  mkDatabaseKey signing_key (SigKey_from_pubkey (public_key signing_key)).

Definition DatabaseKey_with_identity (signing_key : PrivateKey) (identity : SigKey) : DatabaseKey :=
  mkDatabaseKey signing_key identity.

Definition DatabaseKey_global (signing_key : PrivateKey) : DatabaseKey :=
  mkDatabaseKey signing_key (SigKey_global (public_key signing_key)).

Definition DatabaseKey_with_name (signing_key : PrivateKey) (name : string) : DatabaseKey :=
  mkDatabaseKey signing_key (SigKey_from_name name).

Definition DatabaseKey_public_key (k : DatabaseKey) : PublicKey := public_key (dk_signing_key k).

(** A [Database], on the one local instance. *)
Record DbHandle : Type := mkDbHandle {
  db_root : ID;
  db_key : option DatabaseKey;
  db_allow_unverified : bool;
}.

Definition db_open (root_id : ID) : Nm DbHandle :=
  step root <- nm_read (fun inner => Some (open_database inner root_id));
  nm_ret (mkDbHandle root None false).

Definition db_with_key (db : DbHandle) (key : DatabaseKey) : DbHandle :=
  mkDbHandle (db_root db) (Some key) (db_allow_unverified db).

Definition db_view_unverified (db : DbHandle) : DbHandle := mkDbHandle (db_root db) (db_key db) true.

(** ** Transactions *)

Definition db_new_transaction (db : DbHandle) : Nm TxState := fun n =>
  nm_instance (fun inst =>
    Database_new_transaction map_iter (db_root db) (db_allow_unverified db) false inst (n_cache n)) n.

(** Operations of an open transaction, on the backend as it is now. *)
Definition in_tx {A} (txn : TxState) (m : Tx A) : Nm (TxState * A) := fun n =>
  match m (with_mem txn (node_mem n)) with
  | None => None
  | Some Panic => Some Panic
  | Some (Done (s, r)) => Some (Done (with_node_mem n (tx_mem s), let? a := r in Ok (s, a)))
  end.

Definition db_commit (db : DbHandle) (txn : TxState) : Nm ID :=
  step now <- tick;
  fun n =>
  match commit iter map_iter key_iter blake3_raw_cid strategy_of_json (now_millis now) (db_root db)
          ((fun k => (dk_signing_key k, dk_identity k)) <$> db_key db) (db_allow_unverified db) false
          (mkCommitState (with_mem txn (node_mem n)) (n_inst n) (n_events n)) with
  | None => None
  | Some Panic => Some Panic
  | Some (Done (c, r)) =>
      Some (Done (mkNode (with_engine (c_inst c) (c_engine c)) (crdt_cache (tx_mem (c_tx c))) (c_events c) (n_tick n), r))
  end.

(** A transaction that only reads; it is dropped. *)
Definition db_view {A} (db : DbHandle) (m : Tx A) : Nm A :=
  step txn <- db_new_transaction db;
  step r <- in_tx txn m;
  nm_ret r.2.

Definition with_transaction {A} (db : DbHandle) (f : Tx A) : Nm A :=
  step txn <- db_new_transaction db;
  step (txn, result) <- in_tx txn f;
  step _ <- db_commit db txn;
  nm_ret result.

(** ** Access *)

Definition db_auth_settings (db : DbHandle) : Nm AuthSettings :=
  db_view db (settings_auth_snapshot iter blake3_raw_cid (db_root db)).

Definition validate_key (db : DbHandle) (key : DatabaseKey) : Nm Permission :=
  step auth_settings <- db_auth_settings db;
  nm_read (fun inner =>
    let instance := match dk_identity key with Delegation _ _ => Some inner | Direct _ => None end in
    resolve_identity_permission (DatabaseKey_public_key key) (dk_identity key) auth_settings instance).

Definition current_permission (db : DbHandle) : Nm Permission :=
  match db_key db with
  | None => nm_lift (Err (EAuth InvalidAuthConfiguration))
  | Some key => validate_key db key
  end.

(** The hints under which a delegated tree lists the key. *)
Fixpoint resolve_hints (auth_settings : AuthSettings) (tree : ID) (tips : list ID) (pubkey : PublicKey)
    (sigkeys : list (SigKey * Permission)) : Nm (list (SigKey * Permission)) :=
  match sigkeys with
  | [] => nm_ret []
  | (delegated_sk, _) :: rest =>
      let sigkey := Delegation [mkDelegationStep tree tips] (SigKey_hint delegated_sk) in
      step resolved <- nm_try (nm_read (fun inner => resolve_sig_key sigkey auth_settings (Some inner)));
      step found <- resolve_hints auth_settings tree tips pubkey rest;
      nm_ret (match resolved with
              | Ok candidates => match select_effective_permission candidates pubkey with
                                 | Some perm => (sigkey, perm) :: found
                                 | None => found
                                 end
              | Err _ => found
              end)
  end.

(** The loop over the delegated trees; a tree that cannot be read is skipped. *)
Fixpoint scan_delegations (auth_settings : AuthSettings) (pubkey : PublicKey) (trees : list ID) :
    Nm (list (SigKey * Permission)) :=
  match trees with
  | [] => nm_ret []
  | tree :: rest =>
      step delegated_auth <- nm_try (step db <- db_open tree; db_auth_settings db);
      step here <- match delegated_auth with
                   | Err _ => nm_ret []
                   | Ok delegated_auth =>
                       let delegated_sigkeys := find_all_sigkeys_for_pubkey delegated_auth pubkey in
                       if is_nil delegated_sigkeys then nm_ret []
                       else
                         step snap <- nm_engine (fun inner => let p := mem_snapshot inner tree in Some (p.1, Ok p.2));
                         resolve_hints auth_settings tree (tips snap) pubkey delegated_sigkeys
                   end;
      step found <- scan_delegations auth_settings pubkey rest;
      nm_ret (here ++ found)
  end.

Definition find_sigkeys (root_id : ID) (pubkey : PublicKey) : Nm (list (SigKey * Permission)) :=
  step temp_db <- db_open root_id;
  step auth_settings <- db_auth_settings temp_db;
  let results := find_all_sigkeys_for_pubkey auth_settings pubkey in
  step delegated <- match get_all_delegated_trees auth_settings with
                    | Ok trees => scan_delegations auth_settings pubkey (map_iter _ trees).*1
                    | Err _ => nm_ret []
                    end;
  nm_ret (sort_by (fun a b => Permission_leb b.2 a.2) (results ++ delegated)).

Definition can_access (root_id : ID) (pubkey : PublicKey) (permission : Permission) : Nm bool :=
  step sigkeys <- find_sigkeys root_id pubkey;
  nm_ret (match head sigkeys with Some (_, granted) => Permission_leb permission granted | None => false end).

(** ** Creation *)

(** [bootstrap_id] is the placeholder's random text, [init] the callback. *)
Definition create_with_init (bootstrap_id : string) (new_entropy : Z) (signing_key : PrivateKey)
    (initial_settings : Doc) (init : ID -> Tx unit) : Nm DbHandle :=
  let pubkey := public_key signing_key in
  match Doc_get initial_settings "auth" with
  | Some _ => nm_lift (Err (EAuth InvalidAuthConfiguration))
  | None =>
      step auth_settings <- nm_lift (add_key AuthSettings_new pubkey (AuthKey_active None (Admin 0)));
      let initial_settings := (Doc_set initial_settings "auth" (VDoc (inner auth_settings))).1 in
      let temp := mkDbHandle (mkID (Some (blake3_raw_cid bootstrap_id))) (Some (DatabaseKey_new signing_key)) false in
      step txn <- db_new_transaction temp;
      step (txn, _) <- in_tx txn (
        do _ <- set_entry_root ID_default;
        do _ <- update_subtree (db_root temp) SETTINGS (doc_to_json initial_settings);
        do _ <- update_subtree (db_root temp) ROOT [Byte.x22; Byte.x22];
        do _ <- set_metadata_entropy new_entropy;
        do _ <- lock_system_subtrees;
        do r <- tx_try (init (db_root temp));
        do _ <- drop_lock_guard;
        tx_lift r);
      step new_root_id <- db_commit temp txn;
      nm_ret (mkDbHandle new_root_id (Some (DatabaseKey_new signing_key)) false)
  end.
End databases.

(** ** Every composition ends and keeps what is stored *)

Section logic.
Context `{IS : InstanceSpec} `{JS : !JsonSpec} `{LS : !LruSpec CacheKey (list Byte.byte)}.

Record node_ok (n : Node) : Prop := {
  no_mem : mem_inv (node_engine n);
  no_cache : NoDup (items (n_cache n)).*1;
}.

(** The builder of an open transaction. *)
Definition txn_ok (t : TxState) : Prop := forall b, entry_builder t = Some b -> builder_ok b.

(** A transaction that is not being committed yet: no height is fixed. *)
Definition uncommitted (t : TxState) : Prop := txn_ok t /\ tx_unset t.

(** [m] ends, and unless it panics it keeps the invariant and every entry, and its
    value satisfies [Q].  Where a panic is excluded is said by [nquiet] and, for
    operations that commit, by [roomy]. *)
Definition nsafe {A} (m : Nm A) (Q : A -> Prop) : Prop := forall n, node_ok n ->
  match m n with
  | None => False
  | Some Panic => True
  | Some (Done (n', r)) => node_ok n' /\ entries (node_engine n) ⊆ entries (node_engine n')
      /\ forall a, r = Ok a -> Q a
  end.

Lemma nsafe_mono {A} (m : Nm A) (Q Q' : A -> Prop) : nsafe m Q -> (forall a, Q a -> Q' a) -> nsafe m Q'.
Proof.
  intros Hm HQ n Hn. specialize (Hm n Hn). destruct (m n) as [[[n' r]|]|]; [|done..]. destruct Hm as (? & ? & ?). eauto 6.
Qed.

Lemma nsafe_ret {A} (a : A) (Q : A -> Prop) : Q a -> nsafe (nm_ret a) Q.
Proof. intros HQ n Hn. split; [done|]. split; [done|]. by intros ? [= <-]. Qed.

Lemma nsafe_lift {A} (r : Result A Error) (Q : A -> Prop) : (forall a, r = Ok a -> Q a) -> nsafe (nm_lift r) Q.
Proof. intros HQ n Hn. split; [done|]. split; [done|]. done. Qed.

Lemma nsafe_bind {A B} (m : Nm A) (k : A -> Nm B) Q1 Q :
  nsafe m Q1 -> (forall a, Q1 a -> nsafe (k a) Q) -> nsafe (nm_bind m k) Q.
Proof.
  intros Hm Hk n Hn. unfold nm_bind. specialize (Hm n Hn). destruct (m n) as [[[n1 [a|e]]|]|]; [| |done..].
  - destruct Hm as (Hn1 & Hs & HQ). specialize (Hk a (HQ a eq_refl) n1 Hn1). destruct (k a n1) as [[[n2 r]|]|]; [| |done].
    + destruct Hk as (? & ? & ?). split; [done|]. split; [by etrans|done].
    + done.
  - destruct Hm as (? & ? & _). done.
Qed.

Lemma nsafe_try {A} (m : Nm A) Q : nsafe m Q -> nsafe (nm_try m) (fun r => forall a, r = Ok a -> Q a).
Proof.
  intros Hm n Hn. unfold nm_try. specialize (Hm n Hn). destruct (m n) as [[[n1 r]|]|]; [|done..].
  destruct Hm as (? & ? & ?). split; [done|]. split; [done|]. by intros ? [= <-].
Qed.

Lemma nsafe_read {A} (f : InMemoryInner -> option (Result A Error)) :
  (forall inner, mem_inv inner -> is_Some (f inner)) -> nsafe (nm_read f) (fun _ => True).
Proof. intros Hf n Hn. unfold nm_read. destruct (Hf _ (no_mem _ Hn)) as [r ->]. done. Qed.

Lemma nsafe_engine {A} (f : InMemoryInner -> option (InMemoryInner * Result A Error)) :
  (forall inner, mem_inv inner -> exists inner' r, f inner = Some (inner', r) /\ mem_inv inner'
     /\ entries inner' = entries inner) ->
  nsafe (nm_engine f) (fun _ => True).
Proof.
  intros Hf n Hn. unfold nm_engine. destruct (Hf _ (no_mem _ Hn)) as (inner' & r & -> & Hi & He).
  cbn [mbind option_bind]. destruct Hn as [_ Hc]. split; [by split|]. split; [|done]. unfold node_engine. simpl.
  by rewrite He.
Qed.

Lemma nsafe_instance {A} (f : InstanceState -> option (Outcome (InstanceState * list Delivery * Result A Error))) :
  (forall inst, mem_inv (engine inst) -> exists inst' ds r, f inst = Some (Done (inst', ds, r))
     /\ mem_inv (engine inst') /\ entries (engine inst) ⊆ entries (engine inst')) ->
  nsafe (nm_instance f) (fun _ => True).
Proof.
  intros Hf n Hn. unfold nm_instance. destruct (Hf _ (no_mem _ Hn)) as (inst' & ds & r & -> & Hi & He).
  destruct Hn as [_ Hc]. split; [by split|]. by split.
Qed.

Lemma nsafe_tick : nsafe tick (fun _ => True).
Proof. intros n [Hm Hc]. split; [by split|]. by split. Qed.

(** An operation of a transaction that stores nothing. *)
Definition calm {A} (m : Tx A) : Prop :=
  obeys (fun s s' => entries (mem_inner (tx_mem s')) = entries (mem_inner (tx_mem s)) /\ (tx_unset s -> tx_unset s')) m.

Lemma calm_staging {A} (m : Tx A) : staging m -> calm m.
Proof.
  intros Hm s Hs. specialize (Hm s Hs). destruct (m s) as [[[s' r]|]|]; [|done..]. destruct Hm as [? []]. done.
Qed.

Lemma calm_bind {A B} (m : Tx A) (k : A -> Tx B) : calm m -> (forall a, calm (k a)) -> calm (tx_bind m k).
Proof.
  apply obeys_bind; [|by intros s s' [? _]]. split; [by intros s|]. intros s1 s2 s3 [H1 ?] [H2 ?]. split; [congruence|auto].
Qed.

Lemma calm_try {A} (m : Tx A) : calm m -> calm (tx_try m).
Proof. intros Hm s Hs. unfold tx_try. specialize (Hm s Hs). by destruct (m s) as [[[s' r]|]|]. Qed.

(** *** Operations that store nothing *)

(** [m] ends, panics only where the height of a stored entry has no successor,
    stores nothing, and its value satisfies [Q]. *)
Definition nquiet {A} (m : Nm A) (Q : A -> Prop) : Prop := forall n, node_ok n ->
  match m n with
  | None => False
  | Some Panic => at_limit (entries (node_engine n))
  | Some (Done (n', r)) => node_ok n' /\ entries (node_engine n') = entries (node_engine n)
      /\ forall a, r = Ok a -> Q a
  end.

Lemma nquiet_nsafe {A} (m : Nm A) Q : nquiet m Q -> nsafe m Q.
Proof.
  intros Hm n Hn. specialize (Hm n Hn). destruct (m n) as [[[n' r]|]|]; [|done..]. by destruct Hm as (? & -> & ?).
Qed.

Lemma nquiet_mono {A} (m : Nm A) (Q Q' : A -> Prop) : nquiet m Q -> (forall a, Q a -> Q' a) -> nquiet m Q'.
Proof.
  intros Hm HQ n Hn. specialize (Hm n Hn). destruct (m n) as [[[n' r]|]|]; [|done..]. destruct Hm as (? & ? & ?). eauto 6.
Qed.

Lemma nquiet_ret {A} (a : A) (Q : A -> Prop) : Q a -> nquiet (nm_ret a) Q.
Proof. intros HQ n Hn. split; [done|]. split; [done|]. by intros ? [= <-]. Qed.

Lemma nquiet_lift {A} (r : Result A Error) (Q : A -> Prop) : (forall a, r = Ok a -> Q a) -> nquiet (nm_lift r) Q.
Proof. intros HQ n Hn. split; [done|]. split; [done|]. done. Qed.

Lemma nquiet_bind {A B} (m : Nm A) (k : A -> Nm B) Q1 Q :
  nquiet m Q1 -> (forall a, Q1 a -> nquiet (k a) Q) -> nquiet (nm_bind m k) Q.
Proof.
  intros Hm Hk n Hn. unfold nm_bind. specialize (Hm n Hn). destruct (m n) as [[[n1 [a|e]]|]|]; [| |done..].
  - destruct Hm as (Hn1 & Hs & HQ). specialize (Hk a (HQ a eq_refl) n1 Hn1). rewrite Hs in Hk.
    by destruct (k a n1) as [[[n2 r]|]|].
  - destruct Hm as (? & ? & _). done.
Qed.

Lemma nquiet_try {A} (m : Nm A) Q : nquiet m Q -> nquiet (nm_try m) (fun r => forall a, r = Ok a -> Q a).
Proof.
  intros Hm n Hn. unfold nm_try. specialize (Hm n Hn). destruct (m n) as [[[n1 r]|]|]; [|done..].
  destruct Hm as (? & ? & ?). split; [done|]. split; [done|]. by intros ? [= <-].
Qed.

Lemma nquiet_read {A} (f : InMemoryInner -> option (Result A Error)) :
  (forall inner, mem_inv inner -> is_Some (f inner)) -> nquiet (nm_read f) (fun _ => True).
Proof. intros Hf n Hn. unfold nm_read. destruct (Hf _ (no_mem _ Hn)) as [r ->]. done. Qed.

Lemma nquiet_tick : nquiet tick (fun _ => True).
Proof. intros n [Hm Hc]. split; [by split|]. by split. Qed.

Lemma nquiet_snapshot tree :
  nquiet (nm_engine (fun inner => let p := mem_snapshot inner tree in Some (p.1, Ok p.2))) (fun _ => True).
Proof.
  intros n [Hm Hc]. unfold nm_engine. cbn [mbind option_bind].
  destruct (traversal_snapshot_inv (node_engine n) tree Hm) as (Hi & He & _). split; [by split|]. by split.
Qed.

Lemma nquiet_in_tx {A} (t : TxState) (m : Tx A) :
  calm m -> txn_ok t -> nquiet (in_tx t m) (fun p => txn_ok p.1 /\ (tx_unset t -> tx_unset p.1)).
Proof.
  intros Hm Ht n [Hmem Hc]. unfold in_tx. assert (tx_inv (with_mem t (node_mem n))) as Hs by (by split).
  specialize (Hm _ Hs). destruct (m _) as [[[s r]|]|]; [|exact Hm|done].
  destruct Hm as [[Hm1 Hc1 Hb1] [He Hu]]. split; [by split|]. split; [exact He|].
  destruct r as [a|]; simpl; [|done]. intros ? [= <-]. split; [exact Hb1|exact Hu].
Qed.

Lemma nquiet_uncommitted {A} (t : TxState) (m : Tx A) :
  calm m -> uncommitted t -> nquiet (in_tx t m) (fun p => uncommitted p.1).
Proof.
  intros Hm [Ht Hu]. eapply nquiet_mono; [by apply nquiet_in_tx|]. intros p [? ?]. split; [done|auto].
Qed.

Lemma nsafe_in_tx {A} (t : TxState) (m : Tx A) :
  calm m -> txn_ok t -> nsafe (in_tx t m) (fun p => txn_ok p.1).
Proof. intros Hm Ht. eapply nsafe_mono; [by apply nquiet_nsafe, nquiet_in_tx|]. by intros p [? _]. Qed.
End logic.

Create HintDb nsafe.
#[export] Hint Resolve nsafe_tick : nsafe.
#[export] Hint Extern 1 (nsafe (nm_ret _) _) => apply nsafe_ret; done : nsafe.
#[export] Hint Extern 1 (nsafe (nm_lift _) _) => apply nsafe_lift; done : nsafe.

Section databases_safe.
Context `{IS : InstanceSpec} `{JS : !JsonSpec} `{LS : !LruSpec CacheKey (list Byte.byte)}.
Context (iter : gset ID -> list ID) (map_iter : forall A : Type, gmap ID A -> list (ID * A)).
Context (key_iter : gset string -> list string) (blake3_raw_cid : string -> Cid).
Context (strategy_of_json : string -> option HeightStrategy).
Context (now_millis : nat -> option string -> Z).
Context (Hiter : forall s, iter s ≡ₚ elements s) (Hmap : forall A (m : gmap ID A), map_iter A m ≡ₚ map_to_list m).

Lemma nquiet_open root : nquiet (db_open root) (fun db => db = mkDbHandle root None false).
Proof.
  intros n Hn. unfold db_open, nm_bind, nm_read, open_database, storage_get.
  destruct (entries (node_engine n) !! root); simpl; [|done]. split; [done|]. split; [done|]. by intros ? [= <-].
Qed.

Lemma nsafe_open root : nsafe (db_open root) (fun db => db = mkDbHandle root None false).
Proof. apply nquiet_nsafe, nquiet_open. Qed.

(** A new transaction: nothing is staged yet. *)
Lemma nquiet_new_transaction db : nquiet (db_new_transaction map_iter db) uncommitted.
Proof.
  intros n [Hm Hc]. unfold db_new_transaction, nm_instance, Database_new_transaction.
  destruct (Database_snapshot_keeps map_iter Hmap (n_inst n) (db_root db) (db_allow_unverified db) false Hm)
    as (inst1 & ds & r & -> & [Hi He _ _]). cbn [mbind option_bind outcome_bind]. specialize (Hi Hm).
  split; [by split|]. split; [exact He|].
  intros s Hs. destruct r as [snap|]; simpl in Hs; [|done]. pose proof Hs as ([_ _ Hb] & _)%new_at_ok; [|done..].
  split; [exact Hb|]. unfold new_at in Hs. destruct (is_nil (tips snap) && _); [done|].
  destruct (check_new_tips _ _ _); simpl in Hs; [|done]. injection Hs as <-. intros b [= <-].
  destruct (is_nil (tips snap)); constructor.
Qed.

Lemma nsafe_new_transaction db : nsafe (db_new_transaction map_iter db) txn_ok.
Proof. eapply nsafe_mono; [apply nquiet_nsafe, nquiet_new_transaction|]. by intros t [? _]. Qed.

Lemma nsafe_commit db t :
  txn_ok t -> nsafe (db_commit iter map_iter key_iter blake3_raw_cid strategy_of_json now_millis db t) (fun _ => True).
Proof.
  intros Ht. eapply nsafe_bind; [apply nsafe_tick|]. intros now _ n [Hm Hc].
  set (c := mkCommitState (with_mem t (node_mem n)) (n_inst n) (n_events n)).
  assert (tx_inv (c_tx c)) as Hs by (by split).
  destruct (entry_builder t) as [b|] eqn:Eb.
  - pose proof (commit_cases iter map_iter key_iter blake3_raw_cid strategy_of_json (now_millis now) (db_root db)
      ((fun k => (dk_signing_key k, dk_identity k)) <$> db_key db) (db_allow_unverified db) false Hiter Hmap c b Hs Eb) as H.
    unfold ends in H. destruct (commit _ _ _ _ _ _ _ _ _ _ c) as [[[c' [id|e]]|]|]; [| | |done].
    + destruct H as (c1 & e & sk & identity & snap & eff & auth & Hrun & -> & [Hm' Hc' _] & He & _).
      split; [by split|]. split; [|done]. unfold node_engine. simpl. rewrite He.
      rewrite (ek_entries _ _ (cs_engine _ _ (cr_step _ _ _ _ _ _ _ _ _ _ _ _ _ _ _ _ _ Hrun))). apply map_union_subseteq_l.
    + destruct H as [[Hm' Hc' _] [_ He _ _] _ _]. split; [by split|]. split; [|done]. unfold node_engine. simpl. by rewrite He.
    + done.
  - unfold commit, cm_bind, of_tx, get_builder. simpl. rewrite Eb. simpl. split; [by split|]. by split.
Qed.

Lemma nquiet_view {A} db (m : Tx A) : calm m -> nquiet (db_view map_iter db m) (fun _ => True).
Proof.
  intros Hm. eapply nquiet_bind; [apply nquiet_new_transaction|]. intros t [Ht _].
  eapply nquiet_bind; [by apply nquiet_in_tx|]. intros r _. by apply nquiet_ret.
Qed.

Lemma nsafe_view {A} db (m : Tx A) : calm m -> nsafe (db_view map_iter db m) (fun _ => True).
Proof. intros Hm. by apply nquiet_nsafe, nquiet_view. Qed.

Lemma nsafe_with_transaction {A} db (m : Tx A) :
  calm m -> nsafe (with_transaction iter map_iter key_iter blake3_raw_cid strategy_of_json now_millis db m) (fun _ => True).
Proof.
  intros Hm. eapply nsafe_bind; [apply nsafe_new_transaction|]. intros t Ht.
  eapply nsafe_bind; [by apply nsafe_in_tx|]. intros [t1 r] Ht1.
  eapply nsafe_bind; [by apply nsafe_commit|]. intros ? _. by apply nsafe_ret.
Qed.

Lemma staging_auth_snapshot root : staging (settings_auth_snapshot iter blake3_raw_cid root).
Proof. unfold settings_auth_snapshot, settings_get_all. apply staging_bind; [by apply staging_get_all|]. intros d. by apply staging_framed, framed_ret. Qed.

Lemma nquiet_auth_settings db : nquiet (db_auth_settings iter map_iter blake3_raw_cid db) (fun _ => True).
Proof. apply nquiet_view, calm_staging, staging_auth_snapshot. Qed.

Lemma nsafe_auth_settings db : nsafe (db_auth_settings iter map_iter blake3_raw_cid db) (fun _ => True).
Proof. apply nquiet_nsafe, nquiet_auth_settings. Qed.

Lemma nquiet_resolve sigkey auth : nquiet (nm_read (fun inner => resolve_sig_key sigkey auth (Some inner))) (fun _ => True).
Proof. apply nquiet_read. intros inner _. apply resolve_sig_key_total. Qed.

Lemma identity_permission_total pubkey identity auth instance :
  is_Some (resolve_identity_permission pubkey identity auth instance).
Proof.
  unfold resolve_identity_permission. destruct identity as [hint|path hint]; [by eexists|].
  destruct (resolve_sig_key_total (Delegation path hint) auth instance) as [r ->]. by eexists.
Qed.

Lemma nquiet_validate_key db key : nquiet (validate_key iter map_iter blake3_raw_cid db key) (fun _ => True).
Proof.
  unfold validate_key. eapply nquiet_bind; [apply nquiet_auth_settings|]. intros auth _. apply nquiet_read.
  intros inner _. apply identity_permission_total.
Qed.

Lemma nsafe_validate_key db key : nsafe (validate_key iter map_iter blake3_raw_cid db key) (fun _ => True).
Proof. apply nquiet_nsafe, nquiet_validate_key. Qed.

Lemma nsafe_current_permission db : nsafe (current_permission iter map_iter blake3_raw_cid db) (fun _ => True).
Proof. unfold current_permission. destruct (db_key db); [apply nsafe_validate_key|]. by apply nsafe_lift. Qed.

Lemma nsafe_snapshot tree :
  nsafe (nm_engine (fun inner => let p := mem_snapshot inner tree in Some (p.1, Ok p.2))) (fun _ => True).
Proof. apply nquiet_nsafe, nquiet_snapshot. Qed.

Lemma nquiet_resolve_hints auth tree ts pubkey l :
  nquiet (resolve_hints auth tree ts pubkey l) (fun _ => True).
Proof.
  induction l as [|[sk p] l IH]; simpl; [by apply nquiet_ret|].
  eapply nquiet_bind; [apply nquiet_try, nquiet_resolve|]. intros r _. eapply nquiet_bind; [apply IH|].
  intros found _. by apply nquiet_ret.
Qed.

Lemma nquiet_scan auth pubkey trees :
  nquiet (scan_delegations iter map_iter blake3_raw_cid auth pubkey trees) (fun _ => True).
Proof.
  induction trees as [|tree trees IH]; simpl; [by apply nquiet_ret|].
  eapply nquiet_bind; [apply nquiet_try|intros dauth _].
  { eapply nquiet_bind; [apply nquiet_open|]. intros db _. apply nquiet_auth_settings. }
  eapply (nquiet_bind _ _ (fun _ => True)).
  - destruct dauth as [dauth|]; [|by apply nquiet_ret]. cbn zeta. destruct (is_nil _); [by apply nquiet_ret|].
    eapply nquiet_bind; [apply nquiet_snapshot|]. intros snap _. apply nquiet_resolve_hints.
  - intros here _. eapply nquiet_bind; [apply IH|]. intros found _. by apply nquiet_ret.
Qed.

Lemma nquiet_find_sigkeys root pubkey :
  nquiet (find_sigkeys iter map_iter blake3_raw_cid root pubkey) (fun _ => True).
Proof.
  unfold find_sigkeys. eapply nquiet_bind; [apply nquiet_open|]. intros db _.
  eapply nquiet_bind; [apply nquiet_auth_settings|]. intros auth _. cbn zeta.
  eapply (nquiet_bind _ _ (fun _ => True)); [|intros l _; by apply nquiet_ret].
  destruct (get_all_delegated_trees auth); [apply nquiet_scan|by apply nquiet_ret].
Qed.

Lemma nsafe_find_sigkeys root pubkey :
  nsafe (find_sigkeys iter map_iter blake3_raw_cid root pubkey) (fun _ => True).
Proof. apply nquiet_nsafe, nquiet_find_sigkeys. Qed.

Lemma nquiet_can_access root pubkey p : nquiet (can_access iter map_iter blake3_raw_cid root pubkey p) (fun _ => True).
Proof.
  unfold can_access. eapply nquiet_bind; [apply nquiet_find_sigkeys|]. intros l _. by apply nquiet_ret.
Qed.

Lemma nsafe_can_access root pubkey p : nsafe (can_access iter map_iter blake3_raw_cid root pubkey p) (fun _ => True).
Proof. apply nquiet_nsafe, nquiet_can_access. Qed.

Hint Resolve nsafe_new_transaction nsafe_auth_settings nsafe_snapshot : nsafe.

(** *** Creation *)

Lemma calm_put_builder (f : EntryBuilder -> EntryBuilder) :
  (forall b, builder_ok b -> builder_ok (f b)) -> (forall b, unset b -> unset (f b)) ->
  calm (do b <- get_builder; put_builder (f b)).
Proof.
  intros Hf Hu s Hs. unfold tx_bind, get_builder. destruct (entry_builder s) as [b|] eqn:Hb; simpl; [|done].
  destruct Hs as [Hm Hc Hok]. split; [split; [done..|]; simpl; intros ? [= <-]; apply Hf, Hok, Hb|].
  split; [done|]. intros Hs b' [= <-]. by apply Hu, Hs.
Qed.

Lemma calm_set_locked l : calm (set_locked l).
Proof. intros s []. split; [by split|]. by split. Qed.

Lemma calm_creation root settings ent (init : Tx unit) : calm init ->
  calm (do _ <- set_entry_root ID_default;
        do _ <- update_subtree root SETTINGS settings;
        do _ <- update_subtree root ROOT [Byte.x22; Byte.x22];
        do _ <- set_metadata_entropy ent;
        do _ <- lock_system_subtrees;
        do r <- tx_try init;
        do _ <- drop_lock_guard;
        tx_lift r).
Proof.
  intros Hinit. unfold set_entry_root.
  apply calm_bind; [apply (calm_put_builder (fun b => set_root b ID_default)); by intros b|]. intros _.
  apply calm_bind; [apply calm_staging, staging_update|]. intros _.
  apply calm_bind; [apply calm_staging, staging_update|]. intros _.
  apply calm_bind; [apply calm_staging, staging_entropy|]. intros _.
  apply calm_bind; [apply calm_set_locked|]. intros _.
  apply calm_bind; [apply calm_try, Hinit|]. intros r. apply calm_bind; [apply calm_set_locked|]. intros _.
  apply calm_staging, staging_framed, framed_lift.
Qed.

Lemma nsafe_create bootstrap_id ent sk settings init :
  (forall root, calm (init root)) ->
  nsafe (create_with_init iter map_iter key_iter blake3_raw_cid strategy_of_json now_millis bootstrap_id ent sk settings init)
    (fun db => db_key db = Some (DatabaseKey_new sk) /\ db_allow_unverified db = false).
Proof.
  intros Hinit. unfold create_with_init. cbn zeta. destruct (Doc_get settings "auth"); [by apply nsafe_lift|].
  eapply (nsafe_bind _ _ (fun _ => True)); [by apply nsafe_lift|]. intros auth _.
  eapply nsafe_bind; [apply nsafe_new_transaction|]. intros t Ht.
  eapply nsafe_bind; [apply nsafe_in_tx; [|done]; apply calm_creation, Hinit|].
  intros [t1 []] Ht1. eapply nsafe_bind; [by apply nsafe_commit|]. intros id _. by apply nsafe_ret.
Qed.
End databases_safe.

(** ** Operations of a node, without a condition on the result *)

Section safe.
Context `{IS : InstanceSpec} `{JS : !JsonSpec} `{LS : !LruSpec CacheKey (list Byte.byte)}.

Definition safe {A} (m : Nm A) : Prop := nsafe m (fun _ => True).

Lemma safe_of {A} (m : Nm A) Q : nsafe m Q -> safe m.
Proof. intros Hm. by eapply nsafe_mono. Qed.

Lemma safe_bind {A B} (m : Nm A) (k : A -> Nm B) : safe m -> (forall a, safe (k a)) -> safe (nm_bind m k).
Proof. intros Hm Hk. eapply nsafe_bind; [exact Hm|]. intros a _. apply Hk. Qed.

Lemma safe_try {A} (m : Nm A) : safe m -> safe (nm_try m).
Proof. intros Hm. eapply safe_of. by apply nsafe_try. Qed.

Lemma safe_ret {A} (a : A) : safe (nm_ret a).
Proof. by apply nsafe_ret. Qed.

Lemma safe_lift {A} (r : Result A Error) : safe (nm_lift r).
Proof. by apply nsafe_lift. Qed.

Lemma safe_tick : safe tick.
Proof. apply nsafe_tick. Qed.

Lemma safe_snapshot tree : safe (nm_engine (fun inner => let p := mem_snapshot inner tree in Some (p.1, Ok p.2))).
Proof. apply nsafe_snapshot. Qed.

(** A look at the node itself. *)
Lemma safe_get {A} (f : Node -> Result A Error) : safe (fun n => Some (Done (n, f n))).
Proof. intros n Hn. by split. Qed.
End safe.

Create HintDb safe.
#[export] Hint Resolve safe_try safe_ret safe_lift safe_tick safe_snapshot safe_get : safe.

(** Follow the code of an operation of a node. *)
Ltac safe_step :=
  first
    [ solve [eauto with safe]
    | progress cbn zeta
    | match goal with
      | |- safe (nm_bind _ _) => apply safe_bind; [|intros ?]
      | |- safe (nm_try _) => apply safe_try
      | |- safe (match ?x with _ => _ end) => destruct x
      end ].
Ltac safely := repeat safe_step.

(** ** Reads *)

Section reads.
Context `{IS : InstanceSpec} `{JS : !JsonSpec} `{LS : !LruSpec CacheKey (list Byte.byte)}.

(** [m] stores nothing. *)
Definition reads {A} (m : Nm A) : Prop := forall n n' r,
  node_ok n -> m n = Some (Done (n', r)) -> node_ok n' /\ entries (node_engine n') = entries (node_engine n).

Lemma nquiet_reads {A} (m : Nm A) Q : nquiet m Q -> reads m.
Proof. intros Hm n n' r Hn E. specialize (Hm n Hn). rewrite E in Hm. by destruct Hm as (? & ? & _). Qed.

Lemma reads_ret {A} (a : A) : reads (nm_ret a).
Proof. intros n n' r Hn [= <- <-]. done. Qed.

Lemma reads_lift {A} (r : Result A Error) : reads (nm_lift r).
Proof. intros n n' r' Hn [= <- <-]. done. Qed.

Lemma reads_bind {A B} (m : Nm A) (k : A -> Nm B) : reads m -> (forall a, reads (k a)) -> reads (nm_bind m k).
Proof.
  intros Hm Hk n n' r Hn. unfold nm_bind. destruct (m n) as [[[n1 [a|e]]|]|] eqn:E; [| |done..].
  - intros Hr. destruct (Hm _ _ _ Hn E) as [Hn1 He]. destruct (Hk _ _ _ _ Hn1 Hr) as [? ?]. split; [done|congruence].
  - intros [= <- <-]. by apply (Hm _ _ _ Hn E).
Qed.

Lemma reads_try {A} (m : Nm A) : reads m -> reads (nm_try m).
Proof.
  intros Hm n n' r Hn. unfold nm_try. destruct (m n) as [[[n1 r1]|]|] eqn:E; [|done..].
  intros [= <- <-]. by apply (Hm _ _ _ Hn E).
Qed.

Lemma reads_read {A} (f : InMemoryInner -> option (Result A Error)) : reads (nm_read f).
Proof. intros n n' r Hn. unfold nm_read. destruct (f _); simpl; [|done]. by intros [= <- <-]. Qed.

Lemma nm_bind_ok {A B} (m : Nm A) (k : A -> Nm B) n n' b :
  nm_bind m k n = Some (Done (n', Ok b)) ->
  exists n1 a, m n = Some (Done (n1, Ok a)) /\ k a n1 = Some (Done (n', Ok b)).
Proof. unfold nm_bind. destruct (m n) as [[[n1 [a|e]]|]|]; [|done..]. eauto. Qed.

(** The two ways in which a computation that starts by reading ends. *)
Lemma reads_bind_inv {A B} (m : Nm A) (k : A -> Nm B) n n' r :
  reads m -> node_ok n -> nm_bind m k n = Some (Done (n', r)) ->
  (exists e, m n = Some (Done (n', Err e)) /\ r = Err e /\ node_ok n' /\ entries (node_engine n') = entries (node_engine n))
  \/ exists n1 a, m n = Some (Done (n1, Ok a)) /\ node_ok n1 /\ entries (node_engine n1) = entries (node_engine n)
     /\ k a n1 = Some (Done (n', r)).
Proof.
  intros Hm Hn. unfold nm_bind. destruct (m n) as [[[n1 [a|e]]|]|] eqn:E; [| |done..]; intros H;
    destruct (Hm _ _ _ Hn E) as [Hn1 He1].
  - right. exists n1, a. done.
  - injection H as <- <-. left. exists e. done.
Qed.

Lemma nm_try_ok {A} (m : Nm A) n n' r :
  nm_try m n = Some (Done (n', Ok r)) -> m n = Some (Done (n', r)).
Proof. unfold nm_try. destruct (m n) as [[[n1 r1]|]|]; [|done..]. by intros [= -> ->]. Qed.

Lemma reads_open root : reads (db_open root).
Proof. apply reads_bind; [apply reads_read|]. intros r. apply reads_ret. Qed.

Lemma reads_in_tx {A} t (m : Tx A) : calm m -> txn_ok t -> reads (in_tx t m).
Proof. intros Hm Ht. by eapply nquiet_reads, nquiet_in_tx. Qed.

Context (iter : gset ID -> list ID) (map_iter : forall A : Type, gmap ID A -> list (ID * A)).
Context (blake3_raw_cid : string -> Cid).
Context (Hiter : forall s, iter s ≡ₚ elements s) (Hmap : forall A (m : gmap ID A), map_iter A m ≡ₚ map_to_list m).

Lemma reads_new_transaction db : reads (db_new_transaction map_iter db).
Proof. by eapply nquiet_reads, nquiet_new_transaction. Qed.

Lemma reads_view {A} db (m : Tx A) : calm m -> reads (db_view map_iter db m).
Proof. intros Hm. by eapply nquiet_reads, nquiet_view. Qed.

Lemma reads_auth_settings db : reads (db_auth_settings iter map_iter blake3_raw_cid db).
Proof. by eapply nquiet_reads, nquiet_auth_settings. Qed.

Lemma reads_snapshot tree : reads (nm_engine (fun inner => let p := mem_snapshot inner tree in Some (p.1, Ok p.2))).
Proof. eapply nquiet_reads, nquiet_snapshot. Qed.
End reads.

(** Follow a computation that starts by reading: it ends with the error of the
    first step, or goes on. *)
Tactic Notation "reads_inv" hyp(H) "as" simple_intropattern(p) "by" tactic(t) :=
  apply reads_bind_inv in H;
  [destruct H as [(? & _ & -> & _ & ?)|p]; [split; [congruence|done]|]|solve [t]|done].

(** ** Who may access a database *)

Section access.
Context `{IS : InstanceSpec} `{JS : !JsonSpec} `{LS : !LruSpec CacheKey (list Byte.byte)}.
Context (iter : gset ID -> list ID) (map_iter : forall A : Type, gmap ID A -> list (ID * A)).
Context (blake3_raw_cid : string -> Cid).
Context (Hiter : forall s, iter s ≡ₚ elements s) (Hmap : forall A (m : gmap ID A), map_iter A m ≡ₚ map_to_list m).

(** What the settings say of a key itself: its own active entry, and the active
    entry for everyone. *)
Definition own_method (auth : AuthSettings) (pubkey : PublicKey) (k : SigKey) (p : Permission) : Prop :=
  (k = SigKey_from_pubkey pubkey /\ exists key, get_key_by_pubkey auth pubkey = Ok key
     /\ key_status key = Active /\ p = key_permissions key)
  \/ (k = SigKey_global pubkey /\ exists key, get_global_key auth = Ok key
     /\ key_status key = Active /\ p = key_permissions key).

Lemma own_method_iff auth pubkey k p : (k, p) ∈ find_all_sigkeys_for_pubkey auth pubkey <-> own_method auth pubkey k p.
Proof. apply find_sigkeys_spec. Qed.

(** What the settings [auth] grant to a key over the stored entries [es]: its own
    active entry, the active global entry, or a path into a delegated tree that
    resolves for it. *)
Definition granted (es : gmap ID Entry) (auth : AuthSettings) (pubkey : PublicKey) (k : SigKey) (p : Permission) : Prop :=
  own_method auth pubkey k p
  \/ exists tree ts hint inner candidates, k = Delegation [mkDelegationStep tree ts] hint
       /\ entries inner = es /\ mem_inv inner
       /\ resolve_sig_key k auth (Some inner) = Some (Ok candidates)
       /\ select_effective_permission candidates pubkey = Some p.

Lemma resolve_hints_granted auth tree ts pubkey l n n' found :
  node_ok n -> resolve_hints auth tree ts pubkey l n = Some (Done (n', Ok found)) ->
  node_ok n' /\ entries (node_engine n') = entries (node_engine n)
  /\ forall k p, (k, p) ∈ found -> granted (entries (node_engine n)) auth pubkey k p.
Proof.
  revert n n' found. induction l as [|[sk p0] l IH]; intros n n' found Hn.
  { intros [= <- <-]. split; [done|]. split; [done|]. by intros k p ?%elem_of_nil. }
  simpl. intros H. apply nm_bind_ok in H as (n1 & r & E1 & H). apply nm_try_ok in E1.
  unfold nm_read in E1. destruct (resolve_sig_key _ auth _) as [res|] eqn:Er; [|done]. injection E1 as <- <-.
  apply nm_bind_ok in H as (n2 & found' & E2 & H). injection H as <- <-.
  destruct (IH _ _ _ Hn E2) as (Hn2 & He & Hin). split; [done|]. split; [done|].
  intros k p. destruct res as [candidates|e]; [|apply Hin].
  destruct (select_effective_permission candidates pubkey) as [perm|] eqn:Es; [|apply Hin].
  intros [[= -> ->]|?]%elem_of_cons; [|by apply Hin]. right.
  eexists _, _, _, (node_engine n), candidates. split; [done|]. split; [done|]. split; [apply Hn|]. split; [exact Er|done].
Qed.

Lemma scan_granted auth pubkey trees n n' found :
  node_ok n -> scan_delegations iter map_iter blake3_raw_cid auth pubkey trees n = Some (Done (n', Ok found)) ->
  node_ok n' /\ entries (node_engine n') = entries (node_engine n)
  /\ forall k p, (k, p) ∈ found -> granted (entries (node_engine n)) auth pubkey k p.
Proof.
  revert n n' found. induction trees as [|tree trees IH]; intros n n' found Hn.
  { intros [= <- <-]. split; [done|]. split; [done|]. by intros k p ?%elem_of_nil. }
  simpl. intros H. apply nm_bind_ok in H as (n1 & dauth & E1 & H). apply nm_try_ok in E1.
  assert (node_ok n1 /\ entries (node_engine n1) = entries (node_engine n)) as [Hn1 He1].
  { eapply reads_bind; [apply reads_open| |exact Hn|exact E1]. intros db. by apply reads_auth_settings. }
  apply nm_bind_ok in H as (n2 & here & E2 & H). apply nm_bind_ok in H as (n3 & rest & E3 & H). injection H as <- <-.
  assert (node_ok n2 /\ entries (node_engine n2) = entries (node_engine n1)
    /\ forall k p, (k, p) ∈ here -> granted (entries (node_engine n1)) auth pubkey k p) as (Hn2 & He2 & Hhere).
  { assert (forall k p, (k, p) ∈ [] -> granted (entries (node_engine n1)) auth pubkey k p) by (by intros k p ?%elem_of_nil).
    destruct dauth as [dauth|]; [|by injection E2 as <- <-]. destruct (is_nil _); [by injection E2 as <- <-|].
    apply nm_bind_ok in E2 as (n4 & snap & E4 & E2). destruct (reads_snapshot _ _ _ _ Hn1 E4) as [Hn4 He4].
    destruct (resolve_hints_granted _ _ _ _ _ _ _ _ Hn4 E2) as (? & ? & Hg). rewrite He4 in *. done. }
  destruct (IH _ _ _ Hn2 E3) as (Hn3 & He3 & Hrest). split; [done|]. split; [congruence|].
  intros k p [?|?]%elem_of_app; rewrite <- He1; [by apply Hhere|]. rewrite <- He2. by apply Hrest.
Qed.

(** The head of the sorted methods is the highest. *)
Lemma head_highest (l : list (SigKey * Permission)) permission :
  match head (sort_by (fun a b => Permission_leb b.2 a.2) l) with
  | Some (_, g) => Permission_leb permission g
  | None => false
  end = true <-> exists k p, (k, p) ∈ l /\ Permission_leb permission p = true.
Proof.
  assert (forall a b : SigKey * Permission, Permission_leb b.2 a.2 = true \/ Permission_leb a.2 b.2 = true) as Htot.
  { intros a b. rewrite !Permission_leb_le. lia. }
  pose proof (sort_by_sorted (fun a b : SigKey * Permission => Permission_leb b.2 a.2) Htot l) as Hs.
  pose proof (fun x => elem_of_sort_by (fun a b : SigKey * Permission => Permission_leb b.2 a.2) x l) as Hin.
  destruct (sort_by _ l) as [|[k g] l'] eqn:E; simpl.
  - split; [done|]. intros (k & p & Hk & _). by apply Hin, elem_of_nil in Hk.
  - split; [intros Hg; exists k, g; split; [apply Hin; by left|done]|]. intros (k' & p & Hk & Hp).
    apply Hin in Hk. apply Sorted_StronglySorted in Hs; [|intros a b c; rewrite !Permission_leb_le; lia].
    inversion_clear Hs as [|?? _ Hf]. rewrite Forall_forall in Hf.
    apply elem_of_cons in Hk as [[= -> ->]|Hk]; [done|]. specialize (Hf _ Hk). simpl in Hf.
    rewrite Permission_leb_le in *. lia.
Qed.

Lemma reads_scan auth pubkey trees : reads (scan_delegations iter map_iter blake3_raw_cid auth pubkey trees).
Proof. by eapply nquiet_reads, nquiet_scan. Qed.

Lemma reads_can_access root pubkey permission : reads (can_access iter map_iter blake3_raw_cid root pubkey permission).
Proof. by eapply nquiet_reads, nquiet_can_access. Qed.

(** What [find_sigkeys] lists: grants of the database's settings, the highest
    permission first, and all of the key's own and global ones. *)
Lemma find_sigkeys_ok root pubkey n n' l :
  node_ok n -> find_sigkeys iter map_iter blake3_raw_cid root pubkey n = Some (Done (n', Ok l)) ->
  exists n1 auth l0, db_auth_settings iter map_iter blake3_raw_cid (mkDbHandle root None false) n = Some (Done (n1, Ok auth))
    /\ l = sort_by (fun a b => Permission_leb b.2 a.2) l0
    /\ (forall k p, (k, p) ∈ l0 -> granted (entries (node_engine n)) auth pubkey k p)
    /\ forall k p, own_method auth pubkey k p -> (k, p) ∈ l0.
Proof.
  intros Hn E. unfold find_sigkeys in E.
  apply nm_bind_ok in E as (n3 & db & E3 & E). assert (n3 = n /\ db = mkDbHandle root None false) as [-> ->].
  { apply nm_bind_ok in E3 as (n0 & r0 & E0 & E3). unfold nm_read, open_database, storage_get in E0.
    destruct (entries (node_engine n) !! root); [|done]. injection E0 as <- <-. by injection E3 as <- <-. }
  apply nm_bind_ok in E as (n1 & auth & E1 & E). destruct (reads_auth_settings _ _ _ Hiter Hmap _ _ _ _ Hn E1) as [Hn1 He1].
  apply nm_bind_ok in E as (n4 & delegated & E4 & E). injection E as -> <-.
  assert (forall k p, (k, p) ∈ delegated -> granted (entries (node_engine n1)) auth pubkey k p) as Hdel.
  { destruct (get_all_delegated_trees auth) as [trees|].
    - by destruct (scan_granted _ _ _ _ _ _ Hn1 E4) as (_ & _ & ?).
    - injection E4 as <- <-. by intros k p ?%elem_of_nil. }
  eexists n1, auth, _. split; [exact E1|]. split; [done|].
  split; [|intros k p Ho; apply elem_of_app; left; by apply own_method_iff].
  intros k p [?%own_method_iff|?]%elem_of_app; [by left|]. rewrite <- He1. by apply Hdel.
Qed.

(** The answers of [can_access]. *)
Lemma can_access_ok root pubkey permission n n' ok :
  node_ok n -> can_access iter map_iter blake3_raw_cid root pubkey permission n = Some (Done (n', Ok ok)) ->
  exists n1 auth, db_auth_settings iter map_iter blake3_raw_cid (mkDbHandle root None false) n = Some (Done (n1, Ok auth))
    /\ (ok = true -> exists k p, granted (entries (node_engine n)) auth pubkey k p /\ Permission_leb permission p = true)
    /\ ((exists k p, own_method auth pubkey k p /\ Permission_leb permission p = true) -> ok = true).
Proof.
  intros Hn E. unfold can_access in E.
  apply nm_bind_ok in E as (n2 & l & E & H). injection H as -> <-.
  destruct (find_sigkeys_ok _ _ _ _ _ Hn E) as (n1 & auth & l0 & E1 & -> & Hg & Hown).
  exists n1, auth. split; [exact E1|]. rewrite head_highest. split.
  - intros (k & p & Hin & Hp). exists k, p. split; [by apply Hg|done].
  - intros (k & p & Hin & Hp). exists k, p. split; [by apply Hown|done].
Qed.

(** C12: [can_access] ends, and whatever it returns nothing is stored; it panics at
    most where a stored entry has the highest height there is.  When it answers
    yes, the settings of the database grant the key a method with at least the
    requested permission: its own active entry, the active global entry, or a
    path into a delegated tree that resolves for the key; and it does answer yes
    when the key's own active entry or the global one is enough.  Assumed: the
    invariant of the node, and that iterating a set or a map yields its elements
    in some order. *)
Theorem can_access_spec root pubkey permission n :
  node_ok n ->
  match can_access iter map_iter blake3_raw_cid root pubkey permission n with
  | None => False
  | Some Panic => at_limit (entries (node_engine n))
  | Some (Done (n', r)) => node_ok n' /\ entries (node_engine n') = entries (node_engine n)
      /\ forall ok, r = Ok ok ->
         exists n1 auth, db_auth_settings iter map_iter blake3_raw_cid (mkDbHandle root None false) n
              = Some (Done (n1, Ok auth))
            /\ (ok = true -> exists k p, granted (entries (node_engine n)) auth pubkey k p /\ Permission_leb permission p = true)
            /\ ((exists k p, own_method auth pubkey k p /\ Permission_leb permission p = true) -> ok = true)
  end.
Proof.
  intros Hn. pose proof (nquiet_can_access iter map_iter blake3_raw_cid Hiter Hmap root pubkey permission n Hn) as H.
  destruct (can_access _ _ _ _ _ _ n) as [[[n' r]|]|] eqn:E; [|done..]. destruct H as (Hn' & He & _).
  split; [done|]. split; [done|]. intros ok ->. by eapply can_access_ok.
Qed.
End access.

(** ** A concrete instance *)

#[local] Existing Instance nat_cid.
#[local] Existing Instance byte_crypto.
#[local] Existing Instance list_lru.
#[local] Existing Instance wire_codec.
#[local] Existing Instance wire_json.

Definition wire_hash (s : string) : @Cid nat_cid := checksum (String.list_byte_of_string s).
Definition wire_instance : InstanceSpec := eidetica_instance elements wire_hash.
#[local] Existing Instance wire_instance.

Definition empty_node : Node := mkNode (mkInstanceState InMemory_new ∅ [] 0) InMemoryCrdtCache_new [] 0.

Definition wire_create (sk : PrivateKey) (seed : Z) (settings : Doc) (init : ID -> Tx unit) : Nm DbHandle :=
  create_with_init elements list_iter elements wire_hash (fun _ => None) (fun _ _ => 50) "x" seed sk settings init.

Definition admin_sk : PrivateKey := Ed25519Private Byte.x07.

(** An instance with one new database. *)
Definition created : option (Outcome (Node * Result DbHandle Error)) :=
  Eval vm_compute in wire_create admin_sk 5 Doc_new (fun _ => tx_ret tt) empty_node.

Definition one_db : Node := match created with Some (Done (n, _)) => n | _ => empty_node end.
Definition one_root : ID := match created with Some (Done (_, Ok db)) => db_root db | _ => ID_default end.

Lemma created_run : wire_create admin_sk 5 Doc_new (fun _ => tx_ret tt) empty_node = created.
Proof. vm_cast_no_check (eq_refl created). Qed.

Lemma empty_node_ok : node_ok empty_node.
Proof. split; [apply mem_inv_init|constructor]. Qed.

Lemma one_db_ok : node_ok one_db.
Proof.
  pose proof (nsafe_create elements list_iter elements wire_hash (fun _ => None) (fun _ _ => 50)
    (fun s => Permutation_refl _) (fun A m => Permutation_refl _) "x" 5 admin_sk Doc_new (fun _ => tx_ret tt)) as H.
  specialize (H (fun _ => calm_staging _ (staging_framed _ (framed_ret _)))).
  specialize (H empty_node empty_node_ok). pose proof created_run as E. unfold wire_create in E. rewrite E in H.
  unfold one_db. destruct created as [[[n r]|]|]; [exact (proj1 H)|apply empty_node_ok|destruct H].
Qed.

Lemma can_access_spec_witness :
  exists n1 n2 auth, can_access elements list_iter wire_hash one_root (public_key admin_sk) (Admin 0) one_db
      = Some (Done (n1, Ok true))
    /\ db_auth_settings elements list_iter wire_hash (mkDbHandle one_root None false) one_db = Some (Done (n2, Ok auth))
    /\ exists k p, granted (entries (node_engine one_db)) auth (public_key admin_sk) k p
         /\ Permission_leb (Admin 0) p = true.
Proof.
  pose proof (can_access_spec elements list_iter wire_hash (fun s => Permutation_refl _) (fun A m => Permutation_refl _)
    one_root (public_key admin_sk) (Admin 0) one_db one_db_ok) as H.
  assert (match can_access elements list_iter wire_hash one_root (public_key admin_sk) (Admin 0) one_db with
          | Some (Done (_, Ok true)) => True | _ => False end) as E by (vm_compute; exact I).
  destruct (can_access _ _ _ _ _ _ one_db) as [[[n1 [[]|]]|]|]; [|destruct E..].
  destruct H as (_ & _ & H). destruct (H true eq_refl) as (n2 & auth & Ea & Hg & _).
  exists n1, n2, auth. split; [reflexivity|]. split; [exact Ea|]. exact (Hg eq_refl).
Defined.
