(* ===== verification/Room.v ===== *)
(** * Room for heights

    Heights are 64-bit, and the successor of the highest one is a panic.  An
    operation of a node that commits at most [k] times cannot get there from a
    node whose heights, and the clock, leave room for [k] more levels: [roomy].
    [sound] joins this to [nsafe], which needs no room and says nothing of panics,
    and is what is shown of the operations of a session. *)

From S2P Require Import Prelude.
From S2P Require Import Ids.
From S2P Require Import Doc.
From S2P Require Import Errors.
From S2P Require Import Crypto.
From S2P Require Import Permission.
From S2P Require Import AuthTypes.
From S2P Require Import AuthSettings.
From S2P Require Import Entry.
From S2P Require Import Backend.
From S2P Require Import CrdtCache.
From S2P Require Import Validation.
From S2P Require Import Verify.
From S2P Require Import InstanceOps.
From S2P Require Import Transaction.
From S2P Require Import Stores.
From S2P Require Import Commit.
From S2P Require Import TxFrame.
From S2P Require Import CommitSpec.
From S2P Require Import Node.

Section room.
Context `{IS : InstanceSpec} `{JS : !JsonSpec} `{LS : !LruSpec CacheKey (list Byte.byte)}.
(** The clock, by reading. *)
Context (clock : nat -> option string -> Z).

(** No stored height and no reading of the clock is above [bound]. *)
Record room (n : Node) (bound : Z) : Prop := {
  rm_bound : 0 <= bound;
  rm_clock : forall t o, clock t o <= bound;
  rm_heights : heights_below (entries (node_engine n)) bound;
}.

(** With room for [k] levels, [m] returns, and leaves the rest of the room. *)
Definition roomy {A} (k : Z) (m : Nm A) (Q : A -> Prop) : Prop := forall n bound,
  node_ok n -> room n bound -> bound + k < u64_max ->
  exists n' r, m n = Some (Done (n', r)) /\ node_ok n' /\ room n' (bound + k) /\ forall a, r = Ok a -> Q a.

Definition sound {A} (k : Z) (m : Nm A) (Q : A -> Prop) : Prop := 0 <= k /\ nsafe m Q /\ roomy k m Q.

Lemma room_more n bound bound' : room n bound -> bound <= bound' -> room n bound'.
Proof.
  intros [H0 Hc Hh] Hle. split; [lia|intros t o; specialize (Hc t o); lia|].
  intros id e h He Hin. specialize (Hh id e h He Hin). lia.
Qed.

Lemma sound_nsafe {A} k (m : Nm A) Q : sound k m Q -> nsafe m Q.
Proof. by intros (_ & ? & _). Qed.

Lemma sound_quiet {A} (m : Nm A) Q : nquiet m Q -> sound 0 m Q.
Proof.
  intros Hm. split; [done|]. split; [by apply nquiet_nsafe|]. intros n bound Hn Hr Hlt. specialize (Hm n Hn).
  destruct (m n) as [[[n' r]|]|]; [| |done].
  - destruct Hm as (Hn' & He & HQ). exists n', r. split; [done|]. split; [done|]. split; [|done].
    rewrite Z.add_0_r. destruct Hr. split; [done..|by rewrite He].
  - exfalso. eapply below_limit; [apply Hr| |exact Hm]. lia.
Qed.

Lemma sound_mono {A} k k' (m : Nm A) (Q Q' : A -> Prop) :
  sound k m Q -> k <= k' -> (forall a, Q a -> Q' a) -> sound k' m Q'.
Proof.
  intros (H0 & Hs & Hm) Hle HQ. split; [lia|]. split; [by eapply nsafe_mono|]. intros n bound Hn Hr Hlt.
  destruct (Hm n bound Hn Hr) as (n' & r & E & Hn' & Hr' & Ha); [lia|]. exists n', r. split; [done|]. split; [done|].
  split; [eapply room_more; [exact Hr'|lia]|auto].
Qed.

Lemma sound_bind {A B} k1 k2 (m : Nm A) (f : A -> Nm B) Q1 Q :
  0 <= k2 -> sound k1 m Q1 -> (forall a, Q1 a -> sound k2 (f a) Q) -> sound (k1 + k2) (nm_bind m f) Q.
Proof.
  intros H2 (H1 & Hs & Hm) Hf. split; [lia|]. split; [eapply nsafe_bind; [exact Hs|]; intros a Ha; by apply Hf|].
  intros n bound Hn Hr Hlt. destruct (Hm n bound Hn Hr) as (n1 & r1 & E & Hn1 & Hr1 & Ha); [lia|]. unfold nm_bind. rewrite E.
  destruct r1 as [a|e].
  - destruct (Hf a (Ha a eq_refl)) as (_ & _ & Hk). destruct (Hk n1 (bound + k1) Hn1 Hr1) as (n2 & r & E2 & ? & Hr2 & ?); [lia|].
    exists n2, r. split; [done|]. split; [done|]. split; [by rewrite Z.add_assoc|done].
  - exists n1, (Err e). split; [done|]. split; [done|]. split; [eapply room_more; [exact Hr1|lia]|done].
Qed.

(** A step that stores nothing is free. *)
Lemma sound_read {A B} k (m : Nm A) (f : A -> Nm B) Q1 Q :
  0 <= k -> nquiet m Q1 -> (forall a, Q1 a -> sound k (f a) Q) -> sound k (nm_bind m f) Q.
Proof. intros Hk Hm Hf. rewrite <- (Z.add_0_l k). eapply sound_bind; [done|by apply sound_quiet|done]. Qed.

Lemma sound_try {A} k (m : Nm A) Q : sound k m Q -> sound k (nm_try m) (fun r => forall a, r = Ok a -> Q a).
Proof.
  intros (H0 & Hs & Hm). split; [done|]. split; [by apply nsafe_try|]. intros n bound Hn Hr Hlt.
  destruct (Hm n bound Hn Hr Hlt) as (n' & r & E & ? & ? & Ha). exists n', (Ok r). unfold nm_try. rewrite E.
  split; [done|]. split; [done|]. split; [done|]. by intros ? [= <-].
Qed.

Lemma sound_ret {A} (a : A) (Q : A -> Prop) : Q a -> sound 0 (nm_ret a) Q.
Proof. intros HQ. by apply sound_quiet, nquiet_ret. Qed.

(** ** Commits *)

Context (iter : gset ID -> list ID) (map_iter : forall A : Type, gmap ID A -> list (ID * A)).
Context (key_iter : gset string -> list string) (blake3_raw_cid : string -> Cid).
Context (strategy_of_json : string -> option HeightStrategy).
Context (Hiter : forall s, iter s ≡ₚ elements s) (Hmap : forall A (m : gmap ID A), map_iter A m ≡ₚ map_to_list m).

Lemma heights_below_union es id e bound :
  heights_below es bound -> (forall h, height_in e h -> h <= bound) -> heights_below (es ∪ {[ id := e ]}) bound.
Proof.
  intros Hes He x ex h [Hx|[_ Hx]]%lookup_union_Some_raw; [by apply (Hes x)|].
  apply lookup_singleton_Some in Hx as [_ <-]. apply He.
Qed.

Lemma sound_commit db t :
  uncommitted t -> sound 1 (db_commit iter map_iter key_iter blake3_raw_cid strategy_of_json clock db t) (fun _ => True).
Proof.
  intros [Ht Hu]. split; [done|]. split; [by apply nsafe_commit|]. intros n0 bound Hn0 Hr0 Hlt.
  unfold db_commit, nm_bind, tick. set (n := mkNode _ _ _ _).
  assert (node_ok n) as Hn by (by destruct Hn0; split). assert (room n bound) as Hr by (by destruct Hr0; split).
  pose proof (below_limit _ _ (rm_heights _ _ Hr)) as Hlim. destruct Hn as [Hm Hc].
  set (c := mkCommitState (with_mem t (node_mem n)) (n_inst n) (n_events n)).
  assert (tx_inv (c_tx c)) as Hs by (by split).
  destruct (entry_builder t) as [b|] eqn:Eb.
  2: { eexists _, _. unfold commit, cm_bind, of_tx, get_builder. simpl. rewrite Eb. simpl. split; [done|].
       split; [by split|]. split; [|done]. apply (room_more _ bound); [|lia]. destruct Hr. by split. }
  pose proof (commit_cases iter map_iter key_iter blake3_raw_cid strategy_of_json (clock (n_tick n0)) (db_root db)
    ((fun k => (dk_signing_key k, dk_identity k)) <$> db_key db) (db_allow_unverified db) false Hiter Hmap c b Hs Eb) as H.
  unfold ends in H. destruct (commit _ _ _ _ _ _ _ _ _ _ c) as [[[c' r]|]|]; [|exfalso; apply Hlim; [lia|exact H]|done].
  eexists _, _. split; [done|]. destruct r as [id|e].
  - destruct H as (c1 & e & sk & identity & snap & eff & auth & Hrun & -> & [Hm' Hc' _] & He & _).
    split; [by split|]. split; [|done]. pose proof (ek_entries _ _ (cs_engine _ _ (cr_step _ _ _ _ _ _ _ _ _ _ _ _ _ _ _ _ _ Hrun))) as Hes.
    destruct Hr as [Hr1 Hr2 Hr3]. split; [lia|intros t' o; specialize (Hr2 t' o); lia|].
    unfold node_engine. simpl. rewrite He, Hes. apply heights_below_union; [intros x ex h Hx Hh; specialize (Hr3 x ex h Hx Hh); lia|].
    intros h. apply (cr_heights _ _ _ _ _ _ _ _ _ _ _ _ _ _ _ _ _ Hrun bound h); [by apply Hu|done..].
  - destruct H as [[Hm' Hc' _] [_ He _ _] _ _]. split; [by split|]. split; [|done]. apply (room_more _ bound); [|lia].
    destruct Hr as [Hr1 Hr2 Hr3]. split; [done..|]. unfold node_engine. simpl. by rewrite He.
Qed.

Lemma sound_with_transaction {A} db (m : Tx A) :
  calm m -> sound 1 (with_transaction iter map_iter key_iter blake3_raw_cid strategy_of_json clock db m) (fun _ => True).
Proof.
  intros Hm. eapply sound_read; [done|by apply nquiet_new_transaction|]. intros t Ht.
  eapply sound_read; [done|by apply nquiet_uncommitted|]. intros [t1 r] Ht1.
  change 1 with (1 + 0). eapply sound_bind; [done|by apply sound_commit|]. intros ? _. by apply sound_ret.
Qed.

Lemma sound_create bootstrap_id ent sk settings init :
  (forall root, calm (init root)) ->
  sound 1 (create_with_init iter map_iter key_iter blake3_raw_cid strategy_of_json clock bootstrap_id ent sk settings init)
    (fun db => db_key db = Some (DatabaseKey_new sk) /\ db_allow_unverified db = false).
Proof.
  intros Hinit. unfold create_with_init. cbn zeta.
  destruct (Doc_get settings "auth"); [eapply (sound_mono 0 _ _ (fun _ => False)); [apply sound_quiet; by apply nquiet_lift|done|done]|].
  eapply (sound_read 1 _ _ (fun _ => True)); [done|by apply nquiet_lift|]. intros auth _.
  eapply sound_read; [done|by apply nquiet_new_transaction|]. intros t Ht.
  eapply sound_read; [done|apply nquiet_uncommitted; [|exact Ht]; apply calm_creation, Hinit|].
  intros [t1 []] Ht1. change 1 with (1 + 0). eapply sound_bind; [done|by apply sound_commit|]. intros id _. by apply sound_ret.
Qed.
End room.
