(* ===== verification/StoreView.v ===== *)
(** * What a transaction sees of its document stores

    An interface between the transaction and the components that keep their data
    in document stores.  [StoreReads] states what the transaction promises for a
    group of open stores: the committed document of each is the same for the whole
    life of the transaction, and staging into one of them leaves the others alone.
    Against it, the operations of [DocStore] are functions on the staged documents
    ([computes]).  A transaction on stores without entries, and one on any readable
    store, keep the promise. *)

From S2P Require Import Prelude.
From S2P Require Import Path.
From S2P Require Import Ids.
From S2P Require Import Doc.
From S2P Require Import DocPath.
From S2P Require Import Errors.
From S2P Require Import Crypto.
From S2P Require Import Permission.
From S2P Require Import AuthTypes.
From S2P Require Import AuthSettings.
From S2P Require Import Entry.
From S2P Require Import Backend.
From S2P Require Import CrdtCache.
From S2P Require Import Validation.
From S2P Require Import BackendSteps.
From S2P Require Import Verify.
From S2P Require Import Transaction.
From S2P Require Import StoreTips.
From S2P Require Import MergeBase.
From S2P Require Import StoreState.
From S2P Require Import Stores.
From S2P Require Import TxFrame.

(** ** [path!] with several arguments *)

(** The ASCII white space of [str::trim]. *)
Definition is_blank (a : ascii) : bool := let n := nat_of_ascii a in ((9 <=? n) && (n <=? 13) || (n =? 32))%nat.

Fixpoint trim_start (l : list ascii) : list ascii :=
  match l with
  | a :: rest => if is_blank a then trim_start rest else l
  | [] => []
  end.

Definition str_trim (s : string) : string :=
  String.string_of_list_ascii (rev (trim_start (rev (trim_start (String.list_ascii_of_string s))))).

Definition add_component (path : PathBuf) (component : string) : PathBuf :=
  let component_str := str_trim component in
  if str_is_empty component_str then path else PathBuf_push path component_str.

Definition path_of (components : list string) : string := path_inner (foldl add_component PathBuf_new components).

(** A key that is one component of a path, as written. *)
Definition plain (s : string) : Prop := str_trim s = s /\ str_contains dot s = false /\ s <> EmptyString.

#[export] Instance plain_decision s : Decision (plain s).
Proof. unfold plain. apply _. Defined.

Lemma plain_normal s : plain s -> normalize_path s = s /\ Path_components s = [s].
Proof.
  intros (_ & Hd & Hne). apply str_is_empty_false in Hne. rewrite normalize_path_join. unfold Path_components.
  rewrite str_split_none, filter_cons_True by done. done.
Qed.

Lemma path_of_pair a b : plain a -> plain b -> path_of [a; b] = a +:+ String dot b.
Proof.
  intros Ha Hb. destruct (plain_normal a Ha) as [Na _], (plain_normal b Hb) as [Nb _].
  destruct Ha as (Ta & Da & Ea), Hb as (Tb & Db & Eb). apply str_is_empty_false in Ea, Eb.
  unfold path_of. cbn [foldl]. unfold add_component at 2. rewrite Ta, Ea. unfold PathBuf_push. rewrite Na, Ea.
  cbn [path_inner PathBuf_new str_is_empty]. unfold add_component. rewrite Tb, Eb. unfold PathBuf_push.
  rewrite Nb, Eb. cbn [path_inner]. by rewrite Ea.
Qed.

Lemma segments_of_pair a b : plain a -> plain b -> segments_of (path_of [a; b]) = [a; b].
Proof.
  intros Ha Hb. rewrite path_of_pair by done. destruct Ha as (_ & Da & Ea), Hb as (_ & Db & Eb).
  rewrite segments_pair by done. apply str_is_empty_false in Eb. by rewrite Eb.
Qed.

Lemma segments_of_plain a : plain a -> segments_of a = [a].
Proof. intros (_ & Hd & _). unfold segments_of. by rewrite Hd. Qed.

Section view.
Context `{CD : CodecSpec} `{JS : !JsonSpec} `{LS : !LruSpec CacheKey (list Byte.byte)}.
Context (iter : gset ID -> list ID) (blake3_raw_cid : string -> Cid) (root : ID).

(** The committed documents [C] of the open stores, in the states [I]. *)
Class StoreReads (C : gmap string Doc) (I : TxState -> Prop) : Prop := {
  sr_open s : I s ->
    exists b, entry_builder s = Some b /\ forall name, is_Some (C !! name) -> builder_has b name = true;
  sr_read name c s : I s -> C !! name = Some c ->
    exists s', get_full_state iter blake3_raw_cid root name s = Some (Done (s', Ok c))
      /\ I s' /\ entry_builder s' = entry_builder s;
  sr_stage name data s b : I s -> entry_builder s = Some b -> is_Some (C !! name) ->
    I (with_builder s (set_subtree_data b name data));
}.

(** [serde_json] writes every document to a text that is read back as it. *)
Definition json_faithful : Prop :=
  forall d, json_to_doc (doc_to_json d) = Some d /\ doc_to_json d <> [].

Context (C : gmap string Doc) (I : TxState -> Prop) `{SR : !StoreReads C I}.

(** The documents staged for the open stores. *)
Definition stages_as (L : gmap string Doc) (s : TxState) : Prop :=
  I s /\ exists b, entry_builder s = Some b
    /\ forall name, is_Some (C !! name) -> staged b name = Ok (L !! name).

(** From the staged documents [L], [m] returns [r] and leaves [L'] staged. *)
Definition computes {A} (m : Tx A) (L L' : gmap string Doc) (r : Result A Error) : Prop :=
  forall s, stages_as L s -> exists s', m s = Some (Done (s', r)) /\ stages_as L' s'.

Lemma computes_lift {A} (r : Result A Error) L : computes (tx_lift r) L L r.
Proof. intros s Hs. by exists s. Qed.

Lemma computes_ret {A} (a : A) L : computes (tx_ret a) L L (Ok a).
Proof. intros s Hs. by exists s. Qed.

Lemma computes_fail {A} e L : computes (tx_fail (A := A) e) L L (Err e).
Proof. intros s Hs. by exists s. Qed.

Lemma computes_bind {A B} (m : Tx A) (k : A -> Tx B) L L1 L2 a r :
  computes m L L1 (Ok a) -> computes (k a) L1 L2 r -> computes (tx_bind m k) L L2 r.
Proof.
  intros Hm Hk s Hs. destruct (Hm s Hs) as (s1 & E1 & Hs1). destruct (Hk s1 Hs1) as (s2 & E2 & Hs2).
  exists s2. split; [|done]. unfold tx_bind. by rewrite E1.
Qed.

Lemma computes_bind_err {A B} (m : Tx A) (k : A -> Tx B) L L1 e :
  computes m L L1 (Err e) -> computes (tx_bind m k) L L1 (Err e).
Proof. intros Hm s Hs. destruct (Hm s Hs) as (s1 & E1 & Hs1). exists s1. split; [|done]. unfold tx_bind. by rewrite E1. Qed.

Lemma computes_try {A} (m : Tx A) L L' r : computes m L L' r -> computes (tx_try m) L L' (Ok r).
Proof. intros Hm s Hs. destruct (Hm s Hs) as (s1 & E1 & Hs1). exists s1. split; [|done]. unfold tx_try. by rewrite E1. Qed.

(** ** The operations of a store *)

Lemma computes_full name c L :
  C !! name = Some c -> computes (get_full_state iter blake3_raw_cid root name) L L (Ok c).
Proof.
  intros Hc s (Hi & b & Hb & Hl). destruct (sr_read name c s Hi Hc) as (s' & E & Hi' & Hb').
  exists s'. split; [done|]. split; [done|]. exists b. by rewrite Hb'.
Qed.

Lemma computes_local name L : is_Some (C !! name) -> computes (local_data name) L L (Ok (L !! name)).
Proof.
  intros Hc s (Hi & b & Hb & Hl). exists s. split; [|split; eauto]. by rewrite (local_data_eq name s b), Hl.
Qed.

Lemma computes_init name L : is_Some (C !! name) -> computes (init_subtree_parents iter root name) L L (Ok tt).
Proof.
  intros Hc s (Hi & b & Hb & Hl). exists s. split; [|split; eauto].
  destruct (sr_open s Hi) as (b' & Hb' & Hhas). simplify_eq.
  unfold init_subtree_parents, tx_bind, get_builder. rewrite Hb. cbn [ok_or]. by rewrite Hhas.
Qed.

Context (Hjson : json_faithful).

Lemma computes_stage name d L : is_Some (C !! name) -> computes (stage root name d) L (<[name := d]> L) (Ok tt).
Proof.
  intros Hc s (Hi & b & Hb & Hl). destruct (sr_open s Hi) as (b' & Hb' & Hhas). simplify_eq.
  destruct (Hjson d) as [Hj Hne].
  exists (with_builder s (set_subtree_data b name (doc_to_json d))). split.
  - unfold stage, update_subtree, tx_bind, get_builder. rewrite Hb. cbn [ok_or]. rewrite Hhas by done.
    unfold tx_ret. rewrite Hb. done.
  - split; [by apply sr_stage|]. eexists. split; [done|]. intros name' Hc'. unfold staged.
    rewrite builder_data_set. destruct (decide (name' = name)) as [->|Hn].
    + rewrite lookup_insert_eq. destruct (doc_to_json d) eqn:E; [done|]. by rewrite Hj.
    + rewrite lookup_insert_ne by done. exact (Hl name' Hc').
Qed.

(** The value that the transaction sees under a path: staged, or else committed. *)
Definition seen (L : gmap string Doc) (name path : string) : option Value :=
  match l ← L !! name; Doc_get l path with
  | Some v => Some v
  | None => c ← C !! name; Doc_get c path
  end.

Definition set_at (L : gmap string Doc) (name path : string) (v : Value) : gmap string Doc :=
  <[name := (Doc_set (default Doc_new (L !! name)) path v).1]> L.

Lemma computes_get_path name path L :
  is_Some (C !! name) ->
  computes (DocStore_get_path iter blake3_raw_cid root name path) L L
    (match seen L name path with Some v => Ok v | None => key_not_found name path end).
Proof.
  intros [c Hc]. unfold DocStore_get_path, seen. eapply computes_bind; [by apply computes_local|].
  destruct (l ← L !! name; Doc_get l path) as [v|]; [apply computes_ret|].
  eapply computes_bind; [by apply computes_full|]. rewrite Hc. apply computes_lift.
Qed.

Lemma computes_get_path_ok name path L v :
  is_Some (C !! name) -> seen L name path = Some v ->
  computes (DocStore_get_path iter blake3_raw_cid root name path) L L (Ok v).
Proof. intros Hc Hv. pose proof (computes_get_path name path L Hc) as H. by rewrite Hv in H. Qed.

Lemma computes_get_path_none name path L :
  is_Some (C !! name) -> seen L name path = None ->
  computes (DocStore_get_path iter blake3_raw_cid root name path) L L (key_not_found name path).
Proof. intros Hc Hv. pose proof (computes_get_path name path L Hc) as H. by rewrite Hv in H. Qed.

(** [get], where nothing is staged as deleted. *)
Lemma computes_get name path L v :
  is_Some (C !! name) -> seen L name path = Some v -> computes (DocStore_get iter blake3_raw_cid root name path) L L (Ok v).
Proof.
  intros [c Hc] Hv. unfold DocStore_get, seen in *. eapply computes_bind; [by apply computes_local|].
  rewrite Hc in Hv. cbn [mbind option_bind] in Hv.
  assert (computes (get_committed iter blake3_raw_cid root name path) L L
    (match Doc_get c path with Some v => Ok v | None => key_not_found name path end)) as Hcom
    by (eapply computes_bind; [by apply computes_full|apply computes_lift]).
  destruct (L !! name) as [l|]; cbn [mbind option_bind] in Hv; [|by rewrite Hv in Hcom].
  destruct (Doc_get l path) as [w|] eqn:E; [|by rewrite Hv in Hcom]. injection Hv as ->.
  destruct v; try apply computes_ret. unfold Doc_get, hide_tombstone in E. by destruct (get_raw l path) as [[]|].
Qed.

Lemma computes_set name path v L :
  is_Some (C !! name) -> computes (DocStore_set root name path v) L (set_at L name path v) (Ok tt).
Proof.
  intros Hc. unfold DocStore_set. eapply computes_bind; [by apply computes_local|]. by apply computes_stage.
Qed.

Lemma computes_contains name path L :
  is_Some (C !! name) ->
  computes (DocStore_contains_key iter blake3_raw_cid root name path) L L (Ok (is_some (seen L name path))).
Proof.
  intros [c Hc]. unfold DocStore_contains_key. eapply computes_bind; [apply computes_try, computes_local; eauto|].
  unfold seen, contains_key. rewrite Hc. cbn [mbind option_bind].
  destruct (L !! name) as [l|]; cbn [mbind option_bind].
  - destruct (Doc_get l path) as [v|]; [apply computes_ret|].
    eapply computes_bind; [by apply computes_try, computes_full|]. apply computes_ret.
  - eapply computes_bind; [by apply computes_try, computes_full|]. apply computes_ret.
Qed.

(** The document that [get_all] returns. *)
Definition overlay (L : gmap string Doc) (name : string) : Doc :=
  let c := default Doc_new (C !! name) in
  match L !! name with Some l => Doc_merge c l | None => c end.

Lemma computes_get_all name L :
  is_Some (C !! name) -> computes (DocStore_get_all iter blake3_raw_cid root name) L L (Ok (overlay L name)).
Proof.
  intros [c Hc]. unfold DocStore_get_all, overlay. rewrite Hc.
  eapply computes_bind; [by apply computes_full|]. eapply computes_bind; [apply computes_local; eauto|].
  apply computes_ret.
Qed.

Lemma computes_delete name path L :
  is_Some (C !! name) ->
  computes (DocStore_delete iter blake3_raw_cid root name path) L
    (if Doc_get (overlay L name) path then set_at L name path Deleted else L)
    (Ok (is_some (Doc_get (overlay L name) path))).
Proof.
  intros Hc. unfold DocStore_delete. eapply computes_bind; [by apply computes_get_all|].
  destruct (Doc_get (overlay L name) path); [|apply computes_ret].
  eapply computes_bind; [by apply computes_local|]. eapply computes_bind; [by apply computes_stage|].
  apply computes_ret.
Qed.

(** ** Opening a registered store *)

Context (strategy_of_json : string -> option HeightStrategy).

(** The index has the store, as one of type [T]. *)
Definition registered (T : StoreType) (L : gmap string Doc) (name : string) : Prop :=
  is_system_subtree name = false /\ is_Some (C !! name) /\ is_Some (C !! INDEX)
  /\ exists v info, seen L INDEX name = Some v /\ parse_entry strategy_of_json INDEX v = Ok info
     /\ supports_type_id T (type_id info) = true.

Lemma computes_open T name L :
  registered T L name -> computes (get_store iter blake3_raw_cid root strategy_of_json T name) L L (Ok tt).
Proof.
  intros (Hsys & Hc & Hi & v & info & Hv & Hp & Ht) s Hs. unfold get_store. rewrite Hsys. cbn [andb].
  revert s Hs. change (computes (do _ <- init_subtree_parents iter root name;
    (do _ <- get_index iter root; do known <- Registry_contains iter blake3_raw_cid root strategy_of_json INDEX name;
     if known : bool then do info <- get_entry iter blake3_raw_cid root strategy_of_json INDEX name;
       if supports_type_id T (type_id info) then tx_ret tt
       else tx_lift (Err (EStore (StoreTypeMismatch name (store_type_id T) (type_id info))))
     else set_config iter root T name (default_config T))) L L (Ok tt)).
  assert (computes (get_entry iter blake3_raw_cid root strategy_of_json INDEX name) L L (Ok info)) as Hget.
  { unfold get_entry. eapply computes_bind; [by eapply computes_get|]. rewrite Hp. apply computes_lift. }
  eapply computes_bind; [by apply computes_init|]. eapply computes_bind; [by apply computes_init|].
  eapply computes_bind; [eapply computes_bind; [by apply computes_try|apply computes_ret]|].
  cbn [is_ok]. eapply computes_bind; [done|]. rewrite Ht. apply computes_ret.
Qed.

(** ** Paths of two keys *)

Lemma set_at_same L name path v : set_at L name path v !! name = Some (Doc_set (default Doc_new (L !! name)) path v).1.
Proof. apply lookup_insert_eq. Qed.

Lemma seen_set_other L name name' path path' v :
  name' <> name -> seen (set_at L name path v) name' path' = seen L name' path'.
Proof. intros Hn. unfold seen, set_at. by rewrite lookup_insert_ne. Qed.

Lemma seen_set_same L name path v :
  segments_of path <> [] -> is_deleted v = false -> seen (set_at L name path v) name path = Some v.
Proof.
  intros Hp Hv. unfold seen. rewrite set_at_same. cbn [mbind option_bind]. unfold Doc_get.
  rewrite get_raw_segments, Doc_set_segments, raw_at_set by done. by destruct v.
Qed.

(** No list is staged under the key [a]. *)
Definition slot (L : gmap string Doc) (name a : string) : Prop :=
  forall l u, L !! name = Some l -> children l !! a <> Some (VList u).

Lemma slot_set L name name' a p a' b v :
  segments_of p = [a'; b] -> slot L name a -> slot (set_at L name' p v) name a.
Proof.
  intros Hp Hs l u. unfold set_at. destruct (decide (name = name')) as [->|Hn].
  2: { rewrite lookup_insert_ne by done. apply Hs. }
  rewrite lookup_insert_eq. intros [= <-]. rewrite Doc_set_segments, Hp, set_segments_cons by done. cbn.
  destruct (decide (a' = a)) as [->|Ha]; [by rewrite lookup_insert_eq|]. rewrite lookup_insert_ne by done.
  destruct (L !! name') as [l|] eqn:E; cbn; [|by rewrite lookup_empty]. by apply Hs.
Qed.

(** Writing [a.b] leaves [a.c] as it was. *)
Lemma seen_set_sibling L name p q a b c v :
  segments_of p = [a; b] -> segments_of q = [a; c] -> b <> c -> slot L name a ->
  seen (set_at L name p v) name q = seen L name q.
Proof.
  intros Hp Hq Hne Hdoc. unfold seen. rewrite set_at_same. cbn [mbind option_bind]. unfold Doc_get.
  rewrite !get_raw_segments, Doc_set_segments, Hp, Hq, set_segments_cons by done. cbn. rewrite lookup_insert_eq. cbn.
  rewrite lookup_insert_ne by done. unfold slot in Hdoc.
  destruct (L !! name) as [l|] eqn:El; cbn; [|by rewrite lookup_empty].
  specialize (Hdoc l). rewrite get_raw_segments, Hq. cbn.
  destruct (children l !! a) as [[]|] eqn:Ew; cbn; try done. by destruct (Hdoc l0 eq_refl).
Qed.

(** Nothing is seen below a key that is not there. *)
Lemma seen_below L name a q b :
  segments_of a = [a] -> segments_of q = [a; b] -> seen L name a = None -> seen L name q = None.
Proof.
  intros Ha Hq. unfold seen, Doc_get.
  assert (forall d, hide_tombstone (get_raw d a) = None -> hide_tombstone (get_raw d q) = None) as Hd.
  { intros d. rewrite !get_raw_segments, Ha, Hq. cbn. by destruct (children d !! a) as [[]|]. }
  destruct (L !! name) as [l|]; cbn.
  - specialize (Hd l) as Hl. destruct (hide_tombstone (get_raw l a)); [done|]. rewrite Hl by done.
    destruct (C !! name); cbn; [apply Hd|done].
  - destruct (C !! name); cbn; [apply Hd|done].
Qed.

(** A key under which something was written is there. *)
Lemma seen_above L name a q b v :
  segments_of a = [a] -> segments_of q = [a; b] -> is_Some (seen (set_at L name q v) name a).
Proof.
  intros Ha Hq. unfold seen. rewrite set_at_same. cbn [mbind option_bind]. unfold Doc_get.
  rewrite get_raw_segments, Doc_set_segments, Ha, Hq, set_segments_cons by done. cbn. rewrite lookup_insert_eq. by eexists.
Qed.
End view.

(** ** The transaction keeps the promise *)

Section settled.
Context `{CD : CodecSpec} `{JS : !JsonSpec} `{LS : !LruSpec CacheKey (list Byte.byte)}.
Context (iter : gset ID -> list ID) (blake3_raw_cid : string -> Cid) (root : ID).
Notation cached s := (items (crdt_cache (tx_mem s))).

(** [m] caches states of the store [name] only. *)
Definition caches_only (name : string) {A} (m : Tx A) : Prop := forall s s' r,
  NoDup (cached s).*1 -> m s = Some (Done (s', r)) ->
  NoDup (cached s').*1 /\ forall u id n v, n <> name -> ((u, id, n), v) ∈ cached s' -> ((u, id, n), v) ∈ cached s.

Lemma caches_none name {A} (m : Tx A) :
  (forall s s' r, m s = Some (Done (s', r)) -> crdt_cache (tx_mem s') = crdt_cache (tx_mem s)) -> caches_only name m.
Proof. intros H s s' r Hnd E. rewrite (H s s' r E). done. Qed.

Lemma caches_bind name {A B} (m : Tx A) (k : A -> Tx B) :
  caches_only name m -> (forall a, caches_only name (k a)) -> caches_only name (tx_bind m k).
Proof.
  intros Hm Hk s s' r Hnd E. unfold tx_bind in E. destruct (m s) as [[[s1 [a|e]]|]|] eqn:E1; simplify_eq.
  - destruct (Hm s s1 _ Hnd E1) as [Hnd1 H1]. destruct (Hk a s1 s' r Hnd1 E) as [Hnd2 H2]. eauto.
  - exact (Hm s s' _ Hnd E1).
Qed.

Lemma caches_get name id : caches_only name (get_cached_crdt_state id name).
Proof.
  intros s s' r Hnd. unfold get_cached_crdt_state.
  destruct (cache_get_keeps (crdt_cache (tx_mem s)) Shared id name Hnd) as (Hnd' & Hsub & _).
  destruct (cache_get (crdt_cache (tx_mem s)) Shared id name) as [c' o]. intros [= <- _]. split; [done|].
  intros u i n v _. apply Hsub.
Qed.

Lemma caches_put name id state : caches_only name (cache_crdt_state id name state).
Proof.
  intros s s' r Hnd. unfold cache_crdt_state.
  destruct (cache_put_keeps (crdt_cache (tx_mem s)) Shared id name state Hnd) as (c' & -> & Hnd' & Hsub).
  intros [= <- _]. split; [done|]. intros u i n v Hn Hin. by destruct (Hsub _ _ Hin) as [[[=] _]|[_ ?]].
Qed.

Ltac cache_walk :=
  first
    [ apply caches_get
    | apply caches_put
    | apply caches_bind; [|intros ?]
    | match goal with |- caches_only _ (match ?x with _ => _ end) => destruct x end
    | solve [apply caches_none; intros s s' r [= <- _]; done]
    | solve [apply caches_none; intros s s' r; unfold tx_read; case_match; intros [=]; by simplify_eq] ].

Lemma caches_merge_entries name d es : caches_only name (merge_entries name d es).
Proof. revert d. induction es; intros d; simpl; [|unfold entry_contribution, decrypt_if_needed]; repeat first [apply IHes|cache_walk]. Qed.

Lemma caches_merge_path name d ids : caches_only name (merge_path_entries name d ids).
Proof.
  revert d. induction ids; intros d; simpl; [|unfold entry_contribution, decrypt_if_needed, backend_get];
    repeat first [apply IHids|cache_walk].
Qed.

Lemma caches_single name id : caches_only name (compute_single_entry_state_recursive root name id).
Proof.
  unfold compute_single_entry_state_recursive, decode_cached, decrypt_if_needed, store_cached, encrypt_if_needed, backend_store_at.
  repeat first [apply caches_merge_entries|cache_walk].
Qed.

Lemma caches_merge_based name ids : caches_only name (compute_subtree_state_merge_based iter blake3_raw_cid root name ids).
Proof.
  unfold compute_subtree_state_merge_based, decode_cached, decrypt_if_needed, store_cached, encrypt_if_needed.
  cbn zeta. repeat first [apply caches_single|apply caches_merge_path|cache_walk].
Qed.

Context (Hiter : forall s, iter s ≡ₚ elements s).

(** The state of a store at the tips [ps] is [c]: there are no tips, or the store
    is readable and its tips have a merge base. *)
Definition settled (name : string) (ps : list ID) (c : Doc) (s : TxState) : Prop :=
  let inner := mem_inner (tx_mem s) in
  let enc := encryptors s !! name in
  (ps = [] /\ c = Doc_new)
  \/ readable blake3_raw_cid root name enc inner
     /\ cache_sound blake3_raw_cid root name enc inner (crdt_cache (tx_mem s))
     /\ good_tips root name inner ps /\ store_state root name enc inner ps = Some (Ok c)
     /\ (length ps = 1%nat \/ exists d, common_dominator (entries inner) name ps d).

Definition settled_in (C : gmap string Doc) (s : TxState) : Prop :=
  NoDup (cached s).*1
  /\ exists b, entry_builder s = Some b /\ forall name c, C !! name = Some c ->
       exists ps, EntryBuilder_subtree_parents b name = Ok ps /\ settled name ps c s.

Lemma parents_has b name ps : EntryBuilder_subtree_parents b name = Ok ps -> builder_has b name = true.
Proof.
  unfold EntryBuilder_subtree_parents, builder_has, EntryBuilder_subtrees. intros H. apply bool_decide_eq_true.
  destruct (find_subtree (b_subtrees b) name) as [n|] eqn:E; [|done].
  apply find_subtree_Some in E as [Hin <-]. by apply list_elem_of_fmap_2.
Qed.

Lemma settled_read name c s C :
  settled_in C s -> C !! name = Some c ->
  exists s', get_full_state iter blake3_raw_cid root name s = Some (Done (s', Ok c))
    /\ settled_in C s' /\ entry_builder s' = entry_builder s.
Proof.
  intros (Hnd & b & Hb & Hall) Hc. destruct (Hall name c Hc) as (ps & Hps & Hset).
  unfold get_full_state, tx_bind, get_builder. rewrite Hb. cbn [ok_or]. rewrite (parents_has b name ps Hps).
  unfold tx_ret at 1. rewrite Hb. cbn [ok_or]. rewrite Hps.
  destruct Hset as [[-> ->]|(Hrd & Hcs & Hgood & Hst & Hdom)].
  { exists s. split; [done|]. split; [|done]. split; [done|]. eauto. }
  destruct (is_nil ps) eqn:En; [destruct ps; [by destruct Hgood|done]|].
  destruct (merge_based_eq iter blake3_raw_cid root name (encryptors s !! name) (mem_inner (tx_mem s))
    (rd_history _ _ _ _ _ Hrd) (rd_seal _ _ _ _ _ Hrd) (rd_keys _ _ _ _ _ Hrd) Hiter ps s)
    as (s' & r & E & ((Hm & He & Hcs') & Hb' & Henc & _) & Hr); [done|done|].
  assert (r = Ok c) as ->.
  { destruct Hr as [Hr|(Hl & _ & Hno)]; [congruence|]. destruct Hdom as [H1|[d Hd]]; [lia|]. by destruct (Hno d). }
  exists s'. split; [done|]. split; [|by rewrite Hb'].
  destruct (caches_merge_based name ps s s' _ Hnd E) as [Hnd' Honly]. split; [done|].
  exists b. split; [by rewrite Hb'|]. intros name' c' Hc'. destruct (Hall name' c' Hc') as (ps' & Hps' & Hset').
  exists ps'. split; [done|]. unfold settled in *. rewrite Hm, Henc.
  destruct Hset' as [?|(Hrd' & [_ Hcs2] & Hrest)]; [by left|right]. split; [done|]. split; [|done].
  destruct (decide (name' = name)) as [->|Hn]; [done|]. split; [done|].
  intros id v Hin. apply Hcs2. by apply Honly in Hin.
Qed.

(** A transaction on settled stores. *)
Lemma settled_reads C : StoreReads iter blake3_raw_cid root C (settled_in C).
Proof.
  split.
  - intros s (_ & b & Hb & Hall). exists b. split; [done|]. intros name [c Hc].
    destruct (Hall name c Hc) as (ps & Hps & _). by eapply parents_has.
  - intros name c s Hs Hc. by apply settled_read.
  - intros name data s b (Hnd & b' & Hb & Hall) Hb' Hc. simplify_eq. split; [done|].
    eexists. split; [done|]. intros name' c' Hc'. destruct (Hall name' c' Hc') as (ps & Hps & Hset).
    exists ps. split; [|done]. revert Hps. unfold EntryBuilder_subtree_parents, set_subtree_data, on_subtrees. simpl.
    rewrite find_subtree_upsert by done. destruct (decide (name' = name)) as [->|]; [|done].
    by destruct (find_subtree _ name).
Qed.
End settled.
