(* ===== verification/Peers.v ===== *)
(** * Peers of the sync module (sync/peer_types.rs, sync/peer_manager.rs, sync/peer.rs)

    The registry of remote peers, their addresses and the trees they sync, which
    lives in two document stores of the sync database, and the operations on it,
    each in a transaction of its own.  Shown here: every operation ends and keeps
    what is stored, and within a transaction a registered peer is read back as
    registered, with the addresses and trees that were added to it. *)

From S2P Require Import Prelude.
From S2P Require Import Path.
From S2P Require Import Position.
From S2P Require Import Ids.
From S2P Require Import Doc.
From S2P Require Import DocPath.
From S2P Require Import Errors.
From S2P Require Import Crypto.
From S2P Require Import Permission.
From S2P Require Import AuthTypes.
From S2P Require Import AuthSettings.
From S2P Require Import Entry.
From S2P Require Import Backend.
From S2P Require Import Traversal.
From S2P Require Import CrdtCache.
From S2P Require Import BackendSteps.
From S2P Require Import Reachability.
From S2P Require Import Validation.
From S2P Require Import Verify.
From S2P Require Import InstanceOps.
From S2P Require Import WireCodec.
From S2P Require Import Transaction.
From S2P Require Import Stores.
From S2P Require Import StoreView.
From S2P Require Import Commit.
From S2P Require Import TxFrame.
From S2P Require Import CommitSpec.
From S2P Require Import Lifecycle.
From S2P Require Import Settings.
From S2P Require Import Node.

(** [serde_json] at the lists of texts and of addresses that the registry stores. *)
Class PeerJson := {
  texts_to_json : list string -> string;
  texts_of_json : string -> option (list string);
  addresses_to_json : list Address -> string;
  addresses_of_json : string -> option (list Address);
  texts_of_to_json l : texts_of_json (texts_to_json l) = Some l;
  addresses_of_to_json l : addresses_of_json (addresses_to_json l) = Some l;
}.

Section types.
Context `{CS : CidSpec} `{KS : CryptoSpec}.

Inductive ConnectionState : Type :=
| Disconnected
| Connecting
| Connected
| ConnectionFailed (reason : string).

Inductive PeerStatus : Type := PeerActive | PeerInactive | PeerBlocked.

#[export] Instance PeerStatus_eq_dec : EqDecision PeerStatus.
Proof. solve_decision. Defined.

(** A [PeerId] is a public key. *)
Record PeerInfo : Type := mkPeerInfo {
  pi_id : PublicKey;
  pi_display_name : option string;
  pi_first_seen : string;
  pi_last_seen : string;
  pi_status : PeerStatus;
  pi_addresses : list Address;
  pi_connection_state : ConnectionState;
  pi_last_successful_sync : option string;
  pi_connection_attempts : Z;
  pi_last_error : option string;
}.

Definition PeerInfo_new_at (id : PublicKey) (display_name : option string) (timestamp : string) : PeerInfo :=
  mkPeerInfo id display_name timestamp timestamp PeerActive [] Disconnected None 0 None.

Definition touch_at (p : PeerInfo) (timestamp : string) : PeerInfo :=
  mkPeerInfo (pi_id p) (pi_display_name p) (pi_first_seen p) timestamp (pi_status p) (pi_addresses p)
    (pi_connection_state p) (pi_last_successful_sync p) (pi_connection_attempts p) (pi_last_error p).

Definition with_connection_state (p : PeerInfo) (state : ConnectionState) : PeerInfo :=
  mkPeerInfo (pi_id p) (pi_display_name p) (pi_first_seen p) (pi_last_seen p) (pi_status p) (pi_addresses p)
    state (pi_last_successful_sync p) (pi_connection_attempts p) (pi_last_error p).

(** [PeerInfo::add_address] and [remove_address], on the list. *)
Definition push_address (addresses : list Address) (address : Address) : list Address :=
  if decide (address ∈ addresses) then addresses else addresses ++ [address].

Definition drop_address (addresses : list Address) (address : Address) : list Address * bool :=
  let kept := filter (fun a => a <> address) addresses in
  (kept, negb (bool_decide (length kept = length addresses))).

Definition PeerInfo_get_addresses (p : PeerInfo) (transport : string) : list Address :=
  filter (fun a => transport_type a = transport) (pi_addresses p).

Definition has_transport (p : PeerInfo) (transport : string) : bool :=
  existsb (fun a => bool_decide (transport_type a = transport)) (pi_addresses p).

Definition status_text (s : PeerStatus) : string :=
  match s with PeerActive => "active" | PeerInactive => "inactive" | PeerBlocked => "blocked" end.

Definition status_of_text (s : string) : PeerStatus :=
  if decide (s = "inactive") then PeerInactive
  else if decide (s = "blocked") then PeerBlocked
  else PeerActive.

Definition connection_text (c : ConnectionState) : string :=
  match c with
  | Disconnected => "disconnected"
  | Connecting => "connecting"
  | Connected => "connected"
  | ConnectionFailed msg => "failed:" +:+ msg
  end.

Definition connection_of_text (s : string) : ConnectionState :=
  if decide (s = "disconnected") then Disconnected
  else if decide (s = "connecting") then Connecting
  else if decide (s = "connected") then Connected
  else if String.prefix "failed:" s then ConnectionFailed (String.substring 7 (String.length s - 7) s)
  else Disconnected.
End types.

(** ** The manager *)

Section manager.
Context `{CD : CodecSpec} `{JS : !JsonSpec} `{LS : !LruSpec CacheKey (list Byte.byte)} `{PJ : PeerJson}.
Context (iter : gset ID -> list ID) (key_iter : gset string -> list string) (blake3_raw_cid : string -> Cid).
Context (strategy_of_json : string -> option HeightStrategy).
(** The sync database. *)
Context (root : ID).

Definition PEERS_SUBTREE : string := "peers".
Definition TREES_SUBTREE : string := "trees".

Definition open_store (name : string) : Tx unit :=
  get_store iter blake3_raw_cid root strategy_of_json DocStore_type name.

Definition contains_path (name path : string) : Tx bool := DocStore_contains_key iter blake3_raw_cid root name path.

Definition contains_path_str (name path : string) : Tx bool :=
  contains_path name (path_inner (PathBuf_from_str path)).

Definition get_path_as {T} `{!FromValue T} (name path : string) : Tx T :=
  do value <- DocStore_get_path iter blake3_raw_cid root name path;
  tx_lift (map_err ECRDT (try_from value)).

Definition set_path (name path : string) (value : Value) : Tx unit := DocStore_set root name path value.

Definition sync_error {A} (e : SyncError) : Tx A := tx_fail (ESync e).

(** A field that is written when it is present. *)
Definition set_optional (name path : string) (value : option string) : Tx unit :=
  match value with Some v => set_path name path (Text v) | None => tx_ret tt end.

(** [now] is the reading of the clock. *)
Definition register_peer (now : string) (pubkey : PublicKey) (display_name : option string) : Tx unit :=
  let pk_str := PublicKey_to_string pubkey in
  let peer_info := PeerInfo_new_at pubkey display_name now in
  do _ <- open_store PEERS_SUBTREE;
  do known <- contains_path PEERS_SUBTREE (path_of [pk_str]);
  if known : bool then sync_error (PeerAlreadyExists pk_str)
  else
    do _ <- set_path PEERS_SUBTREE (path_of [pk_str; "pubkey"]) (Text (PublicKey_to_string (pi_id peer_info)));
    do _ <- set_optional PEERS_SUBTREE (path_of [pk_str; "display_name"]) (pi_display_name peer_info);
    do _ <- set_path PEERS_SUBTREE (path_of [pk_str; "first_seen"]) (Text (pi_first_seen peer_info));
    do _ <- set_path PEERS_SUBTREE (path_of [pk_str; "last_seen"]) (Text (pi_last_seen peer_info));
    do _ <- set_path PEERS_SUBTREE (path_of [pk_str; "status"]) (Text (status_text (pi_status peer_info)));
    if is_nil (pi_addresses peer_info) then tx_ret tt
    else set_path PEERS_SUBTREE (path_of [pk_str; "addresses"]) (Text (addresses_to_json (pi_addresses peer_info))).

Definition require_peer (pk_str : string) : Tx unit :=
  do _ <- open_store PEERS_SUBTREE;
  do known <- contains_path_str PEERS_SUBTREE pk_str;
  if known : bool then tx_ret tt else sync_error (PeerNotFound pk_str).

Definition update_peer_info (pubkey : PublicKey) (peer_info : PeerInfo) : Tx unit :=
  let pk_str := PublicKey_to_string pubkey in
  do _ <- require_peer pk_str;
  do _ <- set_path PEERS_SUBTREE (path_of [pk_str; "pubkey"]) (Text (PublicKey_to_string (pi_id peer_info)));
  do _ <- set_optional PEERS_SUBTREE (path_of [pk_str; "display_name"]) (pi_display_name peer_info);
  do _ <- set_path PEERS_SUBTREE (path_of [pk_str; "first_seen"]) (Text (pi_first_seen peer_info));
  do _ <- set_path PEERS_SUBTREE (path_of [pk_str; "last_seen"]) (Text (pi_last_seen peer_info));
  do _ <- set_path PEERS_SUBTREE (path_of [pk_str; "status"]) (Text (status_text (pi_status peer_info)));
  do _ <- set_path PEERS_SUBTREE (path_of [pk_str; "connection_state"]) (Text (connection_text (pi_connection_state peer_info)));
  do _ <- set_optional PEERS_SUBTREE (path_of [pk_str; "last_successful_sync"]) (pi_last_successful_sync peer_info);
  do _ <- set_path PEERS_SUBTREE (path_of [pk_str; "connection_attempts"]) (Int (pi_connection_attempts peer_info));
  do _ <- set_optional PEERS_SUBTREE (path_of [pk_str; "last_error"]) (pi_last_error peer_info);
  if is_nil (pi_addresses peer_info) then tx_ret tt
  else set_path PEERS_SUBTREE (path_of [pk_str; "addresses"]) (Text (addresses_to_json (pi_addresses peer_info))).

Definition update_peer_status (now : string) (pubkey : PublicKey) (status : PeerStatus) : Tx unit :=
  let pk_str := PublicKey_to_string pubkey in
  do _ <- require_peer pk_str;
  do _ <- set_path PEERS_SUBTREE (path_of [pk_str; "status"]) (Text (status_text status));
  set_path PEERS_SUBTREE (path_of [pk_str; "last_seen"]) (Text now).

(** A field that must be there. *)
Definition required_field (pk_str field : string) : Tx string :=
  do r <- tx_try (get_path_as PEERS_SUBTREE (path_of [pk_str; field]));
  match r with Ok v => tx_ret v | Err _ => sync_error SyncSerializationError end.

Definition optional_field {T} `{!FromValue T} (pk_str field : string) : Tx (option T) :=
  do r <- tx_try (get_path_as PEERS_SUBTREE (path_of [pk_str; field]));
  tx_ret (match r with Ok v => Some v | Err _ => None end).

Definition parse_pubkey (s : string) : Tx PublicKey := tx_lift (map_err EAuth (PublicKey_from_string s)).

Definition get_peer_info_str (pk_str : string) : Tx (option PeerInfo) :=
  do _ <- open_store PEERS_SUBTREE;
  do known <- contains_path_str PEERS_SUBTREE pk_str;
  if negb known then tx_ret None
  else
    do peer_pubkey <- required_field pk_str "pubkey";
    do display_name <- optional_field pk_str "display_name";
    do first_seen <- required_field pk_str "first_seen";
    do last_seen <- required_field pk_str "last_seen";
    do status_str <- optional_field pk_str "status";
    do connection_state_str <- optional_field pk_str "connection_state";
    do last_successful_sync <- optional_field pk_str "last_successful_sync";
    do connection_attempts <- optional_field (T := Z) pk_str "connection_attempts";
    do last_error <- optional_field pk_str "last_error";
    do id <- parse_pubkey peer_pubkey;
    do addresses_json <- optional_field pk_str "addresses";
    let peer_info := mkPeerInfo id display_name first_seen last_seen
      (status_of_text (default "active" status_str))
      (default [] (json ← addresses_json; addresses_of_json json))
      (connection_of_text (default "disconnected" connection_state_str)) last_successful_sync
      (default 0 (as_u32 <$> connection_attempts)) last_error in
    tx_ret (if decide (pi_status peer_info = PeerBlocked) then None else Some peer_info).

Definition get_peer_info (pubkey : PublicKey) : Tx (option PeerInfo) :=
  get_peer_info_str (PublicKey_to_string pubkey).

Fixpoint list_peers_go (keys : list string) : Tx (list PeerInfo) :=
  match keys with
  | [] => tx_ret []
  | pubkey_str :: rest =>
      do info <- get_peer_info_str pubkey_str;
      do others <- list_peers_go rest;
      tx_ret (match info with Some p => p :: others | None => others end)
  end.

Definition list_peers : Tx (list PeerInfo) :=
  do _ <- open_store PEERS_SUBTREE;
  do all_peers <- DocStore_get_all iter blake3_raw_cid root PEERS_SUBTREE;
  list_peers_go (key_iter (Doc_keys all_peers)).

(** The peers of a tree, if its list can be read. *)
Definition tree_peer_list (tree_str : string) : Tx (option (list string)) :=
  do r <- tx_try (get_path_as TREES_SUBTREE (path_of [tree_str; "peer_pubkeys"]));
  tx_ret (match r with Ok json => texts_of_json json | Err _ => None end).

(** Take a peer off a tree's list; a tree without peers is deleted. *)
Definition drop_tree_peer (pk_str tree_str : string) : Tx unit :=
  do peers <- tree_peer_list tree_str;
  match peers with
  | None => tx_ret tt
  | Some peer_pubkeys =>
      let kept := filter (fun p => p <> pk_str) peer_pubkeys in
      if decide (length kept = length peer_pubkeys) then tx_ret tt
      else if is_nil kept then
        do _ <- DocStore_delete iter blake3_raw_cid root TREES_SUBTREE tree_str; tx_ret tt
      else set_path TREES_SUBTREE (path_of [tree_str; "peer_pubkeys"]) (Text (texts_to_json kept))
  end.

Fixpoint drop_from_trees (pk_str : string) (trees : list string) : Tx unit :=
  match trees with
  | [] => tx_ret tt
  | tree_str :: rest => do _ <- drop_tree_peer pk_str tree_str; drop_from_trees pk_str rest
  end.

Definition remove_peer (pubkey : PublicKey) : Tx unit :=
  let pk_str := PublicKey_to_string pubkey in
  do _ <- open_store PEERS_SUBTREE;
  do known <- contains_path_str PEERS_SUBTREE pk_str;
  do _ <- (if known : bool then set_path PEERS_SUBTREE (path_of [pk_str; "status"]) (Text "blocked") else tx_ret tt);
  do _ <- open_store TREES_SUBTREE;
  do all_trees <- DocStore_get_all iter blake3_raw_cid root TREES_SUBTREE;
  drop_from_trees pk_str (key_iter (Doc_keys all_trees)).

Definition add_tree_sync (peer_pubkey : PublicKey) (tree_root_id : ID) : Tx unit :=
  let pk_str := PublicKey_to_string peer_pubkey in
  let tree_root_str := ID_to_string tree_root_id in
  do _ <- require_peer pk_str;
  do _ <- open_store TREES_SUBTREE;
  do peers <- tree_peer_list tree_root_str;
  let peer_pubkeys := default [] peers in
  if decide (pk_str ∈ peer_pubkeys) then tx_ret tt
  else
    do _ <- set_path TREES_SUBTREE (path_of [tree_root_str; "peer_pubkeys"]) (Text (texts_to_json (peer_pubkeys ++ [pk_str])));
    set_path TREES_SUBTREE (path_of [tree_root_str; "tree_id"]) (Text tree_root_str).

Definition remove_tree_sync (peer_pubkey : PublicKey) (tree_root_id : ID) : Tx unit :=
  do _ <- open_store TREES_SUBTREE;
  drop_tree_peer (PublicKey_to_string peer_pubkey) (ID_to_string tree_root_id).

Fixpoint peer_trees_go (pk_str : string) (trees : list string) : Tx (list ID) :=
  match trees with
  | [] => tx_ret []
  | tree_id_str :: rest =>
      do peers <- tree_peer_list tree_id_str;
      do others <- peer_trees_go pk_str rest;
      tx_ret (match peers with
              | Some l => if decide (pk_str ∈ l) then
                            match ID_parse tree_id_str with Ok id => id :: others | Err _ => others end
                          else others
              | None => others
              end)
  end.

Definition get_peer_trees (peer_pubkey : PublicKey) : Tx (list ID) :=
  do _ <- open_store TREES_SUBTREE;
  do all_trees <- DocStore_get_all iter blake3_raw_cid root TREES_SUBTREE;
  peer_trees_go (PublicKey_to_string peer_pubkey) (key_iter (Doc_keys all_trees)).

Definition get_tree_peers (tree_root_id : ID) : Tx (list PublicKey) :=
  do _ <- open_store TREES_SUBTREE;
  do peers <- tree_peer_list (ID_to_string tree_root_id);
  tx_ret (omap (fun s => match PublicKey_from_string s with Ok k => Some k | Err _ => None end) (default [] peers)).

Definition is_tree_synced_with_peer (peer_pubkey : PublicKey) (tree_root_id : ID) : Tx bool :=
  do _ <- open_store TREES_SUBTREE;
  do peers <- tree_peer_list (ID_to_string tree_root_id);
  tx_ret (match peers with Some l => bool_decide (PublicKey_to_string peer_pubkey ∈ l) | None => false end).

(** The stored addresses of a peer. *)
Definition stored_addresses (pk_str : string) : Tx (list Address) :=
  do json <- optional_field pk_str "addresses";
  tx_ret (default [] (j ← json; addresses_of_json j)).

Definition store_addresses (now pk_str : string) (addresses : list Address) : Tx unit :=
  do _ <- set_path PEERS_SUBTREE (path_of [pk_str; "addresses"]) (Text (addresses_to_json addresses));
  set_path PEERS_SUBTREE (path_of [pk_str; "last_seen"]) (Text now).

Definition add_address (now : string) (peer_pubkey : PublicKey) (address : Address) : Tx unit :=
  let pk_str := PublicKey_to_string peer_pubkey in
  do _ <- require_peer pk_str;
  do all_addresses <- stored_addresses pk_str;
  if decide (address ∈ all_addresses) then tx_ret tt
  else store_addresses now pk_str (push_address all_addresses address).

Definition remove_address (now : string) (peer_pubkey : PublicKey) (address : Address) : Tx bool :=
  let pk_str := PublicKey_to_string peer_pubkey in
  do _ <- require_peer pk_str;
  do all_addresses <- stored_addresses pk_str;
  let '(kept, removed) := drop_address all_addresses address in
  if removed : bool then do _ <- store_addresses now pk_str kept; tx_ret true
  else tx_ret false.

Definition get_addresses (peer_pubkey : PublicKey) (transport : option string) : Tx (list Address) :=
  do info <- get_peer_info peer_pubkey;
  tx_ret (match info with
          | Some peer_info =>
              match transport with Some t => PeerInfo_get_addresses peer_info t | None => pi_addresses peer_info end
          | None => []
          end).
End manager.

(** ** What the operations do *)

Section peer_facts.
Context `{CD : CodecSpec} `{JS : !JsonSpec} `{LS : !LruSpec CacheKey (list Byte.byte)} `{PJ : PeerJson}.
Context (iter : gset ID -> list ID) (key_iter : gset string -> list string) (blake3_raw_cid : string -> Cid).
Context (strategy_of_json : string -> option HeightStrategy) (root : ID).
Context (C : gmap string Doc) (I : TxState -> Prop) `{SR : !StoreReads iter blake3_raw_cid root C I}.
Context (Hjson : json_faithful).
Notation computes := (StoreView.computes C I).

(** Both stores are open and registered as document stores. *)
Definition ready (L : gmap string Doc) : Prop :=
  registered C strategy_of_json DocStore_type L PEERS_SUBTREE
  /\ registered C strategy_of_json DocStore_type L TREES_SUBTREE.

Lemma open_peers L : ready L -> computes (open_store iter blake3_raw_cid strategy_of_json root PEERS_SUBTREE) L L (Ok tt).
Proof. intros [H _]. by apply computes_open. Qed.

Lemma open_trees L : ready L -> computes (open_store iter blake3_raw_cid strategy_of_json root TREES_SUBTREE) L L (Ok tt).
Proof. intros [_ H]. by apply computes_open. Qed.

(** A field of a record, and its write. *)
Definition field_of (L : gmap string Doc) (name key field : string) : option Value :=
  seen C L name (path_of [key; field]).

Definition put_field (L : gmap string Doc) (name key field : string) (v : Value) : gmap string Doc :=
  set_at L name (path_of [key; field]) v.

Lemma field_put L name key f g v :
  plain key -> plain f -> plain g -> slot L name key -> is_deleted v = false ->
  field_of (put_field L name key f v) name key g = if String.eqb f g then Some v else field_of L name key g.
Proof.
  intros Hk Hf Hg Hs Hv. unfold field_of, put_field. destruct (String.eqb_spec f g) as [->|Hne].
  - apply seen_set_same; [|done]. by rewrite segments_of_pair.
  - eapply seen_set_sibling; [by apply segments_of_pair..|done|done].
Qed.

Lemma slot_put L name name' key key' f v :
  plain key' -> plain f -> slot L name key -> slot (put_field L name' key' f v) name key.
Proof. intros Hk Hf. eapply slot_set. by apply segments_of_pair. Qed.

Lemma ready_put L name key f v :
  (name = PEERS_SUBTREE \/ name = TREES_SUBTREE) -> ready L -> ready (put_field L name key f v).
Proof.
  intros Hn [(? & ? & ? & w & i & Hw & ?) (? & ? & ? & w' & i' & Hw' & ?)].
  assert (INDEX <> name) as Hne by (by destruct Hn as [->| ->]).
  split; (do 3 (split; [done|])); [exists w, i|exists w', i']; unfold put_field; by rewrite seen_set_other.
Qed.

Lemma computes_put name key f v L :
  is_Some (C !! name) -> computes (set_path root name (path_of [key; f]) v) L (put_field L name key f v) (Ok tt).
Proof. intros Hc. by apply (computes_set iter blake3_raw_cid). Qed.

(** Reading a field as a [T], errors kept as values. *)
Definition read_as {T} `{!FromValue T} (L : gmap string Doc) (name key field : string) : option T :=
  v ← field_of L name key field; match try_from v with Ok x => Some x | Err _ => None end.

Lemma computes_get_as {T} `{!FromValue T} name key f L :
  is_Some (C !! name) ->
  exists r, computes (get_path_as (T := T) iter blake3_raw_cid root name (path_of [key; f])) L L r
    /\ read_as (T := T) L name key f = match r with Ok x => Some x | Err _ => None end.
Proof.
  intros Hc. unfold get_path_as, read_as, field_of. destruct (seen C L name (path_of [key; f])) as [v|] eqn:E.
  - exists (map_err ECRDT (try_from v)). split; [|cbn; by destruct (try_from v)].
    eapply computes_bind; [by eapply computes_get_path_ok|]. apply computes_lift.
  - eexists. split; [eapply computes_bind_err; by eapply computes_get_path_none|done].
Qed.

Lemma computes_optional {T} `{!FromValue T} key f L :
  is_Some (C !! PEERS_SUBTREE) ->
  computes (optional_field (T := T) iter blake3_raw_cid root key f) L L (Ok (read_as L PEERS_SUBTREE key f)).
Proof.
  intros Hc. destruct (computes_get_as (T := T) PEERS_SUBTREE key f L Hc) as (r & Hr & ->).
  eapply computes_bind; [by apply computes_try|]. apply computes_ret.
Qed.

Lemma computes_required key f L x :
  is_Some (C !! PEERS_SUBTREE) -> read_as L PEERS_SUBTREE key f = Some x ->
  computes (required_field iter blake3_raw_cid root key f) L L (Ok x).
Proof.
  intros Hc Hx. destruct (computes_get_as (T := string) PEERS_SUBTREE key f L Hc) as (r & Hr & E).
  rewrite Hx in E. destruct r as [y|]; [|done]. injection E as ->.
  eapply computes_bind; [by apply computes_try|]. apply computes_ret.
Qed.

Lemma computes_tree_peers tree L :
  is_Some (C !! TREES_SUBTREE) ->
  computes (tree_peer_list iter blake3_raw_cid root tree) L L
    (Ok (json ← read_as L TREES_SUBTREE tree "peer_pubkeys"; texts_of_json json)).
Proof.
  intros Hc. destruct (computes_get_as (T := string) TREES_SUBTREE tree "peer_pubkeys" L Hc) as (r & Hr & ->).
  eapply computes_bind; [by apply computes_try|]. destruct r; apply computes_ret.
Qed.

Lemma computes_known key L :
  plain key -> is_Some (C !! PEERS_SUBTREE) ->
  computes (contains_path_str iter blake3_raw_cid root PEERS_SUBTREE key) L L (Ok (is_some (seen C L PEERS_SUBTREE key)))
  /\ computes (contains_path iter blake3_raw_cid root PEERS_SUBTREE (path_of [key])) L L
       (Ok (is_some (seen C L PEERS_SUBTREE key))).
Proof.
  intros Hk Hc. destruct (plain_normal key Hk) as [Hn _].
  assert (path_inner (PathBuf_from_str key) = key /\ path_of [key] = key) as [E1 E2].
  { split; [exact Hn|]. destruct Hk as (Ht & _ & He). apply str_is_empty_false in He.
    unfold path_of, add_component. cbn [foldl]. rewrite Ht, He. unfold PathBuf_push. by rewrite Hn, He. }
  unfold contains_path_str. rewrite E1, E2. split; by apply computes_contains.
Qed.

Lemma computes_require key L :
  plain key -> ready L ->
  computes (require_peer iter blake3_raw_cid strategy_of_json root key) L L
    (if seen C L PEERS_SUBTREE key then Ok tt else Err (ESync (PeerNotFound key))).
Proof.
  intros Hk Hr. eapply computes_bind; [by apply open_peers|].
  eapply computes_bind; [apply computes_known; [done|apply Hr]|].
  destruct (seen C L PEERS_SUBTREE key); [apply computes_ret|apply computes_fail].
Qed.

(** The writes of some fields of a record; an absent value is not written. *)
Fixpoint put_all (L : gmap string Doc) (name key : string) (fields : list (string * option Value)) : gmap string Doc :=
  match fields with
  | [] => L
  | (f, o) :: rest => put_all (match o with Some v => put_field L name key f v | None => L end) name key rest
  end.

(** The last value that the writes give a field, or the old one. *)
Fixpoint written (fields : list (string * option Value)) (g : string) (old : option Value) : option Value :=
  match fields with
  | [] => old
  | (f, o) :: rest =>
      written rest g (match o with Some v => if String.eqb f g then Some v else old | None => old end)
  end.

Definition writable (fv : string * option Value) : Prop :=
  plain fv.1 /\ forall v, fv.2 = Some v -> is_deleted v = false.

Lemma field_put_all L name key fields g :
  plain key -> Forall writable fields -> plain g -> slot L name key ->
  field_of (put_all L name key fields) name key g = written fields g (field_of L name key g).
Proof.
  intros Hk Hf Hg. revert L. induction Hf as [|[f [v|]] fields [Hp Hv] Hf IH]; intros L Hs; simpl in *; [done| |by apply IH].
  rewrite IH by (by apply slot_put). by rewrite field_put by auto.
Qed.

Lemma slot_put_all L name name' key key' fields :
  plain key' -> Forall writable fields -> slot L name key -> slot (put_all L name' key' fields) name key.
Proof.
  intros Hk Hf. revert L. induction Hf as [|[f [v|]] fields [Hp Hv] Hf IH]; intros L Hs; simpl in *; [done| |by apply IH].
  by apply IH, slot_put.
Qed.

Lemma ready_put_all L name key fields :
  (name = PEERS_SUBTREE \/ name = TREES_SUBTREE) -> ready L -> ready (put_all L name key fields).
Proof.
  intros Hn. revert L. induction fields as [|[f [v|]] fields IH]; intros L Hr; simpl; [done| |by apply IH].
  by apply IH, ready_put.
Qed.

Lemma known_put L key f v :
  plain key -> plain f -> is_Some (seen C (put_field L PEERS_SUBTREE key f v) PEERS_SUBTREE key).
Proof. intros Hk Hf. eapply seen_above; [by apply segments_of_plain|by apply segments_of_pair]. Qed.

Lemma known_put_all L key fields :
  plain key -> Forall writable fields -> is_Some (seen C L PEERS_SUBTREE key) ->
  is_Some (seen C (put_all L PEERS_SUBTREE key fields) PEERS_SUBTREE key).
Proof.
  intros Hk Hf. revert L. induction Hf as [|[f [v|]] fields [Hp Hv] Hf IH]; intros L Hs; simpl in *; [done| |by apply IH].
  by apply IH, known_put.
Qed.

Lemma known_put_head L key f v fields :
  plain key -> Forall writable ((f, Some v) :: fields) ->
  is_Some (seen C (put_all L PEERS_SUBTREE key ((f, Some v) :: fields)) PEERS_SUBTREE key).
Proof. intros Hk [[Hf _] Hfs]%Forall_cons. cbn [put_all]. by apply known_put_all, known_put. Qed.

Lemma computes_put_optional {A} (k : unit -> Tx A) key f (o : option string) L L' r :
  is_Some (C !! PEERS_SUBTREE) ->
  computes (k tt) (match Text <$> o with Some v => put_field L PEERS_SUBTREE key f v | None => L end) L' r ->
  computes (do x <- set_optional root PEERS_SUBTREE (path_of [key; f]) o; k x) L L' r.
Proof.
  intros Hc Hk. eapply computes_bind; [|exact Hk]. destruct o; [by apply computes_put|apply computes_ret].
Qed.

(** The record of a peer, as the fields give it. *)
Definition peer_at (L : gmap string Doc) (key : string) (id : PublicKey) (first_seen last_seen : string) : PeerInfo :=
  let text f : option string := read_as L PEERS_SUBTREE key f in
  mkPeerInfo id (text "display_name") first_seen last_seen (status_of_text (default "active" (text "status")))
    (default [] (json ← text "addresses"; addresses_of_json json))
    (connection_of_text (default "disconnected" (text "connection_state"))) (text "last_successful_sync")
    (default 0 (as_u32 <$> read_as (T := Z) L PEERS_SUBTREE key "connection_attempts")) (text "last_error").

Definition visible (p : PeerInfo) : option PeerInfo := if decide (pi_status p = PeerBlocked) then None else Some p.

Lemma computes_get_peer L pk first_seen last_seen :
  let key := PublicKey_to_string pk in
  plain key -> ready L -> is_Some (seen C L PEERS_SUBTREE key) ->
  read_as L PEERS_SUBTREE key "pubkey" = Some key ->
  read_as L PEERS_SUBTREE key "first_seen" = Some first_seen ->
  read_as L PEERS_SUBTREE key "last_seen" = Some last_seen ->
  computes (get_peer_info iter blake3_raw_cid strategy_of_json root pk) L L
    (Ok (visible (peer_at L key pk first_seen last_seen))).
Proof.
  cbn zeta. intros Hk Hr [w Hw] Hpk Hfirst Hlast. assert (is_Some (C !! PEERS_SUBTREE)) as Hc by apply Hr.
  unfold get_peer_info, get_peer_info_str. eapply computes_bind; [by apply open_peers|].
  eapply computes_bind; [by apply computes_known|]. rewrite Hw. cbn [is_some negb].
  eapply computes_bind; [by eapply computes_required|]. eapply computes_bind; [by apply computes_optional|].
  do 2 (eapply computes_bind; [by eapply computes_required|]). do 5 (eapply computes_bind; [by apply computes_optional|]).
  eapply computes_bind; [unfold parse_pubkey; rewrite PublicKey_from_to_string; apply computes_lift|].
  eapply computes_bind; [by apply computes_optional|]. apply computes_ret.
Qed.

(** ** Records *)

Lemma plain_literal : Forall plain ["pubkey"; "display_name"; "first_seen"; "last_seen"; "status"; "connection_state";
  "last_successful_sync"; "connection_attempts"; "last_error"; "addresses"; "peer_pubkeys"; "tree_id"].
Proof. repeat constructor; discriminate. Qed.

Lemma str_prefix_app a b : String.prefix a (a +:+ b) = true.
Proof.
  induction a as [|x a IH]; [by destruct b|]. change (String x a +:+ b) with (String x (a +:+ b)).
  cbn [String.prefix]. by destruct (Ascii.ascii_dec x x).
Qed.

Lemma str_substring_all s : String.substring 0 (String.length s) s = s.
Proof. induction s as [|x s IH]; [done|]. cbn. by rewrite IH. Qed.

Lemma str_after_prefix a b :
  String.substring (String.length a) (String.length (a +:+ b) - String.length a) (a +:+ b) = b.
Proof.
  induction a as [|x a IH]; [|exact IH]. change (EmptyString +:+ b) with b. cbn [String.length].
  rewrite Nat.sub_0_r. apply str_substring_all.
Qed.

Lemma status_roundtrip s : status_of_text (status_text s) = s.
Proof. by destruct s. Qed.

Lemma connection_roundtrip c : connection_of_text (connection_text c) = c.
Proof.
  destruct c as [| | |msg]; try done. unfold connection_of_text, connection_text.
  rewrite !decide_False by discriminate. rewrite str_prefix_app. f_equal. apply (str_after_prefix "failed:").
Qed.

Definition text (s : string) : option Value := Some (Text s).

Definition registration (key : string) (name : option string) (now : string) : list (string * option Value) :=
  [("pubkey", text key); ("display_name", Text <$> name); ("first_seen", text now); ("last_seen", text now);
   ("status", text "active")].

Definition record_of (p : PeerInfo) : list (string * option Value) :=
  [("pubkey", text (PublicKey_to_string (pi_id p))); ("display_name", Text <$> pi_display_name p);
   ("first_seen", text (pi_first_seen p)); ("last_seen", text (pi_last_seen p));
   ("status", text (status_text (pi_status p))); ("connection_state", text (connection_text (pi_connection_state p)));
   ("last_successful_sync", Text <$> pi_last_successful_sync p); ("connection_attempts", Some (Int (pi_connection_attempts p)));
   ("last_error", Text <$> pi_last_error p);
   ("addresses", if is_nil (pi_addresses p) then None else text (addresses_to_json (pi_addresses p)))].

Lemma registration_writable key name now : Forall writable (registration key name now).
Proof. repeat constructor; cbn; try discriminate; intros v; try (by intros [= <-]). by destruct name; intros [= <-]. Qed.

Lemma record_writable p : Forall writable (record_of p).
Proof.
  repeat constructor; cbn; try discriminate; intros v.
  all: try by intros [= <-].
  - by destruct (pi_display_name p); intros [= <-].
  - by destruct (pi_last_successful_sync p); intros [= <-].
  - by destruct (pi_last_error p); intros [= <-].
  - by destruct (is_nil (pi_addresses p)); intros [= <-].
Qed.

Lemma register_computes L pk name now :
  let key := PublicKey_to_string pk in
  plain key -> ready L -> seen C L PEERS_SUBTREE key = None ->
  computes (register_peer iter blake3_raw_cid strategy_of_json root now pk name) L
    (put_all L PEERS_SUBTREE key (registration key name now)) (Ok tt).
Proof.
  cbn zeta. intros Hk Hr Hw. assert (is_Some (C !! PEERS_SUBTREE)) as Hc by apply Hr.
  eapply computes_bind; [by apply open_peers|]. eapply computes_bind; [by apply computes_known|]. rewrite Hw.
  cbn [is_some]. eapply computes_bind; [by apply computes_put|]. apply computes_put_optional; [done|].
  do 3 (eapply computes_bind; [by apply computes_put|]). apply computes_ret.
Qed.

Lemma update_computes L pk p :
  let key := PublicKey_to_string pk in
  plain key -> ready L -> is_Some (seen C L PEERS_SUBTREE key) ->
  computes (update_peer_info iter blake3_raw_cid strategy_of_json root pk p) L
    (put_all L PEERS_SUBTREE key (record_of p)) (Ok tt).
Proof.
  cbn zeta. intros Hk Hr [w Hw]. assert (is_Some (C !! PEERS_SUBTREE)) as Hc by apply Hr.
  pose proof (computes_require (PublicKey_to_string pk) L Hk Hr) as Hreq. rewrite Hw in Hreq.
  eapply computes_bind; [exact Hreq|]. eapply computes_bind; [by apply computes_put|].
  apply computes_put_optional; [done|]. do 4 (eapply computes_bind; [by apply computes_put|]).
  apply computes_put_optional; [done|]. eapply computes_bind; [by apply computes_put|].
  apply computes_put_optional; [done|]. unfold record_of. cbn [put_all].
  destruct (is_nil (pi_addresses p)); [apply computes_ret|by apply computes_put].
Qed.

(** A value that is kept when no new one is given. *)
Definition or_old {A} (new old : option A) : option A := match new with Some _ => new | None => old end.

(** What [update_peer_info] leaves: an absent name, sync time, error or list of
    addresses does not replace the stored one. *)
Definition updated (p old : PeerInfo) : PeerInfo :=
  mkPeerInfo (pi_id p) (or_old (pi_display_name p) (pi_display_name old)) (pi_first_seen p) (pi_last_seen p)
    (pi_status p) (if is_nil (pi_addresses p) then pi_addresses old else pi_addresses p) (pi_connection_state p)
    (or_old (pi_last_successful_sync p) (pi_last_successful_sync old)) (pi_connection_attempts p)
    (or_old (pi_last_error p) (pi_last_error old)).

Lemma read_put_all {T} `{!FromValue T} L key fields g :
  plain key -> Forall writable fields -> plain g -> slot L PEERS_SUBTREE key ->
  read_as (T := T) (put_all L PEERS_SUBTREE key fields) PEERS_SUBTREE key g
  = v ← written fields g (field_of L PEERS_SUBTREE key g); match try_from v with Ok x => Some x | Err _ => None end.
Proof. intros. unfold read_as. by rewrite field_put_all. Qed.

Lemma field_below L key f :
  plain key -> plain f -> seen C L PEERS_SUBTREE key = None -> field_of L PEERS_SUBTREE key f = None.
Proof. intros Hk Hf. apply seen_below with (b := f); [by apply segments_of_plain|by apply segments_of_pair]. Qed.

Lemma register_reads L pk name now :
  let key := PublicKey_to_string pk in
  let L' := put_all L PEERS_SUBTREE key (registration key name now) in
  plain key -> slot L PEERS_SUBTREE key -> ready L -> seen C L PEERS_SUBTREE key = None ->
  computes (get_peer_info iter blake3_raw_cid strategy_of_json root pk) L' L' (Ok (Some (PeerInfo_new_at pk name now))).
Proof.
  cbn zeta. intros Hk Hs Hr Hw. set (key := PublicKey_to_string pk) in *.
  pose proof (registration_writable key name now) as Hwr.
  assert (forall f, plain f -> field_of L PEERS_SUBTREE key f = None) as Hnone by (intros; by apply field_below).
  pose proof plain_literal as Hlit.
  assert (forall T (F : FromValue T) g, plain g -> read_as (T := T) (put_all L PEERS_SUBTREE key (registration key name now)) PEERS_SUBTREE key g
    = v ← written (registration key name now) g None; match try_from v with Ok x => Some x | Err _ => None end) as Hread.
  { intros T F g Hg. rewrite read_put_all by done. by rewrite Hnone. }
  rewrite !Forall_cons in Hlit. destruct Hlit as (P1 & P2 & P3 & P4 & P5 & P6 & P7 & P8 & P9 & P10 & _).
  assert (peer_at (put_all L PEERS_SUBTREE key (registration key name now)) key pk now now = PeerInfo_new_at pk name now) as Heq.
  { unfold peer_at. rewrite !Hread by done. cbn. by destruct name. }
  eassert (Some _ = visible _) as ->; [|apply computes_get_peer with (first_seen := now) (last_seen := now); try done].
  - fold key. rewrite Heq. done.
  - by apply ready_put_all; [left|].
  - by apply known_put_head.
  - rewrite Hread by done. by destruct name.
  - rewrite Hread by done. by destruct name.
  - rewrite Hread by done. by destruct name.
Qed.

Lemma update_reads L pk p :
  let key := PublicKey_to_string pk in
  let L' := put_all L PEERS_SUBTREE key (record_of p) in
  plain key -> slot L PEERS_SUBTREE key -> ready L -> pi_id p = pk -> is_u32 (pi_connection_attempts p) = true ->
  computes (get_peer_info iter blake3_raw_cid strategy_of_json root pk) L' L'
    (Ok (visible (updated p (peer_at L key pk "" "")))).
Proof.
  cbn zeta. intros Hk Hs Hr <- Hn. set (key := PublicKey_to_string (pi_id p)) in *.
  pose proof (record_writable p) as Hwr. pose proof plain_literal as Hlit.
  assert (forall T (F : FromValue T) g, plain g -> read_as (T := T) (put_all L PEERS_SUBTREE key (record_of p)) PEERS_SUBTREE key g
    = v ← written (record_of p) g (field_of L PEERS_SUBTREE key g); match try_from v with Ok x => Some x | Err _ => None end) as Hread.
  { intros T F g Hg. by rewrite read_put_all by done. }
  rewrite !Forall_cons in Hlit. destruct Hlit as (P1 & P2 & P3 & P4 & P5 & P6 & P7 & P8 & P9 & P10 & _).
  assert (peer_at (put_all L PEERS_SUBTREE key (record_of p)) key (pi_id p) (pi_first_seen p) (pi_last_seen p)
    = updated p (peer_at L key (pi_id p) "" "")) as <-.
  { unfold peer_at. rewrite !Hread by done. unfold updated, record_of.
    destruct (pi_display_name p), (pi_last_successful_sync p), (pi_last_error p), (pi_addresses p);
      cbn -[status_of_text connection_of_text]; by rewrite status_roundtrip, connection_roundtrip, as_u32_id, ?addresses_of_to_json. }
  apply computes_get_peer; [done|by apply ready_put_all; [left|]|by apply known_put_head|..];
    rewrite Hread by done; unfold record_of;
    by destruct (pi_display_name p), (pi_last_successful_sync p), (pi_last_error p), (is_nil _).
Qed.

(** The registry of peers.  A peer that is not there can be registered and is
    then read back as registered; it cannot be updated.  One that is there cannot
    be registered again; an update of it is read back, except that an absent name,
    sync time or error and an empty list of addresses leave what was stored, and
    that a peer updated to be blocked is no longer found. *)
Theorem peer_registry_spec L pk name now p :
  let key := PublicKey_to_string pk in
  plain key -> slot L PEERS_SUBTREE key -> ready L -> pi_id p = pk -> is_u32 (pi_connection_attempts p) = true ->
  match seen C L PEERS_SUBTREE key with
  | None =>
      (exists L', computes (register_peer iter blake3_raw_cid strategy_of_json root now pk name) L L' (Ok tt)
         /\ computes (get_peer_info iter blake3_raw_cid strategy_of_json root pk) L' L' (Ok (Some (PeerInfo_new_at pk name now))))
      /\ computes (update_peer_info iter blake3_raw_cid strategy_of_json root pk p) L L (Err (ESync (PeerNotFound key)))
  | Some _ =>
      computes (register_peer iter blake3_raw_cid strategy_of_json root now pk name) L L (Err (ESync (PeerAlreadyExists key)))
      /\ exists L', computes (update_peer_info iter blake3_raw_cid strategy_of_json root pk p) L L' (Ok tt)
         /\ computes (get_peer_info iter blake3_raw_cid strategy_of_json root pk) L' L'
              (Ok (if decide (pi_status p = PeerBlocked) then None else Some (updated p (peer_at L key pk "" ""))))
  end.
Proof.
  cbn zeta. intros Hk Hs Hr Hp Hn. destruct (seen C L PEERS_SUBTREE (PublicKey_to_string pk)) as [w|] eqn:Hw.
  - split.
    + eapply computes_bind; [by apply open_peers|]. eapply computes_bind; [by apply computes_known; [|apply Hr]|].
      rewrite Hw. apply computes_fail.
    + eexists. split; [by apply update_computes; [| |eexists]|]. by apply update_reads.
  - split; [|eapply computes_bind_err; pose proof (computes_require _ L Hk Hr) as H; by rewrite Hw in H].
    eexists. split; [by apply register_computes|by apply register_reads].
Qed.

(** ** Trees and addresses *)

Definition tree_peers (L : gmap string Doc) (tree : string) : option (list string) :=
  json ← read_as L TREES_SUBTREE tree "peer_pubkeys"; texts_of_json json.

Lemma tree_peers_put L tree l :
  plain tree -> slot L TREES_SUBTREE tree ->
  tree_peers (put_field L TREES_SUBTREE tree "peer_pubkeys" (Text (texts_to_json l))) tree = Some l.
Proof.
  intros Ht Hs. unfold tree_peers, read_as. rewrite field_put; [|done|split_and!; done|split_and!; done|done..].
  cbn. apply texts_of_to_json.
Qed.

Lemma tree_peers_other L tree f v :
  plain tree -> plain f -> slot L TREES_SUBTREE tree -> is_deleted v = false -> String.eqb f "peer_pubkeys" = false ->
  tree_peers (put_field L TREES_SUBTREE tree f v) tree = tree_peers L tree.
Proof.
  intros Ht Hf Hs Hv E. unfold tree_peers, read_as. rewrite field_put; [|done..|split_and!; done|done|done]. by rewrite E.
Qed.

Lemma is_synced_computes L pk tree :
  ready L ->
  computes (is_tree_synced_with_peer iter blake3_raw_cid strategy_of_json root pk tree) L L
    (Ok (match tree_peers L (ID_to_string tree) with
         | Some l => bool_decide (PublicKey_to_string pk ∈ l) | None => false end)).
Proof.
  intros Hr. eapply computes_bind; [by apply open_trees|].
  eapply computes_bind; [apply computes_tree_peers, Hr|]. apply computes_ret.
Qed.

(** The relation of peers and trees: after [add_tree_sync] of a known peer the tree
    is synced with it, and with every peer it was synced with before; taking it
    off again while others remain leaves exactly the others. *)
Theorem tree_sync_spec L pk tree :
  let key := PublicKey_to_string pk in
  let tree_str := ID_to_string tree in
  let before := default [] (tree_peers L tree_str) in
  plain key -> plain tree_str -> ready L -> slot L TREES_SUBTREE tree_str -> is_Some (seen C L PEERS_SUBTREE key) ->
  exists L', computes (add_tree_sync iter blake3_raw_cid strategy_of_json root pk tree) L L' (Ok tt)
    /\ ready L' /\ slot L' TREES_SUBTREE tree_str
    /\ default [] (tree_peers L' tree_str) = (if decide (key ∈ before) then before else before ++ [key])
    /\ forall rest, filter (fun p => p <> key) (default [] (tree_peers L' tree_str)) = rest -> rest <> [] ->
         exists L'', computes (remove_tree_sync iter blake3_raw_cid strategy_of_json root pk tree) L' L'' (Ok tt)
           /\ tree_peers L'' tree_str = Some rest.
Proof.
  cbn zeta. intros Hk Ht Hr Hs [w Hw]. set (key := PublicKey_to_string pk) in *. set (t := ID_to_string tree) in *.
  set (before := default [] (tree_peers L t)).
  pose proof (computes_require key L Hk Hr) as Hreq. rewrite Hw in Hreq.
  assert (plain "peer_pubkeys" /\ plain "tree_id") as [P1 P2] by (split_and!; split_and!; done).
  set (L' := if decide (key ∈ before) then L else
    put_field (put_field L TREES_SUBTREE t "peer_pubkeys" (Text (texts_to_json (before ++ [key])))) TREES_SUBTREE t "tree_id" (Text t)).
  assert (ready L' /\ slot L' TREES_SUBTREE t
    /\ default [] (tree_peers L' t) = if decide (key ∈ before) then before else before ++ [key]) as (Hr' & Hs' & Hl').
  { subst L'. destruct (decide (key ∈ before)); [done|]. split; [by do 2 (apply ready_put; [by right|])|].
    split; [by do 2 (apply slot_put; [done..|])|]. rewrite tree_peers_other by (by try apply slot_put).
    by rewrite tree_peers_put. }
  exists L'. split; [|do 3 (split; [done|])].
  - eapply computes_bind; [exact Hreq|]. eapply computes_bind; [by apply open_trees|].
    eapply computes_bind; [apply computes_tree_peers, Hr|]. fold key t (tree_peers L t) before. subst L'.
    cbn zeta. destruct (decide (key ∈ before)); [apply computes_ret|].
    eapply computes_bind; [by apply computes_put; apply Hr|]. by apply computes_put; apply Hr.
  - intros rest Hrest Hne. rewrite Hl' in Hrest.
    assert (tree_peers L' t = Some (if decide (key ∈ before) then before else before ++ [key])) as Hp.
    { destruct (tree_peers L' t) as [l|]; cbn in Hl'; [by rewrite Hl'|]. exfalso. apply Hne. by rewrite <- Hrest, <- Hl'. }
    assert (key ∈ (if decide (key ∈ before) then before else before ++ [key])) as Hin by (case_decide; set_solver).
    exists (put_field L' TREES_SUBTREE t "peer_pubkeys" (Text (texts_to_json rest))).
    split; [|by apply tree_peers_put].
    eapply computes_bind; [by apply open_trees|]. eapply computes_bind; [apply computes_tree_peers, Hr'|].
    fold key t (tree_peers L' t). rewrite Hp. cbn zeta.
    rewrite decide_False by (pose proof (length_filter_lt (fun p => p <> key) _ key Hin); naive_solver lia).
    rewrite Hrest. destruct rest; [done|]. by apply computes_put; apply Hr'.
Qed.

Definition addresses_at (L : gmap string Doc) (key : string) : list Address :=
  default [] (json ← read_as L PEERS_SUBTREE key "addresses"; addresses_of_json json).

Lemma stored_computes L key :
  ready L -> computes (stored_addresses iter blake3_raw_cid root key) L L (Ok (addresses_at L key)).
Proof. intros Hr. eapply computes_bind; [apply computes_optional, Hr|]. apply computes_ret. Qed.

Lemma store_computes L now key l :
  plain key -> ready L -> slot L PEERS_SUBTREE key ->
  exists L', computes (store_addresses root now key l) L L' (Ok tt) /\ ready L' /\ slot L' PEERS_SUBTREE key
    /\ is_Some (seen C L' PEERS_SUBTREE key) /\ addresses_at L' key = l.
Proof.
  intros Hk Hr Hs. set (fields := [("addresses", text (addresses_to_json l)); ("last_seen", text now)]).
  assert (Forall writable fields) as Hw by (repeat constructor; cbn; try discriminate; by intros ? [= <-]).
  exists (put_all L PEERS_SUBTREE key fields). split; [|split; [by apply ready_put_all; [left|]|]].
  - eapply computes_bind; [by apply computes_put; apply Hr|]. by apply computes_put; apply Hr.
  - split; [by apply slot_put_all|]. split; [by apply known_put_head|]. unfold addresses_at.
    rewrite read_put_all by (done || split_and!; done). cbn. by rewrite addresses_of_to_json.
Qed.

(** The addresses of a known peer: adding one that is there changes nothing, adding
    another appends it, and taking it off leaves the rest. *)
Theorem address_spec L pk now now' a :
  let key := PublicKey_to_string pk in
  plain key -> ready L -> slot L PEERS_SUBTREE key -> is_Some (seen C L PEERS_SUBTREE key) ->
  exists L', computes (add_address iter blake3_raw_cid strategy_of_json root now pk a) L L' (Ok tt)
    /\ addresses_at L' key = push_address (addresses_at L key) a
    /\ exists L'', computes (remove_address iter blake3_raw_cid strategy_of_json root now' pk a) L' L'' (Ok true)
         /\ addresses_at L'' key = filter (fun x => x <> a) (addresses_at L key).
Proof.
  cbn zeta. intros Hk Hr Hs Hw. set (key := PublicKey_to_string pk) in *.
  assert (exists L', computes (add_address iter blake3_raw_cid strategy_of_json root now pk a) L L' (Ok tt)
    /\ ready L' /\ slot L' PEERS_SUBTREE key /\ is_Some (seen C L' PEERS_SUBTREE key)
    /\ addresses_at L' key = push_address (addresses_at L key) a) as (L' & Hadd & Hr' & Hs' & [w' Hw'] & Ha).
  { destruct Hw as [w Hw]. pose proof (computes_require key L Hk Hr) as Hreq. rewrite Hw in Hreq.
    destruct (decide (a ∈ addresses_at L key)) as [Hin|Hout].
    - exists L. split_and!; [|done|done|by eexists|unfold push_address; by rewrite decide_True].
      eapply computes_bind; [exact Hreq|]. eapply computes_bind; [by apply stored_computes|].
      rewrite decide_True by done. apply computes_ret.
    - destruct (store_computes L now key (push_address (addresses_at L key) a) Hk Hr Hs) as (L' & Hst & Hrest).
      exists L'. split; [|exact Hrest]. eapply computes_bind; [exact Hreq|].
      eapply computes_bind; [by apply stored_computes|]. by rewrite decide_False. }
  exists L'. do 2 (split; [done|]). pose proof (computes_require key L' Hk Hr') as Hreq. rewrite Hw' in Hreq.
  destruct (store_computes L' now' key (filter (fun x => x <> a) (addresses_at L' key)) Hk Hr' Hs') as (L'' & Hst & _ & _ & _ & Ha'').
  exists L''. split.
  - eapply computes_bind; [exact Hreq|]. eapply computes_bind; [by apply stored_computes|]. unfold drop_address.
    rewrite bool_decide_false; [eapply computes_bind; [exact Hst|apply computes_ret]|].
    assert (a ∈ addresses_at L' key) as Hin by (rewrite Ha; unfold push_address; case_decide; set_solver).
    assert (~ (a <> a)) as Hna by auto. pose proof (length_filter_lt (fun x => x <> a) _ a Hin Hna) as Hlt. fold key. lia.
  - rewrite Ha'', Ha. unfold push_address. case_decide; [done|]. rewrite filter_app, filter_cons_False, filter_nil by auto.
    by rewrite app_nil_r.
Qed.
End peer_facts.

(** ** The operations stage and nothing else *)

Section staging.
Context `{CD : CodecSpec} `{JS : !JsonSpec} `{LS : !LruSpec CacheKey (list Byte.byte)} `{PJ : PeerJson}.
Context (iter : gset ID -> list ID) (key_iter : gset string -> list string) (blake3_raw_cid : string -> Cid).
Context (strategy_of_json : string -> option HeightStrategy) (root : ID).
Context (Hiter : forall s, iter s ≡ₚ elements s).

Lemma staging_try {A} (m : Tx A) : staging m -> staging (tx_try m).
Proof. intros Hm s Hs. specialize (Hm s Hs). unfold tx_try. by destruct (m s) as [[[s' r]|]|]. Qed.

Lemma staging_lift {A} (r : Result A Error) : staging (tx_lift r).
Proof. by apply staging_framed, framed_lift. Qed.

Lemma staging_ret {A} (a : A) : staging (tx_ret a).
Proof. by apply staging_framed, framed_ret. Qed.

Lemma staging_fail {A} e : staging (tx_fail (A := A) e).
Proof. by apply staging_framed, framed_fail. Qed.

Lemma staging_open name : staging (open_store iter blake3_raw_cid strategy_of_json root name).
Proof. by apply staging_get_store. Qed.

Lemma staging_known name p : staging (contains_path iter blake3_raw_cid root name p).
Proof. unfold contains_path, DocStore_contains_key. stages. Qed.

Lemma staging_path_as {T} `{!FromValue T} name p : staging (get_path_as (T := T) iter blake3_raw_cid root name p).
Proof. unfold get_path_as, DocStore_get_path, get_committed. stages. Qed.

Lemma staging_set_path name p v : staging (set_path root name p v).
Proof. apply staging_set. Qed.

Lemma staging_set_optional name p v : staging (set_optional root name p v).
Proof. destruct v; [apply staging_set|apply staging_ret]. Qed.
Hint Resolve staging_try staging_lift staging_ret staging_fail staging_open staging_known staging_path_as
  staging_set_path staging_set_optional staging_delete staging_get_all : staging.

Ltac peer_op := unfold contains_path_str; stages; eauto with staging.

Lemma staging_register now pk name : staging (register_peer iter blake3_raw_cid strategy_of_json root now pk name).
Proof. unfold register_peer, sync_error. peer_op. Qed.

Lemma staging_require key : staging (require_peer iter blake3_raw_cid strategy_of_json root key).
Proof. unfold require_peer, sync_error. peer_op. Qed.
Hint Resolve staging_require : staging.

Lemma staging_update_info pk p : staging (update_peer_info iter blake3_raw_cid strategy_of_json root pk p).
Proof. unfold update_peer_info. peer_op. Qed.

Lemma staging_update_status now pk st : staging (update_peer_status iter blake3_raw_cid strategy_of_json root now pk st).
Proof. unfold update_peer_status. peer_op. Qed.

Lemma staging_optional {T} `{!FromValue T} key f : staging (optional_field (T := T) iter blake3_raw_cid root key f).
Proof. unfold optional_field. peer_op. Qed.

Lemma staging_required key f : staging (required_field iter blake3_raw_cid root key f).
Proof. unfold required_field, sync_error. peer_op. Qed.
Hint Resolve staging_optional staging_required : staging.

Lemma staging_info_str key : staging (get_peer_info_str iter blake3_raw_cid strategy_of_json root key).
Proof. unfold get_peer_info_str, parse_pubkey. peer_op. Qed.

Lemma staging_info pk : staging (get_peer_info iter blake3_raw_cid strategy_of_json root pk).
Proof. apply staging_info_str. Qed.
Hint Resolve staging_info_str staging_info : staging.

Lemma staging_list_peers : staging (list_peers iter key_iter blake3_raw_cid strategy_of_json root).
Proof.
  assert (forall keys, staging (list_peers_go iter blake3_raw_cid strategy_of_json root keys)) as Hgo
    by (induction keys; simpl; peer_op).
  unfold list_peers. peer_op.
Qed.

Lemma staging_tree_peers t : staging (tree_peer_list iter blake3_raw_cid root t).
Proof. unfold tree_peer_list. peer_op. Qed.
Hint Resolve staging_tree_peers : staging.

Lemma staging_drop key t : staging (drop_tree_peer iter blake3_raw_cid root key t).
Proof. unfold drop_tree_peer. peer_op. Qed.
Hint Resolve staging_drop : staging.

Lemma staging_remove_peer pk : staging (remove_peer iter key_iter blake3_raw_cid strategy_of_json root pk).
Proof.
  assert (forall key trees, staging (drop_from_trees iter blake3_raw_cid root key trees)) as Hgo
    by (induction trees; simpl; peer_op).
  unfold remove_peer. peer_op.
Qed.

Lemma staging_add_tree pk t : staging (add_tree_sync iter blake3_raw_cid strategy_of_json root pk t).
Proof. unfold add_tree_sync. peer_op. Qed.

Lemma staging_remove_tree pk t : staging (remove_tree_sync iter blake3_raw_cid strategy_of_json root pk t).
Proof. unfold remove_tree_sync. peer_op. Qed.

Lemma staging_peer_trees pk : staging (get_peer_trees iter key_iter blake3_raw_cid strategy_of_json root pk).
Proof.
  assert (forall key trees, staging (peer_trees_go iter blake3_raw_cid root key trees)) as Hgo
    by (induction trees; simpl; peer_op).
  unfold get_peer_trees. peer_op.
Qed.

Lemma staging_get_tree_peers t : staging (get_tree_peers iter blake3_raw_cid strategy_of_json root t).
Proof. unfold get_tree_peers. peer_op. Qed.

Lemma staging_is_synced pk t : staging (is_tree_synced_with_peer iter blake3_raw_cid strategy_of_json root pk t).
Proof. unfold is_tree_synced_with_peer. peer_op. Qed.

Lemma staging_add_address now pk a : staging (add_address iter blake3_raw_cid strategy_of_json root now pk a).
Proof. unfold add_address, stored_addresses, store_addresses. peer_op. Qed.

Lemma staging_remove_address now pk a : staging (remove_address iter blake3_raw_cid strategy_of_json root now pk a).
Proof. unfold remove_address, stored_addresses, store_addresses. peer_op. Qed.

Lemma staging_get_addresses pk t : staging (get_addresses iter blake3_raw_cid strategy_of_json root pk t).
Proof. unfold get_addresses. peer_op. Qed.
End staging.

#[export] Hint Resolve staging_try staging_lift staging_ret staging_fail staging_register staging_update_info
  staging_update_status staging_info staging_list_peers staging_remove_peer staging_add_tree staging_remove_tree
  staging_peer_trees staging_get_tree_peers staging_is_synced staging_add_address staging_remove_address
  staging_get_addresses staging_open staging_known staging_path_as staging_set_path staging_set_optional : staging.

(** ** The operations of [Sync] *)

(** What a node takes from its surroundings: the orders of iteration of hash
    containers, the hash of [ID::from_bytes], the JSON of height strategies, and
    the readings of its clock and of its random source, by tick. *)
Class NodeEnv `{CS : CidSpec} := {
  set_order : gset ID -> list ID;
  map_order : forall A : Type, gmap ID A -> list (ID * A);
  key_order : gset string -> list string;
  doc_order : gmap string Value -> list (string * Value);
  raw_cid : string -> Cid;
  read_strategy : string -> option HeightStrategy;
  clock_millis : nat -> option string -> Z;
  clock_rfc3339 : nat -> string;
  fresh_uuid : nat -> string;
  fresh_challenge : nat -> Bytes;
  set_order_ok s : set_order s ≡ₚ elements s;
  map_order_ok A m : map_order A m ≡ₚ map_to_list m;
  doc_order_ok m : doc_order m ≡ₚ map_to_list m;
}.

Section sync_peers.
Context `{IS : InstanceSpec} `{JS : !JsonSpec} `{LS : !LruSpec CacheKey (list Byte.byte)} `{PJ : PeerJson}.
Context `{NE : !NodeEnv}.
(** The handle of the sync database. *)
Context (sync_tree : DbHandle).
Notation root := (db_root sync_tree).

(** A transaction on a database that is committed, and one that only reads. *)
Definition update {A} (db : DbHandle) (m : Tx A) : Nm A :=
  with_transaction set_order map_order key_order raw_cid read_strategy clock_millis db m.

Definition view {A} (db : DbHandle) (m : Tx A) : Nm A := db_view map_order db m.

Definition now_rfc3339 : Nm string :=
  step t <- tick;
  nm_ret (clock_rfc3339 t).

Definition Sync_register_peer (pubkey : PublicKey) (display_name : option string) : Nm unit :=
  step now <- now_rfc3339;
  update sync_tree (register_peer set_order raw_cid read_strategy root now pubkey display_name).

Definition Sync_update_peer_status (pubkey : PublicKey) (status : PeerStatus) : Nm unit :=
  step now <- now_rfc3339;
  update sync_tree (update_peer_status set_order raw_cid read_strategy root now pubkey status).

Definition Sync_get_peer_info (pubkey : PublicKey) : Nm (option PeerInfo) :=
  view sync_tree (get_peer_info set_order raw_cid read_strategy root pubkey).

Definition Sync_list_peers : Nm (list PeerInfo) :=
  view sync_tree (list_peers set_order key_order raw_cid read_strategy root).

Definition Sync_remove_peer (pubkey : PublicKey) : Nm unit :=
  update sync_tree (remove_peer set_order key_order raw_cid read_strategy root pubkey).

(** The [auth] parameters of the registration are not used. *)
Record SyncPeerInfo : Type := mkSyncPeerInfo {
  sp_peer_pubkey : PublicKey;
  sp_tree_id : ID;
  sp_addresses : list Address;
  sp_display_name : option string;
}.

Fixpoint add_addresses (now : string) (pubkey : PublicKey) (addresses : list Address) : Tx unit :=
  match addresses with
  | [] => tx_ret tt
  | addr :: rest =>
      do _ <- add_address set_order raw_cid read_strategy root now pubkey addr;
      add_addresses now pubkey rest
  end.

(** The handle that is returned repeats the tree and the peer. *)
Definition register_sync_peer (info : SyncPeerInfo) : Nm (ID * PublicKey) :=
  step now <- now_rfc3339;
  step _ <- update sync_tree
    (do known <- get_peer_info set_order raw_cid read_strategy root (sp_peer_pubkey info);
     do _ <- match known with
             | None => register_peer set_order raw_cid read_strategy root now (sp_peer_pubkey info) (sp_display_name info)
             | Some _ => tx_ret tt
             end;
     do _ <- add_addresses now (sp_peer_pubkey info) (sp_addresses info);
     add_tree_sync set_order raw_cid read_strategy root (sp_peer_pubkey info) (sp_tree_id info));
  nm_ret (sp_tree_id info, sp_peer_pubkey info).

Record SyncStatus : Type := mkSyncStatus {
  ss_has_local_data : bool;
  ss_last_sync : option string;
  ss_last_error : option string;
}.

(** The local backend's [snapshot] does not fail. *)
Definition get_sync_status (tree_id : ID) (peer_pubkey : PublicKey) : Nm SyncStatus :=
  step our_snapshot <- nm_engine (fun inner => let p := mem_snapshot inner tree_id in Some (p.1, Ok p.2));
  nm_ret (mkSyncStatus (negb (is_nil (tips our_snapshot))) None None).

Definition Sync_add_tree_sync (peer_pubkey : PublicKey) (tree_root_id : ID) : Nm unit :=
  update sync_tree (add_tree_sync set_order raw_cid read_strategy root peer_pubkey tree_root_id).

Definition Sync_remove_tree_sync (peer_pubkey : PublicKey) (tree_root_id : ID) : Nm unit :=
  update sync_tree (remove_tree_sync set_order raw_cid read_strategy root peer_pubkey tree_root_id).

Definition Sync_get_peer_trees (peer_pubkey : PublicKey) : Nm (list ID) :=
  view sync_tree (get_peer_trees set_order key_order raw_cid read_strategy root peer_pubkey).

Definition Sync_get_tree_peers (tree_root_id : ID) : Nm (list PublicKey) :=
  view sync_tree (get_tree_peers set_order raw_cid read_strategy root tree_root_id).

Definition update_peer_connection_state (pubkey : PublicKey) (state : ConnectionState) : Nm unit :=
  step now <- now_rfc3339;
  update sync_tree
    (do info <- get_peer_info set_order raw_cid read_strategy root pubkey;
     match info with
     | None => sync_error (PeerNotFound (PublicKey_to_string pubkey))
     | Some peer_info =>
         update_peer_info set_order raw_cid read_strategy root pubkey (touch_at (with_connection_state peer_info state) now)
     end).

Definition Sync_is_tree_synced_with_peer (peer_pubkey : PublicKey) (tree_root_id : ID) : Nm bool :=
  view sync_tree (is_tree_synced_with_peer set_order raw_cid read_strategy root peer_pubkey tree_root_id).

Definition add_peer_address (peer_pubkey : PublicKey) (address : Address) : Nm unit :=
  step now <- now_rfc3339;
  update sync_tree (add_address set_order raw_cid read_strategy root now peer_pubkey address).

Definition remove_peer_address (peer_pubkey : PublicKey) (address : Address) : Nm bool :=
  step now <- now_rfc3339;
  update sync_tree (remove_address set_order raw_cid read_strategy root now peer_pubkey address).

Definition get_peer_addresses (peer_pubkey : PublicKey) (transport_type : option string) : Nm (list Address) :=
  view sync_tree (get_addresses set_order raw_cid read_strategy root peer_pubkey transport_type).

(** Every operation ends and keeps the backend's invariant and entries. *)
Lemma safe_update {A} db (m : Tx A) : staging m -> safe (update db m).
Proof. intros Hm. apply nsafe_with_transaction; [apply set_order_ok|apply map_order_ok|by apply calm_staging]. Qed.

Lemma safe_view {A} db (m : Tx A) : staging m -> safe (view db m).
Proof. intros Hm. apply nsafe_view; [apply map_order_ok|by apply calm_staging]. Qed.

Lemma nquiet_staged {A} t (m : Tx A) : uncommitted t -> staging m -> nquiet (in_tx t m) (fun p => uncommitted p.1).
Proof. intros Ht Hm. by apply nquiet_uncommitted; [apply calm_staging|]. Qed.

Lemma nsafe_staged {A} t (m : Tx A) : txn_ok t -> staging m -> nsafe (in_tx t m) (fun p => txn_ok p.1).
Proof. intros Ht Hm. by apply nsafe_in_tx; [apply calm_staging|]. Qed.

(** *** What an update writes *)

(** A new transaction: no encryptors, and the place of the entry that it builds. *)
Lemma new_transaction_root db n n' t :
  db_new_transaction map_order db n = Some (Done (n', Ok t)) ->
  encryptors t = ∅ /\ exists b, entry_builder t = Some b /\ tn_root (b_tree b) = opt_root (db_root db).
Proof.
  unfold db_new_transaction, nm_instance, Database_new_transaction.
  destruct (Database_snapshot _ _ _ _ _) as [[[[inst ds] r]|]|]; [|done..]. cbn [mbind option_bind outcome_bind].
  intros [= _ H]. destruct r as [snap|]; [|done]. cbn [result_bind] in H. unfold new_at in H.
  destruct (is_nil (tips snap) && _); [done|]. destruct (check_new_tips _ _ _) as [[]|]; [|done]. injection H as <-.
  split; [done|]. eexists. split; [done|]. by destruct (is_nil (tips snap)).
Qed.

(** The entry that a commit adds has the data that is staged. *)
Lemma commit_written db t b n n' id :
  node_ok n -> txn_ok t -> entry_builder t = Some b -> encryptors t = ∅ ->
  db_commit set_order map_order key_order raw_cid read_strategy clock_millis db t n = Some (Done (n', Ok id)) ->
  exists e, tn_root (e_tree e) = tn_root (b_tree b)
    /\ (forall name d, payload b name = Some d -> Entry_data e name = Ok d)
    /\ entries (node_engine n') = entries (node_engine n) ∪ {[ Entry_id e := e ]}.
Proof.
  intros [Hm Hc] Ht Hb Henc. unfold db_commit, nm_bind, tick. cbn [n_tick n_inst n_cache n_events].
  set (n1 := mkNode _ _ _ _). set (c := mkCommitState _ _ _). assert (tx_inv (c_tx c)) as Hs by (by split).
  pose proof (commit_cases set_order map_order key_order raw_cid read_strategy (clock_millis (n_tick n)) (db_root db)
    ((fun k => (dk_signing_key k, dk_identity k)) <$> db_key db) (db_allow_unverified db) false set_order_ok map_order_ok
    c b Hs Hb) as H.
  unfold ends in H. destruct (commit _ _ _ _ _ _ _ _ _ _ c) as [[[c' [id'|e]]|]|]; [|done..]. intros [= <- <-].
  destruct H as (c1 & e & sk & identity & snap & eff & auth & [_ [] _ _ _ Hstep _ _] & -> & _ & He & _).
  exists e. split; [done|]. split.
  - intros name d Hd. apply ce_data. exists d. split; [done|]. cbn [encryptors c_tx c with_mem]. by rewrite Henc, lookup_empty.
  - unfold node_engine at 1. cbn [n_inst engine with_engine]. rewrite He. by rewrite (ek_entries _ _ (cs_engine _ _ Hstep)).
Qed.

Lemma update_written {A} db (m : Tx A) n n' a :
  node_ok n -> staging m -> update db m n = Some (Done (n', Ok a)) ->
  exists s s' b e, m s = Some (Done (s', Ok a)) /\ entry_builder s' = Some b
    /\ tn_root (e_tree e) = opt_root (db_root db)
    /\ (forall name d, payload b name = Some d -> Entry_data e name = Ok d)
    /\ entries (node_engine n') = entries (node_engine n) ∪ {[ Entry_id e := e ]}.
Proof.
  intros Hn Hm (n1 & t & E1 & H)%nm_bind_ok. destruct (new_transaction_root _ _ _ _ E1) as (Henc & b & Hb & Hbr).
  pose proof (nsafe_new_transaction map_order map_order_ok db n Hn) as Ht. rewrite E1 in Ht. destruct Ht as (Hn1 & _ & Ht).
  destruct (reads_new_transaction map_order map_order_ok db _ _ _ Hn E1) as [_ He1].
  apply nm_bind_ok in H as (n2 & [t2 a2] & E2 & H). apply nm_bind_ok in H as (n3 & id & E3 & [= <- <-]).
  unfold in_tx in E2. assert (tx_inv (with_mem t (node_mem n1))) as Hs by (destruct Hn1; split; [done..|by apply (Ht t)]).
  pose proof (Hm _ Hs) as Hst. destruct (m _) as [[[s' [x|]]|]|] eqn:Em; [|done..].
  injection E2 as <- <- <-. destruct Hst as [[Hm' Hc' Hb'] [He' _ Hpl _ Henc']].
  cbn [entry_builder with_mem] in Hpl. rewrite Hb in Hpl. destruct (entry_builder s') as [b'|] eqn:Hb2; [|done].
  injection Hpl as Hr _. destruct (commit_written db s' b' (with_node_mem n1 (tx_mem s')) n3 id) as (e & Hroot & Hdata & He);
    [by split|intros b0 Hb0; apply Hb'; congruence|done|by rewrite Henc'|done|].
  exists (with_mem t (node_mem n1)), s', b', e. split; [done|]. split; [done|]. split; [congruence|]. split; [done|].
  rewrite He, <- He1. f_equal. exact He'.
Qed.

Lemma safe_now : safe now_rfc3339.
Proof. unfold now_rfc3339. safely. Qed.
End sync_peers.

#[export] Hint Resolve safe_now : safe.
#[export] Hint Extern 2 (safe (update _ _)) => apply safe_update : safe.
#[export] Hint Extern 2 (safe (view _ _)) => apply safe_view : safe.
#[export] Hint Resolve set_order_ok : staging.

(** Run an operation of an open transaction. *)
Ltac staged_step t := eapply nquiet_bind; [apply nquiet_staged; [done|eauto with staging]|intros [t ?] ?].

Section sync_peers_safe.
Context `{IS : InstanceSpec} `{JS : !JsonSpec} `{LS : !LruSpec CacheKey (list Byte.byte)} `{PJ : PeerJson}.
Context `{NE : !NodeEnv} (sync_tree : DbHandle).

Ltac peer_safe := safely; first [apply safe_update|apply safe_view]; stages; eauto with staging.

Lemma safe_register_peer pk name : safe (Sync_register_peer sync_tree pk name).
Proof. unfold Sync_register_peer. peer_safe. Qed.

Lemma safe_update_status pk st : safe (Sync_update_peer_status sync_tree pk st).
Proof. unfold Sync_update_peer_status. peer_safe. Qed.

Lemma safe_get_peer pk : safe (Sync_get_peer_info sync_tree pk).
Proof. unfold Sync_get_peer_info. peer_safe. Qed.

Lemma safe_list_peers : safe (Sync_list_peers sync_tree).
Proof. unfold Sync_list_peers. peer_safe. Qed.

Lemma safe_remove_peer pk : safe (Sync_remove_peer sync_tree pk).
Proof. unfold Sync_remove_peer. peer_safe. Qed.

Lemma safe_register_sync_peer info : safe (register_sync_peer sync_tree info).
Proof.
  assert (forall now pk l, staging (add_addresses sync_tree now pk l)) by (induction l; simpl; stages; eauto with staging).
  unfold register_sync_peer. peer_safe.
Qed.

Lemma safe_sync_status tree pk : safe (get_sync_status tree pk).
Proof. unfold get_sync_status. safely. Qed.

Lemma safe_add_tree pk t : safe (Sync_add_tree_sync sync_tree pk t).
Proof. unfold Sync_add_tree_sync. peer_safe. Qed.

Lemma safe_remove_tree pk t : safe (Sync_remove_tree_sync sync_tree pk t).
Proof. unfold Sync_remove_tree_sync. peer_safe. Qed.

Lemma safe_peer_trees pk : safe (Sync_get_peer_trees sync_tree pk).
Proof. unfold Sync_get_peer_trees. peer_safe. Qed.

Lemma safe_tree_peers t : safe (Sync_get_tree_peers sync_tree t).
Proof. unfold Sync_get_tree_peers. peer_safe. Qed.

Lemma safe_connection_state pk st : safe (update_peer_connection_state sync_tree pk st).
Proof. unfold update_peer_connection_state, sync_error. peer_safe. Qed.

Lemma safe_is_synced pk t : safe (Sync_is_tree_synced_with_peer sync_tree pk t).
Proof. unfold Sync_is_tree_synced_with_peer. peer_safe. Qed.

Lemma safe_add_peer_address pk a : safe (add_peer_address sync_tree pk a).
Proof. unfold add_peer_address. peer_safe. Qed.

Lemma safe_remove_peer_address pk a : safe (remove_peer_address sync_tree pk a).
Proof. unfold remove_peer_address. peer_safe. Qed.

Lemma safe_peer_addresses pk t : safe (get_peer_addresses sync_tree pk t).
Proof. unfold get_peer_addresses. peer_safe. Qed.
End sync_peers_safe.

#[export] Hint Resolve safe_register_peer safe_update_status safe_get_peer safe_list_peers safe_remove_peer
  safe_register_sync_peer safe_sync_status safe_add_tree safe_remove_tree safe_peer_trees safe_tree_peers
  safe_connection_state safe_is_synced safe_add_peer_address safe_remove_peer_address safe_peer_addresses : safe.

(** ** A concrete registry *)

(** Lists written item by item. *)
Fixpoint write_list {A} (w : A -> Bytes) (l : list A) : Bytes :=
  match l with [] => [Byte.x00] | x :: l => Byte.x01 :: w x ++ write_list w l end.

Fixpoint read_list {A} (r : Bytes -> option (A * Bytes)) (fuel : nat) (b : Bytes) : option (list A) :=
  match fuel, b with
  | S fuel, Byte.x00 :: _ => Some []
  | S fuel, Byte.x01 :: b => p ← r b; l ← read_list r fuel p.2; Some (p.1 :: l)
  | _, _ => None
  end.

Lemma read_list_write {A} (w : A -> Bytes) r (l : list A) fuel :
  (forall x rest, r (w x ++ rest) = Some (x, rest)) -> (length l < fuel)%nat ->
  read_list r fuel (write_list w l) = Some l.
Proof.
  intros Hr. revert fuel. induction l as [|x l IH]; intros [|fuel] Hf; simpl in *; [lia|done|lia|].
  rewrite Hr. cbn. by rewrite IH by lia.
Qed.

Lemma write_list_length {A} (w : A -> Bytes) l : (length l < length (write_list w l))%nat.
Proof. induction l as [|x l IH]; simpl; [lia|]. rewrite length_app. lia. Qed.

Definition list_text {A} (w : A -> Bytes) (l : list A) : string := String.string_of_list_byte (write_list w l).

Definition text_list {A} (r : Bytes -> option (A * Bytes)) (s : string) : option (list A) :=
  let b := String.list_byte_of_string s in read_list r (length b) b.

Lemma text_list_roundtrip {A} (w : A -> Bytes) r l :
  (forall x rest, r (w x ++ rest) = Some (x, rest)) -> text_list r (list_text w l) = Some l.
Proof.
  intros Hr. unfold text_list, list_text. rewrite String.list_byte_of_string_of_list_byte.
  apply read_list_write; [done|]. apply write_list_length.
Qed.

Definition write_address (a : Address) : Bytes := write_string (transport_type a) ++ write_string (address a).

Definition read_address (b : Bytes) : option (Address * Bytes) :=
  t ← read_string b; a ← read_string t.2; Some (mkAddress t.1 a.1, a.2).

Lemma read_address_write a rest : read_address (write_address a ++ rest) = Some (a, rest).
Proof.
  destruct a as [t a]. unfold read_address, write_address. cbn [transport_type address].
  rewrite <- app_assoc, read_string_write. cbn [mbind option_bind fst snd]. by rewrite read_string_write.
Qed.

Definition wire_peers : PeerJson := {|
  texts_to_json := list_text write_string;
  texts_of_json := text_list read_string;
  addresses_to_json := list_text write_address;
  addresses_of_json := text_list read_address;
  texts_of_to_json l := text_list_roundtrip _ _ l read_string_write;
  addresses_of_to_json l := text_list_roundtrip _ _ l read_address_write;
|}.

#[local] Existing Instance nat_cid.
#[local] Existing Instance byte_crypto.
#[local] Existing Instance list_lru.
#[local] Existing Instance wire_codec.
#[local] Existing Instance wire_json.
#[local] Existing Instance wire_peers.

Definition wire_env : NodeEnv := {|
  set_order := elements;
  map_order := list_iter;
  key_order := elements;
  doc_order := map_to_list;
  raw_cid := wire_hash;
  read_strategy s := None;
  clock_millis t s := 50;
  clock_rfc3339 t := "now";
  fresh_uuid t := nat_to_string t;
  fresh_challenge t := [Byte.x01];
  set_order_ok s := Permutation_refl _;
  map_order_ok A m := Permutation_refl _;
  doc_order_ok m := Permutation_refl _;
|}.

Definition no_strategy (s : string) : option HeightStrategy := None.
Definition sync_root : ID := demo_id 1.

(** A transaction in which both stores have been opened. *)
Definition sync_tx : TxState := Eval vm_compute in
  let s := mkTxState (mkInMemory InMemory_new InMemoryCrdtCache_new) (Some (EntryBuilder_new sync_root)) ∅ false in
  match (do _ <- open_store elements wire_hash no_strategy sync_root PEERS_SUBTREE;
         open_store elements wire_hash no_strategy sync_root TREES_SUBTREE) s with
  | Some (Done (s, _)) => s
  | _ => s
  end.

Definition sync_committed : gmap string Doc :=
  list_to_map [(INDEX, Doc_new); (PEERS_SUBTREE, Doc_new); (TREES_SUBTREE, Doc_new)].

Definition sync_staged : gmap string Doc := Eval vm_compute in
  match entry_builder sync_tx with
  | Some b => match staged b INDEX with Ok (Some d) => {[ INDEX := d ]} | _ => ∅ end
  | None => ∅
  end.

Lemma sync_tx_stages : stages_as sync_committed (settled_in wire_hash sync_root sync_committed) sync_staged sync_tx.
Proof.
  assert (forall name, is_Some (sync_committed !! name) -> name = INDEX \/ name = PEERS_SUBTREE \/ name = TREES_SUBTREE) as Hdom.
  { intros name. unfold sync_committed. cbn [list_to_map foldr]. rewrite !lookup_insert_is_Some, lookup_empty.
    intros [<-|[_ [<-|[_ [<-|[_ [? ?]]]]]]]; naive_solver. }
  split.
  - split; [vm_compute; constructor|]. eexists. split; [reflexivity|]. intros name c Hc.
    exists []. assert (c = Doc_new) as ->.
    { destruct (Hdom name (ex_intro _ c Hc)) as [->|[->| ->]]; vm_compute in Hc; by simplify_eq. }
    split; [|by left]. destruct (Hdom name (ex_intro _ Doc_new Hc)) as [->|[->| ->]]; vm_compute; reflexivity.
  - eexists. split; [reflexivity|]. intros name Hc. destruct (Hdom name Hc) as [->|[->| ->]]; vm_compute; reflexivity.
Qed.

Definition peer_pk : PublicKey := public_key (Ed25519Private Byte.x41).
Definition peer_update : PeerInfo :=
  mkPeerInfo peer_pk None "t0" "t1" PeerInactive [mkAddress "http" "h"] Connected None 3 None.

Lemma sync_ready : ready no_strategy sync_committed sync_staged.
Proof.
  split; (split; [reflexivity|]; split; [vm_compute; by eexists|]; split; [vm_compute; by eexists|]);
    eexists _, _; split; [reflexivity| |reflexivity|]; split; reflexivity.
Qed.

Lemma peer_registry_spec_witness :
  exists s, register_peer elements wire_hash no_strategy sync_root "now" peer_pk (Some "Alice") sync_tx = Some (Done (s, Ok tt))
    /\ exists s', get_peer_info elements wire_hash no_strategy sync_root peer_pk s
         = Some (Done (s', Ok (Some (PeerInfo_new_at peer_pk (Some "Alice") "now")))).
Proof.
  destruct (peer_registry_spec elements wire_hash no_strategy sync_root sync_committed
    (settled_in wire_hash sync_root sync_committed)
    (SR := settled_reads elements wire_hash sync_root (fun s => Permutation_refl _) sync_committed)
    wire_json_roundtrip sync_staged peer_pk (Some "Alice") "now" peer_update)
    as [(L' & Hreg & Hget) _].
  - split; [|split]; [vm_compute; reflexivity|vm_compute; reflexivity|discriminate].
  - intros l u. vm_compute. discriminate.
  - exact sync_ready.
  - reflexivity.
  - reflexivity.
  - destruct (Hreg sync_tx sync_tx_stages) as (s & Es & Hs). exists s. split; [exact Es|].
    destruct (Hget s Hs) as (s' & Es' & _). exists s'. exact Es'.
Defined.

(** A peer that was removed is neither found nor can it be registered again. *)
Lemma removed_peer_stays :
  match (do _ <- register_peer elements wire_hash no_strategy sync_root "now" peer_pk None;
         do _ <- remove_peer elements elements wire_hash no_strategy sync_root peer_pk;
         do info <- get_peer_info elements wire_hash no_strategy sync_root peer_pk;
         do again <- tx_try (register_peer elements wire_hash no_strategy sync_root "later" peer_pk None);
         tx_ret (info, again)) sync_tx with
  | Some (Done (_, Ok r)) => r = (None, Err (ESync (PeerAlreadyExists (PublicKey_to_string peer_pk))))
  | _ => False
  end.
Proof. vm_compute. reflexivity. Qed.
