(* ===== verification/UserSync.v ===== *)
(** * Users' sync preferences (sync/user_sync_manager.rs, sync/user.rs, instance/settings_merge.rs)

    Which users sync which database, what they ask for, and the settings that the
    instance combines from them.  The combined settings are the least that every
    user's request allows; a user linked to a database is found there, and the
    recomputation of the settings for a user touches the sync database once. *)

From S2P Require Import Prelude.
From S2P Require Import Path.
From S2P Require Import Position.
From S2P Require Import Ids.
From S2P Require Import Doc.
From S2P Require Import DocPath.
From S2P Require Import Errors.
From S2P Require Import Crypto.
From S2P Require Import Permission.
From S2P Require Import AuthTypes.
From S2P Require Import AuthSettings.
From S2P Require Import Entry.
From S2P Require Import Backend.
From S2P Require Import Traversal.
From S2P Require Import CrdtCache.
From S2P Require Import BackendSteps.
From S2P Require Import Reachability.
From S2P Require Import Validation.
From S2P Require Import Verify.
From S2P Require Import InstanceOps.
From S2P Require Import WireCodec.
From S2P Require Import Transaction.
From S2P Require Import Stores.
From S2P Require Import StoreView.
From S2P Require Import Commit.
From S2P Require Import TxFrame.
From S2P Require Import CommitSpec.
From S2P Require Import Lifecycle.
From S2P Require Import Settings.
From S2P Require Import Table.
From S2P Require Import Node.
From S2P Require Import Room.
From S2P Require Import Peers.

(** ** [SyncSettings] *)

Record SyncSettings : Type := mkSyncSettings {
  sync_enabled : bool;
  sync_on_commit : bool;
  interval_seconds : option Z;
  properties : gmap string string;
}.

Definition SyncSettings_disabled : SyncSettings := mkSyncSettings false false None ∅.

Definition SyncSettings_enabled : SyncSettings := mkSyncSettings true false None ∅.

Definition SyncSettings_on_commit : SyncSettings := mkSyncSettings true true None ∅.

Definition with_interval (s : SyncSettings) (seconds : Z) : SyncSettings :=
  mkSyncSettings (sync_enabled s) (sync_on_commit s) (Some seconds) (properties s).

(** One step of the loop; the properties of the later one win. *)
Definition merge_two (combined setting : SyncSettings) : SyncSettings :=
  mkSyncSettings (sync_enabled combined || sync_enabled setting)
    (sync_on_commit combined || sync_on_commit setting)
    (match interval_seconds combined, interval_seconds setting with
     | Some a, Some b => Some (Z.min a b)
     | Some a, None => Some a
     | None, Some b => Some b
     | None, None => None
     end)
    (properties setting ∪ properties combined).

Definition merge_sync_settings (settings : list SyncSettings) : SyncSettings :=
  match settings with
  | [] => SyncSettings_disabled
  | first :: rest => foldl merge_two first rest
  end.

(** The interval of some settings: the smallest that any of them gives. *)
Definition smallest (o : option Z) (l : list (option Z)) : Prop :=
  match o with
  | Some m => Some m ∈ l /\ forall n, Some n ∈ l -> m <= n
  | None => forall n, Some n ∉ l
  end.

(** ** JSON *)

(** [serde_json] at the entries of a list of users, at settings and at the rows of
    the table of tracked databases. *)
Class UserJson := {
  UserEntry : Type;
  user_uuid_of : UserEntry -> option string;
  user_entry : string -> UserEntry;
  users_to_json : list UserEntry -> string;
  users_of_json : string -> option (list UserEntry);
  settings_to_json : SyncSettings -> string;
  settings_of_json : string -> option SyncSettings;
  user_uuid_of_entry u : user_uuid_of (user_entry u) = Some u;
  users_of_to_json l : users_of_json (users_to_json l) = Some l;
  settings_of_to_json s : settings_of_json (settings_to_json s) = Some s;
}.

Section tracked.
Context `{CS : CidSpec} `{KS : CryptoSpec}.

(** A row of a user's table [databases]. *)
Record TrackedDatabase : Type := mkTrackedDatabase {
  td_database_id : ID;
  td_key_id : PublicKey;
  td_sync_settings : SyncSettings;
}.
End tracked.

(** ** The manager *)

Section manager.
Context `{CD : CodecSpec} `{JS : !JsonSpec} `{LS : !LruSpec CacheKey (list Byte.byte)} `{PJ : PeerJson} `{UJ : UserJson}.
Context (iter : gset ID -> list ID) (key_iter : gset string -> list string) (blake3_raw_cid : string -> Cid).
Context (strategy_of_json : string -> option HeightStrategy) (root : ID).
Notation open_store := (open_store iter blake3_raw_cid strategy_of_json root).
Notation get_path_as := (get_path_as iter blake3_raw_cid root).
Notation set_path := (set_path root).

Definition DATABASE_USERS_SUBTREE : string := "database_users".
Definition USER_TRACKING_SUBTREE : string := "user_tracking".

Definition track_user_preferences (user_uuid : string) (preferences_db_id : ID) : Tx unit :=
  do _ <- open_store USER_TRACKING_SUBTREE;
  do registered <- tx_try (DocStore_get_path iter blake3_raw_cid root USER_TRACKING_SUBTREE
                             (path_of [user_uuid; "preferences_db_id"]));
  if is_ok registered then tx_ret tt
  else
    do _ <- set_path USER_TRACKING_SUBTREE (path_of [user_uuid; "preferences_db_id"]) (Text (ID_to_string preferences_db_id));
    set_path USER_TRACKING_SUBTREE (path_of [user_uuid; "preferences_tips"]) (Text (texts_to_json [])).

Fixpoint parse_ids (l : list string) : Result (list ID) Error :=
  match l with
  | [] => Ok []
  | s :: rest => let? id := map_err EId (ID_parse s) in let? ids := parse_ids rest in Ok (id :: ids)
  end.

Definition get_tracked_user_state (user_uuid : string) : Tx (option (ID * list ID)) :=
  do _ <- open_store USER_TRACKING_SUBTREE;
  do known <- contains_path_str iter blake3_raw_cid root USER_TRACKING_SUBTREE user_uuid;
  if negb known then tx_ret None
  else
    do prefs <- tx_try (get_path_as USER_TRACKING_SUBTREE (path_of [user_uuid; "preferences_db_id"]));
    do prefs_db_id_str <- match prefs with Ok s => tx_ret s | Err _ => sync_error SyncSerializationError end;
    do prefs_db_id <- tx_lift (map_err EId (ID_parse prefs_db_id_str));
    do tips_json <- tx_try (get_path_as USER_TRACKING_SUBTREE (path_of [user_uuid; "preferences_tips"]));
    let tips_strings := default [] (texts_of_json (match tips_json with Ok s => s | Err _ => "[]" end)) in
    do tips <- tx_lift (parse_ids tips_strings);
    tx_ret (Some (prefs_db_id, tips)).

Definition update_tracked_tips (user_uuid : string) (new_tips : list ID) : Tx unit :=
  do _ <- open_store USER_TRACKING_SUBTREE;
  set_path USER_TRACKING_SUBTREE (path_of [user_uuid; "preferences_tips"]) (Text (texts_to_json (ID_to_string <$> new_tips))).

Definition is_user (user_uuid : string) (u : UserEntry) : bool := bool_decide (user_uuid_of u = Some user_uuid).

(** The list of users of a database, if it can be read. *)
Definition users_of (db_id_str : string) : Tx (option (list UserEntry)) :=
  do r <- tx_try (get_path_as DATABASE_USERS_SUBTREE (path_of [db_id_str; "users"]));
  tx_ret (match r with Ok json => users_of_json json | Err _ => None end).

Definition link_user_to_database (database_id : ID) (user_uuid : string) : Tx unit :=
  let db_id_str := ID_to_string database_id in
  do _ <- open_store DATABASE_USERS_SUBTREE;
  do r <- users_of db_id_str;
  let users := default [] r in
  if existsb (is_user user_uuid) users then tx_ret tt
  else set_path DATABASE_USERS_SUBTREE (path_of [db_id_str; "users"]) (Text (users_to_json (users ++ [user_entry user_uuid]))).

Definition unlink_user_from_database (database_id : ID) (user_uuid : string) : Tx unit :=
  let db_id_str := ID_to_string database_id in
  do _ <- open_store DATABASE_USERS_SUBTREE;
  do r <- users_of db_id_str;
  match r with
  | None => tx_ret tt
  | Some users =>
      let kept := filter (fun u => is_user user_uuid u = false) users in
      if decide (length kept = length users) then tx_ret tt
      else if is_nil kept then
        do _ <- DocStore_delete iter blake3_raw_cid root DATABASE_USERS_SUBTREE db_id_str; tx_ret tt
      else set_path DATABASE_USERS_SUBTREE (path_of [db_id_str; "users"]) (Text (users_to_json kept))
  end.

Definition get_linked_users (database_id : ID) : Tx (list string) :=
  do _ <- open_store DATABASE_USERS_SUBTREE;
  do r <- users_of (ID_to_string database_id);
  tx_ret (omap user_uuid_of (default [] r)).

Fixpoint linked_databases_go (user_uuid : string) (keys : list string) : Tx (list ID) :=
  match keys with
  | [] => tx_ret []
  | db_id_str :: rest =>
      do r <- users_of db_id_str;
      if match r with Some users => existsb (is_user user_uuid) users | None => false end then
        do id <- tx_lift (map_err EId (ID_parse db_id_str));
        do others <- linked_databases_go user_uuid rest;
        tx_ret (id :: others)
      else linked_databases_go user_uuid rest
  end.

Definition get_linked_databases (user_uuid : string) : Tx (list ID) :=
  do _ <- open_store DATABASE_USERS_SUBTREE;
  do all_databases <- DocStore_get_all iter blake3_raw_cid root DATABASE_USERS_SUBTREE;
  linked_databases_go user_uuid (key_iter (Doc_keys all_databases)).

Definition set_combined_settings (database_id : ID) (settings : SyncSettings) : Tx unit :=
  do _ <- open_store DATABASE_USERS_SUBTREE;
  set_path DATABASE_USERS_SUBTREE (path_of [ID_to_string database_id; "combined_settings"]) (Text (settings_to_json settings)).

Definition get_combined_settings (database_id : ID) : Tx (option SyncSettings) :=
  do _ <- open_store DATABASE_USERS_SUBTREE;
  do r <- tx_try (get_path_as DATABASE_USERS_SUBTREE (path_of [ID_to_string database_id; "combined_settings"]));
  match r with
  | Ok settings_json =>
      match settings_of_json settings_json with
      | Some settings => tx_ret (Some settings)
      | None => sync_error SyncSerializationError
      end
  | Err _ => tx_ret None
  end.
End manager.

(** ** The operations of [Sync] *)

Section sync_users.
Context `{IS : InstanceSpec} `{JS : !JsonSpec} `{LS : !LruSpec CacheKey (list Byte.byte)} `{PJ : PeerJson} `{UJ : UserJson}.
Context `{NE : !NodeEnv} `{TR : !RowCodec TrackedDatabase}.
(** The sync database, and the instance's own key. *)
Context (sync_tree : DbHandle) (device_key : PrivateKey).
Notation root := (db_root sync_tree).

(** The tips of a database that its handle works on. *)
Definition db_snapshot (db : DbHandle) : Nm Snapshot :=
  nm_instance (fun inst => Database_snapshot map_order inst (db_root db) (db_allow_unverified db) false).

(** The rows of the table of databases in a user's own database. *)
Definition tracked_databases (db : DbHandle) : Nm (list (string * TrackedDatabase)) :=
  view db (Table_search set_order raw_cid (db_root db) doc_order "databases" (fun _ => true)).

Definition open_with_device_key (id : ID) : Nm DbHandle :=
  step db <- db_open id;
  nm_ret (db_with_key db (DatabaseKey_new device_key)).

(** Take the user off the databases of [old] that are not in [current]. *)
Fixpoint unlink_all (user_uuid : string) (current : gset ID) (old : list ID) (txn : TxState) : Nm TxState :=
  match old with
  | [] => nm_ret txn
  | old_db :: rest =>
      step txn <- (if decide (old_db ∈ current) then nm_ret txn
                   else step (txn, _) <- in_tx txn (unlink_user_from_database set_order raw_cid read_strategy root old_db user_uuid);
                        nm_ret txn);
      unlink_all user_uuid current rest txn
  end.

Fixpoint link_all (user_uuid : string) (tracked : list (string * TrackedDatabase)) (txn : TxState) : Nm TxState :=
  match tracked with
  | [] => nm_ret txn
  | (_, t) :: rest =>
      step txn <- (if sync_enabled (td_sync_settings t) then
                     step (txn, _) <- in_tx txn (link_user_to_database set_order raw_cid read_strategy root (td_database_id t) user_uuid);
                     nm_ret txn
                   else nm_ret txn);
      link_all user_uuid rest txn
  end.

(** What a tracked user asks for. *)
Definition user_settings (db_id : ID) (state : option (ID * list ID)) : Nm (option SyncSettings) :=
  match state with
  | None => nm_ret None
  | Some (user_prefs_db_id, _) =>
      step user_db <- open_with_device_key user_prefs_db_id;
      step rows <- tracked_databases user_db;
      nm_ret (td_sync_settings <$>
        find (fun t => bool_decide (td_database_id t = db_id) && sync_enabled (td_sync_settings t)) rows.*2)
  end.

(** The settings that the users ask for. *)
Fixpoint collect_settings (db_id : ID) (users : list string) (txn : TxState) : Nm (TxState * list SyncSettings) :=
  match users with
  | [] => nm_ret (txn, [])
  | uuid :: rest =>
      step (txn, state) <- in_tx txn (get_tracked_user_state set_order raw_cid read_strategy root uuid);
      step found <- user_settings db_id state;
      step (txn, others) <- collect_settings db_id rest txn;
      nm_ret (txn, match found with Some s => s :: others | None => others end)
  end.

Fixpoint recompute (affected : list ID) (txn : TxState) : Nm TxState :=
  match affected with
  | [] => nm_ret txn
  | db_id :: rest =>
      step (txn, users) <- in_tx txn (get_linked_users set_order raw_cid read_strategy root db_id);
      step txn <- (if is_nil users then nm_ret txn
                   else
                     step (txn, settings_list) <- collect_settings db_id users txn;
                     if is_nil settings_list then nm_ret txn
                     else
                       step (txn, _) <- in_tx txn (set_combined_settings set_order raw_cid read_strategy root db_id
                                                     (merge_sync_settings settings_list));
                       nm_ret txn);
      recompute rest txn
  end.

Definition sync_user (user_uuid : string) (preferences_db_id : ID) : Nm unit :=
  step tx <- db_new_transaction map_order sync_tree;
  step (tx, state) <- in_tx tx (get_tracked_user_state set_order raw_cid read_strategy root user_uuid);
  step (tx, old_tips) <- match state with
                         | Some (_, tips) => nm_ret (tx, tips)
                         | None =>
                             step (tx, _) <- in_tx tx (track_user_preferences set_order raw_cid read_strategy root user_uuid preferences_db_id);
                             nm_ret (tx, [])
                         end;
  step prefs_db <- open_with_device_key preferences_db_id;
  step current_snapshot <- db_snapshot prefs_db;
  if decide (current_snapshot = Snapshot_new old_tips) then nm_ret tt
  else
    step all_tracked <- tracked_databases prefs_db;
    step (tx, old_databases) <- in_tx tx (get_linked_databases set_order key_order raw_cid read_strategy root user_uuid);
    let current_databases : gset ID :=
      list_to_set (td_database_id <$> filter (fun t => sync_enabled (td_sync_settings t) = true) all_tracked.*2) in
    step tx <- unlink_all user_uuid current_databases old_databases tx;
    step tx <- link_all user_uuid all_tracked tx;
    let affected := list_to_set (filter (fun d => d ∉ current_databases) old_databases) ∪ current_databases in
    step tx <- recompute (set_order affected) tx;
    step (tx, _) <- in_tx tx (update_tracked_tips set_order raw_cid read_strategy root user_uuid (tips current_snapshot));
    step _ <- db_commit set_order map_order key_order raw_cid read_strategy clock_millis sync_tree tx;
    nm_ret tt.

Fixpoint remove_from_databases (user_uuid : string) (databases : list ID) : Tx unit :=
  match databases with
  | [] => tx_ret tt
  | db_id :: rest =>
      do _ <- unlink_user_from_database set_order raw_cid read_strategy root db_id user_uuid;
      do remaining_users <- get_linked_users set_order raw_cid read_strategy root db_id;
      remove_from_databases user_uuid rest
  end.

Definition remove_user (user_uuid : string) : Nm unit :=
  update sync_tree
    (do databases <- get_linked_databases set_order key_order raw_cid read_strategy root user_uuid;
     remove_from_databases user_uuid databases).
End sync_users.

(** ** What the settings combine to *)

(** The last of the settings that has a property decides it. *)
Fixpoint last_property (key : string) (l : list SyncSettings) : option string :=
  match l with
  | [] => None
  | s :: rest => match last_property key rest with Some v => Some v | None => properties s !! key end
  end.

Lemma smallest_app o1 l1 o2 l2 :
  smallest o1 l1 -> smallest o2 l2 ->
  smallest (match o1, o2 with
            | Some a, Some b => Some (Z.min a b) | Some a, None => Some a | None, Some b => Some b | None, None => None
            end) (l1 ++ l2).
Proof.
  destruct o1 as [a|], o2 as [b|]; unfold smallest; setoid_rewrite elem_of_app.
  - intros [Ha Hla] [Hb Hlb]. split; [destruct (Z.min_spec a b) as [[_ ->]|[_ ->]]; auto|].
    intros n [Hn|Hn]; [specialize (Hla n Hn)|specialize (Hlb n Hn)]; lia.
  - naive_solver.
  - naive_solver.
  - naive_solver.
Qed.

Lemma smallest_one o : smallest o [o].
Proof.
  destruct o as [a|]; unfold smallest; setoid_rewrite list_elem_of_singleton; [|done]. split; [done|]. intros n [= ->]. lia.
Qed.

Lemma merge_fold_spec l : forall first seen,
  sync_enabled first = existsb sync_enabled seen -> sync_on_commit first = existsb sync_on_commit seen ->
  smallest (interval_seconds first) (interval_seconds <$> seen) ->
  (forall key, properties first !! key = last_property key seen) ->
  let r := foldl merge_two first l in
  sync_enabled r = existsb sync_enabled (seen ++ l) /\ sync_on_commit r = existsb sync_on_commit (seen ++ l)
  /\ smallest (interval_seconds r) (interval_seconds <$> (seen ++ l))
  /\ forall key, properties r !! key = last_property key (seen ++ l).
Proof.
  induction l as [|s l IH]; intros first seen He Hc Hi Hp; cbn zeta; [by rewrite app_nil_r|].
  cbn [foldl]. rewrite (cons_middle s seen l), app_assoc. apply IH.
  - cbn. rewrite existsb_app, He. cbn. by rewrite orb_false_r.
  - cbn. rewrite existsb_app, Hc. cbn. by rewrite orb_false_r.
  - rewrite fmap_app. cbn. by apply smallest_app, smallest_one.
  - intros key. cbn. rewrite lookup_union, Hp. clear -key.
    assert (last_property key (seen ++ [s]) = match properties s !! key with Some v => Some v | None => last_property key seen end) as ->.
    { induction seen as [|x seen IHs]; cbn; [by destruct (properties s !! key)|]. rewrite IHs. by destruct (properties s !! key). }
    by destruct (properties s !! key), (last_property key seen).
Qed.

(** The settings that are combined from the users of a database are the most
    aggressive: sync is on, or on for every commit, when some user wants it, the
    interval is the smallest that a user gives, and none when nobody gives one, and
    a property has the value of the last user that sets it. *)
Theorem merge_sync_settings_spec l :
  let r := merge_sync_settings l in
  sync_enabled r = existsb sync_enabled l /\ sync_on_commit r = existsb sync_on_commit l
  /\ smallest (interval_seconds r) (interval_seconds <$> l)
  /\ forall key, properties r !! key = last_property key l.
Proof.
  cbn zeta. destruct l as [|s l].
  - split_and!; [done|done|intros n Hn; by apply elem_of_nil in Hn|intros key; apply lookup_empty].
  - apply (merge_fold_spec l s [s]); cbn; [by rewrite orb_false_r..|apply smallest_one|done].
Qed.

(** ** Links *)

Section links.
Context `{CD : CodecSpec} `{JS : !JsonSpec} `{LS : !LruSpec CacheKey (list Byte.byte)} `{PJ : PeerJson} `{UJ : UserJson}.
Context (iter : gset ID -> list ID) (blake3_raw_cid : string -> Cid).
Context (strategy_of_json : string -> option HeightStrategy) (root : ID).
Context (C : gmap string Doc) (I : TxState -> Prop) `{SR : !StoreReads iter blake3_raw_cid root C I}.
Context (Hjson : json_faithful).
Notation computes := (StoreView.computes C I).
Notation DBS := DATABASE_USERS_SUBTREE.

(** The store of links is open. *)
Definition links_open (L : gmap string Doc) : Prop := registered C strategy_of_json DocStore_type L DBS.

Definition users_at (L : gmap string Doc) (db : string) : option (list UserEntry) :=
  json ← read_as C L DBS db "users"; users_of_json json.

Lemma open_links L : links_open L -> computes (open_store iter blake3_raw_cid strategy_of_json root DBS) L L (Ok tt).
Proof. intros H. by apply computes_open. Qed.

Lemma computes_users L db : links_open L -> computes (users_of iter blake3_raw_cid root db) L L (Ok (users_at L db)).
Proof.
  intros Hr. assert (is_Some (C !! DBS)) as Hc by apply Hr.
  destruct (computes_get_as iter blake3_raw_cid root C I (T := string) DBS db "users" L Hc) as (r & Hr' & E).
  unfold users_at. rewrite E. eapply computes_bind; [by apply computes_try|]. destruct r; apply computes_ret.
Qed.

Lemma links_put L db f v : links_open L -> links_open (put_field L DBS db f v).
Proof.
  intros (? & ? & ? & w & i & Hw & ?). do 3 (split; [done|]). exists w, i. unfold put_field. by rewrite seen_set_other.
Qed.

Lemma users_put L db l :
  plain db -> slot L DBS db -> users_at (put_field L DBS db "users" (Text (users_to_json l))) db = Some l.
Proof.
  intros Hd Hs. unfold users_at, read_as. rewrite field_put; [|done|split_and!; done|split_and!; done|done..].
  cbn. apply users_of_to_json.
Qed.

Lemma linked_users L db :
  links_open L -> computes (get_linked_users iter blake3_raw_cid strategy_of_json root db) L L
    (Ok (omap user_uuid_of (default [] (users_at L (ID_to_string db))))).
Proof.
  intros Hr. eapply computes_bind; [by apply open_links|]. eapply computes_bind; [by apply computes_users|].
  apply computes_ret.
Qed.

Lemma existsb_user uuid l : existsb (is_user uuid) l = bool_decide (uuid ∈ omap user_uuid_of l).
Proof.
  destruct (existsb (is_user uuid) l) eqn:E; symmetry.
  - apply bool_decide_eq_true. apply existsb_exists in E as (u & Hin & Hu). apply list_elem_of_In in Hin.
    apply list_elem_of_omap. exists u. split; [done|]. by apply bool_decide_eq_true in Hu.
  - apply bool_decide_eq_false. intros (u & Hin & Hu)%list_elem_of_omap.
    rewrite <- not_true_iff_false in E. apply E, existsb_exists. exists u. split; [by apply list_elem_of_In|].
    by apply bool_decide_eq_true.
Qed.

(** Linking a user to a database: the user is among its users, once more than
    before only if it was not there, and the others are as they were.  The combined
    settings that are stored are read back and leave the users alone. *)
Theorem user_links_spec L db uuid settings :
  let db_str := ID_to_string db in
  let before := omap user_uuid_of (default [] (users_at L db_str)) in
  plain db_str -> links_open L -> slot L DBS db_str ->
  exists L', computes (link_user_to_database iter blake3_raw_cid strategy_of_json root db uuid) L L' (Ok tt)
    /\ computes (get_linked_users iter blake3_raw_cid strategy_of_json root db) L' L'
         (Ok (if decide (uuid ∈ before) then before else before ++ [uuid]))
    /\ exists L'', computes (set_combined_settings iter blake3_raw_cid strategy_of_json root db settings) L' L'' (Ok tt)
       /\ computes (get_combined_settings iter blake3_raw_cid strategy_of_json root db) L'' L'' (Ok (Some settings))
       /\ computes (get_linked_users iter blake3_raw_cid strategy_of_json root db) L'' L''
            (Ok (if decide (uuid ∈ before) then before else before ++ [uuid])).
Proof.
  cbn zeta. intros Hd Hr Hs. set (d := ID_to_string db) in *.
  set (before := omap user_uuid_of (default [] (users_at L d))).
  assert (plain "users" /\ plain "combined_settings") as [P1 P2] by (split_and!; split_and!; done).
  set (L' := if decide (uuid ∈ before) then L else
    put_field L DBS d "users" (Text (users_to_json (default [] (users_at L d) ++ [user_entry uuid])))).
  assert (links_open L' /\ slot L' DBS d
    /\ omap user_uuid_of (default [] (users_at L' d)) = if decide (uuid ∈ before) then before else before ++ [uuid])
    as (Hr' & Hs' & Hl').
  { subst L'. destruct (decide (uuid ∈ before)); [done|]. split; [by apply links_put|].
    split; [by apply slot_put|]. rewrite users_put by done. cbn. rewrite omap_app. cbn.
    by rewrite user_uuid_of_entry. }
  exists L'. split.
  { eapply computes_bind; [by apply open_links|]. eapply computes_bind; [by apply computes_users|].
    cbn zeta. rewrite existsb_user. fold d before. subst L'.
    destruct (decide (uuid ∈ before)); [rewrite bool_decide_true by done; apply computes_ret|].
    rewrite bool_decide_false by done. apply (computes_put iter blake3_raw_cid); first [done|apply Hr]. }
  split; [pose proof (linked_users L' db Hr') as H; fold d in H; by rewrite Hl' in H|].
  exists (put_field L' DBS d "combined_settings" (Text (settings_to_json settings))). split; [|split].
  - eapply computes_bind; [by apply open_links|]. apply (computes_put iter blake3_raw_cid); first [done|apply Hr'].
  - eapply computes_bind; [by apply open_links, links_put|].
    assert (is_Some (C !! DBS)) as Hc by apply Hr.
    destruct (computes_get_as iter blake3_raw_cid root C I (T := string) DBS d "combined_settings"
      (put_field L' DBS d "combined_settings" (Text (settings_to_json settings))) Hc) as (r & Hread & E).
    unfold read_as in E. rewrite field_put in E by done. cbn in E. destruct r as [j|]; [|done]. injection E as <-.
    eapply computes_bind; [by apply computes_try|]. cbn. rewrite settings_of_to_json. apply computes_ret.
  - pose proof (linked_users (put_field L' DBS d "combined_settings" (Text (settings_to_json settings))) db) as H.
    fold d in H. unfold users_at in H at 1, Hl' at 1. unfold read_as in *.
    rewrite field_put in H by done. cbn in H. rewrite <- Hl'. by apply H, links_put.
Qed.
End links.

(** ** Safety *)

Section staging.
Context `{CD : CodecSpec} `{JS : !JsonSpec} `{LS : !LruSpec CacheKey (list Byte.byte)} `{PJ : PeerJson} `{UJ : UserJson}.
Context (iter : gset ID -> list ID) (key_iter : gset string -> list string) (blake3_raw_cid : string -> Cid).
Context (strategy_of_json : string -> option HeightStrategy) (root : ID).
Context (Hiter : forall s, iter s ≡ₚ elements s).

Lemma staging_get_path name p : staging (DocStore_get_path iter blake3_raw_cid root name p).
Proof. unfold DocStore_get_path, get_committed. stages. Qed.
Hint Resolve staging_get_path staging_delete staging_get_all : staging.

Lemma staging_track uuid id : staging (track_user_preferences iter blake3_raw_cid strategy_of_json root uuid id).
Proof. unfold track_user_preferences. stages. Qed.

Lemma staging_tracked uuid : staging (get_tracked_user_state iter blake3_raw_cid strategy_of_json root uuid).
Proof. unfold get_tracked_user_state, contains_path_str, sync_error. stages. Qed.

Lemma staging_update_tips uuid l : staging (update_tracked_tips iter blake3_raw_cid strategy_of_json root uuid l).
Proof. unfold update_tracked_tips. stages. Qed.

Lemma staging_users db : staging (users_of iter blake3_raw_cid root db).
Proof. unfold users_of. stages. Qed.
Hint Resolve staging_users : staging.

Lemma staging_link db uuid : staging (link_user_to_database iter blake3_raw_cid strategy_of_json root db uuid).
Proof. unfold link_user_to_database. stages. Qed.

Lemma staging_unlink db uuid : staging (unlink_user_from_database iter blake3_raw_cid strategy_of_json root db uuid).
Proof. unfold unlink_user_from_database. stages. Qed.

Lemma staging_linked_users db : staging (get_linked_users iter blake3_raw_cid strategy_of_json root db).
Proof. unfold get_linked_users. stages. Qed.

Lemma staging_linked_databases uuid :
  staging (get_linked_databases iter key_iter blake3_raw_cid strategy_of_json root uuid).
Proof.
  assert (forall keys, staging (linked_databases_go iter blake3_raw_cid root uuid keys)) as Hgo
    by (induction keys; simpl; stages).
  unfold get_linked_databases. stages.
Qed.

Lemma staging_set_combined db s : staging (set_combined_settings iter blake3_raw_cid strategy_of_json root db s).
Proof. unfold set_combined_settings. stages. Qed.

Lemma staging_get_combined db : staging (get_combined_settings iter blake3_raw_cid strategy_of_json root db).
Proof. unfold get_combined_settings, sync_error. stages. Qed.

Lemma staging_search {T} `{!RowCodec T} doc_iter name q : staging (Table_search (T := T) iter blake3_raw_cid root doc_iter name q).
Proof. unfold Table_search. stages. Qed.
End staging.

#[export] Hint Resolve staging_get_path staging_track staging_tracked staging_update_tips staging_link staging_unlink
  staging_linked_users staging_linked_databases staging_set_combined staging_get_combined staging_search : staging.

Section users_safe.
Context `{IS : InstanceSpec} `{JS : !JsonSpec} `{LS : !LruSpec CacheKey (list Byte.byte)} `{PJ : PeerJson} `{UJ : UserJson}.
Context `{NE : !NodeEnv} `{TR : !RowCodec TrackedDatabase} (sync_tree : DbHandle) (device_key : PrivateKey).

Lemma nquiet_db_snapshot db : nquiet (db_snapshot db) (fun _ => True).
Proof.
  intros n [Hm Hc]. unfold db_snapshot, nm_instance.
  destruct (Database_snapshot_keeps map_order map_order_ok (n_inst n) (db_root db) (db_allow_unverified db) false Hm)
    as (inst1 & ds & r & -> & [Hi He _ _]). split; [split; [by apply Hi|done]|]. by split.
Qed.

Lemma safe_db_snapshot db : safe (db_snapshot db).
Proof. apply nquiet_nsafe, nquiet_db_snapshot. Qed.

Lemma nquiet_tracked_databases db : nquiet (tracked_databases db) (fun _ => True).
Proof. apply nquiet_view; [apply map_order_ok|]. apply calm_staging. eauto with staging. Qed.

Lemma safe_tracked_databases db : safe (tracked_databases db).
Proof. apply nquiet_nsafe, nquiet_tracked_databases. Qed.

Lemma safe_db_open id : safe (db_open id).
Proof. eapply safe_of, nsafe_open. Qed.
Hint Resolve safe_db_snapshot safe_tracked_databases safe_db_open : safe.

Lemma nquiet_open_device id : nquiet (open_with_device_key device_key id) (fun _ => True).
Proof. eapply nquiet_bind; [apply nquiet_open|]. intros db _. by apply nquiet_ret. Qed.

Lemma safe_open_device id : safe (open_with_device_key device_key id).
Proof. apply nquiet_nsafe, nquiet_open_device. Qed.
Hint Resolve safe_open_device : safe.

Lemma nquiet_unlink_all uuid current old : forall t, uncommitted t -> nquiet (unlink_all sync_tree uuid current old t) uncommitted.
Proof.
  induction old as [|d old IH]; intros t Ht; simpl; [by apply nquiet_ret|].
  eapply (nquiet_bind _ _ uncommitted); [|intros t1 Ht1; by apply IH]. destruct (decide _); [by apply nquiet_ret|].
  staged_step t1. by apply nquiet_ret.
Qed.

Lemma nquiet_link_all uuid l : forall t, uncommitted t -> nquiet (link_all sync_tree uuid l t) uncommitted.
Proof.
  induction l as [|[k d] l IH]; intros t Ht; simpl; [by apply nquiet_ret|].
  eapply (nquiet_bind _ _ uncommitted); [|intros t1 Ht1; by apply IH]. destruct (sync_enabled _); [|by apply nquiet_ret].
  staged_step t1. by apply nquiet_ret.
Qed.

Lemma nquiet_user_settings db o : nquiet (user_settings device_key db o) (fun _ => True).
Proof.
  unfold user_settings. destruct o as [[id l]|]; [|by apply nquiet_ret].
  eapply nquiet_bind; [apply nquiet_open_device|]. intros d _.
  eapply nquiet_bind; [apply nquiet_tracked_databases|]. intros rows _. by apply nquiet_ret.
Qed.

Lemma nquiet_collect db users : forall t, uncommitted t ->
  nquiet (collect_settings sync_tree device_key db users t) (fun p => uncommitted p.1).
Proof.
  induction users as [|u users IH]; intros t Ht; simpl; [by apply nquiet_ret|].
  staged_step t1. eapply nquiet_bind; [apply nquiet_user_settings|].
  intros found _. eapply nquiet_bind; [by apply IH|]. intros [t2 others] Ht2. by apply nquiet_ret.
Qed.

Lemma nquiet_recompute dbs : forall t, uncommitted t -> nquiet (recompute sync_tree device_key dbs t) uncommitted.
Proof.
  induction dbs as [|d dbs IH]; intros t Ht; simpl; [by apply nquiet_ret|].
  staged_step t1. eapply (nquiet_bind _ _ uncommitted); [|intros t2 Ht2; by apply IH].
  destruct (is_nil l); [by apply nquiet_ret|]. eapply nquiet_bind; [by apply nquiet_collect|]. intros [t2 s] Ht2.
  destruct (is_nil s); [by apply nquiet_ret|]. staged_step t3. by apply nquiet_ret.
Qed.

(** Updating the sync system from a user's preferences ends, keeps the backend's
    invariant and entries, and commits once at most. *)
Lemma sound_sync_user uuid prefs : sound clock_millis 1 (sync_user sync_tree device_key uuid prefs) (fun _ => True).
Proof.
  unfold sync_user. eapply sound_read; [done|apply nquiet_new_transaction, map_order_ok|]. intros t Ht.
  eapply sound_read; [done|apply nquiet_staged; [done|eauto with staging]|]. intros [t1 o] Ht1.
  eapply (sound_read _ _ _ _ (fun p => uncommitted p.1)); [done| |].
  { destruct o as [[]|]; [by apply nquiet_ret|]. staged_step t2. by apply nquiet_ret. }
  intros [t2 old_tips] Ht2. eapply sound_read; [done|apply nquiet_open_device|]. intros db _.
  eapply sound_read; [done|apply nquiet_db_snapshot|]. intros snap _.
  destruct (decide _); [eapply (sound_mono _ 0); [by apply (sound_ret _ _ (fun _ => True))|done|done]|].
  eapply sound_read; [done|apply nquiet_tracked_databases|]. intros rows _.
  eapply sound_read; [done|apply nquiet_staged; [done|eauto with staging]|]. intros [t3 old] Ht3. cbn zeta.
  eapply sound_read; [done|by apply nquiet_unlink_all|]. intros t4 Ht4.
  eapply sound_read; [done|by apply nquiet_link_all|]. intros t5 Ht5.
  eapply sound_read; [done|by apply nquiet_recompute|]. intros t6 Ht6.
  eapply sound_read; [done|apply nquiet_staged; [done|eauto with staging]|]. intros [t7 []] Ht7.
  change 1 with (1 + 0). eapply sound_bind; [done|by apply sound_commit; [apply set_order_ok|apply map_order_ok|]|].
  intros ? _. by apply sound_ret.
Qed.

Lemma safe_sync_user uuid prefs : safe (sync_user sync_tree device_key uuid prefs).
Proof. eapply sound_nsafe, sound_sync_user. Qed.

Lemma safe_remove_user uuid : safe (remove_user sync_tree uuid).
Proof.
  assert (forall l, staging (remove_from_databases sync_tree uuid l)) by (induction l; simpl; stages; eauto with staging).
  unfold remove_user. apply safe_update. stages.
Qed.
End users_safe.
