(* ===== verification/Bootstrap.v ===== *)
(** * Requests for access (sync/bootstrap_request_manager.rs, sync/bootstrap.rs)

    A device that has no access to a database asks for it; the request is stored in
    a table of the sync database until an administrator of the requested database
    approves or rejects it.  Shown here: only a pending request is decided, only by
    a key with the admin permission on its database, and a refused decision stores
    nothing; a request is read back as stored and as decided. *)

From S2P Require Import Prelude.
From S2P Require Import Path.
From S2P Require Import Position.
From S2P Require Import Ids.
From S2P Require Import Doc.
From S2P Require Import DocPath.
From S2P Require Import Errors.
From S2P Require Import Crypto.
From S2P Require Import Permission.
From S2P Require Import AuthTypes.
From S2P Require Import AuthSettings.
From S2P Require Import Entry.
From S2P Require Import Backend.
From S2P Require Import Traversal.
From S2P Require Import CrdtCache.
From S2P Require Import BackendSteps.
From S2P Require Import Reachability.
From S2P Require Import Validation.
From S2P Require Import Verify.
From S2P Require Import InstanceOps.
From S2P Require Import WireCodec.
From S2P Require Import Transaction.
From S2P Require Import Stores.
From S2P Require Import StoreView.
From S2P Require Import Commit.
From S2P Require Import TxFrame.
From S2P Require Import CommitSpec.
From S2P Require Import Lifecycle.
From S2P Require Import Settings.
From S2P Require Import Table.
From S2P Require Import Node.
From S2P Require Import Peers.

(** ** Requests *)

Inductive RequestStatus : Type :=
| RequestPending
| RequestApproved (approved_by approval_time : string)
| RequestRejected (rejected_by rejection_time : string).

(** [mem::discriminant] of two statuses. *)
Definition same_kind (a b : RequestStatus) : bool :=
  match a, b with
  | RequestPending, RequestPending | RequestApproved _ _, RequestApproved _ _ | RequestRejected _ _, RequestRejected _ _ => true
  | _, _ => false
  end.

Section request.
Context `{CS : CidSpec} `{KS : CryptoSpec}.

Record BootstrapRequest : Type := mkBootstrapRequest {
  bq_tree_id : ID;
  bq_requesting_pubkey : PublicKey;
  bq_requesting_key_name : string;
  bq_requested_permission : Permission;
  bq_timestamp : string;
  bq_status : RequestStatus;
  bq_peer_address : Address;
  bq_metadata : option Doc;
}.

Definition with_status (r : BootstrapRequest) (status : RequestStatus) : BootstrapRequest :=
  mkBootstrapRequest (bq_tree_id r) (bq_requesting_pubkey r) (bq_requesting_key_name r) (bq_requested_permission r)
    (bq_timestamp r) status (bq_peer_address r) (bq_metadata r).
End request.

(** ** The manager *)

Section manager.
Context `{CD : CodecSpec} `{JS : !JsonSpec} `{LS : !LruSpec CacheKey (list Byte.byte)}.
Context `{RQ : !RowCodec BootstrapRequest}.
Context (iter : gset ID -> list ID) (blake3_raw_cid : string -> Cid) (doc_iter : gmap string Value -> list (string * Value)).
Context (strategy_of_json : string -> option HeightStrategy) (root : ID).

Definition BOOTSTRAP_REQUESTS_SUBTREE : string := "bootstrap_requests".

Definition open_requests : Tx unit :=
  get_store iter blake3_raw_cid root strategy_of_json Table_type BOOTSTRAP_REQUESTS_SUBTREE.

(** [uuid] is the generated key. *)
Definition store_request (uuid : string) (request : BootstrapRequest) : Tx string :=
  do _ <- open_requests;
  Table_insert root uuid BOOTSTRAP_REQUESTS_SUBTREE request.

Definition get_request (request_id : string) : Tx (option BootstrapRequest) :=
  do _ <- open_requests;
  do r <- tx_try (Table_get iter blake3_raw_cid root BOOTSTRAP_REQUESTS_SUBTREE request_id);
  tx_lift (match r with
           | Ok request => Ok (Some request)
           | Err (EStore (StoreKeyNotFound _ _)) => Ok None
           | Err e => Err e
           end).

Definition filter_requests (status_filter : RequestStatus) : Tx (list (string * BootstrapRequest)) :=
  do _ <- open_requests;
  Table_search iter blake3_raw_cid root doc_iter BOOTSTRAP_REQUESTS_SUBTREE
    (fun request => same_kind status_filter (bq_status request)).

Definition pending_requests : Tx (list (string * BootstrapRequest)) := filter_requests RequestPending.

Definition approved_requests : Tx (list (string * BootstrapRequest)) :=
  filter_requests (RequestApproved EmptyString EmptyString).

Definition rejected_requests : Tx (list (string * BootstrapRequest)) :=
  filter_requests (RequestRejected EmptyString EmptyString).

Definition update_status (request_id : string) (new_status : RequestStatus) : Tx unit :=
  do _ <- open_requests;
  do request <- Table_get iter blake3_raw_cid root BOOTSTRAP_REQUESTS_SUBTREE request_id;
  Table_set root BOOTSTRAP_REQUESTS_SUBTREE request_id (with_status request new_status).
End manager.

(** ** The operations of [Sync] *)

Section sync_bootstrap.
Context `{IS : InstanceSpec} `{JS : !JsonSpec} `{LS : !LruSpec CacheKey (list Byte.byte)}.
Context `{NE : !NodeEnv} `{RQ : !RowCodec BootstrapRequest}.
Context (sync_tree : DbHandle).
Notation root := (db_root sync_tree).

Definition pending_bootstrap_requests : Nm (list (string * BootstrapRequest)) :=
  view sync_tree (pending_requests set_order raw_cid doc_order read_strategy root).

Definition approved_bootstrap_requests : Nm (list (string * BootstrapRequest)) :=
  view sync_tree (approved_requests set_order raw_cid doc_order read_strategy root).

Definition rejected_bootstrap_requests : Nm (list (string * BootstrapRequest)) :=
  view sync_tree (rejected_requests set_order raw_cid doc_order read_strategy root).

Definition get_bootstrap_request (request_id : string) : Nm (option (string * BootstrapRequest)) :=
  view sync_tree
    (do r <- get_request set_order raw_cid read_strategy root request_id;
     tx_ret (match r with Some request => Some (request_id, request) | None => None end)).

Definition nm_fail {A} (e : Error) : Nm A := nm_lift (Err e).

(** The common part of a decision: the pending request, and its database opened
    with a key that has the admin permission. *)
Definition load_pending (request_id : string) (key : DatabaseKey) : Nm (TxState * BootstrapRequest * DbHandle) :=
  step sync_op <- db_new_transaction map_order sync_tree;
  step (sync_op, found) <- in_tx sync_op (get_request set_order raw_cid read_strategy root request_id);
  match found with
  | None => nm_fail (ESync (RequestNotFound request_id))
  | Some request =>
      if negb (same_kind RequestPending (bq_status request)) then
        nm_fail (ESync (InvalidRequestState request_id "Pending"))
      else
        step database <- db_open (bq_tree_id request);
        let database := db_with_key database key in
        step permission <- current_permission set_order map_order raw_cid database;
        if negb (can_admin permission) then nm_fail (ESync (SyncInsufficientPermission request_id "Admin"))
        else nm_ret (sync_op, request, database)
  end.

(** Record the decision and commit it to the sync database. *)
Definition decide_request (sync_op : TxState) (request_id : string) (status : string -> RequestStatus) : Nm unit :=
  step now <- now_rfc3339;
  step (sync_op, _) <- in_tx sync_op (update_status set_order raw_cid read_strategy root request_id (status now));
  step _ <- db_commit set_order map_order key_order raw_cid read_strategy clock_millis sync_tree sync_op;
  nm_ret tt.

Definition approve_bootstrap_request_with_key (request_id : string) (key : DatabaseKey) : Nm unit :=
  step (sync_op, request, database) <- load_pending request_id key;
  let auth_key := AuthKey_active (Some (bq_requesting_key_name request)) (bq_requested_permission request) in
  step _ <- update database (set_auth_key (db_root database) (bq_requesting_pubkey request) auth_key);
  decide_request sync_op request_id (RequestApproved (display_id (dk_identity key))).

Definition reject_bootstrap_request_with_key (request_id : string) (key : DatabaseKey) : Nm unit :=
  step (sync_op, request, database) <- load_pending request_id key;
  decide_request sync_op request_id (RequestRejected (display_id (dk_identity key))).
End sync_bootstrap.

(** ** Safety *)

Section staging.
Context `{CD : CodecSpec} `{JS : !JsonSpec} `{LS : !LruSpec CacheKey (list Byte.byte)}.
Context (iter : gset ID -> list ID) (blake3_raw_cid : string -> Cid) (root : ID).
Context (Hiter : forall s, iter s ≡ₚ elements s).
Context {T : Type} `{RC : !RowCodec T}.

Lemma staging_table_get name key : staging (Table_get (T := T) iter blake3_raw_cid root name key).
Proof. unfold Table_get, committed_row. stages. Qed.

Lemma staging_table_set name key row : staging (Table_set (T := T) root name key row).
Proof. unfold Table_set, stage. stages. Qed.
End staging.

#[export] Hint Resolve staging_table_get staging_table_set staging_get_store : staging.

Section request_staging.
Context `{CD : CodecSpec} `{JS : !JsonSpec} `{LS : !LruSpec CacheKey (list Byte.byte)}.
Context `{RQ : !RowCodec BootstrapRequest}.
Context (iter : gset ID -> list ID) (blake3_raw_cid : string -> Cid) (doc_iter : gmap string Value -> list (string * Value)).
Context (strategy_of_json : string -> option HeightStrategy) (root : ID).
Context (Hiter : forall s, iter s ≡ₚ elements s).

Lemma staging_store_request uuid r : staging (store_request iter blake3_raw_cid strategy_of_json root uuid r).
Proof. unfold store_request, open_requests, Table_insert. stages. Qed.

Lemma staging_get_request id : staging (get_request iter blake3_raw_cid strategy_of_json root id).
Proof. unfold get_request, open_requests. stages. Qed.

Lemma staging_filter_requests st : staging (filter_requests iter blake3_raw_cid doc_iter strategy_of_json root st).
Proof. unfold filter_requests, open_requests. stages. Qed.

Lemma staging_update_request id st : staging (update_status iter blake3_raw_cid strategy_of_json root id st).
Proof. unfold update_status, open_requests. stages. Qed.
End request_staging.

#[export] Hint Resolve staging_store_request staging_get_request staging_filter_requests staging_update_request : staging.

Section gate.
Context `{IS : InstanceSpec} `{JS : !JsonSpec} `{LS : !LruSpec CacheKey (list Byte.byte)}.
Context `{NE : !NodeEnv} `{RQ : !RowCodec BootstrapRequest}.
Context (sync_tree : DbHandle).
Notation permission_of := (current_permission set_order map_order raw_cid).

Lemma reads_permission db : reads (permission_of db).
Proof.
  unfold current_permission. destruct (db_key db); [|apply reads_lift].
  apply reads_bind; [apply reads_auth_settings; [apply set_order_ok|apply map_order_ok]|]. intros a. apply reads_read.
Qed.

Lemma safe_permission db : safe (permission_of db).
Proof. apply nsafe_current_permission; [apply set_order_ok|apply map_order_ok]. Qed.

Lemma nsafe_load_pending id key : nsafe (load_pending sync_tree id key) (fun p => txn_ok p.1.1).
Proof.
  unfold load_pending. eapply nsafe_bind; [apply nsafe_new_transaction, map_order_ok|]. intros t Ht.
  eapply nsafe_bind; [apply nsafe_staged; [done|eauto with staging]|]. intros [t1 found] Ht1.
  destruct found as [request|]; [|by apply nsafe_lift]. destruct (negb _); [by apply nsafe_lift|].
  eapply nsafe_bind; [apply nsafe_open|]. intros db _. cbn zeta. eapply nsafe_bind; [apply safe_permission|].
  intros p _. destruct (negb _); [by apply nsafe_lift|]. by apply nsafe_ret.
Qed.

Lemma safe_decide t id st : txn_ok t -> safe (decide_request sync_tree t id st).
Proof.
  intros Ht. unfold decide_request. apply safe_bind; [apply safe_now|]. intros now.
  eapply nsafe_bind; [apply nsafe_staged; [done|eauto with staging]|]. intros [t1 []] Ht1.
  apply safe_bind; [apply nsafe_commit; [apply set_order_ok|apply map_order_ok|done]|]. intros _. apply safe_ret.
Qed.

Lemma safe_approve id key : safe (approve_bootstrap_request_with_key sync_tree id key).
Proof.
  eapply nsafe_bind; [apply nsafe_load_pending|]. intros [[t request] db] Ht. cbn zeta.
  apply safe_bind; [apply safe_update, staging_set|]. intros _. by apply safe_decide.
Qed.

Lemma safe_reject id key : safe (reject_bootstrap_request_with_key sync_tree id key).
Proof. eapply nsafe_bind; [apply nsafe_load_pending|]. intros [[t request] db] Ht. by apply safe_decide. Qed.

(** The record of a request in the sync database, as a new transaction on the
    state [n] reads it. *)
Definition recorded (id : string) (request : BootstrapRequest) (n : Node) : Prop :=
  exists n1 n2 tx tx1,
    db_new_transaction map_order sync_tree n = Some (Done (n1, Ok tx))
    /\ in_tx tx (get_request set_order raw_cid read_strategy (db_root sync_tree) id) n1
       = Some (Done (n2, Ok (tx1, Some request))).

(** What it takes to come to a decision. *)
Lemma load_pending_inv id key n n1 r :
  node_ok n -> load_pending sync_tree id key n = Some (Done (n1, r)) ->
  entries (node_engine n1) = entries (node_engine n)
  /\ forall t request db, r = Ok (t, request, db) ->
     recorded id request n /\ bq_status request = RequestPending
     /\ db = mkDbHandle (bq_tree_id request) (Some key) false
     /\ exists n0 p, node_ok n0 /\ entries (node_engine n0) = entries (node_engine n)
          /\ permission_of db n0 = Some (Done (n1, Ok p)) /\ can_admin p = true.
Proof.
  intros Hn H. pose proof (nsafe_new_transaction map_order map_order_ok sync_tree n Hn) as Ht.
  reads_inv H as (n2 & t & E2 & Hn2 & He2 & H) by (apply reads_new_transaction, map_order_ok).
  rewrite E2 in Ht. destruct Ht as (_ & _ & Ht). specialize (Ht t eq_refl).
  reads_inv H as (n3 & [t3 found] & E3 & Hn3 & He3 & H) by (apply reads_in_tx; [apply calm_staging; eauto with staging|done]).
  assert (forall e, nm_fail (A := TxState * BootstrapRequest * DbHandle) e n3 = Some (Done (n1, r)) ->
    entries (node_engine n1) = entries (node_engine n) /\ r = Err e) as Hfail.
  { intros e [= <- <-]. split; [congruence|done]. }
  destruct found as [request|]; [|destruct (Hfail _ H) as [? ->]; by split].
  destruct (same_kind RequestPending (bq_status request)) eqn:Ek; cbn [negb] in H;
    [|destruct (Hfail _ H) as [? ->]; by split].
  pose proof (nsafe_open (bq_tree_id request) n3 Hn3) as Hop.
  reads_inv H as (n4 & db & E4 & Hn4 & He4 & H) by apply reads_open.
  rewrite E4 in Hop. destruct Hop as (_ & _ & Hop). specialize (Hop db eq_refl) as ->. cbn zeta in H.
  reads_inv H as (n5 & p & E5 & Hn5 & He5 & H) by apply reads_permission.
  destruct (can_admin p) eqn:Ep; cbn [negb] in H; injection H as <- <-; (split; [congruence|]); [|done].
  intros t' request' db' [= <- <- <-]. split; [by exists n2, n3, t, t3|]. split; [by destruct (bq_status request)|].
  split; [done|]. exists n4, p. split; [done|]. split; [congruence|done].
Qed.

End gate.

(** ** A concrete request *)

#[local] Existing Instance nat_cid.
#[local] Existing Instance byte_crypto.
#[local] Existing Instance list_lru.
#[local] Existing Instance wire_codec.
#[local] Existing Instance wire_json.
#[local] Existing Instance wire_peers.
#[local] Existing Instance wire_instance.

Definition status_fields (s : RequestStatus) : list string :=
  match s with
  | RequestPending => ["pending"; EmptyString; EmptyString]
  | RequestApproved by' time => ["approved"; by'; time]
  | RequestRejected by' time => ["rejected"; by'; time]
  end.

Definition read_status (kind by' time : string) : RequestStatus :=
  if decide (kind = "approved") then RequestApproved by' time
  else if decide (kind = "rejected") then RequestRejected by' time
  else RequestPending.

Definition read_request (j : string) : option BootstrapRequest :=
  match text_list read_string j with
  | Some [id; pk; name; perm; ts; k; b; t; tt'; ta] =>
      match ID_parse id, PublicKey_from_string pk, Permission_from_string perm with
      | Ok id, Ok pk, Ok perm =>
          Some (mkBootstrapRequest id pk name perm ts (read_status k b t) (mkAddress tt' ta) None)
      | _, _, _ => None
      end
  | _ => None
  end.

(** Requests without metadata, whose permission can be written. *)
Definition write_request (r : BootstrapRequest) : option string :=
  if match bq_metadata r, Permission_from_string (Permission_to_string (bq_requested_permission r)) with
     | None, Ok p => bool_decide (p = bq_requested_permission r)
     | _, _ => false
     end
  then Some (list_text write_string ([ID_to_string (bq_tree_id r); PublicKey_to_string (bq_requesting_pubkey r);
         bq_requesting_key_name r; Permission_to_string (bq_requested_permission r); bq_timestamp r]
         ++ status_fields (bq_status r) ++ [transport_type (bq_peer_address r); address (bq_peer_address r)]))
  else None.

#[export] Instance request_codec : RowCodec BootstrapRequest.
Proof.
  refine {| row_to_json := write_request; row_of_json := read_request |}.
  intros r j. unfold write_request. destruct (bq_metadata r) as [m|] eqn:Hm; [done|].
  destruct (Permission_from_string _) as [p|] eqn:Hp; [|done].
  destruct (bool_decide_reflect (p = bq_requested_permission r)) as [->|]; [|done]. intros [= <-].
  unfold read_request. rewrite text_list_roundtrip by apply read_string_write.
  destruct r as [id pk name perm ts st [a1 a2] m]. cbn [bq_metadata] in Hm. subst m. cbn [bq_tree_id bq_requesting_pubkey bq_requesting_key_name
    bq_requested_permission bq_timestamp bq_status bq_peer_address transport_type address app] in *.
  destruct st; cbn [status_fields app]; by rewrite ID_parse_to_string_ok, PublicKey_from_to_string, Hp.
Defined.
#[local] Existing Instance wire_env.

(** An instance with a database, a sync database and one stored request. *)
Definition asked_request : BootstrapRequest :=
  mkBootstrapRequest one_root (public_key (Ed25519Private Byte.x21)) "laptop" (Write 5) "now" RequestPending
    (mkAddress "http" "h") None.

Definition asked_run : option (Outcome (Node * Result DbHandle Error)) :=
  (step sync_tree <- wire_create admin_sk 6 Doc_new (fun _ => tx_ret tt);
   step _ <- update sync_tree (store_request set_order raw_cid read_strategy (db_root sync_tree) "r1" asked_request);
   nm_ret sync_tree) one_db.

Definition asked : option (Outcome (Node * Result DbHandle Error)) := Eval vm_compute in asked_run.

Lemma asked_eq : asked_run = asked.
Proof. vm_cast_no_check (eq_refl asked). Qed.

Definition asked_node : Node := match asked with Some (Done (n, _)) => n | _ => empty_node end.
Definition asked_sync : DbHandle := match asked with Some (Done (_, Ok db)) => db | _ => mkDbHandle ID_default None false end.

Lemma asked_node_ok : node_ok asked_node.
Proof.
  assert (safe (step sync_tree <- wire_create admin_sk 6 Doc_new (fun _ => tx_ret tt);
    step _ <- update sync_tree (store_request set_order raw_cid read_strategy (db_root sync_tree) "r1" asked_request);
    nm_ret sync_tree)) as Hs.
  { apply safe_bind; [|intros db; apply safe_bind; [apply safe_update, staging_store_request, set_order_ok|intros _; apply safe_ret]].
    exact (safe_of _ _ (nsafe_create elements list_iter elements wire_hash (fun _ => None) (fun _ _ => 50)
      (fun s => Permutation_refl _) (fun A m => Permutation_refl _) "x" 6 admin_sk Doc_new (fun _ => tx_ret tt)
      (fun _ => calm_staging _ (staging_ret _)))). }
  specialize (Hs one_db one_db_ok). pose proof asked_eq as E. unfold asked_run in E. rewrite E in Hs. unfold asked_node.
  destruct asked as [[[n r]|]|]; [exact (proj1 Hs)|apply empty_node_ok|destruct Hs].
Qed.

Definition outcome_of {A} (r : option (Outcome (Node * Result A Error))) : option (Result A Error) :=
  match r with Some (Done (_, r)) => Some r | _ => None end.


(** After an approval the new key has what it asked for, and the request cannot be
    decided again; a key that is no administrator decides nothing. *)
Lemma approval_runs :
  outcome_of ((step _ <- approve_bootstrap_request_with_key asked_sync "r1" (DatabaseKey_new admin_sk);
               step allowed <- can_access set_order map_order raw_cid one_root (public_key (Ed25519Private Byte.x21)) (Write 5);
               step again <- nm_try (reject_bootstrap_request_with_key asked_sync "r1" (DatabaseKey_new admin_sk));
               nm_ret (allowed, again)) asked_node)
  = Some (Ok (true, Err (ESync (InvalidRequestState "r1" "Pending"))))
  /\ outcome_of (approve_bootstrap_request_with_key asked_sync "r1" (DatabaseKey_new (Ed25519Private Byte.x21)) asked_node)
     = Some (Err (EAuth (KeyNotFound (PublicKey_to_string (public_key (Ed25519Private Byte.x21)))))).
Proof. split; vm_compute; reflexivity. Qed.
