(* ===== verification/SyncHandler.v ===== *)
(** * The server side of synchronisation (sync/handler.rs)

    What an instance does with a request of a peer: the handshake, a request for the
    entries of a tree, and entries that are sent to it.  Shown here: every request
    is answered and leaves the backend consistent, and the entries of a database
    that requires authentication leave it only for a key that signed this very
    request and that the database lets in. *)

From S2P Require Import Prelude.
From S2P Require Import Path.
From S2P Require Import Position.
From S2P Require Import Ids.
From S2P Require Import Doc.
From S2P Require Import DocPath.
From S2P Require Import Errors.
From S2P Require Import Crypto.
From S2P Require Import Permission.
From S2P Require Import AuthTypes.
From S2P Require Import AuthSettings.
From S2P Require Import Entry.
From S2P Require Import Backend.
From S2P Require Import Traversal.
From S2P Require Import CrdtCache.
From S2P Require Import BackendSteps.
From S2P Require Import Reachability.
From S2P Require Import Validation.
From S2P Require Import Verify.
From S2P Require Import InstanceOps.
From S2P Require Import WireCodec.
From S2P Require Import Transaction.
From S2P Require Import Stores.
From S2P Require Import StoreView.
From S2P Require Import Commit.
From S2P Require Import TxFrame.
From S2P Require Import CommitSpec.
From S2P Require Import Lifecycle.
From S2P Require Import Settings.
From S2P Require Import Table.
From S2P Require Import Node.
From S2P Require Import Peers.
From S2P Require Import Worklist.
From S2P Require Import Frontier.
From S2P Require Import StoreTips.
From S2P Require Import MergeBase.
From S2P Require Import StoreState.
From S2P Require Import SyncWalk.
From S2P Require Import SyncAuth.
From S2P Require Import UserSync.
From S2P Require Import Bootstrap.

Section handler.
Context `{IS : InstanceSpec} `{JS : !JsonSpec} `{LS : !LruSpec CacheKey (list Byte.byte)} `{PJ : PeerJson} `{UJ : UserJson}.
Context `{NE : !NodeEnv} `{RQ : !RowCodec BootstrapRequest}.
(** The instance's identity and key, and the sync database. *)
Context (instance_id : PublicKey) (device_key : PrivateKey) (sync_tree_id : ID).

(** ** Checks *)

(** [authenticate_request], at the next reading of the clock. *)
Definition authenticate (request : SyncTreeRequest) (spent : SpentNonces) : Nm (SpentNonces * Result PublicKey Error) :=
  step t <- tick;
  nm_ret (authenticate_request instance_id (clock_millis t None) spent request).

Definition check_if_database_has_auth (tree_id : ID) : Nm bool :=
  step database <- db_open tree_id;
  step auth_settings <- db_auth_settings set_order map_order raw_cid database;
  nm_ret (if Doc_is_empty (inner auth_settings) then false
          else match get_global_key auth_settings with
               | Ok global_key => negb (is_active global_key)
               | Err _ => true
               end).

Definition authorize_read (request : SyncTreeRequest) (spent : SpentNonces) : Nm (SpentNonces * Result unit Error) :=
  step has_auth <- nm_try (check_if_database_has_auth (sr_tree_id request));
  match has_auth with
  | Err e => nm_ret (spent, Err e)
  | Ok false => nm_ret (spent, Ok tt)
  | Ok true =>
      step (spent, key) <- authenticate request spent;
      match key with
      | Err e => nm_ret (spent, Err e)
      | Ok key =>
          step allowed <- nm_try (can_access set_order map_order raw_cid (sr_tree_id request) key Read);
          nm_ret (spent, match allowed with
                         | Ok true => Ok tt
                         | Ok false => Err (ESync SyncPermissionDenied)
                         | Err e => Err e
                         end)
      end
  end.

Definition get_sync_tree : Nm DbHandle := open_with_device_key device_key sync_tree_id.

Definition store_bootstrap_request (tree_id : ID) (requesting_key : PublicKey) (requesting_key_name : string)
    (requested_permission : Permission) (metadata : option Doc) : Nm string :=
  step sync_tree <- get_sync_tree;
  step now <- now_rfc3339;
  step t <- tick;
  update sync_tree (store_request set_order raw_cid read_strategy (db_root sync_tree) (fresh_uuid t)
    (mkBootstrapRequest tree_id requesting_key requesting_key_name requested_permission now RequestPending
       (mkAddress "unknown" "unknown") metadata)).

Definition get_key_highest_permission (tree_id : ID) (requesting_pubkey : PublicKey) : Nm (option Permission) :=
  step database <- db_open tree_id;
  step auth_settings <- db_auth_settings set_order map_order raw_cid database;
  nm_ret (snd <$> head (find_all_sigkeys_for_pubkey auth_settings requesting_pubkey)).

Definition prove_possession (request : SyncTreeRequest) (claimed_key : PublicKey) (spent : SpentNonces) :
    Nm (SpentNonces * Result unit Error) :=
  step (spent, proven) <- authenticate request spent;
  nm_ret (spent, let? proven := proven in
                 if decide (proven = claimed_key) then Ok tt
                 else auth_failed "request is signed by another key than the claimed one").

Definition prove_possession_if_required (request : SyncTreeRequest) (claimed_key : PublicKey) (auth_configured : bool)
    (spent : SpentNonces) : Nm (SpentNonces * Result unit Error) :=
  if negb auth_configured then nm_ret (spent, Ok tt) else prove_possession request claimed_key spent.

Definition check_proven_auth_permission (request : SyncTreeRequest) (requesting_pubkey : PublicKey)
    (requested_permission : Permission) (auth_configured : bool) (spent : SpentNonces) :
    Nm (SpentNonces * Result bool Error) :=
  step (spent, proven) <- prove_possession_if_required request requesting_pubkey auth_configured spent;
  match proven with
  | Err _ => nm_ret (spent, Ok false)
  | Ok _ =>
      step granted <- nm_try (can_access set_order map_order raw_cid (sr_tree_id request) requesting_pubkey requested_permission);
      nm_ret (spent, granted)
  end.

(** Any error counts as not enabled. *)
Definition is_database_sync_enabled (tree_id : ID) : Nm bool :=
  step r <- nm_try (step sync_database <- get_sync_tree;
                    view sync_database (get_combined_settings set_order raw_cid read_strategy (db_root sync_database) tree_id));
  nm_ret (match r with Ok (Some settings) => sync_enabled settings | _ => false end).

(** ** Peers *)

(** Add addresses, without failing on one. *)
Fixpoint try_add_addresses (root : ID) (now : string) (peer_pubkey : PublicKey) (addresses : list Address) : Tx unit :=
  match addresses with
  | [] => tx_ret tt
  | addr :: rest =>
      do _ <- tx_try (add_address set_order raw_cid read_strategy root now peer_pubkey addr);
      try_add_addresses root now peer_pubkey rest
  end.

Definition register_incoming_peer (peer_pubkey : PublicKey) (display_name : option string)
    (advertised_addresses : list Address) (remote_address : option Address) : Nm unit :=
  step sync_tree <- get_sync_tree;
  step now <- now_rfc3339;
  let root := db_root sync_tree in
  update sync_tree
    (do r <- tx_try (register_peer set_order raw_cid read_strategy root now peer_pubkey display_name);
     do _ <- match r with
             | Ok _ | Err (ESync (PeerAlreadyExists _)) => tx_ret tt
             | Err e => tx_fail e
             end;
     do _ <- try_add_addresses root now peer_pubkey advertised_addresses;
     try_add_addresses root now peer_pubkey (match remote_address with Some addr => [addr] | None => [] end)).

Definition track_tree_sync_relationship (tree_id : ID) (peer_pubkey : PublicKey) : Nm unit :=
  step sync_tree <- get_sync_tree;
  update sync_tree (add_tree_sync set_order raw_cid read_strategy (db_root sync_tree) peer_pubkey tree_id).

(** ** Handshake *)

Definition available_trees : Nm (list TreeInfo) :=
  nm_engine (fun inner => p ← get_available_trees inner; Some (p.1, Ok p.2)).

Definition handle_handshake (request : HandshakeRequest) (context : RequestContext) : Nm SyncResponse :=
  if negb (hr_protocol_version request =? PROTOCOL_VERSION) then nm_ret RespError
  else
    let our_key := public_key device_key in
    let challenge_response := create_challenge_response (hr_challenge request) device_key in
    step t <- tick;
    step trees <- available_trees;
    step _ <- nm_try (register_incoming_peer (hr_public_key request) (hr_display_name request)
                        (hr_listen_addresses request) (rc_remote_address context));
    nm_ret (RespHandshake (mkHandshakeResponse our_key our_key (Some "Eidetica Peer") PROTOCOL_VERSION
              challenge_response (fresh_challenge t) trees)).

(** ** Requests for a tree *)

(** The key approval of a bootstrap request: an answer, or whether a key is
    approved and what it is granted. *)
Definition approve_bootstrap (request : SyncTreeRequest) (auth_configured : bool) (spent : SpentNonces) :
    Nm (SpentNonces * (SyncResponse + bool * option Permission)) :=
  let tree_id := sr_tree_id request in
  match sr_requesting_key request, sr_requesting_key_name request, sr_requested_permission request with
  | Some key, Some key_name, Some permission =>
      step (spent, granted) <- check_proven_auth_permission request key permission auth_configured spent;
      match granted with
      | Ok true => nm_ret (spent, inr (true, Some permission))
      | Ok false =>
          step stored <- nm_try (store_bootstrap_request tree_id key key_name permission (sr_metadata request));
          nm_ret (spent, inl (match stored with Ok request_id => RespBootstrapPending request_id | Err _ => RespError end))
      | Err _ => nm_ret (spent, inl RespError)
      end
  | Some key, Some _, None =>
      step (spent, proven) <- prove_possession_if_required request key auth_configured spent;
      match proven with
      | Err _ => nm_ret (spent, inl RespError)
      | Ok _ =>
          step found <- nm_try (get_key_highest_permission tree_id key);
          nm_ret (spent, match found with Ok (Some permission) => inr (true, Some permission) | _ => inl RespError end)
      end
  | _, _, _ => nm_ret (spent, inr (false, None))
  end.

(** The entries of the tree, the root apart. *)
Definition bootstrap_entries (tree_id : ID) (key_approved : bool) (granted_permission : option Permission) : Nm SyncResponse :=
  step all_entries <- nm_try (nm_engine (fun inner => collect_all_entries_for_bootstrap inner tree_id));
  match all_entries with
  | Err _ => nm_ret RespError
  | Ok all_entries =>
      step root_entry <- nm_try (nm_read (fun inner => Some (storage_get inner tree_id)));
      nm_ret (match root_entry with
              | Err _ => RespError
              | Ok root_entry =>
                  RespBootstrap (mkBootstrapResponse tree_id root_entry
                    (filter (fun e => Entry_id e <> tree_id) all_entries) key_approved granted_permission)
              end)
  end.

Definition handle_bootstrap_request (request : SyncTreeRequest) (spent : SpentNonces) : Nm (SpentNonces * SyncResponse) :=
  let tree_id := sr_tree_id request in
  step enabled <- is_database_sync_enabled tree_id;
  if negb enabled then nm_ret (spent, RespError)
  else
    step root_entry <- nm_try (nm_read (fun inner => Some (storage_get inner tree_id)));
    match root_entry with
    | Err _ => nm_ret (spent, RespError)
    | Ok _ =>
        step has_auth <- nm_try (check_if_database_has_auth tree_id);
        match has_auth with
        | Err _ => nm_ret (spent, RespError)
        | Ok auth_configured =>
            if auth_configured && negb (is_some (sr_requesting_key request)) then nm_ret (spent, RespError)
            else
              step (spent, approval) <- approve_bootstrap request auth_configured spent;
              match approval with
              | inl response => nm_ret (spent, response)
              | inr (key_approved, granted_permission) =>
                  if auth_configured && negb key_approved then nm_ret (spent, RespError)
                  else
                    step response <- bootstrap_entries tree_id key_approved granted_permission;
                    nm_ret (spent, response)
              end
        end
    end.

(** The missing entries of a peer with the given tips. *)
Definition incremental_entries (tree_id : ID) (peer_tips : list ID) : Nm SyncResponse :=
  step snap <- nm_engine (fun inner => let p := mem_snapshot inner tree_id in Some (p.1, Ok p.2));
  let our_tips := tips snap in
  step missing <- nm_try (nm_read (fun inner => find_missing_entries_for_peer map_order inner our_tips peer_tips));
  nm_ret (match missing with
          | Ok missing_entries => RespIncremental (mkIncrementalResponse tree_id our_tips missing_entries)
          | Err _ => RespError
          end).

Definition handle_incremental_sync (request : SyncTreeRequest) (spent : SpentNonces) : Nm (SpentNonces * SyncResponse) :=
  let tree_id := sr_tree_id request in
  step enabled <- is_database_sync_enabled tree_id;
  if negb enabled then nm_ret (spent, RespError)
  else
    step (spent, allowed) <- authorize_read request spent;
    match allowed with
    | Err _ => nm_ret (spent, RespError)
    | Ok _ =>
        step response <- incremental_entries tree_id (tips (sr_our_tips request));
        nm_ret (spent, response)
    end.

Definition handle_sync_tree (request : SyncTreeRequest) (context : RequestContext) (spent : SpentNonces) :
    Nm (SpentNonces * SyncResponse) :=
  step _ <- match rc_peer_pubkey context with
            | Some peer_pubkey =>
                step r <- nm_try (track_tree_sync_relationship (sr_tree_id request) peer_pubkey);
                nm_ret tt
            | None => nm_ret tt
            end;
  if is_nil (tips (sr_our_tips request)) then handle_bootstrap_request request spent
  else handle_incremental_sync request spent.

(** ** Entries that are sent *)

(** [by_tree.entry(tree_id).or_default().push(entry)] on the ordered map. *)
Fixpoint push_by_tree (by_tree : list (ID * list Entry)) (tree_id : ID) (entry : Entry) : list (ID * list Entry) :=
  match by_tree with
  | [] => [(tree_id, [entry])]
  | (k, es) :: rest =>
      match ID_cmp tree_id k with
      | Eq => (k, es ++ [entry]) :: rest
      | Lt => (tree_id, [entry]) :: by_tree
      | Gt => (k, es) :: push_by_tree rest tree_id entry
      end
  end.

Definition declared_tree (entry : Entry) : ID :=
  match tn_root (e_tree entry) with Some root => root | None => Entry_id entry end.

Definition group_by_tree (es : list Entry) : list (ID * list Entry) :=
  foldl (fun by_tree entry => push_by_tree by_tree (declared_tree entry) entry) [] es.

(** A batch that fails is only logged. *)
Fixpoint store_groups (groups : list (ID * list Entry)) (stored_count : nat) : Nm nat :=
  match groups with
  | [] => nm_ret stored_count
  | (tree_id, tree_entries) :: rest =>
      step r <- nm_try (nm_instance (fun inst => put_remote_entries map_order inst tree_id tree_entries));
      store_groups rest (match r with Ok n => stored_count + n | Err _ => stored_count end)%nat
  end.

Definition handle_send_entries (es : list Entry) : Nm SyncResponse :=
  step stored_count <- store_groups (group_by_tree es) 0;
  nm_ret (if decide (length es <= 1)%nat then RespAck else RespCount stored_count).

Definition handle_request (request : SyncRequest) (context : RequestContext) (spent : SpentNonces) :
    Nm (SpentNonces * SyncResponse) :=
  match request with
  | ReqHandshake handshake_req =>
      step response <- handle_handshake handshake_req context;
      nm_ret (spent, response)
  | ReqSyncTree sync_req => handle_sync_tree sync_req context spent
  | ReqSendEntries es =>
      step response <- handle_send_entries es;
      nm_ret (spent, response)
  end.
End handler.

(** ** Storing a batch *)

Section batch.
Context `{IS : InstanceSpec} `{JS : !JsonSpec}.
Context (map_iter : forall A : Type, gmap ID A -> list (ID * A)).
Context (Hmap : forall A (m : gmap ID A), map_iter A m ≡ₚ map_to_list m).

(** What a batch adds: the valid entries that are not stored, under their IDs. *)
Definition batch_adds (old new : gmap ID Entry) (es : list Entry) : Prop :=
  old ⊆ new
  /\ (forall e, e ∈ es -> Entry_validate e = Ok tt -> is_Some (new !! Entry_id e))
  /\ forall id e, new !! id = Some e -> old !! id = Some e \/ (e ∈ es /\ Entry_validate e = Ok tt /\ id = Entry_id e).

Lemma store_batch_adds es : forall inner n, mem_inv inner ->
  mem_inv (store_batch inner es n).1 /\ batch_adds (entries inner) (entries (store_batch inner es n).1) es.
Proof.
  induction es as [|e es IH]; intros inner n Hm; simpl.
  { split; [done|]. split; [done|]. split; [by intros e ?%elem_of_nil|auto]. }
  unfold mem_put at 1 2. destruct (Entry_validate e) as [[]|err] eqn:Ev; simpl.
  - assert (mem_inv (storage_put inner e)) as Hm' by (eapply mem_put_inv; [exact Hm|unfold mem_put; by rewrite Ev]).
    destruct (IH (storage_put inner e) (S n) Hm') as (Hi & Hsub & Hin & Hfrom). split; [done|].
    assert (entries inner ⊆ entries (storage_put inner e)) as Hput.
    { rewrite storage_put_entries. case_decide as Hd; [done|]. apply insert_subseteq.
      destruct (entries inner !! Entry_id e); [by destruct Hd|done]. }
    assert (is_Some (entries (storage_put inner e) !! Entry_id e)) as Hstored.
    { rewrite storage_put_entries. case_decide as Hd; [done|]. by rewrite lookup_insert_eq. }
    split; [by etrans|]. split.
    + intros e' [->|He']%elem_of_cons Hv; [|by apply Hin]. destruct Hstored as [x Hx].
      exists x. by eapply lookup_weaken.
    + intros id e' Hid. destruct (Hfrom id e' Hid) as [Hold|(? & ? & ?)]; [|right; split; [by right|done]].
      rewrite storage_put_entries in Hold. case_decide; [by left|].
      apply lookup_insert_Some in Hold as [[<- <-]|[_ ?]]; [|by left]. right. split; [by left|done].
  - destruct (IH inner n Hm) as (Hi & Hsub & Hin & Hfrom). split; [done|]. split; [done|]. split.
    + intros e' [->|He']%elem_of_cons Hv; [congruence|by apply Hin].
    + intros id e' Hid. destruct (Hfrom id e' Hid) as [?|(? & ? & ?)]; [by left|]. right. split; [by right|done].
Qed.

(** Entries from a peer: stored as a batch, whatever their verification says. *)
Lemma put_remote_adds inst tree es :
  mem_inv (engine inst) ->
  exists inst' ds r, put_remote_entries map_iter inst tree es = Some (Done (inst', ds, r))
    /\ mem_inv (engine inst') /\ batch_adds (entries (engine inst)) (entries (engine inst')) es.
Proof.
  intros Hm. unfold put_remote_entries. destruct (store_batch_adds es (engine inst) 0 Hm) as [Hi Hb].
  destruct (is_nil es) eqn:En.
  { destruct es; [|done]. eexists _, _, _. split; [done|]. split; [done|]. exact Hb. }
  destruct (store_batch (engine inst) es 0) as [inner n]. cbn [fst] in Hi, Hb.
  case_decide; [by eexists _, _, _|]. destruct (open_database inner tree) as [root|]; [|by eexists _, _, _].
  destruct (verify_and_fire_keeps map_iter Hmap (with_engine inst inner) root Hi) as (inst' & ds & r & -> & [Hi' He _ _]).
  cbn [mbind option_bind outcome_bind]. eexists _, _, _. split; [done|]. cbn [fst]. split; [by apply Hi'|]. by rewrite He.
Qed.
End batch.

(** ** The walks keep the backend *)

Section walks_keep.
Context `{IS : InstanceSpec}.

Lemma count_keeps inner tree :
  mem_inv inner ->
  exists inner' k, count_tree_entries inner tree = Some (inner', Ok k) /\ mem_inv inner' /\ entries inner' = entries inner.
Proof.
  intros Hm. destruct (traversal_snapshot_inv inner tree Hm) as (Hi & He & _).
  change (traversal_snapshot inner tree).1 with (mem_snapshot inner tree).1 in Hi, He.
  unfold count_tree_entries. destruct (mem_snapshot inner tree) as [inner' snap]. cbn [fst] in Hi, He.
  destruct (skipping_fuel inner' (count_visit inner' tree) [tree] (tips snap) [] (next_count inner' tree)) as [r Hr].
  rewrite Hr. cbn [mbind option_bind]. destruct r as [[seen acc]|e]; [by eexists _, _|].
  apply worklist_err in Hr as (x & _ & _ & Hx). unfold count_visit in Hx. case_decide; [done|]. by destruct (storage_get _ _).
Qed.

Lemma infos_keep roots : forall inner, mem_inv inner ->
  exists inner' l, tree_infos inner roots = Some (inner', l) /\ mem_inv inner' /\ entries inner' = entries inner
    /\ ti_tree_id <$> l = roots.
Proof.
  induction roots as [|root roots IH]; intros inner Hm; simpl; [by eexists _, _|].
  destruct (count_keeps inner root Hm) as (inner1 & k & -> & Hm1 & He1). cbn [mbind option_bind fst snd].
  destruct (IH inner1 Hm1) as (inner2 & l & -> & Hm2 & He2 & Hl). cbn [mbind option_bind fst snd].
  eexists _, _. split; [done|]. split; [done|]. split; [congruence|]. rewrite fmap_cons. cbn. by rewrite Hl.
Qed.

(** An entry of the tree, or an ancestor of one. *)
Definition within (es : gmap ID Entry) (tree id : ID) : Prop :=
  exists q t, es !! q = Some t /\ in_tree t tree = true /\ rtc (parent_edge es) q id.

Lemma snapshot_in_tree inner tree q : mem_inv inner -> proper_tree (entries inner) tree ->
  q ∈ tips (mem_snapshot inner tree).2 -> exists t, entries inner !! q = Some t /\ in_tree t tree = true.
Proof.
  intros Hm Hp. destruct (traversal_snapshot_inv inner tree Hm) as (_ & _ & Ht). unfold mem_snapshot. cbn [snd].
  rewrite elem_of_Snapshot_new, elem_of_elements, (Ht Hp). by intros [? _].
Qed.

Lemma reached_within es B ids tree x :
  (forall q, q ∈ ids -> exists t, es !! q = Some t /\ in_tree t tree = true) -> reached_outside es B ids x -> within es tree x.
Proof.
  intros Hids (_ & q & Hq & Hr). destruct (Hids q Hq) as (t & ? & ?). exists q, t. split; [done|]. split; [done|].
  eapply rtc_subrel; [|exact Hr]. by intros y z [_ ?].
Qed.

Lemma bootstrap_keeps inner tree :
  mem_inv inner ->
  exists inner' l, collect_all_entries_for_bootstrap inner tree = Some (inner', Ok l)
    /\ mem_inv inner' /\ entries inner' = entries inner
    /\ forall e, e ∈ l -> entries inner !! Entry_id e = Some e
         /\ (proper_tree (entries inner) tree -> within (entries inner) tree (Entry_id e)).
Proof.
  intros Hm. pose proof (snapshot_in_tree inner tree) as Hin. destruct (traversal_snapshot_inv inner tree Hm) as (Hi & He & _).
  change (traversal_snapshot inner tree).1 with (mem_snapshot inner tree).1 in Hi, He.
  unfold collect_all_entries_for_bootstrap. destruct (mem_snapshot inner tree) as [inner' snap]. cbn [fst snd] in Hi, He, Hin.
  destruct (tree_walk_spec inner' [] (tips snap)) as (seen & l & -> & _ & Hl); [apply Hi|]. cbn [mbind option_bind].
  eexists _, _. split; [done|]. split; [done|]. split; [done|]. intros e. cbn [snd]. rewrite elem_of_reverse, Hl.
  intros (id & Hid & Hr). rewrite <- He, (mi_ids _ Hi id e Hid). split; [done|]. rewrite He in *. intros Hp.
  eapply reached_within; [|exact Hr]. intros q. by apply Hin.
Qed.
End walks_keep.

(** ** Every request is answered *)

Section answered.
Context `{IS : InstanceSpec} `{JS : !JsonSpec} `{LS : !LruSpec CacheKey (list Byte.byte)} `{PJ : PeerJson} `{UJ : UserJson}.
Context `{NE : !NodeEnv} `{RQ : !RowCodec BootstrapRequest}.
Context (instance_id : PublicKey) (device_key : PrivateKey) (sync_tree_id : ID).

Lemma safe_auth_settings db : safe (db_auth_settings set_order map_order raw_cid db).
Proof. apply nsafe_auth_settings; [apply set_order_ok|apply map_order_ok]. Qed.

Lemma safe_can_access tree key p : safe (can_access set_order map_order raw_cid tree key p).
Proof. apply nsafe_can_access; [apply set_order_ok|apply map_order_ok]. Qed.

Lemma safe_open id : safe (db_open id).
Proof. eapply safe_of, nsafe_open. Qed.

Lemma safe_get_sync_tree : safe (get_sync_tree device_key sync_tree_id).
Proof. apply safe_open_device. Qed.

Lemma safe_storage_get id : safe (nm_read (fun inner => Some (storage_get inner id))).
Proof. apply nsafe_read. by eexists. Qed.

Lemma safe_authenticate request spent : safe (authenticate instance_id request spent).
Proof. unfold authenticate. safely. Qed.
Hint Resolve safe_auth_settings safe_can_access safe_open safe_get_sync_tree safe_storage_get safe_authenticate : safe.

Lemma safe_has_auth tree : safe (check_if_database_has_auth tree).
Proof. unfold check_if_database_has_auth. safely. Qed.
Hint Resolve safe_has_auth : safe.

Lemma safe_authorize request spent : safe (authorize_read instance_id request spent).
Proof. unfold authorize_read. safely. Qed.

Lemma safe_store_request tree key name p m : safe (store_bootstrap_request device_key sync_tree_id tree key name p m).
Proof. unfold store_bootstrap_request. safely; apply safe_update; eauto with staging. Qed.

Lemma safe_highest tree key : safe (get_key_highest_permission tree key).
Proof. unfold get_key_highest_permission. safely. Qed.

Lemma safe_prove request key b spent : safe (prove_possession_if_required instance_id request key b spent).
Proof. unfold prove_possession_if_required, prove_possession. safely. Qed.
Hint Resolve safe_authorize safe_store_request safe_highest safe_prove : safe.

Lemma safe_check_proven request key p b spent : safe (check_proven_auth_permission instance_id request key p b spent).
Proof. unfold check_proven_auth_permission. safely. Qed.

Lemma safe_sync_enabled tree : safe (is_database_sync_enabled device_key sync_tree_id tree).
Proof. unfold is_database_sync_enabled. safely; apply safe_view; eauto with staging. Qed.

Lemma staging_try_addresses root now key l : staging (try_add_addresses root now key l).
Proof. induction l; simpl; stages; eauto with staging. Qed.
Hint Resolve staging_try_addresses : staging.

Lemma safe_register_incoming key name l o : safe (register_incoming_peer device_key sync_tree_id key name l o).
Proof. unfold register_incoming_peer. safely; apply safe_update; stages; eauto with staging. Qed.

Lemma safe_track tree key : safe (track_tree_sync_relationship device_key sync_tree_id tree key).
Proof. unfold track_tree_sync_relationship. safely; apply safe_update; eauto with staging. Qed.
Hint Resolve safe_check_proven safe_sync_enabled safe_register_incoming safe_track : safe.

Lemma safe_available_trees : safe available_trees.
Proof.
  apply nsafe_engine. intros inner Hm. destruct (infos_keep (all_roots inner) inner Hm) as (inner' & l & E & Hi & He & _).
  unfold get_available_trees. rewrite E. by eexists _, _.
Qed.

Lemma safe_collect tree : safe (nm_engine (fun inner => collect_all_entries_for_bootstrap inner tree)).
Proof.
  apply nsafe_engine. intros inner Hm. destruct (bootstrap_keeps inner tree Hm) as (inner' & l & E & Hi & He & _).
  by eexists _, _.
Qed.

Lemma safe_find_missing ours theirs : safe (nm_read (fun inner => find_missing_entries_for_peer map_order inner ours theirs)).
Proof.
  apply nsafe_read. intros inner _. unfold find_missing_entries_for_peer. destruct (is_nil _); [by eexists|].
  destruct (send_walk inner map_order (filter (fun t => t ∉ theirs) ours) theirs map_order_ok) as (r & -> & _). by eexists.
Qed.

Lemma safe_put_remote tree es : safe (nm_instance (fun inst => put_remote_entries map_order inst tree es)).
Proof.
  apply nsafe_instance. intros inst Hm.
  destruct (put_remote_adds map_order map_order_ok inst tree es Hm) as (inst' & ds & r & E & Hi & Hsub & _). eauto 8.
Qed.
Hint Resolve safe_available_trees safe_collect safe_find_missing safe_put_remote : safe.

Lemma safe_store_groups groups : forall k, safe (store_groups groups k).
Proof. induction groups as [|[t l] groups IH]; intros k; simpl; safely. Qed.

Lemma safe_bootstrap_entries tree b o : safe (bootstrap_entries tree b o).
Proof. unfold bootstrap_entries. safely. Qed.

Lemma safe_incremental_entries tree l : safe (incremental_entries tree l).
Proof. unfold incremental_entries. safely. Qed.

Lemma safe_approve_bootstrap request b spent : safe (approve_bootstrap instance_id device_key sync_tree_id request b spent).
Proof. unfold approve_bootstrap. safely. Qed.

Lemma safe_handle_handshake request context : safe (handle_handshake device_key sync_tree_id request context).
Proof. unfold handle_handshake. safely. Qed.
Hint Resolve safe_store_groups safe_bootstrap_entries safe_incremental_entries safe_approve_bootstrap safe_handle_handshake : safe.

Lemma safe_handle_sync_tree request context spent :
  safe (handle_sync_tree instance_id device_key sync_tree_id request context spent).
Proof. unfold handle_sync_tree, handle_bootstrap_request, handle_incremental_sync. safely. Qed.
Hint Resolve safe_handle_sync_tree : safe.

(** Every request is answered. *)
Lemma safe_handle_request request context spent :
  safe (handle_request instance_id device_key sync_tree_id request context spent).
Proof. unfold handle_request, handle_send_entries. safely. Qed.
End answered.

(** ** The handshake *)

Section handshake.
Context `{IS : InstanceSpec} `{JS : !JsonSpec} `{LS : !LruSpec CacheKey (list Byte.byte)} `{PJ : PeerJson} `{UJ : UserJson}.
Context `{NE : !NodeEnv}.
Context (device_key : PrivateKey) (sync_tree_id : ID).

(** A handshake tells any peer of every root that is stored: databases whose sync is
    not enabled, the sync database and the databases of the users included.  No
    signature is checked, whereas a request for such a tree is answered as if
    it did not exist. *)
Lemma handshake_lists_every_root request context n n' h :
  node_ok n -> handle_handshake device_key sync_tree_id request context n = Some (Done (n', Ok (RespHandshake h))) ->
  ti_tree_id <$> hs_available_trees h = all_roots (node_engine n).
Proof.
  intros [Hm Hc] H. unfold handle_handshake in H. destruct (negb _); [done|]. cbn zeta in H.
  apply nm_bind_ok in H as (n1 & t & E & H). injection E as <- <-.
  apply nm_bind_ok in H as (n2 & trees & E & H).
  apply nm_bind_ok in H as (n3 & r & _ & H). injection H as _ <-. cbn [hs_available_trees].
  unfold available_trees, nm_engine, get_available_trees in E.
  destruct (infos_keep (all_roots (node_engine n)) (node_engine n) Hm) as (inner' & l & El & _ & _ & Hl).
  unfold node_engine in E, El. cbn [n_inst] in E. rewrite El in E. by injection E as <- <-.
Qed.
End handshake.

(** ** Who is answered with entries *)

Create HintDb reads.

(** Follow the code of an operation that only reads. *)
Ltac reads_step :=
  first
    [ solve [eauto with reads]
    | progress cbn zeta
    | match goal with
      | |- reads (nm_bind _ _) => apply reads_bind; [|intros ?]
      | |- reads (nm_try _) => apply reads_try
      | |- reads (match ?x with _ => _ end) => destruct x
      end ].
Ltac only_reads := repeat reads_step.

Section authorized.
Context `{IS : InstanceSpec} `{JS : !JsonSpec} `{LS : !LruSpec CacheKey (list Byte.byte)} `{PJ : PeerJson} `{UJ : UserJson}.
Context `{NE : !NodeEnv} `{RQ : !RowCodec BootstrapRequest}.
Context (instance_id : PublicKey) (device_key : PrivateKey) (sync_tree_id : ID).

Lemma reads_bind_ok {A B} (m : Nm A) (k : A -> Nm B) n n' b :
  reads m -> node_ok n -> nm_bind m k n = Some (Done (n', Ok b)) ->
  exists n1 a, m n = Some (Done (n1, Ok a)) /\ node_ok n1 /\ entries (node_engine n1) = entries (node_engine n)
    /\ k a n1 = Some (Done (n', Ok b)).
Proof. intros Hm Hn (n1 & a & E & H)%nm_bind_ok. destruct (Hm _ _ _ Hn E). eauto 8. Qed.

Lemma reads_tick : reads tick.
Proof. intros n n' r [Hm Hc] [= <- <-]. split; [by split|done]. Qed.

Lemma reads_settings db : reads (db_auth_settings set_order map_order raw_cid db).
Proof. apply reads_auth_settings; [apply set_order_ok|apply map_order_ok]. Qed.

Lemma reads_access tree key p : reads (can_access set_order map_order raw_cid tree key p).
Proof. apply reads_can_access; [apply set_order_ok|apply map_order_ok]. Qed.

Lemma reads_collect tree : reads (nm_engine (fun inner => collect_all_entries_for_bootstrap inner tree)).
Proof.
  intros n n' r [Hm Hc]. unfold nm_engine. destruct (bootstrap_keeps (node_engine n) tree Hm) as (inner' & l & -> & Hi & He & _).
  intros [= <- <-]. split; [by split|done].
Qed.

Hint Resolve reads_try reads_ret reads_lift reads_read reads_open reads_snapshot reads_tick reads_settings reads_access reads_collect : reads.

Lemma reads_authenticate request spent : reads (authenticate instance_id request spent).
Proof. unfold authenticate. only_reads. Qed.

Lemma reads_has_auth tree : reads (check_if_database_has_auth tree).
Proof. unfold check_if_database_has_auth. only_reads. Qed.

Lemma reads_highest tree key : reads (get_key_highest_permission tree key).
Proof. unfold get_key_highest_permission. only_reads. Qed.

Lemma reads_sync_enabled tree : reads (is_database_sync_enabled device_key sync_tree_id tree).
Proof.
  unfold is_database_sync_enabled, get_sync_tree, open_with_device_key. only_reads.
  apply reads_view; [apply map_order_ok|]. apply calm_staging. eauto with staging.
Qed.
Hint Resolve reads_authenticate reads_has_auth reads_highest reads_sync_enabled : reads.

Lemma reads_prove request key b spent : reads (prove_possession_if_required instance_id request key b spent).
Proof. unfold prove_possession_if_required, prove_possession. only_reads. Qed.
Hint Resolve reads_prove : reads.

Lemma reads_check_proven request key p b spent : reads (check_proven_auth_permission instance_id request key p b spent).
Proof. unfold check_proven_auth_permission. only_reads. Qed.

Lemma reads_authorize request spent : reads (authorize_read instance_id request spent).
Proof. unfold authorize_read. only_reads. Qed.
Hint Resolve reads_check_proven reads_authorize : reads.

Lemma reads_bootstrap_entries tree b o : reads (bootstrap_entries tree b o).
Proof. unfold bootstrap_entries. only_reads. Qed.

Lemma reads_incremental_entries tree l : reads (incremental_entries tree l).
Proof. unfold incremental_entries. only_reads. Qed.

(** The entries of an answer, and whether it is one that has entries. *)
Definition disclosed (r : SyncResponse) : list Entry :=
  match r with
  | RespBootstrap b => br_root_entry b :: br_all_entries b
  | RespIncremental i => ir_missing_entries i
  | _ => []
  end.
Definition discloses (r : SyncResponse) : Prop :=
  match r with RespBootstrap _ | RespIncremental _ => True | _ => False end.

(** The entry is stored, under its ID, and it is one of the tree or an ancestor of
    one, if the tree is not named by an entry that lies within another. *)
Definition stored_within (es : gmap ID Entry) (tree : ID) (e : Entry) : Prop :=
  es !! Entry_id e = Some e /\ (proper_tree es tree -> within es tree (Entry_id e)).

(** The permission a request needs: what a bootstrap asks for, if it says so, and
    to read otherwise. *)
Definition needed (request : SyncTreeRequest) : option Permission :=
  if is_nil (tips (sr_our_tips request)) then sr_requested_permission request else Some Read.

(** The settings ask nothing of who reads: there are none, or their entry for
    everyone is active. *)
Definition open_access (auth : AuthSettings) : Prop :=
  Doc_is_empty (inner auth) = true \/ exists key, get_global_key auth = Ok key /\ key_status key = Active.

(** The settings of a database over the stored entries [es]. *)
Definition auth_over (es : gmap ID Entry) (tree : ID) (auth : AuthSettings) : Prop :=
  exists n n', node_ok n /\ entries (node_engine n) = es
    /\ db_auth_settings set_order map_order raw_cid (mkDbHandle tree None false) n = Some (Done (n', Ok auth)).

(** Why a request is answered: the settings of the database are open, or the
    request carries the signature of a key and they grant this key what is
    needed. *)
Inductive let_in (es : gmap ID Entry) (request : SyncTreeRequest) (spent : SpentNonces) : Prop :=
| let_in_anyone auth :
    auth_over es (sr_tree_id request) auth -> open_access auth -> let_in es request spent
| let_in_proven t spent' key auth k p :
    authenticate_request instance_id (clock_millis t None) spent request = (spent', Ok key) ->
    auth_over es (sr_tree_id request) auth ->
    granted es auth key k p ->
    (forall q, needed request = Some q -> Permission_leb q p = true) ->
    let_in es request spent.

Lemma open_tree id n n' db : db_open id n = Some (Done (n', Ok db)) -> n' = n /\ db = mkDbHandle id None false.
Proof.
  unfold db_open. intros (n1 & r & E & H)%nm_bind_ok. unfold nm_read, open_database in E.
  injection H as <- <-. destruct (storage_get _ _); [|done]. by injection E as -> <-.
Qed.

Lemma no_auth_inv tree n n' : node_ok n -> check_if_database_has_auth tree n = Some (Done (n', Ok false)) ->
  exists auth, auth_over (entries (node_engine n)) tree auth /\ open_access auth.
Proof.
  intros Hn (n1 & db & E & H)%nm_bind_ok. apply open_tree in E as [-> ->].
  apply nm_bind_ok in H as (n2 & auth & E & H). injection H as _ H. exists auth. split; [by exists n, n2|].
  unfold open_access. destruct (Doc_is_empty _); [by left|]. right. destruct (get_global_key auth) as [key|]; [|done].
  exists key. split; [done|]. unfold is_active in H. by destruct (key_status key).
Qed.

Lemma authenticate_inv request spent n n' spent' key :
  authenticate instance_id request spent n = Some (Done (n', Ok (spent', key))) ->
  exists t, authenticate_request instance_id (clock_millis t None) spent request = (spent', key).
Proof.
  unfold authenticate. intros (n1 & t & _ & H)%nm_bind_ok. injection H as _ H. by eexists.
Qed.

Lemma proven_access request spent n n' spent' t key q :
  node_ok n -> authenticate_request instance_id (clock_millis t None) spent request = (spent', Ok key) ->
  can_access set_order map_order raw_cid (sr_tree_id request) key q n = Some (Done (n', Ok true)) ->
  needed request = Some q -> let_in (entries (node_engine n)) request spent.
Proof.
  intros Hn Hauth Hc Hq. destruct (can_access_ok _ _ _ set_order_ok map_order_ok _ _ _ _ _ _ Hn Hc) as (n1 & auth & Ha & Hg & _).
  destruct (Hg eq_refl) as (k & p & Hgr & Hp). eapply let_in_proven; [done|by exists n, n1|done|]. congruence.
Qed.

Lemma authorize_read_inv request spent n n' spent' :
  node_ok n -> is_nil (tips (sr_our_tips request)) = false ->
  authorize_read instance_id request spent n = Some (Done (n', Ok (spent', Ok tt))) ->
  let_in (entries (node_engine n)) request spent.
Proof.
  intros Hn Hinc H. apply reads_bind_ok in H as (n1 & has & E & Hn1 & He1 & H); [|only_reads|done]. apply nm_try_ok in E.
  destruct has as [[]|e]; [| |by injection H].
  - apply reads_bind_ok in H as (n2 & [sp key] & E2 & Hn2 & He2 & H); [|only_reads|done].
    apply authenticate_inv in E2 as [now Hauth]. destruct key as [key|e]; [|by injection H].
    apply nm_bind_ok in H as (n3 & allowed & E3 & H). apply nm_try_ok in E3.
    destruct allowed as [[]|]; [|by injection H..]. rewrite <- He1, <- He2.
    eapply proven_access; [done|exact Hauth|exact E3|]. unfold needed. by rewrite Hinc.
  - apply no_auth_inv in E as (auth & ? & ?); [|done]. by eapply let_in_anyone.
Qed.

(** A proof of possession is one of the very request. *)
Lemma prove_inv request key spent n n' spent' :
  prove_possession instance_id request key spent n = Some (Done (n', Ok (spent', Ok tt))) ->
  exists t, authenticate_request instance_id (clock_millis t None) spent request = (spent', Ok key).
Proof.
  intros (n1 & [sp proven] & E & H)%nm_bind_ok. apply authenticate_inv in E as [now Hauth]. exists now.
  destruct proven as [proven|e]; [|by injection H]. cbn [result_bind] in H.
  case_decide; [|by injection H]. injection H as _ ->. by subst proven.
Qed.

Lemma highest_inv request key spent t spent' n n' p :
  node_ok n -> authenticate_request instance_id (clock_millis t None) spent request = (spent', Ok key) -> needed request = None ->
  get_key_highest_permission (sr_tree_id request) key n = Some (Done (n', Ok (Some p))) ->
  let_in (entries (node_engine n)) request spent.
Proof.
  intros Hn Hauth Hneed (n1 & db & E & H)%nm_bind_ok. apply open_tree in E as [-> ->].
  apply nm_bind_ok in H as (n2 & auth & E2 & H). injection H as _ H.
  destruct (find_all_sigkeys_for_pubkey auth key) as [|[k q] l] eqn:El; [done|]. injection H as ->.
  eapply (let_in_proven _ _ _ t spent' key auth k p); [done|by exists n, n2| |congruence].
  left. apply own_method_iff. rewrite El. apply elem_of_cons. by left.
Qed.

Lemma check_proven_inv request key q spent n n' spent' :
  node_ok n -> needed request = Some q ->
  check_proven_auth_permission instance_id request key q true spent n = Some (Done (n', Ok (spent', Ok true))) ->
  let_in (entries (node_engine n)) request spent.
Proof.
  intros Hn Hneed H. apply reads_bind_ok in H as (n1 & [sp proven] & E & Hn1 & He1 & H); [|only_reads|done].
  destruct proven as [[]|e]; [|by injection H]. apply prove_inv in E as [now Hauth].
  apply nm_bind_ok in H as (n2 & g & E2 & H). apply nm_try_ok in E2. injection H as _ _ ->. rewrite <- He1.
  by eapply proven_access.
Qed.

(** What an approval leaves: nothing is stored, and an approved key is proven. *)
Lemma approve_inv request b spent n n' spent' approved o :
  node_ok n -> is_nil (tips (sr_our_tips request)) = true ->
  approve_bootstrap instance_id device_key sync_tree_id request b spent n = Some (Done (n', Ok (spent', inr (approved, o)))) ->
  node_ok n' /\ entries (node_engine n') = entries (node_engine n)
  /\ (b = true -> approved = true -> let_in (entries (node_engine n)) request spent).
Proof.
  intros Hn Hboot H. unfold approve_bootstrap in H. cbn zeta in H.
  assert (needed request = sr_requested_permission request) as Hneed by (unfold needed; by rewrite Hboot).
  destruct (sr_requesting_key request) as [key|]; [|by injection H as <- _ <- _].
  destruct (sr_requesting_key_name request) as [name|]; [|by injection H as <- _ <- _].
  destruct (sr_requested_permission request) as [q|];
    (apply reads_bind_ok in H as (n1 & [sp proven] & E & Hn1 & He1 & H); [|only_reads|done]).
  - destruct proven as [[]|e]; [| |by injection H].
    + injection H as <- _ <- _. split; [done|]. split; [done|]. intros -> _. by eapply check_proven_inv.
    + apply nm_bind_ok in H as (n2 & r & _ & H). by injection H.
  - destruct proven as [[]|e]; [|by injection H].
    apply reads_bind_ok in H as (n2 & found & E2 & Hn2 & He2 & H); [|only_reads|done].
    apply nm_try_ok in E2. destruct found as [[p|]|]; [|by injection H..]. injection H as <- _ <- _.
    split; [done|]. split; [congruence|]. intros -> _. apply prove_inv in E as [now Hauth]. rewrite <- He1.
    by eapply highest_inv.
Qed.

Lemma bootstrap_entries_inv tree b o n n' resp :
  node_ok n -> bootstrap_entries tree b o n = Some (Done (n', Ok resp)) ->
  entries (node_engine n') = entries (node_engine n)
  /\ forall e, e ∈ disclosed resp -> stored_within (entries (node_engine n)) tree e.
Proof.
  intros [Hm Hc] H. split; [by apply (reads_bootstrap_entries tree b o n n' (Ok resp))|].
  apply nm_bind_ok in H as (n1 & r & E & H). apply nm_try_ok in E. unfold nm_engine in E.
  destruct (bootstrap_keeps (node_engine n) tree Hm) as (inner' & l & El & Hi & He & Hl).
  rewrite El in E. injection E as <- <-.
  apply nm_bind_ok in H as (n2 & r & E & H). apply nm_try_ok in E. injection E as <- <-. injection H as _ <-.
  unfold storage_get. cbn [node_engine n_inst engine with_engine with_node_mem mem_inner fst].
  destruct (entries inner' !! tree) as [root|] eqn:Er; [|by intros e ?%elem_of_nil].
  intros e [->|[_ He']%list_elem_of_filter]%elem_of_cons; [|by apply Hl].
  cbn [br_root_entry]. unfold stored_within. rewrite <- He, (mi_ids _ Hi tree root Er). split; [done|]. intros _.
  exists tree, root. split; [done|]. split; [|done]. apply in_tree_cases. right. apply (mi_ids _ Hi tree root Er).
Qed.

Lemma incremental_entries_inv tree l n n' resp :
  node_ok n -> incremental_entries tree l n = Some (Done (n', Ok resp)) ->
  entries (node_engine n') = entries (node_engine n)
  /\ forall e, e ∈ disclosed resp -> stored_within (entries (node_engine n)) tree e.
Proof.
  intros Hn H. split; [by apply (reads_incremental_entries tree l n n' (Ok resp))|].
  pose proof (snapshot_in_tree (node_engine n) tree) as Ht. destruct Hn as [Hm0 Hc0].
  apply reads_bind_ok in H as (n1 & snap & Es & [Hm Hc] & He1 & H); [|only_reads|by split].
  unfold nm_engine in Es. injection Es as _ <-. rewrite <- He1 in *.
  apply nm_bind_ok in H as (n2 & r & E & H). apply nm_try_ok in E. injection H as _ <-. unfold nm_read in E.
  destruct (find_missing_entries_for_peer _ _ _ _) as [r'|] eqn:Ef; [|done]. injection E as _ ->.
  destruct r as [sent|]; [|by intros ? ?%elem_of_nil]. intros e He. cbn in He. revert Ef. unfold find_missing_entries_for_peer.
  destruct (is_nil _); [intros [= <-]; by apply elem_of_nil in He|].
  match goal with |- context [collect_ancestors_to_send _ _ ?ids _] =>
    destruct (send_walk (node_engine n1) map_order ids l map_order_ok) as (r & -> & Hr) end.
  intros [= ->]. destruct Hr as (m & Hp & Hin & _). rewrite Hp in He.
  apply list_elem_of_fmap in He as ([id x] & -> & He). apply elem_of_map_to_list, Hin in He as [He Hr].
  cbn [snd]. unfold stored_within. rewrite (mi_ids _ Hm id x He). split; [done|]. intros Hpr.
  eapply reached_within; [|exact Hr]. intros q [_ Hq]%list_elem_of_filter. by apply Ht.
Qed.

(** An answer at the approval has no entries. *)
Lemma approve_silent request b spent n n' spent' r :
  approve_bootstrap instance_id device_key sync_tree_id request b spent n = Some (Done (n', Ok (spent', inl r))) -> ~ discloses r.
Proof.
  intros H Hd. unfold approve_bootstrap in H. cbn zeta in H.
  destruct (sr_requesting_key request) as [key|]; [|by injection H].
  destruct (sr_requesting_key_name request) as [name|]; [|by injection H].
  destruct (sr_requested_permission request) as [q|]; apply nm_bind_ok in H as (n1 & [sp proven] & _ & H).
  - destruct proven as [[]|e]; [by injection H| |by injection H as _ _ <-].
    apply nm_bind_ok in H as (n2 & [] & _ & H); by injection H as _ _ <-.
  - destruct proven as [[]|e]; [|by injection H as _ _ <-].
    apply nm_bind_ok in H as (n2 & [[p|]|] & _ & H); [by injection H|by injection H as _ _ <-..].
Qed.

(** The sync database has combined settings for the tree over these entries, and
    they enable sync. *)
Definition enabled_on (es : gmap ID Entry) (tree : ID) : Prop :=
  exists n n' settings, node_ok n /\ entries (node_engine n) = es
    /\ view (mkDbHandle sync_tree_id (Some (DatabaseKey_new device_key)) false)
         (get_combined_settings set_order raw_cid read_strategy sync_tree_id tree) n = Some (Done (n', Ok (Some settings)))
    /\ sync_enabled settings = true.

Lemma sync_enabled_inv tree n n' : node_ok n ->
  is_database_sync_enabled device_key sync_tree_id tree n = Some (Done (n', Ok true)) ->
  enabled_on (entries (node_engine n)) tree.
Proof.
  intros Hn (n1 & r & E & H)%nm_bind_ok. apply nm_try_ok in E. injection H as _ H.
  destruct r as [[settings|]|]; [|done..]. apply nm_bind_ok in E as (n2 & db & E & Hv).
  unfold get_sync_tree, open_with_device_key in E. apply nm_bind_ok in E as (n3 & db0 & E & [= <- <-]).
  apply open_tree in E as [-> ->]. by exists n, n1, settings.
Qed.

Definition authorized_answer (n n' : Node) (request : SyncTreeRequest) (spent : SpentNonces) (resp : SyncResponse) : Prop :=
  entries (node_engine n') = entries (node_engine n)
  /\ enabled_on (entries (node_engine n)) (sr_tree_id request)
  /\ let_in (entries (node_engine n)) request spent
  /\ forall e, e ∈ disclosed resp -> stored_within (entries (node_engine n)) (sr_tree_id request) e.

Lemma incremental_authorized request spent n n' spent' resp :
  node_ok n -> is_nil (tips (sr_our_tips request)) = false -> discloses resp ->
  handle_incremental_sync instance_id device_key sync_tree_id request spent n = Some (Done (n', Ok (spent', resp))) ->
  authorized_answer n n' request spent resp.
Proof.
  intros Hn Hinc Hd H.
  apply reads_bind_ok in H as (n1 & en & E & Hn1 & He1 & H); [|only_reads|done].
  destruct en; cbn [negb] in H; [|by injection H as <- _ <-].
  apply reads_bind_ok in H as (n2 & [sp allowed] & E2 & Hn2 & He2 & H); [|only_reads|done].
  destruct allowed as [[]|]; [|by injection H as <- _ <-].
  apply nm_bind_ok in H as (n3 & r & E3 & H). injection H as <- _ <-.
  destruct (incremental_entries_inv _ _ _ _ _ Hn2 E3) as [He3 Hst].
  apply authorize_read_inv in E2; [|done..]. apply sync_enabled_inv in E; [|done]. unfold authorized_answer.
  rewrite He2, He1 in *. split; [congruence|done].
Qed.

Lemma bootstrap_authorized request spent n n' spent' resp :
  node_ok n -> is_nil (tips (sr_our_tips request)) = true -> discloses resp ->
  handle_bootstrap_request instance_id device_key sync_tree_id request spent n = Some (Done (n', Ok (spent', resp))) ->
  authorized_answer n n' request spent resp.
Proof.
  intros Hn Hboot Hd H.
  apply reads_bind_ok in H as (n1 & en & E & Hn1 & He1 & H); [|only_reads|done].
  destruct en; cbn [negb] in H; [|by injection H as <- _ <-].
  apply reads_bind_ok in H as (n2 & root & E2 & Hn2 & He2 & H); [|only_reads|done].
  destruct root as [root|]; [|by injection H as <- _ <-].
  apply reads_bind_ok in H as (n3 & has & E3 & Hn3 & He3 & H); [|only_reads|done]. apply nm_try_ok in E3.
  destruct has as [b|]; [|by injection H as <- _ <-].
  destruct (b && negb (is_some (sr_requesting_key request))); [by injection H as <- _ <-|].
  apply nm_bind_ok in H as (n4 & [sp [r|[approved o]]] & E4 & H); [injection H as <- _ <-|].
  { by apply approve_silent in E4. }
  destruct (approve_inv _ _ _ _ _ _ _ _ Hn3 Hboot E4) as (Hn4 & He4 & Hin).
  destruct (b && negb approved) eqn:Eb; [by injection H as <- _ <-|].
  apply nm_bind_ok in H as (n5 & r & E5 & H). injection H as <- _ <-.
  destruct (bootstrap_entries_inv _ _ _ _ _ _ Hn4 E5) as [He5 Hst].
  apply sync_enabled_inv in E; [|done]. unfold authorized_answer. rewrite He4, He3 in *.
  assert (let_in (entries (node_engine n2)) request spent) as Hlet.
  { destruct b; [apply Hin; by destruct approved|]. apply no_auth_inv in E3 as (auth & ? & ?); [|done]. by eapply let_in_anyone. }
  rewrite He2, He1 in *. split; [congruence|done].
Qed.

End authorized.

#[export] Hint Resolve reads_try reads_ret reads_lift reads_read reads_open reads_snapshot reads_tick reads_settings
  reads_access reads_collect reads_authenticate reads_has_auth reads_highest reads_sync_enabled reads_prove
  reads_check_proven reads_authorize reads_bootstrap_entries reads_incremental_entries : reads.

(** ** A concrete server *)

#[export] Instance sync_settings_eq_dec : EqDecision SyncSettings.
Proof. solve_decision. Defined.

#[export] Instance sync_settings_countable : Countable SyncSettings.
Proof.
  refine (inj_countable' (fun s => (sync_enabled s, sync_on_commit s, interval_seconds s, properties s))
    (fun '(a, b, c, d) => mkSyncSettings a b c d) _). by intros [].
Defined.

Definition settings_text (s : SyncSettings) : string := String.string_of_list_byte (write_pos (encode s)).
Definition text_settings (j : string) : option SyncSettings :=
  match read_pos (String.list_byte_of_string j) with
  | Some (p, []) => decode p
  | _ => None
  end.

Lemma text_settings_roundtrip s : text_settings (settings_text s) = Some s.
Proof.
  unfold text_settings, settings_text. rewrite String.list_byte_of_string_of_list_byte.
  rewrite <- (app_nil_r (write_pos (encode s))), read_pos_write. apply decode_encode.
Qed.

Definition wire_users : UserJson := {|
  UserEntry := string;
  user_uuid_of := Some;
  user_entry u := u;
  users_to_json := list_text write_string;
  users_of_json := text_list read_string;
  settings_to_json := settings_text;
  settings_of_json := text_settings;
  user_uuid_of_entry u := eq_refl;
  users_of_to_json l := text_list_roundtrip _ _ l read_string_write;
  settings_of_to_json := text_settings_roundtrip;
|}.

#[local] Existing Instance nat_cid.
#[local] Existing Instance byte_crypto.
#[local] Existing Instance list_lru.
#[local] Existing Instance wire_codec.
#[local] Existing Instance wire_json.
#[local] Existing Instance wire_peers.
#[local] Existing Instance wire_instance.
#[local] Existing Instance wire_env.
#[local] Existing Instance wire_users.

(** The instance with a database, its sync database, and sync enabled for the database. *)
Definition enable_sync : Nm unit :=
  update asked_sync (set_combined_settings set_order raw_cid read_strategy (db_root asked_sync) one_root
    (mkSyncSettings true false None ∅)).

Definition served : option (Outcome (Node * Result unit Error)) := Eval vm_compute in enable_sync asked_node.

Lemma served_eq : enable_sync asked_node = served.
Proof. vm_cast_no_check (eq_refl served). Qed.

Definition served_node : Node := match served with Some (Done (n, _)) => n | _ => empty_node end.

Lemma served_node_ok : node_ok served_node.
Proof.
  assert (safe enable_sync) as Hs by (apply safe_update, staging_set_combined; apply set_order_ok).
  specialize (Hs asked_node asked_node_ok). rewrite served_eq in Hs. unfold served_node.
  destruct served as [[[n r]|]|]; [exact (proj1 Hs)|apply empty_node_ok|destruct Hs].
Qed.

(** A bootstrap request for the database that claims a key and is signed with [sk]. *)
Definition bootstrap_by (claimed : PublicKey) (sk : PrivateKey) : SyncTreeRequest :=
  mkSyncTreeRequest one_root (Snapshot_new []) None (Some claimed) (Some "laptop") None None
    (Some (SyncRequestAuth_sign demo_nonce sk (public_key admin_sk) one_root (Snapshot_new []) 40)).

Definition serve (request : SyncTreeRequest) : Nm (SpentNonces * SyncResponse) :=
  handle_sync_tree (public_key admin_sk) admin_sk (db_root asked_sync) request (mkRequestContext None None) [].

Definition served_with (r : option (Outcome (Node * Result (SpentNonces * SyncResponse) Error))) : option SyncResponse :=
  match r with Some (Done (_, Ok (_, resp))) => Some resp | _ => None end.

Definition other_sk : PrivateKey := Ed25519Private Byte.x21.

(** The administrator is answered.  A key the database does not know is not, nor is
    a request that claims the administrator's key under another signature, nor
    anyone while sync is not enabled. *)
Lemma bootstrap_answers :
  option_map disclosed (served_with (serve (bootstrap_by (public_key admin_sk) admin_sk) served_node))
    = Some (option_list (entries (node_engine served_node) !! one_root))
  /\ served_with (serve (bootstrap_by (public_key other_sk) other_sk) served_node) = Some RespError
  /\ served_with (serve (bootstrap_by (public_key admin_sk) other_sk) served_node) = Some RespError
  /\ served_with (serve (bootstrap_by (public_key admin_sk) admin_sk) asked_node) = Some RespError.
Proof. split_and!; vm_compute; reflexivity. Qed.

