(* ===== verification/SyncTransport.v ===== *)
(** * Transports and the queue of entries to send

    The transports of an instance by name (sync/transport_manager.rs), the state
    of a server and the HTTP transport (sync/transports/shared.rs, http.rs), and
    the queue of entries for each peer (sync/queue.rs).  The network is a type of
    its own: what a transport does to it is an argument.  Shown here: a request
    goes to a transport that handles its address; what is queued for a peer is
    what a drain hands out; and the addresses that an instance advertises carry
    the name of a transport where the type is expected. *)

From S2P Require Import Prelude.
From S2P Require Import Ids.
From S2P Require Import Errors.
From S2P Require Import Crypto.
From S2P Require Import Permission.
From S2P Require Import AuthTypes.
From S2P Require Import Entry.
From S2P Require Import SyncAuth.

(** ** The trait *)

(** A network [Net] and the transports on it; [send_request], [start_server] and
    [stop_server] may change the network. *)
Class SyncTransport `{CS : CidSpec} `{KS : CryptoSpec} := {
  Net : Type;
  Transport : Type;
  type_of_transport : Transport -> string;
  can_handle_address : Transport -> Address -> bool;
  start_server : Transport -> Net -> Transport * Net * Result unit Error;
  stop_server : Transport -> Net -> Transport * Net * Result unit Error;
  transport_send : Transport -> Address -> SyncRequest -> Net -> option (Outcome (Net * Result SyncResponse Error));
  is_server_running : Transport -> bool;
  get_server_address : Transport -> Result string Error;
}.

(** ** The manager *)

Section manager.
Context `{ST : SyncTransport}.
(** The order in which the hash map is iterated. *)
Context (order : gmap string Transport -> list (string * Transport)).

Definition TransportManager : Type := gmap string Transport.

Definition TransportManager_add (self : TransportManager) (name : string) (transport : Transport) : TransportManager :=
  <[name := transport]> self.

Definition TransportManager_remove (self : TransportManager) (name : string) : TransportManager * option Transport :=
  (delete name self, self !! name).

Definition get_for_address (self : TransportManager) (addr : Address) : option Transport :=
  head (filter (fun t => can_handle_address t addr = true) (order self).*2).

Definition get_by_type (self : TransportManager) (ty : string) : option Transport :=
  head (filter (fun t => type_of_transport t = ty) (order self).*2).

Definition transport_types (self : TransportManager) : list string := type_of_transport <$> (order self).*2.

Definition manager_send_request (self : TransportManager) (addr : Address) (request : SyncRequest) (net : Net) :
    option (Outcome (Net * Result SyncResponse Error)) :=
  match get_for_address self addr with
  | None => Some (Done (net, Err (ESync (NoTransportForAddress addr))))
  | Some transport => transport_send transport addr request net
  end.

Definition manager_start_server (self : TransportManager) (name : string) (net : Net) :
    TransportManager * Net * Result unit Error :=
  match self !! name with
  | None => (self, net, Err (ESync (TransportNotFound name)))
  | Some transport =>
      let '(transport, net, r) := start_server transport net in
      (<[name := transport]> self, net, r)
  end.

(** Start each of [names]; the numbers of servers that started and of errors. *)
Fixpoint start_each (self : TransportManager) (names : list string) (net : Net) (started errors : nat) :
    TransportManager * Net * nat * nat :=
  match names with
  | [] => (self, net, started, errors)
  | name :: rest =>
      match self !! name with
      | None => start_each self rest net started errors
      | Some transport =>
          let '(transport, net, r) := start_server transport net in
          let self := <[name := transport]> self in
          match r with
          | Ok _ => start_each self rest net (S started) errors
          | Err _ => start_each self rest net started (S errors)
          end
      end
  end.

Definition start_all_servers (self : TransportManager) (net : Net) : TransportManager * Net * Result unit Error :=
  let names := (order self).*1 in
  let '(self, net, started, errors) := start_each self names net 0 0 in
  (self, net,
   if (0 <? Z.of_nat started) || is_nil names then Ok tt else Err (ESync (MultipleTransportErrors errors))).

Fixpoint stop_each (self : TransportManager) (pairs : list (string * Transport)) (net : Net) (errors : nat) :
    TransportManager * Net * nat :=
  match pairs with
  | [] => (self, net, errors)
  | (name, transport) :: rest =>
      if is_server_running transport then
        let '(transport, net, r) := stop_server transport net in
        stop_each (<[name := transport]> self) rest net (if is_ok r then errors else S errors)
      else stop_each self rest net errors
  end.

Definition stop_all_servers (self : TransportManager) (net : Net) : TransportManager * Net * Result unit Error :=
  let '(self, net, errors) := stop_each self (order self) net 0 in
  (self, net, if decide (errors = 0%nat) then Ok tt else Err (ESync (MultipleTransportErrors errors))).

Definition manager_stop_server (self : TransportManager) (name : string) (net : Net) :
    TransportManager * Net * Result unit Error :=
  match self !! name with
  | None => (self, net, Err (ESync (TransportNotFound name)))
  | Some transport =>
      let '(transport, net, r) := stop_server transport net in
      (<[name := transport]> self, net, r)
  end.

Definition manager_server_address (self : TransportManager) (name : string) : Result string Error :=
  match self !! name with
  | None => Err (ESync (TransportNotFound name))
  | Some transport => get_server_address transport
  end.

(** The pairs of a name and an address. *)
Definition get_all_server_addresses (self : TransportManager) : list (string * string) :=
  omap (fun '(name, t) =>
          if is_server_running t then
            match get_server_address t with Ok addr => Some (name, addr) | Err _ => None end
          else None) (order self).

Definition is_any_server_running (self : TransportManager) : bool :=
  existsb is_server_running (order self).*2.

Definition manager_is_running (self : TransportManager) (name : string) : bool :=
  match self !! name with Some t => is_server_running t | None => false end.

(** [AddTransport]: a server that runs under the name is stopped, its error
    ignored. *)
Definition replace_transport (self : TransportManager) (name : string) (transport : Transport) (net : Net) :
    TransportManager * Net :=
  let net := match self !! name with
             | Some old => if is_server_running old then (stop_server old net).1.2 else net
             | None => net
             end in
  (TransportManager_add self name transport, net).
End manager.

(** ** The state of a server *)

Section http.
Context `{CS : CidSpec} `{KS : CryptoSpec}.

Record ServerState : Type := mkServerState {
  running : bool;
  server_address : option string;
}.

Definition ServerState_new : ServerState := mkServerState false None.

Definition ServerState_get_address (self : ServerState) : Result string Error :=
  match server_address self with Some addr => Ok addr | None => Err (ESync ServerNotRunning) end.

(** The shutdown sender is a channel and not kept. *)
Definition server_started (self : ServerState) (addr : string) : ServerState := mkServerState true (Some addr).

Definition ServerState_stop_server (self : ServerState) : ServerState := mkServerState false None.

(** ** HTTP *)

(** The client is not kept. *)
Record HttpTransport : Type := mkHttpTransport {
  server_state : ServerState;
  bind_address : option string;
}.

Definition HTTP_TRANSPORT_TYPE : string := "http".

Definition HttpTransport_new : HttpTransport := mkHttpTransport ServerState_new None.

Definition Http_can_handle_address (self : HttpTransport) (addr : Address) : bool :=
  bool_decide (transport_type addr = HTTP_TRANSPORT_TYPE).

(** The network of HTTP: [bind] parses an address and binds a listener to it, whose
    address it returns; [post] sends a request to a URL, with what the client
    reports. *)
Context (HttpNet : Type) (bind : string -> HttpNet -> HttpNet * option string).
Context (post : string -> SyncRequest -> HttpNet -> option (Outcome (HttpNet * Result SyncResponse Error))).

Definition Http_start_server (self : HttpTransport) (net : HttpNet) : HttpTransport * HttpNet * Result unit Error :=
  match bind_address self with
  | None => (self, net, Ok tt)
  | Some effective_addr =>
      if running (server_state self) then (self, net, Err (ESync (ServerAlreadyRunning effective_addr)))
      else
        match bind effective_addr net with
        | (net, None) => (self, net, Err (ESync (ServerBind effective_addr)))
        | (net, Some actual_addr) =>
            (mkHttpTransport (server_started (server_state self) actual_addr) (bind_address self), net, Ok tt)
        end
  end.

Definition Http_stop_server (self : HttpTransport) (net : HttpNet) : HttpTransport * HttpNet * Result unit Error :=
  if negb (running (server_state self)) then (self, net, Err (ESync ServerNotRunning))
  else (mkHttpTransport (ServerState_stop_server (server_state self)) (bind_address self), net, Ok tt).

Definition Http_send_request (self : HttpTransport) (addr : Address) (request : SyncRequest) (net : HttpNet) :
    option (Outcome (HttpNet * Result SyncResponse Error)) :=
  if negb (Http_can_handle_address self addr)
  then Some (Done (net, Err (ESync (UnsupportedTransport (transport_type addr)))))
  else post ("http://" +:+ address addr +:+ "/api/v0")%string request net.

Definition http_transport : SyncTransport := {|
  Net := HttpNet;
  Transport := HttpTransport;
  type_of_transport _ := HTTP_TRANSPORT_TYPE;
  can_handle_address := Http_can_handle_address;
  start_server := Http_start_server;
  stop_server := Http_stop_server;
  transport_send := Http_send_request;
  is_server_running t := running (server_state t);
  get_server_address t := ServerState_get_address (server_state t);
|}.

(** What the endpoint of a server makes of a request from [addr]. *)
Definition request_context (addr : string) (request : SyncRequest) : RequestContext :=
  mkRequestContext (Some (mkAddress HTTP_TRANSPORT_TYPE addr))
    (match request with ReqSyncTree r => sr_peer_pubkey r | _ => None end).
End http.

(** ** The queue *)

Section queue.
Context `{CS : CidSpec} `{KS : CryptoSpec}.

(** Per peer the pairs of an entry and its tree; the order of the peers is that of
    the hash map. *)
Definition SyncQueue : Type := list (PublicKey * list (ID * ID)).

Definition SyncQueue_new : SyncQueue := [].

Fixpoint enqueue (self : SyncQueue) (peer : PublicKey) (entry_id tree_id : ID) : SyncQueue :=
  match self with
  | [] => [(peer, [(entry_id, tree_id)])]
  | (p, l) :: rest =>
      if decide (p = peer) then (p, l ++ [(entry_id, tree_id)]) :: rest
      else (p, l) :: enqueue rest peer entry_id tree_id
  end.

Definition drain (self : SyncQueue) : SyncQueue * list (PublicKey * list (ID * ID)) := ([], self).

Definition queue_is_empty (self : SyncQueue) : bool := is_nil self.

Definition queue_len (self : SyncQueue) : nat := sum_list ((fun p => length p.2) <$> self).

Definition peer_count (self : SyncQueue) : nat := length self.
End queue.

(** ** Routing *)

Section routing.
Context `{ST : SyncTransport} (order : gmap string Transport -> list (string * Transport)).
Hypothesis (Horder : forall m, order m ≡ₚ map_to_list m).

Lemma elem_of_transports (self : TransportManager) t : t ∈ (order self).*2 <-> exists name, self !! name = Some t.
Proof.
  rewrite list_elem_of_fmap. split.
  - intros ([name t'] & -> & Hin). exists name. rewrite Horder in Hin. by apply elem_of_map_to_list in Hin.
  - intros [name Hn]. exists (name, t). split; [done|]. rewrite Horder. by apply elem_of_map_to_list.
Qed.

(** A request is given to a transport of the manager that handles the address;
    only where there is none it is refused, and then nothing is sent. *)
Lemma manager_routes (self : TransportManager) addr request net :
  (exists name t, self !! name = Some t /\ can_handle_address t addr = true
     /\ manager_send_request order self addr request net = transport_send t addr request net)
  \/ ((forall name t, self !! name = Some t -> can_handle_address t addr = false)
      /\ manager_send_request order self addr request net = Some (Done (net, Err (ESync (NoTransportForAddress addr))))).
Proof.
  unfold manager_send_request, get_for_address. destruct (filter _ _) as [|t l] eqn:E; cbn [head].
  - right. split; [|done]. intros name t Ht. destruct (can_handle_address t addr) eqn:Ec; [|done].
    assert (t ∈ filter (fun t => can_handle_address t addr = true) (order self).*2) as Hin.
    { apply list_elem_of_filter. split; [done|]. apply elem_of_transports. by exists name. }
    rewrite E in Hin. by apply elem_of_nil in Hin.
  - left. assert (t ∈ t :: l) as Hin by (by apply elem_of_cons; left). rewrite <- E in Hin.
    apply list_elem_of_filter in Hin as [Hc [name Hn]%elem_of_transports]. by exists name, t.
Qed.
End routing.

(** ** What is queued *)

Section queued.
Context `{CS : CidSpec} `{KS : CryptoSpec}.

(** What waits for a peer. *)
Definition waiting (q : SyncQueue) (peer : PublicKey) : list (ID * ID) :=
  concat ((fun p : PublicKey * list (ID * ID) => if decide (p.1 = peer) then p.2 else []) <$> q).

Definition enqueue_all (q : SyncQueue) (l : list (PublicKey * (ID * ID))) : SyncQueue :=
  foldl (fun q x => enqueue q x.1 x.2.1 x.2.2) q l.

Lemma enqueue_fst q peer e t : forall p, p ∈ (enqueue q peer e t).*1 <-> p = peer \/ p ∈ q.*1.
Proof.
  intros p. induction q as [|[p0 l] q IH]; simpl; [set_solver|]. destruct (decide (p0 = peer)) as [->|]; simpl; set_solver.
Qed.

Lemma enqueue_NoDup q peer e t : NoDup q.*1 -> NoDup (enqueue q peer e t).*1.
Proof.
  induction q as [|[p l] q IH]; simpl; intros Hnd; [apply NoDup_singleton|].
  apply NoDup_cons in Hnd as [Hp Hnd]. destruct (decide (p = peer)); simpl; apply NoDup_cons; (split; [|by auto]); [done|].
  rewrite enqueue_fst. naive_solver.
Qed.

Lemma enqueue_nonempty q peer e t : Forall (fun p => p.2 <> []) q -> Forall (fun p => p.2 <> []) (enqueue q peer e t).
Proof.
  induction q as [|[p l] q IH]; simpl; intros Hq; [by repeat constructor|]. apply Forall_cons in Hq as [H1 H2].
  destruct (decide (p = peer)); constructor; try done; [by destruct l|by apply IH].
Qed.

Lemma waiting_cons p l q peer : waiting ((p, l) :: q) peer = (if decide (p = peer) then l else []) ++ waiting q peer.
Proof. done. Qed.

Lemma waiting_none q peer : peer ∉ q.*1 -> waiting q peer = [].
Proof.
  induction q as [|[p l] q IH]; [done|]. rewrite waiting_cons. intros [H1 H2]%not_elem_of_cons.
  rewrite decide_False by done. by apply IH.
Qed.

Lemma waiting_enqueue q peer e t peer' :
  NoDup q.*1 -> waiting (enqueue q peer e t) peer' = waiting q peer' ++ (if decide (peer = peer') then [(e, t)] else []).
Proof.
  induction q as [|[p l] q IH]; cbn [enqueue fmap list_fmap]; intros Hnd; [rewrite waiting_cons; by rewrite app_nil_r|].
  apply NoDup_cons in Hnd as [Hp Hnd]. destruct (decide (p = peer)) as [->|Hne]; rewrite !waiting_cons.
  - destruct (decide (peer = peer')) as [<-|]; [|by rewrite app_nil_r].
    rewrite (waiting_none q peer) by done. by rewrite !app_nil_r.
  - rewrite IH by done. by rewrite app_assoc.
Qed.

Lemma queue_len_cons p q : queue_len (p :: q) = (length p.2 + queue_len q)%nat.
Proof. done. Qed.

Lemma enqueue_len q peer e t : queue_len (enqueue q peer e t) = S (queue_len q).
Proof.
  induction q as [|[p l] q IH]; cbn [enqueue]; [done|].
  destruct (decide (p = peer)); rewrite !queue_len_cons; cbn [snd]; [rewrite length_app; simpl; lia|]. rewrite IH. lia.
Qed.

(** The queue is a list for each peer: whatever was enqueued since the last drain,
    a drain hands out for each peer exactly its pairs, in the order in which they
    came, names no peer twice and none without pairs, and leaves nothing. *)
Theorem queue_spec l :
  let '(q, batches) := drain (enqueue_all SyncQueue_new l) in
  q = SyncQueue_new /\ NoDup batches.*1
  /\ Forall (fun p => p.2 <> []) batches
  /\ (forall peer, waiting batches peer = (filter (fun x => x.1 = peer) l).*2)
  /\ queue_len batches = length l.
Proof.
  cbn. split; [done|]. unfold enqueue_all.
  assert (forall q, NoDup q.*1 -> Forall (fun p => p.2 <> []) q ->
    let q' := foldl (fun q x => enqueue q x.1 x.2.1 x.2.2) q l in
    NoDup q'.*1 /\ Forall (fun p => p.2 <> []) q'
    /\ (forall peer, waiting q' peer = waiting q peer ++ (filter (fun x => x.1 = peer) l).*2)
    /\ queue_len q' = (queue_len q + length l)%nat) as H.
  { induction l as [|[p [e t]] l IH]; intros q Hnd Hne; cbn [foldl fst snd].
    { split; [done|]. split; [done|]. split; [intros; by rewrite app_nil_r|]. simpl. lia. }
    destruct (IH (enqueue q p e t)) as (H1 & H2 & H3 & H4); [by apply enqueue_NoDup|by apply enqueue_nonempty|].
    split; [done|]. split; [done|]. split; [|rewrite H4, enqueue_len; simpl; lia].
    intros peer. rewrite H3, waiting_enqueue, filter_cons by done. cbn [fst].
    destruct (decide (p = peer)); [|by rewrite app_nil_r]. by rewrite <- app_assoc. }
  destruct (H []) as (? & ? & Hw & ?); [constructor..|]. split; [done|]. split; [done|]. split; [|done]. intros peer. by rewrite Hw.
Qed.
End queued.

(** ** Advertised addresses *)

Section advertised.
Context `{CS : CidSpec} `{KS : CryptoSpec}.
Context (HttpNet : Type) (bind : string -> HttpNet -> HttpNet * option string).
Context (post : string -> SyncRequest -> HttpNet -> option (Outcome (HttpNet * Result SyncResponse Error))).
#[local] Existing Instance http_transport.
#[local] Notation H := (http_transport HttpNet bind post).

(** The address of a running server is advertised, in handshakes and tickets, with
    the name that its transport is registered under as the transport type.  An HTTP
    transport handles it only if that name happens to be the type: a server
    registered as http-local, as the documentation does, cannot be reached
    at the address it advertises. *)
Lemma named_server_unreachable (name addr : string) (t : HttpTransport) :
  name <> HTTP_TRANSPORT_TYPE -> server_state t = server_started ServerState_new addr ->
  let manager := TransportManager_add (ST := H) ∅ name t in
  get_all_server_addresses (ST := H) map_to_list manager = [(name, addr)]
  /\ forall t', can_handle_address (SyncTransport := H) t' (mkAddress name addr) = false.
Proof.
  intros Hn Ht manager. unfold manager, get_all_server_addresses, TransportManager_add.
  assert (map_to_list (<[name := t]> (∅ : gmap string HttpTransport)) = [(name, t)]) as E
    by (by rewrite insert_empty, map_to_list_singleton).
  split; [refine (eq_trans (f_equal (omap _) E) _); simpl; unfold ServerState_get_address; by rewrite Ht|].
  intros t'. simpl. unfold Http_can_handle_address. by apply bool_decide_eq_false.
Qed.
End advertised.
