(* ===== verification/SyncClient.v ===== *)
(** * The client side of synchronisation (sync/ops.rs, sync/background, sync/bootstrap.rs)

    What an instance does to exchange entries with a peer: requests that it signs
    and sends, the answers that it stores, the queue and the retries of the
    background engine.  A computation acts on a world: the instance, the
    network and, once it is started, the background engine.  A command that is
    sent to the engine is run where it is sent: the engine handles commands one
    by one, and its timers are the functions [process_queue],
    [process_retry_queue] and [periodic_sync_all_peers]. *)

From S2P Require Import Prelude.
From S2P Require Import Path.
From S2P Require Import Position.
From S2P Require Import Ids.
From S2P Require Import Doc.
From S2P Require Import DocPath.
From S2P Require Import Errors.
From S2P Require Import Crypto.
From S2P Require Import Permission.
From S2P Require Import AuthTypes.
From S2P Require Import AuthSettings.
From S2P Require Import Entry.
From S2P Require Import Backend.
From S2P Require Import Traversal.
From S2P Require Import CrdtCache.
From S2P Require Import BackendSteps.
From S2P Require Import Reachability.
From S2P Require Import Validation.
From S2P Require Import Verify.
From S2P Require Import InstanceOps.
From S2P Require Import WireCodec.
From S2P Require Import Transaction.
From S2P Require Import Stores.
From S2P Require Import StoreView.
From S2P Require Import Commit.
From S2P Require Import TxFrame.
From S2P Require Import CommitSpec.
From S2P Require Import Lifecycle.
From S2P Require Import Settings.
From S2P Require Import Table.
From S2P Require Import Node.
From S2P Require Import Peers.
From S2P Require Import Worklist.
From S2P Require Import Frontier.
From S2P Require Import StoreTips.
From S2P Require Import MergeBase.
From S2P Require Import StoreState.
From S2P Require Import SyncWalk.
From S2P Require Import SyncAuth.
From S2P Require Import UserSync.
From S2P Require Import Bootstrap.
From S2P Require Import SyncHandler.
From S2P Require Import IdsAdded.
From S2P Require Import SyncTransport.

(** ** The world *)

Section world.
Context `{IS : InstanceSpec} `{LS : !LruSpec CacheKey (list Byte.byte)} `{ST : !SyncTransport}.

(** A batch whose sending failed. *)
Record RetryEntry : Type := mkRetryEntry {
  re_peer : PublicKey;
  re_entries : list Entry;
  re_attempts : Z;
  re_last_attempt_ms : Z;
}.

Record BackgroundSync : Type := mkBackgroundSync {
  transport_manager : TransportManager;
  retry_queue : list RetryEntry;
}.

Record World : Type := mkWorld {
  w_node : Node;
  w_net : Net;
  w_background : option BackgroundSync;
  w_queue : SyncQueue;
}.

Definition with_node (w : World) (n : Node) : World := mkWorld n (w_net w) (w_background w) (w_queue w).
Definition with_net (w : World) (net : Net) : World := mkWorld (w_node w) net (w_background w) (w_queue w).
Definition with_background (w : World) (b : option BackgroundSync) : World := mkWorld (w_node w) (w_net w) b (w_queue w).
Definition with_queue (w : World) (q : SyncQueue) : World := mkWorld (w_node w) (w_net w) (w_background w) q.

Definition Wm (A : Type) : Type := World -> option (Outcome (World * Result A Error)).

Definition wm_ret {A} (a : A) : Wm A := fun w => Some (Done (w, Ok a)).
Definition wm_fail {A} (e : Error) : Wm A := fun w => Some (Done (w, Err e)).

Definition wm_bind {A B} (m : Wm A) (k : A -> Wm B) : Wm B := fun w =>
  match m w with
  | None => None
  | Some Panic => Some Panic
  | Some (Done (w, Err e)) => Some (Done (w, Err e))
  | Some (Done (w, Ok a)) => k a w
  end.

Definition wm_try {A} (m : Wm A) : Wm (Result A Error) := fun w =>
  match m w with
  | None => None
  | Some Panic => Some Panic
  | Some (Done (w, r)) => Some (Done (w, Ok r))
  end.

(** A computation of the instance. *)
Definition at_node {A} (m : Nm A) : Wm A := fun w =>
  match m (w_node w) with
  | None => None
  | Some Panic => Some Panic
  | Some (Done (n, r)) => Some (Done (with_node w n, r))
  end.

(** The background engine, if it runs ([background_tx.get()]). *)
Definition background : Wm BackgroundSync := fun w =>
  match w_background w with
  | None => Some (Done (w, Err (ESync NoTransportEnabled)))
  | Some b => Some (Done (w, Ok b))
  end.

Definition set_retry_queue (l : list RetryEntry) : Wm unit := fun w =>
  Some (Done (with_background w ((fun b => mkBackgroundSync (transport_manager b) l) <$> w_background w), Ok tt)).

Lemma wm_bind_ok {A B} (m : Wm A) (k : A -> Wm B) w w' b :
  wm_bind m k w = Some (Done (w', Ok b)) -> exists w1 a, m w = Some (Done (w1, Ok a)) /\ k a w1 = Some (Done (w', Ok b)).
Proof. unfold wm_bind. destruct (m w) as [[[w1 [a|e]]|]|]; [|done..]. eauto. Qed.

Lemma at_node_ok {A} (m : Nm A) w w' a :
  at_node m w = Some (Done (w', Ok a)) -> exists n', m (w_node w) = Some (Done (n', Ok a)) /\ w' = with_node w n'.
Proof. unfold at_node. destruct (m (w_node w)) as [[[n1 r]|]|]; [|done..]. intros [= <- ->]. eauto. Qed.
End world.

Notation "'await' x <- m ; k" := (wm_bind m (fun x => k))
  (at level 200, x pattern, m at level 100, k at level 200) : eidetica_scope.

Section client.
Context `{IS : InstanceSpec} `{JS : !JsonSpec} `{LS : !LruSpec CacheKey (list Byte.byte)} `{PJ : PeerJson} `{UJ : UserJson}.
Context `{NE : !NodeEnv} `{RQ : !RowCodec BootstrapRequest} `{ST : !SyncTransport}.
(** The order of the hash maps of transports and of queued batches. *)
Context (name_order : gmap string Transport -> list (string * Transport)).
Context (peer_order : SyncQueue -> SyncQueue).
(** The device key, and the handle of the sync database. *)
Context (device_key : PrivateKey) (sync_tree : DbHandle).
Notation instance_id := (public_key device_key).
Notation sync_tree_id := (db_root sync_tree).

(** ** Requests *)

(** The background engine's [send_sync_request]. *)
Definition send_sync_request (addr : Address) (request : SyncRequest) : Wm SyncResponse :=
  await b <- background;
  fun w =>
    match manager_send_request name_order (transport_manager b) addr request (w_net w) with
    | None => None
    | Some Panic => Some Panic
    | Some (Done (net, r)) => Some (Done (with_net w net, r))
    end.

(** [Sync::send_request]. *)
Definition send_request (request : SyncRequest) (addr : Address) : Wm SyncResponse := send_sync_request addr request.

(** A [SendRequest] command whose failure becomes a network error. *)
Definition command_request (addr : Address) (request : SyncRequest) : Wm SyncResponse :=
  await _ <- background;
  await r <- wm_try (send_sync_request addr request);
  match r with
  | Ok response => wm_ret response
  | Err _ => wm_fail (ESync SyncNetwork)
  end.

(** [SyncRequestAuth::sign] at the next readings of the clock and the random source. *)
Definition sign_request (signing_key : PrivateKey) (peer : PublicKey) (tree_id : ID) (our_tips : Snapshot) : Nm SyncRequestAuth :=
  step t <- tick;
  step u <- tick;
  nm_ret (SyncRequestAuth_sign (fresh_challenge u) signing_key peer tree_id our_tips (clock_millis t None)).

Definition local_snapshot (tree_id : ID) : Nm Snapshot :=
  nm_engine (fun inner => let p := mem_snapshot inner tree_id in Some (p.1, Ok p.2)).

(** ** Storing what is received *)

Definition store_received_entries (tree_id : ID) (es : list Entry) : Nm unit :=
  step r <- nm_try (nm_instance (fun inst => put_remote_entries map_order inst tree_id es));
  match r with
  | Ok _ => nm_ret tt
  | Err _ => nm_fail (ESync SyncBackendError)
  end.

Definition handle_bootstrap_response (response : BootstrapResponse) : Nm unit :=
  if decide (Entry_id (br_root_entry response) <> br_tree_id response) then nm_fail (ESync InvalidEntry)
  else store_received_entries (br_tree_id response) (br_root_entry response :: br_all_entries response).

Definition send_missing_entries_to_peer (peer_address : Address) (es : list Entry) : Wm unit :=
  if is_nil es then wm_ret tt
  else
    await response <- command_request peer_address (ReqSendEntries es);
    match response with
    | RespAck | RespCount _ => wm_ret tt
    | RespError => wm_fail (ESync SyncNetwork)
    | _ => wm_fail (ESync (UnexpectedResponse "Ack or Count"))
    end.

Definition handle_incremental_response (response : IncrementalResponse) (peer_address : Address) : Wm unit :=
  await _ <- at_node (store_received_entries (ir_tree_id response) (ir_missing_entries response));
  await our_snapshot <- at_node (local_snapshot (ir_tree_id response));
  let their_tips := ir_their_tips response in
  let missing_tip_ids := filter (fun tip_id => tip_id ∉ their_tips) (tips our_snapshot) in
  if is_nil missing_tip_ids then wm_ret tt
  else
    await entries_for_server <- at_node (nm_read (fun inner => collect_ancestors_to_send map_order inner missing_tip_ids their_tips));
    if is_nil entries_for_server then wm_ret tt
    else send_missing_entries_to_peer peer_address entries_for_server.

(** ** Exchanging a tree *)

(** The peer's first address. *)
Definition peer_address (peer : PublicKey) : Nm Address :=
  step info <- Sync_get_peer_info sync_tree peer;
  match info with
  | None => nm_fail (ESync (PeerNotFound (PublicKey_to_string peer)))
  | Some peer_info =>
      match head (pi_addresses peer_info) with
      | None => nm_fail (ESync SyncNetwork)
      | Some addr => nm_ret addr
      end
  end.

Definition sync_tree_with_peer_as (peer : PublicKey) (tree_id : ID) (signing_key : option PrivateKey) : Wm unit :=
  await addr <- at_node (peer_address peer);
  await our_tips <- at_node (local_snapshot tree_id);
  await auth <- at_node (sign_request (default device_key signing_key) peer tree_id our_tips);
  let request := mkSyncTreeRequest tree_id our_tips (Some instance_id) None None None None (Some auth) in
  await response <- command_request addr (ReqSyncTree request);
  await _ <- match response with
             | RespBootstrap r => at_node (handle_bootstrap_response r)
             | RespIncremental r => handle_incremental_response r addr
             | RespError => wm_fail (ESync SyncProtocolError)
             | _ => wm_fail (ESync (UnexpectedResponse "Bootstrap or Incremental"))
             end;
  at_node (Sync_add_tree_sync sync_tree peer tree_id).

Definition sync_tree_with_peer (peer : PublicKey) (tree_id : ID) : Wm unit := sync_tree_with_peer_as peer tree_id None.

(** With parameters for a bootstrap; the root of a bootstrap answer is not compared
    with the tree. *)
Definition sync_tree_with_peer_auth (peer : PublicKey) (tree_id : ID) (requesting_key : option PrivateKey)
    (requesting_key_name : option string) (requested_permission : option Permission) (metadata : option Doc) : Wm unit :=
  await addr <- at_node (peer_address peer);
  await our_tips <- at_node (local_snapshot tree_id);
  await auth <- at_node (sign_request (default device_key requesting_key) peer tree_id our_tips);
  let request := mkSyncTreeRequest tree_id our_tips (Some instance_id) (public_key <$> requesting_key)
    requesting_key_name requested_permission metadata (Some auth) in
  await response <- command_request addr (ReqSyncTree request);
  await _ <- match response with
             | RespBootstrap r =>
                 await _ <- at_node (nm_instance (fun inst =>
                   put_remote_entries map_order inst tree_id (br_root_entry r :: br_all_entries r)));
                 wm_ret tt
             | RespIncremental r => handle_incremental_response r addr
             | RespBootstrapPending request_id => wm_fail (ESync (BootstrapPending request_id))
             | RespError => wm_fail (ESync SyncNetwork)
             | _ => wm_fail (ESync SyncProtocolError)
             end;
  at_node (Sync_add_tree_sync sync_tree peer tree_id).

(** ** Connecting *)

(** The background engine's [connect_to_peer]. *)
Definition connect_to_peer (addr : Address) : Wm PublicKey :=
  await b <- background;
  await t <- at_node tick;
  let challenge := fresh_challenge t in
  let listen_addresses := (fun '(name, a) => mkAddress name a) <$> get_all_server_addresses name_order (transport_manager b) in
  let request := mkHandshakeRequest instance_id instance_id (Some "BackgroundSync") PROTOCOL_VERSION challenge listen_addresses in
  await response <- send_sync_request addr (ReqHandshake request);
  match response with
  | RespHandshake resp =>
      if negb (hs_protocol_version resp =? PROTOCOL_VERSION)
      then wm_fail (ESync (ProtocolMismatch PROTOCOL_VERSION (hs_protocol_version resp)))
      else
        match verify_challenge_response challenge (hs_challenge_response resp) (hs_public_key resp) with
        | Err _ => wm_fail (ESync HandshakeFailed)
        | Ok _ =>
            await db <- at_node (get_sync_tree device_key sync_tree_id);
            await now <- at_node now_rfc3339;
            await r <- wm_try (at_node (update db
              (register_peer set_order raw_cid read_strategy (db_root db) now (hs_public_key resp) (hs_display_name resp))));
            match r with
            | Ok _ | Err (ESync (PeerAlreadyExists _)) => wm_ret (hs_public_key resp)
            | Err e => wm_fail e
            end
        end
  | _ => wm_fail (ESync HandshakeFailed)
  end.

(** Nothing is returned of the trees that the handshake lists. *)
Definition discover_peer_trees (addr : Address) : Wm (list TreeInfo) :=
  await _ <- connect_to_peer addr;
  wm_ret [].

Definition sync_with_peer_as (addr : Address) (tree_id : option ID) (signing_key : option PrivateKey) : Wm unit :=
  await peer <- connect_to_peer addr;
  await _ <- at_node (add_peer_address sync_tree peer addr);
  match tree_id with
  | Some tree_id => sync_tree_with_peer_as peer tree_id signing_key
  | None => wm_ret tt
  end.

Definition sync_with_peer (addr : Address) (tree_id : option ID) : Wm unit := sync_with_peer_as addr tree_id None.

Definition sync_with_peer_for_bootstrap_internal (addr : Address) (tree_id : ID) (requesting_key : PrivateKey)
    (requesting_key_name : string) (requested_permission : Permission) (metadata : option Doc) : Wm unit :=
  if str_is_empty requesting_key_name then wm_fail (ESync InvalidKeyName)
  else
    await peer <- connect_to_peer addr;
    await _ <- at_node (add_peer_address sync_tree peer addr);
    sync_tree_with_peer_auth peer tree_id (Some requesting_key) (Some requesting_key_name) (Some requested_permission) metadata.

Definition sync_with_peer_for_bootstrap_with_key (addr : Address) (tree_id : ID) (requesting_key : PrivateKey)
    (requesting_key_name : string) (requested_permission : Permission) : Wm unit :=
  sync_with_peer_for_bootstrap_internal addr tree_id requesting_key requesting_key_name requested_permission None.

(** The attempts at the addresses of a ticket, in the order in which they finish;
    those after the first success finish after the call has returned. *)
Fixpoint attempts (f : Address -> Wm unit) (addresses : list Address) (result : option (Result unit Error)) :
    Wm (option (Result unit Error)) :=
  match addresses with
  | [] => wm_ret result
  | addr :: rest =>
      await r <- wm_try (f addr);
      attempts f rest (match result with Some (Ok _) => result | _ => Some r end)
  end.

Definition try_addresses_concurrently (addresses : list Address) (f : Address -> Wm unit) : Wm unit :=
  if is_nil addresses then wm_fail (ESync InvalidAddress)
  else
    await result <- attempts f addresses None;
    match result with
    | Some (Ok _) => wm_ret tt
    | Some (Err e) => wm_fail e
    | None => wm_fail (ESync InvalidAddress)
    end.

(** ** The background engine *)

(** Every parent is stored or in the batch. *)
Fixpoint check_parents (in_batch : gset ID) (es : list Entry) (inner : InMemoryInner) : Result unit Error :=
  match es with
  | [] => Ok tt
  | entry :: rest =>
      let? _ := (fix go (ps : list ID) : Result unit Error :=
                   match ps with
                   | [] => Ok tt
                   | p :: ps =>
                       if decide (p ∈ in_batch) then go ps
                       else match storage_get inner p with
                            | Ok _ => go ps
                            | Err e => Err (ESync (if Error_is_not_found e then InvalidEntry else SyncBackendError))
                            end
                   end) (Entry_parents entry) in
      check_parents in_batch rest inner
  end.

Definition bg_store_received_entries (tree_id : ID) (es : list Entry) : Nm unit :=
  if is_nil es then nm_ret tt
  else
    step _ <- nm_read (fun inner => Some (check_parents (list_to_set (Entry_id <$> es)) es inner));
    store_received_entries tree_id es.

Definition bg_handle_bootstrap_response (response : BootstrapResponse) : Nm unit :=
  if decide (Entry_id (br_root_entry response) <> br_tree_id response) then nm_fail (ESync InvalidEntry)
  else bg_store_received_entries (br_tree_id response) (br_root_entry response :: br_all_entries response).

Definition bg_handle_incremental_response (response : IncrementalResponse) : Nm unit :=
  bg_store_received_entries (ir_tree_id response) (ir_missing_entries response).

Definition bg_peer_info (peer : PublicKey) : Nm (DbHandle * Address) :=
  step db <- get_sync_tree device_key sync_tree_id;
  step info <- view db (get_peer_info set_order raw_cid read_strategy (db_root db) peer);
  match info with
  | None => nm_fail (ESync (PeerNotFound (PublicKey_to_string peer)))
  | Some peer_info =>
      match head (pi_addresses peer_info) with
      | None => nm_fail (ESync SyncNetwork)
      | Some addr => nm_ret (db, addr)
      end
  end.

Definition send_to_peer (peer : PublicKey) (es : list Entry) : Wm unit :=
  await (_, addr) <- at_node (bg_peer_info peer);
  await response <- send_sync_request addr (ReqSendEntries es);
  match response with
  | RespAck | RespCount _ => wm_ret tt
  | RespError => wm_fail (ESync SyncProtocolError)
  | _ => wm_fail (ESync (UnexpectedResponse "Ack or Count"))
  end.

Definition now_millis : Nm Z :=
  step t <- tick;
  nm_ret (clock_millis t None).

Definition add_to_retry_queue (peer : PublicKey) (es : list Entry) (now_ms : Z) : Wm unit :=
  await b <- background;
  set_retry_queue (retry_queue b ++ [mkRetryEntry peer es 1 now_ms]).

(** The entries of a batch that can be read. *)
Fixpoint fetch_entries (inner : InMemoryInner) (ids : list (ID * ID)) : list Entry :=
  match ids with
  | [] => []
  | (id, _) :: rest =>
      match storage_get inner id with
      | Ok e => e :: fetch_entries inner rest
      | Err _ => fetch_entries inner rest
      end
  end.

Fixpoint send_batches (batches : SyncQueue) (failures : nat) : Wm nat :=
  match batches with
  | [] => wm_ret failures
  | (peer, ids) :: rest =>
      await es <- at_node (nm_read (fun inner => Some (Ok (fetch_entries inner ids))));
      if is_nil es then send_batches rest failures
      else
        await r <- wm_try (send_to_peer peer es);
        match r with
        | Ok _ => send_batches rest failures
        | Err _ =>
            await now_ms <- at_node now_millis;
            await _ <- add_to_retry_queue peer es now_ms;
            send_batches rest (S failures)
        end
  end.

Definition process_queue : Wm nat := fun w =>
  let '(q, batches) := drain (w_queue w) in
  send_batches (peer_order batches) 0 (with_queue w q).

(** [2u64.pow(attempts.min(6)) * 1000]. *)
Definition backoff_ms (attempts : Z) : Z := 2 ^ (Z.min attempts 6) * 1000.

(** One entry that is sent again at [now_ms]: what stays of it. *)
Definition retry_one (now_ms : Z) (entry : RetryEntry) : Wm (list RetryEntry) :=
  await r <- wm_try (send_to_peer (re_peer entry) (re_entries entry));
  match r with
  | Ok _ => wm_ret []
  | Err _ =>
      let entry := mkRetryEntry (re_peer entry) (re_entries entry) (as_u32 (re_attempts entry + 1)) now_ms in
      wm_ret (if re_attempts entry <? 10 then [entry] else [])
  end.

Fixpoint retry_ready (now_ms : Z) (queue still_failed : list RetryEntry) : Wm (list RetryEntry) :=
  match queue with
  | [] => wm_ret still_failed
  | entry :: rest =>
      let elapsed_ms := Z.max 0 (now_ms - re_last_attempt_ms entry) in
      if backoff_ms (re_attempts entry) <=? elapsed_ms then
        await kept <- retry_one now_ms entry;
        retry_ready now_ms rest (still_failed ++ kept)
      else retry_ready now_ms rest (still_failed ++ [entry])
  end.

Definition process_retry_queue : Wm unit :=
  await now_ms <- at_node now_millis;
  await b <- background;
  await _ <- set_retry_queue [];
  await still_failed <- retry_ready now_ms (retry_queue b) [];
  set_retry_queue still_failed.

Fixpoint retry_all (now_ms : Z) (queue still_failed : list RetryEntry) : Wm (list RetryEntry) :=
  match queue with
  | [] => wm_ret still_failed
  | entry :: rest =>
      await kept <- retry_one now_ms entry;
      retry_all now_ms rest (still_failed ++ kept)
  end.

Definition flush_retry_queue : Wm nat :=
  await now_ms <- at_node now_millis;
  await b <- background;
  await _ <- set_retry_queue [];
  await still_failed <- retry_all now_ms (retry_queue b) [];
  await _ <- set_retry_queue still_failed;
  wm_ret (length still_failed).

(** [Sync::flush]. *)
Definition flush : Wm unit :=
  await _ <- background;
  await retry_failures <- flush_retry_queue;
  await queue_failures <- process_queue;
  match retry_failures, queue_failures with
  | O, O => wm_ret tt
  | _, _ => wm_fail (ESync SyncNetwork)
  end.

(** The trees and the address that a peer is synchronised with. *)
Definition bg_peer_trees (peer : PublicKey) : Nm (Address * list ID) :=
  step db <- get_sync_tree device_key sync_tree_id;
  view db (do info <- get_peer_info set_order raw_cid read_strategy (db_root db) peer;
           match info with
           | None => sync_error (PeerNotFound (PublicKey_to_string peer))
           | Some peer_info =>
               match head (pi_addresses peer_info) with
               | None => sync_error SyncNetwork
               | Some addr =>
                   do trees <- get_peer_trees set_order key_order raw_cid read_strategy (db_root db) peer;
                   tx_ret (addr, trees)
               end
           end).

(** The background engine's exchange of a tree: it only pulls. *)
Definition bg_sync_tree_with_peer (peer : PublicKey) (tree_id : ID) (addr : Address) : Wm unit :=
  await our_tips <- at_node (local_snapshot tree_id);
  await auth <- at_node (sign_request device_key peer tree_id our_tips);
  let request := mkSyncTreeRequest tree_id our_tips (Some instance_id) None None None None (Some auth) in
  await response <- send_sync_request addr (ReqSyncTree request);
  match response with
  | RespBootstrap r => at_node (bg_handle_bootstrap_response r)
  | RespIncremental r => at_node (bg_handle_incremental_response r)
  | RespError => wm_fail (ESync SyncProtocolError)
  | _ => wm_fail (ESync (UnexpectedResponse "Bootstrap or Incremental"))
  end.

(** The failure of one tree is only logged. *)
Fixpoint bg_sync_trees (peer : PublicKey) (addr : Address) (trees : list ID) : Wm unit :=
  match trees with
  | [] => wm_ret tt
  | tree_id :: rest =>
      await _ <- wm_try (bg_sync_tree_with_peer peer tree_id addr);
      bg_sync_trees peer addr rest
  end.

Definition bg_sync_with_peer (peer : PublicKey) : Wm unit :=
  await (addr, trees) <- at_node (bg_peer_trees peer);
  bg_sync_trees peer addr trees.

Fixpoint bg_sync_peers (peers : list PeerInfo) : Wm unit :=
  match peers with
  | [] => wm_ret tt
  | peer_info :: rest =>
      if decide (pi_status peer_info = PeerActive) then
        await _ <- wm_try (bg_sync_with_peer (pi_id peer_info));
        bg_sync_peers rest
      else bg_sync_peers rest
  end.

Definition periodic_sync_all_peers : Wm unit :=
  await peers <- wm_try (at_node (step db <- get_sync_tree device_key sync_tree_id;
                                  view db (list_peers set_order key_order raw_cid read_strategy (db_root db))));
  match peers with
  | Ok peers => bg_sync_peers peers
  | Err _ => wm_ret tt
  end.

(** The smallest interval of the databases named in [keys]. *)
Fixpoint min_interval (root : ID) (keys : list string) (acc : option Z) : Tx (option Z) :=
  match keys with
  | [] => tx_ret acc
  | key :: rest =>
      match ID_parse key with
      | Err _ => min_interval root rest acc
      | Ok db_id =>
          do settings <- tx_try (get_combined_settings set_order raw_cid read_strategy root db_id);
          min_interval root rest
            (match settings with
             | Ok (Some settings) =>
                 match interval_seconds settings, acc with
                 | Some interval, Some current_min => Some (Z.min current_min interval)
                 | Some interval, None => Some interval
                 | None, _ => acc
                 end
             | _ => acc
             end)
      end
  end.

Definition get_min_sync_interval : Nm (option Z) :=
  step r <- nm_try (step db <- get_sync_tree device_key sync_tree_id;
                    let root := db_root db in
                    view db (do _ <- open_store set_order raw_cid read_strategy root DATABASE_USERS_SUBTREE;
                             do all_dbs <- DocStore_get_all set_order raw_cid root DATABASE_USERS_SUBTREE;
                             min_interval root (key_order (Doc_keys all_dbs)) None));
  nm_ret (match r with Ok interval => interval | Err _ => None end).

(** ** Servers *)

Definition with_transports (m : TransportManager) : Wm unit := fun w =>
  Some (Done (with_background w ((fun b => mkBackgroundSync m (retry_queue b)) <$> w_background w), Ok tt)).

Definition command_servers (f : TransportManager -> Net -> TransportManager * Net * Result unit Error) : Wm unit :=
  await b <- background;
  fun w =>
    let '(m, net, r) := f (transport_manager b) (w_net w) in
    match with_transports m (with_net w net) with
    | Some (Done (w, _)) => Some (Done (w, r))
    | o => o
    end.

Definition accept_connections : Wm unit := command_servers (start_all_servers name_order).
Definition accept_connections_on (name : string) : Wm unit := command_servers (fun m => manager_start_server m name).
Definition Sync_stop_server : Wm unit := command_servers (stop_all_servers name_order).

Definition get_server_address_for (name : string) : Wm string :=
  await b <- background;
  match manager_server_address (transport_manager b) name with
  | Ok a => wm_ret a
  | Err e => wm_fail e
  end.

Definition Sync_get_all_server_addresses : Wm (list (string * string)) :=
  await b <- background;
  wm_ret (get_all_server_addresses name_order (transport_manager b)).

Definition Sync_get_server_address : Wm string :=
  await addresses <- Sync_get_all_server_addresses;
  match head addresses with
  | Some (_, addr) => wm_ret addr
  | None => wm_fail (ESync ServerNotRunning)
  end.

Definition start_background_sync : Wm unit := fun w =>
  match w_background w with
  | Some _ => Some (Done (w, Ok tt))
  | None => Some (Done (with_background w (Some (mkBackgroundSync ∅ [])), Ok tt))
  end.

Definition add_transport (name : string) (transport : Transport) : Wm unit :=
  await _ <- start_background_sync;
  await b <- background;
  fun w =>
    let '(m, net) := replace_transport (transport_manager b) name transport (w_net w) in
    with_transports m (with_net w net).

Definition TRANSPORT_STATE_STORE : string := "transport_state".

Definition load_transport_state (name : string) : Nm Doc :=
  view sync_tree
    (do _ <- open_store set_order raw_cid read_strategy sync_tree_id TRANSPORT_STATE_STORE;
     do r <- tx_try (DocStore_get set_order raw_cid sync_tree_id TRANSPORT_STATE_STORE name);
     match r with
     | Ok (VDoc doc) => tx_ret doc
     | Ok _ => tx_ret Doc_new
     | Err e => if Error_is_not_found e then tx_ret Doc_new else tx_fail e
     end).

Definition save_transport_state (name : string) (state : Doc) : Nm unit :=
  update sync_tree
    (do _ <- open_store set_order raw_cid read_strategy sync_tree_id TRANSPORT_STATE_STORE;
     DocStore_set sync_tree_id TRANSPORT_STATE_STORE name (VDoc state)).

(** [build] is the builder of the transport. *)
Definition register_transport (name : string) (build : Doc -> Result (Transport * option Doc) Error) : Wm unit :=
  await persisted <- at_node (load_transport_state name);
  match build persisted with
  | Err e => wm_fail e
  | Ok (transport, updated) =>
      await _ <- match updated with
                 | Some state => at_node (save_transport_state name state)
                 | None => wm_ret tt
                 end;
      add_transport name transport
  end.

(** ** Settings of the sync database *)

Definition SETTINGS_SUBTREE : string := "settings_map".

Definition set_setting (key value : string) : Nm unit :=
  update sync_tree
    (do _ <- open_store set_order raw_cid read_strategy sync_tree_id SETTINGS_SUBTREE;
     DocStore_set sync_tree_id SETTINGS_SUBTREE key (Text value)).

Definition get_setting (key : string) : Nm (option string) :=
  view sync_tree
    (do _ <- open_store set_order raw_cid read_strategy sync_tree_id SETTINGS_SUBTREE;
     do r <- tx_try (DocStore_get_string set_order raw_cid sync_tree_id SETTINGS_SUBTREE key);
     match r with
     | Ok value => tx_ret (Some value)
     | Err e => if Error_is_not_found e then tx_ret None else tx_fail e
     end).

(** ** Entries to send *)

Definition send_entries (es : list Entry) (addr : Address) : Wm unit :=
  await response <- send_request (ReqSendEntries es) addr;
  match response with
  | RespAck | RespCount _ => wm_ret tt
  | RespError => wm_fail (ESync SyncProtocolError)
  | _ => wm_fail (ESync (UnexpectedResponse "Ack or Count"))
  end.

(** The [SendEntries] command: a failure goes to the retry queue. *)
Definition send_entries_to_peer (peer : PublicKey) (es : list Entry) : Wm unit :=
  await _ <- background;
  await r <- wm_try (send_to_peer peer es);
  match r with
  | Ok _ => wm_ret tt
  | Err _ => await now_ms <- at_node now_millis; add_to_retry_queue peer es now_ms
  end.

Definition queue_entry_for_sync (peer : PublicKey) (entry_id tree_id : ID) : Wm unit :=
  await _ <- background;
  fun w => Some (Done (with_queue w (enqueue (w_queue w) peer entry_id tree_id), Ok tt)).

Fixpoint queue_for_peers (peers : list PublicKey) (entry_id tree_id : ID) : Wm unit :=
  match peers with
  | [] => wm_ret tt
  | peer :: rest =>
      await _ <- queue_entry_for_sync peer entry_id tree_id;
      queue_for_peers rest entry_id tree_id
  end.

Fixpoint queue_new_entries (peers : list PublicKey) (tree_id : ID) (ids : list ID) : Wm unit :=
  match ids with
  | [] => wm_ret tt
  | entry_id :: rest =>
      await _ <- queue_for_peers peers entry_id tree_id;
      queue_new_entries peers tree_id rest
  end.

(** The peers that a write to [tree_id] is sent to: none unless sync is enabled and
    wanted on commit. *)
Definition write_peers (tree_id : ID) : Nm (list PublicKey) :=
  view sync_tree
    (do settings <- get_combined_settings set_order raw_cid read_strategy sync_tree_id tree_id;
     match settings with
     | None => tx_ret []
     | Some s =>
         if negb (sync_enabled s) || negb (sync_on_commit s) then tx_ret []
         else get_tree_peers set_order raw_cid read_strategy sync_tree_id tree_id
     end).

Definition db_ids_added (prev post : Snapshot) : Nm (list ID) := fun n =>
  match ids_added set_order map_order (node_engine n) prev post with
  | None => None
  | Some Panic => Some Panic
  | Some (Done r) => Some (Done (n, r))
  end.

Definition on_local_write (event : WriteEvent) (tree_id : ID) : Wm unit := fun w =>
  match w_background w with
  | None => Some (Done (w, Ok tt))
  | Some _ =>
      (await peers <- at_node (write_peers tree_id);
       if is_nil peers then wm_ret tt
       else
         await new_ids <- at_node (db_ids_added (previous_tips event) (post_tips event));
         queue_new_entries peers tree_id new_ids) w
  end.
End client.
