(* ===== verification/SyncEngine.v ===== *)
(** * The loop of the background engine (sync/background/mod.rs)

    The commands that the front end sends and the timers that fire, one at a time.
    The functions of [SyncClient] that send a command and wait are what
    the loop does with the command. *)

From S2P Require Import Prelude.
From S2P Require Import Path.
From S2P Require Import Position.
From S2P Require Import Ids.
From S2P Require Import Doc.
From S2P Require Import DocPath.
From S2P Require Import Errors.
From S2P Require Import Crypto.
From S2P Require Import Permission.
From S2P Require Import AuthTypes.
From S2P Require Import AuthSettings.
From S2P Require Import Entry.
From S2P Require Import Backend.
From S2P Require Import Traversal.
From S2P Require Import CrdtCache.
From S2P Require Import BackendSteps.
From S2P Require Import Reachability.
From S2P Require Import Validation.
From S2P Require Import Verify.
From S2P Require Import InstanceOps.
From S2P Require Import WireCodec.
From S2P Require Import Transaction.
From S2P Require Import Stores.
From S2P Require Import StoreView.
From S2P Require Import Commit.
From S2P Require Import TxFrame.
From S2P Require Import CommitSpec.
From S2P Require Import Lifecycle.
From S2P Require Import Settings.
From S2P Require Import Table.
From S2P Require Import Node.
From S2P Require Import Peers.
From S2P Require Import Worklist.
From S2P Require Import Frontier.
From S2P Require Import StoreTips.
From S2P Require Import MergeBase.
From S2P Require Import StoreState.
From S2P Require Import SyncWalk.
From S2P Require Import SyncAuth.
From S2P Require Import UserSync.
From S2P Require Import Bootstrap.
From S2P Require Import SyncHandler.
From S2P Require Import IdsAdded.
From S2P Require Import SyncTransport.
From S2P Require Import SyncClient.

Section engine_loop.
Context `{IS : InstanceSpec} `{JS : !JsonSpec} `{LS : !LruSpec CacheKey (list Byte.byte)} `{PJ : PeerJson} `{UJ : UserJson}.
Context `{NE : !NodeEnv} `{RQ : !RowCodec BootstrapRequest} `{ST : !SyncTransport}.
Context (name_order : gmap string Transport -> list (string * Transport)).
Context (peer_order : SyncQueue -> SyncQueue).
Context (device_key : PrivateKey) (sync_tree : DbHandle).
(** [tokio::time::interval] of a number of seconds. *)
Context (interval : Z -> Outcome unit).

Inductive SyncCommand : Type :=
| SendEntries (peer : PublicKey) (es : list Entry)
| SyncWithPeer (peer : PublicKey)
| Shutdown
| AddTransport (name : string) (transport : Transport)
| StartServer (name : option string)
| StopServer (name : option string)
| GetServerAddress (name : string)
| GetAllServerAddresses
| ConnectToPeer (addr : Address)
| SendRequest (addr : Address) (request : SyncRequest)
| Flush.

(** What is sent back over the channel of the command, if it has one. *)
Inductive CommandReply : Type :=
| NoReply
| ReplyUnit (r : Result unit Error)
| ReplyAddress (r : Result string Error)
| ReplyAddresses (r : Result (list (string * string)) Error)
| ReplyKey (r : Result PublicKey Error)
| ReplyResponse (r : Result SyncResponse Error).

Definition engine_start_server (name : option string) : Wm unit :=
  command_servers (match name with
                   | Some name => fun m => manager_start_server m name
                   | None => start_all_servers name_order
                   end).

Definition engine_stop_server (name : option string) : Wm unit :=
  command_servers (match name with
                   | Some name => fun m => manager_stop_server m name
                   | None => stop_all_servers name_order
                   end).

Definition reply {A} (mk : Result A Error -> CommandReply) (m : Wm A) : Wm CommandReply :=
  await r <- wm_try m;
  wm_ret (mk r).

Definition handle_command (command : SyncCommand) : Wm CommandReply :=
  match command with
  | SendEntries peer es =>
      await r <- wm_try (send_to_peer name_order device_key sync_tree peer es);
      match r with
      | Ok _ => wm_ret NoReply
      | Err _ =>
          await now_ms <- at_node now_millis;
          await _ <- add_to_retry_queue peer es now_ms;
          wm_ret NoReply
      end
  | SyncWithPeer peer =>
      await _ <- wm_try (bg_sync_with_peer name_order device_key sync_tree peer);
      wm_ret NoReply
  | AddTransport name transport =>
      await b <- background;
      await _ <- (fun w =>
        let '(m, net) := replace_transport (transport_manager b) name transport (w_net w) in
        with_transports m (with_net w net));
      wm_ret (ReplyUnit (Ok tt))
  | StartServer name => reply ReplyUnit (engine_start_server name)
  | StopServer name => reply ReplyUnit (engine_stop_server name)
  | GetServerAddress name =>
      await b <- background;
      wm_ret (ReplyAddress (manager_server_address (transport_manager b) name))
  | GetAllServerAddresses =>
      await b <- background;
      wm_ret (ReplyAddresses (Ok (get_all_server_addresses name_order (transport_manager b))))
  | ConnectToPeer addr => reply ReplyKey (connect_to_peer name_order device_key sync_tree addr)
  | SendRequest addr request => reply ReplyResponse (send_sync_request name_order addr request)
  | Flush =>
      await retry_failures <- flush_retry_queue name_order device_key sync_tree;
      await queue_failures <- process_queue name_order peer_order device_key sync_tree;
      wm_ret (ReplyUnit (match retry_failures, queue_failures with
                         | O, O => Ok tt
                         | _, _ => Err (ESync SyncNetwork)
                         end))
  | Shutdown => wm_fail (ESync SyncNetwork)
  end.

(** The branches of the loop. *)
Inductive LoopEvent : Type :=
| OnCommand (command : SyncCommand)
| QueueCheck
| PeriodicSync
| RetryCheck
| ConnectionCheck
| SettingsCheck.

Definition set_timer (seconds : Z) : Wm unit := fun w =>
  match interval seconds with
  | Panic => Some Panic
  | Done _ => Some (Done (w, Ok tt))
  end.

(** Before the loop: the timer of the periodic exchange. *)
Definition run_start : Wm Z :=
  await min <- at_node (get_min_sync_interval device_key sync_tree);
  let current_interval_secs := default 300 min in
  await _ <- set_timer current_interval_secs;
  wm_ret current_interval_secs.

(** One turn of the loop; an error of a command is only logged. *)
Definition run_turn (event : LoopEvent) (current_interval_secs : Z) : Wm Z :=
  match event with
  | OnCommand command =>
      await _ <- wm_try (handle_command command);
      wm_ret current_interval_secs
  | QueueCheck =>
      await _ <- process_queue name_order peer_order device_key sync_tree;
      wm_ret current_interval_secs
  | PeriodicSync =>
      await _ <- periodic_sync_all_peers name_order device_key sync_tree;
      wm_ret current_interval_secs
  | RetryCheck =>
      await _ <- process_retry_queue name_order device_key sync_tree;
      wm_ret current_interval_secs
  | ConnectionCheck => wm_ret current_interval_secs
  | SettingsCheck =>
      await min <- at_node (get_min_sync_interval device_key sync_tree);
      match min with
      | Some new_interval =>
          if new_interval =? current_interval_secs then wm_ret current_interval_secs
          else
            await _ <- set_timer new_interval;
            wm_ret new_interval
      | None => wm_ret current_interval_secs
      end
  end.

Fixpoint run_loop (events : list LoopEvent) (current_interval_secs : Z) : Wm Z :=
  match events with
  | [] => wm_ret current_interval_secs
  | event :: rest =>
      await secs <- run_turn event current_interval_secs;
      run_loop rest secs
  end.

(** ** Commands and the functions that send them *)

(** A function of the front end that sends a command and waits for the reply. *)
Definition sent {A} (command : SyncCommand) (read : CommandReply -> option (Result A Error)) : Wm A :=
  await _ <- background;
  await r <- handle_command command;
  match read r with
  | Some (Ok a) => wm_ret a
  | Some (Err e) => wm_fail e
  | None => wm_fail (ESync SyncNetwork)
  end.

Definition read_unit (r : CommandReply) : option (Result unit Error) := match r with ReplyUnit r => Some r | _ => None end.
Definition read_key (r : CommandReply) : option (Result PublicKey Error) := match r with ReplyKey r => Some r | _ => None end.
Definition read_response (r : CommandReply) : option (Result SyncResponse Error) :=
  match r with ReplyResponse r => Some r | _ => None end.

(** Waiting for the reply is running the operation, if the operation checks first
    that the engine runs. *)
Lemma sent_reply {A} (command : SyncCommand) (mk : Result A Error -> CommandReply) read (m : Wm A) w :
  handle_command command = reply mk m -> (forall r, read (mk r) = Some r) ->
  (w_background w = None -> m w = Some (Done (w, Err (ESync NoTransportEnabled)))) ->
  sent command read w = m w.
Proof.
  intros Hc Hr Hn. unfold sent, reply, wm_bind, background. destruct (w_background w) eqn:Eb; [|by rewrite Hn].
  rewrite Hc. unfold reply, wm_bind, wm_try, wm_ret. destruct (m w) as [[[w1 r]|]|]; [|done..]. rewrite Hr. by destruct r.
Qed.

Lemma sent_flush w : sent Flush read_unit w = flush name_order peer_order device_key sync_tree w.
Proof.
  unfold sent, flush. unfold wm_bind at 1 3. destruct (background w) as [[[w0 [b|e]]|]|]; [|done..].
  unfold handle_command, wm_bind. destruct (flush_retry_queue _ _ _ w0) as [[[w1 [k|e]]|]|]; [|done..].
  destruct (process_queue _ _ _ _ w1) as [[[w2 [k2|e]]|]|]; [|done..]. by destruct k, k2.
Qed.

(** The functions of the front end are the replies to the commands that they send. *)
Lemma commands_inline w :
  (forall addr, sent (ConnectToPeer addr) read_key w = connect_to_peer name_order device_key sync_tree addr w)
  /\ (forall addr request, sent (SendRequest addr request) read_response w = send_request name_order request addr w)
  /\ sent (StartServer None) read_unit w = accept_connections name_order w
  /\ (forall name, sent (StartServer (Some name)) read_unit w = accept_connections_on name w)
  /\ sent (StopServer None) read_unit w = Sync_stop_server name_order w
  /\ sent Flush read_unit w = flush name_order peer_order device_key sync_tree w.
Proof.
  assert (forall A (k : BackgroundSync -> Wm A), w_background w = None ->
    wm_bind background k w = Some (Done (w, Err (ESync NoTransportEnabled)))) as Hb.
  { intros A k E. unfold wm_bind, background. by rewrite E. }
  split_and!; intros; try apply sent_flush; (eapply sent_reply; [done|done|apply Hb]).
Qed.

(** ** The timer of the periodic exchange *)

(** An interval of zero seconds, which the settings of a database may have, stops
    the engine: the timer's documented panic ends the loop, and no command is handled
    after it. *)
Lemma zero_interval_panics event w n secs :
  interval 0 = Panic ->
  get_min_sync_interval device_key sync_tree (w_node w) = Some (Done (n, Ok (Some 0))) ->
  run_start w = Some Panic /\ (secs <> 0 -> event = SettingsCheck -> run_turn event secs w = Some Panic).
Proof.
  intros Hi Hm. unfold run_start, run_turn, wm_bind, at_node. split; [|intros Hs ->]; rewrite Hm.
  - simpl. unfold set_timer. by rewrite Hi.
  - rewrite (proj2 (Z.eqb_neq 0 secs)) by done. unfold set_timer. by rewrite Hi.
Qed.
End engine_loop.
