(* ===== verification/SyncExchange.v ===== *)
(** * Exchanging a tree with a peer

    Two instances, one that asks and one that serves, over a network that carries
    each request to the handler of the server.  Shown here: after an exchange that
    succeeds both hold every entry of the tree that either held before. *)

From S2P Require Import Prelude.
From S2P Require Import Path.
From S2P Require Import Position.
From S2P Require Import Ids.
From S2P Require Import Doc.
From S2P Require Import DocPath.
From S2P Require Import Errors.
From S2P Require Import Crypto.
From S2P Require Import Permission.
From S2P Require Import AuthTypes.
From S2P Require Import AuthSettings.
From S2P Require Import Entry.
From S2P Require Import Backend.
From S2P Require Import Traversal.
From S2P Require Import CrdtCache.
From S2P Require Import BackendSteps.
From S2P Require Import Reachability.
From S2P Require Import Validation.
From S2P Require Import Verify.
From S2P Require Import InstanceOps.
From S2P Require Import WireCodec.
From S2P Require Import Transaction.
From S2P Require Import Stores.
From S2P Require Import StoreView.
From S2P Require Import Commit.
From S2P Require Import TxFrame.
From S2P Require Import CommitSpec.
From S2P Require Import Lifecycle.
From S2P Require Import Settings.
From S2P Require Import Table.
From S2P Require Import Node.
From S2P Require Import Peers.
From S2P Require Import Worklist.
From S2P Require Import Frontier.
From S2P Require Import StoreTips.
From S2P Require Import MergeBase.
From S2P Require Import StoreState.
From S2P Require Import SyncWalk.
From S2P Require Import SyncAuth.
From S2P Require Import UserSync.
From S2P Require Import Bootstrap.
From S2P Require Import SyncHandler.
From S2P Require Import IdsAdded.
From S2P Require Import SyncTransport.
From S2P Require Import SyncClient.

(** ** The union of two histories *)

#[export] Instance in_history_dec `{CD : CodecSpec} es tree x : Decision (in_history es tree x).
Proof.
  unfold in_history. destruct (es !! x) as [e|] eqn:He; [|right; naive_solver].
  destruct (in_tree e tree) eqn:Ht; [left; by exists e|right; naive_solver congruence].
Defined.

Section union.
Context `{CD : CodecSpec}.
Context (es1 es2 es : gmap ID Entry) (tree : ID).

(** [es] holds both histories of the tree, and nothing else of it. *)
Record unites : Prop := {
  un_ids : ids_ok es;
  un_left id e : es1 !! id = Some e -> in_tree e tree = true -> es !! id = Some e;
  un_right id e : es2 !! id = Some e -> in_tree e tree = true -> es !! id = Some e;
  un_only id e : es !! id = Some e -> in_tree e tree = true -> es1 !! id = Some e \/ es2 !! id = Some e;
}.

Hypothesis (H1 : tree_history es1 tree) (H2 : tree_history es2 tree) (Hag : agree es1 es2) (Hu : unites).

Lemma union_edge x y :
  tree_edge es tree x y ->
  (tree_edge es1 tree x y /\ in_history es1 tree y) \/ (tree_edge es2 tree x y /\ in_history es2 tree y).
Proof.
  intros (e & He & Hm & Hy). destruct (un_only Hu x e He Hm) as [Hx|Hx]; [left|right];
    (assert (tree_edge _ tree x y) as Hed by (exists e; split; [exact Hx|done])); (split; [done|]).
  - by apply (th_closed _ _ H1 x).
  - by apply (th_closed _ _ H2 x).
Qed.

Lemma edge_from_left x y : in_history es1 tree x -> tree_edge es tree x y -> tree_edge es1 tree x y /\ in_history es1 tree y.
Proof.
  intros (e1 & Hx & Hm) (e & He & Hme & Hy). assert (e1 = e) as -> by (pose proof (un_left Hu _ _ Hx Hm); congruence).
  assert (tree_edge es1 tree x y) as Hed by (exists e; done). split; [done|]. by apply (th_closed _ _ H1 x).
Qed.

Lemma union_acyclic : acyclic es tree.
Proof.
  destruct (th_acyclic _ _ H1) as [r1 Hr1], (th_acyclic _ _ H2) as [r2 Hr2]. destruct (rank_bound es1 r1) as [m Hm].
  exists (fun x => if decide (in_history es1 tree x) then r1 x else S (m + r2 x)).
  intros x y Hxy. destruct (decide (in_history es1 tree x)) as [Hx|Hx].
  - destruct (edge_from_left x y Hx Hxy) as [Hed Hy]. rewrite decide_True by done. by apply Hr1.
  - destruct (union_edge x y Hxy) as [[(e & He & Hme & _) _]|[Hed _]]; [destruct Hx; by exists e|].
    destruct (decide _) as [(e & He & _)|]; [|apply Hr2 in Hed; lia]. specialize (Hm y (ex_intro _ e He)). lia.
Qed.

Lemma union_history : tree_history es tree.
Proof.
  split; [|exact union_acyclic|].
  - intros e He. assert (in_tree e tree = true) as Hm by (apply in_tree_cases; right; by apply (un_ids Hu)).
    destruct (un_only Hu _ _ He Hm) as [Hx|Hx]; [by apply (th_proper _ _ H1)|by apply (th_proper _ _ H2)].
  - intros x y [[_ (e & He & Hm)]|[_ (e & He & Hm)]]%union_edge; exists e; (split; [|done]);
      [by apply (un_left Hu)|by apply (un_right Hu)].
Qed.
End union.

(** Entries outside a tree do not matter to its history. *)
Lemma history_grows `{CD : CodecSpec} es es' tree :
  tree_history es tree -> ids_ok es' -> es ⊆ es' ->
  (forall id e, es' !! id = Some e -> es !! id = Some e \/ in_tree e tree = false) ->
  tree_history es' tree.
Proof.
  intros H Hids Hsub Hnew. apply (union_history es es es'); [done..|]. split; [done| | |].
  - intros id e He _. by eapply lookup_weaken.
  - intros id e He _. by eapply lookup_weaken.
  - intros id e He Hm. destruct (Hnew id e He); [by left|congruence].
Qed.

(** ** Writes to other trees *)

Section spares.
Context `{IS : InstanceSpec} `{JS : !JsonSpec} `{LS : !LruSpec CacheKey (list Byte.byte)} `{PJ : PeerJson} `{UJ : UserJson}.
Context `{NE : !NodeEnv} (tree : ID).

(** [m] keeps every entry and adds none to the tree. *)
Definition spares {A} (m : Nm A) : Prop := forall n n' r,
  node_ok n -> is_Some (entries (node_engine n) !! tree) -> m n = Some (Done (n', r)) ->
  node_ok n' /\ entries (node_engine n) ⊆ entries (node_engine n')
  /\ forall id e, entries (node_engine n') !! id = Some e -> entries (node_engine n) !! id = Some e \/ in_tree e tree = false.

Lemma spares_reads {A} (m : Nm A) : reads m -> spares m.
Proof. intros Hm n n' r Hn _ E. destruct (Hm _ _ _ Hn E) as [? ->]. split; [done|]. split; [done|]. auto. Qed.

Lemma spares_bind {A B} (m : Nm A) (k : A -> Nm B) : spares m -> (forall a, spares (k a)) -> spares (nm_bind m k).
Proof.
  intros Hm Hk n n' r Hn Ht. unfold nm_bind. destruct (m n) as [[[n1 [a|e]]|]|] eqn:E; [| |done..]; intros H.
  - destruct (Hm _ _ _ Hn Ht E) as (Hn1 & Hs1 & Ho1).
    assert (is_Some (entries (node_engine n1) !! tree)) as Ht1 by (destruct Ht as [x Hx]; exists x; by eapply lookup_weaken).
    destruct (Hk a _ _ _ Hn1 Ht1 H) as (Hn2 & Hs2 & Ho2). split; [done|]. split; [by etrans|].
    intros id e He. destruct (Ho2 id e He) as [?|?]; [by apply Ho1|by right].
  - injection H as <- <-. by apply (Hm _ _ _ Hn Ht E).
Qed.

Lemma spares_try {A} (m : Nm A) : spares m -> spares (nm_try m).
Proof.
  intros Hm n n' r Hn Ht. unfold nm_try. destruct (m n) as [[[n1 r1]|]|] eqn:E; [|done..]. intros [= <- <-].
  by apply (Hm _ _ _ Hn Ht E).
Qed.

Lemma commit_spares db t n n' r :
  node_ok n -> txn_ok t -> is_Some (entries (node_engine n) !! tree) ->
  (exists b, entry_builder t = Some b /\ tn_root (b_tree b) = opt_root (db_root db)) -> db_root db <> tree ->
  db_commit set_order map_order key_order raw_cid read_strategy clock_millis db t n = Some (Done (n', r)) ->
  node_ok n' /\ entries (node_engine n) ⊆ entries (node_engine n')
  /\ forall id e, entries (node_engine n') !! id = Some e -> entries (node_engine n) !! id = Some e \/ in_tree e tree = false.
Proof.
  intros [Hm Hc] Ht Hroot (b & Hb & Hbr) Hne. unfold db_commit, nm_bind, tick. cbn [n_tick n_inst n_cache n_events].
  set (n1 := mkNode _ _ _ _). set (c := mkCommitState _ _ _). assert (tx_inv (c_tx c)) as Hs by (by split).
  pose proof (commit_cases set_order map_order key_order raw_cid read_strategy (clock_millis (n_tick n)) (db_root db)
    ((fun k => (dk_signing_key k, dk_identity k)) <$> db_key db) (db_allow_unverified db) false set_order_ok map_order_ok
    c b Hs Hb) as H.
  unfold ends in H. destruct (commit _ _ _ _ _ _ _ _ _ _ c) as [[[c' [id|e]]|]|]; [| |done..]; intros [= <- <-].
  - destruct H as (c1 & e & sk & identity & snap & eff & auth & Hrun & -> & [Hm' Hc' _] & He & _).
    pose proof (ek_entries _ _ (cs_engine _ _ (cr_step _ _ _ _ _ _ _ _ _ _ _ _ _ _ _ _ _ Hrun))) as Hent.
    split; [by split|]. unfold node_engine at 2 3. cbn [n_inst engine with_engine]. rewrite He, Hent.
    split; [apply map_union_subseteq_l|]. intros id e' [?|[Hno Hid]]%lookup_union_Some_raw; [by left|].
    apply lookup_singleton_Some in Hid as [<- <-]. right. apply not_true_iff_false. rewrite in_tree_cases.
    rewrite (ce_root _ _ _ _ _ _ _ (cr_entry _ _ _ _ _ _ _ _ _ _ _ _ _ _ _ _ _ Hrun)), Hbr. unfold opt_root. intros [?|Hid]; [by case_match; congruence|].
    rewrite Hid in Hno. destruct Hroot as [x Hx]. change (entries (node_engine n) !! tree = None) in Hno. congruence.
  - destruct H as [[Hm' Hc' _] [_ He _ _] _ _]. split; [by split|]. unfold node_engine at 2 3. cbn [n_inst engine with_engine].
    rewrite He. split; [done|]. auto.
Qed.

Lemma spares_update {A} db (m : Tx A) : staging m -> db_root db <> tree -> spares (update db m).
Proof.
  intros Hst Hne n n' r Hn Ht. unfold update, with_transaction.
  pose proof (nsafe_new_transaction map_order map_order_ok db n Hn) as Hnt. unfold nm_bind at 1.
  destruct (db_new_transaction map_order db n) as [[[n1 [t|e]]|]|] eqn:E1; [| |done..].
  2: { intros [= <- <-]. eapply spares_reads; [apply (reads_new_transaction map_order map_order_ok db)|done..|exact E1]. }
  destruct (reads_new_transaction _ map_order_ok _ _ _ _ Hn E1) as [Hn1 He1]. destruct Hnt as (_ & _ & Htx).
  specialize (Htx t eq_refl). destruct (new_transaction_root _ _ _ _ E1) as (_ & b & Hb & Hbr).
  unfold nm_bind at 1. unfold in_tx. assert (tx_inv (with_mem t (node_mem n1))) as Hs by (destruct Hn1; by split).
  specialize (Hst _ Hs). destruct (m _) as [[[s r1]|]|]; [|done..]. destruct Hst as [[Hm' Hc' Hb'] [He' _ Hpl]].
  cbn [mem_inner tx_mem with_mem node_mem] in He'.
  assert (node_ok (with_node_mem n1 (tx_mem s)) /\ entries (node_engine (with_node_mem n1 (tx_mem s))) = entries (node_engine n))
    as [Hn2 He2] by (split; [by split|rewrite <- He1; exact He']).
  destruct r1 as [a|e]; cbn [result_bind]; [|intros [= <- <-]; rewrite He2; split; [done|]; split; [done|auto]].
  assert (exists b, entry_builder s = Some b /\ tn_root (b_tree b) = opt_root (db_root db)) as Hbs.
  { cbn [entry_builder with_mem] in Hpl. rewrite Hb in Hpl. destruct (entry_builder s) as [b'|]; [|done].
    injection Hpl as Hr _. exists b'. split; [done|congruence]. }
  unfold nm_bind. destruct (db_commit _ _ _ _ _ _ _ _ _) as [[[n3 [id|e]]|]|] eqn:E3; [| |done..]; intros [= <- <-];
    rewrite <- He2; (eapply commit_spares; [done|exact Hb'|by rewrite He2|done..|exact E3]).
Qed.
End spares.

(** ** What the server does *)

Section server.
Context `{IS : InstanceSpec} `{JS : !JsonSpec} `{LS : !LruSpec CacheKey (list Byte.byte)} `{PJ : PeerJson} `{UJ : UserJson}.
Context `{NE : !NodeEnv} `{RQ : !RowCodec BootstrapRequest}.
Context (instance_id : PublicKey) (device_key : PrivateKey) (sync_tree_id : ID).

Lemma spares_track tree t peer :
  sync_tree_id <> tree -> spares tree (track_tree_sync_relationship device_key sync_tree_id t peer).
Proof.
  intros Hne n n' r Hn Ht H. unfold track_tree_sync_relationship in H. unfold nm_bind in H.
  pose proof (nsafe_open sync_tree_id n Hn) as Hop.
  assert (reads (get_sync_tree device_key sync_tree_id)) as Hr by (unfold get_sync_tree, open_with_device_key; only_reads).
  destruct (get_sync_tree device_key sync_tree_id n) as [[[n1 [db|e]]|]|] eqn:E; [| |done..].
  - destruct (Hr _ _ _ Hn E) as [Hn1 He1]. rewrite <- He1 in Ht |- *. eapply (spares_update tree db); [| |done|done|exact H].
    + eauto with staging.
    + unfold get_sync_tree, open_with_device_key in E. apply nm_bind_ok in E as (n2 & db0 & E0 & E). injection E as <- <-.
      rewrite E0 in Hop. destruct Hop as (_ & _ & Hop). by rewrite (Hop db0 eq_refl).
  - injection H as <- <-. eapply spares_reads; [exact Hr|done..|exact E].
Qed.

(** An answer with entries comes from one of the two collections, after the
    relationship was recorded. *)
Lemma served_inv request context spent n n' spent' resp :
  node_ok n -> is_Some (entries (node_engine n) !! sr_tree_id request) -> sync_tree_id <> sr_tree_id request ->
  discloses resp ->
  handle_sync_tree instance_id device_key sync_tree_id request context spent n = Some (Done (n', Ok (spent', resp))) ->
  exists n1, node_ok n1 /\ entries (node_engine n) ⊆ entries (node_engine n1)
    /\ (forall id e, entries (node_engine n1) !! id = Some e ->
          entries (node_engine n) !! id = Some e \/ in_tree e (sr_tree_id request) = false)
    /\ ((is_nil (tips (sr_our_tips request)) = true
           /\ exists b o, bootstrap_entries (sr_tree_id request) b o n1 = Some (Done (n', Ok resp)))
        \/ (is_nil (tips (sr_our_tips request)) = false
           /\ incremental_entries (sr_tree_id request) (tips (sr_our_tips request)) n1 = Some (Done (n', Ok resp)))).
Proof.
  intros Hn Ht Hne Hd H. apply nm_bind_ok in H as (n0 & [] & E & H).
  assert (node_ok n0 /\ entries (node_engine n) ⊆ entries (node_engine n0)
    /\ forall id e, entries (node_engine n0) !! id = Some e ->
         entries (node_engine n) !! id = Some e \/ in_tree e (sr_tree_id request) = false) as (Hn0 & Hs0 & Ho0).
  { destruct (rc_peer_pubkey context) as [peer|]; [|injection E as <-; auto].
    eapply (spares_bind (sr_tree_id request)); [apply spares_try, spares_track, Hne| |done|done|exact E].
    intros ?. apply spares_reads, reads_ret. }
  assert (forall x, entries (node_engine x) = entries (node_engine n0) ->
    entries (node_engine n) ⊆ entries (node_engine x)
    /\ forall id e, entries (node_engine x) !! id = Some e ->
         entries (node_engine n) !! id = Some e \/ in_tree e (sr_tree_id request) = false) as Hx by (intros x ->; done).
  destruct (is_nil _) eqn:Eb.
  - apply reads_bind_ok in H as (n1 & en & _ & Hn1 & He1 & H); [|only_reads|done].
    destruct en; cbn [negb] in H; [|by injection H as <- _ <-].
    apply reads_bind_ok in H as (n2 & root & _ & Hn2 & He2 & H); [|only_reads|done].
    destruct root as [root|]; [|by injection H as <- _ <-].
    apply reads_bind_ok in H as (n3 & has & _ & Hn3 & He3 & H); [|only_reads|done].
    destruct has as [b|]; [|by injection H as <- _ <-].
    destruct (b && negb (is_some (sr_requesting_key request))); [by injection H as <- _ <-|].
    apply nm_bind_ok in H as (n4 & [sp [r|[approved o]]] & E4 & H); [injection H as <- _ <-|].
    { by apply approve_silent in E4. }
    destruct (approve_inv _ _ _ _ _ _ _ _ _ _ _ Hn3 Eb E4) as (Hn4 & He4 & _).
    destruct (b && negb approved); [by injection H as <- _ <-|].
    apply nm_bind_ok in H as (n5 & r & E5 & H). injection H as <- _ <-. exists n4. split; [done|].
    destruct (Hx n4) as [? ?]; [congruence|]. split; [done|]. split; [done|]. left. eauto.
  - apply reads_bind_ok in H as (n1 & en & _ & Hn1 & He1 & H); [|only_reads|done].
    destruct en; cbn [negb] in H; [|by injection H as <- _ <-].
    apply reads_bind_ok in H as (n2 & [sp allowed] & _ & Hn2 & He2 & H); [|only_reads|done].
    destruct allowed as [[]|]; [|by injection H as <- _ <-].
    apply nm_bind_ok in H as (n3 & r & E3 & H). injection H as <- _ <-. exists n2. split; [done|].
    destruct (Hx n2) as [? ?]; [congruence|]. split; [done|]. split; [done|]. right. done.
Qed.

Lemma served_bootstrap tree b o n n' resp :
  node_ok n -> tree_history (entries (node_engine n)) tree -> is_Some (entries (node_engine n) !! tree) -> discloses resp ->
  bootstrap_entries tree b o n = Some (Done (n', Ok resp)) ->
  exists bs, resp = RespBootstrap bs /\ br_tree_id bs = tree /\ Entry_id (br_root_entry bs) = tree
    /\ node_ok n' /\ entries (node_engine n') = entries (node_engine n)
    /\ forall e, e ∈ br_root_entry bs :: br_all_entries bs
         <-> entries (node_engine n) !! Entry_id e = Some e /\ in_tree e tree = true.
Proof.
  intros Hn Hth [root Hroot] Hd H. destruct (reads_bootstrap_entries _ _ _ _ _ _ Hn H) as [Hn' He'].
  destruct Hn as [Hm Hc]. apply nm_bind_ok in H as (n1 & r & E & H). apply nm_try_ok in E. unfold nm_engine in E.
  destruct (bootstrap_collects (node_engine n) tree Hm Hth) as (l & El & Hl).
  destruct (snapshot_tips (node_engine n) tree Hm (th_proper _ _ Hth)) as (He1 & Hi1 & _).
  rewrite El in E. injection E as <- <-.
  apply nm_bind_ok in H as (n2 & r & E & H). apply nm_try_ok in E. injection E as <- <-. injection H as _ <-.
  unfold storage_get in Hd |- *. cbn [node_engine n_inst engine with_engine with_node_mem mem_inner fst] in Hd |- *.
  change (engine (n_inst n)) with (node_engine n) in Hd |- *.
  change (entries (traversal_snapshot (node_engine n) tree).1) with (entries (mem_snapshot (node_engine n) tree).1).
  rewrite He1, Hroot. pose proof (mi_ids _ Hm _ _ Hroot) as Hid.
  eexists. split; [done|]. cbn. split; [done|]. split; [done|]. split; [done|]. split; [done|].
  intros e. rewrite elem_of_cons, list_elem_of_filter, Hl, (get_tree_elem _ _ Hm). split.
  - intros [->|[_ ?]]; [|done]. rewrite Hid. split; [done|]. apply in_tree_cases. by right.
  - intros [He Ht]. destruct (decide (Entry_id e = tree)) as [Heq|]; [left|by right]. rewrite Heq in He. congruence.
Qed.

Lemma served_incremental tree theirs n n' resp :
  node_ok n -> tree_history (entries (node_engine n)) tree -> discloses resp ->
  incremental_entries tree theirs n = Some (Done (n', Ok resp)) ->
  exists ir inner, resp = RespIncremental ir /\ ir_tree_id ir = tree
    /\ node_ok n' /\ entries (node_engine n') = entries (node_engine n)
    /\ mem_inv inner /\ entries inner = entries (node_engine n)
    /\ (forall t, t ∈ ir_their_tips ir <-> tree_tip (entries (node_engine n)) tree t)
    /\ find_missing_entries_for_peer map_order inner (ir_their_tips ir) theirs = Some (Ok (ir_missing_entries ir)).
Proof.
  intros Hn Hth Hd H. destruct (reads_incremental_entries _ _ _ _ _ Hn H) as [Hn' He']. destruct Hn as [Hm Hc].
  apply nm_bind_ok in H as (n1 & snap & E & H). unfold nm_engine in E. injection E as <- <-.
  destruct (snapshot_tips (node_engine n) tree Hm (th_proper _ _ Hth)) as (He1 & Hi1 & Ht).
  apply nm_bind_ok in H as (n2 & r & E & H). apply nm_try_ok in E. injection H as _ <-. unfold nm_read in E.
  cbn [node_engine n_inst engine with_engine with_node_mem mem_inner fst] in E.
  change (engine (n_inst n)) with (node_engine n) in E. destruct (find_missing_entries_for_peer _ _ _ _) as [r'|] eqn:Ef; [|done]. injection E as _ ->.
  destruct r as [missing|]; [|done]. eexists _, _. split; [done|]. cbn. eauto 8.
Qed.

Lemma batch_adds_app a b c es1 es2 : batch_adds a b es1 -> batch_adds b c es2 -> batch_adds a c (es1 ++ es2).
Proof.
  intros (Hs1 & Hi1 & Ho1) (Hs2 & Hi2 & Ho2). split; [by etrans|]. split.
  - intros e [He|He]%elem_of_app Hv; [|by apply Hi2]. destruct (Hi1 e He Hv) as [x Hx]. exists x. by eapply lookup_weaken.
  - intros id e Hid. destruct (Ho2 id e Hid) as [Hb|(He & ? & ?)]; [|right; split; [apply elem_of_app; by right|done]].
    destruct (Ho1 id e Hb) as [?|(He & ? & ?)]; [by left|]. right. split; [apply elem_of_app; by left|done].
Qed.

Lemma batch_adds_perm a b es es' : es ≡ₚ es' -> batch_adds a b es -> batch_adds a b es'.
Proof.
  intros Hp (Hs & Hi & Ho). split; [done|]. split.
  - intros e He. apply Hi. by rewrite Hp.
  - intros id e Hid. destruct (Ho id e Hid) as [?|(He & ?)]; [by left|]. right. split; [by rewrite <- Hp|done].
Qed.

Lemma push_by_tree_perm by_tree t e : concat (push_by_tree by_tree t e).*2 ≡ₚ concat by_tree.*2 ++ [e].
Proof.
  induction by_tree as [|[k l] by_tree IH]; [done|]. cbn [push_by_tree]. destruct (ID_cmp t k); cbn [fmap list_fmap snd concat].
  - rewrite <- app_assoc, <- app_assoc. apply Permutation_app_head. by rewrite Permutation_app_comm.
  - change ([e] ++ (l ++ concat by_tree.*2) ≡ₚ (l ++ concat by_tree.*2) ++ [e]). by rewrite Permutation_app_comm.
  - by rewrite IH, app_assoc.
Qed.

Lemma group_by_tree_perm es : concat (group_by_tree es).*2 ≡ₚ es.
Proof.
  unfold group_by_tree. assert (forall g, concat (foldl (fun by_tree entry => push_by_tree by_tree (declared_tree entry) entry) g es).*2
    ≡ₚ concat g.*2 ++ es) as H; [|apply (H [])].
  induction es as [|e es IH]; intros g; cbn [foldl]; [by rewrite app_nil_r|].
  by rewrite IH, push_by_tree_perm, <- app_assoc.
Qed.

Lemma store_groups_adds groups : forall k n n' r,
  node_ok n -> store_groups groups k n = Some (Done (n', r)) ->
  node_ok n' /\ batch_adds (entries (node_engine n)) (entries (node_engine n')) (concat groups.*2).
Proof.
  induction groups as [|[t es] groups IH]; intros k n n' r Hn; cbn [store_groups].
  { intros [= <- <-]. split; [done|]. split; [done|]. split; [by intros e ?%elem_of_nil|auto]. }
  unfold nm_bind, nm_try, nm_instance. destruct Hn as [Hm Hc].
  destruct (put_remote_adds map_order map_order_ok (n_inst n) t es Hm) as (inst' & ds & r1 & -> & Hi & Hb).
  intros H. apply IH in H as [Hn' Hb']; [|by split]. split; [done|]. cbn [fmap list_fmap snd concat].
  eapply batch_adds_app; [exact Hb|exact Hb'].
Qed.

(** Entries that are sent are stored. *)
Lemma sent_stored es n n' resp :
  node_ok n -> handle_send_entries es n = Some (Done (n', Ok resp)) ->
  node_ok n' /\ batch_adds (entries (node_engine n)) (entries (node_engine n')) es.
Proof.
  intros Hn (n1 & k & E & H)%nm_bind_ok. injection H as <- _. apply store_groups_adds in E as [Hn1 Hb]; [|done].
  split; [done|]. eapply batch_adds_perm; [apply group_by_tree_perm|done].
Qed.
End server.

(** ** What a batch brings *)

Section absorbed.
Context `{CD : CodecSpec}.

Lemma agree_weaken a b c d : agree a b -> c ⊆ a -> d ⊆ b -> agree c d.
Proof. intros H Hc Hd id e e' He He'. eapply H; by eapply lookup_weaken. Qed.

Lemma agree_sym a b : agree a b -> agree b a.
Proof. intros H id e e' He He'. symmetry. by eapply H. Qed.

(** A batch that has what was missing leaves nothing missing. *)
Lemma absorbed tree src dst dst' l :
  ids_ok src -> (forall id e, src !! id = Some e -> Entry_validate e = Ok tt) -> agree src dst' ->
  batch_adds dst dst' l ->
  (forall e, src !! Entry_id e = Some e -> in_tree e tree = true -> ~ in_history dst tree (Entry_id e) -> e ∈ l) ->
  forall id e, src !! id = Some e -> in_tree e tree = true -> dst' !! id = Some e.
Proof.
  intros Hids Hval Hag (Hsub & Hin & _) Hall id e He Ht. assert (Entry_id e = id) as <- by (by apply Hids).
  assert (is_Some (dst' !! Entry_id e)) as [x Hx]; [|rewrite Hx; f_equal; symmetry; by eapply Hag].
  destruct (decide (in_history dst tree (Entry_id e))) as [(x & Hx & _)|Hno].
  - exists x. by eapply lookup_weaken.
  - apply Hin; [by apply Hall|by eapply Hval].
Qed.

(** Receiving what is missing unites the histories. *)
Lemma received_unites tree es1 es2 es l :
  ids_ok es -> ids_ok es2 -> (forall id e, es2 !! id = Some e -> Entry_validate e = Ok tt) -> agree es2 es ->
  batch_adds es1 es l ->
  (forall e, e ∈ l -> es2 !! Entry_id e = Some e) ->
  (forall e, es2 !! Entry_id e = Some e -> in_tree e tree = true -> ~ in_history es1 tree (Entry_id e) -> e ∈ l) ->
  unites es1 es2 es tree.
Proof.
  intros Hids Hids2 Hval Hag Hb Hl Hall. split; [done| | |].
  - intros id e He _. destruct Hb as [Hsub _]. by eapply lookup_weaken.
  - by eapply absorbed.
  - intros id e He _. destruct Hb as (_ & _ & Ho). destruct (Ho id e He) as [?|(Hin & _ & ->)]; [by left|]. right. by apply Hl.
Qed.

(** A tree without tips has no entries. *)
Lemma no_tips_no_history es tree id : tree_history es tree -> (forall t, ~ tree_tip es tree t) -> ~ in_history es tree id.
Proof.
  intros Hth Hno (e & He & Hm). destruct (tips_cover _ _ _ _ _ (th_acyclic _ _ Hth) He Hm) as (t & Ht & _). by eapply Hno.
Qed.
End absorbed.

(** ** The pair *)

Section pair.
Context `{IS : InstanceSpec} `{JS : !JsonSpec} `{LS : !LruSpec CacheKey (list Byte.byte)} `{PJ : PeerJson} `{UJ : UserJson}.
Context `{NE : !NodeEnv} `{RQ : !RowCodec BootstrapRequest}.
(** The server's key and sync database; where the client's requests come from. *)
Context (server_key : PrivateKey) (server_sync : ID) (client_addr : string).

Record Server : Type := mkServer { sv_node : Node; sv_spent : SpentNonces }.

(** A request that reaches the server is answered by its handler. *)
Definition serve_post (url : string) (request : SyncRequest) (s : Server) : option (Outcome (Server * Result SyncResponse Error)) :=
  match handle_request (public_key server_key) server_key server_sync request (request_context client_addr request)
          (sv_spent s) (sv_node s) with
  | None => None
  | Some Panic => Some Panic
  | Some (Done (n, Ok (spent, response))) => Some (Done (mkServer n spent, Ok response))
  | Some (Done (n, Err e)) => Some (Done (mkServer n (sv_spent s), Err e))
  end.

Context (bind : string -> Server -> Server * option string).
#[local] Instance pair_transport : SyncTransport := http_transport Server bind serve_post.

Context (name_order : gmap string Transport -> list (string * Transport)).
Hypothesis (Hnames : forall m, name_order m ≡ₚ map_to_list m).
Context (device_key : PrivateKey) (sync_tree : DbHandle).

(** A request that is answered went to the server's handler. *)
Lemma sent_request_ok addr request w w' response :
  send_sync_request name_order addr request w = Some (Done (w', Ok response)) ->
  w_node w' = w_node w
  /\ handle_request (public_key server_key) server_key server_sync request (request_context client_addr request)
       (sv_spent (w_net w)) (sv_node (w_net w))
     = Some (Done (sv_node (w_net w'), Ok (sv_spent (w_net w'), response))).
Proof.
  intros (w1 & b & E & H)%wm_bind_ok. unfold background in E. destruct (w_background w) as [b'|]; [|done]. injection E as <- <-.
  destruct (manager_routes name_order Hnames (transport_manager b') addr request (w_net w)) as [(name & t & _ & Hc & E)|[_ E]];
    rewrite E in H; [|done].
  change (transport_send t addr request (w_net w)) with (Http_send_request Server serve_post t addr request (w_net w)) in H.
  change (can_handle_address t addr) with (Http_can_handle_address t addr) in Hc. unfold Http_send_request in H.
  rewrite Hc in H. cbn [negb] in H. unfold serve_post in H.
  destruct (handle_request _ _ _ _ _ _ _) as [[[n [[sp resp']|]]|]|]; [|done..]. injection H as <- <-. done.
Qed.

Lemma request_ok addr request w w' response :
  command_request name_order addr request w = Some (Done (w', Ok response)) ->
  w_node w' = w_node w
  /\ handle_request (public_key server_key) server_key server_sync request (request_context client_addr request)
       (sv_spent (w_net w)) (sv_node (w_net w))
     = Some (Done (sv_node (w_net w'), Ok (sv_spent (w_net w'), response))).
Proof.
  intros (w1 & b & E & H)%wm_bind_ok. unfold background in E. destruct (w_background w) as [b'|]; [|done].
  injection E as <- <-. apply wm_bind_ok in H as (w2 & r & E & H). unfold wm_try in E.
  destruct (send_sync_request name_order addr request w) as [[[w3 r3]|]|] eqn:Es; [|done..]. injection E as <- <-.
  destruct r3 as [resp|e]; [|done]. injection H as <- <-. by eapply sent_request_ok.
Qed.

(** ** The client's steps *)

Notation held n := (entries (node_engine n)).

Lemma at_node_reads {A B} (m : Nm A) (k : A -> Wm B) w w' b :
  reads m -> node_ok (w_node w) -> wm_bind (at_node m) k w = Some (Done (w', Ok b)) ->
  exists n a, m (w_node w) = Some (Done (n, Ok a)) /\ node_ok n /\ held n = held (w_node w)
    /\ k a (with_node w n) = Some (Done (w', Ok b)).
Proof.
  intros Hm Hn (w1 & a & E & H)%wm_bind_ok. apply at_node_ok in E as (n & E & ->). destruct (Hm _ _ _ Hn E). eauto 8.
Qed.

Lemma reads_peer_address peer : reads (peer_address sync_tree peer).
Proof.
  unfold peer_address. apply reads_bind.
  - apply reads_view; [apply map_order_ok|]. apply calm_staging. eauto with staging.
  - intros [info|]; [destruct (head _)|]; first [apply reads_ret|apply reads_lift].
Qed.

Lemma reads_sign_request key peer tree snap : reads (sign_request key peer tree snap).
Proof. unfold sign_request. only_reads. Qed.

Lemma local_tips tree n n' snap :
  node_ok n -> proper_tree (held n) tree -> local_snapshot tree n = Some (Done (n', Ok snap)) ->
  forall t, t ∈ tips snap <-> tree_tip (held n) tree t.
Proof.
  intros [Hm Hc] Hp [= _ <-]. by destruct (snapshot_tips (node_engine n) tree Hm Hp) as (_ & _ & Ht).
Qed.

Lemma received_stored tree es n n' :
  node_ok n -> store_received_entries tree es n = Some (Done (n', Ok tt)) ->
  node_ok n' /\ batch_adds (held n) (held n') es.
Proof.
  intros [Hm Hc] H. apply nm_bind_ok in H as (n1 & r & E & H). unfold nm_try, nm_instance in E.
  destruct (put_remote_adds map_order map_order_ok (n_inst n) tree es Hm) as (inst' & ds & r1 & Ep & Hi & Hb).
  rewrite Ep in E. injection E as <- <-. destruct r1; [|done]. injection H as <-. by split.
Qed.

Notation client w := (held (w_node w)).
Notation server w := (held (sv_node (w_net w))).

(** Both invariants, and the histories that the exchange starts from. *)
Record ready (tree : ID) (w : World) : Prop := {
  rd_client : node_ok (w_node w);
  rd_server : node_ok (sv_node (w_net w));
  rd_client_history : tree_history (client w) tree;
  rd_server_history : tree_history (server w) tree;
}.

(** What either had in the tree, both have. *)
Definition exchanged (tree : ID) (w w' : World) : Prop := forall id e,
  in_tree e tree = true -> client w !! id = Some e \/ server w !! id = Some e ->
  client w' !! id = Some e /\ server w' !! id = Some e.

(** Entries that the handler answers are stored. *)
Lemma entries_handled es context spent spent' n n' resp :
  node_ok n -> handle_request (public_key server_key) server_key server_sync (ReqSendEntries es) context spent n
    = Some (Done (n', Ok (spent', resp))) ->
  node_ok n' /\ batch_adds (held n) (held n') es.
Proof.
  intros Hn E. apply nm_bind_ok in E as (n1 & r & E & H'). injection H' as <- _ _. by eapply sent_stored.
Qed.

Lemma sent_ok addr es w w' :
  node_ok (sv_node (w_net w)) -> send_missing_entries_to_peer name_order addr es w = Some (Done (w', Ok tt)) ->
  w_node w' = w_node w /\ batch_adds (server w) (server w') es.
Proof.
  intros Hn. unfold send_missing_entries_to_peer. destruct (is_nil es) eqn:En.
  { intros [= <-]. split; [done|]. split; [done|]. split; [|auto]. destruct es; [|done]. by intros e ?%elem_of_nil. }
  intros (w1 & resp & E & H)%wm_bind_ok. apply request_ok in E as [Ec E].
  assert (w' = w1) as -> by (destruct resp; by injection H as <-).
  split; [done|]. by eapply entries_handled in E as [_ ?].
Qed.

(** The second half of [handle_incremental_response]. *)
Definition send_back (tree : ID) (theirs : list ID) (addr : Address) : Wm unit :=
  await our_snapshot <- at_node (local_snapshot tree);
  let missing_tip_ids := filter (fun tip_id => tip_id ∉ theirs) (tips our_snapshot) in
  if is_nil missing_tip_ids then wm_ret tt
  else
    await es <- at_node (nm_read (fun inner => collect_ancestors_to_send map_order inner missing_tip_ids theirs));
    if is_nil es then wm_ret tt else send_missing_entries_to_peer name_order addr es.

Lemma batch_adds_nil es : batch_adds es es [].
Proof. split; [done|]. split; [by intros e ?%elem_of_nil|auto]. Qed.

(** What is sent back is what the walk finds, if the tips call for one. *)
Lemma send_back_inv tree theirs addr w w' :
  node_ok (w_node w) -> node_ok (sv_node (w_net w)) -> send_back tree theirs addr w = Some (Done (w', Ok tt)) ->
  exists n snap l, local_snapshot tree (w_node w) = Some (Done (n, Ok snap)) /\ node_ok n /\ held n = client w
    /\ find_missing_entries_for_peer map_order (node_engine n) (tips snap) theirs = Some (Ok l)
    /\ node_ok (w_node w') /\ client w' = client w /\ batch_adds (server w) (server w') l.
Proof.
  intros Hc Hs H. apply at_node_reads in H as (n1 & snap & E & Hn1 & He1 & H); [|apply reads_snapshot|done].
  exists n1, snap. cbn zeta in H. unfold find_missing_entries_for_peer. destruct (is_nil (filter _ _)).
  { exists []. injection H as <-. do 4 (split; [done|]). split; [done|]. split; [done|]. apply batch_adds_nil. }
  apply at_node_reads in H as (n2 & l & E2 & Hn2 & He2 & H); [|apply reads_read|done].
  unfold nm_read in E2. cbn [w_node with_node] in E2, He2. destruct (collect_ancestors_to_send _ _ _ _) as [r|]; [|done].
  injection E2 as <- ->. exists l. do 4 (split; [done|]). destruct (is_nil l) eqn:En.
  { injection H as <-. split; [done|]. split; [done|]. destruct l; [|done]. apply batch_adds_nil. }
  apply sent_ok in H as [-> Hb]; [|done]. split; [done|]. split; [done|]. exact Hb.
Qed.

(** Handling an answer only adds. *)
Lemma incremental_grows ir addr w w' :
  node_ok (w_node w) -> node_ok (sv_node (w_net w)) ->
  handle_incremental_response name_order ir addr w = Some (Done (w', Ok tt)) ->
  node_ok (w_node w') /\ client w ⊆ client w' /\ server w ⊆ server w'.
Proof.
  intros Hc Hs H. apply wm_bind_ok in H as (w1 & [] & E & H). apply at_node_ok in E as (n1 & E & ->).
  apply received_stored in E as [Hn1 Hb]; [|done].
  change (send_back (ir_tree_id ir) (ir_their_tips ir) addr (with_node w n1) = Some (Done (w', Ok tt))) in H.
  apply send_back_inv in H as (n2 & snap & l & _ & _ & _ & _ & Hw' & -> & Hb2); [|done..].
  split; [done|]. split; [apply Hb|apply Hb2].
Qed.

Lemma bootstrap_grows bs w w' :
  node_ok (w_node w) -> at_node (handle_bootstrap_response bs) w = Some (Done (w', Ok tt)) ->
  node_ok (w_node w') /\ client w ⊆ client w' /\ server w ⊆ server w'.
Proof.
  intros Hc H. apply at_node_ok in H as (n & H & ->). unfold handle_bootstrap_response in H.
  destruct (decide _) as [|_]; [done|]. apply received_stored in H as [Hn [Hb _]]; [|done]. done.
Qed.

(** An incremental answer: receive, then send back. *)
Lemma incremental_ok tree ir addr w w' :
  ready tree w -> ir_tree_id ir = tree ->
  (forall t, t ∈ ir_their_tips ir <-> tree_tip (server w) tree t) ->
  (forall e, e ∈ ir_missing_entries ir -> server w !! Entry_id e = Some e) ->
  (forall e, server w !! Entry_id e = Some e -> in_tree e tree = true ->
     ~ in_history (client w) tree (Entry_id e) -> e ∈ ir_missing_entries ir) ->
  handle_incremental_response name_order ir addr w = Some (Done (w', Ok tt)) ->
  agree (client w') (server w') ->
  exchanged tree w w'.
Proof.
  intros [Hc Hs Hth Hth'] Ht Htips Hfrom Hall H Hag. unfold handle_incremental_response in H. rewrite Ht in H.
  apply wm_bind_ok in H as (w1 & [] & E & H). apply at_node_ok in E as (n1 & E & ->).
  apply received_stored in E as [Hn1 Hb]; [|done].
  change (send_back tree (ir_their_tips ir) addr (with_node w n1) = Some (Done (w', Ok tt))) in H.
  apply send_back_inv in H as (n2 & snap & l & Es & Hn2 & He2 & Ef & Hw' & Hcl & Hb2); [|done..].
  change (entries (node_engine n2) = held n1) in He2. change (client w' = held n1) in Hcl.
  change (batch_adds (server w) (server w') l) in Hb2. rewrite Hcl in Hag.
  assert (agree (held n1) (server w)) as Hag1 by (eapply agree_weaken; [done..|apply Hb2]).
  assert (unites (client w) (server w) (held n1) tree) as Hu.
  { destruct Hn1 as [Hm1 _], Hs as [Hms _]. eapply received_unites; [apply Hm1|apply Hms|apply Hms|by apply agree_sym|done..]. }
  assert (agree (client w) (server w)) as Hag0 by (eapply agree_weaken; [done|apply Hb|done]).
  pose proof (union_history _ _ _ _ Hth Hth' Hu) as Hth1.
  pose proof (local_tips _ _ _ _ Hn1 (th_proper _ _ Hth1) Es) as Ht1. rewrite <- He2 in Ht1, Hth1, Hag1.
  destruct (find_missing_total map_order (node_engine n2) (server w) tree (tips snap) (ir_their_tips ir) map_order_ok)
    as (l' & Ef' & _ & _ & Hl); [by destruct Hn2|done..|]. assert (l' = l) as -> by congruence. rewrite He2 in Hl.
  intros id e Hin Hor.
  assert (held n1 !! id = Some e) as He by (destruct Hor; [by apply (un_left _ _ _ _ Hu)|by apply (un_right _ _ _ _ Hu)]).
  split; [by rewrite Hcl|]. destruct Hn1 as [Hm1 _]. eapply absorbed; [apply Hm1|apply Hm1|done..].
Qed.

(** A bootstrap answer has everything. *)
Lemma bootstrap_ok tree bs w w' :
  ready tree w -> br_tree_id bs = tree -> (forall t, ~ tree_tip (client w) tree t) ->
  (forall e, e ∈ br_root_entry bs :: br_all_entries bs <-> server w !! Entry_id e = Some e /\ in_tree e tree = true) ->
  at_node (handle_bootstrap_response bs) w = Some (Done (w', Ok tt)) ->
  agree (client w') (server w') ->
  exchanged tree w w'.
Proof.
  intros [Hc Hs Hth Hth'] Ht Hno Hall H Hag. apply at_node_ok in H as (n & H & ->). unfold handle_bootstrap_response in H.
  destruct (decide _) as [|_]; [done|]. apply received_stored in H as [Hn Hb]; [|done].
  intros id e Hin [He|He]; [by destruct (no_tips_no_history _ tree id Hth Hno); exists e|]. split; [|done].
  destruct Hs as [Hms _]. cbn [w_node w_net with_node] in Hag |- *.
  eapply (absorbed tree); [apply Hms|apply Hms|by apply agree_sym|exact Hb| |done..]. intros e' ? ? _. by apply Hall.
Qed.

(** The answer to a request, and the two instances when it arrives. *)
Lemma answered tree req addr w w1 resp :
  ready tree w -> is_Some (server w !! tree) -> server_sync <> tree ->
  sr_tree_id req = tree -> (forall t, t ∈ tips (sr_our_tips req) <-> tree_tip (client w) tree t) ->
  discloses resp -> command_request name_order addr (ReqSyncTree req) w = Some (Done (w1, Ok resp)) ->
  ready tree w1 /\ client w1 = client w /\ server w ⊆ server w1
  /\ ((exists bs, resp = RespBootstrap bs /\ br_tree_id bs = tree /\ (forall t, ~ tree_tip (client w1) tree t)
          /\ forall e, e ∈ br_root_entry bs :: br_all_entries bs <-> server w1 !! Entry_id e = Some e /\ in_tree e tree = true)
      \/ (exists ir, resp = RespIncremental ir /\ ir_tree_id ir = tree
          /\ (forall t, t ∈ ir_their_tips ir <-> tree_tip (server w1) tree t)
          /\ (agree (client w1) (server w1) ->
              (forall e, e ∈ ir_missing_entries ir -> server w1 !! Entry_id e = Some e)
              /\ forall e, server w1 !! Entry_id e = Some e -> in_tree e tree = true ->
                   ~ in_history (client w1) tree (Entry_id e) -> e ∈ ir_missing_entries ir))).
Proof.
  intros [Hc Hs Hth Hth'] Hroot Hne Hreq Ht Hd E. apply request_ok in E as [Ec E]. rewrite Ec.
  cbn [handle_request] in E. apply served_inv in E as (n1 & Hn1 & Hsub & Hnew & H); [|done|by rewrite Hreq..|done].
  rewrite Hreq in Hnew, H. destruct Hn1 as [Hm1 Hc1] eqn:En1. clear En1.
  assert (tree_history (held n1) tree) as Hth1 by (eapply history_grows; [done|apply Hm1|done..]).
  destruct H as [(Hnil & b & o & H)|[Hnil H]].
  - apply served_bootstrap in H as (bs & -> & Hbt & _ & Hn' & He' & Hall); [|done..|destruct Hroot as [x ?]; exists x; by eapply lookup_weaken|done].
    rewrite <- He' in Hsub, Hth1, Hall. split; [split; by rewrite ?Ec|]. split; [done|]. split; [done|]. left. exists bs.
    do 2 (split; [done|]). split; [|done]. intros t Htip%Ht. destruct (tips (sr_our_tips req)); [set_solver|done].
  - apply served_incremental in H as (ir & inner & -> & Hit & Hn' & He' & Hmi & Hei & Htips & Ef); [|done..].
    rewrite <- He' in Hsub, Hth1, Htips, Hei.
    split; [split; by rewrite ?Ec|]. split; [done|]. split; [done|]. right. exists ir. do 2 (split; [done|]). split; [done|]. intros Hag.
    destruct (find_missing_total map_order inner (client w) tree (ir_their_tips ir) (tips (sr_our_tips req)) map_order_ok)
      as (l & Ef' & _ & Hl & Hl'); [done|by rewrite Hei|done|rewrite Hei; by apply agree_sym|by rewrite Hei|done|].
    assert (l = ir_missing_entries ir) as -> by congruence. rewrite Hei in Hl, Hl'. split; [|done].
    intros e He. by apply Hl.
Qed.

(** C7: An exchange that succeeds brings two instances together: when the client's
    [sync_tree_with_peer] returns, every entry of the tree that the client or the
    server had before is now stored at both, with the same content.  The client may have
    nothing of the tree (bootstrap), or both may have written since they last met
    (incremental).  Assumed: the invariants of the two backends, complete acyclic
    histories, the root stored at the server, a transport that carries requests to
    the server's handler, and no two different entries under one ID. *)
Theorem exchange_converges tree peer signing_key w w' :
  ready tree w -> is_Some (server w !! tree) -> server_sync <> tree ->
  sync_tree_with_peer_as name_order device_key sync_tree peer tree signing_key w = Some (Done (w', Ok tt)) ->
  agree (client w') (server w') ->
  exchanged tree w w'.
Proof.
  intros Hr Hroot Hne H Hag. pose proof Hr as [Hc Hs Hth Hth'].
  apply at_node_reads in H as (n1 & addr & _ & Hn1 & He1 & H); [|apply reads_peer_address|done].
  apply at_node_reads in H as (n2 & snap & Es & Hn2 & He2 & H); [|apply reads_snapshot|done].
  apply at_node_reads in H as (n3 & auth & _ & Hn3 & He3 & H); [|apply reads_sign_request|done].
  cbn zeta in H. set (req := mkSyncTreeRequest _ _ _ _ _ _ _ _) in H. set (w0 := with_node _ n3) in H.
  assert (held n3 = client w) as He0 by (cbn [w_node with_node] in *; congruence). 
  assert (forall t, t ∈ tips snap <-> tree_tip (held n3) tree t) as Ht.
  { rewrite He0, <- He1. cbn [w_node with_node] in *. eapply local_tips; [done| |exact Es]. rewrite He1. apply Hth. }
  apply wm_bind_ok in H as (w1 & resp & E & H). apply wm_bind_ok in H as (w2 & [] & E2 & H).
  apply at_node_ok in H as (n4 & E4 & ->). pose proof (safe_add_tree sync_tree peer tree (w_node w2)) as Hadd.
  assert (discloses resp) as Hd by (by destruct resp).
  assert (ready tree w0) as Hr0 by (split; [done|done|by rewrite <- He0 in Hth|done]).
  destruct (answered tree req addr w0 w1 resp) as (Hr1 & Hcl & Hsv & Hresp); [done..|].
  assert (node_ok (w_node w2) /\ client w1 ⊆ client w2 /\ server w1 ⊆ server w2) as (Hn2' & Hg & Hg').
  { destruct Hr1. destruct resp; try done; [by eapply bootstrap_grows|by eapply incremental_grows]. }
  specialize (Hadd Hn2'). rewrite E4 in Hadd. destruct Hadd as (_ & Hg4 & _).
  assert (agree (client w2) (server w2)) as Hag2 by (by eapply agree_weaken).
  assert (exchanged tree w1 w2) as Hex.
  { destruct Hresp as [(bs & -> & Hbt & Hno & Hall)|(ir & -> & Hit & Htips & Hmiss)].
    - by eapply bootstrap_ok.
    - destruct Hmiss as [Hfrom Hall]; [by eapply agree_weaken|]. by eapply incremental_ok. }
  intros id e Hin Hor. destruct (Hex id e Hin) as [? ?].
  { rewrite Hcl. destruct Hor as [?|?]; [left; change (held n3 !! id = Some e); by rewrite He0|right; by eapply lookup_weaken]. }
  split; [|done]. by eapply lookup_weaken, Hg4.
Qed.
End pair.

(** ** Two concrete instances *)

(** A history, by its heights. *)
Definition history_check `{CD : CodecSpec} (es : gmap ID Entry) (tree : ID) : bool :=
  forallb (fun '(_, e) => implb (in_tree e tree)
    (forallb (fun p => match es !! p with
                       | Some e' => in_tree e' tree && (Entry_height e' <? Entry_height e)
                       | None => false
                       end) (Entry_parents e))) (map_to_list es)
  && match es !! tree with Some e => negb (is_some (tn_root (e_tree e))) | None => true end.

Lemma history_check_sound `{CD : CodecSpec} es tree : history_check es tree = true -> tree_history es tree.
Proof.
  intros [Hall Hroot]%andb_true_iff. rewrite forallb_forall in Hall.
  assert (forall x y e, es !! x = Some e -> in_tree e tree = true -> y ∈ Entry_parents e ->
    exists e', es !! y = Some e' /\ in_tree e' tree = true /\ Entry_height e' < Entry_height e) as H.
  { intros x y e He Hm Hy. specialize (Hall (x, e)). cbn beta iota in Hall. rewrite Hm in Hall.
    assert (In (x, e) (map_to_list es)) as Hin by (by apply list_elem_of_In, elem_of_map_to_list).
    specialize (Hall Hin). cbn [implb] in Hall. rewrite forallb_forall in Hall. apply list_elem_of_In, Hall in Hy.
    destruct (es !! y) as [e'|]; [|done]. apply andb_true_iff in Hy as [? ?%Z.ltb_lt]. eauto. }
  split.
  - intros e He. rewrite He in Hroot. by destruct (tn_root (e_tree e)).
  - apply (heights_acyclic Entry_height). intros x y e e' (e0 & He0 & Hm & Hy) He He'.
    destruct (H x y e0 He0 Hm Hy) as (e1 & ? & _ & ?). congruence.
  - intros x y (e & He & Hm & Hy). destruct (H x y e He Hm Hy) as (e' & ? & ? & _). eauto.
Qed.

Definition agree_check `{CD : CodecSpec} (es es' : gmap ID Entry) : bool :=
  forallb (fun '(id, e) => match es' !! id with Some e' => bool_decide (e = e') | None => true end) (map_to_list es).

Lemma agree_check_sound `{CD : CodecSpec} es es' : agree_check es es' = true -> agree es es'.
Proof.
  unfold agree_check. rewrite forallb_forall. intros H id e e' He He'. specialize (H (id, e)). cbn beta iota in H.
  rewrite He' in H. eapply bool_decide_eq_true_1, H. by apply list_elem_of_In, elem_of_map_to_list.
Qed.

#[local] Existing Instance nat_cid.
#[local] Existing Instance byte_crypto.
#[local] Existing Instance list_lru.
#[local] Existing Instance wire_codec.
#[local] Existing Instance wire_json.
#[local] Existing Instance wire_peers.
#[local] Existing Instance wire_instance.
#[local] Existing Instance wire_env.
#[local] Existing Instance wire_users.

(** Two copies of an instance; each has written to the database since. *)
Definition noted (text : string) : Nm unit :=
  update (mkDbHandle one_root (Some (DatabaseKey_new admin_sk)) false) (DocStore_set one_root "notes" "from" (Text text)).

Definition client_code : Nm unit :=
  step _ <- register_sync_peer asked_sync
    (mkSyncPeerInfo (public_key admin_sk) one_root [mkAddress HTTP_TRANSPORT_TYPE "server"] None);
  noted "client".

Definition node_after {A} (m : Nm A) (n : Node) : Node := match m n with Some (Done (n', _)) => n' | _ => n end.
Definition server_node : Node := node_after (noted "server") served_node.
Definition client_node : Node := node_after client_code asked_node.

Lemma node_after_ok {A} (m : Nm A) n : safe m -> node_ok n -> node_ok (node_after m n).
Proof.
  intros Hs Hn. specialize (Hs n Hn). unfold node_after. destruct (m n) as [[[n' r]|]|]; [exact (proj1 Hs)|done|done].
Qed.

Lemma safe_noted text : safe (noted text).
Proof. apply safe_update, staging_set. Qed.

Lemma server_node_ok : node_ok server_node.
Proof. apply node_after_ok; [apply safe_noted|apply served_node_ok]. Qed.

Lemma client_node_ok : node_ok client_node.
Proof.
  apply node_after_ok; [|apply asked_node_ok]. apply safe_bind; [apply safe_register_sync_peer|]. intros ?. apply safe_noted.
Qed.

Definition pair_bind (addr : string) (s : Server) : Server * option string := (s, Some addr).
Definition pair_net : SyncTransport := pair_transport admin_sk (db_root asked_sync) "client" pair_bind.
#[local] Existing Instance pair_net.

Definition pair_background : BackgroundSync :=
  mkBackgroundSync (TransportManager_add ∅ "main" (HttpTransport_new : Transport)) [].
Definition pair_world : World := mkWorld client_node (mkServer server_node []) (Some pair_background) SyncQueue_new.

Notation pair_run := (sync_tree_with_peer_as map_to_list admin_sk asked_sync (public_key admin_sk) one_root None pair_world).

(** Both have an entry that the other has not; afterwards no ID stands for two entries. *)
Definition only_in (tree : ID) (es es' : gmap ID Entry) : nat :=
  length (filter (fun e => in_tree e tree = true /\ es' !! Entry_id e = None) (entry_values es)).

Definition apart (tree : ID) (cs ss : gmap ID Entry) : bool :=
  history_check cs tree && history_check ss tree && is_some (ss !! tree)
  && (only_in tree cs ss =? 1)%nat && (only_in tree ss cs =? 1)%nat.

Definition ended (r : option (Outcome (World * Result unit Error))) : bool :=
  match r with
  | Some (Done (w', Ok tt)) => agree_check (entries (node_engine (w_node w'))) (entries (node_engine (sv_node (w_net w'))))
  | _ => false
  end.

Lemma ended_inv r : ended r = true -> exists w', r = Some (Done (w', Ok tt))
  /\ agree_check (entries (node_engine (w_node w'))) (entries (node_engine (sv_node (w_net w')))) = true.
Proof. destruct r as [[[w' [[]|]]|]|]; [|done..]. intros H. by exists w'. Qed.

Lemma pair_apart : apart one_root (entries (node_engine client_node)) (entries (node_engine server_node)) = true.
Proof. vm_cast_no_check (eq_refl true). Qed.

Lemma pair_ended : ended pair_run = true.
Proof. vm_cast_no_check (eq_refl true). Qed.

Lemma pair_trees : db_root asked_sync <> one_root.
Proof. apply (bool_decide_eq_true_1 (db_root asked_sync <> one_root)). vm_cast_no_check (eq_refl true). Qed.

Lemma apart_ready tree c sv spent b q :
  node_ok c -> node_ok sv -> apart tree (entries (node_engine c)) (entries (node_engine sv)) = true ->
  ready admin_sk (db_root asked_sync) "client" pair_bind tree (mkWorld c (mkServer sv spent) b q)
  /\ is_Some (entries (node_engine sv) !! tree).
Proof.
  intros Hc Hs H. unfold apart in H. rewrite !andb_true_iff in H. destruct H as [[[[H1 H2] Hr] _] _].
  split; [split; [done|done|by apply history_check_sound..]|]. destruct (_ !! tree); [by eexists|done].
Qed.

Lemma exchange_converges_witness : exists w', pair_run = Some (Done (w', Ok tt))
  /\ exchanged admin_sk (db_root asked_sync) "client" pair_bind one_root pair_world w'.
Proof.
  assert (forall c sv w w', w = mkWorld c (mkServer sv []) (Some pair_background) SyncQueue_new ->
    node_ok c -> node_ok sv -> apart one_root (entries (node_engine c)) (entries (node_engine sv)) = true ->
    sync_tree_with_peer_as map_to_list admin_sk asked_sync (public_key admin_sk) one_root None w = Some (Done (w', Ok tt)) ->
    agree_check (entries (node_engine (w_node w'))) (entries (node_engine (sv_node (w_net w')))) = true ->
    exchanged admin_sk (db_root asked_sync) "client" pair_bind one_root w w') as H.
  { intros c sv w w' -> Hc Hs Ha Er He.
    destruct (apart_ready one_root c sv [] (Some pair_background) SyncQueue_new Hc Hs Ha) as [Hr Hi].
    apply (exchange_converges admin_sk (db_root asked_sync) "client" pair_bind map_to_list
      (fun m => Permutation_refl _) admin_sk asked_sync one_root (public_key admin_sk) None _ w' Hr Hi pair_trees Er).
    apply agree_check_sound. exact He. }
  destruct (ended_inv _ pair_ended) as (w' & Er & He). exists w'. split; [exact Er|].
  exact (H client_node server_node pair_world w' eq_refl client_node_ok server_node_ok pair_apart Er He).
Defined.
