(* ===== verification/SyncRetry.v ===== *)
(** * The queue and the retries of the background engine (sync/background/mod.rs)

    What becomes of the entries that wait to be sent: the bounds of the retry queue in
    every state that the engine reaches, and that a flush which succeeds has
    brought every queued entry to the peer. *)

From S2P Require Import Prelude.
From S2P Require Import Path.
From S2P Require Import Position.
From S2P Require Import Ids.
From S2P Require Import Doc.
From S2P Require Import DocPath.
From S2P Require Import Errors.
From S2P Require Import Crypto.
From S2P Require Import Permission.
From S2P Require Import AuthTypes.
From S2P Require Import AuthSettings.
From S2P Require Import Entry.
From S2P Require Import Backend.
From S2P Require Import Traversal.
From S2P Require Import CrdtCache.
From S2P Require Import BackendSteps.
From S2P Require Import Reachability.
From S2P Require Import Validation.
From S2P Require Import Verify.
From S2P Require Import InstanceOps.
From S2P Require Import WireCodec.
From S2P Require Import Transaction.
From S2P Require Import Stores.
From S2P Require Import StoreView.
From S2P Require Import Commit.
From S2P Require Import TxFrame.
From S2P Require Import CommitSpec.
From S2P Require Import Lifecycle.
From S2P Require Import Settings.
From S2P Require Import Table.
From S2P Require Import Node.
From S2P Require Import Peers.
From S2P Require Import Worklist.
From S2P Require Import Frontier.
From S2P Require Import StoreTips.
From S2P Require Import MergeBase.
From S2P Require Import StoreState.
From S2P Require Import SyncWalk.
From S2P Require Import SyncAuth.
From S2P Require Import UserSync.
From S2P Require Import Bootstrap.
From S2P Require Import SyncHandler.
From S2P Require Import IdsAdded.
From S2P Require Import SyncTransport.
From S2P Require Import SyncClient.
From S2P Require Import SyncEngine.
From S2P Require Import SyncExchange.

(** ** Steps that leave the engine alone *)

Section engine.
Context `{IS : InstanceSpec} `{JS : !JsonSpec} `{LS : !LruSpec CacheKey (list Byte.byte)} `{PJ : PeerJson} `{UJ : UserJson}.
Context `{NE : !NodeEnv} `{RQ : !RowCodec BootstrapRequest} `{ST : !SyncTransport}.
Context (name_order : gmap string Transport -> list (string * Transport)).
Context (peer_order : SyncQueue -> SyncQueue).
Context (device_key : PrivateKey) (sync_tree : DbHandle).

(** [m] changes neither the engine nor the queue. *)
Definition idle {A} (m : Wm A) : Prop := forall w w' r,
  m w = Some (Done (w', r)) -> w_background w' = w_background w /\ w_queue w' = w_queue w.

Lemma idle_ret {A} (a : A) : idle (wm_ret a).
Proof. by intros w w' r [= <- _]. Qed.

Lemma idle_fail {A} e : idle (wm_fail (A := A) e).
Proof. by intros w w' r [= <- _]. Qed.

Lemma idle_bind {A B} (m : Wm A) (k : A -> Wm B) : idle m -> (forall a, idle (k a)) -> idle (wm_bind m k).
Proof.
  intros Hm Hk w w' r. unfold wm_bind. destruct (m w) as [[[w1 [a|e]]|]|] eqn:E; [| |done..]; intros H.
  - apply Hm in E as [E1 E2]. apply Hk in H as [H1 H2]. split; congruence.
  - injection H as <- _. by apply Hm in E.
Qed.

Lemma idle_try {A} (m : Wm A) : idle m -> idle (wm_try m).
Proof.
  intros Hm w w' r. unfold wm_try. destruct (m w) as [[[w1 r1]|]|] eqn:E; [|done..]. intros [= <- _]. by apply Hm in E.
Qed.

Lemma idle_node {A} (m : Nm A) : idle (at_node m).
Proof. intros w w' r. unfold at_node. destruct (m (w_node w)) as [[[n r1]|]|]; [|done..]. by intros [= <- _]. Qed.

Lemma idle_background : idle background.
Proof. intros w w' r. unfold background. destruct (w_background w) eqn:E; by intros [= <- _]. Qed.

Lemma idle_request addr request : idle (send_sync_request name_order addr request).
Proof.
  apply idle_bind; [apply idle_background|]. intros b w w' r.
  destruct (manager_send_request _ _ _ _ _) as [[[net r1]|]|]; [|done..]. by intros [= <- _].
Qed.

Lemma idle_send peer es : idle (send_to_peer name_order device_key sync_tree peer es).
Proof.
  apply idle_bind; [apply idle_node|]. intros [db addr]. apply idle_bind; [apply idle_request|].
  intros []; first [apply idle_ret|apply idle_fail].
Qed.

(** ** The engine's states *)

(** A batch has been tried once at least, and is given up at the tenth time. *)
Definition tried (e : RetryEntry) : Prop := 1 <= re_attempts e <= 9.

Record engine_ok (w : World) : Prop := {
  eo_retries b : w_background w = Some b -> Forall tried (retry_queue b);
  eo_peers : NoDup (w_queue w).*1;
  eo_pairs : Forall (fun p => p.2 <> []) (w_queue w);
}.

Definition steady {A} (m : Wm A) : Prop := forall w w' r,
  engine_ok w -> m w = Some (Done (w', r)) -> engine_ok w'.

Lemma steady_idle {A} (m : Wm A) : idle m -> steady m.
Proof. intros Hm w w' r [H1 H2 H3] E. apply Hm in E as [Eb Eq]. split; rewrite ?Eb, ?Eq; done. Qed.

Lemma steady_bind {A B} (m : Wm A) (k : A -> Wm B) : steady m -> (forall a, steady (k a)) -> steady (wm_bind m k).
Proof.
  intros Hm Hk w w' r Hw. unfold wm_bind. destruct (m w) as [[[w1 [a|e]]|]|] eqn:E; [| |done..]; intros H.
  - eapply Hk; [|done]. by eapply Hm.
  - injection H as <- _. by eapply Hm.
Qed.

(** What a batch becomes that is sent again. *)
Lemma retry_one_tried now e w w' kept :
  tried e -> retry_one name_order device_key sync_tree now e w = Some (Done (w', Ok kept)) -> Forall tried kept.
Proof.
  intros [H1 H9] (w1 & r & E & H)%wm_bind_ok. destruct r; injection H as _ <-; [done|]. cbn [re_attempts].
  assert (as_u32 (re_attempts e + 1) = re_attempts e + 1) as -> by (unfold as_u32; apply Z.mod_small; lia).
  destruct (Z.ltb_spec (re_attempts e + 1) 10); [|done]. apply Forall_singleton. unfold tried. cbn. lia.
Qed.

Lemma idle_retry_one now e : idle (retry_one name_order device_key sync_tree now e).
Proof. apply idle_bind; [apply idle_try, idle_send|]. intros []; apply idle_ret. Qed.

Lemma idle_retry_ready now queue : forall still, idle (retry_ready name_order device_key sync_tree now queue still).
Proof.
  induction queue as [|e queue IH]; intros still; cbn [retry_ready]; [apply idle_ret|].
  destruct (_ <=? _); [|apply IH]. apply idle_bind; [apply idle_retry_one|]. intros kept. apply IH.
Qed.

Lemma idle_retry_all now queue : forall still, idle (retry_all name_order device_key sync_tree now queue still).
Proof.
  induction queue as [|e queue IH]; intros still; cbn [retry_all]; [apply idle_ret|].
  apply idle_bind; [apply idle_retry_one|]. intros kept. apply IH.
Qed.

Lemma retry_ready_tried now queue : forall still w w' kept, Forall tried queue -> Forall tried still ->
  retry_ready name_order device_key sync_tree now queue still w = Some (Done (w', Ok kept)) -> Forall tried kept.
Proof.
  induction queue as [|e queue IH]; intros still w w' kept Hq Hs; cbn [retry_ready]; [by intros [= _ <-]|].
  apply Forall_cons in Hq as [He Hq]. destruct (_ <=? _).
  - intros (w1 & k & E & H)%wm_bind_ok. apply retry_one_tried in E; [|done]. eapply IH; [done| |exact H]. by apply Forall_app_2.
  - apply IH; [done|]. apply Forall_app_2; [done|]. by apply Forall_singleton.
Qed.

Lemma retry_all_tried now queue : forall still w w' kept, Forall tried queue -> Forall tried still ->
  retry_all name_order device_key sync_tree now queue still w = Some (Done (w', Ok kept)) -> Forall tried kept.
Proof.
  induction queue as [|e queue IH]; intros still w w' kept Hq Hs; cbn [retry_all]; [by intros [= _ <-]|].
  apply Forall_cons in Hq as [He Hq]. intros (w1 & k & E & H)%wm_bind_ok. apply retry_one_tried in E; [|done].
  eapply IH; [done| |exact H]. by apply Forall_app_2.
Qed.

Lemma steady_set l : Forall tried l -> steady (set_retry_queue l).
Proof.
  intros Hl w w' r [H1 H2 H3] [= <- _]. split; [|done..]. cbn. intros b. destruct (w_background w) as [b0|]; [|done].
  by intros [= <-].
Qed.

(** A round of retries: the queue is taken, and what fails is put back. *)
Lemma steady_round {A} (m : Z -> list RetryEntry -> Wm (list RetryEntry)) (k : list RetryEntry -> Wm A) :
  (forall now queue, idle (m now queue)) ->
  (forall now queue w w' kept, Forall tried queue -> m now queue w = Some (Done (w', Ok kept)) -> Forall tried kept) ->
  (forall kept, Forall tried kept -> steady (k kept)) ->
  steady (await now_ms <- at_node now_millis;
          await b <- background;
          await _ <- set_retry_queue [];
          await still_failed <- m now_ms (retry_queue b);
          k still_failed).
Proof.
  intros Hi Ht Hk w w' r Hw. unfold wm_bind at 1. destruct (at_node now_millis w) as [[[w1 [now|e]]|]|] eqn:E1; [| |done..]; intros H.
  2: { injection H as <- _. eapply steady_idle; [apply idle_node|done|exact E1]. }
  assert (engine_ok w1) as Hw1 by (eapply steady_idle; [apply idle_node|done|exact E1]). clear E1 Hw w.
  unfold wm_bind at 1, background in H. destruct (w_background w1) as [b|] eqn:Eb; [|by injection H as <- _].
  pose proof (eo_retries _ Hw1 b Eb) as Hq. revert H. unfold wm_bind at 1.
  destruct (set_retry_queue [] w1) as [[[w2 [[]|e]]|]|] eqn:E2; [|done..]. assert (engine_ok w2) as Hw2 by (by eapply (steady_set []); [constructor|exact Hw1|exact E2]).
  unfold wm_bind at 1. destruct (m now (retry_queue b) w2) as [[[w3 [kept|e]]|]|] eqn:E3; [| |done..]; intros H.
  - assert (engine_ok w3) as Hw3 by (eapply steady_idle; [apply Hi|done|exact E3]). apply Ht in E3; [|done].
    by eapply Hk.
  - injection H as <- _. eapply steady_idle; [apply Hi|done|exact E3].
Qed.

Lemma steady_retry : steady (process_retry_queue name_order device_key sync_tree).
Proof.
  unfold process_retry_queue. apply (steady_round (fun now q => retry_ready name_order device_key sync_tree now q []) set_retry_queue).
  - intros. apply idle_retry_ready.
  - intros now q w w' kept Hq. by apply retry_ready_tried.
  - apply steady_set.
Qed.

Lemma steady_flush_retry : steady (flush_retry_queue name_order device_key sync_tree).
Proof.
  unfold flush_retry_queue. apply (steady_round (fun now q => retry_all name_order device_key sync_tree now q [])
    (fun l => await _ <- set_retry_queue l; wm_ret (length l))).
  - intros. apply idle_retry_all.
  - intros now q w w' kept Hq. by apply retry_all_tried.
  - intros kept Hk. apply steady_bind; [by apply steady_set|]. intros ?. apply steady_idle, idle_ret.
Qed.

Lemma steady_add peer es now : steady (add_to_retry_queue peer es now).
Proof.
  intros w w' r Hw. unfold add_to_retry_queue, wm_bind, background. destruct (w_background w) as [b|] eqn:Eb; [|by intros [= <- _]].
  apply steady_set; [|done]. apply Forall_app_2; [by apply (eo_retries _ Hw)|]. by apply Forall_singleton.
Qed.

Lemma steady_batches batches : forall k, steady (send_batches name_order device_key sync_tree batches k).
Proof.
  induction batches as [|[peer ids] batches IH]; intros k; cbn [send_batches]; [apply steady_idle, idle_ret|].
  apply steady_bind; [apply steady_idle, idle_node|]. intros es. destruct (is_nil es); [apply IH|].
  apply steady_bind; [apply steady_idle, idle_try, idle_send|]. intros [?|?]; [apply IH|].
  apply steady_bind; [apply steady_idle, idle_node|]. intros now. apply steady_bind; [apply steady_add|]. intros ?. apply IH.
Qed.

Lemma steady_queue : steady (process_queue name_order peer_order device_key sync_tree).
Proof.
  intros w w' r [H1 H2 H3] H. unfold process_queue, drain in H. eapply steady_batches; [|exact H]. split; [done|constructor..].
Qed.

Lemma steady_enqueue peer id tree : steady (queue_entry_for_sync peer id tree).
Proof.
  apply steady_bind; [apply steady_idle, idle_background|]. intros ? w w' r [H1 H2 H3] [= <- _].
  split; [done|by apply enqueue_NoDup|by apply enqueue_nonempty].
Qed.

Lemma steady_queue_peers peers id tree : steady (queue_for_peers peers id tree).
Proof.
  induction peers as [|peer peers IH]; cbn [queue_for_peers]; [apply steady_idle, idle_ret|].
  apply steady_bind; [apply steady_enqueue|]. intros ?. apply IH.
Qed.

Lemma steady_queue_new peers tree ids : steady (queue_new_entries peers tree ids).
Proof.
  induction ids as [|id ids IH]; cbn [queue_new_entries]; [apply steady_idle, idle_ret|].
  apply steady_bind; [apply steady_queue_peers|]. intros ?. apply IH.
Qed.

Lemma steady_write event tree : steady (on_local_write sync_tree event tree).
Proof.
  intros w w' r Hw. unfold on_local_write. destruct (w_background w); [|by intros [= <- _]].
  apply steady_bind; [apply steady_idle, idle_node| |done]. intros peers.
  destruct (is_nil peers); [apply steady_idle, idle_ret|].
  apply steady_bind; [apply steady_idle, idle_node|]. intros ids. apply steady_queue_new.
Qed.

Lemma steady_start : steady start_background_sync.
Proof.
  intros w w' r Hw. unfold start_background_sync. destruct (w_background w) eqn:Eb; [by intros [= <- _]|]. intros [= <- _].
  destruct Hw. split; [|done..]. intros b [= <-]. constructor.
Qed.

Lemma steady_transports m : steady (with_transports m).
Proof.
  intros w w' r [H1 H2 H3] [= <- _]. split; [|done..]. cbn. intros b. destruct (w_background w) as [b0|] eqn:Eb; [|done].
  intros [= <-]. exact (H1 b0 eq_refl).
Qed.

Lemma engine_ok_net w net : engine_ok w -> engine_ok (with_net w net).
Proof. by intros []. Qed.

Lemma steady_servers f : steady (command_servers f).
Proof.
  apply steady_bind; [apply steady_idle, idle_background|]. intros b w w' r Hw.
  destruct (f (transport_manager b) (w_net w)) as [[m net] r1].
  intros H. unfold with_transports in H. injection H as <- _. eapply (steady_transports m (with_net w net)); [by apply engine_ok_net|reflexivity].
Qed.

Ltac idles := repeat first
  [ apply idle_ret | apply idle_fail | apply idle_node | apply idle_background | apply idle_request | apply idle_send
  | apply idle_try | apply idle_bind; [|intros ?]
  | match goal with |- idle (match ?x with _ => _ end) => destruct x end | progress cbn zeta ].

Lemma idle_command addr request : idle (command_request name_order addr request).
Proof. unfold command_request. idles. Qed.

Lemma idle_exchange peer tree key : idle (sync_tree_with_peer_as name_order device_key sync_tree peer tree key).
Proof.
  unfold sync_tree_with_peer_as, handle_incremental_response, send_missing_entries_to_peer.
  repeat first [apply idle_command | progress idles].
Qed.

Lemma idle_connect addr : idle (connect_to_peer name_order device_key sync_tree addr).
Proof. unfold connect_to_peer. idles. Qed.

Lemma idle_bg_sync peer : idle (bg_sync_with_peer name_order device_key sync_tree peer).
Proof.
  apply idle_bind; [idles|]. intros [addr trees]. induction trees; cbn [bg_sync_trees]; [idles|].
  unfold bg_sync_tree_with_peer. apply idle_bind; [idles|]. intros ?. done.
Qed.

Lemma idle_periodic : idle (periodic_sync_all_peers name_order device_key sync_tree).
Proof.
  unfold periodic_sync_all_peers. apply idle_bind; [idles|]. intros [peers|]; [|idles].
  induction peers as [|p peers IH]; cbn [bg_sync_peers]; [idles|]. destruct (decide _); [|done].
  apply idle_bind; [apply idle_try, idle_bg_sync|]. intros ?. done.
Qed.

Lemma steady_try {A} (m : Wm A) : steady m -> steady (wm_try m).
Proof.
  intros Hm w w' r Hw. unfold wm_try. destruct (m w) as [[[w1 r1]|]|] eqn:E; [|done..]. intros [= <- _]. by eapply Hm.
Qed.

Lemma steady_ret {A} (a : A) : steady (wm_ret a).
Proof. apply steady_idle, idle_ret. Qed.

Lemma steady_then {A B} (m : Wm A) (b : A -> B) : steady m -> steady (await x <- m; wm_ret (b x)).
Proof. intros Hm. apply steady_bind; [done|]. intros x. apply steady_ret. Qed.

Lemma steady_reply {A} (mk : Result A Error -> CommandReply) m : steady m -> steady (reply mk m).
Proof. intros Hm. by apply steady_then, steady_try. Qed.

Lemma steady_command command : steady (handle_command name_order peer_order device_key sync_tree command).
Proof.
  destruct command as [peer es|peer| |name t|name|name|name| |addr|addr request|]; cbn [handle_command].
  - apply steady_bind; [apply steady_idle, idle_try, idle_send|]. intros []; [apply steady_ret|].
    apply steady_bind; [apply steady_idle, idle_node|]. intros now. by apply (steady_then _ (fun _ => NoReply)), steady_add.
  - apply (steady_then _ (fun _ => NoReply)), steady_try, steady_idle, idle_bg_sync.
  - apply steady_idle, idle_fail.
  - apply steady_bind; [apply steady_idle, idle_background|]. intros b. apply (steady_then _ (fun _ => ReplyUnit (Ok tt))).
    intros w w' r Hw. destruct (replace_transport _ _ _ _) as [m net]. apply steady_transports. by apply engine_ok_net.
  - apply steady_reply, steady_servers.
  - apply steady_reply, steady_servers.
  - apply steady_bind; [apply steady_idle, idle_background|]. intros b. apply steady_ret.
  - apply steady_bind; [apply steady_idle, idle_background|]. intros b. apply steady_ret.
  - apply steady_reply, steady_idle, idle_connect.
  - apply steady_reply, steady_idle, idle_request.
  - apply steady_bind; [apply steady_flush_retry|]. intros k. apply steady_then, steady_queue.
Qed.

Lemma steady_turn interval event secs :
  steady (run_turn name_order peer_order device_key sync_tree interval event secs).
Proof.
  destruct event; cbn [run_turn]; try apply (steady_then _ (fun _ => secs)).
  - apply steady_try, steady_command.
  - apply steady_queue.
  - apply steady_idle, idle_periodic.
  - apply steady_retry.
  - apply steady_ret.
  - apply steady_bind; [apply steady_idle, idle_node|]. intros [new|]; [|apply steady_ret]. destruct (_ =? _); [apply steady_ret|].
    apply (steady_then _ (fun _ => new)). intros w w' r Hw. unfold set_timer. destruct (interval new); [|done]. by intros [= <- _].
Qed.
End engine.

(** ** Every state the engine reaches *)

Section reachable.
Context `{IS : InstanceSpec} `{JS : !JsonSpec} `{LS : !LruSpec CacheKey (list Byte.byte)} `{PJ : PeerJson} `{UJ : UserJson}.
Context `{NE : !NodeEnv} `{RQ : !RowCodec BootstrapRequest} `{ST : !SyncTransport}.
Context (name_order : gmap string Transport -> list (string * Transport)).
Context (peer_order : SyncQueue -> SyncQueue).
Context (device_key : PrivateKey) (sync_tree : DbHandle) (interval : Z -> Outcome unit).

(** [m] runs from [w] to [w'], whatever it returns. *)
Definition runs {A} (m : Wm A) (w w' : World) : Prop := exists r, m w = Some (Done (w', r)).

(** The engine is started, its loop turns, and the front end writes and exchanges. *)
Inductive engine_step (w w' : World) : Prop :=
| step_start : runs start_background_sync w w' -> engine_step w w'
| step_turn event secs : runs (run_turn name_order peer_order device_key sync_tree interval event secs) w w' -> engine_step w w'
| step_write event tree : runs (on_local_write sync_tree event tree) w w' -> engine_step w w'
| step_enqueue peer id tree : runs (queue_entry_for_sync peer id tree) w w' -> engine_step w w'
| step_exchange peer tree key :
    runs (sync_tree_with_peer_as name_order device_key sync_tree peer tree key) w w' -> engine_step w w'.

Lemma runs_ok {A} (m : Wm A) w w' : steady m -> runs m w w' -> engine_ok w -> engine_ok w'.
Proof. intros Hm [r E] Hw. by eapply Hm. Qed.

Lemma engine_step_ok w w' : engine_step w w' -> engine_ok w -> engine_ok w'.
Proof.
  intros []; (eapply runs_ok; [|done]).
  - apply steady_start.
  - apply steady_turn.
  - apply steady_write.
  - apply steady_enqueue.
  - apply steady_idle, idle_exchange.
Qed.

Lemma engine_steps_ok w w' : rtc engine_step w w' -> engine_ok w -> engine_ok w'.
Proof. induction 1; eauto using engine_step_ok. Qed.

(** *** A round of the retry timer *)

(** How long a batch has to rest after its last attempt: two seconds, doubled
    with each failure, up to 64 seconds. *)
Definition rest_ms (e : RetryEntry) : Z := if re_attempts e <=? 6 then 1000 * 2 ^ re_attempts e else 64000.

Definition rested (now : Z) (e : RetryEntry) : Prop := re_last_attempt_ms e + rest_ms e <= now.

(** A round at time [now], from the queue to what it leaves of it: nothing is sent
    for a batch that has not rested; the others are sent, and those that fail
    again stay with one more failure, unless it is the tenth. *)
Inductive timed_round (now : Z) : list RetryEntry -> World -> World -> list RetryEntry -> Prop :=
| round_end w : timed_round now [] w w []
| round_rests e queue w w' kept :
    ~ rested now e -> timed_round now queue w w' kept -> timed_round now (e :: queue) w w' (e :: kept)
| round_sent e queue w w1 w' kept :
    rested now e -> send_to_peer name_order device_key sync_tree (re_peer e) (re_entries e) w = Some (Done (w1, Ok tt)) ->
    timed_round now queue w1 w' kept -> timed_round now (e :: queue) w w' kept
| round_failed e queue w w1 w' kept err :
    rested now e -> send_to_peer name_order device_key sync_tree (re_peer e) (re_entries e) w = Some (Done (w1, Err err)) ->
    re_attempts e + 1 < 10 -> timed_round now queue w1 w' kept ->
    timed_round now (e :: queue) w w' (mkRetryEntry (re_peer e) (re_entries e) (re_attempts e + 1) now :: kept)
| round_given_up e queue w w1 w' kept err :
    rested now e -> send_to_peer name_order device_key sync_tree (re_peer e) (re_entries e) w = Some (Done (w1, Err err)) ->
    10 <= re_attempts e + 1 -> timed_round now queue w1 w' kept -> timed_round now (e :: queue) w w' kept.

Lemma backoff_rests now e :
  tried e -> backoff_ms (re_attempts e) <=? Z.max 0 (now - re_last_attempt_ms e) = true <-> rested now e.
Proof.
  intros [H1 H9]. unfold rested, rest_ms, backoff_ms. rewrite Z.leb_le.
  assert (0 < 2 ^ Z.min (re_attempts e) 6) by (apply Z.pow_pos_nonneg; lia).
  destruct (Z.leb_spec (re_attempts e) 6); [rewrite Z.min_l in * by lia; lia|].
  rewrite Z.min_r in * by lia. change (2 ^ 6) with 64 in *. lia.
Qed.

Lemma retry_ready_round now queue : forall still w w' r, Forall tried queue ->
  retry_ready name_order device_key sync_tree now queue still w = Some (Done (w', r)) ->
  exists kept, r = Ok (still ++ kept) /\ timed_round now queue w w' kept.
Proof.
  induction queue as [|e queue IH]; intros still w w' r Hq; cbn [retry_ready].
  { intros [= <- <-]. exists []. rewrite app_nil_r. split; [done|constructor]. }
  apply Forall_cons in Hq as [He Hq]. pose proof (backoff_rests now e He) as Hb.
  destruct (_ <=? _).
  2: { intros (kept & -> & Hr)%IH; [|done]. exists (e :: kept). rewrite <- app_assoc. split; [done|].
       constructor; [|done]. by intros ?%Hb. }
  pose proof (proj1 Hb eq_refl) as Hrest. unfold retry_one, wm_bind, wm_try.
  destruct (send_to_peer _ _ _ _ _ w) as [[[w1 [[]|err]]|]|] eqn:E; [| |done..]; cbn [wm_ret re_attempts].
  - intros (kept & -> & Hr)%IH; [|done]. rewrite app_nil_r. exists kept. split; [done|]. by eapply round_sent.
  - destruct He as [H1 H9].
    assert (as_u32 (re_attempts e + 1) = re_attempts e + 1) as -> by (unfold as_u32; apply Z.mod_small; lia).
    destruct (Z.ltb_spec (re_attempts e + 1) 10); intros (kept & -> & Hr)%IH; try done.
    + eexists (_ :: kept). rewrite <- app_assoc. split; [done|]. by eapply round_failed.
    + rewrite app_nil_r. exists kept. split; [done|]. by eapply round_given_up.
Qed.

Lemma idle_round now queue w w' kept :
  timed_round now queue w w' kept -> w_background w' = w_background w /\ w_queue w' = w_queue w.
Proof.
  induction 1 as [|?????? _ IH|?????? _ E _ IH|??????? _ E _ _ IH|??????? _ E _ _ IH]; try done;
    apply idle_send in E as [? ?]; destruct IH; split; congruence.
Qed.

End reachable.

(** ** What a flush delivers *)

Section delivered.
Context `{IS : InstanceSpec} `{JS : !JsonSpec} `{LS : !LruSpec CacheKey (list Byte.byte)} `{PJ : PeerJson} `{UJ : UserJson}.
Context `{NE : !NodeEnv} `{RQ : !RowCodec BootstrapRequest}.
Context (server_key : PrivateKey) (server_sync : ID) (client_addr : string).
Context (bind : string -> Server -> Server * option string).
#[local] Existing Instance pair_transport.
#[local] Notation T := (pair_transport server_key server_sync client_addr bind).
#[local] Notation World := (World (ST := T)).
Context (name_order : gmap string (Transport (SyncTransport := T)) -> list (string * Transport (SyncTransport := T))).
Hypothesis (Hnames : forall m, name_order m ≡ₚ map_to_list m).
Context (peer_order : SyncQueue -> SyncQueue).
Hypothesis (Hpeers : forall q, peer_order q ≡ₚ q).
Context (device_key : PrivateKey) (sync_tree : DbHandle).

Notation client w := (entries (node_engine (w_node (ST := T) w))).
Notation server w := (entries (node_engine (sv_node (w_net (ST := T) w)))).

(** The server has everything of [es] that is valid. *)
Definition arrived (w : World) (es : list Entry) : Prop :=
  forall e, e ∈ es -> Entry_validate e = Ok tt -> is_Some (server w !! Entry_id e).

(** A step of the sender: it reads here and adds there. *)
Record sends (w w' : World) : Prop := {
  sn_client_ok : node_ok (w_node w) -> node_ok (w_node w');
  sn_server_ok : node_ok (sv_node (w_net w)) -> node_ok (sv_node (w_net w'));
  sn_client : client w' = client w;
  sn_server : server w ⊆ server w';
}.

Lemma sends_refl w : sends w w.
Proof. by split. Qed.

Lemma sends_trans w1 w2 w3 : sends w1 w2 -> sends w2 w3 -> sends w1 w3.
Proof. intros [A1 B1 C1 D1] [A2 B2 C2 D2]. split; [auto|auto|congruence|by etrans]. Qed.

Lemma arrived_later w w' es : sends w w' -> arrived w es -> arrived w' es.
Proof. intros Hs H e He Hv. destruct (H e He Hv) as [x Hx]. exists x. eapply lookup_weaken; [exact Hx|apply Hs]. Qed.

Lemma reads_bg_peer_info peer : reads (bg_peer_info device_key sync_tree peer).
Proof.
  unfold bg_peer_info, get_sync_tree, open_with_device_key. apply reads_bind; [only_reads|]. intros db.
  apply reads_bind; [apply reads_view; [apply map_order_ok|]; apply calm_staging; eauto with staging|].
  intros [info|]; [destruct (head _)|]; first [apply reads_ret|apply reads_lift].
Qed.

Lemma sends_node {A} (m : Nm A) (w w' : World) r : reads m -> node_ok (w_node w) -> at_node m w = Some (Done (w', r)) -> sends w w'.
Proof.
  intros Hm Hn. unfold at_node. destruct (m (w_node w)) as [[[n r1]|]|] eqn:E; [|done..]. intros [= <- _].
  destruct (Hm _ _ _ Hn E). by split.
Qed.

Lemma sends_request addr request (w w' : World) r :
  node_ok (sv_node (w_net w)) -> send_sync_request name_order addr request w = Some (Done (w', r)) -> sends w w'.
Proof.
  intros Hn. unfold send_sync_request, wm_bind, background. destruct (w_background w) as [b|]; [|intros [= <- _]; apply sends_refl].
  destruct (manager_routes name_order Hnames (transport_manager b) addr request (w_net w)) as [(name & t & _ & Hc & ->)|[_ ->]];
    [|intros [= <- _]; by split].
  change (transport_send t addr request (w_net w))
    with (Http_send_request Server (serve_post server_key server_sync client_addr) t addr request (w_net w)).
  change (can_handle_address t addr) with (Http_can_handle_address t addr) in Hc. unfold Http_send_request.
  rewrite Hc. cbn [negb]. unfold serve_post.
  pose proof (safe_handle_request (public_key server_key) server_key server_sync request (request_context client_addr request)
    (sv_spent (w_net w)) (sv_node (w_net w)) Hn) as Hs.
  destruct (handle_request _ _ _ _ _ _ _) as [[[n [[sp resp']|]]|]|]; [| |done..]; intros [= <- _]; destruct Hs as (? & ? & _); by split.
Qed.

(** Both instances are in order. *)
Definition both_ok (w : World) : Prop := node_ok (w_node w) /\ node_ok (sv_node (w_net (ST := T) w)).

Lemma both_sends w w' : both_ok w -> sends w w' -> both_ok w'.
Proof. intros [H1 H2] [A1 A2 _ _]. split; auto. Qed.

Lemma sent_to_peer peer es (w w' : World) r :
  both_ok w -> send_to_peer name_order device_key sync_tree peer es w = Some (Done (w', r)) ->
  sends w w' /\ (r = Ok tt -> arrived w' es).
Proof.
  intros Hw. unfold send_to_peer. unfold wm_bind at 1.
  destruct (at_node (bg_peer_info device_key sync_tree peer) w) as [[[w1 [[db addr]|e]]|]|] eqn:E1; [| |done..]; intros H.
  2: { injection H as <- <-. split; [|done]. eapply sends_node; [apply reads_bg_peer_info|apply Hw|exact E1]. }
  assert (sends w w1) as Hs1 by (eapply sends_node; [apply reads_bg_peer_info|apply Hw|exact E1]).
  pose proof (both_sends _ _ Hw Hs1) as Hw1. unfold wm_bind at 1 in H.
  destruct (send_sync_request name_order addr (ReqSendEntries es) w1) as [[[w2 [resp|e]]|]|] eqn:E2; [| |done..].
  2: { injection H as <- <-. split; [|done]. eapply sends_trans; [done|]. by eapply sends_request; [apply Hw1|]. }
  assert (sends w1 w2) as Hs2 by (by eapply sends_request; [apply Hw1|]).
  assert (w' = w2) as -> by (destruct resp; by injection H as <- _). split; [by eapply sends_trans|]. intros _ e He Hv.
  apply (sent_request_ok server_key server_sync client_addr bind name_order Hnames) in E2 as [_ E2].
  apply entries_handled in E2 as [_ (_ & Hin & _)]; [|apply Hw1]. by apply Hin.
Qed.

(** A round of retries that keeps nothing has sent every batch but those that were
    given up. *)
Lemma retry_all_sends now queue : forall still (w w' : World) kept,
  both_ok w -> Forall tried queue ->
  retry_all name_order device_key sync_tree now queue still w = Some (Done (w', Ok kept)) ->
  sends w w' /\ exists more, kept = still ++ more
    /\ (more = [] -> forall e, e ∈ queue -> re_attempts e < 9 -> arrived w' (re_entries e)).
Proof.
  induction queue as [|e queue IH]; intros still w w' kept Hw Hq; cbn [retry_all].
  { intros [= <- <-]. split; [apply sends_refl|]. exists []. split; [by rewrite app_nil_r|]. by intros _ e ?%elem_of_nil. }
  apply Forall_cons in Hq as [[Hlo Hhi] Hq]. intros (w1 & k & E & H)%wm_bind_ok.
  apply wm_bind_ok in E as (w2 & r & E & E'). unfold wm_try in E.
  destruct (send_to_peer _ _ _ _ _ w) as [[[w3 r3]|]|] eqn:Es; [|done..]. injection E as <- <-.
  apply sent_to_peer in Es as [Hs Har]; [|done]. assert (w1 = w3) as -> by (destruct r3; by injection E' as <- _).
  apply IH in H as [Hs' (more & -> & Hmore)]; [|by eapply both_sends|done]. split; [by eapply sends_trans|].
  exists (k ++ more). split; [by rewrite app_assoc|]. intros [-> ->]%app_eq_nil e' [->|He']%elem_of_cons Hlt; [|by apply Hmore].
  eapply arrived_later; [done|]. destruct r3 as [[]|]; [by apply Har|]. injection E' as E'. cbn [re_attempts] in E'.
  assert (as_u32 (re_attempts e + 1) = re_attempts e + 1) as Hu by (unfold as_u32; apply Z.mod_small; lia). rewrite Hu in E'.
  destruct (Z.ltb_spec (re_attempts e + 1) 10); [done|lia].
Qed.

Lemma fetch_entries_elem inner ids e :
  mem_inv inner -> e ∈ fetch_entries inner ids <-> exists id t, (id, t) ∈ ids /\ entries inner !! id = Some e.
Proof.
  intros Hm. induction ids as [|[id t] ids IH]; cbn [fetch_entries].
  { split; [by intros ?%elem_of_nil|]. by intros (? & ? & ?%elem_of_nil & _). }
  unfold storage_get. destruct (entries inner !! id) as [x|] eqn:Hx; cbn [ok_or].
  - rewrite elem_of_cons, IH. split.
    + intros [->|(id' & t' & Hin & He)]; [exists id, t; split; [by left|done]|exists id', t'; split; [by right|done]].
    + intros (id' & t' & [[= -> ->]|Hin]%elem_of_cons & He); [left; congruence|right; eauto].
  - rewrite IH. split; [intros (id' & t' & Hin & He); exists id', t'; split; [by right|done]|].
    intros (id' & t' & [[= -> ->]|Hin]%elem_of_cons & He); [congruence|eauto].
Qed.

(** The server has the entries of the pairs that are stored here. *)
Definition pairs_arrived (w w' : World) (ids : list (ID * ID)) : Prop :=
  forall id t e, (id, t) ∈ ids -> client w !! id = Some e -> is_Some (server w' !! id).

Lemma fetched_arrived (w w' : World) ids :
  node_ok (w_node w) -> arrived w' (fetch_entries (node_engine (w_node w)) ids) -> pairs_arrived w w' ids.
Proof.
  intros [Hm _] Ha id t e Hin He. rewrite <- (mi_ids _ Hm _ _ He). apply Ha; [apply fetch_entries_elem; eauto|].
  by eapply mi_valid.
Qed.

Lemma failures_grow batches : forall k (w w' : World) k',
  send_batches name_order device_key sync_tree batches k w = Some (Done (w', Ok k')) -> (k <= k')%nat.
Proof.
  induction batches as [|[peer ids] batches IH]; intros k w w' k'; cbn [send_batches]; [intros [= _ <-]; lia|].
  intros (w1 & es & _ & H)%wm_bind_ok. destruct (is_nil es); [by apply IH in H|].
  apply wm_bind_ok in H as (w2 & [?|?] & _ & H); [by apply IH in H|].
  apply wm_bind_ok in H as (w3 & now & _ & H). apply wm_bind_ok in H as (w4 & ? & _ & H). apply IH in H. lia.
Qed.

Lemma batches_sent batches : forall k (w w' : World),
  both_ok w -> send_batches name_order device_key sync_tree batches k w = Some (Done (w', Ok k)) ->
  sends w w' /\ w_background w' = w_background w /\ w_queue w' = w_queue w
  /\ forall peer ids, (peer, ids) ∈ batches -> pairs_arrived w w' ids.
Proof.
  induction batches as [|[peer ids] batches IH]; intros k w w' Hw; cbn [send_batches].
  { intros [= <-]. split; [apply sends_refl|]. do 2 (split; [done|]). by intros ? ? ?%elem_of_nil. }
  intros (w1 & es & E & H)%wm_bind_ok. unfold at_node, nm_read in E. injection E as <- <-.
  replace (with_node w (w_node w)) with w in H by (by destruct w).
  assert (exists w1, both_ok w1 /\ sends w w1 /\ w_background w1 = w_background w /\ w_queue w1 = w_queue w
    /\ arrived w1 (fetch_entries (node_engine (w_node w)) ids)
    /\ send_batches name_order device_key sync_tree batches k w1 = Some (Done (w', Ok k))) as (w1 & Hw1 & Hs & Eb & Eq & Ha & H').
  { destruct (is_nil _) eqn:En.
    { exists w. do 4 (split; [first [done|apply sends_refl]|]). split; [|done].
      destruct (fetch_entries _ _); [by intros e ?%elem_of_nil|done]. }
    apply wm_bind_ok in H as (w2 & r & E & H). unfold wm_try in E.
    destruct (send_to_peer _ _ _ _ _ _) as [[[w3 r3]|]|] eqn:Es; [|done..]. injection E as <- <-.
    destruct (idle_send _ _ _ _ _ _ _ _ Es) as [Eb Eq]. apply sent_to_peer in Es as [Hs Ha]; [|done].
    destruct r3 as [[]|]; [exists w3; split; [by eapply (both_sends w)|auto 10]|].
    apply wm_bind_ok in H as (w4 & now & _ & H). apply wm_bind_ok in H as (w5 & ? & _ & H). apply failures_grow in H. lia. }
  apply IH in H' as (Hs' & Eb' & Eq' & Hall); [|done]. split; [by eapply sends_trans|]. do 2 (split; [congruence|]).
  intros peer' ids' [[= -> ->]|Hin]%elem_of_cons.
  - apply fetched_arrived; [apply Hw|]. by eapply arrived_later.
  - intros id t e Hid He. eapply Hall; [done..|]. rewrite (sn_client _ _ Hs). exact He.
Qed.

Lemma flush_retry_sends (w w' : World) k b :
  both_ok w -> w_background w = Some b -> Forall tried (retry_queue b) ->
  flush_retry_queue name_order device_key sync_tree w = Some (Done (w', Ok k)) ->
  sends w w' /\ w_queue w' = w_queue w /\ exists b', w_background w' = Some b' /\ length (retry_queue b') = k
    /\ (k = 0%nat -> forall e, e ∈ retry_queue b -> re_attempts e < 9 -> arrived w' (re_entries e)).
Proof.
  intros Hw Hb Hq (w1 & now & E & H)%wm_bind_ok. destruct (idle_node _ _ _ _ E) as [Eb Eq].
  assert (sends w w1) as Hs by (eapply (sends_node now_millis); [unfold now_millis; only_reads|apply Hw|exact E]).
  apply wm_bind_ok in H as (w2 & b2 & E2 & H). unfold background in E2. rewrite Eb, Hb in E2. injection E2 as <- <-.
  apply wm_bind_ok in H as (w3 & ? & E3 & H). unfold set_retry_queue in E3. rewrite Eb, Hb in E3. injection E3 as <- _.
  apply wm_bind_ok in H as (w4 & kept & E4 & H). destruct (idle_retry_all _ _ _ _ _ _ _ _ _ E4) as [Eb4 Eq4].
  apply retry_all_sends in E4 as [Hs4 (more & -> & Hall)]; [|by apply (both_sends w w1)|done].
  apply wm_bind_ok in H as (w5 & ? & E5 & H). injection H as <- <-. unfold set_retry_queue in E5. rewrite Eb4 in E5. injection E5 as <- _.
  assert (sends w w4) as Hs' by (destruct Hs4; by eapply sends_trans).
  split; [by destruct Hs'|]. split; [cbn; by rewrite Eq4|]. eexists. split; [done|]. split; [done|].
  intros Hk. destruct more; [|done]. by apply Hall.
Qed.

(** The two halves of a flush that succeeds. *)
Lemma flush_sends (w w' : World) b :
  both_ok w -> w_background w = Some b -> Forall tried (retry_queue b) ->
  flush name_order peer_order device_key sync_tree w = Some (Done (w', Ok tt)) ->
  sends w w' /\ (forall peer ids, (peer, ids) ∈ w_queue w -> pairs_arrived w w' ids)
  /\ (forall r, r ∈ retry_queue b -> re_attempts r < 9 -> arrived w' (re_entries r))
  /\ w_queue w' = SyncQueue_new /\ exists b', w_background w' = Some b' /\ retry_queue b' = [].
Proof.
  intros Hw Hb Hq (w1 & b1 & E & H)%wm_bind_ok. unfold background in E. rewrite Hb in E. injection E as <- <-.
  apply wm_bind_ok in H as (w1 & k & E1 & H). apply (flush_retry_sends _ _ _ b) in E1 as (Hs1 & Eq1 & b1 & Eb1 & Ek & Hall); [|done..].
  apply wm_bind_ok in H as (w2 & k2 & E2 & H).
  assert (k = 0%nat /\ k2 = 0%nat /\ w2 = w') as (-> & -> & ->) by (destruct k, k2; [by injection H as <-|done..]).
  unfold process_queue, drain in E2. apply batches_sent in E2 as (Hs2 & Eb2 & Eq2 & Hin); [|by apply (both_sends w w1)].
  assert (sends w1 w') as Hs by (destruct Hs2; by split). cbn in Eb2, Eq2.
  split; [by eapply sends_trans|]. split; [|split; [|split; [done|]]].
  - intros peer ids Hp id t e Hid He. eapply (Hin peer ids); [|exact Hid|].
    + rewrite Hpeers. by rewrite Eq1.
    + cbn. rewrite (sn_client _ _ Hs1). exact He.
  - intros r Hr Hlt. eapply arrived_later; [exact Hs|]. by apply Hall.
  - exists b1. split; [congruence|]. by apply nil_length_inv.
Qed.

(** C29: A flush that succeeds has brought the entries to the peer: every queued pair
    whose entry is stored here is stored there, and every valid entry of a batch that
    waited for a retry, unless this was the batch's last attempt; both queues
    are empty, and nothing changed here. *)
Theorem flush_delivers (w w' : World) b :
  node_ok (w_node w) -> node_ok (sv_node (w_net w)) -> w_background w = Some b -> Forall tried (retry_queue b) ->
  flush name_order peer_order device_key sync_tree w = Some (Done (w', Ok tt)) ->
  client w' = client w /\ server w ⊆ server w'
  /\ (forall peer ids id t e, (peer, ids) ∈ w_queue w -> (id, t) ∈ ids -> client w !! id = Some e -> is_Some (server w' !! id))
  /\ (forall r e, r ∈ retry_queue b -> re_attempts r < 9 -> e ∈ re_entries r -> Entry_validate e = Ok tt ->
        is_Some (server w' !! Entry_id e))
  /\ w_queue w' = SyncQueue_new /\ exists b', w_background w' = Some b' /\ retry_queue b' = [].
Proof.
  intros Hc Hs Hb Hq H. apply (flush_sends _ _ b) in H as ([_ _ Hcl Hsv] & Hin & Hall & Hend); [|done..].
  split; [done|]. split; [done|]. split; [|split; [|done]].
  - intros peer ids id t e Hp Hid He. by eapply Hin.
  - intros r e Hr Hlt He Hv. by eapply Hall.
Qed.
End delivered.

(** ** Concrete runs *)

#[local] Existing Instance nat_cid.
#[local] Existing Instance byte_crypto.
#[local] Existing Instance list_lru.
#[local] Existing Instance wire_codec.
#[local] Existing Instance wire_json.
#[local] Existing Instance wire_peers.
#[local] Existing Instance wire_instance.
#[local] Existing Instance wire_env.
#[local] Existing Instance wire_users.
#[local] Existing Instance pair_net.

(** Two empty instances: a batch for a peer that is not known. *)
Definition empty_world : World := mkWorld empty_node (mkServer empty_node []) None SyncQueue_new.
Definition send_unknown : Wm Z :=
  run_turn map_to_list (fun q => q) admin_sk asked_sync (fun _ => Done tt) (OnCommand (SendEntries (public_key admin_sk) [])) 300.


(** The copies of [SyncExchange], with the client's write queued. *)
Definition missing_pairs (cs ss : gmap ID Entry) : list (ID * ID) :=
  (fun e => (Entry_id e, one_root)) <$> filter (fun e => in_tree e one_root = true /\ ss !! Entry_id e = None) (entry_values cs).

Definition queued_world (c sv : Node) : World :=
  mkWorld c (mkServer sv []) (Some pair_background)
    [(public_key admin_sk, missing_pairs (entries (node_engine c)) (entries (node_engine sv)))].

Definition flushed (r : option (Outcome (World * Result unit Error))) (pairs : nat) : bool :=
  match r with Some (Done (_, Ok tt)) => (pairs =? 1)%nat | _ => false end.

Notation flush_run := (flush map_to_list (fun q => q) admin_sk asked_sync (queued_world client_node server_node)).

Lemma flush_runs :
  flushed flush_run (length (missing_pairs (entries (node_engine client_node)) (entries (node_engine server_node)))) = true.
Proof. vm_cast_no_check (eq_refl true). Qed.

Lemma flushed_inv r k : flushed r k = true -> k = 1%nat /\ exists w', r = Some (Done (w', Ok tt)).
Proof. destruct r as [[[w' [[]|]]|]|]; [|done..]. intros H. split; [by apply Nat.eqb_eq|by eexists]. Qed.

Lemma missing_pairs_inv cs ss : ids_ok cs -> length (missing_pairs cs ss) = 1%nat ->
  exists id e, missing_pairs cs ss = [(id, one_root)] /\ cs !! id = Some e /\ ss !! id = None.
Proof.
  intros Hids H. destruct (missing_pairs cs ss) as [|p [|? ?]] eqn:E; [done| |done].
  assert (p ∈ missing_pairs cs ss) as Hp by (rewrite E; by apply list_elem_of_singleton).
  unfold missing_pairs in Hp. apply list_elem_of_fmap in Hp as (e & -> & [[_ Hn] Hin]%list_elem_of_filter).
  apply elem_of_entry_values in Hin as [id Hid]. pose proof (Hids _ _ Hid) as <-. by exists (Entry_id e), e.
Qed.

Lemma flush_delivers_witness : exists id w', flush_run = Some (Done (w', Ok tt))
  /\ entries (node_engine server_node) !! id = None /\ is_Some (entries (node_engine (sv_node (w_net w'))) !! id).
Proof.
  assert (forall c sv w w', w = queued_world c sv -> node_ok c -> node_ok sv ->
    length (missing_pairs (entries (node_engine c)) (entries (node_engine sv))) = 1%nat ->
    flush map_to_list (fun q => q) admin_sk asked_sync w = Some (Done (w', Ok tt)) ->
    exists id, entries (node_engine sv) !! id = None /\ is_Some (entries (node_engine (sv_node (w_net w'))) !! id)) as H.
  { intros c sv w w' -> Hc Hs Hl Er.
    destruct (missing_pairs_inv _ _ (mi_ids _ (no_mem _ Hc)) Hl) as (id & e & Hm & He & Hn). exists id. split; [exact Hn|].
    destruct (flush_delivers admin_sk (db_root asked_sync) "client" pair_bind map_to_list (fun m => Permutation_refl _)
      (fun q => q) (fun q => Permutation_refl _) admin_sk asked_sync (queued_world c sv) w' pair_background Hc Hs eq_refl
      (List.Forall_nil _) Er) as (_ & _ & Hall & _).
    apply (Hall (public_key admin_sk) (missing_pairs (entries (node_engine c)) (entries (node_engine sv))) id one_root e); [apply elem_of_cons; left; reflexivity| |exact He].
    rewrite Hm. apply elem_of_cons. left. reflexivity. }
  destruct (flushed_inv _ _ flush_runs) as (Hl & w' & Er).
  destruct (H client_node server_node _ w' eq_refl client_node_ok server_node_ok Hl Er) as (id & Hn & Hi).
  exists id, w'. split; [exact Er|]. split; [exact Hn|exact Hi].
Defined.

(** A batch whose tenth attempt fails is dropped and not counted: the flush succeeds
    although nothing was sent. *)
Definition last_attempt : World :=
  mkWorld empty_node (mkServer empty_node []) (Some (mkBackgroundSync ∅ [mkRetryEntry (public_key admin_sk) [] 9 0])) SyncQueue_new.

Lemma flush_forgets_last_failure : exists w' b',
  flush map_to_list (fun q => q) admin_sk asked_sync last_attempt = Some (Done (w', Ok tt))
  /\ w_background w' = Some b' /\ retry_queue b' = [].
Proof.
  set (answer := flush map_to_list (fun q => q) admin_sk asked_sync last_attempt).
  assert (match answer with
          | Some (Done (w', Ok tt)) => match w_background w' with Some b' => is_nil (retry_queue b') | None => false end
          | _ => false
          end = true) as E by (vm_compute; reflexivity).
  destruct answer as [[[w' [[]|]]|]|]; try discriminate E. exists w'.
  destruct (w_background w') as [b'|]; [|discriminate E]. exists b'. split; [reflexivity|]. split; [reflexivity|].
  destruct (retry_queue b'); [reflexivity|discriminate E].
Qed.
