(* ===== verification/SyncFlow.v ===== *)
(** * Entries on their way between instances

    Three parts of the traffic: a batch that the background engine pulls, the
    connection to a peer, and a local write that is queued, flushed and
    stored at the peer. *)

From S2P Require Import Prelude.
From S2P Require Import Path.
From S2P Require Import Position.
From S2P Require Import Ids.
From S2P Require Import Doc.
From S2P Require Import DocPath.
From S2P Require Import Errors.
From S2P Require Import Crypto.
From S2P Require Import Permission.
From S2P Require Import AuthTypes.
From S2P Require Import AuthSettings.
From S2P Require Import Entry.
From S2P Require Import Backend.
From S2P Require Import Traversal.
From S2P Require Import CrdtCache.
From S2P Require Import BackendSteps.
From S2P Require Import Reachability.
From S2P Require Import Validation.
From S2P Require Import Verify.
From S2P Require Import InstanceOps.
From S2P Require Import WireCodec.
From S2P Require Import Transaction.
From S2P Require Import Stores.
From S2P Require Import StoreView.
From S2P Require Import Commit.
From S2P Require Import TxFrame.
From S2P Require Import CommitSpec.
From S2P Require Import Lifecycle.
From S2P Require Import Settings.
From S2P Require Import Table.
From S2P Require Import Node.
From S2P Require Import Peers.
From S2P Require Import Worklist.
From S2P Require Import Frontier.
From S2P Require Import StoreTips.
From S2P Require Import MergeBase.
From S2P Require Import StoreState.
From S2P Require Import SyncWalk.
From S2P Require Import SyncAuth.
From S2P Require Import UserSync.
From S2P Require Import Bootstrap.
From S2P Require Import SyncHandler.
From S2P Require Import IdsAdded.
From S2P Require Import SyncTransport.
From S2P Require Import SyncClient.
From S2P Require Import SyncExchange.
From S2P Require Import SyncRetry.

(** ** Pulled batches *)

Section pulled.
Context `{IS : InstanceSpec} `{JS : !JsonSpec} `{LS : !LruSpec CacheKey (list Byte.byte)} `{PJ : PeerJson} `{UJ : UserJson}.
Context `{NE : !NodeEnv}.

Notation held n := (entries (node_engine n)).

(** Every parent is stored. *)
Definition closed (es : gmap ID Entry) : Prop :=
  forall id e p, es !! id = Some e -> p ∈ Entry_parents e -> is_Some (es !! p).

Lemma check_parents_inv in_batch es inner :
  check_parents in_batch es inner = Ok tt <->
  forall e p, e ∈ es -> p ∈ Entry_parents e -> p ∈ in_batch \/ is_Some (entries inner !! p).
Proof.
  induction es as [|e es IH]; cbn [check_parents]; [split; [by intros _ e p ?%elem_of_nil|done]|].
  set (go := fix go (ps : list ID) : Result unit Error := _).
  assert (forall ps, go ps = Ok tt <-> forall p, p ∈ ps -> p ∈ in_batch \/ is_Some (entries inner !! p)) as Hgo.
  { induction ps as [|p ps IHp]; cbn [go]; [split; [by intros _ p ?%elem_of_nil|done]|].
    destruct (decide (p ∈ in_batch)) as [Hp|Hp].
    - rewrite IHp. split; [intros H q [->|?]%elem_of_cons; auto|]. intros H q Hq. apply H. by right.
    - unfold storage_get. destruct (entries inner !! p) as [x|] eqn:Hx; cbn [ok_or].
      + rewrite IHp. split; [intros H q [->|?]%elem_of_cons; [right; by eexists|auto]|]. intros H q Hq. apply H. by right.
      + split; [done|]. intros H. destruct (H p) as [?|[y Hy]]; [by left|done|congruence]. }
  destruct (go (Entry_parents e)) as [[]|err] eqn:E; cbn [result_bind].
  - rewrite IH. pose proof (proj1 (Hgo _) E) as He. split.
    + intros H e' p [->|Hin]%elem_of_cons Hp; [by apply He|by apply (H e')].
    + intros H e' p Hin. apply H. by right.
  - split; [done|]. intros H. assert (go (Entry_parents e) = Ok tt) as E'; [|congruence].
    apply Hgo. intros p. apply H. by left.
Qed.

(** C30: What the background engine pulls does not tear holes into the history: an
    entry whose parents are neither stored nor in the batch makes it refuse the whole
    batch and store nothing, and a batch of valid entries that it accepts leaves
    every stored entry with its parents stored. *)
Theorem pull_keeps_closed tree es n n' r :
  node_ok n -> closed (held n) -> bg_store_received_entries tree es n = Some (Done (n', r)) ->
  (forall e p, e ∈ es -> p ∈ Entry_parents e -> p ∉ Entry_id <$> es -> held n !! p = None -> is_ok r = false /\ held n' = held n)
  /\ (r = Ok tt -> (forall e, e ∈ es -> Entry_validate e = Ok tt) ->
      closed (held n') /\ forall e, e ∈ es -> is_Some (held n' !! Entry_id e)).
Proof.
  intros Hn Hcl. unfold bg_store_received_entries. destruct (is_nil es) eqn:En.
  { intros [= <- <-]. destruct es; [|done]. split; [by intros e p ?%elem_of_nil|]. intros _ _. split; [done|by intros e ?%elem_of_nil]. }
  unfold nm_bind at 1, nm_read at 1. set (in_batch := list_to_set (Entry_id <$> es) : gset ID).
  pose proof (check_parents_inv in_batch es (node_engine n)) as Hck.
  destruct (check_parents in_batch es (node_engine n)) as [[]|err]; intros H.
  - pose proof (proj1 Hck eq_refl) as Hall. split.
    + intros e p He Hp Hno Hnone. destruct (Hall e p He Hp) as [Hin|[x Hx]]; [|congruence].
      by apply elem_of_list_to_set in Hin.
    + intros -> Hval. apply received_stored in H as [_ (Hsub & Hin & Ho)]; [|done]. split; [|intros e He; by apply Hin, Hval].
      assert (forall p, is_Some (held n !! p) -> is_Some (held n' !! p)) as Hup by (intros p [x Hx]; exists x; by eapply lookup_weaken).
      intros id e p Hid Hp. destruct (Ho id e Hid) as [Hold|(He & _ & _)]; [by eapply Hup, Hcl|].
      destruct (Hall e p He Hp) as [Hb|?]; [|by apply Hup]. apply elem_of_list_to_set, list_elem_of_fmap in Hb as (e' & -> & He').
      by apply Hin, Hval.
  - injection H as <- <-. split; [done|]. done.
Qed.
End pulled.

(** ** Connecting to a peer *)

Section connected.
Context `{IS : InstanceSpec} `{JS : !JsonSpec} `{LS : !LruSpec CacheKey (list Byte.byte)} `{PJ : PeerJson} `{UJ : UserJson}.
Context `{NE : !NodeEnv} `{RQ : !RowCodec BootstrapRequest} `{ST : !SyncTransport}.
Context (name_order : gmap string Transport -> list (string * Transport)).
Context (device_key : PrivateKey) (sync_tree : DbHandle).

(** A connection returns a key that signed the challenge of this connection. *)
Lemma connect_identifies addr w w' pk :
  connect_to_peer name_order device_key sync_tree addr w = Some (Done (w', Ok pk)) ->
  exists request response w1 w2,
    send_sync_request name_order addr (ReqHandshake request) w1 = Some (Done (w2, Ok (RespHandshake response)))
    /\ w_net w1 = w_net w /\ hr_challenge request = fresh_challenge (n_tick (w_node w))
    /\ hr_public_key request = public_key device_key
    /\ hs_public_key response = pk /\ hs_protocol_version response = PROTOCOL_VERSION
    /\ verify_challenge_response (hr_challenge request) (hs_challenge_response response) pk = Ok tt.
Proof.
  intros (w0 & b & E & H)%wm_bind_ok. unfold background in E. destruct (w_background w); [|done]. injection E as <- <-.
  apply wm_bind_ok in H as (w1 & t & E & H). apply at_node_ok in E as (n & [= <- <-] & ->). cbn zeta in H.
  apply wm_bind_ok in H as (w2 & resp & E & H). destruct resp as [h|r|r|r| |r|]; try done.
  destruct (negb _) eqn:Ev; [done|]. destruct (verify_challenge_response _ _ _) as [[]|] eqn:Ec; [|done].
  assert (hs_public_key h = pk) as Hpk.
  { apply wm_bind_ok in H as (w3 & db & _ & H). apply wm_bind_ok in H as (w4 & now & _ & H).
    apply wm_bind_ok in H as (w5 & r & _ & H). destruct r as [?|err]; [by injection H|].
    destruct err; try done. match type of H with context [ESync ?x] => destruct x end; first [by injection H|done]. }
  eexists _, h, _, w2. split; [exact E|]. apply negb_false_iff, Z.eqb_eq in Ev. rewrite <- Hpk. auto 10.
Qed.
End connected.

(** ** Local writes *)

Section queued.
Context `{IS : InstanceSpec} `{JS : !JsonSpec} `{LS : !LruSpec CacheKey (list Byte.byte)} `{PJ : PeerJson} `{UJ : UserJson}.
Context `{NE : !NodeEnv} `{RQ : !RowCodec BootstrapRequest} `{ST : !SyncTransport}.

(** Only the queue changes, and it grows. *)
Record enlarges (w w' : World) : Prop := {
  en_node : w_node w' = w_node w;
  en_net : w_net w' = w_net w;
  en_background : w_background w' = w_background w;
  en_ok : engine_ok w -> engine_ok w';
  en_waiting peer x : engine_ok w -> x ∈ waiting (w_queue w) peer -> x ∈ waiting (w_queue w') peer;
}.

Lemma enlarges_refl w : enlarges w w.
Proof. by split. Qed.

Lemma enlarges_trans w1 w2 w3 : enlarges w1 w2 -> enlarges w2 w3 -> enlarges w1 w3.
Proof. intros [A1 B1 C1 D1 E1] [A2 B2 C2 D2 E2]. split; [congruence..|auto|auto]. Qed.

Lemma queued_one peer id tree w w' r :
  queue_entry_for_sync peer id tree w = Some (Done (w', r)) ->
  enlarges w w' /\ (engine_ok w -> r = Ok tt -> (id, tree) ∈ waiting (w_queue w') peer).
Proof.
  intros H. pose proof (fun Hw => steady_enqueue peer id tree w w' r Hw H) as Hst. revert H.
  unfold queue_entry_for_sync, wm_bind, background. destruct (w_background w) as [b|] eqn:Eb; [|by intros [= <- <-]; split; [apply enlarges_refl|]].
  intros [= <- <-]. split; [split; [done..|]|].
  - intros peer' x [_ Hnd _] Hx. cbn [w_queue with_queue]. rewrite waiting_enqueue by done. apply elem_of_app. by left.
  - intros [_ Hnd _] _. cbn [w_queue with_queue]. rewrite waiting_enqueue, decide_True by done. apply elem_of_app. right. by apply list_elem_of_singleton.
Qed.

Lemma queued_peers peers id tree : forall w w' r,
  queue_for_peers peers id tree w = Some (Done (w', r)) ->
  enlarges w w' /\ (engine_ok w -> r = Ok tt -> forall peer, peer ∈ peers -> (id, tree) ∈ waiting (w_queue w') peer).
Proof.
  induction peers as [|p peers IH]; intros w w' r; cbn [queue_for_peers].
  { intros [= <- <-]. split; [apply enlarges_refl|]. by intros _ _ p ?%elem_of_nil. }
  unfold wm_bind. destruct (queue_entry_for_sync p id tree w) as [[[w1 [[]|e]]|]|] eqn:E; [| |done..]; apply queued_one in E as [Hen Hin].
  - intros [Hen' Hall]%IH. split; [by eapply enlarges_trans|]. intros Hw -> peer [->|Hp]%elem_of_cons.
    + apply Hen'; [by apply Hen|by apply Hin].
    + apply Hall; [by apply Hen|done..].
  - intros [= <- <-]. done.
Qed.

Lemma queued_all peers tree ids : forall w w' r,
  queue_new_entries peers tree ids w = Some (Done (w', r)) ->
  enlarges w w' /\ (engine_ok w -> r = Ok tt -> forall peer id, peer ∈ peers -> id ∈ ids -> (id, tree) ∈ waiting (w_queue w') peer).
Proof.
  induction ids as [|i ids IH]; intros w w' r; cbn [queue_new_entries].
  { intros [= <- <-]. split; [apply enlarges_refl|]. by intros _ _ p i _ ?%elem_of_nil. }
  unfold wm_bind. destruct (queue_for_peers peers i tree w) as [[[w1 [[]|e]]|]|] eqn:E; [| |done..]; apply queued_peers in E as [Hen Hin].
  - intros [Hen' Hall]%IH. split; [by eapply enlarges_trans|]. intros Hw -> peer id Hp [->|Hi]%elem_of_cons.
    + apply Hen'; [by apply Hen|by apply Hin].
    + apply Hall; [by apply Hen|done..].
  - intros [= <- <-]. done.
Qed.

Lemma waiting_elem q peer x : x ∈ waiting q peer -> exists ids, (peer, ids) ∈ q /\ x ∈ ids.
Proof.
  induction q as [|[p l] q IH]; [by intros ?%elem_of_nil|]. rewrite waiting_cons.
  intros [Hx|(ids & Hin & Hx)%IH]%elem_of_app; [|exists ids; split; [by right|done]].
  destruct (decide (p = peer)) as [->|]; [|by apply elem_of_nil in Hx]. exists l. split; [by left|done].
Qed.
End queued.

Section propagated.
Context `{IS : InstanceSpec} `{JS : !JsonSpec} `{LS : !LruSpec CacheKey (list Byte.byte)} `{PJ : PeerJson} `{UJ : UserJson}.
Context `{NE : !NodeEnv} `{RQ : !RowCodec BootstrapRequest}.
Context (server_key : PrivateKey) (server_sync : ID) (client_addr : string).
Context (bind : string -> Server -> Server * option string).
#[local] Existing Instance pair_transport.
#[local] Notation T := (pair_transport server_key server_sync client_addr bind).
#[local] Notation World := (World (ST := T)).
Context (name_order : gmap string (Transport (SyncTransport := T)) -> list (string * Transport (SyncTransport := T))).
Hypothesis (Hnames : forall m, name_order m ≡ₚ map_to_list m).
Context (peer_order : SyncQueue -> SyncQueue).
Hypothesis (Hpeers : forall q, peer_order q ≡ₚ q).
Context (device_key : PrivateKey) (sync_tree : DbHandle).

Notation client w := (entries (node_engine (w_node (ST := T) w))).
Notation server w := (entries (node_engine (sv_node (w_net (ST := T) w)))).

Lemma reads_write_peers tree : reads (write_peers sync_tree tree).
Proof.
  apply reads_view; [apply map_order_ok|]. apply calm_staging. apply staging_bind; [eauto with staging|].
  intros [s|]; [|apply staging_ret]. destruct (_ || _); [apply staging_ret|eauto with staging].
Qed.

(** What a new transaction on the sync database reads at the state [n]: combined
    settings of the tree that want sync on commit, and then these peers of it. *)
Definition synced_on_commit (tree : ID) (n : Node) (peers : list PublicKey) : Prop :=
  exists n1 n2 n3 tx tx1 tx2 settings,
    db_new_transaction map_order sync_tree n = Some (Done (n1, Ok tx))
    /\ in_tx tx (get_combined_settings set_order raw_cid read_strategy (db_root sync_tree) tree) n1
       = Some (Done (n2, Ok (tx1, Some settings)))
    /\ sync_enabled settings = true /\ sync_on_commit settings = true
    /\ in_tx tx1 (get_tree_peers set_order raw_cid read_strategy (db_root sync_tree) tree) n2 = Some (Done (n3, Ok (tx2, peers))).

Lemma in_tx_bind {A B} t (m : Tx A) (k : A -> Tx B) n n1 t1 a :
  in_tx t m n = Some (Done (n1, Ok (t1, a))) -> in_tx t (tx_bind m k) n = in_tx t1 (k a) n1.
Proof.
  unfold in_tx, tx_bind. destruct (m _) as [[[s [x|e]]|]|]; [|done..]. intros [= <- <- <-].
  replace (with_mem s _) with s; [done|]. destruct s as [[] ? ? ?]. by destruct n as [[] ? ? ?].
Qed.

Lemma synced_write_peers tree n peers : synced_on_commit tree n peers ->
  exists n', write_peers sync_tree tree n = Some (Done (n', Ok peers)).
Proof.
  intros (n1 & n2 & n3 & tx & tx1 & tx2 & settings & E1 & E2 & He & Ho & E3). exists n3.
  unfold write_peers, view, db_view, nm_bind. rewrite E1, (in_tx_bind _ _ _ _ _ _ _ E2), He, Ho. cbn [negb orb]. by rewrite E3.
Qed.

(** What the queue holds after a write. *)
Lemma write_queued event tree (w w1 : World) b peers x :
  node_ok (w_node w) -> engine_ok w -> w_background w = Some b -> acyclic_history (client w) ->
  synced_on_commit tree (w_node w) peers -> peers <> [] ->
  ~ moved_back (client w) (tips (previous_tips event)) (tips (post_tips event)) ->
  on_local_write sync_tree event tree w = Some (Done (w1, Ok tt)) ->
  at_or_below (client w) (tips (post_tips event)) x -> ~ at_or_below (client w) (tips (previous_tips event)) x ->
  node_ok (w_node w1) /\ client w1 = client w /\ w_net w1 = w_net w /\ w_background w1 = Some b
  /\ exists peer ids, (peer, ids) ∈ w_queue w1 /\ (x, tree) ∈ ids.
Proof.
  intros Hc Hw Hb Hac [n Hp]%synced_write_peers Hne Hbr H Hpost Hprev. unfold on_local_write in H. rewrite Hb in H.
  apply at_node_reads in H as (n1 & peers' & Hp' & Hn1 & He1 & H); [|apply reads_write_peers|done].
  assert (n1 = n /\ peers' = peers) as [-> ->] by (split; congruence). destruct (is_nil peers) eqn:En; [by destruct peers|].
  apply wm_bind_ok in H as (w2 & ids & E & H). apply at_node_ok in E as (n2 & E & ->). unfold db_ids_added in E.
  cbn [w_node with_node] in E. rewrite <- He1 in Hbr, Hac, Hpost, Hprev.
  rewrite <- (backward_bracket_iff set_order _ _ _ set_order_ok), not_true_iff_false in Hbr.
  pose proof (ids_added_walk set_order map_order (node_engine n) (previous_tips event) (post_tips event) Hac map_order_ok) as Hids.
  destruct (ids_added _ _ _ _ _) as [[r|]|]; [|done..]. injection E as <- ->. cbv zeta in Hids.
  destruct Hids as (_ & _ & _ & Hin); [intros Heq; apply Hprev; by rewrite Heq|done|].
  apply queued_all in H as [[E1 E2 E3 E4 _] Hq]. split; [by rewrite E1|]. split; [by rewrite E1|].
  split; [exact E2|]. split; [rewrite E3; exact Hb|].
  destruct peers as [|peer peers]; [done|]. assert (engine_ok (with_node (with_node w n) n)) as Hw' by (by destruct Hw).
  destruct (waiting_elem (w_queue w1) peer (x, tree)) as (l & ? & ?); [|eauto].
  apply Hq; [done|done|by left|by apply Hin].
Qed.

(** C11: From a write to the peer: on a database whose combined settings enable sync
    on commit, and that has a peer, the entries that a local write adds (those
    below its tips and not below the tips before) are queued by the write callback,
    and once a flush has succeeded the peer has them.  Assumed: the write callback
    and the flush succeed, the history is acyclic, the tips before are not all
    higher than all the tips after, and the transport is one that carries every
    request to the one peer. *)
Theorem write_propagates event tree (w w1 w2 : World) b peers x e :
  node_ok (w_node w) -> node_ok (sv_node (w_net w)) -> engine_ok w -> w_background w = Some b -> acyclic_history (client w) ->
  synced_on_commit tree (w_node w) peers -> peers <> [] ->
  ~ moved_back (client w) (tips (previous_tips event)) (tips (post_tips event)) ->
  on_local_write sync_tree event tree w = Some (Done (w1, Ok tt)) ->
  flush name_order peer_order device_key sync_tree w1 = Some (Done (w2, Ok tt)) ->
  at_or_below (client w) (tips (post_tips event)) x -> ~ at_or_below (client w) (tips (previous_tips event)) x ->
  client w !! x = Some e -> is_Some (server w2 !! x).
Proof.
  intros Hc Hs Hw Hb Hac Hp Hne Hbr H1 H2 Hpost Hprev He.
  destruct (write_queued event tree w w1 b peers x) as (Hc1 & He1 & Hnet & Hb1 & peer & ids & Hq & Hx); [done..|].
  eapply flush_sends in H2 as (_ & Hin & _); [|done|done|by split; rewrite ?Hnet|done|by apply (eo_retries _ Hw)].
  eapply Hin; [exact Hq|exact Hx|]. rewrite He1. exact He.
Qed.
End propagated.

(** ** A batch that tears a hole *)

#[local] Existing Instance nat_cid.
#[local] Existing Instance byte_crypto.
#[local] Existing Instance list_lru.
#[local] Existing Instance wire_codec.
#[local] Existing Instance wire_json.
#[local] Existing Instance wire_peers.
#[local] Existing Instance wire_instance.
#[local] Existing Instance wire_env.
#[local] Existing Instance wire_users.

Definition loose : Entry := mkEntry 0 (mkTreeNode (Some one_root) [] None 1) [] SigInfo_default.
Definition loose_child : Entry := mkEntry 0 (mkTreeNode (Some one_root) [Entry_id loose] None 2) [] SigInfo_default.

(** The check of the parents counts a parent in the batch, although an entry that is
    not valid is then not stored: the batch is accepted, the child is stored, its
    parent is not. *)
Lemma pull_orphan : exists n', bg_store_received_entries one_root [loose; loose_child] one_db = Some (Done (n', Ok tt))
  /\ entries (node_engine n') !! Entry_id loose_child = Some loose_child
  /\ entries (node_engine n') !! Entry_id loose = None.
Proof.
  set (pulled := bg_store_received_entries one_root [loose; loose_child] one_db).
  assert (match pulled with
          | Some (Done (n, Ok tt)) =>
              bool_decide (entries (node_engine n) !! Entry_id loose_child = Some loose_child)
              && negb (is_some (entries (node_engine n) !! Entry_id loose))
          | _ => false
          end = true) as E by (vm_compute; reflexivity).
  destruct pulled as [[[n [[]|]]|]|]; try discriminate E. exists n. split; [reflexivity|].
  apply andb_true_iff in E as [E1 E2]. apply bool_decide_eq_true in E1. split; [exact E1|].
  destruct (entries (node_engine n) !! Entry_id loose); [discriminate E2|reflexivity].
Qed.

(** A single entry is acknowledged even if it could not be stored. *)
Lemma unstored_acknowledged : exists n', handle_send_entries [loose] one_db = Some (Done (n', Ok RespAck))
  /\ entries (node_engine n') !! Entry_id loose = None.
Proof.
  set (answer := handle_send_entries [loose] one_db).
  assert (match answer with
          | Some (Done (n, Ok RespAck)) => negb (is_some (entries (node_engine n) !! Entry_id loose))
          | _ => false
          end = true) as E by (vm_compute; reflexivity).
  destruct answer as [[[n [[]|]]|]|]; try discriminate E. exists n. split; [reflexivity|].
  destruct (entries (node_engine n) !! Entry_id loose); [discriminate E|reflexivity].
Qed.

Definition sound_child : Entry := mkEntry 0 (mkTreeNode (Some one_root) [one_root] None 1) [] SigInfo_default.

Definition closed_check (es : gmap ID Entry) : bool :=
  forallb (fun '(_, e) => forallb (fun p => is_some (es !! p)) (Entry_parents e)) (map_to_list es).

Lemma closed_check_sound es : closed_check es = true -> closed es.
Proof.
  unfold closed_check. rewrite forallb_forall. intros H id e p He Hp. specialize (H (id, e)). cbn beta iota in H.
  rewrite forallb_forall in H. apply list_elem_of_In in Hp. apply H in Hp; [|by apply list_elem_of_In, elem_of_map_to_list].
  destruct (es !! p); [by eexists|done].
Qed.

Lemma pull_keeps_closed_witness : exists n', bg_store_received_entries one_root [sound_child] one_db = Some (Done (n', Ok tt))
  /\ closed (entries (node_engine n')) /\ is_Some (entries (node_engine n') !! Entry_id sound_child).
Proof.
  assert (match bg_store_received_entries one_root [sound_child] one_db with Some (Done (n, Ok tt)) => true | _ => false end = true)
    as E by (vm_compute; reflexivity).
  assert (closed (entries (node_engine one_db))) as Hc by (apply closed_check_sound; vm_compute; reflexivity).
  destruct (bg_store_received_entries one_root [sound_child] one_db) as [[[n [[]|]]|]|] eqn:Er; try discriminate E.
  exists n. split; [reflexivity|].
  destruct (pull_keeps_closed one_root [sound_child] one_db n (Ok tt) one_db_ok Hc Er) as [_ H].
  destruct H as [H1 H2]; [reflexivity| |].
  - intros e He. apply list_elem_of_singleton in He. rewrite He. vm_compute. reflexivity.
  - split; [exact H1|]. apply H2. apply list_elem_of_singleton. reflexivity.
Defined.

(** ** A concrete write *)

#[local] Existing Instance pair_net.

(** The copy that is synchronised on commit with the other, and has written. *)
Definition writer_code : Nm unit :=
  step _ <- register_sync_peer asked_sync
    (mkSyncPeerInfo (public_key admin_sk) one_root [mkAddress HTTP_TRANSPORT_TYPE "server"] None);
  step _ <- update asked_sync (set_combined_settings set_order raw_cid read_strategy (db_root asked_sync) one_root
    (mkSyncSettings true true None ∅));
  noted "writer".

Definition writer_node : Node := node_after writer_code asked_node.

Lemma writer_node_ok : node_ok writer_node.
Proof.
  apply node_after_ok; [|apply asked_node_ok]. apply safe_bind; [apply safe_register_sync_peer|intros ?].
  apply safe_bind; [apply safe_update, staging_set_combined; apply set_order_ok|intros ?; apply safe_noted].
Qed.

Definition acyclic_check (es : gmap ID Entry) : bool :=
  forallb (fun '(_, e) => forallb (fun p => match es !! p with Some e' => Entry_height e' <? Entry_height e | None => true end)
    (Entry_parents e)) (map_to_list es).

Lemma acyclic_check_sound es : acyclic_check es = true -> acyclic_history es.
Proof.
  unfold acyclic_check. rewrite forallb_forall. intros H. apply (heights_acyclic Entry_height).
  intros x y e e' (e0 & He0 & _ & Hy) He He'. assert (e0 = e) as -> by congruence. specialize (H (x, e)). cbn beta iota in H.
  rewrite forallb_forall in H. apply list_elem_of_In, H in Hy; [|by apply list_elem_of_In, elem_of_map_to_list].
  rewrite He' in Hy. by apply Z.ltb_lt.
Qed.

Definition writer_world (c sv : Node) : World := mkWorld c (mkServer sv []) (Some pair_background) SyncQueue_new.
Definition writer_event (x : ID) : WriteEvent := mkWriteEvent (mkSnapshot [one_root]) (mkSnapshot [x]) Local.

Definition peers_found (n : Node) : bool :=
  match db_new_transaction map_order asked_sync n with
  | Some (Done (n1, Ok tx)) =>
      match in_tx tx (get_combined_settings set_order raw_cid read_strategy (db_root asked_sync) one_root) n1 with
      | Some (Done (n2, Ok (tx1, Some s))) =>
          sync_enabled s && sync_on_commit s
          && match in_tx tx1 (get_tree_peers set_order raw_cid read_strategy (db_root asked_sync) one_root) n2 with
             | Some (Done (_, Ok (_, _ :: _))) => true
             | _ => false
             end
      | _ => false
      end
  | _ => false
  end.

(** The written tip, that the write is queued and that the flush succeeds. *)
Definition written_tip (c : Node) : ID := hd one_root (tips (mem_snapshot (node_engine c) one_root).2).

Definition write_runs (c sv : Node) (x : ID) : bool :=
  match on_local_write asked_sync (writer_event x) one_root (writer_world c sv) with
  | Some (Done (w1, Ok tt)) =>
      match flush map_to_list (fun q => q) admin_sk asked_sync w1 with Some (Done (_, Ok tt)) => true | _ => false end
  | _ => false
  end.

Definition write_check (c sv : Node) (x : ID) : bool :=
  let es := entries (node_engine c) in
  acyclic_check es && is_some (es !! x) && negb (bool_decide (x = one_root))
  && match es !! one_root with Some root => is_nil (Entry_parents root) | None => false end
  && negb (is_some (entries (node_engine sv) !! x))
  && match es !! one_root, es !! x with Some root, Some e => Entry_height root <=? Entry_height e | _, _ => false end
  && peers_found c && write_runs c sv x.

Lemma write_checks : write_check writer_node server_node (written_tip writer_node) = true.
Proof. vm_cast_no_check (eq_refl true). Qed.

Lemma write_runs_inv c sv x : write_runs c sv x = true -> exists w1 w2,
  on_local_write asked_sync (writer_event x) one_root (writer_world c sv) = Some (Done (w1, Ok tt))
  /\ flush map_to_list (fun q => q) admin_sk asked_sync w1 = Some (Done (w2, Ok tt)).
Proof.
  unfold write_runs. destruct (on_local_write _ _ _ _) as [[[w1 [[]|]]|]|]; [|done..].
  destruct (flush _ _ _ _ w1) as [[[w2 [[]|]]|]|] eqn:E; [|done..]. intros _. by exists w1, w2.
Qed.

Lemma peers_found_inv n : peers_found n = true -> exists peers, synced_on_commit asked_sync one_root n peers /\ peers <> [].
Proof.
  unfold peers_found. destruct (db_new_transaction _ _ n) as [[[n1 [tx|]]|]|] eqn:E1; [|done..].
  destruct (in_tx tx _ n1) as [[[n2 [[tx1 [s|]]|]]|]|] eqn:E2; [|done..]. rewrite !andb_true_iff. intros [[He Ho] H].
  destruct (in_tx tx1 _ n2) as [[[n3 [[tx2 [|p l]]|]]|]|] eqn:E3; [done| |done..].
  exists (p :: l). split; [|done]. exists n1, n2, n3, tx, tx1, tx2, s. done.
Qed.

(** Below a root lies only the root. *)
Lemma below_root es root e x : es !! root = Some e -> Entry_parents e = [] -> at_or_below es [root] x -> x = root.
Proof.
  intros He Hp (t & ->%list_elem_of_singleton & Hr). inversion Hr as [|? y ? (e' & He' & Hy) _]; [done|]. subst.
  assert (e' = e) as -> by congruence. rewrite Hp in Hy. by apply elem_of_nil in Hy.
Qed.

Lemma write_propagates_witness : exists x w1 w2,
  on_local_write asked_sync (writer_event x) one_root (writer_world writer_node server_node) = Some (Done (w1, Ok tt))
  /\ flush map_to_list (fun q => q) admin_sk asked_sync w1 = Some (Done (w2, Ok tt))
  /\ entries (node_engine server_node) !! x = None /\ is_Some (entries (node_engine (sv_node (w_net w2))) !! x).
Proof.
  assert (forall c sv x, node_ok c -> node_ok sv -> write_check c sv x = true -> exists w1 w2,
    on_local_write asked_sync (writer_event x) one_root (writer_world c sv) = Some (Done (w1, Ok tt))
    /\ flush map_to_list (fun q => q) admin_sk asked_sync w1 = Some (Done (w2, Ok tt))
    /\ entries (node_engine sv) !! x = None /\ is_Some (entries (node_engine (sv_node (w_net w2))) !! x)) as H.
  { intros c sv x Hc Hs Hch. unfold write_check in Hch. cbv zeta in Hch. rewrite !andb_true_iff in Hch.
    destruct Hch as [[[[[[[Hac Hx] Hne] Hroot] Hno] Hbr] Hp] Hruns].
    destruct (write_runs_inv _ _ _ Hruns) as (w1 & w2 & E1 & E2). destruct (peers_found_inv _ Hp) as (peers & Ep & Hpn).
    destruct (entries (node_engine c) !! x) as [e|] eqn:He; [|discriminate Hx].
    destruct (entries (node_engine c) !! one_root) as [root|] eqn:Her; [|discriminate Hroot].
    cbv beta iota in Hbr.
    exists w1, w2. split; [exact E1|]. split; [exact E2|].
    split; [destruct (entries (node_engine sv) !! x); [discriminate Hno|reflexivity]|].
    apply (write_propagates admin_sk (db_root asked_sync) "client" pair_bind map_to_list (fun m => Permutation_refl _)
      (fun q => q) (fun q => Permutation_refl _) admin_sk asked_sync (writer_event x) one_root (writer_world c sv) w1 w2
      pair_background peers x e Hc Hs); try assumption.
    - split; [intros b [= <-]; apply List.Forall_nil|apply NoDup_nil_2|apply List.Forall_nil].
    - reflexivity.
    - apply acyclic_check_sound. exact Hac.
    - intros (_ & _ & _ & Hback). specialize (Hback one_root x root e). apply Z.leb_le in Hbr.
      assert (Entry_height e < Entry_height root); [|lia].
      apply Hback; [apply list_elem_of_singleton; reflexivity|apply list_elem_of_singleton; reflexivity|exact Her|exact He].
    - exists x. split; [apply list_elem_of_singleton; reflexivity|apply rtc_refl].
    - intros Hb. apply (below_root _ _ root) in Hb; [|exact Her|destruct (Entry_parents root); [reflexivity|discriminate Hroot]].
      rewrite bool_decide_eq_true_2 in Hne by exact Hb. discriminate Hne. }
  exists (written_tip writer_node). exact (H writer_node server_node _ writer_node_ok server_node_ok write_checks).
Defined.
