(* ===== verification/UserKeys.v ===== *)
(** * The keys of a user (user/types.rs, user/crypto.rs, user/key_manager.rs)

    How a user's private keys are stored, the encryption under a key that is
    derived from the password, and the manager that holds the decrypted keys of a
    session.  Argon2, AES-GCM and the hash maps' order are an interface.  What is
    encrypted is read back with the same password, the keys that a manager writes
    are the keys that a manager made from them has, and the default key is the
    marked one or else the oldest. *)

From S2P Require Import Prelude.
From S2P Require Import Path.
From S2P Require Import Position.
From S2P Require Import Ids.
From S2P Require Import Doc.
From S2P Require Import Errors.
From S2P Require Import Crypto.
From S2P Require Import Permission.
From S2P Require Import AuthTypes.

(** ** UTF-8 *)

Definition byte_in (lo hi : N) (b : Byte.byte) : bool := ((lo <=? Byte.to_N b) && (Byte.to_N b <=? hi))%N.

Definition is_cont (b : Byte.byte) : bool := byte_in 128 191 b.

(** What [String::from_utf8] accepts. *)
Fixpoint utf8_valid (l : Bytes) : bool :=
  match l with
  | [] => true
  | a :: l1 =>
      if byte_in 0 127 a then utf8_valid l1
      else match l1 with
           | [] => false
           | b :: l2 =>
               if byte_in 194 223 a then is_cont b && utf8_valid l2
               else match l2 with
                    | [] => false
                    | c :: l3 =>
                        if (byte_in 224 224 a && byte_in 160 191 b) || (byte_in 225 236 a && is_cont b)
                           || (byte_in 237 237 a && byte_in 128 159 b) || (byte_in 238 239 a && is_cont b)
                        then is_cont c && utf8_valid l3
                        else match l3 with
                             | [] => false
                             | d :: l4 =>
                                 ((byte_in 240 240 a && byte_in 144 191 b) || (byte_in 241 243 a && is_cont b)
                                  || (byte_in 244 244 a && byte_in 128 143 b))
                                 && is_cont c && is_cont d && utf8_valid l4
                             end
                    end
           end
  end.

(** ** Data *)

Inductive UserStatus : Type := UserActive | UserIsDisabled | UserLocked.

#[export] Instance UserStatus_eq_dec : EqDecision UserStatus.
Proof. solve_decision. Defined.

Section types.
Context `{CS : CidSpec} `{KS : CryptoSpec}.

Inductive KeyStorage : Type :=
| Encrypted (algorithm : string) (ciphertext nonce : Bytes)
| Unencrypted (key : PrivateKey).

(** Of the mapped identities, [None] is the key's own public key. *)
Record UserKey : Type := mkUserKey {
  uk_key_id : PublicKey;
  uk_storage : KeyStorage;
  uk_display_name : option string;
  uk_created_at : Z;
  uk_last_used : option Z;
  uk_is_default : bool;
  uk_database_sigkeys : gmap ID (option SigKey);
}.

Record UserCredentials : Type := mkUserCredentials {
  uc_root_key_id : PublicKey;
  uc_root_key : KeyStorage;
  uc_password_salt : option string;
}.

Record UserInfo : Type := mkUserInfo {
  ui_username : string;
  ui_user_database_id : ID;
  ui_credentials : UserCredentials;
  ui_created_at : Z;
  ui_status : UserStatus;
}.

Definition with_storage (k : UserKey) (storage : KeyStorage) : UserKey :=
  mkUserKey (uk_key_id k) storage (uk_display_name k) (uk_created_at k) (uk_last_used k) (uk_is_default k)
    (uk_database_sigkeys k).

Definition with_sigkeys (k : UserKey) (sigkeys : gmap ID (option SigKey)) : UserKey :=
  mkUserKey (uk_key_id k) (uk_storage k) (uk_display_name k) (uk_created_at k) (uk_last_used k) (uk_is_default k) sigkeys.
End types.

(** ** The crates *)

Definition SALT_LENGTH : nat := 22.
Definition NONCE_LENGTH : nat := 12.
Definition KEY_LENGTH : nat := 32.

(** The longest message of AES-GCM. *)
Definition P_MAX : Z := 2 ^ 36.

(** [argon2], [aes_gcm] and the texts of private keys.  The derived key has the
    length of the buffer, decryption gives back what was encrypted with the same
    key and nonce, only messages that are too long are refused, and the text of a
    key is short and in UTF-8. *)
Class VaultSpec `{KS : CryptoSpec} := {
  salt_from_b64 : string -> bool;
  argon2_into : string -> string -> option Bytes;
  aes_encrypt : Bytes -> Bytes -> Bytes -> option Bytes;
  aes_decrypt : Bytes -> Bytes -> Bytes -> option Bytes;
  argon2_length pwd salt k : argon2_into pwd salt = Some k -> length k = KEY_LENGTH;
  aes_decrypt_encrypt key nonce m c : aes_encrypt key nonce m = Some c -> aes_decrypt key nonce c = Some m;
  aes_encrypt_short key nonce m : length key = KEY_LENGTH -> length nonce = NONCE_LENGTH ->
    Z.of_nat (length m) <= P_MAX -> is_Some (aes_encrypt key nonce m);
  key_text_short k : Z.of_nat (length (String.list_byte_of_string (PrivateKey_to_string k))) <= P_MAX;
  key_text_utf8 k : utf8_valid (String.list_byte_of_string (PrivateKey_to_string k)) = true;
}.

(** ** Encryption *)

Section vault.
Context `{VS : VaultSpec} `{CS : CidSpec}.

Definition derive_encryption_key (password salt : string) : Result Bytes Error :=
  if negb (String.length salt =? SALT_LENGTH)%nat then Err (EUser (InvalidSaltLength SALT_LENGTH (String.length salt)))
  else if negb (salt_from_b64 salt) then Err (EUser EncryptionFailed)
  else match argon2_into password salt with
       | Some key => Ok key
       | None => Err (EUser EncryptionFailed)
       end.

(** [nonce] is the generated nonce. *)
Definition encrypt_private_key (nonce : Bytes) (private_key : PrivateKey) (encryption_key : Bytes) :
    Result (Bytes * Bytes) Error :=
  if negb (length encryption_key =? KEY_LENGTH)%nat then Err (EUser EncryptionFailed)
  else
    let serialized := PrivateKey_to_string private_key in
    match aes_encrypt encryption_key nonce (String.list_byte_of_string serialized) with
    | Some ciphertext => Ok (ciphertext, nonce)
    | None => Err (EUser EncryptionFailed)
    end.

Definition decrypt_private_key (ciphertext nonce encryption_key : Bytes) : Result PrivateKey Error :=
  if negb (length encryption_key =? KEY_LENGTH)%nat then Err (EUser DecryptionFailed)
  else if negb (length nonce =? NONCE_LENGTH)%nat then Err (EUser (InvalidNonceLength NONCE_LENGTH (length nonce)))
  else match aes_decrypt encryption_key nonce ciphertext with
       | None => Err (EUser DecryptionFailed)
       | Some plaintext =>
           if negb (utf8_valid plaintext) then Err (EUser DecryptionFailed)
           else match PrivateKey_from_string (String.string_of_list_byte plaintext) with
                | Ok key => Ok key
                | Err _ => Err (EUser DecryptionFailed)
                end
       end.

(** ** Hash maps from public keys *)

Definition KeyMap (A : Type) : Type := list (PublicKey * A).

Definition km_get {A} (m : KeyMap A) (k : PublicKey) : option A :=
  snd <$> find (fun p => bool_decide (p.1 = k)) m.

Fixpoint km_insert {A} (m : KeyMap A) (k : PublicKey) (a : A) : KeyMap A :=
  match m with
  | [] => [(k, a)]
  | (k', a') :: m => if decide (k' = k) then (k, a) :: m else (k', a') :: km_insert m k a
  end.

(** ** The manager *)

Record UserKeyManager : Type := mkUserKeyManager {
  decrypted_keys : KeyMap PrivateKey;
  key_metadata : KeyMap UserKey;
  encryption_key : option Bytes;
}.

Definition get_signing_key (self : UserKeyManager) (key_id : PublicKey) : option PrivateKey :=
  km_get (decrypted_keys self) key_id.

Definition get_key_metadata (self : UserKeyManager) (key_id : PublicKey) : option UserKey :=
  km_get (key_metadata self) key_id.

Definition AES_256_GCM : string := "aes-256-gcm".

(** The private key in a stored key. *)
Definition open_storage (encryption_key : option Bytes) (storage : KeyStorage) : Result PrivateKey Error :=
  match storage with
  | Encrypted algorithm ciphertext nonce =>
      if decide (algorithm = AES_256_GCM) then
        match encryption_key with
        | None => Err (EUser (PasswordRequired "decrypt encrypted key"))
        | Some key => decrypt_private_key ciphertext nonce key
        end
      else Err (EUser DecryptionFailed)
  | Unencrypted key => Ok key
  end.

Definition manager_add_key (self : UserKeyManager) (metadata : UserKey) : Result UserKeyManager Error :=
  let? signing_key := open_storage (encryption_key self) (uk_storage metadata) in
  let key_id := uk_key_id metadata in
  Ok (mkUserKeyManager (km_insert (decrypted_keys self) key_id signing_key)
        (km_insert (key_metadata self) key_id metadata) (encryption_key self)).

Fixpoint add_all (self : UserKeyManager) (keys : list UserKey) : Result UserKeyManager Error :=
  match keys with
  | [] => Ok self
  | user_key :: rest => let? self := manager_add_key self user_key in add_all self rest
  end.

Definition UserKeyManager_new (password salt : string) (encrypted_keys : list UserKey) : Result UserKeyManager Error :=
  let? key := derive_encryption_key password salt in
  add_all (mkUserKeyManager [] [] (Some key)) encrypted_keys.

Definition UserKeyManager_new_passwordless (keys : list UserKey) : Result UserKeyManager Error :=
  add_all (mkUserKeyManager [] [] None) keys.

(** [clear]: the maps are emptied and the bytes of the key overwritten. *)
Definition manager_zeroize (self : UserKeyManager) : UserKeyManager :=
  mkUserKeyManager [] [] ((fun _ => []) <$> encryption_key self).

(** The order in which the hash maps are iterated. *)
Context (hash_order : forall A : Type, KeyMap A -> KeyMap A).

(** What is written for a decrypted key; [nonce] is the generated nonce. *)
Definition reseal (self : UserKeyManager) (nonce : Bytes) (signing_key : PrivateKey) (storage : KeyStorage) :
    Result KeyStorage Error :=
  match storage with
  | Encrypted algorithm _ _ =>
      match encryption_key self with
      | None => Err (EUser (PasswordRequired "encrypt key"))
      | Some key =>
          let? (ciphertext, nonce) := encrypt_private_key nonce signing_key key in
          Ok (Encrypted algorithm ciphertext nonce)
      end
  | Unencrypted _ => Ok (Unencrypted signing_key)
  end.

(** The loop; the nonces are drawn in its order. *)
Fixpoint serialize_go (self : UserKeyManager) (nonces : nat -> Bytes) (i : nat) (l : KeyMap PrivateKey) :
    Result (list UserKey) Error :=
  match l with
  | [] => Ok []
  | (key_id, signing_key) :: rest =>
      match get_key_metadata self key_id with
      | None => Err (EUser (UserKeyNotFound (PublicKey_to_string key_id)))
      | Some metadata =>
          let? storage := reseal self (nonces i) signing_key (uk_storage metadata) in
          let? serialized := serialize_go self nonces (S i) rest in
          Ok (mkUserKey key_id storage (uk_display_name metadata) (uk_created_at metadata) (uk_last_used metadata)
                (uk_is_default metadata) (uk_database_sigkeys metadata) :: serialized)
      end
  end.

Definition key_id_leb (a b : UserKey) : bool :=
  cmp_leb String.compare (PublicKey_to_string (uk_key_id a)) (PublicKey_to_string (uk_key_id b)).

Definition serialize_keys (self : UserKeyManager) (nonces : nat -> Bytes) : Result (list UserKey) Error :=
  let? serialized := serialize_go self nonces 0 (hash_order _ (decrypted_keys self)) in
  Ok (sort_by key_id_leb serialized).

Definition created_leb (a b : PublicKey * Z) : bool := a.2 <=? b.2.

Definition list_key_ids (self : UserKeyManager) : list PublicKey :=
  (sort_by created_leb
     (omap (fun p => (fun meta => (p.1, uk_created_at meta)) <$> get_key_metadata self p.1)
        (hash_order _ (decrypted_keys self)))).*1.

Definition get_default_key_id (self : UserKeyManager) : option PublicKey :=
  match find (fun p => uk_is_default p.2) (hash_order _ (key_metadata self)) with
  | Some (key_id, _) => Some key_id
  | None => head (list_key_ids self)
  end.
End vault.

(** ** Lemmas on the maps *)

Section maps.
Context `{KS : CryptoSpec}.

Lemma km_get_insert {A} (m : KeyMap A) k k' a :
  km_get (km_insert m k a) k' = if decide (k = k') then Some a else km_get m k'.
Proof.
  unfold km_get. induction m as [|[j b] m IH]; simpl.
  { case_bool_decide; by case_decide. }
  destruct (decide (j = k)) as [->|Hj]; simpl.
  - destruct (decide (k = k')) as [->|]; [by rewrite bool_decide_true|]. by rewrite !bool_decide_false.
  - case_bool_decide as Hk; [subst; by rewrite decide_False|exact IH].
Qed.

Lemma km_get_elem {A} (m : KeyMap A) k a : NoDup m.*1 -> (k, a) ∈ m <-> km_get m k = Some a.
Proof.
  unfold km_get. induction m as [|[j b] m IH]; simpl; [set_solver|]. intros [Hj Hm]%NoDup_cons.
  rewrite elem_of_cons. case_bool_decide as Hk; simpl in *.
  - subst j. split; [|intros [= ->]; by left]. intros [[= ->]|H]; [done|]. destruct Hj. exact (list_elem_of_fmap_2 fst m _ H).
  - rewrite <- IH by done. split; [intros [[= ? ?]|]; [congruence|done]|by right].
Qed.

Lemma km_get_None {A} (m : KeyMap A) k : km_get m k = None <-> k ∉ m.*1.
Proof.
  unfold km_get. induction m as [|[j b] m IH]; simpl; [set_solver|]. rewrite not_elem_of_cons.
  case_bool_decide; naive_solver.
Qed.

Lemma km_insert_keys {A B} (m : KeyMap A) (m' : KeyMap B) k a b :
  m.*1 = m'.*1 -> (km_insert m k a).*1 = (km_insert m' k b).*1.
Proof.
  revert m'. induction m as [|[j c] m IH]; intros [|[j' c'] m'] H; simpl in *; [done..|].
  injection H as -> H. destruct (decide (j' = k)); simpl; [congruence|]. f_equal. by apply IH.
Qed.

Lemma elem_of_km_insert {A} (m : KeyMap A) k a j : j ∈ (km_insert m k a).*1 <-> j = k \/ j ∈ m.*1.
Proof.
  induction m as [|[i b] m IH]; simpl; [set_solver|]. destruct (decide (i = k)); simpl; set_solver.
Qed.

Lemma km_insert_nodup {A} (m : KeyMap A) k a : NoDup m.*1 -> NoDup (km_insert m k a).*1.
Proof.
  induction m as [|[i b] m IH]; simpl; [intros _; apply NoDup_singleton|]. intros [Hi Hm]%NoDup_cons.
  destruct (decide (i = k)) as [->|]; simpl; constructor; [done..| |by apply IH].
  rewrite elem_of_km_insert. naive_solver.
Qed.
End maps.

(** ** The vault *)

Section vault_facts.
Context `{VS : VaultSpec} `{CS : CidSpec}.

Lemma open_encrypted nonce sk key c n :
  length nonce = NONCE_LENGTH -> encrypt_private_key nonce sk key = Ok (c, n) -> decrypt_private_key c n key = Ok sk.
Proof.
  unfold encrypt_private_key, decrypt_private_key. intros Hn. destruct (length key =? KEY_LENGTH)%nat; [|done]. simpl.
  destruct (aes_encrypt _ _ _) as [c'|] eqn:E; [|done]. intros [= -> ->].
  rewrite Hn, Nat.eqb_refl, (aes_decrypt_encrypt _ _ _ _ E), key_text_utf8. simpl.
  rewrite String.string_of_list_byte_of_string.
  by destruct (crypto_roundtrips (public_key sk) sk [] []) as (_ & -> & _).
Qed.

Lemma encrypt_ok nonce sk key : length nonce = NONCE_LENGTH -> length key = KEY_LENGTH ->
  exists c, encrypt_private_key nonce sk key = Ok (c, nonce).
Proof.
  intros Hn Hk. unfold encrypt_private_key. rewrite Hk, Nat.eqb_refl. cbn [negb]. cbn zeta.
  destruct (aes_encrypt_short key nonce (String.list_byte_of_string (PrivateKey_to_string sk)) Hk Hn
    (key_text_short sk)) as [c ->]. by exists c.
Qed.

Lemma derive_length pwd salt k : derive_encryption_key pwd salt = Ok k -> length k = KEY_LENGTH.
Proof.
  unfold derive_encryption_key. repeat case_match; try done. intros [= <-]. by eapply argon2_length.
Qed.

Lemma decrypt_key_length c n key sk : decrypt_private_key c n key = Ok sk -> length key = KEY_LENGTH.
Proof.
  unfold decrypt_private_key. by destruct (Nat.eqb_spec (length key) KEY_LENGTH).
Qed.

(** ** The invariant of a manager *)

Record manager_ok (m : UserKeyManager) : Prop := {
  mo_nodup : NoDup (decrypted_keys m).*1;
  mo_keys : (decrypted_keys m).*1 = (key_metadata m).*1;
  mo_opens k sk meta : get_signing_key m k = Some sk -> get_key_metadata m k = Some meta ->
    uk_key_id meta = k /\ open_storage (encryption_key m) (uk_storage meta) = Ok sk;
}.

Lemma manager_empty_ok ek : manager_ok (mkUserKeyManager [] [] ek).
Proof. by split; [constructor| |]. Qed.

(** What adding a key does to the two lookups. *)
Lemma add_key_inv m meta m' : manager_add_key m meta = Ok m' ->
  exists sk, open_storage (encryption_key m) (uk_storage meta) = Ok sk
    /\ encryption_key m' = encryption_key m
    /\ (forall k, get_signing_key m' k = if decide (uk_key_id meta = k) then Some sk else get_signing_key m k)
    /\ (forall k, get_key_metadata m' k = if decide (uk_key_id meta = k) then Some meta else get_key_metadata m k).
Proof.
  unfold manager_add_key. destruct (open_storage _ _) as [sk|] eqn:E; [|done]. intros [= <-].
  exists sk. split; [done|]. split; [done|]. split; intros k; apply km_get_insert.
Qed.

Lemma add_key_ok m meta m' : manager_ok m -> manager_add_key m meta = Ok m' -> manager_ok m'.
Proof.
  intros [Hn Hk Ho] H. destruct (add_key_inv _ _ _ H) as (sk & Hs & He & Hg & Hm).
  unfold manager_add_key in H. rewrite Hs in H. injection H as Heq. split.
  - rewrite <- Heq. by apply km_insert_nodup.
  - rewrite <- Heq. by apply km_insert_keys.
  - intros k sk' meta'. rewrite Hg, Hm, He. destruct (decide _) as [<-|]; [|apply Ho]. by intros [= <-] [= <-].
Qed.

Lemma add_all_ok keys : forall m m', manager_ok m -> add_all m keys = Ok m' ->
  manager_ok m' /\ encryption_key m' = encryption_key m.
Proof.
  induction keys as [|k keys IH]; intros m m' Hm; simpl; [by intros [= <-]|].
  destruct (manager_add_key m k) as [m1|] eqn:E; [|done]. intros H.
  destruct (IH m1 m' (add_key_ok _ _ _ Hm E) H) as [? ->]. split; [done|].
  by destruct (add_key_inv _ _ _ E) as (? & _ & ? & _).
Qed.

(** Keys with different ids that can be opened are all added. *)
Lemma add_all_spec keys : forall m, NoDup (uk_key_id <$> keys) ->
  (forall uk, uk ∈ keys -> exists sk, open_storage (encryption_key m) (uk_storage uk) = Ok sk) ->
  exists m', add_all m keys = Ok m'
    /\ (forall uk sk, uk ∈ keys -> open_storage (encryption_key m) (uk_storage uk) = Ok sk ->
          get_signing_key m' (uk_key_id uk) = Some sk /\ get_key_metadata m' (uk_key_id uk) = Some uk)
    /\ forall k, k ∉ uk_key_id <$> keys ->
         get_signing_key m' k = get_signing_key m k /\ get_key_metadata m' k = get_key_metadata m k.
Proof.
  induction keys as [|uk keys IH]; intros m Hd Ho; simpl.
  { exists m. split; [done|]. split; [set_solver|done]. }
  apply NoDup_cons in Hd as [Hu Hd]. destruct (Ho uk) as [sk Hsk]; [set_solver|].
  destruct (manager_add_key m uk) as [m1|] eqn:E; [|unfold manager_add_key in E; by rewrite Hsk in E].
  destruct (add_key_inv _ _ _ E) as (sk' & Hsk' & He & Hg & Hm). simplify_eq.
  destruct (IH m1 Hd) as (m' & Hm' & Hin & Hout).
  { intros k Hk. rewrite He. apply Ho. set_solver. }
  exists m'. split; [done|]. split.
  - intros k s [->|Hk]%elem_of_cons Hs; [|apply Hin; [done|by rewrite He]].
    destruct (Hout (uk_key_id uk)) as [-> ->]; [done|]. rewrite Hg, Hm, !decide_True by done. split; congruence.
  - intros k [Hne Hk]%not_elem_of_cons. destruct (Hout k) as [-> ->]; [done|]. by rewrite Hg, Hm, !decide_False.
Qed.
End vault_facts.

(** ** Writing the keys and reading them again *)

Section storage.
Context `{VS : VaultSpec} `{CS : CidSpec}.
Context (hash_order : forall A : Type, KeyMap A -> KeyMap A).
Context (Horder : forall A (m : KeyMap A), hash_order A m ≡ₚ m).

(** All of a stored key but the storage of its private key. *)
Definition described (k : UserKey) : PublicKey * option string * Z * option Z * bool * gmap ID (option SigKey) :=
  (uk_key_id k, uk_display_name k, uk_created_at k, uk_last_used k, uk_is_default k, uk_database_sigkeys k).

(** [uk] is written for the decrypted key [p]. *)
Definition written_for (m : UserKeyManager) (p : PublicKey * PrivateKey) (uk : UserKey) : Prop :=
  uk_key_id uk = p.1 /\ open_storage (encryption_key m) (uk_storage uk) = Ok p.2
  /\ exists meta, get_key_metadata m p.1 = Some meta /\ described uk = described meta.

(** What the storage [old] of the private key [sk] is replaced by: an encrypted one
    by the text of the key, encrypted with [nonce], and a plain one by the key. *)
Definition resealed (ek : option Bytes) (nonce : Bytes) (sk : PrivateKey) (old new : KeyStorage) : Prop :=
  match old with
  | Encrypted algorithm _ _ => exists key ciphertext, ek = Some key /\ new = Encrypted algorithm ciphertext nonce
      /\ aes_encrypt key nonce (String.list_byte_of_string (PrivateKey_to_string sk)) = Some ciphertext
  | Unencrypted _ => new = Unencrypted sk
  end.

Lemma reseal_opens m nonce sk storage : length nonce = NONCE_LENGTH ->
  open_storage (encryption_key m) storage = Ok sk ->
  exists storage', reseal m nonce sk storage = Ok storage' /\ open_storage (encryption_key m) storage' = Ok sk
    /\ resealed (encryption_key m) nonce sk storage storage'.
Proof.
  intros Hn. destruct storage as [a c n|key]; simpl.
  - destruct (decide (a = AES_256_GCM)) as [->|]; [|done]. destruct (encryption_key m) as [key|]; [|done]. intros Hd.
    destruct (encrypt_ok nonce sk key Hn (decrypt_key_length _ _ _ _ Hd)) as [c' Hc]. rewrite Hc. simpl.
    eexists. split; [done|]. split; [simpl; by apply (open_encrypted nonce)|]. exists key, c'. split; [done|]. split; [done|].
    unfold encrypt_private_key in Hc. destruct (negb _); [done|]. cbn zeta in Hc. destruct (aes_encrypt _ _ _); congruence.
  - intros [= ->]. by eexists.
Qed.

Lemma metadata_of m k sk : manager_ok m -> get_signing_key m k = Some sk -> exists meta, get_key_metadata m k = Some meta.
Proof.
  intros [Hn Hk _] Hs. destruct (get_key_metadata m k) as [meta|] eqn:E; [by exists meta|].
  apply km_get_None in E. destruct E. rewrite <- Hk.
  destruct (decide (k ∈ (decrypted_keys m).*1)) as [|Hin%km_get_None]; [done|]. unfold get_signing_key in Hs. congruence.
Qed.

(** [uk] replaces the stored key of its id, with the given nonce. *)
Definition freshly_sealed (m : UserKeyManager) (nonce : Bytes) (uk : UserKey) : Prop :=
  exists sk meta, get_signing_key m (uk_key_id uk) = Some sk /\ get_key_metadata m (uk_key_id uk) = Some meta
    /\ resealed (encryption_key m) nonce sk (uk_storage meta) (uk_storage uk).

Lemma serialize_go_spec m nonces l : manager_ok m -> (forall i, length (nonces i) = NONCE_LENGTH) ->
  (forall p, p ∈ l -> get_signing_key m p.1 = Some p.2) ->
  forall i, exists ks, serialize_go m nonces i l = Ok ks /\ Forall2 (written_for m) l ks
    /\ forall j uk, ks !! j = Some uk -> freshly_sealed m (nonces (i + j)%nat) uk.
Proof.
  intros Hm Hn. induction l as [|[k sk] l IH]; intros Hl i; simpl; [by exists []|].
  assert (get_signing_key m k = Some sk) as Hs by (apply (Hl (k, sk)); set_solver).
  destruct (metadata_of m k sk Hm Hs) as [meta Hmeta]. rewrite Hmeta.
  destruct (mo_opens m Hm k sk meta Hs Hmeta) as [Hid Ho].
  destruct (reseal_opens m (nonces i) sk _ (Hn i) Ho) as (st & -> & Hst & Hre). simpl.
  destruct (IH ltac:(intros p Hp; apply Hl; set_solver) (S i)) as (ks & -> & Hks & Hfresh). simpl.
  eexists. split; [done|]. split.
  - constructor; [|done]. split; [done|]. split; [done|]. exists meta. split; [done|]. unfold described. simpl. by rewrite Hid.
  - intros [|j] uk; cbn [lookup list_lookup].
    + intros [= <-]. rewrite Nat.add_0_r. by exists sk, meta.
    + intros Hj. rewrite Nat.add_succ_r. by apply Hfresh.
Qed.

Lemma written_ids m l ks : Forall2 (written_for m) l ks -> uk_key_id <$> ks = l.*1.
Proof. induction 1 as [|p k l ks (Hp & _) _ IH]; [done|]. cbn [fmap list_fmap]. by rewrite Hp, <- IH. Qed.

Lemma serialize_spec m nonces : manager_ok m -> (forall i, length (nonces i) = NONCE_LENGTH) ->
  exists ks, serialize_keys hash_order m nonces = Ok ks
    /\ Sorted (fun a b => key_id_leb a b = true) ks
    /\ (uk_key_id <$> ks) ≡ₚ (decrypted_keys m).*1
    /\ (exists written, written ≡ₚ ks /\ forall i uk, written !! i = Some uk -> freshly_sealed m (nonces i) uk)
    /\ forall uk, uk ∈ ks -> exists sk, get_signing_key m (uk_key_id uk) = Some sk /\ written_for m (uk_key_id uk, sk) uk.
Proof.
  intros Hm Hn. unfold serialize_keys.
  destruct (serialize_go_spec m nonces (hash_order _ (decrypted_keys m)) Hm Hn) with (i := 0%nat) as (ks & -> & Hks & Hfresh).
  { intros [k sk]. rewrite Horder. by rewrite km_get_elem by apply Hm. }
  cbn [result_bind]. eexists. split; [done|]. split; [apply sort_by_sorted; intros a b; refine (cmp_leb_total String.compare _ _)|]. split.
  { rewrite sort_by_perm, (written_ids _ _ _ Hks). by rewrite Horder. }
  split; [exists ks; split; [by rewrite sort_by_perm|exact Hfresh]|].
  intros uk. rewrite elem_of_sort_by. intros Huk. apply list_elem_of_lookup in Huk as [i Hi].
  destruct (Forall2_lookup_r _ _ _ _ _ Hks Hi) as ([k sk] & Hin%list_elem_of_lookup_2 & Hw).
  rewrite Horder, (km_get_elem _ _ _ (mo_nodup m Hm)) in Hin. pose proof Hw as (-> & _). by exists sk.
Qed.

(** A manager that is made from what another one wrote has its keys. *)
Lemma reload m nonces ks : manager_ok m -> (forall i, length (nonces i) = NONCE_LENGTH) ->
  serialize_keys hash_order m nonces = Ok ks ->
  exists m', add_all (mkUserKeyManager [] [] (encryption_key m)) ks = Ok m'
    /\ forall k, get_signing_key m' k = get_signing_key m k
         /\ described <$> get_key_metadata m' k = described <$> get_key_metadata m k.
Proof.
  intros Hm Hn Hks. destruct (serialize_spec m nonces Hm Hn) as (ks' & Hks' & _ & Hids & _ & Hw).
  rewrite Hks in Hks'. injection Hks' as <-.
  destruct (add_all_spec ks (mkUserKeyManager [] [] (encryption_key m))) as (m' & Ha & Hin & Hout).
  { rewrite Hids. apply Hm. }
  { intros uk Huk. destruct (Hw uk Huk) as (sk & _ & (_ & Ho & _)). by exists sk. }
  exists m'. split; [done|]. intros k. destruct (decide (k ∈ uk_key_id <$> ks)) as [Hk|Hk].
  - apply list_elem_of_fmap in Hk as (uk & -> & Huk). destruct (Hw uk Huk) as (sk & Hsk & (_ & Ho & meta & Hmeta & Hd)).
    destruct (Hin uk sk Huk Ho) as [-> ->]. cbn [fst] in Hmeta. rewrite Hsk, Hmeta. simpl. by rewrite Hd.
  - destruct (Hout k Hk) as [-> ->]. rewrite Hids in Hk. unfold get_signing_key at 2, get_key_metadata at 2.
    rewrite (mo_keys m Hm) in Hk. rewrite (proj2 (km_get_None (key_metadata m) k) Hk).
    rewrite <- (mo_keys m Hm) in Hk. by rewrite (proj2 (km_get_None (decrypted_keys m) k) Hk).
Qed.

(** C19: The keys of a session survive storage.  The manager that a password opens
    writes every key that it holds, in the order of the key ids.  A key that was
    stored encrypted is encrypted again, with the same algorithm and a nonce drawn
    for it alone (the i-th key that is written takes the i-th nonce); a key that was
    stored in the clear stays so.  The manager that the same password opens on what
    was written has the same private keys, and describes them alike.  Assumed:
    every generated nonce has the length of a nonce. *)
Theorem keys_survive_storage password salt keys m nonces :
  (forall i, length (nonces i) = NONCE_LENGTH) ->
  UserKeyManager_new password salt keys = Ok m ->
  exists ks m', serialize_keys hash_order m nonces = Ok ks
    /\ Sorted (fun a b => key_id_leb a b = true) ks
    /\ (uk_key_id <$> ks) ≡ₚ (decrypted_keys m).*1
    /\ (exists written, written ≡ₚ ks /\ forall i uk, written !! i = Some uk -> freshly_sealed m (nonces i) uk)
    /\ UserKeyManager_new password salt ks = Ok m'
    /\ forall k, get_signing_key m' k = get_signing_key m k
         /\ described <$> get_key_metadata m' k = described <$> get_key_metadata m k.
Proof.
  intros Hn. unfold UserKeyManager_new. destruct (derive_encryption_key _ _) as [key|]; [|done]. cbn [result_bind]. intros Ha.
  destruct (add_all_ok _ _ _ (manager_empty_ok _) Ha) as [Hm He]. cbn in He.
  destruct (serialize_spec m nonces Hm Hn) as (ks & Hks & Hs & Hids & Hfresh & _).
  destruct (reload m nonces ks Hm Hn Hks) as (m' & Hr & Hg). rewrite He in Hr. by exists ks, m'.
Qed.
End storage.

(** ** The order of the keys and the default key *)

Section default_key.
Context `{VS : VaultSpec} `{CS : CidSpec}.
Context (hash_order : forall A : Type, KeyMap A -> KeyMap A).
Context (Horder : forall A (m : KeyMap A), hash_order A m ≡ₚ m).

(** The keys with their times of creation, in the order in which they are listed. *)
Definition dated (m : UserKeyManager) : list (PublicKey * Z) :=
  sort_by created_leb (omap (fun p => (fun meta => (p.1, uk_created_at meta)) <$> get_key_metadata m p.1)
                         (hash_order _ (decrypted_keys m))).

Lemma elem_of_dated m k t : manager_ok m ->
  (k, t) ∈ dated m <-> exists meta, get_key_metadata m k = Some meta /\ uk_created_at meta = t.
Proof.
  intros Hm. unfold dated. rewrite elem_of_sort_by, list_elem_of_omap. split.
  - intros ([k' sk] & _ & H). cbn [fst] in H. destruct (get_key_metadata m k') as [meta|] eqn:E; [|done].
    injection H as <- <-. by exists meta.
  - intros (meta & Hk & <-). assert (k ∈ (decrypted_keys m).*1) as ([k' sk] & -> & Hin)%list_elem_of_fmap.
    { rewrite (mo_keys m Hm). apply km_get_elem in Hk; [exact (list_elem_of_fmap_2 fst _ _ Hk)|].
      rewrite <- (mo_keys m Hm). apply Hm. }
    exists (k', sk). rewrite Horder. split; [done|]. cbn [fst] in *. by rewrite Hk.
Qed.

Lemma dated_sorted m : StronglySorted (fun a b => a.2 <= b.2) (dated m).
Proof.
  apply Sorted_StronglySorted; [intros a b c; lia|].
  assert (Sorted (fun a b => created_leb a b = true) (dated m)) as H.
  { apply sort_by_sorted. unfold created_leb. intros a b. lia. }
  induction H as [|a l Hl IH Hd]; constructor; [done|].
  destruct Hd as [|b l Hb]; constructor. unfold created_leb in Hb. lia.
Qed.

(** The keys of a session are listed from the oldest to the newest.  The
    default key is a key that the session holds: a marked one where one is marked,
    and else one that no other key is older than; there is none only where the
    session has no key. *)
Theorem default_key_spec m : manager_ok m ->
  (exists ts, list_key_ids hash_order m = ts.*1 /\ StronglySorted (fun a b => a.2 <= b.2) ts
     /\ forall k t, (k, t) ∈ ts <-> exists meta, get_key_metadata m k = Some meta /\ uk_created_at meta = t)
  /\ match get_default_key_id hash_order m with
     | None => forall k, get_signing_key m k = None
     | Some k => exists meta sk, get_key_metadata m k = Some meta /\ get_signing_key m k = Some sk
         /\ (uk_is_default meta = true
             \/ forall k' meta', get_key_metadata m k' = Some meta' ->
                  uk_is_default meta' = false /\ uk_created_at meta <= uk_created_at meta')
     end.
Proof.
  intros Hm. split.
  { exists (dated m). split; [done|]. split; [apply dated_sorted|]. intros k t. by apply elem_of_dated. }
  assert (forall k meta, get_key_metadata m k = Some meta -> exists sk, get_signing_key m k = Some sk) as Hsk.
  { intros k meta Hk. destruct (get_signing_key m k) as [sk|] eqn:E; [by exists sk|].
    apply km_get_None in E. rewrite (mo_keys m Hm) in E. apply km_get_None in E. unfold get_key_metadata in Hk. congruence. }
  assert (NoDup (key_metadata m).*1) as Hnd by (rewrite <- (mo_keys m Hm); apply Hm).
  unfold get_default_key_id. destruct (find _ _) as [[k meta]|] eqn:Ef.
  - apply find_some in Ef as [Hin%list_elem_of_In Hd]. rewrite Horder, km_get_elem in Hin by done.
    destruct (Hsk k meta Hin) as [sk ?]. exists meta, sk. auto.
  - assert (forall k meta, get_key_metadata m k = Some meta -> uk_is_default meta = false) as Hno.
    { intros k meta Hk. apply km_get_elem in Hk; [|done]. rewrite <- (Horder _ (key_metadata m)) in Hk.
      apply list_elem_of_In in Hk. exact (find_none _ _ Ef _ Hk). }
    pose proof (dated_sorted m) as Hs. pose proof (fun k t => elem_of_dated m k t Hm) as Hdt.
    change (list_key_ids hash_order m) with (dated m).*1. destruct (dated m) as [|[k t] ts]; simpl.
    + intros k. destruct (get_signing_key m k) as [sk|] eqn:E; [|done].
      destruct (metadata_of m k sk Hm E) as [meta Hk]. assert ((k, uk_created_at meta) ∈ []) by (apply Hdt; eauto). set_solver.
    + destruct (proj1 (Hdt k t)) as (meta & Hk & Ht); [set_solver|]. destruct (Hsk k meta Hk) as [sk ?].
      exists meta, sk. split; [done|]. split; [done|]. right. intros k' meta' Hk'. split; [by eapply Hno|].
      assert ((k', uk_created_at meta') ∈ (k, t) :: ts) as Hin by (apply Hdt; eauto).
      apply StronglySorted_inv in Hs as [_ Hs]. apply elem_of_cons in Hin as [[= -> <-]|Hin]; [lia|].
      rewrite Forall_forall in Hs. specialize (Hs _ Hin). simpl in Hs. lia.
Qed.
End default_key.

(** ** A concrete vault *)

#[local] Existing Instance nat_cid.
#[local] Existing Instance byte_crypto.

Lemma bits_ascii b : utf8_valid (String.list_byte_of_string (bits_encode b)) = true.
Proof.
  induction b as [|x b IH]; [done|]. cbn [bits_encode]. destruct (Byte.to_bits x) as (b0 & b1 & b2 & b3 & b4 & b5 & b6 & b7).
  assert (forall b s, utf8_valid (String.list_byte_of_string (String (bit_char b) s))
    = utf8_valid (String.list_byte_of_string s)) as Hc by (by intros [] s).
  by rewrite !Hc.
Qed.

Lemma bits_length b : length (String.list_byte_of_string (bits_encode b)) = (8 * length b)%nat.
Proof.
  induction b as [|x b IH]; [done|]. cbn [bits_encode]. destruct (Byte.to_bits x) as (b0 & b1 & b2 & b3 & b4 & b5 & b6 & b7).
  assert (forall b s, length (String.list_byte_of_string (String (bit_char b) s))
    = S (length (String.list_byte_of_string s))) as Hc by (by intros [] s).
  rewrite !Hc, IH. cbn [length]. lia.
Qed.

(** The derived key is the password's bytes, and a ciphertext starts with the key
    and the nonce that it is made with. *)
Definition tagged (key nonce m : Bytes) : Bytes := key ++ nonce ++ m.

Definition untag (key nonce c : Bytes) : option Bytes :=
  if decide (take (length (key ++ nonce)) c = key ++ nonce) then Some (drop (length (key ++ nonce)) c) else None.

#[export] Instance plain_vault : @VaultSpec byte_crypto.
Proof.
  refine {| salt_from_b64 _ := true;
    argon2_into pwd _ := Some (resize KEY_LENGTH Byte.x00 (String.list_byte_of_string pwd));
    aes_encrypt key nonce m := Some (tagged key nonce m);
    aes_decrypt := untag |}.
  - intros pwd salt k [= <-]. apply length_resize.
  - intros key nonce m c [= <-]. unfold untag, tagged. rewrite (assoc_L (++)).
    by rewrite take_app_length, decide_True, drop_app_length by done.
  - intros. by eexists.
  - intros [k]. unfold PrivateKey_to_string. cbn [base64_encode sk_to_bytes byte_crypto].
    change (length (String.list_byte_of_string (String.append "ed25519:" (bits_encode (replicate 32 k)))))
      with (8 + length (String.list_byte_of_string (bits_encode (replicate 32 k))))%nat.
    rewrite bits_length, length_replicate. unfold P_MAX. lia.
  - intros [k]. exact (bits_ascii (replicate 32 k)).
Defined.

Definition demo_salt : string := "aaaaaaaaaaaaaaaaaaaaaa".
Definition vault_nonce (i : nat) : Bytes := repeat (default Byte.x00 (Byte.of_N (N.of_nat i))) NONCE_LENGTH.

Lemma vault_nonce_length i : length (vault_nonce i) = NONCE_LENGTH.
Proof. apply repeat_length. Qed.

(** A key stored under a password, created at [t]. *)
Definition sealed_key (pwd : string) (sk : PrivateKey) (t : Z) (is_default : bool) : UserKey :=
  let storage :=
    match (let? key := derive_encryption_key pwd demo_salt in encrypt_private_key (vault_nonce 77) sk key) with
    | Ok (c, n) => Encrypted AES_256_GCM c n
    | Err _ => Unencrypted sk
    end in
  mkUserKey (public_key sk) storage None t None is_default ∅.

Definition two_keys : list UserKey :=
  [sealed_key "secret" (Ed25519Private Byte.x09) 20 false; sealed_key "secret" (Ed25519Private Byte.x05) 10 false].

Definition two_key_manager : UserKeyManager :=
  match UserKeyManager_new "secret" demo_salt two_keys with Ok m => m | Err _ => mkUserKeyManager [] [] None end.

Lemma two_keys_open : UserKeyManager_new "secret" demo_salt two_keys = Ok two_key_manager.
Proof. vm_compute. reflexivity. Qed.

Lemma keys_survive_storage_witness : exists ks m',
  serialize_keys (fun A m => reverse m) two_key_manager vault_nonce = Ok ks
  /\ Sorted (fun a b => key_id_leb a b = true) ks
  /\ (uk_key_id <$> ks) ≡ₚ (decrypted_keys two_key_manager).*1
  /\ (exists written, written ≡ₚ ks /\ forall i uk, written !! i = Some uk -> freshly_sealed two_key_manager (vault_nonce i) uk)
  /\ UserKeyManager_new "secret" demo_salt ks = Ok m'
  /\ forall k, get_signing_key m' k = get_signing_key two_key_manager k
       /\ described <$> get_key_metadata m' k = described <$> get_key_metadata two_key_manager k.
Proof.
  exact (keys_survive_storage (fun A m => reverse m) (fun A m => reverse_Permutation m) "secret" demo_salt two_keys
    two_key_manager vault_nonce vault_nonce_length two_keys_open).
Defined.

Lemma two_key_manager_ok : manager_ok two_key_manager.
Proof.
  pose proof two_keys_open as H. unfold UserKeyManager_new in H. destruct (derive_encryption_key _ _) as [key|]; [|done].
  exact (proj1 (add_all_ok _ _ _ (manager_empty_ok _) H)).
Qed.

(** Of two keys of which none is marked, the older one is the default. *)
Lemma default_key_spec_witness :
  get_default_key_id (fun A m => m) two_key_manager = Some (public_key (Ed25519Private Byte.x05))
  /\ exists meta sk, get_key_metadata two_key_manager (public_key (Ed25519Private Byte.x05)) = Some meta
       /\ get_signing_key two_key_manager (public_key (Ed25519Private Byte.x05)) = Some sk
       /\ (uk_is_default meta = true
           \/ forall k' meta', get_key_metadata two_key_manager k' = Some meta' ->
                uk_is_default meta' = false /\ uk_created_at meta <= uk_created_at meta').
Proof.
  assert (get_default_key_id (fun A m => m) two_key_manager = Some (public_key (Ed25519Private Byte.x05))) as E
    by (vm_compute; reflexivity).
  split; [exact E|].
  destruct (default_key_spec (fun A m => m) (fun A m => Permutation_refl m) two_key_manager two_key_manager_ok) as [_ H].
  rewrite E in H. exact H.
Defined.

(** Another password does not open the keys. *)
Lemma wrong_password_demo : UserKeyManager_new "guess" demo_salt two_keys = Err (EUser DecryptionFailed).
Proof. vm_compute. reflexivity. Qed.
