(* ===== verification/UserDirectory.v ===== *)
(** * Accounts and logins (user/system_databases.rs, user/admin.rs, instance/mod.rs)

    The system databases of an instance, the creation of an account, the login and
    the session it opens, and the operations of an instance admin, each as the
    composition of transactions that the code runs.  A login is admitted only for
    the one active account of its name and with what unlocks its root key; a login
    that is refused stores nothing; an account is unlocked by the password that it
    was created with. *)

From S2P Require Import Prelude.
From S2P Require Import Path.
From S2P Require Import Position.
From S2P Require Import Ids.
From S2P Require Import Doc.
From S2P Require Import DocPath.
From S2P Require Import Errors.
From S2P Require Import Crypto.
From S2P Require Import Permission.
From S2P Require Import AuthTypes.
From S2P Require Import AuthSettings.
From S2P Require Import Entry.
From S2P Require Import Backend.
From S2P Require Import Traversal.
From S2P Require Import CrdtCache.
From S2P Require Import BackendSteps.
From S2P Require Import Reachability.
From S2P Require Import Validation.
From S2P Require Import Verify.
From S2P Require Import InstanceOps.
From S2P Require Import WireCodec.
From S2P Require Import Transaction.
From S2P Require Import Stores.
From S2P Require Import StoreView.
From S2P Require Import Commit.
From S2P Require Import TxFrame.
From S2P Require Import CommitSpec.
From S2P Require Import Lifecycle.
From S2P Require Import Settings.
From S2P Require Import Table.
From S2P Require Import Node.
From S2P Require Import Peers.
From S2P Require Import UserSync.
From S2P Require Import Bootstrap.
From S2P Require Import SyncHandler.
From S2P Require Import UserKeys.

(** What an instance draws for its users: keys, salts, nonces, the text and the
    entropy of a new database, the clock in seconds, and the order of the hash
    maps from keys. *)
Class UserEnv `{VS : VaultSpec} := {
  fresh_key : nat -> PrivateKey;
  fresh_salt : nat -> string;
  fresh_nonce : nat -> Bytes;
  fresh_label : nat -> string;
  fresh_entropy : nat -> Z;
  clock_secs : nat -> Z;
  keymap_order : forall A : Type, KeyMap A -> KeyMap A;
  fresh_salt_length t : String.length (fresh_salt t) = SALT_LENGTH;
  fresh_salt_b64 t : salt_from_b64 (fresh_salt t) = true;
  fresh_nonce_length t : length (fresh_nonce t) = NONCE_LENGTH;
  keymap_order_ok A m : keymap_order A m ≡ₚ m;
}.

Section directory.
Context `{IS : InstanceSpec} `{JS : !JsonSpec} `{LS : !LruSpec CacheKey (list Byte.byte)}.
Context `{NE : !NodeEnv} `{VS : !VaultSpec} `{UE : !UserEnv}.
Context `{RU : !RowCodec UserInfo} `{RK : !RowCodec UserKey} `{RL : !RowCodec Z}.

(** ** The instance *)

(** A local instance: its metadata and secrets, and the sync database when sync is
    enabled. *)
Record Instance : Type := mkInstance {
  i_metadata : InstanceMetadata;
  i_secrets : option InstanceSecrets;
  i_sync : option DbHandle;
}.

Definition instance_id (inst : Instance) : PublicKey := im_id (i_metadata inst).

Definition instance_signing_key (inst : Instance) : Result PrivateKey Error :=
  match i_secrets inst with
  | Some s => Ok (is_signing_key s)
  | None => Err (EInstance DeviceKeyNotFound)
  end.

Definition open_with_key (id : ID) (signing_key : PrivateKey) : Nm DbHandle :=
  step db <- db_open id;
  nm_ret (db_with_key db (DatabaseKey_new signing_key)).

Definition users_db (inst : Instance) : Nm DbHandle :=
  step db <- db_open (im_users_db (i_metadata inst));
  step key <- nm_lift (instance_signing_key inst);
  nm_ret (db_with_key db (DatabaseKey_new key)).

Definition databases_db (inst : Instance) : Nm DbHandle :=
  step db <- db_open (im_databases_db (i_metadata inst));
  step key <- nm_lift (instance_signing_key inst);
  nm_ret (db_with_key db (DatabaseKey_new key)).

Definition open_system_db_for_session (root_id : ID) (signing_key : PrivateKey) : Nm DbHandle :=
  open_with_key root_id signing_key.

Definition users_db_for_session (inst : Instance) (signing_key : PrivateKey) : Nm DbHandle :=
  open_system_db_for_session (im_users_db (i_metadata inst)) signing_key.

(** [Database::create_with_init] and [Database::create], with their random draws. *)
Definition database_create_with (signing_key : PrivateKey) (settings : Doc) (init : ID -> Tx unit) : Nm DbHandle :=
  step label <- tick;
  step entropy <- tick;
  create_with_init set_order map_order key_order raw_cid read_strategy clock_millis
    ("bootstrap_root_" +:+ fresh_label label) (fresh_entropy entropy) signing_key settings init.

Definition database_create (signing_key : PrivateKey) (settings : Doc) : Nm DbHandle :=
  database_create_with signing_key settings (fun _ => tx_ret tt).

(** ** The system databases *)

Definition database_settings (name kind description : string) : Doc :=
  let settings := (Doc_set Doc_new "name" (Text name)).1 in
  let settings := (Doc_set settings "type" (Text kind)).1 in
  (Doc_set settings "description" (Text description)).1.

Definition create_instance_database (device_signing_key : PrivateKey) : Nm DbHandle :=
  database_create device_signing_key (database_settings "_instance" "system" "Instance configuration and management").

Definition create_users_database (device_signing_key : PrivateKey) : Nm DbHandle :=
  database_create device_signing_key (database_settings "_users" "system" "User directory database").

Definition create_databases_tracking (device_signing_key : PrivateKey) : Nm DbHandle :=
  database_create device_signing_key (database_settings "_databases" "system" "Database tracking and registry").

Definition is_admin_permission (p : Permission) : bool := match p with Admin _ => true | _ => false end.

Definition has_instance_admin (users_db : DbHandle) (device_pubkey : PublicKey) : Nm bool :=
  step auth <- db_auth_settings set_order map_order raw_cid users_db;
  let device_pubkey_str := PublicKey_to_string device_pubkey in
  nm_ret (existsb (fun p => negb (bool_decide (p.1 = device_pubkey_str)) && is_admin_permission (key_permissions p.2))
            (map_to_list (get_all_keys auth))).

Definition grant_admin (database : DbHandle) (pubkey : PublicKey) : Nm unit :=
  update database (set_auth_key (db_root database) pubkey (AuthKey_active (Some "admin") (Admin 0))).

Definition grant_admin_on_system_dbs (users_db databases_db : DbHandle) (pubkey : PublicKey) : Nm unit :=
  step _ <- grant_admin users_db pubkey;
  grant_admin databases_db pubkey.

(** ** Creating an account *)

Definition search_table {T} `{!RowCodec T} (db : DbHandle) (name : string) (query : T -> bool) : Nm (list (string * T)) :=
  view db (Table_search set_order raw_cid (db_root db) doc_order name query).

Definition open_table (db : DbHandle) (name : string) : Tx unit :=
  get_store set_order raw_cid (db_root db) read_strategy Table_type name.

Definition users_named (users_db : DbHandle) (username : string) : Nm (list (string * UserInfo)) :=
  search_table users_db "users" (fun u => bool_decide (ui_username u = username)).

Definition generate_keypair : Nm PrivateKey :=
  step t <- tick;
  nm_ret (fresh_key t).

(** The stored root key and the salt. *)
Definition seal_root (password : option string) (user_private_key : PrivateKey) : Nm (KeyStorage * option string) :=
  match password with
  | Some pwd =>
      step t <- tick;
      let salt_string := fresh_salt t in
      step encryption_key <- nm_lift (derive_encryption_key pwd salt_string);
      step t <- tick;
      step (ciphertext, nonce) <- nm_lift (encrypt_private_key (fresh_nonce t) user_private_key encryption_key);
      nm_ret (Encrypted AES_256_GCM ciphertext nonce, Some salt_string)
  | None => nm_ret (Unencrypted user_private_key, None)
  end.

(** The row of the new account, stored under a fresh key. *)
Definition store_user (users_db : DbHandle) (user_info : UserInfo) : Nm string :=
  step t <- tick;
  update users_db (do _ <- open_table users_db "users";
                   Table_insert (db_root users_db) (fresh_uuid t) "users" user_info).

Definition create_user (inst : Instance) (users_db : DbHandle) (username : string) (password : option string) :
    Nm (string * UserInfo * PrivateKey) :=
  step existing <- users_named users_db username;
  if negb (is_nil existing) then nm_fail (EUser (UsernameAlreadyExists username))
  else
    step user_private_key <- generate_keypair;
    let user_public_key := public_key user_private_key in
    step user_database <- database_create user_private_key
      (database_settings ("_user_" +:+ username) "user" ("User database for " +:+ username));
    let device_pubkey := instance_id inst in
    step (root_key, password_salt) <- seal_root password user_private_key;
    step t <- tick;
    let user_info := mkUserInfo username (db_root user_database) (mkUserCredentials user_public_key root_key password_salt)
                       (clock_secs t) UserActive in
    step user_uuid <- store_user users_db user_info;
    step has_admin <- has_instance_admin users_db device_pubkey;
    step _ <- (if has_admin then nm_ret tt
               else step databases_db <- databases_db inst;
                    grant_admin_on_system_dbs users_db databases_db user_public_key);
    nm_ret (user_uuid, user_info, user_private_key).

(** ** The session *)

Record User : Type := mkUser {
  u_uuid : string;
  u_username : string;
  u_database : DbHandle;
  u_key_manager : UserKeyManager;
  u_info : UserInfo;
}.

Definition User_new (user_uuid : string) (user_info : UserInfo) (user_database : DbHandle) (key_manager : UserKeyManager) : User :=
  mkUser user_uuid (ui_username user_info) user_database key_manager user_info.

Definition root_user_key (user_info : UserInfo) : UserKey :=
  mkUserKey (uc_root_key_id (ui_credentials user_info)) (uc_root_key (ui_credentials user_info)) (Some "Root Key")
    (ui_created_at user_info) None true ∅.

Definition bootstrap_user_tree_if_needed (inst : Instance) (user_database : DbHandle) (user_info : UserInfo)
    (root_already_persisted : bool) : Nm unit :=
  let device_pubkey := instance_id inst in
  step granted <- view user_database (tx_try (get_auth_key set_order raw_cid (db_root user_database) device_pubkey));
  let device_already_granted := is_ok granted in
  if root_already_persisted && device_already_granted then nm_ret tt
  else
    step t <- tick;
    update user_database
      (do _ <- (if root_already_persisted then tx_ret tt
                else do _ <- open_table user_database "keys";
                     do _ <- Table_insert (db_root user_database) (fresh_uuid t) "keys" (root_user_key user_info);
                     tx_ret tt);
       if device_already_granted then tx_ret tt
       else set_auth_key (db_root user_database) device_pubkey (AuthKey_active (Some "device") Read)).

(** The keys of the session: those of the table, and the root key if it is not
    there. *)
Definition session_keys (user_info : UserInfo) (rows : list UserKey) : list UserKey * bool :=
  let root_in_table := existsb (fun k => bool_decide (uk_key_id k = uc_root_key_id (ui_credentials user_info))) rows in
  (if root_in_table then rows else rows ++ [root_user_key user_info], root_in_table).

Definition session_manager (user_info : UserInfo) (password : option string) (all_keys : list UserKey) :
    Result UserKeyManager Error :=
  match password with
  | Some pwd =>
      match uc_password_salt (ui_credentials user_info) with
      | None => Err (EUser InvalidPassword)
      | Some salt => UserKeyManager_new pwd salt all_keys
      end
  | None => UserKeyManager_new_passwordless all_keys
  end.

Definition build_user_session (inst : Instance) (user_uuid : string) (user_info : UserInfo) (root_signing_key : PrivateKey)
    (password : option string) : Nm User :=
  step user_database <- open_with_key (ui_user_database_id user_info) root_signing_key;
  step rows <- search_table (T := UserKey) user_database "keys" (fun _ => true);
  let '(all_keys, root_in_table) := session_keys user_info rows.*2 in
  step key_manager <- nm_lift (session_manager user_info password all_keys);
  step _ <- nm_try (bootstrap_user_tree_if_needed inst user_database user_info root_in_table);
  nm_ret (User_new user_uuid user_info user_database key_manager).

(** ** Login *)

(** The one active account of a name. *)
Definition the_account (username : string) (results : list (string * UserInfo)) : Result (string * UserInfo) Error :=
  match results with
  | [] => Err (EUser (UserNotFound username))
  | [(user_uuid, user_info)] =>
      if decide (ui_status user_info = UserActive) then Ok (user_uuid, user_info)
      else Err (EUser (UserDisabled username))
  | _ => Err (EUser (DuplicateUsersDetected username (length results)))
  end.

Definition lookup_user_record (users_db : DbHandle) (username : string) : Nm (string * UserInfo) :=
  step results <- users_named users_db username;
  nm_lift (the_account username results).

(** The root key, from the stored credentials and the password. *)
Definition unlock_root (creds : UserCredentials) (password : option string) : Result PrivateKey Error :=
  let is_passwordless := match uc_password_salt creds with None => true | Some _ => false end in
  let? _ := match password, is_passwordless with
            | Some _, false | None, true => Ok tt
            | Some _, true => Err (EUser InvalidPassword)
            | None, false => Err (EUser (PasswordRequired "login for password-protected user"))
            end in
  match uc_root_key creds, password with
  | Encrypted _ ciphertext nonce, Some pwd =>
      match uc_password_salt creds with
      | None => Err (EUser (PasswordRequired "decrypt keys for password-protected user"))
      | Some salt =>
          let? encryption_key := derive_encryption_key pwd salt in
          decrypt_private_key ciphertext nonce encryption_key
      end
  | Unencrypted key, None => Ok key
  | _, _ => Err (EUser InvalidPassword)
  end.

(** A failure to note the time of the login is not reported. *)
Definition note_login (users_db : DbHandle) (user_uuid : string) : Nm unit :=
  step now <- tick;
  step _ <- nm_try (update users_db
    (do _ <- open_table users_db "last_login";
     Table_set (db_root users_db) "last_login" user_uuid (clock_secs now)));
  nm_ret tt.

Definition login_user (inst : Instance) (users_db : DbHandle) (username : string) (password : option string) : Nm User :=
  step results <- users_named users_db username;
  step (user_uuid, user_info) <- nm_lift (the_account username results);
  step root_signing_key <- nm_lift (unlock_root (ui_credentials user_info) password);
  step user <- build_user_session inst user_uuid user_info root_signing_key password;
  step _ <- note_login users_db user_uuid;
  nm_ret user.

Definition Instance_login_user (inst : Instance) (user_id : string) (password : option string) : Nm User :=
  step users_db <- users_db inst;
  login_user inst users_db user_id password.

Definition list_users (users_db : DbHandle) : Nm (list string) :=
  step rows <- search_table (T := UserInfo) users_db "users" (fun _ => true);
  nm_ret (ui_username <$> rows.*2).

(** ** Creating and opening an instance *)

Definition write_secrets (s : InstanceSecrets) : Nm unit :=
  nm_engine (fun inner => Some (set_instance_secrets inner s, Ok tt)).

Definition write_metadata (m : InstanceMetadata) : Nm unit :=
  nm_engine (fun inner => Some (set_instance_metadata inner m, Ok tt)).

Definition create_internal (username : string) (password : option string) : Nm (Instance * User) :=
  step device_key <- generate_keypair;
  let device_id := public_key device_key in
  step users <- create_users_database device_key;
  step databases <- create_databases_tracking device_key;
  step _ <- write_secrets (mkInstanceSecrets device_key);
  let metadata := mkInstanceMetadata device_id (db_root users) (db_root databases) None in
  step _ <- write_metadata metadata;
  let inst := mkInstance metadata (Some (mkInstanceSecrets device_key)) None in
  step users <- users_db inst;
  step (user_uuid, user_info, root_key) <- create_user inst users username password;
  step user <- build_user_session inst user_uuid user_info root_key password;
  nm_ret (inst, user).

Definition create_backend (username : string) (password : option string) : Nm (Instance * User) :=
  step metadata <- nm_read (fun inner => Some (Ok (instance_metadata inner)));
  match metadata with
  | Some _ => nm_fail (EInstance InstanceAlreadyExists)
  | None => create_internal username password
  end.

Definition open_loaded (metadata : InstanceMetadata) : Nm Instance :=
  step secrets <- nm_read (fun inner => Some (Ok (instance_secrets inner)));
  match secrets with
  | Some s => if decide (public_key (is_signing_key s) = im_id metadata) then nm_ret (mkInstance metadata secrets None)
              else nm_fail (EInstance DeviceKeyMismatch)
  | None => nm_ret (mkInstance metadata secrets None)
  end.

Definition open_backend : Nm Instance :=
  step metadata <- nm_read (fun inner => Some (Ok (instance_metadata inner)));
  match metadata with
  | None => nm_fail (EInstance InstanceNotInitialized)
  | Some metadata => open_loaded metadata
  end.

Definition connect_or_create_backend (username : string) (password : option string) : Nm (Instance * option User) :=
  step metadata <- nm_read (fun inner => Some (Ok (instance_metadata inner)));
  match metadata with
  | Some metadata => step inst <- open_loaded metadata; nm_ret (inst, None)
  | None => step (inst, user) <- create_internal username password; nm_ret (inst, Some user)
  end.
End directory.

(** ** Every operation ends and keeps what is stored *)

Section directory_safe.
Context `{IS : InstanceSpec} `{JS : !JsonSpec} `{LS : !LruSpec CacheKey (list Byte.byte)}.
Context `{NE : !NodeEnv} `{VS : !VaultSpec} `{UE : !UserEnv}.
Context `{RU : !RowCodec UserInfo} `{RK : !RowCodec UserKey} `{RL : !RowCodec Z}.

Lemma staging_open_table db name : staging (open_table db name).
Proof. unfold open_table. eauto using set_order_ok with staging. Qed.

Lemma staging_set_auth root pubkey key : staging (set_auth_key root pubkey key).
Proof. apply staging_set. Qed.

Lemma staging_table_insert {T} `{!RowCodec T} root uuid name (row : T) : staging (Table_insert root uuid name row).
Proof. unfold Table_insert. stages. Qed.

Lemma staging_get_auth root pubkey : staging (get_auth_key set_order raw_cid root pubkey).
Proof. apply staging_bind; [apply staging_auth_snapshot, set_order_ok|]. intros a. apply staging_lift. Qed.

Lemma safe_search {T} `{!RowCodec T} db name (q : T -> bool) : safe (search_table db name q).
Proof. apply safe_view. eauto using set_order_ok with staging. Qed.

Lemma reads_search {T} `{!RowCodec T} db name (q : T -> bool) : reads (search_table db name q).
Proof. apply reads_view; [apply map_order_ok|]. apply calm_staging. eauto using set_order_ok with staging. Qed.
End directory_safe.

#[export] Hint Resolve staging_open_table staging_set_auth staging_table_insert staging_get_auth : staging.
#[export] Hint Resolve safe_search : safe.
#[export] Hint Resolve reads_search : reads.

Section accounts.
Context `{IS : InstanceSpec} `{JS : !JsonSpec} `{LS : !LruSpec CacheKey (list Byte.byte)}.
Context `{NE : !NodeEnv} `{VS : !VaultSpec} `{UE : !UserEnv}.
Context `{RU : !RowCodec UserInfo} `{RK : !RowCodec UserKey} `{RL : !RowCodec Z}.

Lemma safe_open_id id : safe (db_open id).
Proof. eapply safe_of, nsafe_open. Qed.

Lemma safe_create_with sk settings init : (forall root, staging (init root)) -> safe (database_create_with sk settings init).
Proof.
  intros Hi. unfold database_create_with. apply safe_bind; [apply safe_tick|]. intros t. apply safe_bind; [apply safe_tick|].
  intros t'. eapply safe_of, nsafe_create; [apply set_order_ok|apply map_order_ok|]. intros root. by apply calm_staging.
Qed.

Lemma safe_create sk settings : safe (database_create sk settings).
Proof. apply safe_create_with. intros root. apply staging_ret. Qed.

Hint Resolve safe_open_id safe_auth_settings safe_create : safe.
Hint Extern 1 (safe (nm_fail _)) => apply safe_lift : safe.

Lemma safe_open_key id sk : safe (open_with_key id sk).
Proof. unfold open_with_key. safely. Qed.
Hint Resolve safe_open_key : safe.

Lemma safe_users_db inst : safe (users_db inst).
Proof. unfold users_db. safely. Qed.

Lemma safe_databases_db inst : safe (databases_db inst).
Proof. unfold databases_db. safely. Qed.

Lemma safe_grant_admin users databases pubkey : safe (grant_admin_on_system_dbs users databases pubkey).
Proof.
  assert (forall db, safe (grant_admin db pubkey)) by (intros db; apply safe_update; eauto with staging).
  unfold grant_admin_on_system_dbs. safely.
Qed.

Lemma safe_has_admin db pubkey : safe (has_instance_admin db pubkey).
Proof. unfold has_instance_admin. safely. Qed.

Lemma safe_seal_root password sk : safe (seal_root password sk).
Proof. unfold seal_root. safely. Qed.

Lemma safe_store_user db info : safe (store_user db info).
Proof. unfold store_user. safely. apply safe_update. stages; eauto with staging. Qed.
Hint Resolve safe_users_db safe_databases_db safe_grant_admin safe_has_admin safe_seal_root safe_store_user : safe.

Lemma safe_create_user inst db username password : safe (create_user inst db username password).
Proof. unfold create_user, users_named, generate_keypair. safely. Qed.

Lemma safe_bootstrap_tree inst db info b : safe (bootstrap_user_tree_if_needed inst db info b).
Proof.
  unfold bootstrap_user_tree_if_needed. cbn zeta. apply safe_bind; [apply safe_view; stages; eauto with staging|].
  intros granted. safely. apply safe_update. stages; eauto with staging.
Qed.
Hint Resolve safe_create_user safe_bootstrap_tree : safe.

Lemma safe_build_session inst uuid info sk password : safe (build_user_session inst uuid info sk password).
Proof. unfold build_user_session. safely. Qed.

Lemma safe_note_login db uuid : safe (note_login db uuid).
Proof. unfold note_login. safely. apply safe_update. stages; eauto with staging. Qed.
Hint Resolve safe_build_session safe_note_login : safe.

Lemma safe_login inst db username password : safe (login_user inst db username password).
Proof. unfold login_user, users_named. safely. Qed.

Lemma safe_write_secrets s : safe (write_secrets s).
Proof. apply nsafe_engine. intros inner []. eexists _, _. split; [done|]. by split; [split|]. Qed.

Lemma safe_write_metadata m : safe (write_metadata m).
Proof. apply nsafe_engine. intros inner []. eexists _, _. split; [done|]. by split; [split|]. Qed.
Hint Resolve safe_write_secrets safe_write_metadata : safe.

Lemma safe_create_internal username password : safe (create_internal username password).
Proof. unfold create_internal, generate_keypair, create_users_database, create_databases_tracking. safely. Qed.
End accounts.

(** ** Who is logged in *)

Section login.
Context `{IS : InstanceSpec} `{JS : !JsonSpec} `{LS : !LruSpec CacheKey (list Byte.byte)}.
Context `{NE : !NodeEnv} `{VS : !VaultSpec} `{UE : !UserEnv}.
Context `{RU : !RowCodec UserInfo} `{RK : !RowCodec UserKey} `{RL : !RowCodec Z}.

(** A manager to which keys are added holds all of them. *)
Lemma add_all_has keys : forall m m', add_all m keys = Ok m' ->
  (forall k, is_Some (get_signing_key m k) -> is_Some (get_signing_key m' k))
  /\ forall uk, uk ∈ keys -> is_Some (get_signing_key m' (uk_key_id uk)).
Proof.
  induction keys as [|key keys IH]; intros m m'; simpl; [intros [= <-]; split; [done|set_solver]|].
  destruct (manager_add_key m key) as [m1|] eqn:E; [|done]. cbn [result_bind]. intros H.
  destruct (IH m1 m' H) as [Hkeep Hin]. destruct (add_key_inv _ _ _ E) as (sk & _ & _ & Hg & _). split.
  - intros k Hk. apply Hkeep. rewrite Hg. by destruct (decide _).
  - intros uk [->|Huk]%elem_of_cons; [|by apply Hin]. apply Hkeep. rewrite Hg. by rewrite decide_True.
Qed.

Lemma session_manager_ok info password keys m :
  session_manager info password keys = Ok m ->
  manager_ok m /\ forall uk, uk ∈ keys -> is_Some (get_signing_key m (uk_key_id uk)).
Proof.
  unfold session_manager, UserKeyManager_new, UserKeyManager_new_passwordless. intros H.
  assert (exists ek, add_all (mkUserKeyManager [] [] ek) keys = Ok m) as [ek Ha].
  { destruct password; [|eauto]. destruct (uc_password_salt _); [|done]. destruct (derive_encryption_key _ _); [eauto|done]. }
  split; [apply (add_all_ok _ _ _ (manager_empty_ok _) Ha)|apply (add_all_has _ _ _ Ha)].
Qed.

(** *** What a table holds *)

(** A row of a table, in the merged data of its store. *)
Definition row_in {T} `{!RowCodec T} (data : Doc) (key : string) (row : T) : Prop :=
  exists j, Doc_iter data !! key = Some (Text j) /\ row_of_json j = Some row.

(** The merged data of a store of the database at the state [n]. *)
Definition store_data (db : DbHandle) (name : string) (n : Node) (data : Doc) : Prop :=
  exists n', view db (DocStore_get_all set_order raw_cid (db_root db) name) n = Some (Done (n', Ok data)).

Lemma search_table_ok {T} `{!RowCodec T} db name (query : T -> bool) n n' found :
  search_table db name query n = Some (Done (n', Ok found)) ->
  exists data, store_data db name n data
    /\ forall key row, (key, row) ∈ found <-> query row = true /\ row_in data key row.
Proof.
  unfold search_table, store_data, view, db_view, nm_bind, Table_search, in_tx, tx_bind.
  destruct (db_new_transaction _ db n) as [[[n1 [t|]]|]|]; [|done..].
  destruct (DocStore_get_all _ _ _ _ _) as [[[s [data|]]|]|]; [|done..]. unfold tx_lift.
  pose proof (search_rows_spec raw_cid name query (doc_order (Doc_iter data))) as Hs.
  destruct (search_rows _ _ _) as [l|]; [|done]. intros [= _ <-]. exists data. split; [by eexists|].
  intros key row. rewrite Hs. unfold row_in. by setoid_rewrite doc_order_ok; setoid_rewrite elem_of_map_to_list.
Qed.

(** *** The root key of a session *)

(** What the stored keys of an account are opened with. *)
Definition unlocking_key (creds : UserCredentials) (password : option string) : option Bytes :=
  match password, uc_password_salt creds with
  | Some pwd, Some salt => match derive_encryption_key pwd salt with Ok key => Some key | Err _ => None end
  | _, _ => None
  end.

Lemma session_manager_adds info password keys m : session_manager info password keys = Ok m ->
  add_all (mkUserKeyManager [] [] (unlocking_key (ui_credentials info) password)) keys = Ok m.
Proof.
  unfold session_manager, UserKeyManager_new, UserKeyManager_new_passwordless, unlocking_key. destruct password; [|done].
  destruct (uc_password_salt _); [|done]. by destruct (derive_encryption_key _ _).
Qed.

Lemma add_all_app l1 l2 : forall m m', add_all m (l1 ++ l2) = Ok m' ->
  exists m1, add_all m l1 = Ok m1 /\ add_all m1 l2 = Ok m'.
Proof.
  induction l1 as [|uk l1 IH]; intros m m'; simpl; [by exists m|]. destruct (manager_add_key m uk); [|done]. apply IH.
Qed.

Lemma add_all_metadata keys : forall m m' k row, add_all m keys = Ok m' -> get_key_metadata m' k = Some row ->
  row ∈ keys \/ get_key_metadata m k = Some row.
Proof.
  induction keys as [|uk keys IH]; intros m m' k row; simpl; [intros [= <-]; by right|].
  destruct (manager_add_key m uk) as [m1|] eqn:E; [|done]. intros Ha Hr.
  destruct (IH _ _ _ _ Ha Hr) as [?|Hm]; [left; by right|]. destruct (add_key_inv _ _ _ E) as (sk & _ & _ & _ & Hg).
  rewrite Hg in Hm. destruct (decide _); [injection Hm as <-; left; by left|by right].
Qed.

(** Under the id of the root key the manager holds what a row of the account's
    table of keys opens to; or, where the table has no such row, the key [sk]. *)
Definition root_held (m : UserKeyManager) (info : UserInfo) (password : option string) (rows : list UserKey)
    (sk : PrivateKey) : Prop :=
  let root_id := uc_root_key_id (ui_credentials info) in
  (root_id ∉ (uk_key_id <$> rows) /\ get_signing_key m root_id = Some sk)
  \/ exists row k, row ∈ rows /\ uk_key_id row = root_id /\ get_signing_key m root_id = Some k
       /\ open_storage (unlocking_key (ui_credentials info) password) (uk_storage row) = Ok k.

(** The stored root key opens in a session to the key that the login unlocks. *)
Lemma unlocked_opens creds password sk k : unlock_root creds password = Ok sk ->
  open_storage (unlocking_key creds password) (uc_root_key creds) = Ok k -> k = sk.
Proof.
  unfold unlock_root, unlocking_key, open_storage. intros Hu Ho.
  destruct password as [pwd|], (uc_password_salt creds) as [salt|], (uc_root_key creds) as [alg c nonce|key];
    cbn [result_bind] in Hu; try done; [|congruence].
  destruct (derive_encryption_key pwd salt) as [ek|]; [|done]. cbn [result_bind] in Hu.
  case_decide; [|done]. congruence.
Qed.

Lemma session_root info password rows sk m :
  session_manager info password (session_keys info rows).1 = Ok m -> unlock_root (ui_credentials info) password = Ok sk ->
  manager_ok m /\ root_held m info password rows sk.
Proof.
  intros Hs%session_manager_adds Hu. destruct (add_all_ok _ _ _ (manager_empty_ok _) Hs) as [Hm Hek].
  split; [done|]. cbn [encryption_key] in Hek. unfold session_keys in Hs. cbn [fst] in Hs.
  destruct (existsb _ rows) eqn:E; unfold root_held; cbn zeta.
  - right. apply existsb_exists in E as (uk & Hin%list_elem_of_In & Huk%bool_decide_eq_true_1).
    destruct (proj2 (add_all_has _ _ _ Hs) uk Hin) as [k Hk]. rewrite Huk in Hk.
    assert (is_Some (get_key_metadata m (uc_root_key_id (ui_credentials info)))) as [row Hrow].
    { destruct (get_key_metadata m _) eqn:En; [by eexists|]. apply km_get_None in En. rewrite <- (mo_keys _ Hm) in En.
      apply km_get_None in En. unfold get_signing_key in Hk. congruence. }
    destruct (mo_opens _ Hm _ _ _ Hk Hrow) as [Hid Ho]. rewrite Hek in Ho.
    destruct (add_all_metadata _ _ _ _ _ Hs Hrow) as [Hr|Hr]; [|done]. by exists row, k.
  - left. apply add_all_app in Hs as (m1 & H1 & H2). cbn [add_all] in H2.
    destruct (manager_add_key m1 _) as [m2|] eqn:Ea; [|done]. injection H2 as ->.
    destruct (add_key_inv _ _ _ Ea) as (k & Ho & _ & Hg & _).
    destruct (add_all_ok _ _ _ (manager_empty_ok _) H1) as [_ He1]. cbn [encryption_key] in He1. rewrite He1 in Ho.
    rewrite (unlocked_opens _ _ _ _ Hu Ho) in Hg. split; [|rewrite Hg; by rewrite decide_True].
    intros (uk & Hid & Hin)%list_elem_of_fmap. apply not_true_iff_false in E. apply E, existsb_exists.
    exists uk. split; [by apply list_elem_of_In|]. by apply bool_decide_eq_true_2.
Qed.

(** The session that belongs to an account whose root key is [sk], and whose table
    of keys holds [rows]. *)
Definition session_of (u : User) (uuid : string) (info : UserInfo) (password : option string) (rows : list UserKey)
    (sk : PrivateKey) : Prop :=
  u_uuid u = uuid /\ u_info u = info /\ u_username u = ui_username info
  /\ u_database u = mkDbHandle (ui_user_database_id info) (Some (DatabaseKey_new sk)) false
  /\ manager_ok (u_key_manager u) /\ root_held (u_key_manager u) info password rows sk.

(** The keys in the account's own table, over the entries [es]. *)
Definition keys_over (es : gmap ID Entry) (u : User) (rows : list UserKey) : Prop :=
  exists n data, node_ok n /\ entries (node_engine n) = es /\ store_data (u_database u) "keys" n data
    /\ forall row, row ∈ rows <-> exists key, row_in data key row.

Lemma open_with_key_ok id sk n n1 db :
  open_with_key id sk n = Some (Done (n1, Ok db)) -> n1 = n /\ db = mkDbHandle id (Some (DatabaseKey_new sk)) false.
Proof.
  unfold open_with_key. intros (n0 & d & E & H)%nm_bind_ok. injection H as <- <-.
  apply nm_bind_ok in E as (n2 & r0 & E0 & E). unfold nm_read, open_database, storage_get in E0.
  destruct (entries (node_engine n) !! id); [|done]. injection E0 as <- <-. by injection E as <- <-.
Qed.

(** A new instance starts with a session of its first account. *)
Lemma create_internal_ok username password n n' inst u :
  node_ok n -> create_internal username password n = Some (Done (n', Ok (inst, u))) ->
  node_ok n' /\ manager_ok (u_key_manager u).
Proof.
  intros Hn H. pose proof (safe_create_internal username password n Hn) as Hs. rewrite H in Hs.
  split; [apply Hs|]. clear Hs. unfold create_internal in H.
  do 5 (apply nm_bind_ok in H as (? & ? & _ & H); cbn zeta in H). apply nm_bind_ok in H as (? & ? & _ & H).
  apply nm_bind_ok in H as (n1 & [[uuid info] sk] & _ & H). apply nm_bind_ok in H as (n2 & u' & E & H). injection H as _ _ <-.
  unfold build_user_session in E. apply nm_bind_ok in E as (? & ? & _ & E). apply nm_bind_ok in E as (? & rows & _ & E).
  destruct (session_keys info rows.*2) as [keys in_table]. apply nm_bind_ok in E as (n3 & m & Em & E). injection Em as _ Em.
  apply nm_bind_ok in E as (? & ? & _ & E). injection E as _ <-. by apply (session_manager_ok _ _ _ _ Em).
Qed.

Lemma reads_open_key id sk : reads (open_with_key id sk).
Proof. unfold open_with_key. only_reads. Qed.

(** A session is refused without a trace. *)
Lemma build_session_inv inst uuid info sk password n n' r :
  node_ok n -> build_user_session inst uuid info sk password n = Some (Done (n', r)) ->
  node_ok n' /\ entries (node_engine n) ⊆ entries (node_engine n')
  /\ match r with
     | Err _ => entries (node_engine n') = entries (node_engine n)
     | Ok u => unlock_root (ui_credentials info) password = Ok sk ->
         exists rows, keys_over (entries (node_engine n)) u rows /\ session_of u uuid info password rows sk
     end.
Proof.
  intros Hn H. pose proof (safe_build_session inst uuid info sk password n Hn) as Hs. rewrite H in Hs.
  destruct Hs as (Hn' & Hsub & _). split; [done|]. split; [done|]. unfold build_user_session in H.
  apply reads_bind_inv in H as [(e & _ & -> & _ & He)|(n1 & db & E1 & Hn1 & He1 & H)]; [done| |apply reads_open_key|done].
  apply open_with_key_ok in E1 as [-> ->].
  apply reads_bind_inv in H as [(e & _ & -> & _ & He)|(n2 & rows & E2 & Hn2 & He2 & H)]; [done| |apply reads_search|done].
  pose proof (session_root info password rows.*2 sk) as Hroot.
  destruct (session_keys info rows.*2) as [keys in_table]. cbn [fst] in Hroot.
  destruct (session_manager info password keys) as [m|e] eqn:Em.
  - unfold nm_bind, nm_try in H. cbn in H.
    destruct (bootstrap_user_tree_if_needed _ _ _ _ n2) as [[[n3 r3]|]|]; [|done..]. injection H as <- <-.
    intros Hu. destruct (Hroot m eq_refl Hu). exists rows.*2. split; [|done].
    apply search_table_ok in E2 as (data & Hd & Hrows). exists n, data. do 3 (split; [done|]).
    intros row. rewrite list_elem_of_fmap. split.
    + intros ([key row'] & -> & [_ ?]%Hrows). by exists key.
    + intros [key ?]. exists (key, row). split; [done|]. by apply Hrows.
  - injection H as <- <-. congruence.
Qed.

(** Noting the login never fails. *)
Lemma note_login_ok db uuid n n' r : note_login db uuid n = Some (Done (n', r)) -> r = Ok tt.
Proof.
  unfold note_login, nm_bind at 1, tick, nm_bind, nm_try. match goal with |- context [update db ?m ?x] => destruct (update db m x) as [[[? ?]|]|] end;
    [|done..]. by intros [= _ <-].
Qed.

End login.

(** ** What a new account can be unlocked with *)

Section creation.
Context `{IS : InstanceSpec} `{JS : !JsonSpec} `{LS : !LruSpec CacheKey (list Byte.byte)}.
Context `{NE : !NodeEnv} `{VS : !VaultSpec} `{UE : !UserEnv}.
Context `{RU : !RowCodec UserInfo} `{RK : !RowCodec UserKey} `{RL : !RowCodec Z}.

(** The stored root key [root_key] with [salt], for the private key [sk]. *)
Definition sealed_for (password : option string) (sk : PrivateKey) (root_key : KeyStorage) (salt : option string) : Prop :=
  match password with
  | None => root_key = Unencrypted sk /\ salt = None
  | Some pwd => exists s key nonce c, salt = Some s /\ root_key = Encrypted AES_256_GCM c nonce
      /\ derive_encryption_key pwd s = Ok key /\ length nonce = NONCE_LENGTH
      /\ aes_encrypt key nonce (String.list_byte_of_string (PrivateKey_to_string sk)) = Some c
  end.

Lemma seal_root_ok password sk n n' root_key salt :
  seal_root password sk n = Some (Done (n', Ok (root_key, salt))) -> sealed_for password sk root_key salt.
Proof.
  unfold seal_root, sealed_for. destruct password as [pwd|]; [|by intros [= _ <- <-]].
  intros (n1 & t & E1 & H)%nm_bind_ok. injection E1 as <- <-. cbn zeta in H.
  apply nm_bind_ok in H as (n2 & key & E2 & H). injection E2 as <- Hkey.
  apply nm_bind_ok in H as (n3 & t' & E3 & H). injection E3 as <- <-.
  apply nm_bind_ok in H as (n4 & [c nonce] & E4 & H). injection E4 as <- Henc. injection H as <- <- <-.
  assert (aes_encrypt key (fresh_nonce (n_tick (mkNode (n_inst n) (n_cache n) (n_events n) (S (n_tick n)))))
    (String.list_byte_of_string (PrivateKey_to_string sk)) = Some c /\ nonce = fresh_nonce (S (n_tick n))) as [Hc ->].
  { unfold encrypt_private_key in Henc. destruct (negb _); [done|]. cbn zeta in Henc.
    destruct (aes_encrypt _ _ _); [|done]. by injection Henc as -> ->. }
  eexists _, key, _, c. split; [done|]. split; [done|]. split; [done|]. split; [apply fresh_nonce_length|exact Hc].
Qed.

(** What is sealed is unlocked by the password that it was sealed with. *)
Lemma sealed_unlocks password sk root_key salt pk :
  sealed_for password sk root_key salt -> unlock_root (mkUserCredentials pk root_key salt) password = Ok sk.
Proof.
  unfold sealed_for, unlock_root. destruct password as [pwd|]; cbn [uc_password_salt uc_root_key]; [|by intros [-> ->]].
  intros (s & key & nonce & c & -> & -> & Hk & Hn & Hc). cbn [result_bind]. rewrite Hk. cbn [result_bind].
  apply (open_encrypted nonce); [done|]. unfold encrypt_private_key.
  rewrite (derive_length _ _ _ Hk), Nat.eqb_refl. cbn [negb]. cbn zeta. by rewrite Hc.
Qed.

(** The session of a sealed account starts with its root key. *)
Lemma sealed_session password sk root_key salt info :
  sealed_for password sk root_key salt -> ui_credentials info = mkUserCredentials (public_key sk) root_key salt ->
  exists m, session_manager info password [root_user_key info] = Ok m /\ get_signing_key m (public_key sk) = Some sk.
Proof.
  intros Hs Hc. pose proof (sealed_unlocks _ _ _ _ (public_key sk) Hs) as Hu.
  assert (exists ek, session_manager info password [root_user_key info] = add_all (mkUserKeyManager [] [] ek) [root_user_key info]
    /\ open_storage ek root_key = Ok sk) as (ek & -> & Ho).
  { unfold session_manager, unlock_root in *. rewrite Hc. cbn [uc_password_salt uc_root_key] in *.
    destruct password as [pwd|].
    - destruct Hs as (s & key & nonce & c & -> & -> & Hk & _ & _). cbn [result_bind] in Hu. unfold UserKeyManager_new.
      rewrite Hk in *. cbn [result_bind] in *. by exists (Some key).
    - destruct Hs as [-> ->]. by exists None. }
  cbn [add_all]. unfold manager_add_key, root_user_key at 1. cbn [uk_storage encryption_key]. rewrite Hc. cbn [uc_root_key].
  rewrite Ho. cbn [result_bind]. eexists. split; [done|]. unfold get_signing_key. cbn [decrypted_keys].
  rewrite km_get_insert. unfold root_user_key. cbn [uk_key_id]. rewrite Hc. by rewrite decide_True.
Qed.

Lemma create_user_ok inst db username password n n' uuid info sk :
  node_ok n -> create_user inst db username password n = Some (Done (n', Ok (uuid, info, sk))) ->
  (exists n1, users_named db username n = Some (Done (n1, Ok [])))
  /\ ui_username info = username /\ ui_status info = UserActive
  /\ exists root_key salt, ui_credentials info = mkUserCredentials (public_key sk) root_key salt
       /\ sealed_for password sk root_key salt.
Proof.
  intros Hn. unfold create_user. intros (n1 & rows & E1 & H)%nm_bind_ok. destruct rows as [|row rows]; [|done].
  split; [by exists n1|]. cbn [is_nil negb] in H.
  apply nm_bind_ok in H as (n2 & key & _ & H). cbn zeta in H.
  apply nm_bind_ok in H as (n3 & udb & _ & H). apply nm_bind_ok in H as (n4 & [root_key salt] & E4 & H).
  apply nm_bind_ok in H as (n5 & t & _ & H). cbn zeta in H.
  apply nm_bind_ok in H as (n6 & id & _ & H). apply nm_bind_ok in H as (n7 & has & _ & H).
  apply nm_bind_ok in H as (n8 & [] & _ & H). injection H as _ <- <- <-. split; [done|]. split; [done|].
  eexists _, _. split; [done|]. by eapply seal_root_ok.
Qed.

(** *** The row of a new account *)

(** An entry of the tree [tree] whose data for a table puts the row under the key. *)
Definition puts_row {T} `{!RowCodec T} (tree : ID) (name key : string) (row : T) (e : Entry) : Prop :=
  tn_root (e_tree e) = opt_root tree
  /\ exists d j, Entry_data e name = Ok (doc_to_json d) /\ get_raw d key = Some (Text j) /\ row_of_json j = Some row.

(** The entry is stored; or another one is that has the same ID. *)
Definition stored_or_collides (es : gmap ID Entry) (e : Entry) : Prop :=
  es !! Entry_id e = Some e \/ exists e', e' <> e /\ Entry_id e' = Entry_id e /\ es !! Entry_id e = Some e'.

Lemma collides_weaken es es' e : stored_or_collides es e -> es ⊆ es' -> stored_or_collides es' e.
Proof.
  intros [H|(e' & Hne & Hid & H)] Hs; [left|right; exists e'; split; [done|]; split; [done|]]; by eapply lookup_weaken.
Qed.

Lemma added_collides es es' e : mem_inv es -> entries es' = entries es ∪ {[ Entry_id e := e ]} -> stored_or_collides (entries es') e.
Proof.
  intros Hm He. unfold stored_or_collides. rewrite He. destruct (entries es !! Entry_id e) as [e'|] eqn:E.
  - rewrite (lookup_union_Some_l _ _ _ _ E). destruct (decide (e' = e)) as [->|]; [by left|].
    right. exists e'. split; [done|]. split; [by apply (mi_ids _ Hm _ _ E)|done].
  - left. rewrite lookup_union_r by done. apply lookup_singleton_eq.
Qed.

Lemma table_insert_ok {T} `{!RowCodec T} root uuid name (row : T) s s' uuid' :
  Table_insert root uuid name row s = Some (Done (s', Ok uuid')) ->
  uuid' = uuid /\ exists d j b, row_to_json row = Some j /\ entry_builder s' = Some b
    /\ EntryBuilder_data b name = Ok (doc_to_json (Doc_set d uuid (Text j)).1).
Proof.
  intros (s1 & [] & H & [= <- <-])%tx_bind_ok. split; [done|]. unfold Table_set in H.
  apply tx_bind_ok in H as (s2 & local & _ & H). apply tx_bind_ok in H as (s3 & text & E & H).
  unfold serialize_row, tx_lift in E. destruct (row_to_json row) as [j|] eqn:Ej; [|done]. injection E as <- <-.
  exists (default Doc_new local), j. unfold stage, update_subtree in H. apply tx_bind_ok in H as (s4 & b & _ & H).
  apply tx_bind_ok in H as (s5 & ids & _ & H). apply tx_bind_ok in H as (s6 & b' & _ & H). cbn zeta in H.
  unfold put_builder in H. injection H as <-. eexists. split; [done|]. split; [done|].
  destruct ids; rewrite ?builder_data_parents, builder_data_set; by rewrite decide_True.
Qed.
(** A row that is inserted is in an entry that is added. *)
Lemma insert_written {T} `{!RowCodec T} db uuid name (row : T) n n' uuid' :
  (forall d, doc_to_json d <> []) -> segments_of uuid' <> [] -> node_ok n ->
  update db (do _ <- open_table db name; Table_insert (db_root db) uuid name row) n = Some (Done (n', Ok uuid')) ->
  uuid' = uuid /\ exists e, puts_row (db_root db) name uuid row e
    /\ entries (node_engine n') = entries (node_engine n) ∪ {[ Entry_id e := e ]}.
Proof.
  intros Hj Hu Hn H. apply update_written in H as (s & s' & b & e & Hm & Hb & Hroot & Hdata & He); [|done|stages; eauto with staging].
  apply tx_bind_ok in Hm as (s1 & [] & _ & Hm). apply table_insert_ok in Hm as (-> & d & j & b' & Hrow & Hb' & Hd).
  split; [done|]. exists e. split; [|done]. split; [done|]. exists (Doc_set d uuid (Text j)).1, j.
  split; [|split; [by apply get_of_set|by apply row_of_to_json]]. apply Hdata. unfold payload.
  assert (b' = b) as -> by congruence. rewrite Hd. specialize (Hj (Doc_set d uuid (Text j)).1). by destruct (doc_to_json _).
Qed.

Lemma safe_end {A} (m : Nm A) n n' r : safe m -> node_ok n -> m n = Some (Done (n', r)) ->
  node_ok n' /\ entries (node_engine n) ⊆ entries (node_engine n').
Proof. intros Hm Hn E. specialize (Hm n Hn). rewrite E in Hm. by destruct Hm as (? & ? & _). Qed.

Lemma create_user_stores inst db username password n n' uuid info sk :
  (forall d, doc_to_json d <> []) -> segments_of uuid <> [] -> node_ok n ->
  create_user inst db username password n = Some (Done (n', Ok (uuid, info, sk))) ->
  exists e, puts_row (db_root db) "users" uuid info e /\ stored_or_collides (entries (node_engine n')) e.
Proof.
  intros Hj Hu Hn. unfold create_user. intros (n1 & rows & E1 & H)%nm_bind_ok. destruct rows as [|row rows]; [|done].
  apply reads_search in E1 as [Hn1 _]; [|done]. cbn [is_nil negb] in H.
  apply nm_bind_ok in H as (n2 & key & E2 & H). apply safe_end in E2 as [Hn2 _]; [|unfold generate_keypair; safely|done].
  apply nm_bind_ok in H as (n3 & udb & E3 & H). apply safe_end in E3 as [Hn3 _]; [|apply safe_create|done].
  apply nm_bind_ok in H as (n4 & [root_key salt] & E4 & H). apply safe_end in E4 as [Hn4 _]; [|apply safe_seal_root|done].
  apply nm_bind_ok in H as (n5 & t & E5 & H). apply safe_end in E5 as [Hn5 _]; [|apply nsafe_tick|done]. cbn zeta in H.
  apply nm_bind_ok in H as (n6 & id & E6 & H). pose proof E6 as [Hn6 _]%safe_end; [|apply safe_store_user|done].
  apply nm_bind_ok in H as (n7 & has & E7 & H). apply safe_end in E7 as [Hn7 Hs7]; [|apply safe_has_admin|done].
  apply nm_bind_ok in H as (n8 & [] & E8 & H). injection H as <- <- <- _.
  apply safe_end in E8 as [_ Hs8];
    [|destruct has; [apply safe_ret|apply safe_bind; [apply safe_databases_db|intros; apply safe_grant_admin]]|done].
  unfold store_user in E6. apply nm_bind_ok in E6 as (n9 & t' & E9 & E6).
  apply safe_end in E9 as [Hn9 _]; [|apply nsafe_tick|done].
  apply insert_written in E6 as (-> & e & Hput & He); [|done..]. exists e. split; [done|].
  apply (collides_weaken (entries (node_engine n6))); [|by etrans].
  eapply added_collides; [apply (no_mem _ Hn9)|done].
Qed.


(** C15: an account that was created with a password is refused to every other one,
    and to a login without a password, before anything of it is read.  Authenticated
    encryption is taken at its word, that no other key opens a ciphertext, and the
    two passwords must not derive the same key. *)
Theorem wrong_password_refused inst db username pwd pwd' n n' uuid info sk db' name n1 n2 :
  (forall key key' nonce m c, length key = KEY_LENGTH -> length key' = KEY_LENGTH -> key' <> key ->
     aes_encrypt key nonce m = Some c -> aes_decrypt key' nonce c = None) ->
  node_ok n -> create_user inst db username (Some pwd) n = Some (Done (n', Ok (uuid, info, sk))) ->
  users_named db' name n1 = Some (Done (n2, Ok [(uuid, info)])) ->
  login_user inst db' name None n1
    = Some (Done (n2, Err (EUser (PasswordRequired "login for password-protected user"))))
  /\ (forall key salt, uc_password_salt (ui_credentials info) = Some salt -> derive_encryption_key pwd' salt = Ok key ->
        derive_encryption_key pwd salt <> Ok key ->
        login_user inst db' name (Some pwd') n1 = Some (Done (n2, Err (EUser DecryptionFailed)))).
Proof.
  intros Haead Hn Hc Hl. destruct (create_user_ok _ _ _ _ _ _ _ _ _ Hn Hc) as (_ & _ & Hst & root_key & salt & Hcr & Hs).
  assert (forall password e, unlock_root (ui_credentials info) password = Err e ->
    login_user inst db' name password n1 = Some (Done (n2, Err e))) as Hlog.
  { intros password e He. unfold login_user, nm_bind at 1. rewrite Hl. unfold nm_bind, nm_lift. cbn [the_account].
    rewrite decide_True by done. by rewrite He. }
  destruct Hs as (s & key & nonce & c & -> & -> & Hk & Hlen & Henc). rewrite Hcr in *. split; [by apply Hlog|].
  intros key' salt [= <-] Hk' Hne. apply Hlog. unfold unlock_root. cbn [uc_password_salt uc_root_key result_bind].
  rewrite Hk'. cbn [result_bind]. unfold decrypt_private_key.
  rewrite (derive_length _ _ _ Hk'), Hlen, !Nat.eqb_refl. cbn [negb].
  rewrite (Haead key key' nonce _ c (derive_length _ _ _ Hk) (derive_length _ _ _ Hk') ltac:(congruence) Henc). done.
Qed.
End creation.

(** ** A concrete directory *)

#[local] Existing Instance nat_cid.
#[local] Existing Instance byte_crypto.
#[local] Existing Instance list_lru.
#[local] Existing Instance wire_codec.
#[local] Existing Instance wire_json.
#[local] Existing Instance wire_peers.
#[local] Existing Instance wire_instance.
#[local] Existing Instance wire_env.

#[export] Instance wire_user_env : UserEnv := {|
  fresh_key t := Ed25519Private (default Byte.x00 (Byte.of_N (N.of_nat t)));
  fresh_salt t := demo_salt;
  fresh_nonce := vault_nonce;
  fresh_label := nat_to_string;
  fresh_entropy t := Z.of_nat t;
  clock_secs t := Z.of_nat t;
  keymap_order A m := m;
  fresh_salt_length t := eq_refl;
  fresh_salt_b64 t := eq_refl;
  fresh_nonce_length := vault_nonce_length;
  keymap_order_ok A m := Permutation_refl m;
|}.

#[export] Instance byte_private_key_dec : EqDecision (@PrivateKey byte_crypto).
Proof. intros [a] [b]. destruct (Byte.byte_eq_dec a b) as [->|Hn]; [by left|right; congruence]. Defined.

#[export] Instance key_storage_dec : EqDecision (@KeyStorage byte_crypto).
Proof. solve_decision. Defined.

#[export] Instance user_key_dec : EqDecision (@UserKey nat_cid byte_crypto).
Proof. solve_decision. Defined.

#[export] Instance user_credentials_dec : EqDecision (@UserCredentials byte_crypto).
Proof. solve_decision. Defined.

#[export] Instance user_info_dec : EqDecision (@UserInfo nat_cid byte_crypto).
Proof. solve_decision. Defined.

(** Rows are written where they are read back. *)
Definition checked_row {T} `{EqDecision T} (w : T -> Bytes) (r : Bytes -> option (T * Bytes)) : RowCodec T.
Proof.
  refine {| row_to_json x := let j := String.string_of_list_byte (w x) in
      if decide (fst <$> r (String.list_byte_of_string j) = Some x) then Some j else None;
    row_of_json j := fst <$> r (String.list_byte_of_string j) |}.
  intros x j. cbn zeta. destruct (decide _) as [H|]; [|done]. by intros [= <-].
Defined.

Definition write_option {A} (w : A -> Bytes) (o : option A) : Bytes :=
  match o with None => [Byte.x00] | Some a => Byte.x01 :: w a end.

Definition read_option {A} (r : Bytes -> option (A * Bytes)) (b : Bytes) : option (option A * Bytes) :=
  match b with
  | Byte.x01 :: b => p ← r b; Some (Some p.1, p.2)
  | _ :: b => Some (None, b)
  | [] => None
  end.

Definition read_parsed {A} (f : string -> Result A AuthError) (b : Bytes) : option (A * Bytes) :=
  p ← read_string b; a ← result_ok (f p.1); Some (a, p.2).

Definition read_id (b : Bytes) : option (ID * Bytes) := p ← read_string b; a ← result_ok (ID_parse p.1); Some (a, p.2).

Definition write_storage (s : KeyStorage) : Bytes :=
  match s with
  | Encrypted a c n => Byte.x00 :: write_string a ++ write_bytes c ++ write_bytes n
  | Unencrypted k => Byte.x01 :: write_string (PrivateKey_to_string k)
  end.

Definition read_storage (b : Bytes) : option (KeyStorage * Bytes) :=
  match b with
  | Byte.x00 :: b => a ← read_string b; c ← read_bytes a.2; n ← read_bytes c.2; Some (Encrypted a.1 c.1 n.1, n.2)
  | Byte.x01 :: b => k ← read_parsed PrivateKey_from_string b; Some (Unencrypted k.1, k.2)
  | _ => None
  end.

Definition write_info (i : UserInfo) : Bytes :=
  write_string (ui_username i) ++ write_string (ID_to_string (ui_user_database_id i))
  ++ write_string (PublicKey_to_string (uc_root_key_id (ui_credentials i))) ++ write_storage (uc_root_key (ui_credentials i))
  ++ write_option write_string (uc_password_salt (ui_credentials i)) ++ write_Z (ui_created_at i)
  ++ write_Z (match ui_status i with UserActive => 0 | UserIsDisabled => 1 | UserLocked => 2 end).

Definition read_info (b : Bytes) : option (UserInfo * Bytes) :=
  name ← read_string b; db ← read_id name.2; pk ← read_parsed PublicKey_from_string db.2; st ← read_storage pk.2;
  salt ← read_option read_string st.2; t ← read_Z salt.2; s ← read_Z t.2;
  Some (mkUserInfo name.1 db.1 (mkUserCredentials pk.1 st.1 salt.1) t.1
          (if s.1 =? 0 then UserActive else if s.1 =? 1 then UserIsDisabled else UserLocked), s.2).

(** Keys whose mappings are to their own public key or to a name. *)
Definition write_mapping (p : ID * option SigKey) : Bytes :=
  write_string (ID_to_string p.1)
  ++ write_option write_string (sk ← p.2; Some (default EmptyString (hint_name (SigKey_hint sk)))).

Definition read_mapping (b : Bytes) : option ((ID * option SigKey) * Bytes) :=
  id ← read_id b;
  name ← read_option read_string id.2;
  Some (id.1, match name.1 with Some s => Some (SigKey_from_name s) | None => None end, name.2).

Definition write_user_key (k : UserKey) : Bytes :=
  write_string (PublicKey_to_string (uk_key_id k)) ++ write_storage (uk_storage k) ++ write_option write_string (uk_display_name k)
  ++ write_Z (uk_created_at k) ++ write_option write_Z (uk_last_used k) ++ write_Z (if uk_is_default k then 1 else 0)
  ++ write_list write_mapping (map_to_list (uk_database_sigkeys k)).

Definition read_user_key (b : Bytes) : option (UserKey * Bytes) :=
  pk ← read_parsed PublicKey_from_string b; st ← read_storage pk.2; name ← read_option read_string st.2; t ← read_Z name.2;
  used ← read_option read_Z t.2; d ← read_Z used.2; mappings ← read_list read_mapping (length d.2) d.2;
  Some (mkUserKey pk.1 st.1 name.1 t.1 used.1 (d.1 =? 1) (list_to_map mappings), []).

#[export] Instance info_codec : RowCodec UserInfo := checked_row write_info read_info.
#[export] Instance key_codec : RowCodec UserKey := checked_row write_user_key read_user_key.
#[export] Instance secs_codec : RowCodec Z := checked_row write_Z read_Z.

(** A new instance before its first account. *)
Definition bare_instance : Nm (Instance * DbHandle) :=
  step device_key <- generate_keypair;
  step users <- create_users_database device_key;
  step databases <- create_databases_tracking device_key;
  let inst := mkInstance (mkInstanceMetadata (public_key device_key) (db_root users) (db_root databases) None)
                (Some (mkInstanceSecrets device_key)) None in
  step users <- users_db inst;
  nm_ret (inst, users).

Definition node_of {A} (r : option (Outcome (Node * Result A Error))) (d : Node) : Node :=
  match r with Some (Done (n, _)) => n | _ => d end.

Definition value_of {A} (r : option (Outcome (Node * Result A Error))) (d : A) : A :=
  match r with Some (Done (_, Ok a)) => a | _ => d end.

Definition no_handle : DbHandle := mkDbHandle ID_default None false.
Definition no_instance : Instance :=
  mkInstance (mkInstanceMetadata (public_key (Ed25519Private Byte.x00)) ID_default ID_default None) None None.

Definition bare_node : Node := node_of (bare_instance empty_node) empty_node.
Definition bare_inst : Instance := (value_of (bare_instance empty_node) (no_instance, no_handle)).1.
Definition bare_users : DbHandle := (value_of (bare_instance empty_node) (no_instance, no_handle)).2.

Lemma node_of_ok {A} (m : Nm A) n : safe m -> node_ok n -> node_ok (node_of (m n) n).
Proof.
  intros Hs Hn. specialize (Hs n Hn). unfold node_of. destruct (m n) as [[[n' r]|]|]; [|done..]. by destruct Hs as (? & _).
Qed.

Lemma safe_bare : safe bare_instance.
Proof.
  unfold bare_instance, generate_keypair, create_users_database, create_databases_tracking, users_db.
  safely; first [apply safe_create|apply safe_open_id].
Qed.

Lemma bare_node_ok : node_ok bare_node.
Proof. apply node_of_ok; [apply safe_bare|apply empty_node_ok]. Qed.

Notation alice_created := (create_user bare_inst bare_users "alice" (Some "secret")).

Definition alice_node : Node := node_of (alice_created bare_node) bare_node.

Lemma alice_node_ok : node_ok alice_node.
Proof. apply node_of_ok; [apply safe_create_user|apply bare_node_ok]. Qed.

(** Alice's account is created, she logs in with her password, and the directory
    lists the account as it was created. *)
Definition alice_checks (inst : Instance) (users : DbHandle) (n n1 : Node)
    (created : option (Outcome (Node * Result (string * UserInfo * PrivateKey) Error))) : bool :=
  match created, login_user inst users "alice" (Some "secret") n1, users_named users "alice" n1 with
  | Some (Done (_, Ok (uuid, info, sk))), Some (Done (_, Ok u)), Some (Done (_, Ok [(uuid', info')])) =>
      bool_decide (uuid = uuid') && bool_decide (info = info') && negb (is_nil (segments_of uuid))
      && match uc_password_salt (ui_credentials info) with
         | Some salt =>
             match derive_encryption_key "guess" salt, derive_encryption_key "secret" salt with
             | Ok k', Ok k => negb (bool_decide (k = k'))
             | _, _ => false
             end
         | None => false
         end
  | _, _, _ => false
  end.

Lemma alice_checked : alice_checks bare_inst bare_users bare_node alice_node (alice_created bare_node) = true.
Proof. vm_cast_no_check (eq_refl true). Qed.

Lemma alice_inv inst users n n1 created : alice_checks inst users n n1 created = true ->
  exists n' uuid info sk n2 n3 u salt k, created = Some (Done (n', Ok (uuid, info, sk)))
    /\ login_user inst users "alice" (Some "secret") n1 = Some (Done (n2, Ok u))
    /\ users_named users "alice" n1 = Some (Done (n3, Ok [(uuid, info)]))
    /\ uc_password_salt (ui_credentials info) = Some salt
    /\ derive_encryption_key "guess" salt = Ok k /\ derive_encryption_key "secret" salt <> Ok k
    /\ segments_of uuid <> [].
Proof.
  unfold alice_checks. destruct created as [[[n' [[[uuid info] sk]|]]|]|]; [|done..].
  destruct (login_user _ _ _ _ _) as [[[n2 [u|]]|]|]; [|done..].
  destruct (users_named _ _ _) as [[[n3 [[|[uuid' info'] []]|]]|]|]; try done.
  rewrite !andb_true_iff, !bool_decide_eq_true. intros [[[<- <-] Hid] H].
  destruct (uc_password_salt (ui_credentials info)) as [salt|] eqn:Es; [|done].
  destruct (derive_encryption_key "guess" salt) as [k'|] eqn:E1; [|done].
  destruct (derive_encryption_key "secret" salt) as [k|] eqn:E2; [|done]. apply negb_true_iff, bool_decide_eq_false in H.
  exists n', uuid, info, sk, n2, n3, u, salt, k'. repeat (split; [done|]). split; [congruence|]. by destruct (segments_of uuid).
Qed.



Lemma untag_other key key' nonce m c : length key = KEY_LENGTH -> length key' = KEY_LENGTH -> key' <> key ->
  aes_encrypt key nonce m = Some c -> aes_decrypt key' nonce c = None.
Proof.
  intros Hk Hk' Hne [= <-]. cbn [aes_decrypt plain_vault]. unfold untag, tagged. rewrite decide_False; [done|]. rewrite length_app, Hk', <- Hk. intros H.
  apply Hne. rewrite (assoc_L (++)), take_app_le in H by (rewrite length_app; lia).
  apply (f_equal (take KEY_LENGTH)) in H. rewrite take_take, Nat.min_l in H by lia.
  rewrite <- Hk' in H at 2. rewrite take_app_length in H. rewrite <- Hk, take_app_length in H. congruence.
Qed.

Lemma wrong_password_refused_witness : exists n2,
  login_user bare_inst bare_users "alice" (Some "guess") alice_node = Some (Done (n2, Err (EUser DecryptionFailed)))
  /\ login_user bare_inst bare_users "alice" None alice_node
     = Some (Done (n2, Err (EUser (PasswordRequired "login for password-protected user")))).
Proof.
  destruct (alice_inv _ _ _ _ _ alice_checked) as (n' & uuid & info & sk & _ & n3 & _ & salt & k & E & _ & El & Hsalt & Hk & Hne & _).
  exists n3.
  destruct (wrong_password_refused bare_inst bare_users "alice" "secret" "guess" bare_node n' uuid info sk bare_users "alice"
    alice_node n3 untag_other bare_node_ok E El) as [H1 H2].
  split; [exact (H2 k salt Hsalt Hk Hne)|exact H1].
Defined.
