(* ===== verification/Session.v ===== *)
(** * User sessions (user/session/mod.rs, user/session/builder.rs, user/admin.rs)

    What a logged-in user does: databases are created and opened with the keys of
    the session, keys are mapped to identities, databases are tracked and their
    sync switched on and off, and an instance admin manages accounts.  The session
    is a state that the operations change even where they fail.  A database is
    opened only with a key that is mapped to it; a key is tracked only under an
    identity that the database grants it; what is mapped is what is read back. *)

From S2P Require Import Prelude.
From S2P Require Import Path.
From S2P Require Import Position.
From S2P Require Import Ids.
From S2P Require Import Doc.
From S2P Require Import DocPath.
From S2P Require Import Errors.
From S2P Require Import Crypto.
From S2P Require Import Permission.
From S2P Require Import AuthTypes.
From S2P Require Import AuthSettings.
From S2P Require Import Entry.
From S2P Require Import Backend.
From S2P Require Import Traversal.
From S2P Require Import CrdtCache.
From S2P Require Import BackendSteps.
From S2P Require Import Reachability.
From S2P Require Import Validation.
From S2P Require Import Verify.
From S2P Require Import InstanceOps.
From S2P Require Import WireCodec.
From S2P Require Import Transaction.
From S2P Require Import Stores.
From S2P Require Import StoreView.
From S2P Require Import Commit.
From S2P Require Import TxFrame.
From S2P Require Import CommitSpec.
From S2P Require Import Lifecycle.
From S2P Require Import Settings.
From S2P Require Import Table.
From S2P Require Import Node.
From S2P Require Import Room.
From S2P Require Import Peers.
From S2P Require Import UserSync.
From S2P Require Import Bootstrap.
From S2P Require Import SyncHandler.
From S2P Require Import UserKeys.
From S2P Require Import UserDirectory.

Section session.
Context `{IS : InstanceSpec} `{JS : !JsonSpec} `{LS : !LruSpec CacheKey (list Byte.byte)} `{PJ : PeerJson} `{UJ : UserJson}.
Context `{NE : !NodeEnv} `{VS : !VaultSpec} `{UE : !UserEnv}.
Context `{RU : !RowCodec UserInfo} `{RK : !RowCodec UserKey} `{RL : !RowCodec Z}.
Context `{RT : !RowCodec TrackedDatabase} `{RQ : !RowCodec BootstrapRequest}.
Context (inst : Instance).

(** ** Computations that change the session

    The session stays changed when the computation fails. *)

Definition Um (A : Type) : Type := User -> Nm (User * Result A Error).

Definition um_ret {A} (a : A) : Um A := fun self => nm_ret (self, Ok a).

Definition um_fail {A} (e : Error) : Um A := fun self => nm_ret (self, Err e).

Definition um_bind {A B} (m : Um A) (k : A -> Um B) : Um B := fun self =>
  step (self, r) <- m self;
  match r with
  | Ok a => k a self
  | Err e => nm_ret (self, Err e)
  end.

(** A computation that reads the session only. *)
Definition um_node {A} (m : User -> Nm A) : Um A := fun self =>
  step r <- nm_try (m self);
  nm_ret (self, r).

Definition with_manager (self : User) (m : UserKeyManager) : User :=
  mkUser (u_uuid self) (u_username self) (u_database self) m (u_info self).

Definition um_add_key (metadata : UserKey) : Um unit := fun self =>
  match manager_add_key (u_key_manager self) metadata with
  | Ok m => nm_ret (with_manager self m, Ok tt)
  | Err e => nm_ret (self, Err e)
  end.
End session.

Notation "'sess' x <- m ; k" := (um_bind m (fun x => k))
  (at level 200, x pattern, m at level 100, k at level 200) : eidetica_scope.

Section operations.
Context `{IS : InstanceSpec} `{JS : !JsonSpec} `{LS : !LruSpec CacheKey (list Byte.byte)} `{PJ : PeerJson} `{UJ : UserJson}.
Context `{NE : !NodeEnv} `{VS : !VaultSpec} `{UE : !UserEnv}.
Context `{RU : !RowCodec UserInfo} `{RK : !RowCodec UserKey} `{RL : !RowCodec Z}.
Context `{RT : !RowCodec TrackedDatabase} `{RQ : !RowCodec BootstrapRequest}.
Context (inst : Instance).

Definition user_key_missing (key_id : PublicKey) : Error := EUser (UserKeyNotFound (PublicKey_to_string key_id)).

(** ** Instance admins *)

Definition default_signing_key (self : User) : Result PrivateKey Error :=
  match get_default_key_id keymap_order (u_key_manager self) with
  | None => Err (EUser (UserKeyNotFound "<default>"))
  | Some key_id =>
      match get_signing_key (u_key_manager self) key_id with
      | Some key => Ok key
      | None => Err (user_key_missing key_id)
      end
  end.

Definition admin_check (self : User) : Nm bool :=
  match get_default_key_id keymap_order (u_key_manager self) with
  | None => nm_fail (EUser (UserKeyNotFound "<default>"))
  | Some default_pubkey =>
      step signing_key <- nm_lift (default_signing_key self);
      step users_db <- users_db_for_session inst signing_key;
      step auth <- db_auth_settings set_order map_order raw_cid users_db;
      nm_ret (match get_key_by_pubkey auth default_pubkey with
              | Ok key => is_admin_permission (key_permissions key)
              | Err _ => false
              end)
  end.

Definition is_admin (self : User) : Nm bool := admin_check self.

(** The view of an admin is the session itself. *)
Definition admin (self : User) : Nm User :=
  step ok <- admin_check self;
  if ok then nm_ret self else nm_fail (EUser UserInsufficientPermissions).

Definition admin_create_user (self : User) (username : string) (password : option string) : Nm string :=
  step signing_key <- nm_lift (default_signing_key self);
  step users_db <- users_db_for_session inst signing_key;
  step (user_uuid, _, _) <- create_user inst users_db username password;
  nm_ret user_uuid.

Definition admin_list_users (self : User) : Nm (list string) :=
  step signing_key <- nm_lift (default_signing_key self);
  step users_db <- users_db_for_session inst signing_key;
  list_users users_db.

Definition admin_keyed_system_db (self : User) (root_id : ID) : Nm DbHandle :=
  step signing_key <- nm_lift (default_signing_key self);
  open_system_db_for_session root_id signing_key.

Definition grant_instance_admin (self : User) (new_admin : PublicKey) : Nm unit :=
  step users_db <- admin_keyed_system_db self (im_users_db (i_metadata inst));
  step databases_db <- admin_keyed_system_db self (im_databases_db (i_metadata inst));
  grant_admin_on_system_dbs users_db databases_db new_admin.

(** ** Keys and their identities *)

Definition User_get_signing_key (self : User) (key_id : PublicKey) : Result PrivateKey Error :=
  match get_signing_key (u_key_manager self) key_id with
  | Some key => Ok key
  | None => Err (user_key_missing key_id)
  end.

Definition list_keys (self : User) : list PublicKey := list_key_ids keymap_order (u_key_manager self).

Definition get_default_key (self : User) : Result PublicKey Error :=
  match get_default_key_id keymap_order (u_key_manager self) with
  | Some k => Ok k
  | None => Err (EInstance InstanceAuthenticationRequired)
  end.

Definition key_display_name (self : User) (key_id : PublicKey) : option string :=
  metadata ← get_key_metadata (u_key_manager self) key_id; uk_display_name metadata.

Definition find_keys_by_display_name (self : User) (name : string) : list PublicKey :=
  filter (fun key_id => key_display_name self key_id = Some name) (list_keys self).

Definition is_mapped (self : User) (database_id : ID) (key_id : PublicKey) : bool :=
  match get_key_metadata (u_key_manager self) key_id with
  | Some metadata => bool_decide (is_Some (uk_database_sigkeys metadata !! database_id))
  | None => false
  end.

Definition find_key (self : User) (database_id : ID) : option PublicKey :=
  find (is_mapped self database_id) (list_keys self).

Definition key_mapping (self : User) (key_id : PublicKey) (database_id : ID) : Result (option SigKey) Error :=
  match get_key_metadata (u_key_manager self) key_id with
  | None => Err (user_key_missing key_id)
  | Some metadata =>
      match uk_database_sigkeys metadata !! database_id with
      | None => Ok None
      | Some None => Ok (Some (SigKey_from_pubkey key_id))
      | Some (Some sigkey) => Ok (Some sigkey)
      end
  end.

(** The row of a key in the table [keys]. *)
Definition find_key_row (db : DbHandle) (key_id : PublicKey) : Tx (string * UserKey) :=
  do rows <- Table_search set_order raw_cid (db_root db) doc_order "keys" (fun uk => bool_decide (uk_key_id uk = key_id));
  tx_lift (match rows with
           | row :: _ => Ok row
           | [] => Err (user_key_missing key_id)
           end).

(** The identity as it is stored. *)
Definition stored_sigkey (key_id : PublicKey) (sigkey : SigKey) : option SigKey :=
  if decide (sigkey = SigKey_from_pubkey key_id) then None else Some sigkey.

(** The row of the key with a further mapping, staged in the transaction. *)
Definition map_row (db : DbHandle) (key_id : PublicKey) (database_id : ID) (stored : option SigKey) : Tx UserKey :=
  do (uuid_primary_key, metadata) <- find_key_row db key_id;
  let metadata := with_sigkeys metadata (<[database_id := stored]> (uk_database_sigkeys metadata)) in
  do _ <- Table_set (db_root db) "keys" uuid_primary_key metadata;
  tx_ret metadata.

Definition map_key_in_txn (tx : TxState) (key_id : PublicKey) (database_id : ID) (sigkey : SigKey) : Um TxState :=
  sess (tx, metadata) <- um_node (fun self =>
    in_tx tx (do _ <- open_table (u_database self) "keys";
              map_row (u_database self) key_id database_id (stored_sigkey key_id sigkey)));
  sess _ <- um_add_key metadata;
  um_ret tx.

Definition user_commit (tx : TxState) : Um ID := um_node (fun self =>
  db_commit set_order map_order key_order raw_cid read_strategy clock_millis (u_database self) tx).

Definition user_transaction : Um TxState := um_node (fun self => db_new_transaction map_order (u_database self)).

Definition map_key (key_id : PublicKey) (database_id : ID) (sigkey : SigKey) : Um unit :=
  sess tx <- user_transaction;
  sess tx <- map_key_in_txn tx key_id database_id sigkey;
  sess _ <- user_commit tx;
  um_ret tt.

Definition validate_and_map_key_in_txn (tx : TxState) (database_id : ID) (key_id : PublicKey) : Um TxState :=
  sess _ <- um_node (fun self => nm_lift (User_get_signing_key self key_id));
  sess available_sigkeys <- um_node (fun _ => find_sigkeys set_order map_order raw_cid database_id key_id);
  match available_sigkeys with
  | [] => um_fail (EUser (NoSigKeyFound (PublicKey_to_string key_id) database_id))
  | (sigkey, _) :: _ => map_key_in_txn tx key_id database_id sigkey
  end.

(** What is stored of a new key. *)
Definition seal_new_key (private_key : PrivateKey) (encryption_key : option Bytes) : Nm KeyStorage :=
  match encryption_key with
  | Some encryption_key =>
      step t <- tick;
      step (ciphertext, nonce) <- nm_lift (encrypt_private_key (fresh_nonce t) private_key encryption_key);
      nm_ret (Encrypted AES_256_GCM ciphertext nonce)
  | None => nm_ret (Unencrypted private_key)
  end.

Definition add_private_key (display_name : option string) : Um PublicKey :=
  sess user_key <- um_node (fun self =>
    step private_key <- generate_keypair;
    step t <- tick;
    step storage <- seal_new_key private_key (encryption_key (u_key_manager self));
    nm_ret (mkUserKey (public_key private_key) storage display_name (clock_secs t) None false ∅));
  sess _ <- um_node (fun self =>
    step t <- tick;
    update (u_database self) (do _ <- open_table (u_database self) "keys";
                              Table_insert (db_root (u_database self)) (fresh_uuid t) "keys" user_key));
  sess _ <- um_add_key user_key;
  um_ret (uk_key_id user_key).

(** ** Tracked databases *)

(** Tell the sync system of a changed preference. *)
Definition propagate (self : User) : Nm unit :=
  match i_sync inst with
  | None => nm_ret tt
  | Some sync_tree =>
      step device_key <- nm_lift (instance_signing_key inst);
      sync_user sync_tree device_key (u_uuid self) (db_root (u_database self))
  end.

Definition tracked_row (db : DbHandle) (database_id : ID) : Tx TrackedDatabase :=
  Table_get set_order raw_cid (db_root db) "databases" (ID_to_string database_id).

Definition set_tracked (db : DbHandle) (tracked : TrackedDatabase) : Tx unit :=
  Table_set (db_root db) "databases" (ID_to_string (td_database_id tracked)) tracked.

Definition track_database (database_id : ID) (key_id : PublicKey) (sync_settings : SyncSettings) : Um unit :=
  let tracked := mkTrackedDatabase database_id key_id sync_settings in
  sess tx <- user_transaction;
  sess (tx, existing) <- um_node (fun self =>
    in_tx tx (do _ <- open_table (u_database self) "databases"; tx_try (tracked_row (u_database self) database_id)));
  let needs_key_validation := match existing with
                              | Ok existing => negb (bool_decide (td_key_id existing = key_id))
                              | Err _ => true
                              end in
  sess tx <- (if needs_key_validation then validate_and_map_key_in_txn tx database_id key_id else um_ret tx);
  sess (tx, _) <- um_node (fun self => in_tx tx (set_tracked (u_database self) tracked));
  sess _ <- user_commit tx;
  um_node propagate.

Definition databases (self : User) : Nm (list TrackedDatabase) :=
  step rows <- search_table (T := TrackedDatabase) (u_database self) "databases" (fun _ => true);
  nm_ret rows.*2.

Definition database (self : User) (database_id : ID) : Nm TrackedDatabase :=
  step r <- view (u_database self) (tx_try (tracked_row (u_database self) database_id));
  match r with
  | Ok tracked => nm_ret tracked
  | Err _ => nm_fail (EUser (DatabaseNotTracked database_id))
  end.

Definition is_sync_enabled (self : User) (database_id : ID) : Nm bool :=
  step r <- view (u_database self) (tx_try (tracked_row (u_database self) database_id));
  nm_ret (match r with Ok tracked => sync_enabled (td_sync_settings tracked) | Err _ => false end).

Definition with_enabled (t : TrackedDatabase) (enabled : bool) : TrackedDatabase :=
  let s := td_sync_settings t in
  mkTrackedDatabase (td_database_id t) (td_key_id t)
    (mkSyncSettings enabled (sync_on_commit s) (interval_seconds s) (properties s)).

Definition set_sync_enabled (self : User) (database_id : ID) (enabled : bool) : Nm unit :=
  let db := u_database self in
  step tx <- db_new_transaction map_order db;
  step (tx, r) <- in_tx tx (do _ <- open_table db "databases"; tx_try (tracked_row db database_id));
  match r with
  | Err _ => nm_fail (EUser (DatabaseNotTracked database_id))
  | Ok tracked =>
      if Bool.eqb (sync_enabled (td_sync_settings tracked)) enabled then nm_ret tt
      else
        step (tx, _) <- in_tx tx (Table_set (db_root db) "databases" (ID_to_string database_id) (with_enabled tracked enabled));
        step _ <- db_commit set_order map_order key_order raw_cid read_strategy clock_millis db tx;
        propagate self
  end.

Definition User_enable_sync (self : User) (database_id : ID) : Nm unit := set_sync_enabled self database_id true.

Definition User_disable_sync (self : User) (database_id : ID) : Nm unit := set_sync_enabled self database_id false.

Definition untrack_database (self : User) (database_id : ID) : Nm unit :=
  let db := u_database self in
  update db
    (do _ <- open_table db "databases";
     do r <- tx_try (tracked_row db database_id);
     if negb (is_ok r) then tx_lift (Err (EUser (DatabaseNotTracked database_id)))
     else do _ <- Table_delete (T := TrackedDatabase) set_order raw_cid (db_root db) "databases" (ID_to_string database_id);
          tx_ret tt).

(** ** Creating and opening databases *)

(** The mapping of a new database, and its row among the tracked ones. *)
Definition track_created (db : DbHandle) (key_id : PublicKey) (root_id : ID) : Tx UserKey :=
  do _ <- open_table db "keys";
  do metadata <- map_row db key_id root_id None;
  do _ <- open_table db "databases";
  do _ <- Table_set (db_root db) "databases" (ID_to_string root_id)
            (mkTrackedDatabase root_id key_id SyncSettings_disabled);
  tx_ret metadata.

Definition create_database_with_init (settings : Doc) (key_id : PublicKey) (init : ID -> Tx unit) : Um DbHandle :=
  sess signing_key <- um_node (fun self => nm_lift (User_get_signing_key self key_id));
  sess database <- um_node (fun _ => database_create_with signing_key settings init);
  sess metadata <- um_node (fun self =>
    update (u_database self) (track_created (u_database self) key_id (db_root database)));
  sess _ <- um_add_key metadata;
  um_ret database.

Definition create_database (settings : Doc) (key_id : PublicKey) : Um DbHandle :=
  create_database_with_init settings key_id (fun _ => tx_ret tt).

(** On an instance that is not connected to a service. *)
Definition open_database_with_key (self : User) (root_id : ID) (key_id : PublicKey) : Nm DbHandle :=
  step signing_key <- nm_lift (User_get_signing_key self key_id);
  step mapping <- nm_lift (key_mapping self key_id root_id);
  match mapping with
  | None => nm_fail (EUser (NoSigKeyMapping (PublicKey_to_string key_id) root_id))
  | Some sigkey =>
      step r <- nm_try (db_open root_id);
      match r with
      | Ok database => nm_ret (db_with_key database (DatabaseKey_with_identity signing_key sigkey))
      | Err e => if Error_is_not_found e then nm_fail (EUser (DatabaseAccessPending root_id)) else nm_fail e
      end
  end.

Definition User_open_database (self : User) (root_id : ID) : Nm DbHandle :=
  match find_key self root_id with
  | None => nm_fail (EUser (NoKeyForDatabase root_id))
  | Some key_id => open_database_with_key self root_id key_id
  end.

(** The tracked databases that can be opened and have the name. *)
Fixpoint matching (self : User) (name : string) (tracked : list TrackedDatabase) : Nm (list DbHandle) :=
  match tracked with
  | [] => nm_ret []
  | tracked_db :: rest =>
      step found <- nm_try (step database <- User_open_database self (td_database_id tracked_db);
                            step db_name <- view database (get_name set_order raw_cid (db_root database));
                            nm_ret (database, db_name));
      step others <- matching self name rest;
      nm_ret (match found with
              | Ok (database, db_name) => if decide (db_name = name) then database :: others else others
              | Err _ => others
              end)
  end.

Definition find_database (self : User) (name : string) : Nm (list DbHandle) :=
  step tracked <- databases self;
  step found <- matching self name tracked;
  if is_nil found then nm_fail (EUser (DatabaseNotFoundByName name)) else nm_ret found.

(** ** Requests for access *)

Definition User_pending_bootstrap_requests (sync_tree : DbHandle) : Nm (list (string * BootstrapRequest)) :=
  pending_bootstrap_requests sync_tree.

Definition approve_bootstrap_request (self : User) (sync_tree : DbHandle) (request_id : string)
    (approving_key_id : PublicKey) : Nm unit :=
  step signing_key <- nm_lift (User_get_signing_key self approving_key_id);
  approve_bootstrap_request_with_key sync_tree request_id (DatabaseKey_new signing_key).

Definition reject_bootstrap_request (self : User) (sync_tree : DbHandle) (request_id : string)
    (rejecting_key_id : PublicKey) : Nm unit :=
  step signing_key <- nm_lift (User_get_signing_key self rejecting_key_id);
  reject_bootstrap_request_with_key sync_tree request_id (DatabaseKey_new signing_key).

(** [bootstrap_result] is what the request over the network came to. *)
Definition record_database_access (database_id : ID) (key_id : PublicKey) (bootstrap_result : Result unit Error) : Um unit :=
  match bootstrap_result with
  | Ok _ =>
      sess r <- um_node (fun self => nm_try (database self database_id));
      let sync_settings := match r with Ok tracked => td_sync_settings tracked | Err _ => SyncSettings_disabled end in
      track_database database_id key_id sync_settings
  | Err e =>
      sess _ <- match e with
                | ESync (BootstrapPending _) => map_key key_id database_id (SigKey_from_pubkey key_id)
                | _ => um_ret tt
                end;
      um_fail e
  end.

(** ** The builder *)

Inductive KeyPolicy : Type :=
| AutoGenerate (label : option string)
| UseExisting (key : PublicKey).

(** An initializer of a store, in the transaction of the new database's root. *)
Definition StoreInit : Type := ID -> Tx unit.

Record DatabaseBuilder : Type := mkDatabaseBuilder {
  b_settings : Doc;
  b_key_policy : KeyPolicy;
  b_store_inits : list (string * StoreInit);
}.

Definition DatabaseBuilder_new : DatabaseBuilder := mkDatabaseBuilder Doc_new (AutoGenerate None) [].

Definition builder_name (b : DatabaseBuilder) (name : string) : DatabaseBuilder :=
  mkDatabaseBuilder (Doc_set (b_settings b) "name" (Text name)).1 (b_key_policy b) (b_store_inits b).

Definition builder_settings (b : DatabaseBuilder) (settings : Doc) : DatabaseBuilder :=
  mkDatabaseBuilder settings (b_key_policy b) (b_store_inits b).

Definition builder_key_label (b : DatabaseBuilder) (label : string) : DatabaseBuilder :=
  mkDatabaseBuilder (b_settings b) (AutoGenerate (Some label)) (b_store_inits b).

Definition builder_with_key (b : DatabaseBuilder) (key : PublicKey) : DatabaseBuilder :=
  mkDatabaseBuilder (b_settings b) (UseExisting key) (b_store_inits b).

(** A store of type [T], opened under its name and then initialized. *)
Definition initialize_store (b : DatabaseBuilder) (T : StoreType) (name : string) (init : StoreInit) : DatabaseBuilder :=
  mkDatabaseBuilder (b_settings b) (b_key_policy b)
    (b_store_inits b ++ [(name, fun root =>
       do _ <- get_store set_order raw_cid root read_strategy T name;
       init root)]).

(** The first name that is there twice, in the order of the loop. *)
Fixpoint duplicate_name (seen : gset string) (names : list string) : option string :=
  match names with
  | [] => None
  | name :: rest => if decide (name ∈ seen) then Some name else duplicate_name ({[name]} ∪ seen) rest
  end.

Fixpoint run_inits (inits : list (string * StoreInit)) (root : ID) : Tx unit :=
  match inits with
  | [] => tx_ret tt
  | (_, init) :: rest => do _ <- init root; run_inits rest root
  end.

Definition builder_build (b : DatabaseBuilder) : Um (DbHandle * PublicKey) :=
  match duplicate_name ∅ (b_store_inits b).*1 with
  | Some name => um_fail (EUser (DuplicateBuilderStore name))
  | None =>
      sess key_id <- match b_key_policy b with
                     | AutoGenerate label => add_private_key label
                     | UseExisting k => um_ret k
                     end;
      sess database <- create_database_with_init (b_settings b) key_id (run_inits (b_store_inits b));
      um_ret (database, key_id)
  end.
End operations.

(** ** What every operation of a session keeps *)

Section session_logic.
Context `{IS : InstanceSpec} `{JS : !JsonSpec} `{LS : !LruSpec CacheKey (list Byte.byte)} `{PJ : PeerJson} `{UJ : UserJson}.
Context `{NE : !NodeEnv} `{VS : !VaultSpec} `{UE : !UserEnv}.

(** The session is that of the same account, and has lost no key. *)
Record session_grows (u u' : User) : Prop := {
  sg_uuid : u_uuid u' = u_uuid u;
  sg_username : u_username u' = u_username u;
  sg_database : u_database u' = u_database u;
  sg_info : u_info u' = u_info u;
  sg_cipher : encryption_key (u_key_manager u') = encryption_key (u_key_manager u);
  sg_manager : manager_ok (u_key_manager u) -> manager_ok (u_key_manager u');
  sg_keys k : is_Some (get_signing_key (u_key_manager u) k) -> is_Some (get_signing_key (u_key_manager u') k);
}.

#[export] Instance session_grows_preorder : PreOrder session_grows.
Proof.
  split; [by intros u; split|]. intros u v w [] []. split; [congruence..|naive_solver|naive_solver].
Qed.

(** [m] ends, keeps what is stored and the session, does not panic where there is
    room for [k] levels, and its value satisfies [Q]. *)
Definition usafe {A} (k : Z) (m : Um A) (Q : A -> Prop) : Prop := forall u, manager_ok (u_key_manager u) ->
  sound clock_millis k (m u) (fun p => session_grows u p.1 /\ forall a, p.2 = Ok a -> Q a).

Lemma usafe_ret {A} (a : A) (Q : A -> Prop) : Q a -> usafe 0 (um_ret a) Q.
Proof. intros HQ u Hu. apply sound_ret. split; [done|]. by intros ? [= <-]. Qed.

Lemma usafe_fail {A} e (Q : A -> Prop) : usafe 0 (um_fail e) Q.
Proof. intros u Hu. by apply sound_ret. Qed.

Lemma usafe_mono {A} k k' (m : Um A) Q : usafe k m Q -> k <= k' -> usafe k' m Q.
Proof. intros Hm Hk u Hu. by eapply sound_mono; [apply Hm|..]. Qed.

Lemma usafe_bind {A B} k1 k2 (m : Um A) (k : A -> Um B) Q1 Q :
  0 <= k2 -> usafe k1 m Q1 -> (forall a, Q1 a -> usafe k2 (k a) Q) -> usafe (k1 + k2) (um_bind m k) Q.
Proof.
  intros H2 Hm Hk u Hu. unfold um_bind. eapply sound_bind; [done|by apply Hm|]. intros [u1 r] [Hg HQ]. cbn [fst snd] in *.
  destruct r as [a|e]; [|eapply (sound_mono _ 0); [apply (sound_ret _ _ (fun p => p = (u1, Err e))); done|done|by intros ? ->]].
  eapply sound_mono; [apply (Hk a (HQ a eq_refl)); by apply (sg_manager _ _ Hg)|done|].
  intros [u2 r2] [Hg2 HQ2]. split; [by etrans|done].
Qed.

(** A step that commits nothing. *)
Lemma usafe_then {A B} k2 (m : Um A) (k : A -> Um B) Q1 Q :
  0 <= k2 -> usafe 0 m Q1 -> (forall a, Q1 a -> usafe k2 (k a) Q) -> usafe k2 (um_bind m k) Q.
Proof. intros H2 Hm Hk. rewrite <- (Z.add_0_l k2). by eapply usafe_bind. Qed.

Lemma usafe_node {A} k (m : User -> Nm A) (Q : A -> Prop) :
  (forall u, sound clock_millis k (m u) Q) -> usafe k (um_node m) Q.
Proof.
  intros Hm u Hu. unfold um_node. rewrite <- (Z.add_0_r k).
  eapply sound_bind; [done|apply sound_try, Hm|]. intros r HQ. by apply sound_ret.
Qed.

Lemma usafe_quiet {A} (m : User -> Nm A) (Q : A -> Prop) : (forall u, nquiet (m u) Q) -> usafe 0 (um_node m) Q.
Proof. intros Hm. apply usafe_node. intros u. apply sound_quiet, Hm. Qed.

Lemma add_key_grows u metadata m :
  manager_add_key (u_key_manager u) metadata = Ok m -> session_grows u (with_manager u m).
Proof.
  intros E. destruct (add_key_inv _ _ _ E) as (sk & _ & He & Hg & _). split; try done.
  - intros Hu. by eapply add_key_ok.
  - intros k Hk. cbn. rewrite Hg. by destruct (decide _).
Qed.

Lemma usafe_add_key metadata : usafe 0 (um_add_key metadata) (fun _ => True).
Proof.
  intros u Hu. unfold um_add_key. destruct (manager_add_key _ metadata) as [m|e] eqn:E; apply sound_ret; [|done].
  split; [by eapply add_key_grows|done].
Qed.
End session_logic.

Section session_safe.
Context `{IS : InstanceSpec} `{JS : !JsonSpec} `{LS : !LruSpec CacheKey (list Byte.byte)} `{PJ : PeerJson} `{UJ : UserJson}.
Context `{NE : !NodeEnv} `{VS : !VaultSpec} `{UE : !UserEnv}.
Context `{RU : !RowCodec UserInfo} `{RK : !RowCodec UserKey} `{RL : !RowCodec Z}.
Context `{RT : !RowCodec TrackedDatabase} `{RQ : !RowCodec BootstrapRequest}.
Context (inst : Instance).

Lemma staging_find_row db key : staging (find_key_row db key).
Proof. unfold find_key_row. stages. Qed.

Lemma staging_map_row db key id st : staging (map_row db key id st).
Proof. apply staging_bind; [apply staging_find_row|]. intros [uuid metadata]. cbn zeta. stages; eauto with staging. Qed.

Lemma staging_tracked_row db id : staging (tracked_row db id).
Proof. apply staging_table_get, set_order_ok. Qed.

Lemma staging_track_created db key id : staging (track_created db key id).
Proof.
  unfold track_created. apply staging_bind; [apply staging_open_table|]. intros _.
  apply staging_bind; [apply staging_map_row|]. intros m. stages; eauto with staging.
Qed.
Hint Resolve staging_find_row staging_map_row staging_tracked_row staging_track_created : staging.

Lemma usafe_transaction : usafe 0 user_transaction uncommitted.
Proof. apply usafe_quiet. intros u. apply nquiet_new_transaction, map_order_ok. Qed.

Lemma usafe_commit tx : uncommitted tx -> usafe 1 (user_commit tx) (fun _ => True).
Proof. intros Ht. apply usafe_node. intros u. by apply sound_commit; [apply set_order_ok|apply map_order_ok|]. Qed.

Lemma usafe_in_tx {A} tx (m : User -> Tx A) : uncommitted tx -> (forall u, staging (m u)) ->
  usafe 0 (um_node (fun u => in_tx tx (m u))) (fun p => uncommitted p.1).
Proof. intros Ht Hm. apply usafe_quiet. intros u. by apply nquiet_staged. Qed.

Lemma usafe_lift {A} (r : User -> Result A Error) : usafe 0 (um_node (fun u => nm_lift (r u))) (fun _ => True).
Proof. apply usafe_quiet. intros u. by apply nquiet_lift. Qed.

Lemma usafe_map_in_txn tx key id sk : uncommitted tx -> usafe 0 (map_key_in_txn tx key id sk) uncommitted.
Proof.
  intros Ht. unfold map_key_in_txn. eapply usafe_then; [done|apply usafe_in_tx; [done|]|].
  { intros u. apply staging_bind; [apply staging_open_table|]. intros _. apply staging_map_row. }
  intros [t m] Ht1. eapply usafe_then; [done|apply usafe_add_key|]. intros _ _. by apply usafe_ret.
Qed.

Lemma usafe_map_key key id sk : usafe 1 (map_key key id sk) (fun _ => True).
Proof.
  eapply usafe_then; [done|apply usafe_transaction|]. intros tx Ht. eapply usafe_then; [done|by apply usafe_map_in_txn|].
  intros tx1 Ht1. change 1 with (1 + 0). eapply usafe_bind; [done|by apply usafe_commit|]. intros _ _. by apply usafe_ret.
Qed.

Lemma usafe_validate tx id key : uncommitted tx -> usafe 0 (validate_and_map_key_in_txn tx id key) uncommitted.
Proof.
  intros Ht. eapply usafe_then; [done|apply usafe_lift|]. intros _ _. eapply usafe_then; [done| |].
  { apply usafe_quiet. intros u. apply nquiet_find_sigkeys; [apply set_order_ok|apply map_order_ok]. }
  intros [|[sk p] l] _; [apply usafe_fail|by apply usafe_map_in_txn].
Qed.

Lemma sound_propagate u : sound clock_millis 1 (propagate inst u) (fun _ => True).
Proof.
  unfold propagate. destruct (i_sync inst); [|by eapply (sound_mono _ 0); [apply (sound_ret _ _ (fun _ => True))|..]].
  eapply (sound_read _ _ _ _ (fun _ => True)); [done|by apply nquiet_lift|]. intros k _. apply sound_sync_user.
Qed.

Lemma usafe_track id key s : usafe 2 (track_database inst id key s) (fun _ => True).
Proof.
  eapply usafe_then; [done|apply usafe_transaction|]. intros tx Ht. eapply usafe_then; [done|apply usafe_in_tx; [done|]|].
  { intros u. apply staging_bind; [apply staging_open_table|]. intros _. apply staging_try, staging_tracked_row. }
  intros [t1 existing] Ht1. cbn zeta. eapply (usafe_then _ _ _ uncommitted); [done| |].
  { destruct (match existing with Ok _ => _ | Err _ => _ end); [by apply usafe_validate|by apply usafe_ret]. }
  intros t2 Ht2. eapply usafe_then; [done|apply usafe_in_tx; [done|]|].
  { intros u. apply staging_table_set. }
  intros [t3 []] Ht3. change 2 with (1 + 1). eapply usafe_bind; [done|by apply usafe_commit|]. intros _ _.
  apply usafe_node. intros u. apply sound_propagate.
Qed.

Lemma nquiet_seal_new sk ek : nquiet (seal_new_key sk ek) (fun _ => True).
Proof.
  unfold seal_new_key. destruct ek as [ek|]; [|by apply nquiet_ret]. eapply nquiet_bind; [apply nquiet_tick|]. intros t _.
  eapply (nquiet_bind _ _ (fun _ => True)); [by apply nquiet_lift|]. intros [ct nonce] _. by apply nquiet_ret.
Qed.

Lemma sound_update {A} db (m : Tx A) : staging m -> sound clock_millis 1 (update db m) (fun _ => True).
Proof. intros Hm. apply sound_with_transaction; [apply set_order_ok|apply map_order_ok|by apply calm_staging]. Qed.

Lemma usafe_add_private name : usafe 1 (add_private_key name) (fun _ => True).
Proof.
  eapply (usafe_then _ _ _ (fun _ => True)); [done|apply usafe_quiet|].
  { intros u. unfold generate_keypair. eapply (nquiet_bind _ _ (fun _ => True)).
    { eapply nquiet_bind; [apply nquiet_tick|]. intros t _. by apply nquiet_ret. }
    intros sk _. eapply nquiet_bind; [apply nquiet_tick|]. intros t _.
    eapply nquiet_bind; [apply nquiet_seal_new|]. intros st _. by apply nquiet_ret. }
  intros uk _. change 1 with (1 + 0). eapply usafe_bind; [done|apply usafe_node|].
  { intros u. eapply sound_read; [done|apply nquiet_tick|]. intros t _. apply sound_update. stages; eauto with staging. }
  intros _ _. eapply usafe_then; [done|apply usafe_add_key|]. intros _ _. by apply usafe_ret.
Qed.

Lemma sound_create_with sk settings init : (forall root, staging (init root)) ->
  sound clock_millis 1 (database_create_with sk settings init) (fun _ => True).
Proof.
  intros Hi. unfold database_create_with. eapply sound_read; [done|apply nquiet_tick|]. intros t _.
  eapply sound_read; [done|apply nquiet_tick|]. intros t' _.
  eapply sound_mono; [apply sound_create; [apply set_order_ok|apply map_order_ok|]|done|done].
  intros root. by apply calm_staging.
Qed.

Lemma usafe_create settings key init : (forall root, staging (init root)) ->
  usafe 2 (create_database_with_init settings key init) (fun _ => True).
Proof.
  intros Hi. eapply usafe_then; [done|apply usafe_lift|]. intros sk _. change 2 with (1 + 1). eapply usafe_bind; [done| |].
  { apply usafe_node. intros u. by apply sound_create_with. }
  intros db _. change 1 with (1 + 0). eapply usafe_bind; [done|apply usafe_node|].
  { intros u. apply sound_update, staging_track_created. }
  intros m _. eapply usafe_then; [done|apply usafe_add_key|]. intros _ _. by apply usafe_ret.
Qed.

Lemma nquiet_database u id : nquiet (database u id) (fun _ => True).
Proof.
  unfold database. eapply nquiet_bind.
  { apply nquiet_view; [apply map_order_ok|]. apply calm_staging, staging_try, staging_tracked_row. }
  intros [] _; [by apply nquiet_ret|by apply nquiet_lift].
Qed.

Lemma usafe_record id key r : usafe 2 (record_database_access inst id key r) (fun _ => True).
Proof.
  destruct r as [[]|e]; simpl.
  - eapply usafe_then; [done|apply usafe_quiet; intros u; apply nquiet_try, nquiet_database|]. intros r _. apply usafe_track.
  - apply (usafe_mono 1); [|done]. change 1 with (1 + 0).
    eapply (usafe_bind _ _ _ _ (fun _ => True)); [done| |intros _ _; apply usafe_fail].
    repeat case_match; try apply usafe_map_key; (eapply (usafe_mono 0); [by apply usafe_ret|done]).
Qed.

Lemma usafe_build b : Forall (fun i => forall root, staging (i.2 root)) (b_store_inits b) ->
  usafe 3 (builder_build b) (fun _ => True).
Proof.
  intros Hb. unfold builder_build. destruct (duplicate_name _ _); [by eapply (usafe_mono 0); [apply usafe_fail|]|].
  change 3 with (1 + 2). eapply (usafe_bind _ _ _ _ (fun _ => True)); [done| |].
  { destruct (b_key_policy b); [apply usafe_add_private|]. by eapply (usafe_mono 0); [apply usafe_ret|]. }
  intros key _. change 2 with (2 + 0). eapply usafe_bind; [done|apply usafe_create|intros db _; by apply usafe_ret].
  intros root. induction Hb as [|[name init] l Hi _ IH]; simpl; [apply staging_ret|].
  apply staging_bind; [apply Hi|]. intros _. apply IH.
Qed.
End session_safe.

(** ** The life of a session *)

Section session_life.
Context `{IS : InstanceSpec} `{JS : !JsonSpec} `{LS : !LruSpec CacheKey (list Byte.byte)} `{PJ : PeerJson} `{UJ : UserJson}.
Context `{NE : !NodeEnv} `{VS : !VaultSpec} `{UE : !UserEnv}.
Context `{RU : !RowCodec UserInfo} `{RK : !RowCodec UserKey} `{RL : !RowCodec Z}.
Context `{RT : !RowCodec TrackedDatabase} `{RQ : !RowCodec BootstrapRequest}.
Context (inst : Instance).

Lemma staging_table_delete {T} `{!RowCodec T} root name key : staging (Table_delete (T := T) set_order raw_cid root name key).
Proof.
  unfold Table_delete. apply staging_bind; [apply staging_try, staging_table_get, set_order_ok|]. intros r.
  destruct (negb _); [apply staging_ret|]. unfold stage. stages.
Qed.

Lemma sound_set_enabled u id b : sound clock_millis 2 (set_sync_enabled inst u id b) (fun _ => True).
Proof.
  assert (forall (m : Nm unit), nquiet m (fun _ => True) -> sound clock_millis 2 m (fun _ => True)) as Hquiet.
  { intros m Hm. by eapply (sound_mono _ 0); [by apply sound_quiet|..]. }
  unfold set_sync_enabled. cbn zeta. eapply sound_read; [done|apply nquiet_new_transaction, map_order_ok|]. intros t Ht.
  eapply sound_read; [done|apply nquiet_staged; [done|]|].
  { apply staging_bind; [apply staging_open_table|]. intros _. apply staging_try, staging_tracked_row. }
  intros [t1 r] Ht1. destruct r as [tracked|e]; [|by apply Hquiet, nquiet_lift].
  destruct (Bool.eqb _ _); [by apply Hquiet, nquiet_ret|].
  eapply sound_read; [done|apply nquiet_staged; [done|apply staging_table_set]|]. intros [t2 []] Ht2. change 2 with (1 + 1).
  eapply sound_bind; [done|by apply sound_commit; [apply set_order_ok|apply map_order_ok|]|]. intros ? _. apply sound_propagate.
Qed.

Lemma sound_untrack u id : sound clock_millis 1 (untrack_database u id) (fun _ => True).
Proof.
  apply sound_update. apply staging_bind; [apply staging_open_table|]. intros _.
  apply staging_bind; [apply staging_try, staging_tracked_row|]. intros r. destruct (negb _); [apply staging_lift|].
  apply staging_bind; [apply staging_table_delete|]. intros _. apply staging_ret.
Qed.

Lemma nquiet_open_mapped u id key : nquiet (open_database_with_key u id key) (fun _ => True).
Proof.
  unfold open_database_with_key. eapply (nquiet_bind _ _ (fun _ => True)); [by apply nquiet_lift|]. intros sk _.
  eapply (nquiet_bind _ _ (fun _ => True)); [by apply nquiet_lift|]. intros [sigkey|] _; [|by apply nquiet_lift].
  eapply nquiet_bind; [apply nquiet_try, nquiet_open|].
  intros [db|e] _; [by apply nquiet_ret|]. destruct (Error_is_not_found e); by apply nquiet_lift.
Qed.

Lemma nquiet_open_database u id : nquiet (User_open_database u id) (fun _ => True).
Proof. unfold User_open_database. destruct (find_key u id); [apply nquiet_open_mapped|by apply nquiet_lift]. Qed.

(** The operations that a session offers on databases and keys. *)
Inductive session_op : forall A : Type, Um A -> Prop :=
| OpMapKey key id sigkey : session_op unit (map_key key id sigkey)
| OpAddKey name : session_op PublicKey (add_private_key name)
| OpCreate settings key : session_op DbHandle (create_database settings key)
| OpBuild b : Forall (fun i => forall root, staging (i.2 root)) (b_store_inits b) -> session_op _ (builder_build b)
| OpTrack id key s : session_op unit (track_database inst id key s)
| OpRecord id key r : session_op unit (record_database_access inst id key r)
| OpSetSync id b : session_op unit (um_node (fun u => set_sync_enabled inst u id b))
| OpUntrack id : session_op unit (um_node (fun u => untrack_database u id))
| OpOpen id : session_op DbHandle (um_node (fun u => User_open_database u id)).

Lemma session_op_safe A (m : Um A) : session_op A m -> usafe 3 m (fun _ => True).
Proof.
  destruct 1.
  - by eapply usafe_mono; [apply usafe_map_key|].
  - by eapply usafe_mono; [apply usafe_add_private|].
  - eapply usafe_mono; [apply usafe_create; intros; apply staging_ret|done].
  - by apply usafe_build.
  - by eapply usafe_mono; [apply usafe_track|].
  - by eapply usafe_mono; [apply usafe_record|].
  - eapply (usafe_mono 2); [apply usafe_node; intros u; apply sound_set_enabled|done].
  - eapply (usafe_mono 1); [apply usafe_node; intros u; apply sound_untrack|done].
  - eapply (usafe_mono 0); [apply usafe_quiet; intros u; apply nquiet_open_database|done].
Qed.

(** One operation, whether it succeeds or not. *)
Inductive session_step : Node * User -> Node * User -> Prop :=
| SessionStep A (m : Um A) n u n' u' r :
    session_op A m -> m u n = Some (Done (n', Ok (u', r))) -> session_step (n, u) (n', u').

(** C17: Whatever a session does, in any order and with any failures, it stays the
    session of its account and loses none of its keys; the keys that it holds are
    those that its stored keys open to; and nothing that was stored is lost.  Every
    operation ends, and it does not panic while no stored height and no reading of
    the clock is above a bound that is three below the largest height: it then
    raises the bound by three at most.  The operations are those that create, open,
    track and untrack databases, map and add keys, and record an access; an
    initializer of a new store is any code that only stages data. *)
Theorem session_invariant n u n' u' :
  node_ok n -> manager_ok (u_key_manager u) -> rtc session_step (n, u) (n', u') ->
  node_ok n' /\ manager_ok (u_key_manager u') /\ session_grows u u'
  /\ entries (node_engine n) ⊆ entries (node_engine n')
  /\ forall A (m : Um A), session_op A m ->
       is_Some (m u' n')
       /\ forall bound, room clock_millis n' bound -> bound + 3 < u64_max ->
            exists n2 r, m u' n' = Some (Done (n2, r)) /\ room clock_millis n2 (bound + 3).
Proof.
  intros Hn Hu Hs. assert (node_ok n' /\ manager_ok (u_key_manager u') /\ session_grows u u'
    /\ entries (node_engine n) ⊆ entries (node_engine n')) as (Hn' & Hu' & Hg & Hsub).
  { remember (n, u) as x eqn:Hx. remember (n', u') as y eqn:Hy. revert n u Hx Hn Hu.
    induction Hs as [z|x z y Hstep _ IH]; intros n u -> Hn Hu; [by injection Hy as -> ->|].
    inversion Hstep as [A m n0 u0 n1 u1 r Hop E]; subst.
    pose proof (sound_nsafe _ _ _ _ (session_op_safe _ _ Hop u Hu) n Hn) as H. rewrite E in H. destruct H as (Hn1 & Hsub1 & H).
    destruct (H (u1, r) eq_refl) as [Hg1 _]. cbn [fst] in Hg1.
    destruct (IH eq_refl n1 u1 eq_refl Hn1 (sg_manager _ _ Hg1 Hu)) as (? & ? & ? & ?).
    split; [done|]. split; [done|]. split; by etrans. }
  do 4 (split; [done|]). intros A m Hop. destruct (session_op_safe _ _ Hop u' Hu') as (_ & Hsafe & Hroom). split.
  - specialize (Hsafe n' Hn'). destruct (m u' n') as [o|]; [by exists o|done].
  - intros bound Hr Hlt. destruct (Hroom n' bound Hn' Hr Hlt) as (n2 & r & E & _ & Hr2 & _). by exists n2, r.
Qed.
End session_life.

(** ** Opening and mapping *)

Section mapping.
Context `{IS : InstanceSpec} `{JS : !JsonSpec} `{LS : !LruSpec CacheKey (list Byte.byte)} `{PJ : PeerJson} `{UJ : UserJson}.
Context `{NE : !NodeEnv} `{VS : !VaultSpec} `{UE : !UserEnv}.
Context `{RU : !RowCodec UserInfo} `{RK : !RowCodec UserKey} `{RL : !RowCodec Z}.
Context `{RT : !RowCodec TrackedDatabase} `{RQ : !RowCodec BootstrapRequest}.
Context (inst : Instance).

Lemma is_mapped_spec u id key : is_mapped u id key = true <->
  exists metadata, get_key_metadata (u_key_manager u) key = Some metadata /\ is_Some (uk_database_sigkeys metadata !! id).
Proof. unfold is_mapped. destruct (get_key_metadata _ _); [rewrite bool_decide_eq_true|]; naive_solver. Qed.

Lemma mapped_sigkey u id key : is_mapped u id key = true -> exists sigkey, key_mapping u key id = Ok (Some sigkey).
Proof.
  intros (metadata & Hm & [o Ho])%is_mapped_spec. unfold key_mapping. rewrite Hm, Ho. destruct o; eauto.
Qed.

(** The first element that a test accepts, in a list sorted by a measure. *)
Lemma find_sorted {A} (f : A -> bool) (ts : list (A * Z)) k :
  StronglySorted (fun a b => a.2 <= b.2) ts -> find f ts.*1 = Some k ->
  exists t, (k, t) ∈ ts /\ f k = true /\ forall k' t', (k', t') ∈ ts -> f k' = true -> t <= t'.
Proof.
  induction 1 as [|[k0 t0] ts Hs IH Hall]; simpl; [done|]. destruct (f k0) eqn:Ef.
  - intros [= ->]. exists t0. split; [set_solver|]. split; [done|]. intros k' t' [[= -> ->]|Hin]%elem_of_cons _; [lia|].
    rewrite Forall_forall in Hall. by apply (Hall _ Hin).
  - intros Hf. destruct (IH Hf) as (t & Hin & Hk & Hmin). exists t. split; [set_solver|]. split; [done|].
    intros k' t' [[= -> ->]|Hin']%elem_of_cons Hf'; [congruence|by eapply Hmin].
Qed.

(** The key that is found is mapped to the database and no older key is. *)
Lemma find_key_spec u id : manager_ok (u_key_manager u) ->
  match find_key u id with
  | None => forall key, is_mapped u id key = false
  | Some key => exists metadata, get_key_metadata (u_key_manager u) key = Some metadata /\ is_mapped u id key = true
      /\ forall key' metadata', get_key_metadata (u_key_manager u) key' = Some metadata' -> is_mapped u id key' = true ->
           uk_created_at metadata <= uk_created_at metadata'
  end.
Proof.
  intros Hm. unfold find_key, list_keys. change (list_key_ids keymap_order (u_key_manager u)) with (dated keymap_order (u_key_manager u)).*1.
  pose proof (dated_sorted keymap_order (u_key_manager u)) as Hs.
  pose proof (fun k t => elem_of_dated keymap_order keymap_order_ok (u_key_manager u) k t Hm) as Hd.
  destruct (find _ _) as [key|] eqn:Ef.
  - destruct (find_sorted _ _ _ Hs Ef) as (t & Hin & Hk & Hmin). apply Hd in Hin as (metadata & Hmeta & <-).
    exists metadata. split; [done|]. split; [done|]. intros key' metadata' Hm' Hk'. eapply Hmin; [|done]. apply Hd. eauto.
  - intros key. destruct (is_mapped u id key) eqn:E; [|done]. apply is_mapped_spec in E as (metadata & Hmeta & Ho).
    assert (key ∈ (dated keymap_order (u_key_manager u)).*1) as Hin.
    { apply list_elem_of_fmap. exists (key, uk_created_at metadata). split; [done|]. apply Hd. eauto. }
    apply list_elem_of_In in Hin. pose proof (find_none _ _ Ef _ Hin) as Hno.
    assert (is_mapped u id key = true) by (apply is_mapped_spec; eauto). congruence.
Qed.

(** How a handle comes from the session's keys. *)
Lemma open_mapped u id key sk sigkey n :
  get_signing_key (u_key_manager u) key = Some sk -> key_mapping u key id = Ok (Some sigkey) ->
  open_database_with_key u id key n = Some (Done (n,
    match entries (node_engine n) !! id with
    | Some _ => Ok (mkDbHandle id (Some (mkDatabaseKey sk sigkey)) false)
    | None => Err (EUser (DatabaseAccessPending id))
    end)).
Proof.
  intros Hk Hmap. unfold open_database_with_key, User_get_signing_key, nm_bind, nm_lift. rewrite Hk, Hmap.
  unfold nm_try, db_open, nm_bind, nm_read, open_database, storage_get.
  by destruct (entries (node_engine n) !! id).
Qed.

(** C18: a session opens a database with its oldest key that is mapped to it, under
    the identity that the key is mapped to, and with no other; opening changes
    nothing.  Without a mapped key it is refused, and where the database is not
    stored yet the answer is that the access is pending. *)
Theorem open_database_spec u id n : manager_ok (u_key_manager u) ->
  exists r, User_open_database u id n = Some (Done (n, r))
    /\ ((r = Err (EUser (NoKeyForDatabase id)) /\ forall key, is_mapped u id key = false)
        \/ exists key metadata sk sigkey,
             get_key_metadata (u_key_manager u) key = Some metadata
             /\ get_signing_key (u_key_manager u) key = Some sk /\ key_mapping u key id = Ok (Some sigkey)
             /\ (forall key' metadata', get_key_metadata (u_key_manager u) key' = Some metadata' ->
                   is_mapped u id key' = true -> uk_created_at metadata <= uk_created_at metadata')
             /\ r = match entries (node_engine n) !! id with
                    | Some _ => Ok (mkDbHandle id (Some (mkDatabaseKey sk sigkey)) false)
                    | None => Err (EUser (DatabaseAccessPending id))
                    end).
Proof.
  intros Hm. unfold User_open_database. pose proof (find_key_spec u id Hm) as Hf. destruct (find_key u id) as [key|].
  - destruct Hf as (metadata & Hmeta & Hmap & Hold). destruct (mapped_sigkey _ _ _ Hmap) as [sigkey Hsig].
    destruct (get_signing_key (u_key_manager u) key) as [sk|] eqn:Hsk.
    + eexists. split; [by apply open_mapped|]. right. exists key, metadata, sk, sigkey. done.
    + exfalso. apply km_get_None in Hsk. rewrite (mo_keys _ Hm) in Hsk. apply km_get_None in Hsk.
      unfold get_key_metadata in Hmeta. congruence.
  - eexists. split; [done|]. by left.
Qed.

(** The parts of a computation that succeeds. *)
Lemma um_bind_ok {A B} (m : Um A) (k : A -> Um B) u n n' u' b :
  um_bind m k u n = Some (Done (n', Ok (u', Ok b))) ->
  exists n1 u1 a, m u n = Some (Done (n1, Ok (u1, Ok a))) /\ k a u1 n1 = Some (Done (n', Ok (u', Ok b))).
Proof. unfold um_bind. intros (n1 & [u1 [a|e]] & E & H)%nm_bind_ok; [by exists n1, u1, a|done]. Qed.

Lemma um_node_ok {A} (m : User -> Nm A) u n n' u' a :
  um_node m u n = Some (Done (n', Ok (u', Ok a))) -> u' = u /\ m u n = Some (Done (n', Ok a)).
Proof. unfold um_node. intros (n1 & r & E%nm_try_ok & H)%nm_bind_ok. by injection H as <- <- ->. Qed.

Lemma um_add_key_ok metadata u n n' u' x :
  um_add_key metadata u n = Some (Done (n', Ok (u', Ok x))) ->
  n' = n /\ exists m, manager_add_key (u_key_manager u) metadata = Ok m /\ u' = with_manager u m.
Proof. unfold um_add_key. destruct (manager_add_key _ _) as [m|]; [|done]. intros [= <- <- _]. eauto. Qed.

Lemma in_tx_ok {A} t (m : Tx A) n n' t' a :
  in_tx t m n = Some (Done (n', Ok (t', a))) -> m (with_mem t (node_mem n)) = Some (Done (t', Ok a)).
Proof. unfold in_tx. destruct (m _) as [[[s [x|e]]|]|]; [|done..]. by intros [= _ <- <-]. Qed.

Lemma find_row_ok db key s s' uuid metadata :
  find_key_row db key s = Some (Done (s', Ok (uuid, metadata))) -> uk_key_id metadata = key.
Proof.
  unfold find_key_row. intros (s1 & rows & E & H)%tx_bind_ok. unfold Table_search in E.
  apply tx_bind_ok in E as (s2 & data & _ & E). injection E as _ E. destruct rows as [|row rows]; [done|]. injection H as _ ->.
  match type of E with search_rows ?a ?b ?c = _ => pose proof (search_rows_spec raw_cid a b c) as Hs end. rewrite E in Hs.
  destruct (proj1 (Hs uuid metadata)) as [Hq _]; [set_solver|]. by apply bool_decide_eq_true in Hq.
Qed.

Lemma map_row_ok db key id stored s s' metadata :
  map_row db key id stored s = Some (Done (s', Ok metadata)) ->
  uk_key_id metadata = key /\ uk_database_sigkeys metadata !! id = Some stored.
Proof.
  unfold map_row. intros (s1 & [uuid m] & E & H)%tx_bind_ok. apply find_row_ok in E. cbn zeta in H.
  apply tx_bind_ok in H as (s2 & [] & _ & H). injection H as _ <-. split; [done|]. apply lookup_insert_eq.
Qed.

Lemma stored_resolves key sigkey :
  match stored_sigkey key sigkey with None => SigKey_from_pubkey key | Some k => k end = sigkey.
Proof. unfold stored_sigkey. by destruct (decide _) as [->|]. Qed.

(** What is mapped is read back, and no other key is touched. *)
Lemma map_in_txn_ok tx key id sigkey u n n' u' tx' :
  map_key_in_txn tx key id sigkey u n = Some (Done (n', Ok (u', Ok tx'))) ->
  key_mapping u' key id = Ok (Some sigkey) /\ is_Some (get_signing_key (u_key_manager u') key)
  /\ forall key' id', key' <> key -> key_mapping u' key' id' = key_mapping u key' id'.
Proof.
  unfold map_key_in_txn. intros (n1 & u1 & [t1 metadata] & E1 & H)%um_bind_ok. apply um_node_ok in E1 as [-> E1].
  apply in_tx_ok in E1. apply tx_bind_ok in E1 as (s1 & [] & _ & E1). apply map_row_ok in E1 as [Hid Hmap].
  apply um_bind_ok in H as (n2 & u2 & x & E2 & H). injection H as <- <- <-.
  apply um_add_key_ok in E2 as [-> (m & Em & ->)]. destruct (add_key_inv _ _ _ Em) as (sk & _ & _ & Hg & Hm).
  unfold key_mapping. cbn [u_key_manager with_manager]. rewrite Hm, Hg, Hid, !decide_True by done. rewrite Hmap. split.
  - pose proof (stored_resolves key sigkey) as Hr. destruct (stored_sigkey key sigkey); congruence.
  - split; [by eexists|]. intros key' id' Hne. rewrite Hm. by rewrite decide_False by congruence.
Qed.

(** Mapping a key to an identity for a database is what the session reads back:
    afterwards the key has exactly that identity there, whether it is stored or
    left out as the key's own, and the identities of all other keys are unchanged. *)
Theorem map_key_reads_back key id sigkey u n n' u' :
  map_key key id sigkey u n = Some (Done (n', Ok (u', Ok tt))) ->
  key_mapping u' key id = Ok (Some sigkey) /\ is_mapped u' id key = true
  /\ is_Some (get_signing_key (u_key_manager u') key)
  /\ forall key' id', key' <> key -> key_mapping u' key' id' = key_mapping u key' id'.
Proof.
  unfold map_key. intros (n1 & u1 & tx & E1 & H)%um_bind_ok. apply um_node_ok in E1 as [-> _].
  apply um_bind_ok in H as (n2 & u2 & tx2 & E2 & H). apply um_bind_ok in H as (n3 & u3 & x & E3 & H).
  injection H as _ <-. apply um_node_ok in E3 as [-> _]. destruct (map_in_txn_ok _ _ _ _ _ _ _ _ _ E2) as (Hk & Hs & Ho).
  split; [done|]. split; [|done]. unfold key_mapping in Hk. unfold is_mapped.
  destruct (get_key_metadata _ key) as [metadata|]; [|done]. apply bool_decide_eq_true.
  destruct (uk_database_sigkeys metadata !! id); [by eexists|done].
Qed.

(** A mapping stays in the session although its commit failed. *)
Lemma failed_map_stays key id sigkey u n n1 tx n2 u2 tx2 n3 e :
  user_transaction u n = Some (Done (n1, Ok (u, Ok tx))) ->
  map_key_in_txn tx key id sigkey u n1 = Some (Done (n2, Ok (u2, Ok tx2))) ->
  user_commit tx2 u2 n2 = Some (Done (n3, Ok (u2, Err e))) ->
  map_key key id sigkey u n = Some (Done (n3, Ok (u2, Err e))) /\ key_mapping u2 key id = Ok (Some sigkey).
Proof.
  intros E1 E2 E3. split; [|by apply (map_in_txn_ok _ _ _ _ _ _ _ _ _ E2)].
  unfold map_key, um_bind, nm_bind. by rewrite E1, E2, E3.
Qed.

Lemma find_sigkeys_stored id key n n' l :
  find_sigkeys set_order map_order raw_cid id key n = Some (Done (n', Ok l)) -> is_Some (entries (node_engine n) !! id).
Proof.
  unfold find_sigkeys. intros (n1 & db & E & _)%nm_bind_ok. unfold db_open in E.
  apply nm_bind_ok in E as (n2 & r & E & _). unfold nm_read, open_database, storage_get in E.
  destruct (entries (node_engine n) !! id); [by eexists|done].
Qed.

(** The identity under which a key is mapped when it is validated. *)
Lemma validate_ok tx id key u n n' u' tx' : node_ok n ->
  validate_and_map_key_in_txn tx id key u n = Some (Done (n', Ok (u', Ok tx'))) ->
  is_Some (entries (node_engine n) !! id) /\ is_Some (get_signing_key (u_key_manager u') key)
  /\ exists n1 auth sigkey p,
       db_auth_settings set_order map_order raw_cid (mkDbHandle id None false) n = Some (Done (n1, Ok auth))
       /\ granted (entries (node_engine n)) auth key sigkey p
       /\ (forall k p', own_method auth key k p' -> Permission_leb p' p = true)
       /\ key_mapping u' key id = Ok (Some sigkey).
Proof.
  intros Hn. unfold validate_and_map_key_in_txn. intros (n1 & u1 & sk & E1 & H)%um_bind_ok.
  apply um_node_ok in E1 as [-> E1]. injection E1 as <- _.
  apply um_bind_ok in H as (n2 & u2 & l & E2 & H). apply um_node_ok in E2 as [-> E2].
  split; [by eapply find_sigkeys_stored|].
  destruct (find_sigkeys_ok set_order map_order raw_cid set_order_ok map_order_ok _ _ _ _ _ Hn E2)
    as (n3 & auth & l0 & E3 & Hl & Hg & Hown).
  destruct l as [|[sigkey p] l]; [done|]. destruct (map_in_txn_ok _ _ _ _ _ _ _ _ _ H) as (Hk & Hs & _).
  split; [done|]. exists n3, auth, sigkey, p. split; [done|]. split.
  { apply Hg. apply (elem_of_sort_by (fun a b : SigKey * Permission => Permission_leb b.2 a.2)). rewrite <- Hl. by left. }
  split; [|done]. intros k p' Hin. pose proof (proj2 (head_highest l0 p')) as Hh. rewrite <- Hl in Hh. apply Hh.
  exists k, p'. split; [by apply Hown|]. apply Permission_leb_le. lia.
Qed.

Lemma usafe_end {A} k (m : Um A) Q u n n' u' r : usafe k m Q -> manager_ok (u_key_manager u) -> node_ok n ->
  m u n = Some (Done (n', Ok (u', r))) ->
  node_ok n' /\ entries (node_engine n) ⊆ entries (node_engine n') /\ session_grows u u' /\ forall a, r = Ok a -> Q a.
Proof.
  intros Hs Hu Hn E. pose proof (sound_nsafe _ _ _ _ (Hs u Hu) n Hn) as Hs'. rewrite E in Hs'. destruct Hs' as (? & ? & H).
  destruct (H (u', r) eq_refl). done.
Qed.

(** The record of the database among those that the account tracks, read by a new
    transaction on the state [n], names the key. *)
Definition tracked_with (u : User) (id : ID) (key : PublicKey) (n : Node) : Prop :=
  exists n1 n2 tx tx1 row,
    db_new_transaction map_order (u_database u) n = Some (Done (n1, Ok tx))
    /\ in_tx tx (do _ <- open_table (u_database u) "databases"; tx_try (tracked_row (u_database u) id)) n1
       = Some (Done (n2, Ok (tx1, Ok row)))
    /\ td_key_id row = key.


(** A revoked entry still makes an instance admin: only its permission is read. *)
Lemma revoked_admin_passes u key sk users auth entry level n n1 n2 :
  get_default_key_id keymap_order (u_key_manager u) = Some key -> get_signing_key (u_key_manager u) key = Some sk ->
  users_db_for_session inst sk n = Some (Done (n1, Ok users)) ->
  db_auth_settings set_order map_order raw_cid users n1 = Some (Done (n2, Ok auth)) ->
  get_key_by_pubkey auth key = Ok entry -> key_permissions entry = Admin level -> key_status entry = Revoked ->
  admin inst u n = Some (Done (n2, Ok u)).
Proof.
  intros Hd Hk Hu Ha He Hp _. unfold admin, admin_check, default_signing_key, nm_bind, nm_lift.
  rewrite Hd, Hk, Hu, Ha, He. unfold nm_ret. by rewrite Hp.
Qed.
End mapping.

(** ** Concrete sessions *)

#[local] Existing Instance nat_cid.
#[local] Existing Instance byte_crypto.
#[local] Existing Instance list_lru.
#[local] Existing Instance wire_codec.
#[local] Existing Instance wire_json.
#[local] Existing Instance wire_peers.
#[local] Existing Instance wire_users.
#[local] Existing Instance wire_instance.
#[local] Existing Instance wire_env.

#[export] Instance tracked_database_dec : EqDecision (@TrackedDatabase nat_cid byte_crypto).
Proof. solve_decision. Defined.

(** Rows without properties. *)
Definition write_tracked (t : TrackedDatabase) : Bytes :=
  let s := td_sync_settings t in
  write_string (ID_to_string (td_database_id t)) ++ write_string (PublicKey_to_string (td_key_id t))
  ++ write_Z (if sync_enabled s then 1 else 0) ++ write_Z (if sync_on_commit s then 1 else 0)
  ++ write_option write_Z (interval_seconds s).

Definition read_tracked (b : Bytes) : option (TrackedDatabase * Bytes) :=
  id ← read_id b;
  pk ← read_parsed PublicKey_from_string id.2;
  e ← read_Z pk.2;
  c ← read_Z e.2;
  i ← read_option read_Z c.2;
  Some (mkTrackedDatabase id.1 pk.1 (mkSyncSettings (e.1 =? 1) (c.1 =? 1) i.1 ∅), i.2).

#[export] Instance tracked_codec : RowCodec TrackedDatabase := checked_row write_tracked read_tracked.

Definition no_user : User :=
  mkUser EmptyString EmptyString no_handle (mkUserKeyManager [] [] None)
    (mkUserInfo EmptyString ID_default (mkUserCredentials (public_key admin_sk) (Unencrypted admin_sk) None) 0 UserActive).

(** A new instance with the session of its first account. *)
Definition first_run : option (Outcome (Node * Result (Instance * User) Error)) :=
  create_internal "alice" (Some "secret") empty_node.

Definition first_node : Node := node_of first_run empty_node.
Definition first_inst : Instance := (value_of first_run (no_instance, no_user)).1.
Definition first_user : User := (value_of first_run (no_instance, no_user)).2.

Definition first_key : PublicKey :=
  default (public_key admin_sk) (get_default_key_id keymap_order (u_key_manager first_user)).

Definition first_sk : PrivateKey := default admin_sk (get_signing_key (u_key_manager first_user) first_key).

(** A database that the first account's key has created outside of the session. *)
Definition shared_run : option (Outcome (Node * Result DbHandle Error)) := database_create first_sk Doc_new first_node.

Definition shared_node : Node := node_of shared_run first_node.
Definition shared_id : ID := db_root (value_of shared_run no_handle).

Lemma first_checked : match first_run with Some (Done (_, Ok _)) => true | _ => false end = true.
Proof. vm_cast_no_check (eq_refl true). Qed.

Lemma first_ok : node_ok first_node /\ manager_ok (u_key_manager first_user).
Proof.
  pose proof first_checked as H. unfold first_node, first_user, node_of, value_of.
  destruct first_run as [[[n [[inst u]|]]|]|] eqn:E; [|discriminate H..].
  exact (create_internal_ok "alice" (Some "secret") empty_node n inst u empty_node_ok E).
Qed.

Lemma shared_node_ok : node_ok shared_node.
Proof. unfold shared_node, shared_run. apply node_of_ok; [apply safe_create|apply first_ok]. Qed.

(** The result of an operation of a session. *)
Definition um_done {A} (r : option (Outcome (Node * Result (User * Result A Error) Error))) : bool :=
  match r with Some (Done (_, Ok (_, Ok _))) => true | _ => false end.

Lemma um_done_inv {A} (r : option (Outcome (Node * Result (User * Result A Error) Error))) : um_done r = true ->
  exists n u a, r = Some (Done (n, Ok (u, Ok a))).
Proof. destruct r as [[[n [[u [a|]]|]]|]|]; [|done..]. intros _. by exists n, u, a. Qed.

(** The first account maps its key to a name and tracks the shared database, which
    it did not track before. *)
Definition first_checks (inst : Instance) (u : User) (key : PublicKey) (id : ID) (n n1 : Node) : bool :=
  match is_admin inst u n with Some (Done (_, Ok b)) => b | _ => false end
  && um_done (map_key key one_root (SigKey_from_name "laptop") u n)
  && um_done (track_database inst id key SyncSettings_enabled u n1)
  && match key_mapping u key id with Ok (Some _) => false | _ => true end.

Lemma first_holds : first_checks first_inst first_user first_key shared_id first_node shared_node = true.
Proof. vm_cast_no_check (eq_refl true). Qed.

Lemma first_inv inst u key id n n1 : first_checks inst u key id n n1 = true ->
  (exists n', is_admin inst u n = Some (Done (n', Ok true)))
  /\ (exists n' u', map_key key one_root (SigKey_from_name "laptop") u n = Some (Done (n', Ok (u', Ok tt))))
  /\ (exists n' u', track_database inst id key SyncSettings_enabled u n1 = Some (Done (n', Ok (u', Ok tt)))).
Proof.
  unfold first_checks. rewrite !andb_true_iff. intros [[[Ha Hm] Ht] _].
  destruct (um_done_inv _ Hm) as (n2 & u2 & [] & ->). destruct (um_done_inv _ Ht) as (n3 & u3 & [] & ->).
  destruct (is_admin inst u n) as [[[n4 [b|]]|]|]; [|done..]. subst b. eauto 10.
Qed.

(** The first account of an instance is an instance admin. *)
Lemma first_account_is_admin : exists n', is_admin first_inst first_user first_node = Some (Done (n', Ok true)).
Proof. exact (proj1 (first_inv _ _ _ _ _ _ first_holds)). Qed.

Lemma map_key_reads_back_witness : exists n' u',
  map_key first_key one_root (SigKey_from_name "laptop") first_user first_node = Some (Done (n', Ok (u', Ok tt)))
  /\ key_mapping u' first_key one_root = Ok (Some (SigKey_from_name "laptop")).
Proof.
  destruct (first_inv _ _ _ _ _ _ first_holds) as (_ & (n' & u' & E) & _). exists n', u'. split; [exact E|].
  exact (proj1 (map_key_reads_back first_key one_root (SigKey_from_name "laptop") first_user first_node n' u' E)).
Defined.


Lemma open_database_spec_witness : exists r, User_open_database first_user shared_id shared_node = Some (Done (shared_node, r))
  /\ ((r = Err (EUser (NoKeyForDatabase shared_id)) /\ forall key, is_mapped first_user shared_id key = false)
      \/ exists key metadata sk sigkey,
           get_key_metadata (u_key_manager first_user) key = Some metadata
           /\ get_signing_key (u_key_manager first_user) key = Some sk /\ key_mapping first_user key shared_id = Ok (Some sigkey)
           /\ (forall key' metadata', get_key_metadata (u_key_manager first_user) key' = Some metadata' ->
                 is_mapped first_user shared_id key' = true -> uk_created_at metadata <= uk_created_at metadata')
           /\ r = match entries (node_engine shared_node) !! shared_id with
                  | Some _ => Ok (mkDbHandle shared_id (Some (mkDatabaseKey sk sigkey)) false)
                  | None => Err (EUser (DatabaseAccessPending shared_id))
                  end).
Proof. exact (open_database_spec first_user shared_id shared_node (proj2 first_ok)). Defined.

Lemma first_heights : forallb (fun p => heights_check 100 p.2) (map_to_list (entries (node_engine first_node))) = true.
Proof. vm_cast_no_check (eq_refl true). Qed.

(** The new instance has room for its first heights, and keeps it. *)
Lemma first_room : room clock_millis first_node 100.
Proof. split; [done|intros t o; by compute|]. apply heights_checked, first_heights. Qed.

Lemma session_invariant_witness : exists n' u',
  map_key first_key one_root (SigKey_from_name "laptop") first_user first_node = Some (Done (n', Ok (u', Ok tt)))
  /\ node_ok n' /\ session_grows first_user u' /\ entries (node_engine first_node) ⊆ entries (node_engine n')
  /\ exists n2 r, add_private_key None first_user first_node = Some (Done (n2, r)) /\ room clock_millis n2 103.
Proof.
  destruct (first_inv _ _ _ _ _ _ first_holds) as (_ & (n' & u' & E) & _). exists n', u'. split; [exact E|].
  destruct (session_invariant first_inst first_node first_user n' u' (proj1 first_ok) (proj2 first_ok)) as (Hn & _ & Hg & Hs & _).
  { apply rtc_once. exact (SessionStep first_inst unit _ _ _ _ _ _ (OpMapKey first_inst first_key one_root _) E). }
  split; [exact Hn|]. split; [exact Hg|]. split; [exact Hs|].
  destruct (session_invariant first_inst first_node first_user first_node first_user (proj1 first_ok) (proj2 first_ok))
    as (_ & _ & _ & _ & Hop); [apply rtc_refl|].
  exact (proj2 (Hop _ _ (OpAddKey first_inst None)) 100 first_room eq_refl).
Defined.
